(* ===== verification/_CoqProject ===== *)
-Q . S2P
Prelude.v
TransportCore.v
Trace.v
MoldWire.v
Reassembly.v
Gap.v
Arbiter.v
Receiver.v
ReceiverOrder.v
ReceiverSafety.v
ReceiverLive.v
MoldWait.v
MoldSafety.v
ReceiverCases.v
Pools.v
Bypass.v
FrameMemory.v
Decap.v
AfxdpRing.v
Afxdp.v
XdpProgram.v
AfxdpOpen.v
AfxdpMemory.v
Dpdk.v
UringParts.v
UringKernel.v
Uring.v
UringSafety.v
UringDrive.v
UringMemory.v
SoupWire.v
SoupText.v
SoupSession.v
SoupStream.v
Socket.v
SocketSafety.v
SocketRuntimes.v
Stacks.v
Feeds.v
BackendFeeds.v
MoldTokio.v
Conformance.v
ConformanceDatagram.v
ConformanceSpec.v
ConformanceMock.v
ConformanceStream.v
ConformanceStreamSpec.v
SoupClient.v
SoupAsync.v
SoupStacks.v
SoupInflate.v
