(* ===== verification/Prelude.v ===== *)
(** * Polaris-trade: a verification of its market-data clients and their transports

    Polaris-trade receives exchange market data. Two protocol clients sit on a family of
    interchangeable transports:

    - [crates/transports/core]: the traits every backend implements, the buffer pools, the
      kernel-bypass shell that turns a polled NIC driver into a transport, and the decapsulator
      that turns raw Ethernet frames into datagrams;
    - [crates/clients/moldudp]: MoldUDP64, a sequenced datagram feed. One receiver merges one
      or two redundant legs, reorders, tracks gaps and re-requests what is missing;
    - [crates/clients/soupbintcp]: SoupBinTCP, a login session on a byte stream, with one
      state machine driven by a synchronous and an asynchronous API;
    - [crates/transports/{socket,io-uring,afxdp,dpdk}]: the backends.

    This development models the first three in full detail, then the socket transports and the
    io_uring, AF_XDP and DPDK drivers, and proves what a caller relies on. Every model is a function of the state the
    code keeps; theorems are about those functions.

    ** Conventions

    - [res E A] is [Result<A, E>] plus [Panic]: a slice out of range, an [advance] past the end,
      an [Instant] overflow. Operations on [&mut self] return the result and the new state, and
      an early [?] returns the state as it is at that point.
    - The release profile wraps on overflow, so [+] and [-] on [u64] are [u64_add] and [u64_sub].
      Bytes are [Byte.byte], slices are lists, [Instant] and [Duration] nanoseconds in [Z].
    - A loop is [iterate] or [loop] over a round function. Where the loop's own data bounds it
      (dispatching a buffer, flushing a queue) the fuel is that bound and a lemma shows it is
      enough; where a transport bounds it, the fuel is a parameter, the backlog of the transport
      ([bc_backlog], [view]) measures it, and a termination theorem says that a fuel above the
      backlog gives a result.
    - Traits are type classes. What a trait's documentation promises is a separate class or
      record of laws ([burst_contract], [driver_contract], [StreamViewOk], [StreamOk],
      [AsyncOk], [InflatorOk]); implementations prove it, clients assume it, and scripted
      implementations ([Scripted], [ScriptedStream], [MockDriver]) witness that it can hold.
    - What lies below a driver is a class of operations and a record of laws: [XskKernel] and
      [kernel_contract] for AF_XDP, [IoUring] and [ring_contract] for io_uring, [Pmd] and
      [pmd_contract] for DPDK, [UdpSys], [TcpSys] and their laws for sockets. The laws state
      documented kernel behaviour, for rings as moves on the memory both sides share; scripted
      kernels keep them and run the worked examples.
    - Metrics and log calls do not touch state and are left out, except in the bypass shell
      where the increments are part of the result.

    ** Files

    - [Prelude]: results, machine integers, slices, byte codecs, loops, the clock, tactics.
    - [TransportCore]: [error.rs], [config.rs], [transport.rs]: errors, [FrameBatch], traits,
      and [burst_contract], the receive contract of [DatagramRecv] and [L2Recv].
    - [Trace]: computations that log the calls they make and the values they drop; shared by
      the constructors below.
    - [Pools]: [pool/*.rs]. [VecPool] and [IndexPool] with the set of live handles; no slab is
      ever lost or in two places.
    - [Bypass]: [bypass/*.rs], [telemetry.rs]. Over any driver that keeps [driver_contract] the
      shell keeps [burst_contract]; an error met after frames were pushed is deferred, not lost;
      the mock driver's frames are stable while held.
    - [FrameMemory]: a driver whose memory a device writes into, as an interface: its calls, drops
      and the device's writes, between calls and during them, as steps; the bytes of live frames
      are unchanged by all of them. A call that neither reads nor writes bytes ([o_blind]) commutes
      with the writes, so writes during it are writes before it that land where they may.
    - [Decap]: [decap.rs]. [encode_frame] is the frame format; [parse_udp] accepts exactly the
      frames it builds, and [UdpDecap] filters a queue of frames without loss or reordering.
    - [MoldWire]: [wire.rs], [frame.rs], [error.rs], [event.rs] of moldudp: the packet codec.
    - [Reassembly]: [reassembly.rs]: the ring, as a partial map from sequence to message.
    - [Gap]: [gap.rs]: the set of missing sequences, the re-request list, the rate limiter.
    - [Arbiter]: [ab.rs]: first arrival wins between the legs; how the candidates move, and
      which become confirmed gaps.
    - [Receiver]: [receiver/*.rs], [config.rs]: the receiver, over any [DatagramRecv] legs and
      any [Recovery] mode.
    - [ReceiverOrder]: whatever arrives, delivery is one run of consecutive sequences.
    - [ReceiverSafety]: the invariant behind safety, on any number of legs: what is buffered or
      queued is authentic, the arbiter's window knows exactly the messages taken, and every hole
      is tracked or a candidate; [poll] keeps it until an overflow is reported, and on one leg
      always, the gap set being exact past an overflow for the sequences no packet carries.
    - [ReceiverLive]: [poll] returns, and returns nothing only when each leg was asked, with room
      for datagrams, and had none.
    - [MoldWait]: [receiver/wait.rs]: the asynchronous [recv] and [recv_owned], dropped at any
      await; order and termination of calls of every kind.
    - [MoldSafety]: so do [recv] and [recv_owned]: no call panics, every message is the block its
      number names, and what is re-requested is exactly what is missing; past an overflow on one
      leg, what never came stays tracked ([uncarried_stay_tracked]).
    - [ReceiverCases]: two runs that show what a full reassembly ring does, and that on one leg
      the loss is for good whatever comes later.
    - [AfxdpRing]: [afxdp/ring.rs]. The single-producer single-consumer ring as steps of two
      processes on shared words, then as a queue when the other side is still.
    - [Afxdp]: [afxdp/{config,driver}.rs]: configuration checks, [locate], [Rings],
      [XskDriver]; every chunk is in one place and [driver_contract] holds.
    - [XdpProgram]: [afxdp/xdp/program.rs], the filter as its 25 instructions in bytes, run by
      the interpreter of its own test file.
    - [AfxdpOpen]: [XskDriver::open] and [map_ring] of [driver.rs], [xdp/{map,link,sys,mod}.rs],
      [AfxdpL2] of [lib.rs]: the calls, their errors and what is dropped on the way out.
    - [AfxdpMemory], [UringMemory]: the AF_XDP and io_uring drivers, as [bind] leaves them,
      implement that interface.
    - [Dpdk]: [dpdk/{driver,frame,config,lib}.rs]: [settle] and [PmdDriver].
    - [UringParts]: [io-uring/{completion,config,probe,ring_mem}.rs] and, of [driver.rs],
      [Fleet] and [provide_runs].
    - [UringKernel]: the ring the driver talks to and the kernel's moves [kstep] behind it. When a
      request ends is the kernel's own rule ([ends]), stated without the driver's code; that the
      driver's count of its recvs agrees is a theorem.
    - [Uring]: [io-uring/driver.rs]: [bind], [poll_frames] and its parts, [drop].
    - [UringSafety]: where every slot and every recv is; each method keeps it.
    - [UringDrive]: histories from [bind], a scripted ring, the driver's properties.
    - [SoupWire]: [wire.rs], [error.rs], [event.rs], [frame.rs], [config.rs] of soupbintcp.
    - [SoupText]: the ASCII login fields, with the standard library's decimal and UTF-8 code.
    - [SoupSession]: [session.rs]: [Session] and the synchronous [start] and [poll].
    - [SoupStream]: [expected], the messages a list of packets calls for, and [owes], the
      account that each dispatch round draws on.
    - [Socket]: [socket/*.rs]: the receive loop over a [VecPool], streams, readiness, the ready
      set, configuration and opening.
    - [SocketSafety]: the socket transports keep the receive and the stream contract; what a
      burst delivers and what opening a socket calls.
    - [SocketRuntimes]: [socket/{mio,tokio}/*.rs]: the sockets under mio and tokio keep the same
      contracts.
    - [Stacks]: the MoldUDP receiver on legs of each backend: its polls return.
    - [Feeds]: what the receiver hands out, seen from the wire: through the shell and the
      decapsulator every message is carried by a UDP frame off the wire, sent to the leg's port
      and address.
    - [BackendFeeds]: the wires of the four backends: the datagrams a socket still has, the slots
      of the io_uring and AF_XDP memories, the bursts of a DPDK port.
    - [MoldTokio]: a receiver and its requester on tokio's sockets, from the laws of the system
      alone: calls of every kind return, do not panic and hand out what was received.
    - [Conformance], [ConformanceDatagram], [ConformanceStream]: [testing/conformance/*.rs]: the
      suite every backend runs, as computations that pass, violate or do not return.
    - [ConformanceSpec], [ConformanceMock], [ConformanceStreamSpec]: what the suite asks for as
      specifications; the mock driver and a TCP stream meet them, other backends of the
      repository's tests pass by evaluation, three broken ones are caught.
    - [SoupClient]: runs of the synchronous client: what it delivers, what it sends, that it
      returns, its deadlines and its life cycle.
    - [SoupAsync]: [client.rs]: the asynchronous driver, every wait an answer of the
      environment; it owes its caller the same account.
    - [SoupStacks]: the SoupBinTCP clients on mio's and tokio's TCP streams.
    - [SoupInflate]: [compressed.rs] and the compressed [ingest]: bounded, exact, terminating.

    ** What the theorems show together

    A MoldUDP caller, by [poll], [recv] or [recv_owned], dropped or not, sees one gapless run of
    sequence numbers ([calls_in_order]), each message the bytes that were
    sent under that number (polled on a decapsulated leg, in a frame that came off the wire,
    [decap_legs_authentic]), and parks only when nothing is left to read; what was missed is what
    is re-requested. The last two assume of the sources that sequence numbers stay below 2^64,
    and, on several legs, that no full reassembly ring was reported. A SoupBinTCP caller sees the server's packets once each, in order and
    numbered from the login answer, by either API and however reads cut the stream; what it sends
    leaves whole and in order; closed stays closed. Both rest on the transports' contract, which
    the shell, the decapsulator, the mock driver and the sockets are proved to keep; [Stacks],
    [BackendFeeds], [MoldTokio] and [SoupStacks] put the parts together for each backend, and the conformance
    suite is shown to ask no more than the specification of a queue over a pool, or of a stream
    ([backend_passes], [stream_passes]).

    Below the contract, each kernel-bypass driver is shown to own its memory: after any polls and
    drops every chunk or slot is in exactly one place, so no live frame shares memory with
    another or with the kernel, and whatever the kernel writes meanwhile its bytes stay
    ([xsk_bound_conserved], [uring_slots_conserved]), each received
    buffer becomes one frame or one count ([xsk_poll_exact], [uring_poll_exact],
    [dpdk_poll_exact]), and the io_uring driver frees its memory only once the kernel can no
    longer write to it ([uring_drop_safe]). The XDP filter redirects exactly the frames it
    should, hence all that the decapsulator accepts ([xdp_program_exact], [xdp_covers_decap]).
    Opening is exact: the calls the configuration asks for, in order, the failed one named,
    nothing leaked ([xsk_bind_exact], [socket_opening_exact]).

    The contract has edges the models made visible, each a theorem on a concrete run: a full
    reassembly ring drops a message that was already struck off the gap list
    ([overflow_forgets_gap]), with two legs it makes the next [poll] slice out of range
    ([overflow_ab_panics]), and a closed session that cannot flush announces a deadline already
    past ([closed_deadline_past]). Below it, an io_uring driver that reads a late ENOBUFS stays
    starved while the kernel holds free buffers ([starved_with_free_slot]), and a refused refill
    meets [drain_freed] with a vector that is not empty ([leftover_swapped]).

    ** Not modelled, and why

    - [crates/transports/socket] off Linux: the Windows and BSD branches of [cfg].
    - [ffi.rs] and the C shim of DPDK.
    - Which bytes a device writes: for AF_XDP and io_uring writes are arbitrary bytes, at any
      moment, between calls of the driver and during them; for DPDK an mbuf comes with its bytes.
    - [Debug] and [Display] text, metric names, serde attributes, benches, fuzz targets.

    What remains is outside the Rust sources of the clients and transports: the C shim, and the
    behaviour of the kernel and of DPDK beyond the laws stated here. *)

From Stdlib Require Import ZArith Lia Strings.Byte.
From stdpp Require Import prelude list gmap.

Open Scope Z_scope.

(** ** Results: [Result<A, E>] plus the panics safe Rust can raise *)

Inductive res (E A : Type) : Type :=
  | Ok (a : A)
  | Err (e : E)
  | Panic.
Arguments Ok {E A} a.
Arguments Err {E A} e.
Arguments Panic {E A}.

Declare Scope res_scope.
Delimit Scope res_scope with res.

(** [let* x := c in k] is Rust's [let x = c?; k]. *)
Notation "'let*' x ':=' c 'in' k" :=
  (match c with Ok x => k | Err e => Err e | Panic => Panic end)
  (at level 10, x pattern, c at level 200, k at level 200) : res_scope.

Open Scope res_scope.

(** [Option::ok_or]. *)
Definition ok_or {E A} (o : option A) (e : E) : res E A :=
  match o with Some a => Ok a | None => Err e end.

(** [Result::map_err]. *)
Definition map_err {E E' A} (f : E -> E') (r : res E A) : res E' A :=
  match r with Ok a => Ok a | Err e => Err (f e) | Panic => Panic end.

Definition is_ok {E A} (r : res E A) : bool :=
  match r with Ok _ => true | _ => false end.

(** ** Machine integers: unsigned values live in [Z], operations wrap at their width *)

Abbreviation U8_MAX := 255.
Abbreviation U16_MAX := 65535.
Abbreviation U32_MAX := 4294967295.
Abbreviation U64_MAX := 18446744073709551615.
Abbreviation I32_MAX := 2147483647.

Abbreviation W16 := 65536.
Abbreviation W32 := 4294967296.
Abbreviation W64 := 18446744073709551616.

(** [+] and [-] of the release profile (no overflow checks): modulo the width. *)
Definition u64_add (a b : Z) : Z := (a + b) mod W64.
Definition u64_sub (a b : Z) : Z := (a - b) mod W64.
Definition u32_wrapping_add (a b : Z) : Z := (a + b) mod W32.
Definition u32_wrapping_sub (a b : Z) : Z := (a - b) mod W32.
Definition u16_wrapping_add (a b : Z) : Z := (a + b) mod W16.

Definition u64_saturating_add (a b : Z) : Z := Z.min U64_MAX (a + b).
Definition saturating_sub (a b : Z) : Z := Z.max 0 (a - b).

(** [usize::try_from], [u32::try_from], [u16::try_from] on non-negative values. *)
Definition try_u32 (z : Z) : option Z := if z <=? U32_MAX then Some z else None.
Definition try_u16 (z : Z) : option Z := if z <=? U16_MAX then Some z else None.
Definition try_u8 (z : Z) : option Z := if z <=? U8_MAX then Some z else None.

(** [checked_add] and [checked_mul] against a width's maximum. *)
Definition checked_add (max a b : Z) : option Z := if a + b <=? max then Some (a + b) else None.
Definition checked_mul (max a b : Z) : option Z := if a * b <=? max then Some (a * b) else None.

Definition u64 (z : Z) : Prop := 0 <= z < W64.
Definition u32 (z : Z) : Prop := 0 <= z < W32.
Definition u16 (z : Z) : Prop := 0 <= z < W16.

(** Length of a slice as the integer the code computes with. *)
Definition len {A} (l : list A) : Z := Z.of_nat (length l).

(** Time: [Instant] and [Duration] as nanoseconds. [Instant::duration_since] saturates at zero. *)
Definition duration_since (now earlier : Z) : Z := Z.max 0 (now - earlier).
Definition NANOS_PER_SEC : Z := 1000000000.
Definition NANOS_PER_MILLI : Z := 1000000.

(** [Instant::now]: the [reads]-th reading, and one more read taken. *)
Record Clock := { readings : nat -> Z; reads : nat }.
Definition now_of (c : Clock) : Z * Clock :=
  (readings c (reads c), {| readings := readings c; reads := S (reads c) |}).

(** ** Slices *)

(** [slice::split_first_chunk::<N>]. *)
Definition split_first_chunk {A} (n : nat) (l : list A) : option (list A * list A) :=
  if (n <=? length l)%nat then Some (take n l, drop n l) else None.

(** [slice.get(lo..hi)]: [None] when the range is inverted or runs past the end. *)
Definition get_range {A} (lo hi : Z) (l : list A) : option (list A) :=
  if (0 <=? lo) && (lo <=? hi) && (hi <=? len l)
  then Some (take (Z.to_nat (hi - lo)) (drop (Z.to_nat lo) l)) else None.

(** [&slice[lo..hi]]: the same, panicking instead. *)
Definition index_range {E A} (lo hi : Z) (l : list A) : res E (list A) :=
  match get_range lo hi l with Some s => Ok s | None => Panic end.

(** ** Bytes and the fixed-width big- and little-endian codecs *)

Abbreviation byte := Byte.byte.

Definition byte_Z (b : byte) : Z := Z.of_N (Byte.to_N b).
Definition Z_byte (z : Z) : byte := default Byte.x00 (Byte.of_N (Z.to_N (z mod 256))).

#[export] Instance byte_eq_dec : EqDecision byte := Byte.byte_eq_dec.
#[export] Instance byte_inhabited : Inhabited byte := populate Byte.x00.

(** [uN::from_be_bytes]. *)
Fixpoint be_acc (acc : Z) (bs : list byte) : Z :=
  match bs with
  | [] => acc
  | b :: bs => be_acc (acc * 256 + byte_Z b) bs
  end.
Definition from_be_bytes (bs : list byte) : Z := be_acc 0 bs.

(** [uN::to_be_bytes] of an [n]-byte integer. *)
Fixpoint to_be_bytes (n : nat) (z : Z) : list byte :=
  match n with
  | O => []
  | S n => to_be_bytes n (z / 256) ++ [Z_byte z]
  end.

(** [iN::to_le_bytes] and [uN::from_le_bytes] of an [n]-byte integer. *)
Fixpoint to_le_bytes (n : nat) (z : Z) : list byte :=
  match n with
  | O => []
  | S n => Z_byte z :: to_le_bytes n (z / 256)
  end.
Fixpoint from_le_bytes (bs : list byte) : Z :=
  match bs with
  | [] => 0
  | b :: bs => byte_Z b + 256 * from_le_bytes bs
  end.

(** ** Loops *)

(** A [loop]/[while] body either goes round again or leaves with a value. *)
Inductive step (S R : Type) : Type :=
  | Again (s : S)
  | Leave (r : R).
Arguments Again {S R} s.
Arguments Leave {S R} r.

Fixpoint iterate {S R} (body : S -> step S R) (fuel : nat) (s : S) : option R :=
  match fuel with
  | O => None
  | Datatypes.S fuel =>
      match body s with
      | Leave r => Some r
      | Again s' => iterate body fuel s'
      end
  end.

(** The same for a body that may itself run out of fuel. *)
Fixpoint loop {S R} (body : S -> option (step S R)) (fuel : nat) (s : S) : option R :=
  match fuel with
  | O => None
  | Datatypes.S fuel =>
      match body s with
      | Some (Leave r) => Some r
      | Some (Again s') => loop body fuel s'
      | None => None
      end
  end.

(** ** Tactics *)

(** Destructs the scrutinee of a match or if in the goal or a hypothesis. *)
Ltac case_on :=
  match goal with
  | H : context [match ?x with _ => _ end] |- _ => destruct x eqn:?; simplify_eq/=
  | |- context [match ?x with _ => _ end] => destruct x eqn:?; simplify_eq/=
  end.

(** Turns boolean comparisons on [Z] and [nat] into facts [lia] reads. *)
Ltac bool_facts :=
  repeat match goal with
  | H : (_ && _) = true |- _ => apply andb_true_iff in H as [? ?]
  | H : (_ || _) = false |- _ => apply orb_false_iff in H as [? ?]
  | H : negb _ = true |- _ => apply negb_true_iff in H
  | H : negb _ = false |- _ => apply negb_false_iff in H
  | H : (_ <=? _) = true |- _ => apply Z.leb_le in H
  | H : (_ <=? _) = false |- _ => apply Z.leb_gt in H
  | H : (_ <? _) = true |- _ => apply Z.ltb_lt in H
  | H : (_ <? _) = false |- _ => apply Z.ltb_ge in H
  | H : (_ >=? _) = true |- _ => rewrite Z.geb_leb in H; apply Z.leb_le in H
  | H : (_ >=? _) = false |- _ => rewrite Z.geb_leb in H; apply Z.leb_gt in H
  | H : (_ >? _) = true |- _ => rewrite Z.gtb_ltb in H; apply Z.ltb_lt in H
  | H : (_ >? _) = false |- _ => rewrite Z.gtb_ltb in H; apply Z.ltb_ge in H
  | H : (_ =? _) = true |- _ => apply Z.eqb_eq in H
  | H : (_ =? _) = false |- _ => apply Z.eqb_neq in H
  | H : (_ <=? _)%nat = true |- _ => apply Nat.leb_le in H
  | H : (_ <=? _)%nat = false |- _ => apply Nat.leb_gt in H
  | H : (_ <? _)%nat = true |- _ => apply Nat.ltb_lt in H
  | H : (_ <? _)%nat = false |- _ => apply Nat.ltb_ge in H
  | H : (_ =? _)%nat = true |- _ => apply Nat.eqb_eq in H
  | H : (_ =? _)%nat = false |- _ => apply Nat.eqb_neq in H
  end.

(** Arithmetic after reading the tests the code made. *)
Ltac zarith := bool_facts; unfold len, u64, u32, u16 in *; lia.

Create HintDb polaris discriminated.
Create Rewrite HintDb polaris.

(** ** Lemmas on lengths and slices *)

Lemma len_nil {A} : len (@nil A) = 0.
Proof. done. Qed.

Lemma len_cons {A} (x : A) l : len (x :: l) = len l + 1.
Proof. unfold len. simpl. lia. Qed.

Lemma len_app {A} (l k : list A) : len (l ++ k) = len l + len k.
Proof. unfold len. rewrite length_app. lia. Qed.

Lemma len_nonneg {A} (l : list A) : 0 <= len l.
Proof. unfold len. lia. Qed.

Lemma len_insert {A} (l : list A) i x : len (<[i := x]> l) = len l.
Proof. unfold len. by rewrite length_insert. Qed.

#[export] Hint Rewrite @len_nil @len_cons @len_app @len_insert : polaris.
#[export] Hint Resolve len_nonneg : polaris.

Lemma split_first_chunk_Some {A} n (l a b : list A) :
  split_first_chunk n l = Some (a, b) -> l = a ++ b /\ length a = n.
Proof.
  unfold split_first_chunk. intros H. case_on. bool_facts.
  by rewrite take_drop, length_take_le.
Qed.

Lemma split_first_chunk_None {A} n (l : list A) :
  split_first_chunk n l = None <-> (length l < n)%nat.
Proof. unfold split_first_chunk. case_on; bool_facts; split; (done || lia). Qed.

Lemma split_first_chunk_app {A} n (a b : list A) :
  length a = n -> split_first_chunk n (a ++ b) = Some (a, b).
Proof.
  intros <-. unfold split_first_chunk. rewrite length_app.
  rewrite (proj2 (Nat.leb_le _ _)) by lia. by rewrite take_app_length, drop_app_length.
Qed.

Lemma get_range_Some {A} lo hi (l s : list A) :
  get_range lo hi l = Some s <->
  0 <= lo <= hi /\ hi <= len l /\ s = take (Z.to_nat (hi - lo)) (drop (Z.to_nat lo) l).
Proof.
  unfold get_range. case_on; bool_facts; [split; [intros; simplify_eq; zarith || (repeat split; zarith) | intros (?&?&->); done]|].
  split; [done|]. intros (?&?&?). apply andb_false_iff in Heqb as [Hb|Hb]; bool_facts; [|lia].
  apply andb_false_iff in Hb as [Hb|Hb]; bool_facts; lia.
Qed.

Lemma get_range_length {A} lo hi (l s : list A) :
  get_range lo hi l = Some s -> len s = hi - lo.
Proof.
  intros (?&?&->)%get_range_Some. unfold len in *. rewrite length_take, length_drop. lia.
Qed.

Lemma get_range_is_Some {A} lo hi (l : list A) :
  0 <= lo <= hi -> hi <= len l -> exists s, get_range lo hi l = Some s.
Proof. intros. eexists. by apply get_range_Some. Qed.

(** The middle of a concatenation is what its offsets select. *)
Lemma get_range_middle {A} (a s b : list A) :
  get_range (len a) (len a + len s) (a ++ s ++ b) = Some s.
Proof.
  apply get_range_Some. rewrite !len_app.
  pose proof (len_nonneg a). pose proof (len_nonneg s). pose proof (len_nonneg b).
  split_and!; [lia..|]. replace (len a + len s - len a) with (len s) by lia.
  unfold len. rewrite !Nat2Z.id. by rewrite drop_app_length, take_app_length.
Qed.

Lemma get_range_split {A} lo hi (l a s b : list A) :
  l = a ++ s ++ b -> lo = len a -> hi = len a + len s -> get_range lo hi l = Some s.
Proof. intros -> -> ->. apply get_range_middle. Qed.

Lemma get_range_to_end {A} lo (l : list A) :
  0 <= lo <= len l -> get_range lo (len l) l = Some (drop (Z.to_nat lo) l).
Proof.
  intros. apply get_range_Some. split_and!; [lia..|].
  rewrite take_ge; [done|]. rewrite length_drop. unfold len in *. lia.
Qed.

Lemma length_omap_le {A B} (f : A -> option B) (l : list A) : (length (omap f l) <= length l)%nat.
Proof.
  induction l as [|x l IH]; [done|]. change (omap f (x :: l)) with (match f x with Some y => y :: omap f l | None => omap f l end).
  destruct (f x); cbn [length]; lia.
Qed.

(** Overwriting an element that satisfies [P] by one that does not. *)
Lemma length_filter_insert {A} (P : A -> Prop) {_ : forall x, Decision (P x)} (l : list A) i x y :
  l !! i = Some x -> P x -> ~ P y ->
  S (length (filter P (<[i:=y]> l))) = length (filter P l).
Proof.
  intros Hi Hx Hy. revert i Hi. induction l as [|a l IH]; intros [|i] Hi; simplify_eq/=.
  - rewrite !filter_cons, decide_False, decide_True by done. done.
  - rewrite !filter_cons. case_decide; simpl; rewrite <- (IH _ Hi); done.
Qed.

(** ** Lemmas on bytes *)

Lemma byte_Z_range b : 0 <= byte_Z b < 256.
Proof. unfold byte_Z. pose proof (Byte.to_N_bounded b). lia. Qed.
#[export] Hint Resolve byte_Z_range : polaris.

Lemma Z_byte_Z b : Z_byte (byte_Z b) = b.
Proof.
  unfold Z_byte. rewrite Z.mod_small by apply byte_Z_range.
  unfold byte_Z. rewrite N2Z.id, Byte.of_to_N. done.
Qed.

Lemma byte_Z_byte z : byte_Z (Z_byte z) = z mod 256.
Proof.
  unfold Z_byte. pose proof (Z.mod_pos_bound z 256 ltac:(lia)).
  destruct (Byte.of_N (Z.to_N (z mod 256))) as [b|] eqn:E; simpl.
  - apply Byte.to_of_N in E. unfold byte_Z. rewrite E. lia.
  - apply Byte.of_N_None_iff in E. lia.
Qed.

#[export] Instance byte_Z_inj : Inj (=) (=) byte_Z.
Proof. intros a b E. by rewrite <- (Z_byte_Z a), <- (Z_byte_Z b), E. Qed.

Lemma be_acc_app acc a b : be_acc acc (a ++ b) = be_acc (be_acc acc a) b.
Proof. revert acc. induction a; simpl; auto. Qed.

Lemma length_to_be_bytes n z : length (to_be_bytes n z) = n.
Proof. revert z. induction n; intros; simpl; [done|]. rewrite length_app, IHn. simpl. lia. Qed.

Lemma len_to_be_bytes n z : len (to_be_bytes n z) = Z.of_nat n.
Proof. unfold len. by rewrite length_to_be_bytes. Qed.
#[export] Hint Rewrite @len_to_be_bytes : polaris.

Lemma length_to_le_bytes n z : length (to_le_bytes n z) = n.
Proof. revert z. induction n; intros; simpl; auto. Qed.

Lemma be_acc_to_be acc n z :
  be_acc acc (to_be_bytes n z) = acc * 256 ^ Z.of_nat n + z mod 256 ^ Z.of_nat n.
Proof.
  revert z. induction n as [|n IH]; intros z.
  - simpl. rewrite Z.mod_1_r. lia.
  - cbn [to_be_bytes]. rewrite be_acc_app. cbn [be_acc]. rewrite IH, byte_Z_byte, Nat2Z.inj_succ, Z.pow_succ_r by lia.
    assert (0 < 256 ^ Z.of_nat n) by (apply Z.pow_pos_nonneg; lia).
    rewrite (Z.rem_mul_r z 256 (256 ^ Z.of_nat n)) by lia. lia.
Qed.

(** [from_be_bytes] undoes [to_be_bytes] on values of the width. *)
Lemma from_to_be_bytes n z :
  0 <= z < 256 ^ Z.of_nat n -> from_be_bytes (to_be_bytes n z) = z.
Proof. intros. unfold from_be_bytes. rewrite be_acc_to_be, Z.mod_small; lia. Qed.

Lemma be_acc_range acc bs :
  0 <= acc -> acc * 256 ^ len bs <= be_acc acc bs < (acc + 1) * 256 ^ len bs.
Proof.
  revert acc. induction bs as [|b bs IH]; intros acc Hacc; [simpl; rewrite len_nil; lia|].
  cbn [be_acc]. pose proof (byte_Z_range b). specialize (IH (acc * 256 + byte_Z b) ltac:(lia)).
  rewrite len_cons, Z.pow_add_r, Z.pow_1_r by (pose proof (len_nonneg bs); lia).
  assert (0 < 256 ^ len bs) by (apply Z.pow_pos_nonneg; pose proof (len_nonneg bs); lia). nia.
Qed.

Lemma from_be_bytes_range bs n :
  length bs = n -> 0 <= from_be_bytes bs < 256 ^ Z.of_nat n.
Proof.
  intros <-. pose proof (be_acc_range 0 bs ltac:(lia)). unfold from_be_bytes, len in *. lia.
Qed.

(** Two-byte fields, both ways. *)
Lemma be16_to_be z : u16 z -> from_be_bytes [Z_byte (z / 256); Z_byte z] = z.
Proof.
  intros Hz. change [Z_byte (z / 256); Z_byte z] with (to_be_bytes 2 z).
  apply from_to_be_bytes. unfold u16 in Hz. simpl. lia.
Qed.

Lemma to_be16 a b : to_be_bytes 2 (from_be_bytes [a; b]) = [a; b].
Proof.
  unfold from_be_bytes. cbn [be_acc]. change (to_be_bytes 2 ?z) with [Z_byte (z / 256); Z_byte z].
  pose proof (byte_Z_range a). pose proof (byte_Z_range b).
  replace ((0 * 256 + byte_Z a) * 256 + byte_Z b) with (byte_Z a * 256 + byte_Z b) by lia.
  f_equal; [|f_equal].
  - rewrite Z.div_add_l, Z.div_small, Z.add_0_r by lia. apply Z_byte_Z.
  - apply (inj byte_Z). rewrite byte_Z_byte, Z.add_comm, Z_mod_plus_full. by apply Z.mod_small.
Qed.

Arguments split_first_chunk : simpl never.
Arguments get_range : simpl never.
Arguments index_range : simpl never.
Arguments to_be_bytes : simpl never.
Arguments from_be_bytes : simpl never.
Arguments to_le_bytes : simpl never.
Arguments from_le_bytes : simpl never.
Arguments byte_Z : simpl never.
Arguments Z_byte : simpl never.
Arguments len : simpl never.
Arguments Z.add : simpl never.
Arguments Z.sub : simpl never.
Arguments Z.mul : simpl never.

(** ** Lemmas on loops *)

Section loops.
Context {S R : Type} (body : S -> step S R).

Lemma iterate_more n m s r :
  iterate body n s = Some r -> (n <= m)%nat -> iterate body m s = Some r.
Proof.
  revert m s. induction n as [|n IH]; intros m s Hr Hle; [done|].
  destruct m as [|m]; [lia|]. simpl in *. destruct (body s); [|done]. apply IH; [done|lia].
Qed.

(** A body whose rounds decrease a measure leaves within [measure + 1] rounds. *)
Lemma iterate_total (P : S -> Prop) (measure : S -> nat) s :
  (forall s s', P s -> body s = Again s' -> P s' /\ (measure s' < measure s)%nat) ->
  P s -> exists r, iterate body (Datatypes.S (measure s)) s = Some r.
Proof.
  intros Hdec. remember (measure s) as n eqn:En.
  assert (Hn : (measure s <= n)%nat) by lia. clear En.
  revert s Hn. induction n as [|n IH]; intros s Hn HP; simpl.
  - destruct (body s) eqn:E; [|by eexists]. destruct (Hdec _ _ HP E). lia.
  - destruct (body s) as [s'|r] eqn:E; [|by eexists]. destruct (Hdec _ _ HP E).
    apply IH; [lia|done].
Qed.

(** Partial correctness: an invariant that holds at every exit. *)
Lemma iterate_inv (P : S -> Prop) (Q : R -> Prop) n s r :
  (forall s s', P s -> body s = Again s' -> P s') ->
  (forall s r, P s -> body s = Leave r -> Q r) ->
  P s -> iterate body n s = Some r -> Q r.
Proof.
  intros Hstep Hexit. revert s. induction n as [|n IH]; intros s HP Hr; [done|].
  simpl in Hr. destruct (body s) eqn:E; simplify_eq; eauto.
Qed.

(** A change of state the body does not look at passes through the loop. *)
Lemma iterate_map (g : S -> S) (h : R -> R) n s :
  (forall s, body (g s) = match body s with Again s' => Again (g s') | Leave r => Leave (h r) end) ->
  iterate body n (g s) = h <$> iterate body n s.
Proof.
  intros Hb. revert s. induction n as [|n IH]; intros s; [done|]. cbn [iterate]. rewrite Hb. by destruct (body s).
Qed.

Lemma iterate_ext (body' : S -> step S R) n s : (forall s, body s = body' s) -> iterate body n s = iterate body' n s.
Proof. intros Hb. revert s. induction n as [|n IH]; intros s; [done|]. cbn [iterate]. rewrite Hb. by destruct (body' s). Qed.
End loops.

Section option_loops.
Context {S R : Type} (body : S -> option (step S R)).

Lemma loop_inv (P : S -> Prop) (Q : R -> Prop) n s r :
  (forall s s', P s -> body s = Some (Again s') -> P s') ->
  (forall s r, P s -> body s = Some (Leave r) -> Q r) ->
  P s -> loop body n s = Some r -> Q r.
Proof.
  intros Hstep Hexit. revert s. induction n as [|n IH]; intros s HP Hr; [done|].
  simpl in Hr. destruct (body s) as [[s'|r']|] eqn:E; simplify_eq; eauto.
Qed.

Lemma loop_total (P : S -> Prop) (measure : S -> nat) n s :
  (forall s, P s -> is_Some (body s)) ->
  (forall s s', P s -> body s = Some (Again s') -> P s' /\ (measure s' < measure s)%nat) ->
  P s -> (measure s < n)%nat -> is_Some (loop body n s).
Proof.
  intros Hsome Hdec. revert s. induction n as [|n IH]; intros s HP Hn; [lia|]. simpl.
  destruct (Hsome s HP) as [[s'|r] E]; rewrite E; [|by eexists].
  destruct (Hdec _ _ HP E). apply IH; [done|lia].
Qed.
End option_loops.
