(* ===== verification/TransportCore.v ===== *)
(** * transport-core: errors, config checks, burst container and capability traits

    Models [crates/transports/core/src/{error,config,transport}.rs] and
    [pool/mod.rs]'s [PoolStats]. Traits are type classes; the receive contract the trait
    documentation states is the record [burst_contract], which backends prove
    and clients assume. *)

From S2P Require Import Prelude.
From Stdlib Require Import ZArith Lia.
From stdpp Require Import prelude list strings.

Open Scope Z_scope.
Open Scope res_scope.

(** ** Addresses and OS errors *)

Inductive IpAddr :=
  | V4 (octets : list byte)
  | V6 (octets : list byte).

Record SocketAddr := { ip : IpAddr; port : Z }.

#[export] Instance IpAddr_eq_dec : EqDecision IpAddr.
Proof. solve_decision. Defined.
#[export] Instance SocketAddr_eq_dec : EqDecision SocketAddr.
Proof. solve_decision. Defined.

(** The [io::ErrorKind]s the code tells apart; [Other] stands for every other kind. *)
Inductive ErrorKind :=
  | WouldBlock
  | Interrupted
  | TimedOut
  | InvalidData
  | UnsupportedKind
  | OutOfMemory
  | Other.

Record io_Error := { kind : ErrorKind; raw_os_error : option Z }.

#[export] Instance ErrorKind_eq_dec : EqDecision ErrorKind.
Proof. solve_decision. Defined.
#[export] Instance io_Error_eq_dec : EqDecision io_Error.
Proof. solve_decision. Defined.

Definition is_would_block (e : io_Error) : bool :=
  match kind e with WouldBlock => true | _ => false end.

(** [TransportError]. *)
Inductive TransportError :=
  | Bind (addr : SocketAddr) (error : io_Error)
  | Connect (addr : SocketAddr) (error : io_Error)
  | InvalidConfig (field reason : string)
  | Io (stage : string) (error : io_Error)
  | PoolExhausted (in_use capacity : Z)
  | PeerClosed
  | Unsupported (backend op : string)
  | Unavailable (backend reason : string) (error : option io_Error).

#[export] Instance TransportError_eq_dec : EqDecision TransportError.
Proof. solve_decision. Defined.

Record PoolStats := { ps_capacity : Z; ps_in_use : Z }.

(** [MulticastInterface]; the derived [Default] selects nothing. *)
Record MulticastInterface := { v4 : option (list byte); v6_scope_id : option Z }.
Definition MulticastInterface_default : MulticastInterface :=
  {| v4 := None; v6_scope_id := None |}.

(** ** [config::validate] *)

Module validate.
Definition checked_product (field : string) (a b : Z) : res TransportError Z :=
  ok_or (checked_mul U64_MAX a b) (InvalidConfig field "size product overflows usize").

Definition at_most (field : string) (value max : Z) : res TransportError unit :=
  if value >? max then Err (InvalidConfig field "above backend limit") else Ok tt.
End validate.

(** ** [FrameBatch] *)

Module FrameBatch.
Record t (F : Type) := Batch { frames : list F; cap : Z }.
Arguments Batch {F}.
Arguments frames {F}.
Arguments cap {F}.

Section ops.
Context {F : Type}.
Implicit Types (b : t F) (f : F).

Definition with_capacity (cap : Z) : t F := Batch [] cap.
Definition spare b : Z := saturating_sub (cap b) (len (frames b)).
Definition len_ b : Z := len (frames b).
Definition is_empty b : bool := match frames b with [] => true | _ => false end.
Definition push b f : t F := Batch (frames b ++ [f]) (cap b).
Definition drain b : list F * t F := (frames b, Batch [] (cap b)).

Lemma spare_push b f : 0 < spare b -> spare (push b f) = spare b - 1.
Proof.
  unfold spare, saturating_sub, push. cbn [frames cap]. autorewrite with polaris. lia.
Qed.

Lemma spare_empty b : frames b = [] -> 0 < cap b -> 0 < spare b.
Proof. unfold spare, saturating_sub. intros ->. autorewrite with polaris. lia. Qed.

Lemma spare_nonneg b : 0 <= spare b.
Proof. unfold spare, saturating_sub. lia. Qed.
End ops.
End FrameBatch.
Import FrameBatch (frames, cap, spare).

(** ** Capability traits *)

Class Transport (T : Type) := name : T -> string.

(** [AsRef<[u8]>] of a frame type. *)
Class AsRef (F : Type) := as_ref : F -> list byte.

(** What one [recv_burst] leaves behind. Fuel is for implementations that loop
    over their source; [None] means it ran out. *)
Definition burst_result (T F : Type) : Type :=
  res TransportError Z * T * FrameBatch.t F.

Class DatagramRecv (T F : Type) := {
  recv_burst : nat -> T -> FrameBatch.t F -> option (burst_result T F);
  pool_stats : T -> PoolStats;
}.

Class L2Recv (T F : Type) := {
  l2_recv_burst : nat -> T -> FrameBatch.t F -> option (burst_result T F);
  l2_pool_stats : T -> PoolStats;
}.

Class DatagramSend (T : Type) :=
  send_to : T -> list byte -> SocketAddr -> res TransportError Z * T.

(** [Multicast::join_multicast]. *)
Class Multicast (T : Type) :=
  join_multicast : T -> IpAddr -> MulticastInterface -> res TransportError unit * T.

(** [StreamRecv::recv_into]: at most [dst_len] bytes, the ones initialised. *)
Class StreamRecv (T : Type) :=
  recv_into : T -> Z -> res TransportError (list byte) * T.

Class StreamTrySend (T : Type) :=
  try_send : T -> list byte -> res TransportError Z * T.

(** [StreamSend::send_all], once resolved. *)
Class StreamSend (T : Type) := send_all : T -> list byte -> res TransportError unit * T.

(** [AsyncReady::ready]: one poll of its future. *)
Class AsyncReady (T : Type) := poll_ready : T -> option (res TransportError unit) * T.

(** The receive contract of [DatagramRecv] and [L2Recv]: a burst only appends,
    reports exactly what it appended, never more than the room offered, and an
    error never travels with frames. [bc_backlog] bounds the frames the source
    still holds, so that a burst returns once given that much fuel. *)
Record burst_contract {T F : Type}
    (recv : nat -> T -> FrameBatch.t F -> option (burst_result T F)) := {
  bc_wf : T -> Prop;
  bc_backlog : T -> nat;
  bc_sound : forall fuel t out r t' out',
    bc_wf t -> 0 < spare out ->
    recv fuel t out = Some (r, t', out') ->
    bc_wf t' /\ cap out' = cap out /\
    exists new,
      frames out' = frames out ++ new /\
      (bc_backlog t' + length new <= bc_backlog t)%nat /\
      match r with
      | Ok n => n = len new /\ n <= spare out
      | Err _ => new = []
      | Panic => False
      end;
  bc_total : forall fuel t out,
    bc_wf t -> 0 < spare out -> (bc_backlog t < fuel)%nat ->
    is_Some (recv fuel t out);
}.
Arguments bc_wf {T F recv} _ _.
Arguments bc_backlog {T F recv} _ _.
Arguments bc_sound {T F recv} _ _ _ _ _ _ _.
Arguments bc_total {T F recv} _ _ _ _.

Class DatagramRecvOk (T F : Type) `{DatagramRecv T F} :=
  datagram_contract : burst_contract recv_burst.

Class L2RecvOk (T F : Type) `{L2Recv T F} :=
  l2_contract : burst_contract l2_recv_burst.

(** A source whose deliveries are a queue: what a burst appends is what it takes
    off the front of [view]. *)
Definition queue_source {T F : Type}
    (recv : nat -> T -> FrameBatch.t F -> option (burst_result T F)) (view : T -> list F) : Prop :=
  forall fuel t out r t' out',
    recv fuel t out = Some (r, t', out') ->
    exists new, frames out' = frames out ++ new /\ view t = new ++ view t'.

(** Decomposes the append relation of a batch into the count the code reads. *)
Lemma batch_len_diff {F} (out out' : FrameBatch.t F) new :
  frames out' = frames out ++ new ->
  FrameBatch.len_ out' - FrameBatch.len_ out = len new.
Proof. intros E. unfold FrameBatch.len_. rewrite E, len_app. lia. Qed.

(** A burst never overfills the batch it was given. *)
Lemma burst_bounded {T F} (recv : nat -> T -> FrameBatch.t F -> option (burst_result T F))
    (C : burst_contract recv) fuel t out r t' out' :
  bc_wf C t -> 0 < spare out -> recv fuel t out = Some (r, t', out') ->
  len (frames out') <= cap out'.
Proof.
  intros Hwf Hsp E. destruct (bc_sound C _ _ _ _ _ _ Hwf Hsp E) as (_ & Hcap & new & Hf & _ & Hr).
  rewrite Hf, Hcap, len_app. unfold spare, saturating_sub in *.
  destruct r; [lia| |done]. subst new. rewrite len_nil. lia.
Qed.

(** ** A scripted source

    A concrete [DatagramRecv] for worked examples: each call delivers the next
    scripted burst, as much of it as the batch has room for. *)

Record Scripted := { bursts : list (list (list byte)); pool_size : Z }.

#[export] Instance bytes_as_ref : AsRef (list byte) := fun b => b.

Definition scripted_recv (_ : nat) (t : Scripted) (out : FrameBatch.t (list byte))
    : option (burst_result Scripted (list byte)) :=
  match bursts t with
  | [] => Some (Ok 0, t, out)
  | b :: rest =>
      let n := Z.to_nat (spare out) in
      let left := match drop n b with [] => rest | more => more :: rest end in
      Some (Ok (len (take n b)), {| bursts := left; pool_size := pool_size t |},
            FrameBatch.Batch (frames out ++ take n b) (cap out))
  end.

#[export] Instance Scripted_recv : DatagramRecv Scripted (list byte) := {|
  recv_burst := scripted_recv;
  pool_stats := fun t => {| ps_capacity := pool_size t; ps_in_use := 0 |};
|}.

#[export] Instance Scripted_l2 : L2Recv Scripted (list byte) := {|
  l2_recv_burst := scripted_recv;
  l2_pool_stats := fun t => {| ps_capacity := pool_size t; ps_in_use := 0 |};
|}.

Definition scripted_contract : burst_contract scripted_recv.
Proof.
  refine {| bc_wf := fun _ => True; bc_backlog := fun t => length (concat (bursts t)) |}.
  - intros fuel t out r t' out' _ Hsp E. unfold scripted_recv in E.
    destruct (bursts t) as [|b rest] eqn:Eb; simplify_eq.
    + split_and!; [done|done|]. exists []. rewrite app_nil_r. rewrite Eb. simpl.
      split_and!; [done|lia|done|]. unfold spare, saturating_sub in *. lia.
    + cbn [cap frames bursts]. split_and!; [done|done|]. exists (take (Z.to_nat (spare out)) b).
      split_and!; [done| |done|].
      * pose proof (f_equal length (take_drop (Z.to_nat (spare out)) b)) as Hl. rewrite length_app in Hl.
        destruct (drop (Z.to_nat (spare out)) b) as [|x l]; simpl in *; rewrite ?length_app; simpl; lia.
      * unfold len. rewrite length_take. lia.
  - intros fuel t out _ _ _. unfold scripted_recv. destruct (bursts t); by eexists.
Defined.

#[export] Instance Scripted_ok : DatagramRecvOk Scripted (list byte) := scripted_contract.
#[export] Instance Scripted_l2_ok : L2RecvOk Scripted (list byte) := scripted_contract.

Lemma scripted_queue : queue_source scripted_recv (fun t => concat (bursts t)).
Proof.
  intros fuel t out r t' out' E. unfold scripted_recv in E. destruct (bursts t) as [|b rest] eqn:Eb; simplify_eq.
  - exists []. by rewrite app_nil_r, Eb.
  - exists (take (Z.to_nat (spare out)) b). split; [done|]. cbn [bursts]. simpl.
    rewrite <- (take_drop (Z.to_nat (spare out)) b) at 1. rewrite <- app_assoc. f_equal.
    by destruct (drop (Z.to_nat (spare out)) b).
Qed.
