(* ===== verification/Trace.v ===== *)
(** * Calls made in order: errors over a log

    Opening a transport is a sequence of system calls with early returns. [Traced E A] computes
    an [A] or fails, over the log of what happened so far; Rust's drops at an early return are
    [scope] and [finally]. Shared by the socket and the AF_XDP constructors. *)

From S2P Require Import Prelude TransportCore.
From Stdlib Require Import ZArith Lia.
From stdpp Require Import prelude list strings.

Open Scope Z_scope.
Open Scope res_scope.

Definition Traced (E A : Type) : Type := list E -> res TransportError A * list E.

#[export] Instance Traced_ret E : MRet (Traced E) := fun A a log => (Ok a, log).

#[export] Instance Traced_bind E : MBind (Traced E) := fun A B k m log =>
  match m log with
  | (Ok a, log) => k a log
  | (Err e, log) => (Err e, log)
  | (Panic, log) => (Panic, log)
  end.

Section traced.
Context {E : Type}.

(** A step that calls nothing. *)
Definition pure_step {A} (r : res TransportError A) : Traced E A := fun log => (r, log).

(** [e] is the drop of a value alive while [m] runs: at an early return only, or always. *)
Definition scope {A} (e : E) (m : Traced E A) : Traced E A := fun log =>
  match m log with
  | (Ok a, log) => (Ok a, log)
  | (bad, log) => (bad, log ++ [e])
  end.

Definition finally {A} (e : E) (m : Traced E A) : Traced E A := fun log =>
  let '(r, log) := m log in (r, log ++ [e]).

(** Steps made only under a condition. *)
Definition when (b : bool) (m : Traced E unit) : Traced E unit := if b then m else mret tt.

Definition when_some {A} (o : option A) (f : A -> Traced E unit) : Traced E unit :=
  match o with Some a => f a | None => mret tt end.

(** A [for] over a list, with [?] in its body. *)
Fixpoint each {A} (f : A -> Traced E unit) (l : list A) : Traced E unit :=
  match l with [] => mret tt | x :: l => _ ← f x; each f l end.

Lemma pure_bind {A B} (r : res TransportError A) (k : A -> Traced E B) log :
  (pure_step r ≫= k) log =
  match r with Ok a => k a log | Err e => (Err e, log) | Panic => (Panic, log) end.
Proof. by destruct r. Qed.

(** Two computations that do the same on every log. *)
Definition same {A} (m n : Traced E A) : Prop := forall log, m log = n log.

#[export] Instance same_equivalence A : Equivalence (@same A).
Proof. split; [done|by intros m n Hm log|intros m n k Hm Hn log; by rewrite Hm, Hn]. Qed.

Lemma bind_assoc {A B C} (m : Traced E A) (f : A -> Traced E B) (g : B -> Traced E C) :
  same ((m ≫= f) ≫= g) (m ≫= fun a => f a ≫= g).
Proof. intros log. unfold mbind, Traced_bind. by destruct (m log) as [[a|e|] l]. Qed.

Lemma bind_same {A B} (m : Traced E A) (f g : A -> Traced E B) :
  (forall a, same (f a) (g a)) -> same (m ≫= f) (m ≫= g).
Proof. intros Hf log. unfold mbind, Traced_bind. destruct (m log) as [[a|e|] l]; [apply Hf|done..]. Qed.
End traced.
