(* ===== verification/MoldWire.v ===== *)
(** * client-moldudp: errors, wire codec and frame handles

    Models [crates/clients/moldudp/src/{error,event,wire,frame}.rs]: the downstream
    header, the message-block iterator and the datagram handles the receiver
    keeps. The reference encoder [encode_packet] writes the layout the module
    documentation gives; the theorems relate the parser to it. *)

From S2P Require Import Prelude TransportCore.
From Stdlib Require Import ZArith Lia.
From stdpp Require Import prelude list strings.

Open Scope Z_scope.
Open Scope res_scope.

(** [MoldUdpError]. *)
Inductive MoldUdpError :=
  | Transport_ (e : TransportError)
  | SessionMismatch (expected got : list byte)
  | GapDetected
  | ReassemblyBufferFull (capacity : Z)
  | PacketTooShort
  | PacketTooLarge
  | PoolTooSmall (leg capacity required : Z)
  | LegCount (count : Z).

(** [MoldUdpEvent]. *)
Inductive MoldUdpEvent :=
  | Heartbeat (next_expected : Z)
  | EndOfSession (next_expected : Z).

(** ** Header *)

Definition HEADER_LEN : Z := 20.
Definition MAX_DOWNSTREAM_DATAGRAM : Z := 64 * 1024.

Record DownstreamHeader := {
  session : list byte;
  sequence : Z;
  message_count : Z;
}.

Inductive PacketKind := KHeartbeat | KEndOfSession | KData.

(** [DownstreamHeader::kind]. *)
Definition header_kind (h : DownstreamHeader) : PacketKind :=
  if message_count h =? 0 then KHeartbeat
  else if message_count h =? 0xFFFF then KEndOfSession
  else KData.

Definition parse_header (buf : list byte) : res MoldUdpError DownstreamHeader :=
  if len buf >? MAX_DOWNSTREAM_DATAGRAM then Err PacketTooLarge
  else
    let* (session, rest) := ok_or (split_first_chunk 10 buf) PacketTooShort in
    let* (sequence, rest) := ok_or (split_first_chunk 8 rest) PacketTooShort in
    let* (message_count, _) := ok_or (split_first_chunk 2 rest) PacketTooShort in
    Ok {| session := session;
          sequence := from_be_bytes sequence;
          message_count := from_be_bytes message_count |}.

(** ** Message blocks *)

Record MessageBlockIter := {
  remaining : list byte;
  blocks_left : Z;
  truncated : bool;
  next_offset : Z;
}.

(** [MessageBlockIter::new]. *)
Definition block_iter (payload : list byte) (message_count : Z) : MessageBlockIter :=
  {| remaining := payload; blocks_left := message_count; truncated := false;
     next_offset := HEADER_LEN |}.

(** [DownstreamHeader::blocks]. *)
Definition header_blocks (h : DownstreamHeader) (datagram : list byte) : MessageBlockIter :=
  block_iter (default [] (get_range HEADER_LEN (len datagram) datagram)) (message_count h).

(** [<MessageBlockIter as Iterator>::next]. *)
Definition block_next (it : MessageBlockIter)
    : option (res MoldUdpError (Z * list byte)) * MessageBlockIter :=
  let stop := {| remaining := remaining it; blocks_left := blocks_left it;
                 truncated := true; next_offset := next_offset it |} in
  if truncated it || (blocks_left it =? 0) then (None, it)
  else match split_first_chunk 2 (remaining it) with
  | None => (Some (Err PacketTooShort), stop)
  | Some (len_bytes, rest) =>
      let n := from_be_bytes len_bytes in
      if len rest <? n then (Some (Err PacketTooShort), stop)
      else
        (Some (Ok (next_offset it + 2, take (Z.to_nat n) rest)),
         {| remaining := drop (Z.to_nat n) rest;
            blocks_left := blocks_left it - 1;
            truncated := false;
            next_offset := next_offset it + (2 + n) |})
  end.

(** Running the iterator to its end: the [for] loop over [header.blocks] in
    [process_next_pending], stopping at the first error. [zip] draws the sequence
    first, so the counter wraps with the range's own [+ 1]. One round per block
    plus the closing [None], so [S (blocks_left)] rounds are always enough. *)
Fixpoint collect_blocks (fuel : nat) (seq : Z) (it : MessageBlockIter)
    : res MoldUdpError (list (Z * Z * Z)) :=
  match fuel with
  | O => Ok []
  | S fuel =>
      match block_next it with
      | (None, _) => Ok []
      | (Some (Ok (offset, bytes)), it') =>
          let* rest := collect_blocks fuel (u64_add seq 1) it' in
          Ok ((seq, offset, len bytes) :: rest)
      | (Some (Err e), _) => Err e
      | (Some Panic, _) => Panic
      end
  end.

Definition packet_blocks (h : DownstreamHeader) (datagram : list byte)
    : res MoldUdpError (list (Z * Z * Z)) :=
  collect_blocks (S (Z.to_nat (message_count h))) (sequence h) (header_blocks h datagram).

(** ** Datagram handles *)

(** [Held]: a leg frame as received, or retransmission bytes copied off the requester. *)
Inductive Held (F : Type) :=
  | HeldFrame (f : F)
  | Copied (bytes : list byte).
Arguments HeldFrame {F} f.
Arguments Copied {F} bytes.

#[export] Instance Held_as_ref {F} `{AsRef F} : AsRef (Held F) := fun h =>
  match h with HeldFrame f => as_ref f | Copied bytes => bytes end.

(** [Frame]. *)
Record Frame := { payload : list byte; f_sequence : Z; f_stream_id : Z }.

(** [MessageView]. *)
Record MessageView (F : Type) := { view_datagram : Held F; view_offset : Z; view_len : Z }.
Arguments view_datagram {F}.
Arguments view_offset {F}.
Arguments view_len {F}.

(** [<MessageView as AsRef>::as_ref], slicing the shared datagram. *)
Definition view_as_ref {F} `{AsRef F} (v : MessageView F) : res MoldUdpError (list byte) :=
  index_range (view_offset v) (view_offset v + view_len v) (as_ref (view_datagram v)).

(** [OwnedFrame]. *)
Record OwnedFrame (F : Type) :=
  { view : MessageView F; of_sequence : Z; of_stream_id : Z }.
Arguments view {F}.
Arguments of_sequence {F}.
Arguments of_stream_id {F}.

(** ** Reference encoder *)

Definition encode_header (session : list byte) (seq count : Z) : list byte :=
  session ++ to_be_bytes 8 seq ++ to_be_bytes 2 count.

Definition encode_block (m : list byte) : list byte := to_be_bytes 2 (len m) ++ m.

Definition encode_packet (session : list byte) (seq : Z) (msgs : list (list byte)) : list byte :=
  encode_header session seq (len msgs) ++ concat (encode_block <$> msgs).

(** Offsets a sequence of messages takes when laid out from [off]. *)
Fixpoint layout (seq off : Z) (msgs : list (list byte)) : list (Z * Z * Z) :=
  match msgs with
  | [] => []
  | m :: msgs => (seq, off + 2, len m) :: layout (u64_add seq 1) (off + (2 + len m)) msgs
  end.

(** ** Properties *)

Lemma length_encode_header s seq count :
  length s = 10%nat -> length (encode_header s seq count) = 20%nat.
Proof. intros. unfold encode_header. rewrite !length_app, !length_to_be_bytes. lia. Qed.

Lemma len_encode_header s seq count :
  length s = 10%nat -> len (encode_header s seq count) = HEADER_LEN.
Proof. intros. unfold len. by rewrite length_encode_header. Qed.

Lemma parse_encode_header s seq count body :
  length s = 10%nat -> u64 seq -> u16 count ->
  20 + len body <= MAX_DOWNSTREAM_DATAGRAM ->
  parse_header (encode_header s seq count ++ body) =
  Ok {| session := s; sequence := seq; message_count := count |}.
Proof.
  intros Hs Hseq Hcount Hlen. unfold parse_header.
  assert (Hl : len (encode_header s seq count ++ body) = 20 + len body).
  { rewrite len_app. unfold len. rewrite length_encode_header by done. lia. }
  rewrite Hl. destruct (_ >? _) eqn:E; [zarith|].
  unfold encode_header. rewrite <- !app_assoc.
  rewrite split_first_chunk_app by done. cbn [ok_or].
  rewrite split_first_chunk_app by apply length_to_be_bytes. cbn [ok_or].
  rewrite split_first_chunk_app by apply length_to_be_bytes. cbn [ok_or].
  rewrite !from_to_be_bytes by (unfold u64, u16 in *; lia). done.
Qed.

Lemma block_next_encoded m rest count off :
  u16 (len m) -> 0 < count ->
  block_next {| remaining := encode_block m ++ rest; blocks_left := count;
                truncated := false; next_offset := off |} =
  (Some (Ok (off + 2, m)),
   {| remaining := rest; blocks_left := count - 1; truncated := false;
      next_offset := off + (2 + len m) |}).
Proof.
  intros Hm Hc. unfold block_next. cbn [truncated blocks_left remaining next_offset].
  rewrite (proj2 (Z.eqb_neq count 0)) by lia. cbn [orb].
  unfold encode_block. rewrite <- app_assoc, split_first_chunk_app by apply length_to_be_bytes.
  rewrite from_to_be_bytes by (unfold u16 in *; lia).
  destruct (_ <? _) eqn:E.
  { rewrite len_app in E. pose proof (len_nonneg rest). zarith. }
  unfold len. rewrite Nat2Z.id, take_app_length, drop_app_length. done.
Qed.

Lemma collect_encoded seq off msgs rest fuel :
  Forall (fun m => u16 (len m)) msgs -> (length msgs < fuel)%nat ->
  collect_blocks fuel seq
    {| remaining := concat (encode_block <$> msgs) ++ rest; blocks_left := len msgs;
       truncated := false; next_offset := off |} = Ok (layout seq off msgs).
Proof.
  intros Hm. revert seq off fuel. induction Hm as [|m msgs Hm Hms IH]; intros seq off [|fuel] Hf;
    [simpl in *; lia|done|simpl in *; lia|].
  cbn [fmap list_fmap concat]. rewrite <- app_assoc. cbn [collect_blocks].
  rewrite block_next_encoded by (try done; rewrite len_cons; pose proof (len_nonneg msgs); lia).
  replace (len (m :: msgs) - 1) with (len msgs) by (rewrite len_cons; lia).
  rewrite IH by (simpl in *; lia). done.
Qed.

Lemma drop_header_encode s seq msgs :
  length s = 10%nat ->
  get_range HEADER_LEN (len (encode_packet s seq msgs)) (encode_packet s seq msgs) =
  Some (concat (encode_block <$> msgs)).
Proof.
  intros Hs. unfold encode_packet.
  rewrite len_app, <- (len_encode_header s seq (len msgs) Hs). set (body := concat _).
  rewrite <- (app_nil_r body) at 2. apply get_range_middle.
Qed.

(** The blocks of an encoded packet are its messages, in order, at the offsets
    the encoder placed them. *)
Lemma packet_blocks_encode s seq msgs :
  length s = 10%nat -> Forall (fun m => u16 (len m)) msgs ->
  packet_blocks {| session := s; sequence := seq; message_count := len msgs |}
    (encode_packet s seq msgs) = Ok (layout seq HEADER_LEN msgs).
Proof.
  intros Hs Hm. unfold packet_blocks, header_blocks, block_iter. cbn [message_count sequence].
  rewrite drop_header_encode by done. cbn [default].
  rewrite <- (app_nil_r (concat _)). apply collect_encoded; [done|]. unfold len. lia.
Qed.

(** What the iterator still holds is the tail of the datagram it reads. *)
Definition iter_at (datagram : list byte) (it : MessageBlockIter) : Prop :=
  exists pre, datagram = pre ++ remaining it /\ len pre = next_offset it.

Lemma block_next_at datagram it off bytes it' :
  iter_at datagram it -> block_next it = (Some (Ok (off, bytes)), it') ->
  get_range off (off + len bytes) datagram = Some bytes /\ iter_at datagram it' /\
  blocks_left it' = blocks_left it - 1.
Proof.
  intros (pre & -> & Hpre) E. unfold block_next in E. repeat case_on. bool_facts.
  match goal with H : split_first_chunk 2 _ = _ |- _ => apply split_first_chunk_Some in H as [Hr H2] end.
  rename l into lb, l0 into rest. rewrite Hr.
  assert (Hlb : len lb = 2) by (unfold len; lia).
  assert (Hn : 0 <= from_be_bytes lb) by (pose proof (from_be_bytes_range lb 2 H2); lia).
  set (n := from_be_bytes lb) in *.
  rewrite <- (take_drop (Z.to_nat n) rest) at 2 4.
  set (b := take (Z.to_nat n) rest). set (tl := drop (Z.to_nat n) rest).
  assert (Hb : len b = n) by (unfold len, b; rewrite length_take; zarith).
  replace (next_offset it + 2) with (len (pre ++ lb)) by (rewrite len_app; lia).
  split_and!; [|exists (pre ++ lb ++ b)|done].
  - rewrite app_assoc. apply get_range_middle.
  - cbn [remaining next_offset]. rewrite <- !app_assoc. split; [done|]. rewrite !len_app. lia.
Qed.

Lemma collect_blocks_sound datagram fuel seq it blocks :
  iter_at datagram it -> collect_blocks fuel seq it = Ok blocks ->
  Forall (fun '(_, off, n) => exists m, get_range off (off + n) datagram = Some m) blocks.
Proof.
  revert seq it blocks. induction fuel as [|fuel IH]; intros seq it blocks Hat E; simpl in E;
    [by simplify_eq|].
  destruct (block_next it) as [[[[off bytes]|e|]|] it'] eqn:En; simplify_eq; [|done].
  destruct (block_next_at _ _ _ _ _ Hat En) as (Hg & Hat' & _).
  destruct (collect_blocks fuel _ it') eqn:Er; simplify_eq. constructor; eauto.
Qed.

(** Every block a packet yields, whatever its bytes, is an in-bounds range of the
    datagram. *)
Lemma packet_blocks_sound h datagram blocks :
  HEADER_LEN <= len datagram -> packet_blocks h datagram = Ok blocks ->
  Forall (fun '(_, off, n) => exists m, get_range off (off + n) datagram = Some m) blocks.
Proof.
  intros Hl E. eapply collect_blocks_sound; [|exact E].
  unfold header_blocks, block_iter, iter_at. cbn [remaining next_offset].
  exists (take 20 datagram).
  rewrite get_range_to_end by (unfold HEADER_LEN in *; lia).
  split; [symmetry; apply take_drop|]. unfold len, HEADER_LEN in *. rewrite length_take. lia.
Qed.

(** A data packet yields exactly [message_count] blocks with consecutive sequences. *)
Lemma collect_blocks_count fuel seq it blocks :
  (Z.to_nat (blocks_left it) < fuel)%nat -> 0 <= blocks_left it -> truncated it = false ->
  collect_blocks fuel seq it = Ok blocks -> len blocks = blocks_left it.
Proof.
  revert seq it blocks. induction fuel as [|fuel IH]; intros seq it blocks Hf Hb Ht E; [lia|].
  simpl in E. unfold block_next in E. rewrite Ht in E. cbn [orb] in E.
  destruct (blocks_left it =? 0) eqn:E0; [simplify_eq; rewrite len_nil; zarith|].
  destruct (split_first_chunk _ _) as [[lb rest]|]; [|done].
  destruct (_ <? _); [done|].
  destruct (collect_blocks _ _ _) eqn:Ec; simplify_eq.
  apply IH in Ec; cbn [blocks_left truncated] in *; [|zarith..|done]. rewrite len_cons. zarith.
Qed.

Lemma collect_blocks_seqs fuel seq it blocks :
  u64 seq -> collect_blocks fuel seq it = Ok blocks ->
  forall i s off n, blocks !! i = Some (s, off, n) -> s = (seq + Z.of_nat i) mod W64.
Proof.
  revert seq it blocks. induction fuel as [|fuel IH]; intros seq it blocks Hseq E i s off n Hi;
    simpl in E; [by simplify_eq|].
  destruct (block_next it) as [[[[o bytes]|e|]|] it'] eqn:En; simplify_eq.
  destruct (collect_blocks fuel _ it') eqn:Er; simplify_eq. destruct i as [|i].
  - simpl in Hi. simplify_eq. rewrite Z.add_0_r, Z.mod_small; done.
  - simpl in Hi. eapply IH in Hi; [|unfold u64, u64_add; apply Z.mod_pos_bound; lia|exact Er].
    rewrite Hi. unfold u64_add. rewrite Zplus_mod_idemp_l. f_equal. lia.
Qed.

Lemma parse_header_range bs h : parse_header bs = Ok h -> u64 (sequence h) /\ u16 (message_count h).
Proof.
  unfold parse_header. intros E. repeat case_on. cbn [sequence message_count].
  repeat match goal with H : ok_or ?o _ = Ok _ |- _ => destruct o eqn:?; simplify_eq/= end.
  repeat match goal with H : split_first_chunk _ _ = Some _ |- _ => apply split_first_chunk_Some in H as [_ ?] end.
  split; [apply (from_be_bytes_range _ 8)|apply (from_be_bytes_range _ 2)]; done.
Qed.

Lemma parse_header_len d h : parse_header d = Ok h -> HEADER_LEN <= len d.
Proof.
  unfold parse_header. intros E. repeat case_on.
  repeat match goal with H : ok_or ?o _ = Ok _ |- _ => destruct o eqn:?; simplify_eq/= end.
  repeat match goal with H : split_first_chunk _ _ = Some _ |- _ => apply split_first_chunk_Some in H as [-> ?] end.
  unfold HEADER_LEN, len. rewrite !length_app. lia.
Qed.

Lemma collect_blocks_no_panic fuel seq it : collect_blocks fuel seq it <> Panic.
Proof.
  revert seq it. induction fuel as [|fuel IH]; intros seq it Eb; [done|]. cbn [collect_blocks] in Eb.
  unfold block_next in Eb. repeat case_on. by eapply IH.
Qed.

(** The layout's ranges select the messages. *)
Lemma layout_ranges pre seq msgs post :
  Forall2 (fun '(_, off, n) m => get_range off (off + n) (pre ++ concat (encode_block <$> msgs) ++ post) = Some m)
    (layout seq (len pre) msgs) msgs.
Proof.
  revert pre seq. induction msgs as [|m msgs IH]; intros pre seq; cbn [layout fmap list_fmap concat]; constructor.
  - assert (Hl : len pre + 2 = len (pre ++ to_be_bytes 2 (len m)))
      by (by autorewrite with polaris).
    rewrite Hl. unfold encode_block at 1. rewrite <- !app_assoc, (app_assoc pre). apply get_range_middle.
  - specialize (IH (pre ++ encode_block m) (u64_add seq 1)).
    rewrite <- !app_assoc in IH. rewrite <- app_assoc.
    replace (len (pre ++ encode_block m)) with (len pre + (2 + len m)) in IH; [exact IH|].
    unfold encode_block. autorewrite with polaris. lia.
Qed.

(** C35: Parsing an encoded data packet gives back its session, its sequence and
    its messages: the header decodes to what was written, and the blocks are the
    messages in order, numbered from the header's sequence. *)
Theorem packet_roundtrip s seq msgs :
  length s = 10%nat -> u64 seq -> 0 < len msgs < 0xFFFF -> Forall (fun m => u16 (len m)) msgs ->
  len (encode_packet s seq msgs) <= MAX_DOWNSTREAM_DATAGRAM ->
  exists h blocks,
    parse_header (encode_packet s seq msgs) = Ok h /\
    session h = s /\ sequence h = seq /\ header_kind h = KData /\
    packet_blocks h (encode_packet s seq msgs) = Ok blocks /\
    blocks = layout seq HEADER_LEN msgs /\
    Forall2 (fun '(_, off, n) m => get_range off (off + n) (encode_packet s seq msgs) = Some m) blocks msgs.
Proof.
  intros Hs Hseq Hn Hm Hl.
  exists {| session := s; sequence := seq; message_count := len msgs |}, (layout seq HEADER_LEN msgs). split_and!; try done.
  - unfold encode_packet in *. apply parse_encode_header; [done|done|unfold u16; lia|].
    rewrite len_app, len_encode_header in Hl by done. unfold HEADER_LEN in Hl. lia.
  - unfold header_kind. cbn [message_count]. rewrite !(proj2 (Z.eqb_neq _ _)) by lia. done.
  - by apply packet_blocks_encode.
  - pose proof (layout_ranges (encode_header s seq (len msgs)) seq msgs []) as Hr.
    rewrite app_nil_r, len_encode_header in Hr by done. exact Hr.
Qed.

Lemma packet_roundtrip_witness :
  let d := encode_packet (to_be_bytes 10 1) 7 [to_be_bytes 3 5; []; to_be_bytes 1 9] in
  exists h blocks, parse_header d = Ok h /\ session h = to_be_bytes 10 1 /\ sequence h = 7 /\
    header_kind h = KData /\ packet_blocks h d = Ok blocks /\
    blocks = layout 7 HEADER_LEN [to_be_bytes 3 5; []; to_be_bytes 1 9] /\
    Forall2 (fun '(_, off, n) m => get_range off (off + n) d = Some m) blocks [to_be_bytes 3 5; []; to_be_bytes 1 9].
Proof.
  apply (packet_roundtrip (to_be_bytes 10 1) 7 [to_be_bytes 3 5; []; to_be_bytes 1 9]);
    [done|done|by vm_compute|by repeat constructor|by vm_compute].
Defined.

(** Whatever bytes arrive, every block a packet yields is an in-bounds range of
    the datagram, and a packet that yields blocks yields exactly the announced number. *)
Theorem packet_blocks_in_bounds h d blocks :
  parse_header d = Ok h -> packet_blocks h d = Ok blocks ->
  len blocks = message_count h /\
  Forall (fun '(_, off, n) => exists m, get_range off (off + n) d = Some m) blocks.
Proof.
  intros Hh Hb. split; [|by apply (packet_blocks_sound h); [eapply parse_header_len|]].
  destruct (parse_header_range _ _ Hh) as [_ H16]. unfold u16 in H16.
  eapply collect_blocks_count in Hb; cbn [header_blocks block_iter blocks_left truncated] in *; [exact Hb|lia|lia|done].
Qed.

Lemma packet_blocks_in_bounds_witness :
  let d := encode_packet (to_be_bytes 10 1) 7 [to_be_bytes 3 5] in
  exists h blocks, parse_header d = Ok h /\ packet_blocks h d = Ok blocks /\
    (len blocks = message_count h /\
     Forall (fun '(_, off, n) => exists m, get_range off (off + n) d = Some m) blocks).
Proof.
  eexists _, _. split; [vm_compute; reflexivity|]. split; [vm_compute; reflexivity|].
  apply packet_blocks_in_bounds; vm_compute; reflexivity.
Defined.
