(* ===== verification/Reassembly.v ===== *)
(** * client-moldudp: sequence reassembler

    Models [crates/clients/moldudp/src/reassembly.rs]: a ring of [capacity] slots
    keyed by [seq % capacity]. [pending] is the abstract view, a partial map
    from sequence to buffered message; each operation is characterised by what
    it does to [pending] and to [expected_next]. *)

From S2P Require Import Prelude TransportCore MoldWire.
From Stdlib Require Import ZArith Lia.
From stdpp Require Import prelude list.

Open Scope Z_scope.
Open Scope res_scope.

Module SequenceReassembler.

Record Slot (S : Type) := mkSlot { slot_seq : Z; slot_payload : option S }.
Arguments mkSlot {S}.
Arguments slot_seq {S}.
Arguments slot_payload {S}.

Record t (S : Type) := Ring { slots : list (Slot S); capacity : Z; expected_next : Z }.
Arguments Ring {S}.
Arguments slots {S}.
Arguments capacity {S}.
Arguments expected_next {S}.

Section ops.
Context {S : Type}.
Implicit Types (r : t S) (seq : Z) (p : S).

(** [SequenceReassembler::new]; the assertion panics on zero. *)
Definition new (capacity : nat) : res MoldUdpError (t S) :=
  match capacity with
  | O => Panic
  | _ => Ok (Ring (replicate capacity (mkSlot 0 None)) (Z.of_nat capacity) 1)
  end.

Definition slot_index r seq : nat := Z.to_nat (seq mod capacity r).

Definition advance_expected r (n : Z) : t S :=
  Ring (slots r) (capacity r) (u64_add (expected_next r) n).

Definition reset_expected r (expected : Z) : t S :=
  Ring (slots r) (capacity r) expected.

(** [<DrainCursor as Iterator>::next]; the slot index is in range by [wf]. *)
Definition cursor_next r : option S * t S :=
  let idx := slot_index r (expected_next r) in
  match slots r !! idx with
  | None => (None, r)
  | Some slot =>
      if slot_seq slot =? expected_next r then
        match slot_payload slot with
        | None => (None, r)
        | Some p =>
            (Some p, Ring (<[idx := mkSlot (slot_seq slot) None]> (slots r)) (capacity r)
                          (u64_add (expected_next r) 1))
        end
      else (None, r)
  end.

(** A [DrainCursor] run to its end, by iteration or by its [Drop]. Every item
    empties an occupied slot, so one round per slot and a closing [None] do. *)
Fixpoint drain_run (fuel : nat) r : list S * t S :=
  match fuel with
  | O => ([], r)
  | Datatypes.S fuel =>
      match cursor_next r with
      | (None, r') => ([], r')
      | (Some p, r') => let '(ps, r'') := drain_run fuel r' in (p :: ps, r'')
      end
  end.

Definition drain_ready r : list S * t S := drain_run (Datatypes.S (length (slots r))) r.

(** [insert]: [Ok true] stands for [Some(DrainCursor)], [Ok false] for [None]. *)
Definition insert r seq (slab : S) : res MoldUdpError bool * t S :=
  if seq <? expected_next r then (Ok false, r)
  else
    let idx := slot_index r seq in
    match slots r !! idx with
    | None => (Panic, r)
    | Some slot =>
        match slot_payload slot with
        | Some _ =>
            if slot_seq slot =? seq then (Ok false, r)
            else (Err (ReassemblyBufferFull (len (slots r))), r)
        | None =>
            (Ok (seq =? expected_next r),
             Ring (<[idx := mkSlot seq (Some slab)]> (slots r)) (capacity r) (expected_next r))
        end
    end.

(** ** Abstract view *)

Definition pending r seq : option S :=
  match slots r !! slot_index r seq with
  | Some slot => if slot_seq slot =? seq then slot_payload slot else None
  | None => None
  end.

(** The ring has its capacity's slots, and an occupied slot holds a sequence that
    hashes to it. *)
Definition wf r : Prop :=
  0 < capacity r /\ len (slots r) = capacity r /\
  forall i slot p, slots r !! i = Some slot -> slot_payload slot = Some p ->
    slot_index r (slot_seq slot) = i.

Definition occupied r : nat := length (filter (fun s => is_Some (slot_payload s)) (slots r)).

(** ** Lemmas *)

Lemma slot_index_lt r seq : wf r -> (slot_index r seq < length (slots r))%nat.
Proof.
  intros (Hc & Hl & _). unfold slot_index, len in *.
  pose proof (Z.mod_pos_bound seq (capacity r) Hc). lia.
Qed.

Lemma slot_at r seq : wf r -> exists slot, slots r !! slot_index r seq = Some slot.
Proof. intros Hwf. apply lookup_lt_is_Some_2, slot_index_lt, Hwf. Qed.

Lemma new_slot n r i slot :
  new n = Ok r -> slots r !! i = Some slot -> slot = mkSlot 0 None.
Proof.
  destruct n as [|n]; [done|]. intros [= <-] Hi.
  change (replicate (Datatypes.S n) (mkSlot 0 (@None S)) !! i = Some slot) in Hi.
  by apply lookup_replicate in Hi as [-> _].
Qed.

Lemma new_wf n r : new n = Ok r -> wf r.
Proof.
  intros E. unfold wf. split_and!.
  - destruct n; [done|]. simplify_eq/=. lia.
  - destruct n; [done|]. simplify_eq/=. unfold len. simpl. rewrite length_replicate. lia.
  - intros i slot p Hi Hp. by rewrite (new_slot _ _ _ _ E Hi) in Hp.
Qed.

Lemma new_pending n r seq : new n = Ok r -> pending r seq = None.
Proof.
  intros E. unfold pending. destruct (_ !! _) as [slot|] eqn:Es; [|done].
  rewrite (new_slot _ _ _ _ E Es). by destruct (_ =? _).
Qed.

Lemma advance_wf r n : wf r -> wf (advance_expected r n).
Proof. done. Qed.

Lemma reset_wf r n : wf r -> wf (reset_expected r n).
Proof. done. Qed.

(** Writing slot [slot_index seq] with an entry of sequence [seq]. *)
Lemma pending_update r seq o e :
  wf r ->
  (forall s, s <> seq -> slot_index r s = slot_index r seq -> pending r s = None) ->
  forall s, pending (Ring (<[slot_index r seq := mkSlot seq o]> (slots r)) (capacity r) e) s =
    if decide (s = seq) then o else pending r s.
Proof.
  intros Hwf Hother s. unfold pending. cbn [slots].
  change (slot_index (Ring _ _ _) s) with (slot_index r s).
  destruct (decide (slot_index r s = slot_index r seq)) as [Ei|Ei].
  - rewrite Ei, list_lookup_insert_eq by (by apply slot_index_lt). cbn [slot_seq slot_payload].
    case_decide as Es; [subst; by rewrite Z.eqb_refl|].
    rewrite (proj2 (Z.eqb_neq seq s)) by congruence.
    specialize (Hother s Es Ei). unfold pending in Hother. by rewrite Ei in Hother.
  - rewrite list_lookup_insert_ne by done. case_decide; [congruence|done].
Qed.

Lemma update_wf r seq o e :
  wf r -> wf (Ring (<[slot_index r seq := mkSlot seq o]> (slots r)) (capacity r) e).
Proof.
  intros Hwf. pose proof Hwf as (Hc & Hl & Hh). unfold wf, len in *. cbn [slots capacity].
  rewrite length_insert. split_and!; [done..|].
  intros i slot p Hi Hp. change (slot_index (Ring _ _ _) (slot_seq slot)) with (slot_index r (slot_seq slot)).
  destruct (decide (i = slot_index r seq)) as [->|Hne].
  - rewrite list_lookup_insert_eq in Hi by (by apply slot_index_lt). by simplify_eq.
  - rewrite list_lookup_insert_ne in Hi by done. eauto.
Qed.

(** *** Draining *)

Lemma cursor_next_spec r o r' :
  wf r -> cursor_next r = (o, r') ->
  wf r' /\ o = pending r (expected_next r) /\ capacity r' = capacity r /\
  match o with
  | None => r' = r
  | Some _ =>
      expected_next r' = u64_add (expected_next r) 1 /\
      (occupied r' < occupied r)%nat /\
      forall s, pending r' s = if decide (s = expected_next r) then None else pending r s
  end.
Proof.
  intros Hwf E. unfold cursor_next in E. destruct (slot_at r (expected_next r) Hwf) as [slot Hs].
  unfold pending at 1. rewrite Hs in *.
  destruct (slot_seq slot =? expected_next r) eqn:Eseq; [|by simplify_eq].
  destruct (slot_payload slot) as [p|] eqn:Ep; simplify_eq; [|done]. apply Z.eqb_eq in Eseq.
  rewrite Eseq. split_and!; [by apply update_wf|done|done|done| |].
  - unfold occupied. cbn [slots].
    rewrite <- (length_filter_insert _ (slots r) _ _ (mkSlot (expected_next r) None) Hs); [lia|by rewrite Ep|].
    simpl. by intros [? ?].
  - apply pending_update; [done|]. intros s Hne Hi. unfold pending. rewrite Hi, Hs, Eseq.
    by rewrite (proj2 (Z.eqb_neq _ _)) by congruence.
Qed.

Lemma drain_run_spec fuel r out r' :
  wf r -> (occupied r < fuel)%nat -> u64 (expected_next r) -> drain_run fuel r = (out, r') ->
  wf r' /\ capacity r' = capacity r /\
  expected_next r' = (expected_next r + len out) mod W64 /\
  pending r' (expected_next r') = None /\
  (forall i p, out !! i = Some p -> pending r ((expected_next r + Z.of_nat i) mod W64) = Some p) /\
  (forall s, pending r' s = pending r s \/
     (pending r' s = None /\ exists i, (i < length out)%nat /\ s = (expected_next r + Z.of_nat i) mod W64)) /\
  (forall i, (i < length out)%nat -> pending r' ((expected_next r + Z.of_nat i) mod W64) = None).
Proof.
  revert r out r'. induction fuel as [|fuel IH]; intros r out r' Hwf Hocc Hu E; [lia|].
  simpl in E. destruct (cursor_next r) as [[p|] r1] eqn:Ec;
    destruct (cursor_next_spec _ _ _ Hwf Ec) as (Hwf1 & Hp & Hcap & H1).
  - destruct H1 as (He1 & Hocc1 & Hpend1).
    destruct (drain_run fuel r1) as [ps r2] eqn:Er. simplify_eq.
    assert (Hu1 : u64 (expected_next r1)).
    { rewrite He1. unfold u64, u64_add. apply Z.mod_pos_bound. lia. }
    destruct (IH _ _ _ Hwf1 ltac:(lia) Hu1 Er) as (Hwf2 & Hcap2 & He2 & Hn2 & Hin & Hall & Hgone).
    assert (Hidx : forall z, (expected_next r1 + z) mod W64 = (expected_next r + (1 + z)) mod W64).
    { intros z. rewrite He1. unfold u64_add. rewrite Zplus_mod_idemp_l. f_equal. lia. }
    rewrite Hidx in He2. split_and!; [done|congruence| |done| | |].
    + rewrite He2, len_cons. f_equal. lia.
    + intros [|i] q Hq; simpl in Hq; simplify_eq.
      * rewrite Z.add_0_r, Z.mod_small by done. done.
      * apply Hin in Hq. rewrite Hidx in Hq.
        replace (expected_next r + Z.of_nat (Datatypes.S i)) with (expected_next r + (1 + Z.of_nat i)) by lia.
        rewrite Hpend1 in Hq. by case_decide.
    + intros s. specialize (Hall s). rewrite Hpend1 in Hall. destruct Hall as [Ha|(Ha & i & Hi & Hs)].
      * case_decide; [|by left]. right. split; [done|]. exists 0%nat. simpl.
        split; [lia|]. by rewrite Z.add_0_r, Z.mod_small.
      * right. split; [done|]. exists (Datatypes.S i). simpl. split; [lia|].
        rewrite Hs, Hidx. f_equal. lia.
    + intros [|i] Hi; simpl in Hi.
      * rewrite Z.add_0_r, Z.mod_small by done. specialize (Hall (expected_next r)).
        rewrite Hpend1, decide_True in Hall by done. tauto.
      * specialize (Hgone i ltac:(lia)). rewrite Hidx in Hgone.
        by replace (expected_next r + Z.of_nat (Datatypes.S i)) with (expected_next r + (1 + Z.of_nat i)) by lia.
  - simplify_eq. rewrite len_nil, Z.add_0_r, Z.mod_small by done.
    split_and!; try done; [intros s; by left|]. intros i Hi. simpl in Hi. lia.
Qed.

Lemma occupied_bound r : (occupied r <= length (slots r))%nat.
Proof. apply length_filter. Qed.

(** [drain_ready] takes the maximal contiguous run from [expected_next]. *)
Lemma drain_ready_spec r out r' :
  wf r -> u64 (expected_next r) -> drain_ready r = (out, r') ->
  wf r' /\ capacity r' = capacity r /\
  expected_next r' = (expected_next r + len out) mod W64 /\
  pending r' (expected_next r') = None /\
  (forall i p, out !! i = Some p -> pending r ((expected_next r + Z.of_nat i) mod W64) = Some p) /\
  (forall s, pending r' s = pending r s \/
     (pending r' s = None /\ exists i, (i < length out)%nat /\ s = (expected_next r + Z.of_nat i) mod W64)) /\
  (forall i, (i < length out)%nat -> pending r' ((expected_next r + Z.of_nat i) mod W64) = None).
Proof.
  intros Hwf Hu E. eapply (drain_run_spec (Datatypes.S (length (slots r)))); [done| |done|exact E].
  pose proof (occupied_bound r). lia.
Qed.

(** Away from the top of the width: when everything buffered lies in [[e, u)], the
    run stays below [u] and the ring keeps exactly what lies past it. *)
Lemma drain_ready_below r u out r' :
  wf r -> 0 <= expected_next r <= u -> u < W64 ->
  (forall s p, pending r s = Some p -> expected_next r <= s < u) ->
  drain_ready r = (out, r') ->
  wf r' /\ expected_next r' = expected_next r + len out /\ expected_next r' <= u /\
  pending r (expected_next r') = None /\
  (forall k p, out !! k = Some p -> pending r (expected_next r + Z.of_nat k) = Some p) /\
  (forall s, pending r' s = if decide (expected_next r' < s) then pending r s else None).
Proof.
  intros Hwf He Hu Hb E.
  destruct (drain_ready_spec _ _ _ Hwf ltac:(unfold u64; lia) E) as (Hwf' & _ & He' & Hn & Hin & Hall & Hgone).
  assert (Hle : expected_next r + len out <= u).
  { destruct (decide (expected_next r + len out <= u)) as [|Hgt]; [done|].
    destruct (lookup_lt_is_Some_2 out (Z.to_nat (u - expected_next r))) as [p Hp]; [unfold len in Hgt; lia|].
    apply Hin, Hb in Hp. rewrite Z2Nat.id, Z.mod_small in Hp by lia. lia. }
  pose proof (len_nonneg out). rewrite Z.mod_small in He' by lia.
  assert (Hsmall : forall k, (k < length out)%nat ->
    (expected_next r + Z.of_nat k) mod W64 = expected_next r + Z.of_nat k)
    by (intros k Hk; apply Z.mod_small; unfold len in *; lia).
  split_and!; [done|done|lia| | |].
  - destruct (Hall (expected_next r')) as [<-|[_ (k & Hk & Hk')]]; [done|].
    rewrite Hsmall in Hk' by done. unfold len in *; lia.
  - intros k p Hk. rewrite <- Hsmall by (by eapply lookup_lt_Some). by apply Hin.
  - intros s. case_decide as Hs.
    + destruct (Hall s) as [?|[_ (k & Hk & ->)]]; [done|]. rewrite Hsmall in Hs by done. unfold len in *; lia.
    + destruct (decide (s = expected_next r')) as [->|Hne]; [done|].
      destruct (decide (expected_next r <= s)) as [Hge|Hlt].
      * rewrite <- (Hgone (Z.to_nat (s - expected_next r))) by (unfold len in *; lia).
        rewrite Z2Nat.id, Z.mod_small by lia. f_equal. lia.
      * destruct (Hall s) as [->|[? _]]; [|done]. destruct (pending r s) eqn:Ep; [|done].
        apply Hb in Ep. lia.
Qed.

(** *** Inserting *)

(** What [insert] does on each of its branches. *)
Lemma insert_spec r seq slab res r' :
  wf r -> insert r seq slab = (res, r') ->
  wf r' /\ capacity r' = capacity r /\ expected_next r' = expected_next r /\
  match res with
  | Panic => False
  | Err e =>
      e = ReassemblyBufferFull (capacity r) /\ r' = r /\ expected_next r <= seq /\
      exists other, other <> seq /\ slot_index r other = slot_index r seq /\ is_Some (pending r other)
  | Ok cursor =>
      if decide (seq < expected_next r) then r' = r /\ cursor = false
      else if decide (is_Some (pending r seq)) then r' = r /\ cursor = false
      else cursor = (seq =? expected_next r) /\
           forall s, pending r' s = if decide (s = seq) then Some slab else pending r s
  end.
Proof.
  intros Hwf E. unfold insert in E. pose proof Hwf as (Hc & Hl & Hh).
  destruct (seq <? expected_next r) eqn:Elt.
  { simplify_eq. rewrite decide_True by zarith. done. }
  destruct (slot_at r seq Hwf) as [slot Hs]. rewrite Hs in E.
  assert (Hpend : pending r seq = if slot_seq slot =? seq then slot_payload slot else None)
    by (unfold pending; by rewrite Hs).
  destruct (slot_payload slot) as [p|] eqn:Ep.
  - destruct (slot_seq slot =? seq) eqn:Es; simplify_eq.
    + rewrite decide_False by zarith. rewrite decide_True by (by rewrite Hpend). done.
    + split_and!; try done; [by rewrite Hl|zarith|]. exists (slot_seq slot).
      pose proof (Hh _ _ _ Hs Ep) as Hi. bool_facts. split_and!; [done|done|].
      unfold pending. rewrite Hi, Hs, Z.eqb_refl, Ep. by eexists.
  - simplify_eq. assert (Hn : pending r seq = None) by (rewrite Hpend; by destruct (_ =? _)).
    rewrite decide_False by zarith. rewrite decide_False by (rewrite Hn; by intros [? ?]).
    split_and!; try done; [by apply update_wf|]. apply pending_update; [done|].
    intros s _ Hi. unfold pending. rewrite Hi, Hs, Ep. by destruct (slot_seq slot =? s).
Qed.

End ops.
End SequenceReassembler.

(** ** Properties *)

Section properties.
Context {S : Type}.
Import SequenceReassembler.

(** C34: [insert] reports overflow only when another sequence holds the slot, and then
    changes nothing; otherwise a new message ahead of [expected_next] is buffered
    under its sequence; and the [drain_ready] that follows yields the buffered
    messages that continue from [expected_next], in order, up to the first hole. *)
Theorem insert_drain_contract (r : t S) seq (p : S) result r' :
  wf r -> u64 (expected_next r) -> insert r seq p = (result, r') ->
  (forall e, result = Err e -> r' = r /\ exists other, other <> seq /\
     slot_index r other = slot_index r seq /\ is_Some (pending r other)) /\
  (forall b, result = Ok b -> expected_next r <= seq -> pending r seq = None -> pending r' seq = Some p) /\
  forall out r'', drain_ready r' = (out, r'') ->
    expected_next r'' = (expected_next r + len out) mod W64 /\
    pending r'' (expected_next r'') = None /\
    forall k q, out !! k = Some q -> pending r' ((expected_next r + Z.of_nat k) mod W64) = Some q.
Proof.
  intros Hw Hu E. destruct (insert_spec _ _ _ _ _ Hw E) as (Hw' & _ & He & Hres). split_and!.
  - intros e ->. destruct Hres as (_ & -> & _ & Ho). done.
  - intros b -> Hge Hn. rewrite decide_False in Hres by lia.
    rewrite decide_False in Hres by (rewrite Hn; by intros [? ?]). destruct Hres as [_ ->]. by rewrite decide_True.
  - intros out r'' Ed. rewrite <- He in *.
    destruct (drain_ready_spec _ _ _ Hw' Hu Ed) as (_ & _ & ? & ? & ? & _). done.
Qed.
End properties.

Lemma insert_drain_contract_witness :
  exists r r', SequenceReassembler.new 4 = Ok r /\
    SequenceReassembler.insert r 1 true = (Ok true, r') /\
    (forall b, Ok true = Ok (E := MoldUdpError) b -> SequenceReassembler.expected_next r <= 1 ->
       SequenceReassembler.pending r 1 = None -> SequenceReassembler.pending r' 1 = Some true).
Proof.
  eexists _, _. split; [reflexivity|]. split; [reflexivity|].
  eapply (insert_drain_contract (S := bool)); [|vm_compute; done|reflexivity].
  by apply (SequenceReassembler.new_wf 4).
Defined.
