(* ===== verification/Gap.v ===== *)
(** * client-moldudp: gap tracking and re-request emission

    Models [crates/clients/moldudp/src/gap.rs]. The [BTreeMap] of ranges is its
    sorted list of entries, with the range queries the code makes of it. The
    abstract view of the handler is the set [missing] of sequences it tracks. *)

From S2P Require Import Prelude TransportCore MoldWire.
From Stdlib Require Import ZArith Lia.
From stdpp Require Import prelude list sorting strings.

Open Scope Z_scope.
Open Scope res_scope.

(** ** [BTreeMap<u64, u64>] as the sorted list of its entries *)

Module BTree.
(** [range(..k).next_back()]. *)
Definition last_before (k : Z) (l : list (Z * Z)) : option (Z * Z) :=
  last (filter (fun p => p.1 < k) l).
(** [range(..=k).next_back()]. *)
Definition last_upto (k : Z) (l : list (Z * Z)) : option (Z * Z) :=
  last (filter (fun p => p.1 <= k) l).
(** [range(k..).next()]. *)
Definition first_from (k : Z) (l : list (Z * Z)) : option (Z * Z) :=
  head (filter (fun p => k <= p.1) l).
Definition remove (k : Z) (l : list (Z * Z)) : list (Z * Z) :=
  filter (fun p => p.1 <> k) l.
Definition insert (k v : Z) (l : list (Z * Z)) : list (Z * Z) :=
  filter (fun p => p.1 < k) l ++ (k, v) :: filter (fun p => k < p.1) l.
End BTree.

(** One contiguous run to re-request. *)
Record GapRequest := { start_seq : Z; count : Z }.

(** ** [GapRequestHandler] *)

Module GapRequestHandler.

Record t := Handler { gaps : list (Z * Z) }.

Definition new : t := Handler [].

(** One round of the absorbing loop: [(end, gaps)] in, the next or the final pair out. *)
Definition absorb (start : Z) (st : Z * list (Z * Z)) : step (Z * list (Z * Z)) (Z * list (Z * Z)) :=
  let '(stop, l) := st in
  match BTree.first_from start l with
  | None => Leave (stop, l)
  | Some (next_start, next_end) =>
      if next_start >? stop then Leave (stop, l)
      else Again (Z.max stop next_end, BTree.remove next_start l)
  end.

(** Each round removes an entry, so one round per entry and the exit suffice. *)
Definition absorb_all (start stop : Z) (l : list (Z * Z)) : Z * list (Z * Z) :=
  default (stop, l) (iterate (absorb start) (S (length l)) (stop, l)).

Definition record_missing_range (g : t) (start end_exclusive : Z) : t :=
  if start >=? end_exclusive then g
  else
    let '(start, stop) :=
      match BTree.last_before start (gaps g) with
      | Some (prev_start, prev_end) =>
          if prev_end >=? start then (prev_start, Z.max end_exclusive prev_end)
          else (start, end_exclusive)
      | None => (start, end_exclusive)
      end in
    let '(stop, l) := absorb_all start stop (gaps g) in
    Handler (BTree.insert start stop l).

Definition record_gap (g : t) (seq : Z) : t := record_missing_range g seq (u64_add seq 1).

Definition mark_received (g : t) (seq : Z) : t :=
  match BTree.last_upto seq (gaps g) with
  | None => g
  | Some (start, stop) =>
      if seq >=? stop then g
      else
        let l := BTree.remove start (gaps g) in
        let l := if start <? seq then BTree.insert start seq l else l in
        let l := if u64_add seq 1 <? stop then BTree.insert (u64_add seq 1) stop l else l in
        Handler l
  end.

Definition has_pending (g : t) : bool := match gaps g with [] => false | _ => true end.

(** The [while cur < end] loop: one request per [u16::MAX] sequences at most. *)
Fixpoint chunks (fuel : nat) (cur stop : Z) : list GapRequest :=
  match fuel with
  | O => []
  | S fuel =>
      if cur <? stop then
        let n := default U16_MAX (try_u16 (stop - cur)) in
        {| start_seq := cur; count := n |} :: chunks fuel (cur + n) stop
      else []
  end.

Definition chunk_fuel (cur stop : Z) : nat := S (Z.to_nat ((stop - cur) / U16_MAX + 1)).

Definition pending_gaps (g : t) : list GapRequest :=
  concat ((fun p : Z * Z => chunks (chunk_fuel p.1 p.2) p.1 p.2) <$> gaps g).

(** ** Abstract view and invariant *)

Definition covers (p : Z * Z) (q : Z) : Prop := p.1 <= q < p.2.
Definition missing (g : t) (q : Z) : Prop := exists p, p ∈ gaps g /\ covers p q.

(** [p] ends before [q] starts with at least one received sequence in between. *)
Definition before (p q : Z * Z) : Prop := p.2 < q.1.

(** Entries are non-empty [u64] ranges, sorted, disjoint and non-adjacent. *)
Definition wf (g : t) : Prop :=
  StronglySorted before (gaps g) /\ Forall (fun p => 0 <= p.1 < p.2 /\ p.2 < W64) (gaps g).

(** ** Lemmas *)

Lemma sorted_filter {A} (R : relation A) (P : A -> Prop) {_ : forall x, Decision (P x)} (l : list A) :
  StronglySorted R l -> StronglySorted R (filter P l).
Proof.
  induction 1 as [|a l Hs IH Hall]; [constructor|]. rewrite filter_cons. case_decide; [|done].
  constructor; [done|]. apply Forall_forall. intros x [_ Hx]%list_elem_of_filter.
  by eapply Forall_forall in Hall.
Qed.

Lemma sorted_head {A} (R : relation A) (l : list A) p q :
  StronglySorted R l -> head l = Some p -> q ∈ l -> q = p \/ R p q.
Proof.
  intros Hs Hp Hq. destruct Hs as [|a l Hs Hall]; [done|]. simplify_eq/=.
  apply elem_of_cons in Hq as [->|Hq]; [by left|right]. by eapply Forall_forall in Hall.
Qed.

Lemma sorted_last {A} (R : relation A) (l : list A) p q :
  StronglySorted R l -> last l = Some p -> q ∈ l -> q = p \/ R q p.
Proof.
  intros Hs (l' & ->)%last_Some Hq. apply elem_of_app in Hq as [Hq|Hq].
  - right. eapply StronglySorted_app_1_elem_of; [done..|]. by apply list_elem_of_singleton.
  - left. by apply list_elem_of_singleton in Hq.
Qed.

Lemma head_filter_Some {A} (P : A -> Prop) {_ : forall x, Decision (P x)} (l : list A) p :
  head (filter P l) = Some p -> p ∈ l /\ P p.
Proof.
  intros Hh. apply head_Some_elem_of in Hh. apply list_elem_of_filter in Hh. tauto.
Qed.

Lemma last_filter_Some {A} (P : A -> Prop) {_ : forall x, Decision (P x)} (l : list A) p :
  last (filter P l) = Some p -> p ∈ l /\ P p.
Proof.
  intros Hh. apply last_Some_elem_of in Hh. apply list_elem_of_filter in Hh. tauto.
Qed.

Lemma head_filter_None {A} (P : A -> Prop) {_ : forall x, Decision (P x)} (l : list A) q :
  head (filter P l) = None -> q ∈ l -> ~ P q.
Proof.
  intros Hh Hq HP. apply head_None in Hh.
  assert (Hf : q ∈ filter P l) by (by apply list_elem_of_filter). rewrite Hh in Hf. by apply not_elem_of_nil in Hf.
Qed.

Lemma last_filter_None {A} (P : A -> Prop) {_ : forall x, Decision (P x)} (l : list A) q :
  last (filter P l) = None -> q ∈ l -> ~ P q.
Proof.
  intros Hh Hq HP. apply last_None in Hh.
  assert (Hf : q ∈ filter P l) by (by apply list_elem_of_filter). rewrite Hh in Hf. by apply not_elem_of_nil in Hf.
Qed.

Definition entry_ok (p : Z * Z) : Prop := 0 <= p.1 < p.2 /\ p.2 < W64.

Lemma wf_entry g p : wf g -> p ∈ gaps g -> entry_ok p.
Proof. intros [_ H] Hp. by eapply Forall_forall in H. Qed.

(** Two entries are the same or apart. *)
Lemma sorted_apart l p q :
  StronglySorted before l -> p ∈ l -> q ∈ l -> p = q \/ before p q \/ before q p.
Proof.
  induction 1 as [|a l Hs IH Hall]; intros Hp Hq; [by apply not_elem_of_nil in Hp|].
  rewrite Forall_forall in Hall.
  apply elem_of_cons in Hp as [->|Hp]; apply elem_of_cons in Hq as [->|Hq]; eauto.
Qed.

Lemma remove_in k l p : p ∈ BTree.remove k l <-> p ∈ l /\ p.1 <> k.
Proof. unfold BTree.remove. rewrite list_elem_of_filter. tauto. Qed.

Lemma insert_in k v l p :
  p ∈ BTree.insert k v l <-> p = (k, v) \/ (p ∈ l /\ p.1 <> k).
Proof.
  unfold BTree.insert. rewrite elem_of_app, elem_of_cons, !list_elem_of_filter.
  split; [intuition (auto; lia)|]. intros [->|[Hp Hne]]; [auto|].
  destruct (decide (p.1 < k)); [auto|]. right; right. split; [lia|done].
Qed.

(** Inserting a range that touches no entry keeps the list sorted and apart. *)
Lemma insert_sorted k v l :
  StronglySorted before l -> k < v ->
  (forall p, p ∈ l -> p.2 < k \/ v < p.1) -> Forall entry_ok l ->
  StronglySorted before (BTree.insert k v l).
Proof.
  intros Hs Hkv Hap Hok. rewrite Forall_forall in Hok. unfold BTree.insert. apply StronglySorted_app.
  split_and!; [|by apply sorted_filter|constructor; [by apply sorted_filter|]].
  - intros p q [Hk Hp]%list_elem_of_filter Hq. unfold before. destruct (Hok _ Hp) as [Hlt _].
    apply elem_of_cons in Hq as [->|[Hk' Hq]%list_elem_of_filter]; simpl; destruct (Hap _ Hp) as [Hc|Hc]; try lia.
  - apply Forall_forall. intros p [Hk Hp]%list_elem_of_filter. unfold before. simpl.
    destruct (Hap _ Hp); [|lia]. destruct (Hok _ Hp). lia.
Qed.

Lemma remove_wf k g : wf g -> wf (Handler (BTree.remove k (gaps g))).
Proof.
  intros [Hs Hok]. split; [by apply sorted_filter|]. apply Forall_forall.
  intros p [Hp _]%remove_in. by eapply Forall_forall in Hok.
Qed.

Lemma insert_wf k v g :
  wf g -> entry_ok (k, v) -> (forall p, p ∈ gaps g -> p.2 < k \/ v < p.1) ->
  wf (Handler (BTree.insert k v (gaps g))).
Proof.
  intros Hwf Hkv Hap. pose proof Hwf as [Hs Hok]. split.
  - apply insert_sorted; [done|apply Hkv|done|done].
  - apply Forall_forall. intros p [->|[Hp _]]%insert_in; [done|]. by eapply Forall_forall in Hok.
Qed.

(** *** Recording *)

(** Invariant of the absorbing loop: the entries below [start] stay clear of it,
    and the union of the entries with [start, stop) is the target set. *)
Definition absorb_inv (start : Z) (target : Z -> Prop) (st : Z * list (Z * Z)) : Prop :=
  wf (Handler st.2) /\ entry_ok (start, st.1) /\
  (forall p, p ∈ st.2 -> p.1 < start -> p.2 < start) /\
  (forall q, missing (Handler st.2) q \/ start <= q < st.1 <-> target q).

Lemma absorb_step start target st st' :
  absorb_inv start target st -> absorb start st = Again st' ->
  absorb_inv start target st' /\ (length st'.2 < length st.2)%nat.
Proof.
  destruct st as [stop l]. intros (Hwf & Hok & Hlow & Hset) E. unfold absorb in E.
  destruct (BTree.first_from start l) as [[ns ne]|] eqn:Ef; [|done].
  destruct (ns >? stop) eqn:Ens; simplify_eq. bool_facts. simpl in *.
  destruct (head_filter_Some _ _ _ Ef) as [Hin Hge]. simpl in Hge.
  pose proof (wf_entry _ _ Hwf Hin) as [Hne Hne2]. simpl in Hne, Hne2.
  split; [split_and!|].
  - by apply (remove_wf ns (Handler l)).
  - destruct Hok. split; simpl in *; lia.
  - intros p [Hp _]%remove_in. by apply Hlow.
  - intros q. rewrite <- Hset. unfold missing, covers. simpl. destruct Hok as [Hok _]. simpl in Hok. split.
    + intros [(p & [Hp _]%remove_in & Hc)|Hq]; [left; eauto|].
      destruct (decide (q < stop)); [right; lia|]. left. exists (ns, ne). split; [done|]. simpl. lia.
    + intros [(p & Hp & Hc)|Hq]; [|right; lia].
      destruct (decide (p.1 = ns)) as [Ep|Ep].
      * destruct (sorted_apart l p (ns, ne) (proj1 Hwf) Hp Hin) as [->|Hb].
        { right. simpl in *. lia. }
        pose proof (wf_entry _ _ Hwf Hp) as [Hpe _]. destruct Hb as [Hb|Hb]; unfold before in Hb; simpl in Hb; lia.
      * left. exists p. split; [by apply remove_in|done].
  - unfold BTree.remove. simpl.
    apply list_elem_of_split in Hin as (l1 & l2 & ->). rewrite filter_app, filter_cons, decide_False by (simpl; lia).
    rewrite !length_app. simpl. pose proof (length_filter (fun p : Z * Z => p.1 <> ns) l1).
    pose proof (length_filter (fun p : Z * Z => p.1 <> ns) l2). lia.
Qed.

Lemma absorb_all_spec start stop l target :
  absorb_inv start target (stop, l) ->
  absorb_inv start target (absorb_all start stop l) /\
  forall p, p ∈ (absorb_all start stop l).2 -> start <= p.1 -> (absorb_all start stop l).1 < p.1.
Proof.
  intros Hinv. unfold absorb_all.
  destruct (iterate_total (absorb start) (absorb_inv start target) (fun st => length st.2) (stop, l))
    as [r Hr]; [intros; by eapply absorb_step|done|].
  cbn [snd] in Hr. rewrite Hr. cbn [default].
  eapply (iterate_inv (absorb start) (absorb_inv start target)
    (fun r => absorb_inv start target r /\ forall p, p ∈ r.2 -> start <= p.1 -> r.1 < p.1)); [| |done|exact Hr].
  - intros s s' Hs E. by eapply absorb_step in E as [? _].
  - intros [stop' l'] r' Hs E. unfold absorb in E.
    destruct (BTree.first_from start l') as [[ns ne]|] eqn:Ef.
    + destruct (ns >? stop') eqn:En; [|done]. simplify_eq. split; [done|]. simpl. bool_facts.
      intros p Hp Hge. destruct Hs as (Hwf & _). simpl in Hwf.
      destruct (sorted_head before _ _ p (sorted_filter _ (fun q => start <= q.1) _ (proj1 Hwf)) Ef) as [->|Hb].
      * by apply list_elem_of_filter.
      * simpl. lia.
      * destruct (head_filter_Some _ _ _ Ef) as [Hin _]. pose proof (wf_entry _ _ Hwf Hin) as [Hl _].
        unfold before in Hb. simpl in *. lia.
    + simplify_eq. split; [done|]. simpl. intros p Hp Hge.
      by pose proof (head_filter_None _ _ _ Ef Hp).
Qed.

(** [record_missing_range] adds exactly the range to the missing set and keeps
    the entries sorted, disjoint and non-adjacent. *)
Lemma record_missing_range_spec g start stop :
  wf g -> 0 <= start -> stop < W64 ->
  wf (record_missing_range g start stop) /\
  forall q, missing (record_missing_range g start stop) q <-> missing g q \/ start <= q < stop.
Proof.
  intros Hwf H0 Hs64. unfold record_missing_range.
  destruct (start >=? stop) eqn:Ege; [bool_facts; split; [done|]; intros q; split; [auto|intros [?|?]; [done|lia]]|].
  bool_facts.
  set (hull := match BTree.last_before start (gaps g) with Some (ps, pe) => _ | None => _ end).
  set (target := fun q => missing g q \/ start <= q < stop).
  assert (Hinv : absorb_inv hull.1 target (hull.2, gaps g)).
  { unfold absorb_inv, target, missing, covers. simpl. destruct g as [l]. simpl in *.
    unfold hull. destruct (BTree.last_before start l) as [[ps pe]|] eqn:El.
    - destruct (last_filter_Some _ _ _ El) as [Hin Hlt]. simpl in Hlt.
      pose proof (wf_entry _ _ Hwf Hin) as [Hpe Hpe2]. simpl in Hpe, Hpe2.
      assert (Hlast : forall p, p ∈ l -> p.1 < start -> p = (ps, pe) \/ p.2 < ps).
      { intros p Hp Hp1. destruct (sorted_last before _ _ p (sorted_filter _ (fun q => q.1 < start) _ (proj1 Hwf)) El) as [->|Hb];
          [by apply list_elem_of_filter|by left|right]. by unfold before in Hb. }
      destruct (pe >=? start) eqn:Epe; bool_facts; simpl; (split_and!; [done|split; simpl; lia| |]).
      + intros p Hp Hp1. destruct (Hlast p Hp ltac:(lia)) as [->|?]; [simpl in Hp1; lia|done].
      + intros q. split; [|intros [?|?]; [by left|right; lia]]. intros [?|?]; [by left|].
        destruct (decide (start <= q < stop)); [by right|left]. exists (ps, pe). split; [done|simpl; lia].
      + intros p Hp Hp1. destruct (Hlast p Hp ltac:(lia)) as [->|?]; [simpl; lia|lia].
      + intros q. done.
    - simpl. split_and!; [done|split; simpl; lia| |done]. intros p Hp Hp1.
      by pose proof (last_filter_None _ _ _ El Hp). }
  clearbody hull. destruct hull as [start' stop']. simpl in Hinv.
  destruct (absorb_all_spec _ _ _ _ Hinv) as [(Hwf' & Hok & Hlow & Hset) Hhigh].
  destruct (absorb_all start' stop' (gaps g)) as [stop'' l'']. simpl in *.
  assert (Hclear : forall p, p ∈ l'' -> p.2 < start' \/ stop'' < p.1).
  { intros p Hp. destruct (decide (p.1 < start')); [left; eauto|right; apply Hhigh; [done|lia]]. }
  split; [by apply (insert_wf start' stop'' (Handler l''))|].
  intros q. etransitivity; [|exact (Hset q)]. unfold missing, covers. simpl. setoid_rewrite insert_in. split.
  - intros (p & [->|[Hp _]] & Hc); [right; done|left; eauto].
  - intros [(p & Hp & Hc)|Hq]; [|exists (start', stop''); auto].
    exists p. split; [|done]. right. split; [done|].
    destruct (Hclear p Hp); destruct Hok as [Hok _]; simpl in Hok; lia.
Qed.

(** *** Clearing *)

(** Putting back one side of a split range. *)
Definition insert_side (k v : Z) (l : list (Z * Z)) : list (Z * Z) :=
  if k <? v then BTree.insert k v l else l.

Lemma insert_side_spec k v l :
  wf (Handler l) -> 0 <= k -> v < W64 -> (k < v -> forall p, p ∈ l -> p.2 < k \/ v < p.1) ->
  wf (Handler (insert_side k v l)) /\ forall p, p ∈ insert_side k v l <-> (p = (k, v) /\ k < v) \/ p ∈ l.
Proof.
  intros Hwf Hk Hv Hap. unfold insert_side. destruct (k <? v) eqn:E; bool_facts.
  - specialize (Hap E). split; [by apply (insert_wf k v (Handler l))|]. intros p. rewrite insert_in. split.
    + intros [->|[Hp _]]; [by left|by right].
    + intros [[-> _]|Hp]; [by left|right]. split; [done|].
      pose proof (wf_entry _ _ Hwf Hp) as [? _]. destruct (Hap p Hp); lia.
  - split; [done|]. intros p. split; [auto|]. intros [[_ ?]|?]; [lia|done].
Qed.

(** The entry [last_upto] finds is the only one that can hold [seq]. *)
Lemma last_upto_only l s e seq :
  wf (Handler l) -> BTree.last_upto seq l = Some (s, e) ->
  (s, e) ∈ l /\ s <= seq /\ entry_ok (s, e) /\
  forall p, p ∈ l -> p = (s, e) \/ p.2 < s \/ (e < p.1 /\ seq < p.1).
Proof.
  intros Hwf El. destruct (last_filter_Some _ _ _ El) as [Hin Hle]. simpl in Hle.
  split_and!; [done|done|by apply (wf_entry _ _ Hwf)|]. intros p Hp.
  destruct (sorted_apart l p (s, e) (proj1 Hwf) Hp Hin) as [?|[Hb|Hb]]; [by left|right; by left|right; right].
  unfold before in Hb. simpl in Hb. split; [done|]. destruct (decide (p.1 <= seq)); [|lia].
  pose proof (wf_entry _ _ Hwf Hp) as [? _]. pose proof (wf_entry _ _ Hwf Hin) as [? _].
  destruct (sorted_last before _ _ p (sorted_filter _ (fun q => q.1 <= seq) _ (proj1 Hwf)) El) as [->|Hb'];
    [by apply list_elem_of_filter|..]; unfold before in *; simpl in *; lia.
Qed.

(** [mark_received] removes exactly [seq] and keeps the invariant. *)
Lemma mark_received_spec g seq :
  wf g -> u64 seq ->
  wf (mark_received g seq) /\
  forall q, missing (mark_received g seq) q <-> missing g q /\ q <> seq.
Proof.
  intros Hwf Hu. unfold mark_received. destruct g as [l]. simpl.
  destruct (BTree.last_upto seq l) as [[s e]|] eqn:El.
  2:{ split; [done|]. intros q. split; [|tauto]. intros Hm. split; [done|]. intros ->.
      destruct Hm as (p & Hp & Hc). unfold covers in Hc. simpl in Hp.
      pose proof (last_filter_None _ _ p El Hp) as Hn. simpl in Hn. lia. }
  destruct (last_upto_only _ _ _ _ Hwf El) as (Hin & Hle & [Hse He] & Honly). simpl in Hse, He.
  destruct (seq >=? e) eqn:Ege; bool_facts.
  { split; [done|]. intros q. split; [|tauto]. intros (p & Hp & Hc). split; [by exists p|].
    intros ->. unfold covers in Hc. destruct (Honly p Hp) as [->|[?|?]]; simpl in *; lia. }
  assert (Hadd : u64_add seq 1 = seq + 1) by (unfold u64_add; apply Z.mod_small; unfold u64 in *; lia).
  rewrite Hadd.
  assert (Hother : forall p, p ∈ BTree.remove s l -> p.2 < s \/ e < p.1).
  { intros p [Hp Hne]%remove_in. destruct (Honly p Hp) as [->|[?|[? _]]]; [done|by left|by right]. }
  destruct (insert_side_spec s seq (BTree.remove s l) (remove_wf s (Handler l) Hwf)) as [Hw1 Hin1];
    [lia|lia|intros ? p Hp; destruct (Hother p Hp); lia|].
  destruct (insert_side_spec (seq + 1) e _ Hw1) as [Hw2 Hin2]; [lia|lia| |].
  { intros ? p [[-> ?]|Hp]%Hin1; simpl; [lia|]. destruct (Hother p Hp); lia. }
  split; [done|]. intros q. unfold missing, covers. simpl. split.
  - intros (p & [[-> ?]|[[-> ?]|Hp]%Hin1]%Hin2 & Hc); simpl in Hc.
    + split; [exists (s, e); split; [done|simpl; lia]|lia].
    + split; [exists (s, e); split; [done|simpl; lia]|lia].
    + pose proof Hp as [Hpl _]%remove_in. split; [by exists p|]. destruct (Hother p Hp); lia.
  - intros ((p & Hp & Hc) & Hne). destruct (Honly p Hp) as [->|Hap]; simpl in Hc.
    + destruct (decide (q < seq)).
      * exists (s, seq). split; [apply Hin2; right; apply Hin1; left; split; [done|lia]|simpl; lia].
      * exists (seq + 1, e). split; [apply Hin2; left; split; [done|lia]|simpl; lia].
    + exists p. split; [|done]. apply Hin2. right. apply Hin1. right. apply remove_in. split; [done|lia].
Qed.

(** *** Chunking *)

Lemma chunks_spec fuel cur stop :
  0 <= cur -> stop < W64 -> (Z.to_nat ((stop - cur) / U16_MAX + 1) < fuel)%nat \/ stop <= cur ->
  Forall (fun c => 1 <= count c <= U16_MAX /\ cur <= start_seq c) (chunks fuel cur stop) /\
  forall q, cur <= q < stop <-> exists c, c ∈ chunks fuel cur stop /\ start_seq c <= q < start_seq c + count c.
Proof.
  revert cur. induction fuel as [|fuel IH]; intros cur H0 Hs Hf.
  { simpl. split; [done|]. intros q. split; [|intros (c & Hc & _); by apply not_elem_of_nil in Hc]. lia. }
  cbn [chunks]. destruct (cur <? stop) eqn:Elt; bool_facts.
  2:{ split; [done|]. intros q. split; [lia|]. intros (c & Hc & _). by apply not_elem_of_nil in Hc. }
  destruct Hf as [Hf|Hf]; [|lia].
  set (n := default U16_MAX (try_u16 (stop - cur))).
  assert (Hn : n = Z.min U16_MAX (stop - cur)) by (unfold n, try_u16; destruct (_ <=? _) eqn:E; simpl; bool_facts; lia).
  destruct (IH (cur + n) ltac:(lia) Hs) as [Hall Hcov].
  { destruct (decide (stop - cur <= U16_MAX)); [right; lia|left].
    replace (stop - (cur + n)) with ((stop - cur) + (-1) * U16_MAX) by lia.
    rewrite Z.div_add by lia. pose proof (Z.div_pos (stop - cur) U16_MAX ltac:(lia) ltac:(lia)). lia. }
  split.
  - constructor; [simpl; lia|]. eapply Forall_impl; [exact Hall|]. simpl. lia.
  - intros q. split.
    + intros Hq. destruct (decide (q < cur + n)).
      * eexists. split; [by left|]. simpl. lia.
      * destruct (proj1 (Hcov q) ltac:(lia)) as (c & Hc & ?). exists c. split; [by right|done].
    + intros (c & [->|Hc]%elem_of_cons & Hq); [simpl in Hq; lia|].
      assert (cur + n <= q < stop) by (apply Hcov; eauto). lia.
Qed.

(** The re-request list covers exactly the missing set, in [u16]-sized chunks. *)
Lemma pending_gaps_spec g :
  wf g ->
  Forall (fun c => 1 <= count c <= U16_MAX) (pending_gaps g) /\
  forall q, missing g q <-> exists c, c ∈ pending_gaps g /\ start_seq c <= q < start_seq c + count c.
Proof.
  intros [_ Hok]. unfold pending_gaps, missing. induction Hok as [|p l Hp Hl IH].
  { simpl. split; [done|]. intros q. split; intros (c & Hc & _); by apply not_elem_of_nil in Hc. }
  cbn [fmap list_fmap concat]. destruct IH as [IH1 IH2].
  destruct (chunks_spec (chunk_fuel p.1 p.2) p.1 p.2) as [H1 H2]; [lia|lia|left; unfold chunk_fuel; lia|].
  split.
  - apply Forall_app. split; [|done]. eapply Forall_impl; [exact H1|]. simpl. lia.
  - intros q. setoid_rewrite elem_of_app. setoid_rewrite elem_of_cons. specialize (H2 q). specialize (IH2 q).
    unfold covers in *. split.
    + intros (p' & [->|Hp'] & Hc).
      * apply H2 in Hc as (c & ? & ?). eauto.
      * destruct (proj1 IH2) as (c & ? & ?); eauto.
    + intros (c & [Hc|Hc] & Hq).
      * exists p. split; [by left|]. apply H2. eauto.
      * destruct (proj2 IH2) as (p' & ? & ?); eauto.
Qed.

End GapRequestHandler.

(** ** [GapRequestEmitter] *)

Module GapRequestEmitter.

(** [requested] holds [(start, stop, sent at)]. *)
Record t := Emitter {
  server_addr : SocketAddr;
  requested : list (Z * Z * Z);
  max_per_gap_per_sec : Z;
}.

Definition new (server_addr : SocketAddr) (max_per_gap_per_sec : Z) : t :=
  Emitter server_addr [] (Z.max max_per_gap_per_sec 1).

(** [Duration::from_secs(1) / max_per_gap_per_sec]. *)
Definition interval (em : t) : Z := NANOS_PER_SEC / max_per_gap_per_sec em.

(** [Request Packet]: session, sequence, requested message count. *)
Definition encode_request_packet (session : list byte) (start_seq count : Z) : list byte :=
  session ++ to_be_bytes 8 start_seq ++ to_be_bytes 2 count.

(** The [retain] of [mark_requested], widening [start] and [stop] as it walks. *)
Fixpoint mark_retain (start stop : Z) (l : list (Z * Z * Z)) : Z * Z * list (Z * Z * Z) :=
  match l with
  | [] => (start, stop, [])
  | (s, e, at_) :: l =>
      if (s >? stop) || (start >? e) then
        let '(start', stop', l') := mark_retain start stop l in (start', stop', (s, e, at_) :: l')
      else mark_retain (Z.min start s) (Z.max stop e) l
  end.

Definition mark_requested (em : t) (start stop now : Z) : t :=
  let '(start, stop, kept) := mark_retain start stop (requested em) in
  Emitter (server_addr em) (kept ++ [(start, stop, now)]) (max_per_gap_per_sec em).

Definition covered (em : t) (start stop : Z) : bool :=
  existsb (fun '(s, e, _) => (s <=? start) && (stop <=? e)) (requested em).

Section emit.
Context {Q : Type} `{DatagramSend Q}.

(** The [for gap in gaps] loop of [emit]. *)
Fixpoint emit_loop (em : t) (sock : Q) (session : list byte) (now : Z)
    (gaps : list GapRequest) (sent : Z) : res MoldUdpError Z * t * Q :=
  match gaps with
  | [] => (Ok sent, em, sock)
  | gap :: gaps =>
      let stop := u64_add (start_seq gap) (count gap) in
      if covered em (start_seq gap) stop then emit_loop em sock session now gaps sent
      else
        let packet := encode_request_packet session (start_seq gap) (count gap) in
        let '(result, sock) := send_to sock packet (server_addr em) in
        let marked := mark_requested em (start_seq gap) stop now in
        match result with
        | Err (Io stage error) =>
            if is_would_block error then (Ok sent, em, sock)
            else (Err (Transport_ (Io stage error)), marked, sock)
        | Err e => (Err (Transport_ e), marked, sock)
        | Panic => (Panic, marked, sock)
        | Ok _ => emit_loop marked sock session now gaps (sent + 1)
        end
  end.

Definition prune (em : t) (now : Z) : t :=
  Emitter (server_addr em)
    (filter (fun p => duration_since now p.2 < interval em) (requested em))
    (max_per_gap_per_sec em).

Definition emit (em : t) (gaps : list GapRequest) (session : list byte) (sock : Q) (now : Z)
    : res MoldUdpError Z * t * Q :=
  emit_loop (prune em now) sock session now gaps 0.

End emit.

(** ** Invariant: remembered ranges are disjoint and non-adjacent *)

Definition apart (p q : Z * Z * Z) : Prop := p.1.2 < q.1.1 \/ q.1.2 < p.1.1.

Definition wf (em : t) : Prop :=
  ForallOrdPairs apart (requested em) /\ Forall (fun p => p.1.1 <= p.1.2) (requested em).

(** [lo, hi) lies in one remembered range, sent no earlier than [since]. *)
Definition recent (em : t) (lo hi since : Z) : Prop :=
  exists s e at_, (s, e, at_) ∈ requested em /\ s <= lo /\ hi <= e /\ since <= at_.

Lemma mark_retain_hull start stop l a b l' :
  mark_retain start stop l = (a, b, l') -> a <= start /\ stop <= b.
Proof.
  revert start stop l'. induction l as [|[[s e] at_] l IH]; intros start stop l' E; simpl in E; [simplify_eq; lia|].
  destruct ((s >? stop) || (start >? e)).
  - destruct (mark_retain start stop l) as [[a' b'] k] eqn:Er. simplify_eq. eauto.
  - apply IH in E. lia.
Qed.

Lemma mark_retain_in start stop l a b l' p :
  mark_retain start stop l = (a, b, l') -> p ∈ l ->
  p ∈ l' \/ (a <= p.1.1 /\ p.1.2 <= b).
Proof.
  revert start stop l'. induction l as [|[[s e] at_] l IH]; intros start stop l' E Hp; simpl in E;
    [by apply not_elem_of_nil in Hp|].
  destruct ((s >? stop) || (start >? e)).
  - destruct (mark_retain start stop l) as [[a' b'] k] eqn:Er. simplify_eq.
    apply elem_of_cons in Hp as [->|Hp]; [left; by left|].
    destruct (IH _ _ _ Er Hp) as [?|?]; [left; by right|by right].
  - apply elem_of_cons in Hp as [->|Hp]; [|eauto]. right. apply mark_retain_hull in E. simpl. lia.
Qed.

Lemma mark_retain_sub start stop l a b l' p :
  mark_retain start stop l = (a, b, l') -> p ∈ l' -> p ∈ l.
Proof.
  revert start stop l'. induction l as [|[[s e] at_] l IH]; intros start stop l' E Hp; simpl in E; [by simplify_eq|].
  destruct ((s >? stop) || (start >? e)); [|right; eauto].
  destruct (mark_retain start stop l) as [[a' b'] k] eqn:Er. simplify_eq.
  apply elem_of_cons in Hp as [->|Hp]; [by left|right; eauto].
Qed.

(** A range clear of the new range and of every remembered one stays clear of the
    hull the absorption builds: one pass is enough. *)
Lemma mark_retain_clear start stop l a b l' p :
  mark_retain start stop l = (a, b, l') -> start <= stop -> p.1.1 <= p.1.2 ->
  Forall (fun q => q.1.1 <= q.1.2 /\ apart p q) l ->
  p.1.2 < start \/ stop < p.1.1 -> p.1.2 < a \/ b < p.1.1.
Proof.
  intros E Hss Hp Hall. revert start stop l' E Hss. unfold apart in Hall.
  induction l as [|[[s e] at_] l IH]; intros start stop l' E Hss Hc; simpl in E; [by simplify_eq|].
  apply Forall_cons in Hall as [Hq Hall]. simpl in Hq. specialize (IH Hall).
  destruct ((s >? stop) || (start >? e)) eqn:Et.
  - destruct (mark_retain start stop l) as [[a' b'] k] eqn:Er. simplify_eq. eauto.
  - apply orb_false_iff in Et as [Et1 Et2]. bool_facts. eapply IH; [exact E|lia|lia].
Qed.

Lemma mark_retain_apart start stop l a b l' :
  mark_retain start stop l = (a, b, l') -> start <= stop ->
  ForallOrdPairs apart l -> Forall (fun p => p.1.1 <= p.1.2) l ->
  ForallOrdPairs apart l' /\ Forall (fun p => p.1.2 < a \/ b < p.1.1) l'.
Proof.
  revert start stop l'. induction l as [|[[s e] at_] l IH]; intros start stop l' E Hss Hap Hok; simpl in E;
    [simplify_eq; split; constructor|].
  inversion_clear Hap as [|? ? Ha Hap']. inversion_clear Hok as [|? ? Ho Hok'].
  destruct ((s >? stop) || (start >? e)) eqn:Et; [|eapply IH; eauto; lia].
  destruct (mark_retain start stop l) as [[a' b'] k] eqn:Er. simplify_eq.
  destruct (IH _ _ _ Er Hss Hap' Hok') as [IH1 IH2]. rewrite Forall_forall in Ha, Hok'. split.
  - constructor; [|done]. apply Forall_forall. intros p Hp. apply Ha. by eapply mark_retain_sub.
  - constructor; [|done]. eapply mark_retain_clear; [exact Er|done|done| |].
    + apply Forall_forall. auto.
    + simpl. apply orb_true_iff in Et as [Et|Et]; bool_facts; lia.
Qed.

Lemma ord_pairs_snoc {A} (R : A -> A -> Prop) l x :
  ForallOrdPairs R l -> Forall (fun y => R y x) l -> ForallOrdPairs R (l ++ [x]).
Proof.
  induction 1 as [|a l Ha Hl IH]; intros Hx; [repeat constructor|].
  inversion_clear Hx. simpl. constructor; [|auto]. apply Forall_app. by repeat constructor.
Qed.

Lemma mark_requested_wf em start stop now :
  wf em -> start <= stop -> wf (mark_requested em start stop now).
Proof.
  intros [Hap Hok] Hss. unfold mark_requested, wf.
  destruct (mark_retain start stop (requested em)) as [[a b] k] eqn:E. simpl.
  destruct (mark_retain_apart _ _ _ _ _ _ E Hss Hap Hok) as [H1 H2]. split.
  - apply ord_pairs_snoc; [done|]. eapply Forall_impl; [exact H2|]. unfold apart. simpl. lia.
  - apply Forall_app. split; [|repeat constructor; simpl; apply mark_retain_hull in E; lia].
    rewrite Forall_forall in Hok |- *. intros p Hp. apply Hok. by eapply mark_retain_sub.
Qed.

Lemma mark_requested_recent_self em start stop now :
  recent (mark_requested em start stop now) start stop now.
Proof.
  unfold mark_requested, recent. destruct (mark_retain _ _ _) as [[a b] k] eqn:E.
  apply mark_retain_hull in E. exists a, b, now. simpl. split_and!; [|lia..].
  apply elem_of_app. right. by left.
Qed.

Lemma mark_requested_recent em start stop now lo hi t :
  recent em lo hi t -> t <= now -> recent (mark_requested em start stop now) lo hi t.
Proof.
  intros (s & e & at_ & Hin & ? & ? & ?) Hnow. unfold mark_requested, recent.
  destruct (mark_retain _ _ _) as [[a b] k] eqn:E. simpl.
  destruct (mark_retain_in _ _ _ _ _ _ _ E Hin) as [Hk|Hk]; simpl in *.
  - exists s, e, at_. split_and!; [|lia..]. apply elem_of_app. by left.
  - exists a, b, now. split_and!; [|lia..]. apply elem_of_app. right. by left.
Qed.

Lemma mark_requested_fields em start stop now :
  server_addr (mark_requested em start stop now) = server_addr em /\
  max_per_gap_per_sec (mark_requested em start stop now) = max_per_gap_per_sec em.
Proof. unfold mark_requested. by destruct (mark_retain _ _ _) as [[a b] k]. Qed.

Lemma recent_covered em lo hi t start stop :
  recent em lo hi t -> lo <= start -> stop <= hi -> covered em start stop = true.
Proof.
  intros (s & e & at_ & Hin & ? & ? & ?) ? ?. unfold covered. apply existsb_exists.
  exists (s, e, at_). split; [by apply list_elem_of_In|]. apply andb_true_iff. split; apply Z.leb_le; lia.
Qed.

Lemma prune_recent em now lo hi t :
  recent em lo hi t -> t <= now -> now - t < interval em -> recent (prune em now) lo hi t.
Proof.
  intros (s & e & at_ & Hin & ? & ? & ?) Hn Hi. exists s, e, at_. split_and!; [|done..].
  apply list_elem_of_filter. split; [|done]. simpl. unfold duration_since. lia.
Qed.

Lemma prune_wf em now : wf em -> wf (prune em now).
Proof.
  intros [Hap Hok]. unfold wf, prune. simpl. split.
  - induction Hap as [|p l Hp Hl IH]; [constructor|]. inversion_clear Hok. rewrite filter_cons.
    case_decide; [|auto]. constructor; [|auto]. apply Forall_forall. intros q [_ Hq]%list_elem_of_filter.
    by eapply Forall_forall in Hp.
  - apply Forall_forall. intros p [_ Hp]%list_elem_of_filter. by eapply Forall_forall in Hok.
Qed.

Section emit_props.
Context {Q : Type} `{DatagramSend Q}.
Implicit Types (em : t) (sock : Q).

(** A chunk inside a range sent within the interval leaves the loop as if it
    were not in the list: nothing is sent for it. *)
Lemma emit_loop_skip em sock session now g1 g g2 sent lo hi t :
  recent em lo hi t -> t <= now -> lo <= start_seq g -> u64_add (start_seq g) (count g) <= hi ->
  emit_loop em sock session now (g1 ++ g :: g2) sent = emit_loop em sock session now (g1 ++ g2) sent.
Proof.
  intros Hr Ht Hlo Hhi. revert em sock sent Hr. induction g1 as [|x g1 IH]; intros em sock sent Hr; simpl.
  - by rewrite (recent_covered _ _ _ _ _ _ Hr Hlo Hhi).
  - destruct (covered em _ _); [auto|]. destruct (send_to _ _ _) as [[n|e|] q]; [|done..].
    apply IH. by apply mark_requested_recent.
Qed.

Lemma emit_loop_recent em sock session now gaps sent r em' sock' lo hi t :
  recent em lo hi t -> t <= now ->
  emit_loop em sock session now gaps sent = (r, em', sock') -> recent em' lo hi t.
Proof.
  intros Hr Ht. revert em sock sent Hr. induction gaps as [|g gaps IH]; intros em sock sent Hr E; simpl in E;
    [by simplify_eq|].
  destruct (covered em _ _); [eauto|]. destruct (send_to _ _ _) as [[n|e|] q].
  - eapply IH; [|exact E]. by apply mark_requested_recent.
  - destruct e as [| | |stage err| | | |]; try (simplify_eq; by apply mark_requested_recent).
    destruct (is_would_block err); simplify_eq; [done|by apply mark_requested_recent].
  - simplify_eq. by apply mark_requested_recent.
Qed.

Lemma emit_loop_wf em sock session now gaps sent r em' sock' :
  wf em -> Forall (fun g => u64 (start_seq g) /\ 0 <= count g /\ start_seq g + count g < W64) gaps ->
  emit_loop em sock session now gaps sent = (r, em', sock') -> wf em'.
Proof.
  intros Hwf Hg. revert em sock sent Hwf. induction Hg as [|g gaps (Hu & Hc & Ho) Hg IH]; intros em sock sent Hwf E;
    simpl in E; [by simplify_eq|].
  assert (Hm : wf (mark_requested em (start_seq g) (u64_add (start_seq g) (count g)) now)).
  { apply mark_requested_wf; [done|]. unfold u64_add. rewrite Z.mod_small; [lia|]. unfold u64 in *. lia. }
  destruct (covered em _ _); [eauto|]. destruct (send_to _ _ _) as [[n|e|] q]; [eauto| |by simplify_eq].
  destruct e as [| | |stage err| | | |]; try by simplify_eq. by destruct (is_would_block err); simplify_eq.
Qed.

(** With a socket that accepts every packet, every chunk ends up in a range sent
    within the interval. *)
Lemma emit_loop_all em sock session now gaps sent r em' sock' g :
  (forall q b a, exists n q', send_to q b a = (Ok n, q')) ->
  (forall p, p ∈ requested em -> now - interval em < p.2 <= now) -> 0 < interval em ->
  emit_loop em sock session now gaps sent = (r, em', sock') -> g ∈ gaps ->
  exists t, now - interval em < t <= now /\
    recent em' (start_seq g) (u64_add (start_seq g) (count g)) t.
Proof.
  intros Hsock. revert em sock sent. induction gaps as [|x gaps IH]; intros em sock sent Hreq Hi E Hg;
    [by apply not_elem_of_nil in Hg|]. simpl in E.
  set (stop := u64_add (start_seq x) (count x)) in *.
  destruct (covered em (start_seq x) stop) eqn:Ec.
  - apply elem_of_cons in Hg as [->|Hg]; [|by eapply IH].
    apply existsb_exists in Ec as ([[s e] at_] & Hin%list_elem_of_In & Hb). bool_facts.
    exists at_. split; [by apply Hreq in Hin|].
    eapply emit_loop_recent; [|by apply Hreq in Hin as [_ ?]|exact E]. exists s, e, at_. split_and!; [done|lia..].
  - destruct (Hsock sock (encode_request_packet session (start_seq x) (count x)) (server_addr em)) as (n & q & Es).
    rewrite Es in E. set (m := mark_requested em (start_seq x) stop now) in *.
    assert (Him : interval m = interval em) by (unfold interval, m; by rewrite (proj2 (mark_requested_fields em _ _ _))).
    apply elem_of_cons in Hg as [->|Hg].
    + exists now. split; [lia|]. eapply emit_loop_recent; [apply mark_requested_recent_self|done|exact E].
    + rewrite <- Him. eapply IH; [|lia|exact E|done]. rewrite Him. intros p Hp.
      unfold m, mark_requested in Hp. destruct (mark_retain _ _ _) as [[a b] k] eqn:Er. simpl in Hp.
      apply elem_of_app in Hp as [Hp|Hp%list_elem_of_singleton].
      * apply Hreq. by eapply mark_retain_sub.
      * subst. simpl. lia.
Qed.

End emit_props.
End GapRequestEmitter.

(** ** Properties *)

(** C33: [record_missing_range] adds exactly [[start, end)] to the tracked set, whatever
    ranges it touches, swallows or bridges, and the stored ranges stay sorted,
    disjoint and non-adjacent. *)
Theorem record_missing_range_exact g start stop :
  GapRequestHandler.wf g -> 0 <= start -> stop < W64 ->
  GapRequestHandler.wf (GapRequestHandler.record_missing_range g start stop) /\
  forall q, GapRequestHandler.missing (GapRequestHandler.record_missing_range g start stop) q <->
            GapRequestHandler.missing g q \/ start <= q < stop.
Proof. apply GapRequestHandler.record_missing_range_spec. Qed.

(** Built by recording, so sound by construction. *)
Lemma two_gaps_wf :
  GapRequestHandler.wf (GapRequestHandler.record_missing_range
    (GapRequestHandler.record_missing_range GapRequestHandler.new 3 5) 8 12).
Proof.
  repeat (apply GapRequestHandler.record_missing_range_spec; [|lia|lia]). split; constructor.
Qed.

Lemma record_missing_range_exact_witness :
  let g := GapRequestHandler.record_missing_range
             (GapRequestHandler.record_missing_range GapRequestHandler.new 3 5) 8 12 in
  GapRequestHandler.gaps (GapRequestHandler.record_missing_range g 5 8) = [(3, 12)] /\
  forall q, GapRequestHandler.missing (GapRequestHandler.record_missing_range g 5 8) q <->
            GapRequestHandler.missing g q \/ 5 <= q < 8.
Proof.
  split; [reflexivity|]. apply (record_missing_range_exact _ 5 8); [apply two_gaps_wf|lia|lia].
Defined.

(** [mark_received] removes exactly its sequence from the tracked set, splitting
    a range when it lies inside one. *)
Theorem mark_received_exact g seq :
  GapRequestHandler.wf g -> u64 seq ->
  GapRequestHandler.wf (GapRequestHandler.mark_received g seq) /\
  forall q, GapRequestHandler.missing (GapRequestHandler.mark_received g seq) q <->
            GapRequestHandler.missing g q /\ q <> seq.
Proof. apply GapRequestHandler.mark_received_spec. Qed.

Lemma mark_received_exact_witness :
  let g := GapRequestHandler.record_missing_range
             (GapRequestHandler.record_missing_range GapRequestHandler.new 3 5) 8 12 in
  GapRequestHandler.gaps (GapRequestHandler.mark_received g 9) = [(3, 5); (8, 9); (10, 12)] /\
  forall q, GapRequestHandler.missing (GapRequestHandler.mark_received g 9) q <->
            GapRequestHandler.missing g q /\ q <> 9.
Proof.
  split; [reflexivity|]. apply (mark_received_exact _ 9); [apply two_gaps_wf|done].
Defined.

(** The re-request list covers exactly the tracked set, and every request's
    count fits the protocol's [u16]. *)
Theorem pending_gaps_cover g :
  GapRequestHandler.wf g ->
  Forall (fun c => 1 <= count c <= U16_MAX) (GapRequestHandler.pending_gaps g) /\
  forall q, GapRequestHandler.missing g q <->
    exists c, c ∈ GapRequestHandler.pending_gaps g /\ start_seq c <= q < start_seq c + count c.
Proof. apply GapRequestHandler.pending_gaps_spec. Qed.

Lemma pending_gaps_cover_witness :
  let g := GapRequestHandler.record_missing_range GapRequestHandler.new 1 100000 in
  len (GapRequestHandler.pending_gaps g) = 2 /\
  Forall (fun c => 1 <= count c <= U16_MAX) (GapRequestHandler.pending_gaps g).
Proof.
  split; [reflexivity|]. apply pending_gaps_cover.
  apply GapRequestHandler.record_missing_range_spec; [split; constructor|lia|lia].
Defined.

Section emitter.
Context {Q : Type} `{DatagramSend Q}.
Import GapRequestEmitter.

(** Once a chunk has been requested on a socket that takes every packet, the
    emitter sends nothing for it, or for any part of it, until one interval after
    that request: [emit] behaves as if the chunk were not in its list. *)
Theorem emit_rate_limited em (sock : Q) session now gaps r em' sock' g :
  (forall q b a, exists n q', send_to q b a = (Ok n, q')) -> 0 < interval em ->
  (forall p, p ∈ requested em -> p.2 <= now) ->
  emit em gaps session sock now = (r, em', sock') -> g ∈ gaps ->
  exists sent_at, now - interval em < sent_at <= now /\
    forall now' c g1 g2, now <= now' < sent_at + interval em ->
      start_seq g <= start_seq c -> u64_add (start_seq c) (count c) <= u64_add (start_seq g) (count g) ->
      emit em' (g1 ++ c :: g2) session sock' now' = emit em' (g1 ++ g2) session sock' now'.
Proof.
  intros Hsock Hint Hpast E Hg. unfold emit in E.
  assert (Hip : interval (prune em now) = interval em) by done.
  assert (Hreq : forall p, p ∈ requested (prune em now) -> now - interval (prune em now) < p.2 <= now).
  { intros p [Hd Hp]%list_elem_of_filter. specialize (Hpast _ Hp). unfold duration_since in Hd. rewrite Hip. lia. }
  destruct (emit_loop_all _ _ _ _ _ _ _ _ _ g Hsock Hreq Hint E Hg) as (t0 & Ht & Hrec).
  exists t0. split; [done|]. intros now' c g1 g2 Hn Hlo Hhi. unfold emit.
  assert (Hi' : interval em' = interval em).
  { rewrite <- Hip. clear -E. revert E. generalize (prune em now) sock 0. induction gaps as [|x gaps IH]; intros m s k E; simpl in E; [by simplify_eq|].
    assert (Hm : interval (mark_requested m (start_seq x) (u64_add (start_seq x) (count x)) now) = interval m)
      by (unfold interval; by rewrite (proj2 (mark_requested_fields m _ _ _))).
    destruct (covered m _ _); [by eapply IH|].
    destruct (send_to _ _ _) as [[n|[| | |st er| | | |]|] q]; simplify_eq; try done; [by rewrite <- Hm; eapply IH|].
    by destruct (is_would_block er); simplify_eq. }
  eapply emit_loop_skip; [apply prune_recent; [exact Hrec|lia|rewrite Hi'; lia]|lia|done|done].
Qed.
End emitter.

(** A socket that takes everything, for the witness. *)
#[local] Instance sink_send : DatagramSend unit := fun q b _ => (Ok (len b), q).

Lemma emit_rate_limited_witness :
  let em := GapRequestEmitter.new {| ip := V4 []; port := 1 |} 4 in
  exists r em' sock', GapRequestEmitter.emit em [{| start_seq := 5; count := 3 |}] [] tt 0 = (r, em', sock') /\
  exists sent_at, 0 - GapRequestEmitter.interval em < sent_at <= 0 /\
    forall now' c g1 g2, 0 <= now' < sent_at + GapRequestEmitter.interval em ->
      5 <= start_seq c -> u64_add (start_seq c) (count c) <= u64_add 5 3 ->
      GapRequestEmitter.emit em' (g1 ++ c :: g2) [] sock' now' =
      GapRequestEmitter.emit em' (g1 ++ g2) [] sock' now'.
Proof.
  eexists _, _, _. split; [reflexivity|].
  eapply (emit_rate_limited (GapRequestEmitter.new {| ip := V4 []; port := 1 |} 4) tt [] 0
           [{| start_seq := 5; count := 3 |}] _ _ _ {| start_seq := 5; count := 3 |});
    [by intros [] b a; eexists _, _|reflexivity|by intros p Hp%not_elem_of_nil|reflexivity|].
  by left.
Defined.
