(* ===== verification/Arbiter.v ===== *)
(** * client-moldudp: A/B arbiter

    Models [crates/clients/moldudp/src/ab.rs]: the sliding bitmap window over
    [[window_base, window_base + capacity)], the pending gap candidates and the
    per-stream counters. The [HashMap] is a [gmap]; the one place its iteration
    order could show, [confirmed_gaps], sorts. The abstract view is the set of
    sequences delivered so far, related to the state by [tracks]. *)

From S2P Require Import Prelude TransportCore MoldWire.
From Stdlib Require Import ZArith Lia.
From stdpp Require Import prelude list gmap sorting.

Open Scope Z_scope.
Open Scope res_scope.

Inductive ArbiterVerdict := Forward | Duplicate | OutOfWindow.

#[export] Instance ArbiterVerdict_eq_dec : EqDecision ArbiterVerdict.
Proof. solve_decision. Defined.

Record StreamStats := {
  packets_won : Z;
  packets_lost_to_peer : Z;
  last_recv_at : option Z;
  max_seq_seen : Z;
  sequences_behind_leader : Z;
}.

Definition StreamStats_default : StreamStats :=
  {| packets_won := 0; packets_lost_to_peer := 0; last_recv_at := None;
     max_seq_seen := 0; sequences_behind_leader := 0 |}.

Module AbArbiter.

Record t := Arb {
  window_base : Z;
  window_bits : list bool;
  stream_stats : list StreamStats;
  gap_confirm_window_ms : Z;
  pending_gap_confirms : gmap Z Z;
}.

(** [AbArbiter::new]; the assertion panics on a zero window. *)
Definition new (stream_count window_capacity : nat) (gap_confirm_window_ms : Z) : res MoldUdpError t :=
  match window_capacity with
  | O => Panic
  | _ => Ok (Arb 0 (replicate window_capacity false) (replicate stream_count StreamStats_default)
               gap_confirm_window_ms ∅)
  end.

Definition capacity (a : t) : Z := len (window_bits a).

Definition idx (a : t) (seq : Z) : nat := Z.to_nat (seq mod capacity a).

Definition rebase (a : t) (base : Z) : t :=
  Arb base (replicate (length (window_bits a)) false) (stream_stats a) (gap_confirm_window_ms a) ∅.

(** [entry(seq).or_insert(now)]. *)
Definition or_insert (m : gmap Z Z) (seq now : Z) : gmap Z Z :=
  match m !! seq with Some _ => m | None => <[seq := now]> m end.

(** [self.window_bits[idx(seq)]]; in range by [wf]. *)
Definition bit (a : t) (seq : Z) : bool := default false (window_bits a !! idx a seq).

Definition in_window (a : t) (seq : Z) : bool :=
  (seq >=? window_base a) && (seq <? u64_add (window_base a) (capacity a)).

(** One round of the [for seq in start..end] loop of [note_missing_range]. *)
Definition note_one (a : t) (now : Z) (m : gmap Z Z) (seq : Z) : gmap Z Z :=
  if in_window a seq && bit a seq then m else or_insert m seq now.

Definition note_missing_range (a : t) (start end_exclusive now : Z) : t :=
  Arb (window_base a) (window_bits a) (stream_stats a) (gap_confirm_window_ms a)
    (foldl (note_one a now) (pending_gap_confirms a) (seqZ start (end_exclusive - start))).

Definition max_list (l : list Z) : Z := foldr Z.max 0 l.

(** [recompute_leader_lag]: lag of each stream behind the one that got furthest. *)
Definition recompute_leader_lag (l : list StreamStats) : list StreamStats :=
  let leader := max_list (max_seq_seen <$> l) in
  (fun s => {| packets_won := packets_won s; packets_lost_to_peer := packets_lost_to_peer s;
               last_recv_at := last_recv_at s; max_seq_seen := max_seq_seen s;
               sequences_behind_leader := saturating_sub leader (max_seq_seen s) |}) <$> l.

Definition record_delivery (l : list StreamStats) (stream_id seq now : Z) (lost_race : bool)
    : list StreamStats :=
  match l !! Z.to_nat stream_id with
  | None => l
  | Some s =>
      let s' := {| packets_won := if lost_race then packets_won s else u64_add (packets_won s) 1;
                   packets_lost_to_peer :=
                     if lost_race then u64_add (packets_lost_to_peer s) 1 else packets_lost_to_peer s;
                   last_recv_at := Some now;
                   max_seq_seen := Z.max (max_seq_seen s) seq;
                   sequences_behind_leader := sequences_behind_leader s |} in
      recompute_leader_lag (<[Z.to_nat stream_id := s']> l)
  end.

(** One round of the slide: evict the base position. *)
Definition slide_one (a : t) (now : Z) : t :=
  Arb (u64_add (window_base a) 1)
      (<[idx a (window_base a) := false]> (window_bits a))
      (stream_stats a) (gap_confirm_window_ms a)
      (if bit a (window_base a) then pending_gap_confirms a
       else or_insert (pending_gap_confirms a) (window_base a) now).

(** [while self.window_base < target_base]: one round per position. *)
Fixpoint slide (n : nat) (a : t) (now : Z) : t :=
  match n with
  | O => a
  | S n => slide n (slide_one a now) now
  end.

Definition observe (a : t) (stream_id seq now : Z) : ArbiterVerdict * t :=
  let with_stats a lost :=
    Arb (window_base a) (window_bits a) (record_delivery (stream_stats a) stream_id seq now lost)
        (gap_confirm_window_ms a) (pending_gap_confirms a) in
  if seq <? window_base a then
    match pending_gap_confirms a !! seq with
    | Some _ =>
        (Forward,
         with_stats (Arb (window_base a) (window_bits a) (stream_stats a) (gap_confirm_window_ms a)
                       (delete seq (pending_gap_confirms a))) false)
    | None => (OutOfWindow, a)
    end
  else
    let a :=
      if seq >=? u64_add (window_base a) (capacity a) then
        let target_base := u64_add (u64_sub seq (capacity a)) 1 in
        slide (Z.to_nat (target_base - window_base a)) a now
      else a in
    if bit a seq then (Duplicate, with_stats a true)
    else
      (Forward,
       with_stats (Arb (window_base a) (<[idx a seq := true]> (window_bits a)) (stream_stats a)
                     (gap_confirm_window_ms a) (delete seq (pending_gap_confirms a))) false).

Definition aged (a : t) (now : Z) (p : Z * Z) : Prop :=
  duration_since now p.2 >= gap_confirm_window_ms a * NANOS_PER_MILLI.

#[export] Instance aged_dec a now p : Decision (aged a now p).
Proof. unfold aged. apply _. Defined.

(** [confirmed_gaps]: drain the candidates whose grace period has passed, sorted. *)
Definition confirmed_gaps (a : t) (now : Z) : list Z * t :=
  let confirmed :=
    merge_sort Z.le ((filter (aged a now) (map_to_list (pending_gap_confirms a))).*1) in
  (confirmed,
   Arb (window_base a) (window_bits a) (stream_stats a) (gap_confirm_window_ms a)
     (foldl (fun m seq => delete seq m) (pending_gap_confirms a) confirmed)).

(** [ArbiterStats] and [AbArbiter::stats]. *)
Record ArbiterStats := { streams : list StreamStats }.
Definition stats (a : t) : ArbiterStats := {| streams := stream_stats a |}.

(** ** Abstract view *)

(** [D] is the set of sequences forwarded so far: inside the window the bitmap is
    exactly [D], nothing of [D] is a gap candidate, and nothing of [D] lies past
    the window. *)
Definition tracks (a : t) (D : Z -> Prop) : Prop :=
  0 < capacity a /\ u64 (window_base a) /\ window_base a + capacity a < W64 /\
  (forall s, window_base a <= s < window_base a + capacity a -> (bit a s = true <-> D s)) /\
  (forall s, D s -> pending_gap_confirms a !! s = None /\ s < window_base a + capacity a).

(** ** Lemmas *)

Lemma mod_window_inj c b s s' :
  0 < c -> b <= s < b + c -> b <= s' < b + c -> s mod c = s' mod c -> s = s'.
Proof.
  intros Hc Hs Hs' E. pose proof (Z.div_mod s c ltac:(lia)). pose proof (Z.div_mod s' c ltac:(lia)).
  assert (s / c = s' / c) by nia. congruence.
Qed.

Lemma idx_lt a s : 0 < capacity a -> (idx a s < length (window_bits a))%nat.
Proof.
  intros Hc. unfold idx. pose proof (Z.mod_pos_bound s (capacity a) Hc). unfold capacity, len in *. lia.
Qed.

Lemma idx_inj a s s' :
  0 < capacity a -> window_base a <= s < window_base a + capacity a ->
  window_base a <= s' < window_base a + capacity a -> idx a s = idx a s' -> s = s'.
Proof.
  intros Hc Hs Hs' E. unfold idx in E. eapply (mod_window_inj (capacity a) (window_base a)); eauto.
  pose proof (Z.mod_pos_bound s (capacity a) Hc). pose proof (Z.mod_pos_bound s' (capacity a) Hc). lia.
Qed.

(** Bit [s] after writing [v] at position [p] of the same window. *)
Lemma bit_write a p v s base st g pd :
  0 < capacity a ->
  bit (Arb base (<[idx a p := v]> (window_bits a)) st g pd) s =
  if decide (idx a s = idx a p) then v else bit a s.
Proof.
  intros Hc. unfold bit, idx, capacity, len. cbn [window_bits]. rewrite length_insert.
  change (Z.to_nat (s mod Z.of_nat (length (window_bits a)))) with (idx a s).
  change (Z.to_nat (p mod Z.of_nat (length (window_bits a)))) with (idx a p).
  case_decide as E.
  - rewrite E, list_lookup_insert_eq by (by apply idx_lt). done.
  - by rewrite list_lookup_insert_ne.
Qed.

Lemma lookup_or_insert m k v j :
  or_insert m k v !! j = if decide (j = k /\ m !! k = None) then Some v else m !! j.
Proof.
  unfold or_insert. destruct (m !! k) eqn:E.
  - rewrite decide_False; [done|]. intros [_ ?]; done.
  - destruct (decide (j = k)) as [->|Hne].
    + by rewrite lookup_insert_eq, decide_True.
    + rewrite lookup_insert_ne by done. rewrite decide_False; [done|]. by intros [? _].
Qed.

Lemma capacity_slide_one a now : capacity (slide_one a now) = capacity a.
Proof. unfold capacity, len, slide_one. cbn [window_bits]. by rewrite length_insert. Qed.

Lemma base_slide_one a now :
  0 <= window_base a -> window_base a + 1 < W64 -> window_base (slide_one a now) = window_base a + 1.
Proof. intros. unfold slide_one, u64_add. cbn [window_base]. rewrite Z.mod_small; lia. Qed.

(** Sliding by one keeps the window in step with [D]. *)
Lemma slide_one_tracks a D now :
  tracks a D -> window_base a + capacity a + 1 < W64 -> tracks (slide_one a now) D.
Proof.
  intros (Hc & Hu & Ho & Hbits & HD) Hroom. unfold tracks.
  rewrite capacity_slide_one, base_slide_one by (unfold u64 in *; lia).
  split_and!; [done|unfold u64 in *; lia|lia| |].
  - intros s Hs. unfold slide_one. rewrite bit_write by done. case_decide as Ei.
    + split; [done|]. intros Hd. exfalso. destruct (HD s Hd) as [_ Hlt].
      assert (s = window_base a) by (apply (idx_inj a); [done|lia|lia|done]). lia.
    + apply Hbits. split; [lia|]. destruct (decide (s = window_base a + capacity a)) as [->|]; [|lia].
      exfalso. apply Ei. unfold idx. f_equal. rewrite <- (Z.mod_add (window_base a) 1 (capacity a)) by lia.
      f_equal. lia.
  - intros s Hd. destruct (HD s Hd) as [Hp Hlt]. split; [|lia]. unfold slide_one. cbn [pending_gap_confirms].
    destruct (bit a (window_base a)) eqn:Eb; [done|]. rewrite lookup_or_insert, decide_False; [done|].
    intros [-> _]. apply (Hbits (window_base a) ltac:(lia)) in Hd. congruence.
Qed.

Lemma slide_tracks n a D now :
  tracks a D -> window_base a + capacity a + Z.of_nat n < W64 ->
  tracks (slide n a now) D /\ window_base (slide n a now) = window_base a + Z.of_nat n /\
  capacity (slide n a now) = capacity a.
Proof.
  revert a. induction n as [|n IH]; intros a Ht Hroom; simpl; [split_and!; [done|lia|done]|].
  pose proof Ht as (Hc & Hu & _).
  destruct (IH (slide_one a now)) as (H1 & H2 & H3).
  - apply slide_one_tracks; [done|lia].
  - rewrite capacity_slide_one, base_slide_one by (unfold u64 in *; lia). lia.
  - rewrite capacity_slide_one in H3. rewrite base_slide_one in H2 by (unfold u64 in *; lia).
    split_and!; [done|lia|done].
Qed.

Lemma tracks_stats a D st :
  tracks a D ->
  tracks (Arb (window_base a) (window_bits a) st (gap_confirm_window_ms a) (pending_gap_confirms a)) D.
Proof. done. Qed.

(** Inside the window: the first arrival is forwarded and recorded, later ones are
    duplicates. *)
Lemma observe_in_window a D stream_id seq now v a' :
  tracks a D -> window_base a <= seq < window_base a + capacity a ->
  observe a stream_id seq now = (v, a') ->
  (v = Forward /\ ~ D seq /\ tracks a' (fun s => s = seq \/ D s)) \/
  (v = Duplicate /\ D seq /\ tracks a' D).
Proof.
  intros Ht Hseq E. pose proof Ht as (Hc & Hu & Ho & Hbits & HD). unfold observe in E.
  rewrite (proj2 (Z.ltb_ge seq (window_base a))) in E by lia.
  assert (Hadd : u64_add (window_base a) (capacity a) = window_base a + capacity a)
    by (unfold u64_add; rewrite Z.mod_small; [done|unfold u64 in *; lia]).
  rewrite Hadd in E. destruct (seq >=? window_base a + capacity a) eqn:Ege; [zarith|].
  pose proof (Hbits seq Hseq) as Hb. destruct (bit a seq) eqn:Eb; simplify_eq.
  - right. split_and!; [done|by apply Hb|done].
  - left. assert (Hn : ~ D seq) by (intros Hd; by apply Hb in Hd). split_and!; [done|done|].
    unfold tracks. cbn [window_base window_bits stream_stats gap_confirm_window_ms pending_gap_confirms].
    assert (Hcap : forall st g pd, capacity (Arb (window_base a) (<[idx a seq:=true]> (window_bits a)) st g pd) = capacity a)
      by (intros; unfold capacity, len; cbn [window_bits]; by rewrite length_insert).
    rewrite Hcap. split_and!; [done|done|done| |].
    + intros s Hs. rewrite bit_write by done. case_decide as Ei.
      * apply (idx_inj a) in Ei; [|done..]. subst. tauto.
      * rewrite Hbits by done. split; [by right|]. intros [->|?]; [done|done].
    + intros s Hs. cbn [pending_gap_confirms]. destruct Hs as [->|Hd].
      * split; [by rewrite lookup_delete_eq|lia].
      * destruct (HD s Hd). split; [|done]. apply lookup_delete_None. by right.
Qed.

(** [observe] implements first-arrival-wins over the delivered set. *)
Lemma observe_tracks a D stream_id seq now v a' :
  tracks a D -> 0 <= seq -> seq + capacity a < W64 -> observe a stream_id seq now = (v, a') ->
  match v with
  | Forward => ~ D seq /\ tracks a' (fun s => s = seq \/ D s)
  | Duplicate => D seq /\ tracks a' D
  | OutOfWindow => seq < window_base a /\ pending_gap_confirms a !! seq = None /\ a' = a
  end.
Proof.
  intros Ht H0 Hmax E. pose proof Ht as (Hc & Hu & Ho & Hbits & HD).
  destruct (decide (seq < window_base a)) as [Hlt|Hge].
  { unfold observe in E. rewrite (proj2 (Z.ltb_lt _ _) Hlt) in E.
    destruct (pending_gap_confirms a !! seq) as [t0|] eqn:Ep; simplify_eq; [|done].
    assert (Hn : ~ D seq) by (intros Hd; apply HD in Hd as [? _]; congruence).
    split; [done|]. apply tracks_stats. unfold tracks. cbn [window_base pending_gap_confirms].
    split_and!; [done|done|done| |].
    - intros s Hs. split; [intros Hb; right; by apply (Hbits s)|].
      intros [->|Hd]; [lia|by apply (Hbits s)].
    - intros s [->|Hd]; [rewrite lookup_delete_eq; split; [done|]; unfold capacity in *; cbn [window_bits]; lia|].
      destruct (HD s Hd). split; [|done]. apply lookup_delete_None. by right. }
  destruct (decide (seq < window_base a + capacity a)) as [Hin|Hout].
  { assert (Hw : window_base a <= seq < window_base a + capacity a) by lia.
    destruct (observe_in_window _ _ _ _ _ _ _ Ht Hw E) as [(-> & ? & ?)|(-> & ? & ?)]; done. }
  set (n := Z.to_nat (seq - capacity a + 1 - window_base a)).
  destruct (slide_tracks n a D now Ht) as (Ht' & Hb' & Hc'); [lia|].
  assert (E' : observe (slide n a now) stream_id seq now = (v, a')).
  { rewrite <- E. unfold observe at 2.
    assert (Hadd : u64_add (window_base a) (capacity a) = window_base a + capacity a)
      by (unfold u64_add; rewrite Z.mod_small; [done|unfold u64 in *; lia]).
    rewrite Hadd, (proj2 (Z.ltb_ge seq (window_base a))) by lia.
    destruct (seq >=? _) eqn:Ege; [|zarith].
    replace (u64_add (u64_sub seq (capacity a)) 1) with (seq - capacity a + 1)
      by (unfold u64_add, u64_sub, u64 in *; rewrite (Z.mod_small (seq - _)) by lia; rewrite Z.mod_small; lia).
    fold n. unfold observe.
    rewrite (proj2 (Z.ltb_ge seq (window_base (slide n a now)))) by lia.
    assert (Hadd' : u64_add (window_base (slide n a now)) (capacity (slide n a now)) = seq + 1)
      by (unfold u64_add; rewrite Hb', Hc', Z.mod_small; unfold u64 in *; lia).
    rewrite Hadd'. destruct (seq >=? seq + 1) eqn:E2; [zarith|]. done. }
  assert (Hw : window_base (slide n a now) <= seq < window_base (slide n a now) + capacity (slide n a now)) by lia.
  destruct (observe_in_window _ _ _ _ _ _ _ Ht' Hw E') as [(-> & ? & ?)|(-> & ? & ?)]; done.
Qed.

Lemma lookup_note_all a now m l s :
  foldl (note_one a now) m l !! s =
  match m !! s with
  | Some t0 => Some t0
  | None => if decide (s ∈ l /\ (in_window a s && bit a s) = false) then Some now else None
  end.
Proof.
  revert m. induction l as [|x l IH]; intros m; cbn [foldl].
  { destruct (m !! s); [done|]. rewrite decide_False; [done|]. intros [Hx _]. by apply not_elem_of_nil in Hx. }
  rewrite IH. unfold note_one. destruct (in_window a x && bit a x) eqn:Ex.
  - destruct (m !! s); [done|].
    apply option_eq. intros y. repeat case_decide; try done; exfalso.
    + destruct H as [Hs Hb]. apply H0. split; [by right|done].
    + destruct H0 as [[->|Hs]%elem_of_cons Hb]; [congruence|]. auto.
  - rewrite lookup_or_insert. destruct (m !! s) eqn:Em.
    + rewrite decide_False; [done|]. intros [-> Hx]. congruence.
    + destruct (decide (s = x)) as [->|Hne].
      * rewrite decide_True by done. by rewrite decide_True by (split; [by left|done]).
      * rewrite decide_False by naive_solver. apply option_eq. intros y.
        repeat case_decide; try done; exfalso.
        -- destruct H as [Hs Hb]. apply H0. split; [by right|done].
        -- destruct H0 as [[->|Hs]%elem_of_cons Hb]; [done|]. auto.
Qed.

(** Staging a range of undelivered sequences keeps [tracks]. *)
Lemma note_missing_tracks a D start stop now :
  tracks a D -> (forall s, start <= s < stop -> ~ D s) ->
  tracks (note_missing_range a start stop now) D.
Proof.
  intros (Hc & Hu & Ho & Hbits & HD) Hnew. unfold tracks. split_and!; [done|done|done|exact Hbits|].
  intros s Hd. destruct (HD s Hd) as [Hp Hlt]. split; [|exact Hlt].
  unfold note_missing_range. cbn [pending_gap_confirms]. rewrite lookup_note_all, Hp.
  rewrite decide_False; [done|]. intros [Hs _]. apply elem_of_seqZ in Hs. apply (Hnew s); [lia|done].
Qed.

Lemma lookup_delete_all (m : gmap Z Z) l s :
  foldl (fun m seq => delete seq m) m l !! s = if decide (s ∈ l) then None else m !! s.
Proof.
  revert m. induction l as [|x l IH]; intros m; cbn [foldl].
  - rewrite decide_False; [done|]. apply not_elem_of_nil.
  - rewrite IH. destruct (decide (s = x)) as [->|Hne].
    + rewrite lookup_delete_eq, (decide_True (P := x ∈ x :: l)) by (by left). by case_decide.
    + rewrite lookup_delete_ne by done. repeat case_decide; try done; exfalso.
      * apply H0. by right.
      * apply elem_of_cons in H0 as [?|?]; done.
Qed.

(** [confirmed_gaps] takes exactly the aged candidates, in increasing order. *)
Lemma confirmed_gaps_spec a now out a' :
  confirmed_gaps a now = (out, a') ->
  StronglySorted Z.le out /\ NoDup out /\
  (forall s, s ∈ out <-> exists t0, pending_gap_confirms a !! s = Some t0 /\ aged a now (s, t0)) /\
  (forall s, pending_gap_confirms a' !! s = if decide (s ∈ out) then None else pending_gap_confirms a !! s) /\
  window_base a' = window_base a /\ window_bits a' = window_bits a.
Proof.
  intros [= <- <-]. cbn [pending_gap_confirms window_base window_bits].
  set (keys := (filter _ _).*1).
  assert (Hperm : merge_sort Z.le keys ≡ₚ keys) by apply merge_sort_Permutation.
  split_and!; try done.
  - apply StronglySorted_merge_sort; [apply _|]. intros x y. lia.
  - rewrite Hperm. unfold keys.
    eapply NoDup_fmap_fst; [|apply NoDup_filter, NoDup_map_to_list].
    intros x y1 y2 [_ H1]%list_elem_of_filter [_ H2]%list_elem_of_filter.
    apply elem_of_map_to_list in H1, H2. congruence.
  - intros s. rewrite Hperm. unfold keys. rewrite list_elem_of_fmap. split.
    + intros ([s' t0] & -> & [Ha Hin]%list_elem_of_filter). apply elem_of_map_to_list in Hin. eauto.
    + intros (t0 & Hin & Ha). exists (s, t0). split; [done|]. apply list_elem_of_filter.
      split; [done|]. by apply elem_of_map_to_list.
  - intros s. apply lookup_delete_all.
Qed.

Lemma confirmed_gaps_tracks a D now out a' :
  tracks a D -> confirmed_gaps a now = (out, a') -> tracks a' D.
Proof.
  intros (Hc & Hu & Ho & Hbits & HD) E.
  destruct (confirmed_gaps_spec _ _ _ _ E) as (_ & _ & _ & Hpd & Hb & Hw).
  unfold tracks, capacity, bit, idx in *. unfold capacity in *. rewrite Hb, Hw. split_and!; try done.
  intros s Hd. destruct (HD s Hd) as [Hp Hlt]. split; [|done]. rewrite Hpd. by case_decide.
Qed.

Lemma rebase_tracks a base :
  0 < capacity a -> 0 <= base -> base + capacity a < W64 -> tracks (rebase a base) (fun _ => False).
Proof.
  intros Hc Hb Ho. assert (Hcap : capacity (rebase a base) = capacity a)
    by (unfold capacity, len; simpl; by rewrite length_replicate).
  unfold tracks. rewrite Hcap. cbn [window_base rebase].
  split_and!; [done|unfold u64 in *; lia|done| |done].
  intros s Hs. split; [|done]. unfold bit. cbn [window_bits rebase].
  destruct (replicate _ _ !! _) eqn:E; [|done]. by apply lookup_replicate in E as [-> _].
Qed.

Lemma tracks_ext a D D' : (forall s, D s <-> D' s) -> tracks a D -> tracks a D'.
Proof.
  intros Hd (? & ? & ? & Hb & HD). split_and!; [done..| |]; intros s.
  - intros Hs. by rewrite (Hb s Hs), Hd.
  - intros Hs. by apply HD, Hd.
Qed.

(** *** The candidates *)

Definition candidate (a : t) (s : Z) : Prop := is_Some (pending_gap_confirms a !! s).

(** A new arbiter has the window asked for and no candidate. *)
Lemma new_spec n window ms a :
  new n window ms = Ok a -> capacity a = Z.of_nat window /\ forall s, ~ candidate a s.
Proof.
  unfold new. destruct window as [|w]; [done|]. intros E. injection E as <-. split.
  - unfold capacity, len. simpl. by rewrite length_replicate.
  - intros s [x Hx]. cbn in Hx. by rewrite lookup_empty in Hx.
Qed.

Lemma insert_candidate m k v s : is_Some (or_insert m k v !! s) <-> is_Some (m !! s) \/ s = k.
Proof.
  rewrite lookup_or_insert. case_decide as Hk; [destruct Hk as [-> _]; split; [by right|by eexists]|].
  split; [by left|]. intros [?| ->]; [done|]. destruct (m !! k) eqn:E; [by eexists|]. by destruct Hk.
Qed.

(** Sliding by one makes the evicted position a candidate unless it was delivered. *)
Lemma slide_one_candidates a D now s :
  tracks a D -> candidate (slide_one a now) s <-> candidate a s \/ s = window_base a /\ ~ D s.
Proof.
  intros (Hc & Hu & Ho & Hbits & HD). unfold candidate, slide_one. cbn [pending_gap_confirms].
  pose proof (Hbits (window_base a) ltac:(lia)) as Hb. destruct (bit a (window_base a)) eqn:Eb.
  - split; [by left|]. intros [?|[-> Hn]]; [done|]. by destruct Hn; apply Hb.
  - rewrite insert_candidate. split; [|tauto]. intros [?| ->]; [by left|]. right. split; [done|]. intros Hd%Hb. congruence.
Qed.

Lemma slide_candidates n a D now s :
  tracks a D -> window_base a + capacity a + Z.of_nat n < W64 ->
  candidate (slide n a now) s <-> candidate a s \/ window_base a <= s < window_base a + Z.of_nat n /\ ~ D s.
Proof.
  revert a. induction n as [|n IH]; intros a Ht Hroom; simpl.
  { split; [by left|]. intros [?|[? _]]; [done|lia]. }
  pose proof Ht as (Hc & Hu & _). assert (Hb : window_base (slide_one a now) = window_base a + 1)
    by (apply base_slide_one; unfold u64 in *; lia).
  rewrite IH; [|apply slide_one_tracks; [done|lia]|rewrite capacity_slide_one, Hb; lia].
  rewrite slide_one_candidates, Hb by done. split.
  - intros [[?|[-> ?]]|[? ?]]; [by left|right; split; [lia|done]|right; split; [lia|done]].
  - intros [?|[? ?]]; [by left; left|]. destruct (decide (s = window_base a)); [left; right; by split|right; split; [lia|done]].
Qed.

(** What [observe] does to the candidates: none but [seq] is dropped, and the positions the
    window left behind undelivered are the only new ones. *)
Record observed_candidates (a a' : t) (D : Z -> Prop) (seq : Z) : Prop := {
  oc_cap : capacity a' = capacity a;
  oc_base : window_base a <= window_base a' <= Z.max (window_base a) (seq - capacity a + 1);
  oc_new : forall s, candidate a' s -> candidate a s \/ window_base a <= s < window_base a';
  oc_kept : forall s, candidate a s -> s <> seq -> candidate a' s;
  oc_left : forall s, window_base a <= s < window_base a' -> D s \/ candidate a' s;
}.

(** The end of [observe], once the window holds [seq] or [seq] lies behind it. *)
Lemma settled_candidates a a1 a' D seq :
  capacity a' = capacity a1 -> window_base a' = window_base a1 ->
  (pending_gap_confirms a' = pending_gap_confirms a1 \/ pending_gap_confirms a' = delete seq (pending_gap_confirms a1)) ->
  (window_base a <= seq -> window_base a1 <= seq) ->
  observed_candidates a a1 D seq -> (seq < window_base a -> window_base a1 = window_base a) -> observed_candidates a a' D seq.
Proof.
  intros Hc Hb Hp Hin [O1 O2 O3 O4 O5] Hout.
  assert (Hsub : forall s, candidate a' s -> candidate a1 s).
  { intros s. unfold candidate. destruct Hp as [->| ->]; [done|]. intros [x Hx]. apply lookup_delete_Some in Hx as [_ Hx]. by eexists. }
  assert (Hkeep : forall s, candidate a1 s -> s <> seq -> candidate a' s).
  { intros s Hs Hne. unfold candidate. destruct Hp as [->| ->]; [done|]. by rewrite lookup_delete_ne. }
  split; rewrite ?Hc, ?Hb; try done.
  - intros s Hs. by apply O3, Hsub.
  - intros s Hs Hne. by apply Hkeep; [apply O4|].
  - intros s Hs. destruct (O5 s Hs) as [?|Hcs]; [by left|]. right. apply Hkeep; [done|].
    destruct (decide (window_base a <= seq)); lia.
Qed.

Lemma observed_refl a D seq : observed_candidates a a D seq.
Proof. split; try done; [lia|by left|lia]. Qed.

Lemma observed_slide n a D now seq :
  tracks a D -> window_base a + capacity a + Z.of_nat n < W64 -> window_base a + Z.of_nat n <= seq - capacity a + 1 ->
  observed_candidates a (slide n a now) D seq.
Proof.
  intros Ht Hroom Hle. destruct (slide_tracks n a D now Ht Hroom) as (Ht' & Hb & Hc).
  split; rewrite ?Hb; [done|lia|..]; intros s.
  - rewrite (slide_candidates n a D now s Ht Hroom). intros [?|[? _]]; [by left|by right].
  - rewrite (slide_candidates n a D now s Ht Hroom). by left.
  - intros Hs. rewrite (slide_candidates n a D now s Ht Hroom).
    destruct Ht as (_ & _ & _ & Hbits & HD). destruct (decide (s < window_base a + capacity a /\ bit a s = true)) as [[Hlt Hbit]|Hn].
    + left. by apply Hbits; [lia|].
    + right. right. split; [lia|]. intros Hd. destruct (HD s Hd) as [_ Hlt]. apply Hn. split; [done|]. by apply Hbits; [lia|].
Qed.

Lemma observe_candidates a D stream_id seq now v a' :
  tracks a D -> 0 <= seq -> seq + capacity a < W64 -> observe a stream_id seq now = (v, a') -> observed_candidates a a' D seq.
Proof.
  intros Ht H0 Hmax E. pose proof Ht as (Hc & Hu & Ho & _). unfold observe in E.
  destruct (seq <? window_base a) eqn:Elt; bool_facts.
  { destruct (pending_gap_confirms a !! seq) eqn:Ep; simplify_eq; [|apply observed_refl].
    apply (settled_candidates a a); [done..|by right|lia|apply observed_refl|done]. }
  assert (Hadd : u64_add (window_base a) (capacity a) = window_base a + capacity a)
    by (unfold u64_add; rewrite Z.mod_small; [done|unfold u64 in *; lia]).
  rewrite Hadd in E. set (n := Z.to_nat (seq - capacity a + 1 - window_base a)).
  assert (Ht1 : u64_add (u64_sub seq (capacity a)) 1 = seq - capacity a + 1 \/ seq < window_base a + capacity a).
  { destruct (decide (seq < window_base a + capacity a)); [by right|]. left.
    unfold u64_add, u64_sub, u64 in *. rewrite (Z.mod_small (seq - _)) by lia. rewrite Z.mod_small; lia. }
  set (a1 := if seq >=? window_base a + capacity a then _ else a) in E.
  assert (Ha1 : observed_candidates a a1 D seq /\ window_base a1 <= seq).
  { subst a1. destruct (seq >=? _) eqn:Ege; bool_facts; [|split; [apply observed_refl|lia]].
    destruct Ht1 as [->|]; [|lia]. fold n. split; [apply observed_slide; [done|lia|lia]|].
    destruct (slide_tracks n a D now Ht) as (_ & -> & _); lia. }
  destruct Ha1 as [Ha1 Hb1]. clearbody a1.
  destruct (bit a1 seq); simplify_eq; apply (settled_candidates a a1); try done; try lia; [by left|..|by right].
  unfold capacity, len. cbn [window_bits]. by rewrite length_insert.
Qed.

(** Staging a range nothing of which was delivered makes all of it candidates. *)
Lemma note_missing_candidates a D start stop now s :
  tracks a D -> (forall s, start <= s < stop -> ~ D s) ->
  candidate (note_missing_range a start stop now) s <-> candidate a s \/ start <= s < stop.
Proof.
  intros (Hc & Hu & Ho & Hbits & HD) Hnew. unfold candidate, note_missing_range. cbn [pending_gap_confirms].
  rewrite lookup_note_all. destruct (pending_gap_confirms a !! s); [split; [by left|by eexists]|].
  case_decide as Hd; rewrite elem_of_seqZ in Hd.
  - split; [right; lia|by eexists].
  - split; [by intros []|]. intros [[]|Hs]; [done|]. destruct Hd. split; [lia|]. apply not_true_iff_false. intros [Hw Hb]%andb_true_iff.
    apply (Hnew s Hs), Hbits; [|done]. unfold in_window in Hw. apply andb_true_iff in Hw as [H1 H2].
    unfold u64_add in H2. rewrite Z.mod_small in H2 by (unfold u64 in *; lia). bool_facts. lia.
Qed.

End AbArbiter.

(** ** Properties *)

(** C32: [observe] is first-arrival-wins: a sequence is forwarded only if it was never
    forwarded before and is then remembered, a duplicate is reported only for one
    that was, and a sequence behind the window that is no gap candidate changes
    nothing; for sequences a window's capacity below the top of [u64]. *)
Theorem observe_first_wins a D stream_id seq now v a' :
  AbArbiter.tracks a D -> 0 <= seq -> seq + AbArbiter.capacity a < W64 ->
  AbArbiter.observe a stream_id seq now = (v, a') ->
  match v with
  | Forward => ~ D seq /\ AbArbiter.tracks a' (fun s => s = seq \/ D s)
  | Duplicate => D seq /\ AbArbiter.tracks a' D
  | OutOfWindow =>
      seq < AbArbiter.window_base a /\ AbArbiter.pending_gap_confirms a !! seq = None /\ a' = a
  end.
Proof. apply AbArbiter.observe_tracks. Qed.

Definition demo_arbiter : AbArbiter.t :=
  AbArbiter.rebase (AbArbiter.Arb 0 (replicate 4 false) [StreamStats_default; StreamStats_default] 5 ∅) 10.

Lemma observe_first_wins_witness :
  exists a', AbArbiter.observe demo_arbiter 0 12 0 = (Forward, a') /\
    ~ False /\ AbArbiter.tracks a' (fun s => s = 12 \/ False).
Proof.
  eexists. split; [reflexivity|].
  apply (observe_first_wins demo_arbiter (fun _ => False) 0 12 0 Forward);
    [apply AbArbiter.rebase_tracks; by vm_compute|lia|by vm_compute|reflexivity].
Defined.

(** [confirmed_gaps] takes out exactly the candidates that stayed unseen for the
    confirm window, each once and in increasing order, and keeps the others. *)
Theorem confirmed_gaps_exact a now out a' :
  AbArbiter.confirmed_gaps a now = (out, a') ->
  StronglySorted Z.le out /\ NoDup out /\
  (forall s, s ∈ out <-> exists t0, AbArbiter.pending_gap_confirms a !! s = Some t0 /\ AbArbiter.aged a now (s, t0)) /\
  (forall s, AbArbiter.pending_gap_confirms a' !! s =
             if decide (s ∈ out) then None else AbArbiter.pending_gap_confirms a !! s).
Proof. intros E. by destruct (AbArbiter.confirmed_gaps_spec _ _ _ _ E) as (? & ? & ? & ? & _). Qed.

Lemma confirmed_gaps_exact_witness :
  exists a', AbArbiter.confirmed_gaps (AbArbiter.note_missing_range demo_arbiter 10 12 0) 5000000 = ([10; 11], a') /\
    StronglySorted Z.le [10; 11].
Proof.
  eexists. split; [vm_compute; reflexivity|].
  eapply (confirmed_gaps_exact (AbArbiter.note_missing_range demo_arbiter 10 12 0) 5000000). vm_compute; reflexivity.
Defined.
