(* ===== verification/Receiver.v ===== *)
(** * client-moldudp: the receiver

    Models [crates/clients/moldudp/src/receiver/{mod,construct,decode,recovery,recv}.rs]
    and [config.rs]: [MoldUdpReceiver] over a list of legs of any [DatagramRecv],
    with recovery mode [R]. Every operation is state passing; an error ([?])
    returns with the state as it was at that point. [Arc] sharing is by value: a
    shared datagram is never written, so only its bytes matter. [Instant::now] is
    a clock of successive readings. The [blocks] scratch vector is a local, since
    it is cleared before each use. *)

From S2P Require Import Prelude TransportCore MoldWire Reassembly Gap Arbiter.
From Stdlib Require Import ZArith Lia.
From stdpp Require Import prelude list strings.

Open Scope Z_scope.
Open Scope res_scope.

Import FrameBatch (frames, cap, spare).

(** ** Configuration *)

Record MoldUdpReceiverConfig := {
  cfg_max_rerequests_per_gap_per_sec : Z;
  cfg_gap_confirm_window : Z;
  cfg_start_sequence : option Z;
}.

(** [Default]: four re-requests per second, five milliseconds, first packet anchors. *)
Definition MoldUdpReceiverConfig_default : MoldUdpReceiverConfig :=
  {| cfg_max_rerequests_per_gap_per_sec := 4;
     cfg_gap_confirm_window := 5 * NANOS_PER_MILLI;
     cfg_start_sequence := None |}.

Definition RING_CAPACITY : nat := 4096.
Definition MAX_INFLIGHT_BURST : Z := 64.
Definition MIN_LEG_POOL_CAPACITY : Z := Z.of_nat RING_CAPACITY + MAX_INFLIGHT_BURST.

(** ** Items and backing *)

Inductive ReadyItem (F : Type) :=
  | Inline (sequence stream_id offset len : Z)
  | View (view : MessageView F) (sequence stream_id : Z)
  | Event (ev : MoldUdpEvent)
  | GapItem.
Arguments Inline {F}.
Arguments View {F}.
Arguments Event {F}.
Arguments GapItem {F}.

Inductive Backing (F : Type) :=
  | Owned (held : Held F)
  | Shared (arc : Held F).
Arguments Owned {F}.
Arguments Shared {F}.

(** [Backing::empty]. *)
Definition backing_empty {F} : Backing F := Owned (Copied []).

(** [Backing::share]. *)
Definition share {F} (b : Backing F) : Backing F * Held F :=
  match b with
  | Owned held => (Shared held, held)
  | Shared arc => (Shared arc, arc)
  end.

(** [Backing::bytes]. *)
Definition backing_bytes {F} `{AsRef F} (b : Backing F) : list byte :=
  match b with Owned held => as_ref held | Shared arc => as_ref arc end.

(** [MoldUdpOutcome]. *)
Inductive MoldUdpOutcome (F : Type) :=
  | OFrame (f : Frame)
  | OOwned (f : OwnedFrame F)
  | OEvent (ev : MoldUdpEvent).
Arguments OFrame {F}.
Arguments OOwned {F}.
Arguments OEvent {F}.

(** [ReceiverStats]. *)
Record ReceiverStats := {
  rs_arbiter : option AbArbiter.ArbiterStats;
  rs_pending_gaps : list GapRequest;
}.

(** ** State *)

Section receiver.
Context {T F : Type} `{DatagramRecv T F, AsRef F}.

Record Inner := Build_Inner {
  legs : list T;
  recovery_stream : Z;
  session : option (list byte);
  reassembler : SequenceReassembler.t (MessageView F);
  next_unseen : Z;
  gap_handler : GapRequestHandler.t;
  arbiter : option AbArbiter.t;
  max_rerequests_per_gap_per_sec : Z;
  ready : list (ReadyItem F);
  current : option (ReadyItem F);
  pending_datagrams : list (Z * Held F);
  backing : Backing F;
  inline_pending : Z;
  seq_anchored : bool;
  recv_batch : FrameBatch.t F;
}.

(** Field writes. *)

Definition set_legs (v : list T) (i : Inner) : Inner :=
  Build_Inner v (recovery_stream i) (session i) (reassembler i) (next_unseen i) (gap_handler i)
    (arbiter i) (max_rerequests_per_gap_per_sec i) (ready i) (current i) (pending_datagrams i)
    (backing i) (inline_pending i) (seq_anchored i) (recv_batch i).

Definition set_session (v : option (list byte)) (i : Inner) : Inner :=
  Build_Inner (legs i) (recovery_stream i) v (reassembler i) (next_unseen i) (gap_handler i)
    (arbiter i) (max_rerequests_per_gap_per_sec i) (ready i) (current i) (pending_datagrams i)
    (backing i) (inline_pending i) (seq_anchored i) (recv_batch i).

Definition set_reassembler (v : SequenceReassembler.t (MessageView F)) (i : Inner) : Inner :=
  Build_Inner (legs i) (recovery_stream i) (session i) v (next_unseen i) (gap_handler i)
    (arbiter i) (max_rerequests_per_gap_per_sec i) (ready i) (current i) (pending_datagrams i)
    (backing i) (inline_pending i) (seq_anchored i) (recv_batch i).

Definition set_next_unseen (v : Z) (i : Inner) : Inner :=
  Build_Inner (legs i) (recovery_stream i) (session i) (reassembler i) v (gap_handler i)
    (arbiter i) (max_rerequests_per_gap_per_sec i) (ready i) (current i) (pending_datagrams i)
    (backing i) (inline_pending i) (seq_anchored i) (recv_batch i).

Definition set_gap_handler (v : GapRequestHandler.t) (i : Inner) : Inner :=
  Build_Inner (legs i) (recovery_stream i) (session i) (reassembler i) (next_unseen i) v
    (arbiter i) (max_rerequests_per_gap_per_sec i) (ready i) (current i) (pending_datagrams i)
    (backing i) (inline_pending i) (seq_anchored i) (recv_batch i).

Definition set_arbiter (v : option AbArbiter.t) (i : Inner) : Inner :=
  Build_Inner (legs i) (recovery_stream i) (session i) (reassembler i) (next_unseen i)
    (gap_handler i) v (max_rerequests_per_gap_per_sec i) (ready i) (current i)
    (pending_datagrams i) (backing i) (inline_pending i) (seq_anchored i) (recv_batch i).

Definition set_ready (v : list (ReadyItem F)) (i : Inner) : Inner :=
  Build_Inner (legs i) (recovery_stream i) (session i) (reassembler i) (next_unseen i)
    (gap_handler i) (arbiter i) (max_rerequests_per_gap_per_sec i) v (current i)
    (pending_datagrams i) (backing i) (inline_pending i) (seq_anchored i) (recv_batch i).

Definition set_current (v : option (ReadyItem F)) (i : Inner) : Inner :=
  Build_Inner (legs i) (recovery_stream i) (session i) (reassembler i) (next_unseen i)
    (gap_handler i) (arbiter i) (max_rerequests_per_gap_per_sec i) (ready i) v
    (pending_datagrams i) (backing i) (inline_pending i) (seq_anchored i) (recv_batch i).

Definition set_pending_datagrams (v : list (Z * Held F)) (i : Inner) : Inner :=
  Build_Inner (legs i) (recovery_stream i) (session i) (reassembler i) (next_unseen i)
    (gap_handler i) (arbiter i) (max_rerequests_per_gap_per_sec i) (ready i) (current i) v
    (backing i) (inline_pending i) (seq_anchored i) (recv_batch i).

Definition set_backing (v : Backing F) (i : Inner) : Inner :=
  Build_Inner (legs i) (recovery_stream i) (session i) (reassembler i) (next_unseen i)
    (gap_handler i) (arbiter i) (max_rerequests_per_gap_per_sec i) (ready i) (current i)
    (pending_datagrams i) v (inline_pending i) (seq_anchored i) (recv_batch i).

Definition set_inline_pending (v : Z) (i : Inner) : Inner :=
  Build_Inner (legs i) (recovery_stream i) (session i) (reassembler i) (next_unseen i)
    (gap_handler i) (arbiter i) (max_rerequests_per_gap_per_sec i) (ready i) (current i)
    (pending_datagrams i) (backing i) v (seq_anchored i) (recv_batch i).

Definition set_seq_anchored (v : bool) (i : Inner) : Inner :=
  Build_Inner (legs i) (recovery_stream i) (session i) (reassembler i) (next_unseen i)
    (gap_handler i) (arbiter i) (max_rerequests_per_gap_per_sec i) (ready i) (current i)
    (pending_datagrams i) (backing i) (inline_pending i) v (recv_batch i).

Definition set_recv_batch (v : FrameBatch.t F) (i : Inner) : Inner :=
  Build_Inner (legs i) (recovery_stream i) (session i) (reassembler i) (next_unseen i)
    (gap_handler i) (arbiter i) (max_rerequests_per_gap_per_sec i) (ready i) (current i)
    (pending_datagrams i) (backing i) (inline_pending i) (seq_anchored i) v.

Definition push_ready (item : ReadyItem F) (i : Inner) : Inner := set_ready (ready i ++ [item]) i.

(** ** Handing items out: [retire_current], [release_inline], [yield_item], [yield_owned] *)

(** [-= 1] on a [usize]. *)
Definition release_inline (i : Inner) : Inner :=
  let i := set_inline_pending (u64_sub (inline_pending i) 1) i in
  if inline_pending i =? 0 then set_backing backing_empty i else i.

Definition retire_current (i : Inner) : Inner :=
  let item := current i in
  let i := set_current None i in
  match item with
  | Some (Inline _ _ _ _) => release_inline i
  | _ => i
  end.

Definition yield_item (item : ReadyItem F) (i : Inner) : res MoldUdpError (MoldUdpOutcome F) * Inner :=
  let i := set_current (Some item) i in
  (match item with
   | Inline sequence stream_id offset len =>
       let* payload := index_range offset (offset + len) (backing_bytes (backing i)) in
       Ok (OFrame {| payload := payload; f_sequence := sequence; f_stream_id := stream_id |})
   | View view sequence stream_id =>
       let* payload := view_as_ref view in
       Ok (OFrame {| payload := payload; f_sequence := sequence; f_stream_id := stream_id |})
   | Event ev => Ok (OEvent ev)
   | GapItem => Err GapDetected
   end, i).

Definition share_backing (i : Inner) : Held F * Inner :=
  let '(b, arc) := share (backing i) in (arc, set_backing b i).

Definition yield_owned (item : ReadyItem F) (i : Inner) : res MoldUdpError (MoldUdpOutcome F) * Inner :=
  match item with
  | Inline sequence stream_id offset len =>
      let '(arc, i) := share_backing i in
      let i := release_inline i in
      (Ok (OOwned {| view := {| view_datagram := arc; view_offset := offset; view_len := len |};
                     of_sequence := sequence; of_stream_id := stream_id |}), i)
  | View view sequence stream_id =>
      (Ok (OOwned {| view := view; of_sequence := sequence; of_stream_id := stream_id |}), i)
  | Event ev => (Ok (OEvent ev), i)
  | GapItem => (Err GapDetected, i)
  end.

(** ** [poll_legs] *)

(** The [for] over [(0..=u8::MAX).zip(&mut self.legs)]: [done] legs were polled. *)
Fixpoint poll_legs_loop (fuel : nat) (stream : Z) (done todo : list T) (landed : bool) (i : Inner)
    : option (res MoldUdpError bool * Inner) :=
  match todo with
  | [] => Some (Ok landed, set_legs done i)
  | leg :: todo =>
      if stream >? U8_MAX then Some (Ok landed, set_legs (done ++ leg :: todo) i)
      else
        match recv_burst fuel leg (recv_batch i) with
        | None => None
        | Some (Err e, leg, batch) =>
            Some (Err (Transport_ e), set_legs (done ++ leg :: todo) (set_recv_batch batch i))
        | Some (Panic, leg, batch) =>
            Some (Panic, set_legs (done ++ leg :: todo) (set_recv_batch batch i))
        | Some (Ok n, leg, batch) =>
            let i := set_recv_batch batch i in
            if n =? 0 then poll_legs_loop fuel (stream + 1) (done ++ [leg]) todo landed i
            else
              let '(fs, batch) := FrameBatch.drain (recv_batch i) in
              let i := set_recv_batch batch i in
              let i := set_pending_datagrams
                         (pending_datagrams i ++ ((fun f => (stream, HeldFrame f)) <$> fs)) i in
              poll_legs_loop fuel (stream + 1) (done ++ [leg]) todo true i
        end
  end.

Definition poll_legs (fuel : nat) (i : Inner) : option (res MoldUdpError bool * Inner) :=
  poll_legs_loop fuel 0 [] (legs i) false i.

(** ** Decoding *)

Definition note_tail_gap (next_expected : Z) (i : Inner) : Inner :=
  let expected := next_unseen i in
  if next_expected >? expected then
    let i := set_next_unseen next_expected i in
    let i := set_gap_handler
               (GapRequestHandler.record_missing_range (gap_handler i) expected next_expected) i in
    push_ready GapItem i
  else i.

(** One confirmed sequence of [drain_confirmed_gaps]. *)
Definition record_confirmed (i : Inner) (seq : Z) : Inner :=
  push_ready GapItem (set_gap_handler (GapRequestHandler.record_gap (gap_handler i) seq) i).

Definition drain_confirmed_gaps (now : Z) (i : Inner) : Inner :=
  match arbiter i with
  | None => i
  | Some arb =>
      let '(confirmed, arb) := AbArbiter.confirmed_gaps arb now in
      foldl record_confirmed (set_arbiter (Some arb) i) confirmed
  end.

Definition accept_header (header : DownstreamHeader) (i : Inner) : res MoldUdpError unit * Inner :=
  let anchor i :=
    if seq_anchored i then i
    else
      let i := set_reassembler
                 (SequenceReassembler.reset_expected (reassembler i) (sequence header)) i in
      let i := set_next_unseen (sequence header) i in
      let i := match arbiter i with
               | Some arb => set_arbiter (Some (AbArbiter.rebase arb (sequence header))) i
               | None => i
               end in
      set_seq_anchored true i in
  match session i with
  | None => (Ok tt, anchor (set_session (Some (MoldWire.session header)) i))
  | Some expected =>
      if decide (expected <> MoldWire.session header)
      then (Err (SessionMismatch expected (MoldWire.session header)), i)
      else (Ok tt, anchor i)
  end.

(** [(seq..).zip(views)]. *)
Fixpoint number (seq stream_id : Z) (views : list (MessageView F)) : list (ReadyItem F) :=
  match views with
  | [] => []
  | v :: views => View v seq stream_id :: number (u64_add seq 1) stream_id views
  end.

(** Queue the contiguous run a [DrainCursor] yields, numbered from [seq]. *)
Definition queue_drained (seq stream_id : Z) (i : Inner) : Inner :=
  let '(views, r) := SequenceReassembler.drain_ready (reassembler i) in
  set_ready (ready i ++ number seq stream_id views) (set_reassembler r i).

(** [arbiter.observe] when multi-leg, else everything is forwarded. *)
Definition arbitrate (stream_id seq : Z) (now : option Z) (i : Inner) : ArbiterVerdict * Inner :=
  match arbiter i, now with
  | Some arb, Some now =>
      let '(v, arb) := AbArbiter.observe arb stream_id seq now in (v, set_arbiter (Some arb) i)
  | _, _ => (Forward, i)
  end.

(** One block of the data loop; [held] and [inline] are its locals [backing] and [inline]. *)
Definition take_block (stream_id : Z) (now : option Z) (seq offset len : Z)
    (i : Inner) (held : Backing F) (inline : Z) : res MoldUdpError unit * Inner * Backing F * Z :=
  match arbitrate stream_id seq now i with
  | (Duplicate, i) | (OutOfWindow, i) => (Ok tt, i, held, inline)
  | (Forward, i) =>
      let i := set_gap_handler (GapRequestHandler.mark_received (gap_handler i) seq) i in
      match seq ?= SequenceReassembler.expected_next (reassembler i) with
      | Eq =>
          let i := set_reassembler (SequenceReassembler.advance_expected (reassembler i) 1) i in
          let i := push_ready (Inline seq stream_id offset len) i in
          (Ok tt, queue_drained (u64_add seq 1) stream_id i, held, inline + 1)
      | Gt =>
          let '(held, arc) := share held in
          let view := {| view_datagram := arc; view_offset := offset; view_len := len |} in
          let '(result, r) := SequenceReassembler.insert (reassembler i) seq view in
          let i := set_reassembler r i in
          match result with
          | Ok true => (Ok tt, queue_drained seq stream_id i, held, inline)
          | Ok false => (Ok tt, i, held, inline)
          | Err e => (Err e, i, held, inline)
          | Panic => (Panic, i, held, inline)
          end
      | Lt => (Ok tt, i, held, inline)
      end
  end.

Fixpoint take_blocks (stream_id : Z) (now : option Z) (blocks : list (Z * Z * Z))
    (i : Inner) (held : Backing F) (inline : Z) : res MoldUdpError unit * Inner * Backing F * Z :=
  match blocks with
  | [] => (Ok tt, i, held, inline)
  | (seq, offset, len) :: blocks =>
      match take_block stream_id now seq offset len i held inline with
      | (Ok _, i, held, inline) => take_blocks stream_id now blocks i held inline
      | out => out
      end
  end.

(** The jump past the highest sequence seen, recorded or staged once. *)
Definition note_jump (header : DownstreamHeader) (now : option Z) (i : Inner) : Inner :=
  let unseen := next_unseen i in
  let i :=
    if sequence header >? unseen then
      match arbiter i, now with
      | Some arb, Some now =>
          set_arbiter (Some (AbArbiter.note_missing_range arb unseen (sequence header) now)) i
      | _, _ =>
          push_ready GapItem
            (set_gap_handler
               (GapRequestHandler.record_missing_range (gap_handler i) unseen (sequence header)) i)
      end
    else i in
  set_next_unseen (Z.max unseen (u64_saturating_add (sequence header) (message_count header))) i.

(** The data branch once the header was accepted. *)
Definition process_data (stream_id : Z) (datagram : Held F) (header : DownstreamHeader)
    (now : option Z) (i : Inner) : res MoldUdpError unit * Inner :=
  match packet_blocks header (as_ref datagram) with
  | Err e => (Err e, i)
  | Panic => (Panic, i)
  | Ok blocks =>
      match take_blocks stream_id now blocks (note_jump header now i) (Owned datagram) 0 with
      | (Ok _, i, held, inline) =>
          (Ok tt, if inline >? 0 then set_inline_pending inline (set_backing held i) else i)
      | (out, i, _, _) => (out, i)
      end
  end.

(** [process_next_pending] on the datagram it popped. *)
Definition process_datagram (stream_id : Z) (datagram : Held F) (now : option Z) (i : Inner)
    : res MoldUdpError unit * Inner :=
  match parse_header (as_ref datagram) with
  | Err e => (Err e, i)
  | Panic => (Panic, i)
  | Ok header =>
      match accept_header header i with
      | (Ok _, i) =>
          match header_kind header with
          | KHeartbeat =>
              (Ok tt, push_ready (Event (Heartbeat (sequence header)))
                        (note_tail_gap (sequence header) i))
          | KEndOfSession =>
              (Ok tt, push_ready (Event (EndOfSession (sequence header)))
                        (note_tail_gap (sequence header) i))
          | KData => process_data stream_id datagram header now i
          end
      | out => out
      end
  end.

Definition process_next_pending (now : option Z) (i : Inner) : res MoldUdpError unit * Inner :=
  match pending_datagrams i with
  | [] => (Ok tt, i)
  | (stream_id, datagram) :: rest =>
      process_datagram stream_id datagram now (set_pending_datagrams rest i)
  end.

(** ** Recovery and [pump] *)

(** The sealed recovery interface: [send_due] logs and swallows send failures,
    [recovery_poll] hands back the datagrams' bytes. *)
Class Recovery (R : Type) := {
  send_due : R -> Clock -> list byte -> GapRequestHandler.t -> R * Clock;
  recovery_poll : nat -> R -> option (res TransportError bool * list (list byte) * R);
}.

Section pump.
Context {R : Type} `{Recovery R}.

(** One round of [pump]'s loop. *)
Definition pump_step (fuel : nat) (st : Inner * R * Clock)
    : step (Inner * R * Clock) (option (res MoldUdpError unit * Inner * R * Clock)) :=
  let '(i, rec, clk) := st in
  let decode i rec :=
    let '(now, clk) :=
      match arbiter i with
      | Some _ => let '(t, clk) := now_of clk in (Some t, clk)
      | None => (None, clk)
      end in
    match process_next_pending now i with
    | (Ok _, i) =>
        Again (match now with Some t => drain_confirmed_gaps t i | None => i end, rec, clk)
    | (out, i) => Leave (Some (out, i, rec, clk))
    end in
  match ready i with
  | _ :: _ => Leave (Some (Ok tt, i, rec, clk))
  | [] =>
      match pending_datagrams i with
      | _ :: _ => decode i rec
      | [] =>
          match poll_legs fuel i with
          | None => Leave None
          | Some (Err e, i) => Leave (Some (Err e, i, rec, clk))
          | Some (Panic, i) => Leave (Some (Panic, i, rec, clk))
          | Some (Ok landed, i) =>
              if GapRequestHandler.has_pending (gap_handler i) then
                match recovery_poll fuel rec with
                | None => Leave None
                | Some (out, copies, rec) =>
                    let i := set_pending_datagrams
                               (pending_datagrams i ++
                                ((fun bytes => (recovery_stream i, Copied bytes)) <$> copies)) i in
                    match out with
                    | Err e => Leave (Some (Err (Transport_ e), i, rec, clk))
                    | Panic => Leave (Some (Panic, i, rec, clk))
                    | Ok more =>
                        if landed || more then decode i rec
                        else Leave (Some (Ok tt, i, rec, clk))
                    end
                end
              else if landed then decode i rec
              else Leave (Some (Ok tt, i, rec, clk))
          end
      end
  end.

Definition pump (fuel : nat) (i : Inner) (rec : R) (clk : Clock)
    : option (res MoldUdpError unit * Inner * R * Clock) :=
  let '(rec, clk) :=
    if GapRequestHandler.has_pending (gap_handler i) then
      match session i with
      | Some s => send_due rec clk s (gap_handler i)
      | None => (rec, clk)
      end
    else (rec, clk) in
  default None (iterate (pump_step fuel) fuel (i, rec, clk)).

(** [MoldUdpReceiver::poll]. *)
Definition poll (fuel : nat) (i : Inner) (rec : R) (clk : Clock)
    : option (res MoldUdpError (option (MoldUdpOutcome F)) * Inner * R * Clock) :=
  match pump fuel (retire_current i) rec clk with
  | None => None
  | Some (Err e, i, rec, clk) => Some (Err e, i, rec, clk)
  | Some (Panic, i, rec, clk) => Some (Panic, i, rec, clk)
  | Some (Ok _, i, rec, clk) =>
      match ready i with
      | [] => Some (Ok None, i, rec, clk)
      | item :: rest =>
          let '(out, i) := yield_item item (set_ready rest i) in
          Some (let* o := out in Ok (Some o), i, rec, clk)
      end
  end.
End pump.

(** ** Construction *)

(** The pool check of every leg, in order. *)
Fixpoint check_pools (leg : Z) (l : list T) : res MoldUdpError unit :=
  match l with
  | [] => Ok tt
  | t :: l =>
      let capacity := ps_capacity (pool_stats t) in
      if capacity <? MIN_LEG_POOL_CAPACITY
      then Err (PoolTooSmall leg capacity MIN_LEG_POOL_CAPACITY)
      else check_pools (leg + 1) l
  end.

(** [MoldUdpReceiver::from_legs]. *)
Definition from_legs (cfg : MoldUdpReceiverConfig) (legs : list T) : res MoldUdpError Inner :=
  let count := len legs in
  let* recovery_stream :=
    ok_or (match try_u8 count with Some n => if n >? 0 then Some n else None | None => None end)
          (LegCount count) in
  let* _ := check_pools 0 legs in
  let* arb :=
    if count >? 1 then
      let window_ms := Z.min U64_MAX (cfg_gap_confirm_window cfg / NANOS_PER_MILLI) in
      let* a := AbArbiter.new (length legs) RING_CAPACITY window_ms in Ok (Some a)
    else Ok None in
  let* r := SequenceReassembler.new RING_CAPACITY in
  let '(r, arb) :=
    match cfg_start_sequence cfg with
    | Some start =>
        (SequenceReassembler.reset_expected r start,
         match arb with Some a => Some (AbArbiter.rebase a start) | None => None end)
    | None => (r, arb)
    end in
  Ok {| legs := legs;
        recovery_stream := recovery_stream;
        session := None;
        reassembler := r;
        next_unseen := SequenceReassembler.expected_next r;
        gap_handler := GapRequestHandler.new;
        arbiter := arb;
        max_rerequests_per_gap_per_sec := cfg_max_rerequests_per_gap_per_sec cfg;
        ready := [];
        current := None;
        pending_datagrams := [];
        backing := backing_empty;
        inline_pending := 0;
        seq_anchored := match cfg_start_sequence cfg with Some _ => true | None => false end;
        recv_batch := FrameBatch.with_capacity MAX_INFLIGHT_BURST |}.

(** [MoldUdpReceiver::stats]. *)
Definition receiver_stats (i : Inner) : ReceiverStats :=
  {| rs_arbiter := AbArbiter.stats <$> arbiter i;
     rs_pending_gaps := GapRequestHandler.pending_gaps (gap_handler i) |}.

End receiver.
Arguments Inner : clear implicits.
Arguments Recovery : clear implicits.

(** ** Recovery modes *)

Inductive NoRecovery_t := NoRecovery.

#[export] Instance NoRecovery_recovery : Recovery NoRecovery_t := {|
  send_due := fun r clk _ _ => (r, clk);
  recovery_poll := fun _ r => Some (Ok false, [], r);
|}.

Record Requester (Q G : Type) := {
  sock : Q;
  emitter : GapRequestEmitter.t;
  scratch : FrameBatch.t G;
}.
Arguments sock {Q G}.
Arguments emitter {Q G}.
Arguments scratch {Q G}.

Section requester.
Context {Q G : Type} `{DatagramRecv Q G, DatagramSend Q, AsRef G}.

(** [Requester::new]. *)
Definition requester_new (s : Q) (server : SocketAddr) (max_per_gap_per_sec burst : Z) : Requester Q G :=
  {| sock := s; emitter := GapRequestEmitter.new server max_per_gap_per_sec;
     scratch := FrameBatch.with_capacity burst |}.

(** [<Requester as Sealed>::send_due]; a failed send is only logged. *)
Definition requester_send_due (r : Requester Q G) (clk : Clock) (session : list byte)
    (gaps : GapRequestHandler.t) : Requester Q G * Clock :=
  let due := GapRequestHandler.pending_gaps gaps in
  let '(now, clk) := now_of clk in
  let '(_, em, s) := GapRequestEmitter.emit (emitter r) due session (sock r) now in
  ({| sock := s; emitter := em; scratch := scratch r |}, clk).

(** [<Requester as Sealed>::poll_frames]. *)
Definition requester_poll_frames (fuel : nat) (r : Requester Q G)
    : option (res TransportError bool * list (list byte) * Requester Q G) :=
  match recv_burst fuel (sock r) (scratch r) with
  | None => None
  | Some (out, s, batch) =>
      match out with
      | Ok n =>
          let '(fs, batch) := FrameBatch.drain batch in
          Some (Ok (n >? 0), as_ref <$> fs, {| sock := s; emitter := emitter r; scratch := batch |})
      | Err e => Some (Err e, [], {| sock := s; emitter := emitter r; scratch := batch |})
      | Panic => Some (Panic, [], {| sock := s; emitter := emitter r; scratch := batch |})
      end
  end.

#[export] Instance Requester_recovery : Recovery (Requester Q G) := {|
  send_due := requester_send_due;
  recovery_poll := requester_poll_frames;
|}.

(** [MoldUdpReceiver::with_requester]: the recovery half of the new receiver. *)
Definition with_requester {T F} (i : Inner T F) (s : Q) (server : SocketAddr) : Requester Q G :=
  requester_new s server (max_rerequests_per_gap_per_sec i) MAX_INFLIGHT_BURST.
End requester.
