(* ===== verification/ReceiverOrder.v ===== *)
(** * client-moldudp: the receiver delivers in order

    Whatever the legs and the requester produce, the sequences handed to the
    caller by successive [poll] calls are consecutive, for one leg and for A/B
    alike. The specification is [run e n], the [n] sequences from [e] on modulo
    the width; the invariant says that what was handed out, followed by what is
    queued in [ready], is one run that ends where the reassembler expects next. *)

From S2P Require Import Prelude TransportCore MoldWire Reassembly Gap Arbiter Receiver.
From Stdlib Require Import ZArith Lia.
From stdpp Require Import prelude list strings.

Open Scope Z_scope.
Open Scope res_scope.

(** ** Runs of sequences *)

Definition run (e : Z) (n : nat) : list Z := (fun k => (e + Z.of_nat k) mod W64) <$> seq 0 n.

Lemma run_length e n : length (run e n) = n.
Proof. unfold run. by rewrite length_fmap, length_seq. Qed.

Lemma run_0 e : run e 0 = [].
Proof. done. Qed.

Lemma run_app e n m : run e (n + m) = run e n ++ run ((e + Z.of_nat n) mod W64) m.
Proof.
  unfold run. rewrite seq_app, fmap_app. f_equal.
  rewrite <- (Nat.add_0_r (0 + n)), <- fmap_add_seq, <- list_fmap_compose.
  apply list_fmap_ext. intros _ k _. simpl. rewrite Zplus_mod_idemp_l. f_equal. lia.
Qed.

Lemma run_S e n : u64 e -> run e (S n) = e :: run (u64_add e 1) n.
Proof.
  intros He. change (S n) with (1 + n)%nat. rewrite run_app. unfold run at 1. simpl.
  rewrite Z.add_0_r, Z.mod_small by done. done.
Qed.

(** ** Sequences carried by items and outcomes *)

Definition item_seq {F} (it : ReadyItem F) : option Z :=
  match it with Inline s _ _ _ => Some s | View _ s _ => Some s | _ => None end.

Definition data_seqs {F} (l : list (ReadyItem F)) : list Z := omap item_seq l.

Definition outcome_seq {F} (o : res MoldUdpError (option (MoldUdpOutcome F))) : option Z :=
  match o with
  | Ok (Some (OFrame f)) => Some (f_sequence f)
  | Ok (Some (OOwned f)) => Some (of_sequence f)
  | _ => None
  end.

Definition frame_seqs {F} (l : list (res MoldUdpError (option (MoldUdpOutcome F)))) : list Z :=
  omap outcome_seq l.

Lemma data_seqs_app {F} (l k : list (ReadyItem F)) : data_seqs (l ++ k) = data_seqs l ++ data_seqs k.
Proof. apply omap_app. Qed.

(** Reads through the field writes of [Inner]. *)
Ltac fields :=
  cbn [legs recovery_stream Receiver.session reassembler next_unseen gap_handler arbiter
       max_rerequests_per_gap_per_sec ready current pending_datagrams backing inline_pending
       seq_anchored recv_batch set_legs set_session set_reassembler set_next_unseen
       set_gap_handler set_arbiter set_ready set_current set_pending_datagrams set_backing
       set_inline_pending set_seq_anchored set_recv_batch push_ready] in *.

Section order.
Context {T F : Type} `{DatagramRecv T F, AsRef F}.
Implicit Types i : Inner T F.

Definition expected i : Z := SequenceReassembler.expected_next (reassembler i).

(** The reassembler is sound and its cursor a [u64]. *)
Definition ring_ok i : Prop := SequenceReassembler.wf (reassembler i) /\ u64 (expected i).

(** [i'] queued the run from [expected i] to [expected i'] and touched nothing queued before. *)
Definition extends i i' : Prop :=
  ring_ok i' /\
  exists new n, ready i' = ready i ++ new /\ data_seqs new = run (expected i) n /\
    expected i' = (expected i + Z.of_nat n) mod W64.

Lemma extends_refl i i' :
  ring_ok i -> reassembler i' = reassembler i -> ready i' = ready i -> extends i i'.
Proof.
  intros [Hw He] Hr Hq. unfold extends, ring_ok, expected in *. rewrite Hr. split; [done|].
  exists [], 0%nat. rewrite Hq, app_nil_r, Z.add_0_r, Z.mod_small by done. done.
Qed.

(** Items that carry no sequence may be queued freely. *)
Lemma extends_quiet i i' l :
  ring_ok i -> reassembler i' = reassembler i -> ready i' = ready i ++ l -> data_seqs l = [] ->
  extends i i'.
Proof.
  intros [Hw He] Hr Hq Hl. unfold extends, ring_ok, expected in *. rewrite Hr. split; [done|].
  exists l, 0%nat. rewrite Hq, Hl, Z.add_0_r, Z.mod_small by done. done.
Qed.

Lemma extends_trans i1 i2 i3 : extends i1 i2 -> extends i2 i3 -> extends i1 i3.
Proof.
  intros [_ (l & n & Hq & Hl & He)] [Hr (k & m & Hq' & Hk & He')]. split; [done|].
  exists (l ++ k), (n + m)%nat. rewrite Hq', Hq, app_assoc, data_seqs_app, Hl, Hk, run_app, He', He.
  split_and!; [done|done|]. rewrite Zplus_mod_idemp_l. f_equal. lia.
Qed.

Lemma extends_ring i i' : extends i i' -> ring_ok i'.
Proof. by intros [? _]. Qed.
#[local] Hint Resolve extends_ring : polaris.

(** *** Decoding *)

Lemma number_seqs seq stream (views : list (MessageView F)) :
  u64 seq -> data_seqs (number seq stream views) = run seq (length views).
Proof.
  revert seq. induction views as [|v views IH]; intros seq Hs; [done|].
  cbn [number length]. rewrite run_S by done. unfold data_seqs. cbn [omap list_omap item_seq]. f_equal.
  apply IH. unfold u64, u64_add. apply Z.mod_pos_bound. lia.
Qed.

Lemma queue_drained_extends seq stream i :
  ring_ok i -> seq = expected i -> extends i (queue_drained seq stream i).
Proof.
  intros [Hw He] ->. unfold queue_drained.
  destruct (SequenceReassembler.drain_ready (reassembler i)) as [views r] eqn:E.
  destruct (SequenceReassembler.drain_ready_spec _ _ _ Hw He E) as (Hw' & _ & Hn & _).
  unfold extends, ring_ok, expected in *. fields. split.
  - split; [done|]. rewrite Hn. unfold u64. apply Z.mod_pos_bound. lia.
  - exists (number (SequenceReassembler.expected_next (reassembler i)) stream views), (length views).
    split_and!; [done|by apply number_seqs|done].
Qed.

Lemma arbitrate_fields stream seq now i v i' :
  arbitrate stream seq now i = (v, i') ->
  i' = match arbiter i, now with
       | Some a, Some t => set_arbiter (Some (snd (AbArbiter.observe a stream seq t))) i
       | _, _ => i
       end.
Proof. unfold arbitrate. intros E. repeat case_on; done. Qed.

Lemma arbitrate_extends stream seq now i v i' :
  ring_ok i -> arbitrate stream seq now i = (v, i') -> extends i i'.
Proof.
  intros Hr ->%arbitrate_fields. apply extends_refl; [done|by repeat case_match..].
Qed.

(** The in-order branch: the message itself, then everything it released. *)
Lemma inline_extends seq stream off n i :
  ring_ok i -> seq = expected i ->
  extends i (queue_drained (u64_add seq 1) stream
    (push_ready (Inline seq stream off n)
      (set_reassembler (SequenceReassembler.advance_expected (reassembler i) 1) i))).
Proof.
  intros [Hw He] ->. set (j := push_ready _ _).
  assert (Hj : extends i j).
  { unfold j, extends, ring_ok, expected in *. fields.
    cbn [SequenceReassembler.advance_expected SequenceReassembler.expected_next]. split.
    - split; [by apply SequenceReassembler.advance_wf|]. unfold u64, u64_add. apply Z.mod_pos_bound. lia.
    - eexists _, 1%nat. split; [done|]. split; [|done]. rewrite run_S by done. done. }
  eapply extends_trans; [exact Hj|]. apply queue_drained_extends; [by eapply extends_ring|done].
Qed.

Lemma take_block_extends stream now seq off n i held inline out i' held' inline' :
  ring_ok i -> take_block stream now seq off n i held inline = (out, i', held', inline') ->
  extends i i'.
Proof.
  intros Hr E. unfold take_block in E.
  destruct (arbitrate stream seq now i) as [v j] eqn:Ea.
  pose proof (arbitrate_extends _ _ _ _ _ _ Hr Ea) as Hij. destruct v; [|by simplify_eq..].
  set (k := set_gap_handler _ j) in E.
  assert (Hjk : extends j k) by (apply extends_refl; eauto with polaris).
  eapply extends_trans; [exact Hij|]. eapply extends_trans; [exact Hjk|].
  apply extends_ring in Hjk. clearbody k. clear Hij Ea j Hr i.
  destruct (Z.compare_spec seq (SequenceReassembler.expected_next (reassembler k))) as [Heq|Hlt|Hgt].
  - simplify_eq. by apply inline_extends.
  - simplify_eq. by apply extends_refl.
  - destruct (share held) as [h arc].
    destruct (SequenceReassembler.insert (reassembler k) seq _) as [res r] eqn:Ei.
    destruct Hjk as [Hw He]. destruct (SequenceReassembler.insert_spec _ _ _ _ _ Hw Ei) as (Hw' & _ & He' & Hres).
    assert (Hk : extends k (set_reassembler r k)).
    { unfold extends, ring_ok, expected in *. fields. rewrite He'. split; [done|].
      exists [], 0%nat. rewrite app_nil_r, Z.add_0_r, Z.mod_small by done. done. }
    destruct res as [[|]|e|]; simplify_eq; try done.
    rewrite !decide_False in Hres by lia. case_decide; [by destruct Hres|].
    destruct Hres as [Hc _]. symmetry in Hc. bool_facts. lia.
Qed.

Lemma take_blocks_extends stream now blocks i held inline out i' held' inline' :
  ring_ok i -> take_blocks stream now blocks i held inline = (out, i', held', inline') ->
  extends i i'.
Proof.
  revert i held inline. induction blocks as [|[[seq off] n] blocks IH]; intros i held inline Hr E;
    cbn [take_blocks] in E; [simplify_eq; by apply extends_refl|].
  destruct (take_block stream now seq off n i held inline) as [[[o j] h] k] eqn:Eb.
  pose proof (take_block_extends _ _ _ _ _ _ _ _ _ _ _ _ Hr Eb) as Hij.
  destruct o; simplify_eq; [|done..]. eapply extends_trans; [done|]. eapply IH; eauto with polaris.
Qed.

Lemma note_jump_extends header now i : ring_ok i -> extends i (note_jump header now i).
Proof.
  intros Hr. unfold note_jump.
  destruct (_ >? _); [|by apply extends_refl].
  destruct (arbiter i), now;
    first [by apply extends_refl | by apply (extends_quiet _ _ [GapItem])].
Qed.

Lemma note_tail_gap_extends e i : ring_ok i -> extends i (note_tail_gap e i).
Proof.
  intros Hr. unfold note_tail_gap. destruct (_ >? _); [|by apply extends_refl].
  by apply (extends_quiet _ _ [GapItem]).
Qed.

Lemma process_data_extends stream d header now i out i' :
  ring_ok i -> process_data stream d header now i = (out, i') -> extends i i'.
Proof.
  intros Hr E. unfold process_data in E. destruct (packet_blocks _ _); simplify_eq;
    [|by apply extends_refl..].
  destruct (take_blocks _ _ _ _ _ _) as [[[o j] h] k] eqn:Eb.
  pose proof (note_jump_extends header now i Hr) as Hn.
  assert (Hj : extends i j) by (eapply extends_trans; [exact Hn|]; eapply take_blocks_extends; eauto with polaris).
  destruct o; simplify_eq; [|done..]. destruct (_ >? _); [|done].
  eapply extends_trans; [exact Hj|]. apply extends_refl; eauto with polaris.
Qed.

(** Before the first packet anchors, no data item exists and none is expected. *)
Lemma accept_header_cases header i out i' :
  accept_header header i = (out, i') ->
  ready i' = ready i /\
  ((seq_anchored i = true /\ reassembler i' = reassembler i /\ seq_anchored i' = true) \/
   (seq_anchored i = false /\ seq_anchored i' = true /\ out = Ok tt /\
    reassembler i' = SequenceReassembler.reset_expected (reassembler i) (MoldWire.sequence header)) \/
   (i' = i /\ exists e, out = Err e)).
Proof.
  unfold accept_header. intros E.
  destruct (Receiver.session i) as [s|] eqn:Es.
  - case_decide; [by simplify_eq; eauto 10|]. destruct (seq_anchored i) eqn:Ea; simplify_eq; [by eauto 10|].
    fields. destruct (arbiter i); eauto 10.
  - fields. destruct (seq_anchored i) eqn:Ea; simplify_eq; fields; [by eauto 10|].
    destruct (arbiter i); fields; eauto 10.
Qed.

(** *** The whole history *)

(** [done] is the list of sequences handed out so far. *)
Definition in_order (a : option Z) (done : list Z) i : Prop :=
  ring_ok i /\
  match a with
  | None => seq_anchored i = false /\ done = [] /\ data_seqs (ready i) = []
  | Some a => seq_anchored i = true /\ exists n, done ++ data_seqs (ready i) = run a n /\
                expected i = (a + Z.of_nat n) mod W64
  end.

Lemma in_order_extends a done i i' :
  in_order (Some a) done i -> extends i i' -> seq_anchored i' = true -> in_order (Some a) done i'.
Proof.
  intros [_ (_ & n & Hn & He)] [Hr (new & m & Hq & Hd & He')] Ha. split; [done|]. split; [done|].
  exists (n + m)%nat. rewrite Hq, data_seqs_app, app_assoc, Hn, Hd, run_app, He', He. split; [done|].
  rewrite Zplus_mod_idemp_l. f_equal. lia.
Qed.

(** States equal up to fields the order does not read. *)
Lemma in_order_same a done i i' :
  in_order a done i -> reassembler i' = reassembler i -> data_seqs (ready i') = data_seqs (ready i) ->
  seq_anchored i' = seq_anchored i -> in_order a done i'.
Proof.
  unfold in_order, ring_ok, expected. intros Hi -> -> ->. exact Hi.
Qed.

Lemma take_blocks_anchored stream now blocks i held inline out i' held' inline' :
  take_blocks stream now blocks i held inline = (out, i', held', inline') ->
  seq_anchored i' = seq_anchored i /\ pending_datagrams i' = pending_datagrams i /\ legs i' = legs i.
Proof.
  revert i held inline. induction blocks as [|[[seq off] n] blocks IH]; intros i held inline E;
    cbn [take_blocks] in E; [by simplify_eq|].
  destruct (take_block stream now seq off n i held inline) as [[[o j] h] k] eqn:Eb.
  assert (Hj : seq_anchored j = seq_anchored i /\ pending_datagrams j = pending_datagrams i /\ legs j = legs i).
  { unfold take_block in Eb. destruct (arbitrate stream seq now i) as [v m] eqn:Ea.
    apply arbitrate_fields in Ea.
    assert (Hm : seq_anchored m = seq_anchored i /\ pending_datagrams m = pending_datagrams i /\ legs m = legs i)
      by (subst m; by repeat case_match).
    clear Ea. unfold queue_drained in Eb. destruct v; [|by simplify_eq..].
    destruct (seq ?= _); fields.
    - destruct (SequenceReassembler.drain_ready _). by simplify_eq.
    - by simplify_eq.
    - destruct (share held), (SequenceReassembler.insert _ _ _) as [[[|]|e|] r]; [|by simplify_eq..].
      fields. destruct (SequenceReassembler.drain_ready _). by simplify_eq. }
  destruct Hj as (<- & <- & <-). destruct o; simplify_eq; [|done..]. eauto.
Qed.

Lemma process_data_anchored stream d header now i out i' :
  process_data stream d header now i = (out, i') ->
  seq_anchored i' = seq_anchored i /\ pending_datagrams i' = pending_datagrams i /\ legs i' = legs i.
Proof.
  unfold process_data. intros E. destruct (packet_blocks _ _); simplify_eq; [|done..].
  destruct (take_blocks _ _ _ _ _ _) as [[[o j] h] k] eqn:Eb. apply take_blocks_anchored in Eb.
  assert (Hn : seq_anchored (note_jump header now i) = seq_anchored i /\
               pending_datagrams (note_jump header now i) = pending_datagrams i /\
               legs (note_jump header now i) = legs i)
    by (unfold note_jump; by repeat case_match).
  destruct Hn as (Hn1 & Hn2 & Hn3). rewrite Hn1, Hn2, Hn3 in Eb. destruct o; simplify_eq; [|done..].
  by destruct (_ >? _).
Qed.

(** Accepting a header either leaves the history alone or starts it at the header. *)
Lemma accept_header_in_order a done header i out i' :
  u64 (MoldWire.sequence header) -> in_order a done i -> accept_header header i = (out, i') ->
  exists a', in_order a' done i' /\ (forall x, a = Some x -> a' = Some x) /\
    (out = Ok tt -> seq_anchored i' = true).
Proof.
  intros Hu Hi E. destruct (accept_header_cases _ _ _ _ E) as (Hq & [(Ha & Hr & Ha')|[(Ha & Ha' & -> & Hr)|(-> & e & ->)]]).
  - exists a. split; [|done]. apply (in_order_same _ _ i); [done|done|by rewrite Hq|congruence].
  - destruct a as [a|]; [destruct Hi as [_ [? _]]; congruence|].
    destruct Hi as [[Hw _] (_ & -> & Hd)]. exists (Some (MoldWire.sequence header)). split_and!; [|done|done].
    unfold in_order, ring_ok, expected. rewrite Hr.
    split; [split; [by apply SequenceReassembler.reset_wf|done]|].
    split; [done|]. exists 0%nat. rewrite Hq, Hd. split; [done|].
    cbn [SequenceReassembler.reset_expected SequenceReassembler.expected_next].
    rewrite Z.add_0_r, Z.mod_small; done.
  - exists a. done.
Qed.

Lemma process_datagram_in_order a done stream d now i out i' :
  in_order a done i -> process_datagram stream d now i = (out, i') ->
  exists a', in_order a' done i' /\ (forall x, a = Some x -> a' = Some x).
Proof.
  intros Hi E. unfold process_datagram in E. destruct (parse_header _) as [h| |] eqn:Eh; simplify_eq; [|by exists a..].
  destruct (parse_header_range _ _ Eh) as [Hu _].
  destruct (accept_header h i) as [o j] eqn:Ea.
  destruct (accept_header_in_order _ _ _ _ _ _ Hu Hi Ea) as (a' & Hj & Haa & Hanch).
  exists a'. split; [|done]. destruct o as [[]|e|]; simplify_eq; [|done..].
  specialize (Hanch eq_refl). destruct a' as [a'|]; [|destruct Hj as [_ [? _]]; congruence].
  pose proof Hj as [Hr _]. eapply in_order_extends; [done| |].
  - destruct (header_kind h); simplify_eq.
    + eapply extends_trans; [by apply note_tail_gap_extends|].
      by apply (extends_quiet _ _ [Event (Heartbeat (MoldWire.sequence h))]); eauto using extends_ring, note_tail_gap_extends.
    + eapply extends_trans; [by apply note_tail_gap_extends|].
      by apply (extends_quiet _ _ [Event (EndOfSession (MoldWire.sequence h))]); eauto using extends_ring, note_tail_gap_extends.
    + by eapply process_data_extends.
  - destruct (header_kind h); simplify_eq.
    + fields. unfold note_tail_gap. by destruct (_ >? _).
    + fields. unfold note_tail_gap. by destruct (_ >? _).
    + apply process_data_anchored in E as [-> _]. done.
Qed.

Lemma drain_confirmed_in_order a done now i :
  in_order a done i -> in_order a done (drain_confirmed_gaps now i).
Proof.
  intros Hi. unfold drain_confirmed_gaps. destruct (arbiter i); [|done].
  destruct (AbArbiter.confirmed_gaps _ _) as [l arb].
  assert (Hj : in_order a done (set_arbiter (Some arb) i)) by (by apply (in_order_same _ _ i)).
  revert Hj. generalize (set_arbiter (Some arb) i). clear Hi.
  induction l as [|s l IH]; intros j Hj; [done|]. cbn [foldl]. apply IH.
  apply (in_order_same _ _ j); [done|done| |done]. unfold record_confirmed. fields.
  by rewrite data_seqs_app, app_nil_r.
Qed.

(** *** [pump] and [poll] *)

(** [poll_legs] only moves frames from the legs to [pending_datagrams]. *)
Lemma poll_legs_loop_same fuel stream done todo landed i out i' :
  poll_legs_loop fuel stream done todo landed i = Some (out, i') ->
  exists ls p b, i' = set_legs ls (set_pending_datagrams p (set_recv_batch b i)).
Proof.
  revert stream done landed i. induction todo as [|leg todo IH]; intros stream done landed i E;
    cbn [poll_legs_loop] in E.
  { simplify_eq. by exists done, (pending_datagrams i), (recv_batch i). }
  destruct (stream >? U8_MAX); [simplify_eq; by eexists _, (pending_datagrams i), (recv_batch i)|].
  destruct (recv_burst fuel leg (recv_batch i)) as [[[[n|e|] leg'] b]|]; simplify_eq;
    [|by eexists _, (pending_datagrams i), b..].
  destruct (n =? 0).
  - apply IH in E as (ls & p & b' & ->). by exists ls, p, b'.
  - unfold FrameBatch.drain in E. fields. apply IH in E as (ls & p & b' & ->). by exists ls, p, b'.
Qed.

Lemma poll_legs_in_order a done fuel i out i' :
  in_order a done i -> poll_legs fuel i = Some (out, i') -> in_order a done i'.
Proof.
  intros Hi (ls & p & b & ->)%poll_legs_loop_same. by apply (in_order_same _ _ i).
Qed.

Lemma process_next_in_order a done now i out i' :
  in_order a done i -> process_next_pending now i = (out, i') ->
  exists a', in_order a' done i' /\ (forall x, a = Some x -> a' = Some x).
Proof.
  intros Hi E. unfold process_next_pending in E.
  destruct (pending_datagrams i) as [|[stream d] rest]; [simplify_eq; by exists a|].
  eapply process_datagram_in_order; [|exact E]. by apply (in_order_same _ _ i).
Qed.

(** The history, with the anchor [a] kept once it is set. *)
Definition history (a : option Z) (done : list Z) i : Prop :=
  exists a', in_order a' done i /\ (forall x, a = Some x -> a' = Some x).

Lemma history_step a done i i' :
  history a done i ->
  (forall a', in_order a' done i -> exists a'', in_order a'' done i' /\ (forall x, a' = Some x -> a'' = Some x)) ->
  history a done i'.
Proof. intros (a1 & Hi & H1) Hs. destruct (Hs a1 Hi) as (a2 & Hi' & H2). exists a2. auto. Qed.
End order.

(** ** Reasoning about [pump] *)

Definition unit_of {E A} (r : res E A) : res E unit :=
  match r with Ok _ => Ok tt | Err e => Err e | Panic => Panic end.

Section pump.
Context {T F : Type} `{DatagramRecv T F, AsRef F} {R : Type} `{Recovery R}.
Implicit Types (i : Inner T F) (rec : R).

(** [P out i rec] holds where [pump] leaves with [out], and [P (Ok tt)] between
    rounds, once every part of a round keeps it. *)
Variable P : res MoldUdpError unit -> Inner T F -> R -> Prop.

Definition with_copies (copies : list (list byte)) i : Inner T F :=
  set_pending_datagrams (pending_datagrams i ++ ((fun b => (recovery_stream i, Copied b)) <$> copies)) i.

Hypothesis P_legs : forall fuel i rec out i',
  P (Ok tt) i rec -> ready i = [] -> pending_datagrams i = [] ->
  poll_legs fuel i = Some (out, i') -> P (unit_of out) i' rec.
Hypothesis P_recovery : forall fuel i rec out copies rec',
  P (Ok tt) i rec -> recovery_poll fuel rec = Some (out, copies, rec') ->
  P (unit_of (map_err Transport_ out)) (with_copies copies i) rec'.
Hypothesis P_decode : forall now i rec out i',
  P (Ok tt) i rec -> ready i = [] -> (is_Some now <-> is_Some (arbiter i)) ->
  process_next_pending now i = (out, i') -> P out i' rec.
Hypothesis P_confirm : forall now i rec, P (Ok tt) i rec -> P (Ok tt) (drain_confirmed_gaps now i) rec.
Hypothesis P_send : forall i rec clk s rec' clk',
  P (Ok tt) i rec -> send_due rec clk s (gap_handler i) = (rec', clk') -> P (Ok tt) i rec'.

(** What the decode half of a round leaves. *)
Definition decode_step (i : Inner T F) rec clk
    : step (Inner T F * R * Clock) (option (res MoldUdpError unit * Inner T F * R * Clock)) :=
  let '(now, clk) :=
    match arbiter i with
    | Some _ => let '(t, clk) := now_of clk in (Some t, clk)
    | None => (None, clk)
    end in
  match process_next_pending now i with
  | (Ok _, i) =>
      Again (match now with Some t => drain_confirmed_gaps t i | None => i end, rec, clk)
  | (out, i) => Leave (Some (out, i, rec, clk))
  end.

Definition leaves_ok (r : option (res MoldUdpError unit * Inner T F * R * Clock)) : Prop :=
  match r with Some (out, i, rec, _) => P out i rec | None => True end.

Definition step_ok (s : step (Inner T F * R * Clock) (option (res MoldUdpError unit * Inner T F * R * Clock))) : Prop :=
  match s with Again (i, rec, _) => P (Ok tt) i rec | Leave r => leaves_ok r end.

Lemma decode_step_ok i rec clk : P (Ok tt) i rec -> ready i = [] -> step_ok (decode_step i rec clk).
Proof.
  intros HP Hr. unfold decode_step.
  destruct (arbiter i) eqn:Ea; unfold now_of;
    destruct (process_next_pending _ i) as [out j] eqn:Ed;
    (eapply P_decode in Ed; [|exact HP|done|rewrite Ea; split; intros [? ?]; (done || by eexists)]);
    destruct out as [[]| |]; cbn [step_ok leaves_ok]; auto.
Qed.

Lemma pump_step_ok fuel i rec clk : P (Ok tt) i rec -> step_ok (pump_step fuel (i, rec, clk)).
Proof.
  intros HP. unfold pump_step. destruct (ready i) eqn:Er; [|done].
  destruct (pending_datagrams i) eqn:Ep; [|by apply decode_step_ok].
  destruct (poll_legs fuel i) as [[out j]|] eqn:El; [|done].
  pose proof (P_legs _ _ _ _ _ HP Er Ep El) as Hj.
  assert (Hrj : ready j = []) by (apply poll_legs_loop_same in El as (? & ? & ? & ->); done).
  destruct out as [landed| |]; [|done..].
  destruct (GapRequestHandler.has_pending _).
  - destruct (recovery_poll fuel rec) as [[[out copies] rec']|] eqn:Erec; [|done].
    pose proof (P_recovery _ _ _ _ _ _ Hj Erec) as Hk. destruct out as [more| |]; [|done..].
    destruct (landed || more); [|done]. by apply (decode_step_ok (with_copies copies j)).
  - destruct landed; [|done]. by apply decode_step_ok.
Qed.

(** [pump] keeps the invariant. *)
Lemma pump_inv fuel i rec clk out i' rec' clk' :
  P (Ok tt) i rec -> pump fuel i rec clk = Some (out, i', rec', clk') -> P out i' rec'.
Proof.
  intros HP E. unfold pump in E.
  set (s := if GapRequestHandler.has_pending _ then _ else _) in E.
  destruct s as [rec1 clk1] eqn:Es.
  assert (HP1 : P (Ok tt) i rec1).
  { subst s. destruct (GapRequestHandler.has_pending _); [|by simplify_eq].
    destruct (Receiver.session i); [|by simplify_eq]. by eapply P_send. }
  destruct (iterate _ _ _) as [r|] eqn:Eit; [|done]. simpl in E. subst r.
  change (leaves_ok (Some (out, i', rec', clk'))).
  eapply (iterate_inv (pump_step fuel) (fun '(i, rec, _) => P (Ok tt) i rec) leaves_ok); [| | |exact Eit].
  - intros [[j r] c] [[j' r'] c'] Hj Hs. pose proof (pump_step_ok fuel j r c Hj) as Hok. by rewrite Hs in Hok.
  - intros [[j r] c] o Hj Hs. pose proof (pump_step_ok fuel j r c Hj) as Hok. by rewrite Hs in Hok.
  - exact HP1.
Qed.
End pump.

(** ** Any number of polls *)

Section polls.
Context {T F : Type} `{DatagramRecv T F, AsRef F} {R : Type} `{Recovery R}.
Implicit Types (i : Inner T F) (rec : R).

(** Successive [poll] calls of one receiver, with what each returned. *)
Inductive polled : Inner T F * R * Clock -> list (res MoldUdpError (option (MoldUdpOutcome F))) ->
    Inner T F * R * Clock -> Prop :=
  | polled_nil st : polled st [] st
  | polled_snoc st outs i rec clk fuel out i' rec' clk' :
      polled st outs (i, rec, clk) -> poll fuel i rec clk = Some (out, i', rec', clk') ->
      polled st (outs ++ [out]) (i', rec', clk').

Lemma retire_in_order a done i : in_order a done i -> in_order a done (retire_current i).
Proof.
  intros Hi. apply (in_order_same _ _ i); [done|..];
    unfold retire_current, release_inline; by repeat case_match.
Qed.

Lemma pump_history a done fuel i rec clk out i' rec' clk' :
  history a done i -> pump fuel i rec clk = Some (out, i', rec', clk') -> history a done i'.
Proof.
  intros Hi E. revert E. apply (pump_inv (fun _ i _ => history a done i)); try done.
  - intros f j r o j' Hj _ _ El. eapply history_step; [exact Hj|]. intros a' Ha. exists a'. split; [|done].
    by eapply poll_legs_in_order.
  - intros now j r o j' Hj _ _ Ed. eapply history_step; [exact Hj|]. intros a' Ha. by eapply process_next_in_order.
  - intros now j r Hj. eapply history_step; [exact Hj|]. intros a' Ha. exists a'. split; [|done].
    by apply drain_confirmed_in_order.
Qed.

(** A panicking call hands out nothing and ends the program. *)
Definition handed (out : res MoldUdpError (option (MoldUdpOutcome F))) : Prop := out <> Panic.

(** Handing out an item adds its number and leaves the queue and the ring alone. *)
Definition yields (item : ReadyItem F) i (y : res MoldUdpError (MoldUdpOutcome F)) (k : Inner T F) : Prop :=
  data_seqs [item] = frame_seqs [let* o := y in Ok (Some o)] /\
  reassembler k = reassembler i /\ ready k = ready i /\ seq_anchored k = seq_anchored i.

Lemma yield_item_yields item i y k : yield_item item i = (y, k) -> y <> Panic -> yields item i y k.
Proof.
  unfold yield_item. intros E Hy. simplify_eq. split; [|done]. destruct item as [s id off n|v s id|ev|]; try done.
  - unfold index_range in *. by destruct (get_range _ _ _).
  - unfold view_as_ref, index_range in *. by destruct (get_range _ _ _).
Qed.

Lemma popped_history a done j item rest y k :
  history a done j -> ready j = item :: rest -> yields item (set_ready rest j) y k ->
  history a (done ++ frame_seqs [let* o := y in Ok (Some o)]) k.
Proof.
  intros (a' & Ha & Haa) Er (Hs & Hk1 & Hk2 & Hk3). exists a'. split; [|exact Haa]. clear Haa.
  unfold in_order, ring_ok, expected in *. rewrite Hk1, Hk2, Hk3. fields.
  rewrite Er in Ha. change (item :: rest) with ([item] ++ rest) in Ha. rewrite data_seqs_app, Hs in Ha.
  destruct a' as [a'|].
  - rewrite <- app_assoc. exact Ha.
  - destruct Ha as (Hr & Han & -> & Hd). apply app_nil in Hd as [-> ->]. done.
Qed.

Lemma retire_history a done i : history a done i -> history a done (retire_current i).
Proof. intros Hi. eapply history_step; [exact Hi|]. intros a' Ha. exists a'. split; [|done]. by apply retire_in_order. Qed.

Lemma poll_history a done fuel i rec clk out i' rec' clk' :
  history a done i -> poll fuel i rec clk = Some (out, i', rec', clk') -> handed out ->
  history a (done ++ frame_seqs [out]) i'.
Proof.
  intros Hi E Hout. unfold poll in E. apply retire_history in Hi.
  destruct (pump fuel _ rec clk) as [[[[o j] r] c]|] eqn:Ep; [|done].
  pose proof (pump_history _ _ _ _ _ _ _ _ _ _ Hi Ep) as Hj.
  destruct o as [[]|e|]; simplify_eq; [|by rewrite app_nil_r..].
  destruct (ready j) as [|item rest] eqn:Er; simplify_eq; [by rewrite app_nil_r|].
  destruct (yield_item item _) as [y k] eqn:Ey. simplify_eq. eapply popped_history; [done..|].
  apply yield_item_yields; [done|]. by intros ->.
Qed.

Lemma polled_history a done i rec clk outs i' rec' clk' :
  history a done i -> polled (i, rec, clk) outs (i', rec', clk') -> Forall handed outs ->
  history a (done ++ frame_seqs outs) i'.
Proof.
  intros Hi Hp Hf. remember (i, rec, clk) as st eqn:Est. remember (i', rec', clk') as st' eqn:Est'.
  revert i' rec' clk' Est' Hf.
  induction Hp as [|st outs j r c fuel out j' r' c' Hp IH Hpoll]; intros ? ? ? ? Hf; simplify_eq.
  - by rewrite app_nil_r.
  - apply Forall_app in Hf as [Ho [Hl _]%Forall_cons]. unfold frame_seqs. rewrite omap_app, app_assoc.
    eapply poll_history; [by eapply IH|done|done].
Qed.

(** *** The session is locked *)

Lemma process_data_session stream d header now i out i' :
  process_data stream d header now i = (out, i') ->
  Receiver.session i' = Receiver.session i /\ recv_batch i' = recv_batch i.
Proof.
  unfold process_data. intros E. destruct (packet_blocks _ _) as [blocks| |]; simplify_eq; [|done..].
  destruct (take_blocks _ _ _ _ _ _) as [[[o j] h] k] eqn:Eb.
  assert (Hj : Receiver.session j = Receiver.session (note_jump header now i) /\
               recv_batch j = recv_batch (note_jump header now i)).
  { revert Eb. generalize (note_jump header now i) (Owned d) 0. clear E.
    induction blocks as [|[[seq off] n] blocks IH]; intros m held inl Eb; cbn [take_blocks] in Eb; [by simplify_eq|].
    destruct (take_block stream now seq off n m held inl) as [[[o1 x] h1] k1] eqn:Et.
    assert (Hx : Receiver.session x = Receiver.session m /\ recv_batch x = recv_batch m).
    { unfold take_block, arbitrate, queue_drained in Et. repeat case_match; simplify_eq; done. }
    destruct Hx as [<- <-]. destruct o1; simplify_eq; [by eapply IH|done..]. }
  assert (Hn : Receiver.session (note_jump header now i) = Receiver.session i /\
               recv_batch (note_jump header now i) = recv_batch i)
    by (unfold note_jump; by repeat case_match).
  destruct Hj as [Hj1 Hj2], Hn as [<- <-]. destruct o; simplify_eq; [by destruct (_ >? _)|done..].
Qed.

Lemma process_next_session now i out i' s :
  Receiver.session i = Some s -> process_next_pending now i = (out, i') -> Receiver.session i' = Some s.
Proof.
  intros Hs E. unfold process_next_pending in E.
  destruct (pending_datagrams i) as [|[st d] rest]; [by simplify_eq|].
  unfold process_datagram in E. destruct (parse_header _) as [h| |]; simplify_eq; try done.
  destruct (accept_header h _) as [o j] eqn:Ea.
  assert (Hj : Receiver.session j = Some s).
  { unfold accept_header in Ea. fields. rewrite Hs in Ea. repeat case_match; simplify_eq; done. }
  destruct o; simplify_eq; try done. destruct (header_kind h); simplify_eq.
  - unfold note_tail_gap. by destruct (_ >? _).
  - unfold note_tail_gap. by destruct (_ >? _).
  - apply process_data_session in E as [-> _]. done.
Qed.

Lemma drain_confirmed_session now i :
  Receiver.session (drain_confirmed_gaps now i) = Receiver.session i.
Proof.
  unfold drain_confirmed_gaps. destruct (arbiter i); [|done]. destruct (AbArbiter.confirmed_gaps _ _) as [l a].
  change (Receiver.session i) with (Receiver.session (set_arbiter (Some a) i)).
  generalize (set_arbiter (Some a) i). induction l as [|x l IH]; intros j; [done|]. cbn [foldl]. by rewrite IH.
Qed.

Lemma pump_session s fuel i rec clk out i' rec' clk' :
  Receiver.session i = Some s -> pump fuel i rec clk = Some (out, i', rec', clk') -> Receiver.session i' = Some s.
Proof.
  intros Hs. apply (pump_inv (fun _ i _ => Receiver.session i = Some s)); try done.
  - intros f x y o' x' Hx _ _ (? & ? & ? & ->)%poll_legs_loop_same. done.
  - intros now x y o' x' Hx _ _ Ed. by eapply process_next_session.
  - intros now x y Hx. by rewrite drain_confirmed_session.
Qed.

Lemma retire_session i : Receiver.session (retire_current i) = Receiver.session i.
Proof. unfold retire_current, release_inline. by repeat case_match. Qed.

Lemma poll_session s fuel i rec clk out i' rec' clk' :
  Receiver.session i = Some s -> poll fuel i rec clk = Some (out, i', rec', clk') ->
  Receiver.session i' = Some s.
Proof.
  intros Hs E. unfold poll in E. destruct (pump fuel _ rec clk) as [[[[o j] r] c]|] eqn:Ep; [|done].
  assert (Hj : Receiver.session j = Some s) by (eapply pump_session; [|exact Ep]; by rewrite retire_session).
  destruct o as [[]|e|]; simplify_eq; try done. destruct (ready j); simplify_eq; try done.
  unfold yield_item in E. by simplify_eq.
Qed.

Lemma from_legs_history cfg ls i :
  (forall s, cfg_start_sequence cfg = Some s -> u64 s) -> from_legs cfg ls = Ok i ->
  history (cfg_start_sequence cfg) [] i.
Proof.
  intros Hs E. unfold from_legs in E.
  destruct (ok_or _ _); [|done..]. destruct (check_pools _ _); [|done..].
  destruct (if _ >? _ then _ else _); [|done..].
  destruct (SequenceReassembler.new RING_CAPACITY) as [r| |] eqn:Er; [|done..].
  assert (Hr : SequenceReassembler.wf r) by (by eapply SequenceReassembler.new_wf).
  assert (He : SequenceReassembler.expected_next r = 1) by (vm_compute in Er; by simplify_eq).
  exists (cfg_start_sequence cfg). split; [|done].
  destruct (cfg_start_sequence cfg) as [s|] eqn:Ec; simplify_eq;
    unfold in_order, ring_ok, expected; fields;
    cbn [SequenceReassembler.reset_expected SequenceReassembler.expected_next].
  - split; [split; [by apply SequenceReassembler.reset_wf|by apply Hs]|]. split; [done|]. exists 0%nat.
    rewrite Z.add_0_r, Z.mod_small by (by apply Hs). done.
  - rewrite He. done.
Qed.

(** [n] calls, each with [fuel]. *)
Fixpoint run_polls (n fuel : nat) (st : Inner T F * R * Clock)
    : option (list (res MoldUdpError (option (MoldUdpOutcome F))) * (Inner T F * R * Clock)) :=
  match n with
  | O => Some ([], st)
  | S n =>
      match run_polls n fuel st with
      | Some (outs, (i, r, c)) =>
          match poll fuel i r c with
          | Some (out, i, r, c) => Some (outs ++ [out], (i, r, c))
          | None => None
          end
      | None => None
      end
  end.

Lemma run_polls_polled n fuel st outs st' : run_polls n fuel st = Some (outs, st') -> polled st outs st'.
Proof.
  revert outs st'. induction n as [|n IH]; intros outs st' E; cbn [run_polls] in E; [simplify_eq; constructor|].
  destruct (run_polls n fuel st) as [[os [[i r] c]]|]; [|done].
  destruct (poll fuel i r c) as [[[[o i'] r'] c']|] eqn:Ep; [|done]. simplify_eq.
  eapply polled_snoc; [by apply IH|done].
Qed.

Lemma run_prefix a n (l k : list Z) : l ++ k = run a n -> l = run a (length l).
Proof.
  intros E. pose proof (f_equal length E) as Hl. rewrite length_app, run_length in Hl.
  replace n with (length l + length k)%nat in E by lia. rewrite run_app in E.
  apply app_inj_1 in E as [? _]; [done|]. by rewrite run_length.
Qed.

(** For any number of [poll] calls on a receiver built by [from_legs], with any
    number of legs, any recovery mode and any input, the sequence numbers of the
    messages handed to the caller are consecutive, with no duplicate, no reordering
    and no omission, from the configured start when there is one. *)
Theorem delivery_in_order cfg ls i rec clk outs i' rec' clk' :
  (forall s, cfg_start_sequence cfg = Some s -> u64 s) ->
  from_legs cfg ls = Ok i -> polled (i, rec, clk) outs (i', rec', clk') -> Forall handed outs ->
  exists a, frame_seqs outs = run a (length (frame_seqs outs)) /\
    (forall s, cfg_start_sequence cfg = Some s -> a = s).
Proof.
  intros Hs Hi Hp Ho. pose proof (from_legs_history _ _ _ Hs Hi) as Hh.
  destruct (polled_history _ _ _ _ _ _ _ _ _ Hh Hp Ho) as ([a|] & [_ Hord] & Ha); simpl in Hord.
  - destruct Hord as (_ & n & Hn & _). exists a. split; [by eapply run_prefix|].
    intros s Es. apply Ha in Es. congruence.
  - destruct Hord as (_ & -> & _). exists (default 0 (cfg_start_sequence cfg)). split; [done|].
    intros s ->. done.
Qed.

(** Once the receiver has locked a session, no sequence of calls changes it. *)
Theorem session_locked i rec clk outs i' rec' clk' s :
  Receiver.session i = Some s -> polled (i, rec, clk) outs (i', rec', clk') ->
  Receiver.session i' = Some s.
Proof.
  intros Hs Hp. remember (i, rec, clk) as st eqn:Est. remember (i', rec', clk') as st' eqn:Est'.
  revert i' rec' clk' Est'.
  induction Hp as [|st outs j r c fuel out j' r' c' Hp IH Hpoll]; intros; simplify_eq; [done|].
  eapply poll_session; [by eapply IH|exact Hpoll].
Qed.
End polls.

(** ** Worked runs *)

Module demo.
Definition sid : list byte := to_be_bytes 10 0x53455353494f4e31.
Definition msg (n : Z) : list byte := to_be_bytes 4 n.
Definition clock : Clock := {| readings := fun n => Z.of_nat n; reads := 0 |}.
Definition cfg (start : option Z) : MoldUdpReceiverConfig :=
  {| cfg_max_rerequests_per_gap_per_sec := 4; cfg_gap_confirm_window := 5 * NANOS_PER_MILLI;
     cfg_start_sequence := start |}.
Definition leg (bs : list (list (list byte))) : Scripted := {| bursts := bs; pool_size := 5000 |}.
Definition packet (seq : Z) (ms : list Z) : list byte := encode_packet sid seq (msg <$> ms).

(** [n] polls of a fresh receiver over scripted legs. *)
Definition go (start : option Z) (ls : list Scripted) (n : nat) :=
  match from_legs (cfg start) ls with
  | Ok i => run_polls n 20 (i, NoRecovery, clock)
  | _ => None
  end.

(** Two messages out of order, the missing one late, a heartbeat. *)
Definition late : list Scripted :=
  [leg [[packet 7 [70]]; [packet 9 [90]]; [packet 8 [80]]; [packet 10 []]]].

(** Facts of a run, checked by evaluation, carried over to its derivation. *)
Lemma go_polled start ls n (check : list (res MoldUdpError (option (MoldUdpOutcome (list byte)))) ->
    Inner Scripted (list byte) -> bool) :
  match go start ls n with Some (outs, (i, _, _)) => check outs i | None => false end = true ->
  exists i outs i' r' c', from_legs (cfg start) ls = Ok i /\
    polled (i, NoRecovery, clock) outs (i', r', c') /\ check outs i' = true.
Proof.
  unfold go. destruct (from_legs (cfg start) ls) as [i| |]; [|done..].
  destruct (run_polls n 20 (i, NoRecovery, clock)) as [[outs [[i' r'] c']]|] eqn:E; [|done].
  intros Hc. exists i, outs, i', r', c'. split_and!; [done|by eapply run_polls_polled|done].
Qed.

Definition no_panic (outs : list (res MoldUdpError (option (MoldUdpOutcome (list byte))))) : bool :=
  forallb (fun o => match o with Panic => false | _ => true end) outs.

Lemma no_panic_handed outs : no_panic outs = true -> Forall handed outs.
Proof.
  intros Hf. apply Forall_forall. intros o Ho. apply Is_true_eq_left in Hf. unfold no_panic in Hf.
  rewrite forallb_True, Forall_forall in Hf. specialize (Hf o Ho). by destruct o.
Qed.
End demo.

Lemma delivery_in_order_witness :
  exists i outs i' r' c', from_legs (demo.cfg (Some 7)) demo.late = Ok i /\
    polled (i, NoRecovery, demo.clock) outs (i', r', c') /\ frame_seqs outs = run 7 3.
Proof.
  destruct (demo.go_polled (Some 7) demo.late 6
    (fun outs _ => demo.no_panic outs && (length (frame_seqs outs) =? 3)%nat)) as (i & outs & i' & r' & c' & Hi & Hp & Hc);
    [vm_compute; reflexivity|].
  apply andb_true_iff in Hc as [Hn Hl]. apply Nat.eqb_eq in Hl. exists i, outs, i', r', c'. split_and!; [done|done|].
  destruct (delivery_in_order (demo.cfg (Some 7)) demo.late i NoRecovery demo.clock outs i' r' c') as (a & Ha & Hs);
    [by intros s [= <-]|done|done|by apply demo.no_panic_handed|].
  rewrite Ha, (Hs 7 eq_refl), Hl. done.
Defined.

Lemma session_locked_witness :
  exists i : Inner Scripted (list byte), Receiver.session i = Some demo.sid /\
  forall outs i' r' c', polled (i, NoRecovery, demo.clock) outs (i', r', c') -> Receiver.session i' = Some demo.sid.
Proof.
  destruct (demo.go_polled None demo.late 6
    (fun _ i => bool_decide (Receiver.session i = Some demo.sid))) as (i & outs & i' & r' & c' & Hi & Hp & Hc);
    [vm_compute; reflexivity|].
  apply bool_decide_eq_true in Hc. exists i'. split; [done|]. intros outs' i2 r2 c2 Hp2.
  exact (session_locked i' NoRecovery demo.clock outs' i2 r2 c2 demo.sid Hc Hp2).
Defined.
