(* ===== verification/ReceiverSafety.v ===== *)
(** * client-moldudp: the receiver is safe and its gap set exact

    For a receiver over any number of legs, every message handed out is the block its
    sequence number names, in a datagram really received for the locked session; no call
    panics; and the tracked gaps, with the candidates the A/B arbiter still holds back, are
    exactly the holes between what is expected and what has been seen. All of it holds while no
    reassembly overflow is reported; over one leg the first two hold past one as well.

    [core_with] is the invariant of the sequencing state: what is buffered is authentic and
    ahead of [expected], what is missing is a hole, and every hole is missing, held back or among
    the blocks still to be taken. [arb_tracks] ties the arbiter's window to it: from the first
    sequence on, it knows exactly the messages taken. [mid] is the invariant of the block loop,
    [sound] of the receiver between two datagrams, [poll_ok] of it between two calls. *)

From S2P Require Import Prelude TransportCore MoldWire Reassembly Gap Arbiter Receiver ReceiverOrder.
From Stdlib Require Import ZArith Lia.
From stdpp Require Import prelude list gmap strings.

Open Scope Z_scope.
Open Scope res_scope.

Import FrameBatch (frames, cap, spare).

Abbreviation pending_at r s := (SequenceReassembler.pending r s).
Abbreviation missing_in g s := (GapRequestHandler.missing g s).

(** Block [(s, off, n)] belongs to data packet [d] of session [sess]. *)
Definition block_of (sess : option (list byte)) (d : list byte) (s off n : Z) : Prop :=
  exists h blocks,
    parse_header d = Ok h /\ sess = Some (MoldWire.session h) /\ header_kind h = KData /\
    packet_blocks h d = Ok blocks /\ (s, off, n) ∈ blocks.

(** Message [m] is what sequence [s] names in a received datagram. *)
Definition authentic (P : list byte -> Prop) (sess : option (list byte)) (s : Z) (m : list byte) : Prop :=
  exists d off n, P d /\ block_of sess d s off n /\ get_range off (off + n) d = Some m.

(** Sequences stay this far below the top of the [u64] range. *)
Definition in_range_by (room : Z) (d : list byte) : Prop :=
  forall h, parse_header d = Ok h -> MoldWire.sequence h + message_count h + room < W64.

Definition in_range : list byte -> Prop := in_range_by 0.

Definition is_inline {F} (it : ReadyItem F) : Prop := match it with Inline _ _ _ _ => True | _ => False end.
#[export] Instance is_inline_dec {F} (it : ReadyItem F) : Decision (is_inline it).
Proof. destruct it; apply _. Defined.

Definition inlines {F} (l : list (ReadyItem F)) : Z := len (filter is_inline l).

Lemma inlines_app {F} (l k : list (ReadyItem F)) : inlines (l ++ k) = inlines l + inlines k.
Proof. unfold inlines. by rewrite filter_app, len_app. Qed.

Lemma inlines_number {F} seq stream (views : list (MessageView F)) : inlines (number seq stream views) = 0.
Proof. revert seq. induction views as [|v views IH]; intros seq; [done|]. apply IH. Qed.

(** A block of a packet can be sliced out of it. *)
Lemma block_of_range sess d s off n :
  block_of sess d s off n -> exists m, get_range off (off + n) d = Some m.
Proof.
  intros (h & blocks & Hh & _ & _ & Hb & Hin).
  pose proof (packet_blocks_sound _ _ _ (parse_header_len _ _ Hh) Hb) as Hf.
  rewrite Forall_forall in Hf. exact (Hf _ Hin).
Qed.

(** Messages taken so far: those behind [expected], and those buffered ahead of it. *)
Definition processed {T F} (i : Inner T F) (s : Z) : Prop := s < expected i \/ is_Some (pending_at (reassembler i) s).

(** Sequences the arbiter holds back until their confirm window has passed. *)
Definition held_back {T F} (i : Inner T F) (s : Z) : Prop := exists a, arbiter i = Some a /\ AbArbiter.candidate a s.

Definition CAP : Z := Z.of_nat RING_CAPACITY.

Section safety.
Context {T F : Type} `{DatagramRecv T F, AsRef F}.
Variable P : list byte -> Prop.

(** A receiver of one leg has no arbiter; one that has needs a window of room above the
    sequences. *)
Variables (lone : Prop) (room : Z).
Hypothesis room_pos : 0 <= room.
Hypothesis room_window : lone \/ CAP <= room.
Hypothesis P_range : forall d, P d -> in_range_by room d.
Implicit Types i : Inner T F.

Definition view_ok (sess : option (list byte)) (v : MessageView F) (s : Z) : Prop :=
  P (as_ref (view_datagram v)) /\
  block_of sess (as_ref (view_datagram v)) s (view_offset v) (view_len v).

(** ** The sequencing core *)

Definition nothing (s : Z) : Prop := False.

(** From the anchor [a0] on, the arbiter's window knows exactly the messages taken, and [fly],
    the one on its way; what the window left behind untaken is a candidate or a tracked gap. *)
Record arb_tracks (fly : Z -> Prop) (a : AbArbiter.t) i (a0 : Z) : Prop := {
  at_anchor : 0 <= a0 /\ a0 <= expected i /\ a0 <= AbArbiter.window_base a;
  at_tracks : AbArbiter.tracks a (fun s => a0 <= s /\ (processed i s \/ fly s));
  at_candidates : forall s, AbArbiter.candidate a s -> a0 <= s < next_unseen i;
  at_left : forall s, a0 <= s < AbArbiter.window_base a ->
    processed i s \/ fly s \/ AbArbiter.candidate a s \/ missing_in (gap_handler i) s;
}.

Record arb_ok (fly : Z -> Prop) (a : AbArbiter.t) i : Prop := {
  a_capacity : AbArbiter.capacity a = CAP;
  a_fresh : seq_anchored i = false -> forall s, ~ AbArbiter.candidate a s;
  a_tracks : seq_anchored i = true -> exists a0, arb_tracks fly a i a0;
}.

Definition arb_state (fly : Z -> Prop) i : Prop :=
  (lone -> arbiter i = None) /\ forall a, arbiter i = Some a -> arb_ok fly a i.

(** Some data packet that may be received holds the message of sequence [s]. *)
Definition carried (s : Z) : Prop := exists sess d off n, P d /\ block_of sess d s off n.

(** The sequences of [exact], less those carried when the ring was [full]. *)
Definition unless (full : Prop) (exact : Z -> Prop) (s : Z) : Prop := exact s /\ (full -> ~ carried s).

(** Closes [exact' s -> exact s] between such sets. *)
Ltac weaker := let s := fresh in intros s; unfold unless; simpl; tauto.

(** [exact] says for which sequences the gap set is known to be complete; those of
    [[lo, hi)] are still to be processed. *)
Record core_with (fly exact : Z -> Prop) (lo hi : Z) i : Prop := {
  c_arb : arb_state fly i;
  c_ring : ring_ok i;
  c_gap : GapRequestHandler.wf (gap_handler i);
  c_bounds : expected i <= next_unseen i /\ next_unseen i + room < W64;
  c_buffered : forall s v, pending_at (reassembler i) s = Some v ->
    view_ok (Receiver.session i) v s /\ expected i < s < next_unseen i;
  c_missing : forall s, missing_in (gap_handler i) s ->
    expected i <= s < next_unseen i /\ pending_at (reassembler i) s = None;
  c_exact : forall s, exact s -> expected i <= s < next_unseen i ->
    pending_at (reassembler i) s = None -> missing_in (gap_handler i) s \/ held_back i s \/ lo <= s < hi;
}.

Abbreviation core := (core_with nothing).

Lemma arb_ok_same fly a i i' :
  arb_ok fly a i -> reassembler i' = reassembler i -> gap_handler i' = gap_handler i ->
  next_unseen i' = next_unseen i -> seq_anchored i' = seq_anchored i -> arb_ok fly a i'.
Proof.
  intros [Hc Hf Ht] E1 E2 E3 E4. split; rewrite ?E4; try done. intros Hs. destruct (Ht Hs) as [a0 [A1 A2 A3 A4]]. exists a0.
  split; unfold processed, expected in *; rewrite ?E1, ?E2, ?E3; done.
Qed.

Lemma core_same fly exact lo hi i i' :
  core_with fly exact lo hi i -> arbiter i' = arbiter i -> reassembler i' = reassembler i ->
  gap_handler i' = gap_handler i -> next_unseen i' = next_unseen i ->
  Receiver.session i' = Receiver.session i -> seq_anchored i' = seq_anchored i -> core_with fly exact lo hi i'.
Proof.
  intros [[Hl Ha]] E1 E2 E3 E4 E5 E6. unfold ring_ok, expected, held_back in *.
  split; unfold ring_ok, expected, held_back, arb_state in *; rewrite ?E1, ?E2, ?E3, ?E4, ?E5; auto.
  split; [done|]. intros a Ea. by eapply arb_ok_same; [by apply Ha|..].
Qed.

Lemma core_weaken fly exact exact' lo hi lo' hi' i :
  core_with fly exact lo hi i -> (forall s, exact' s -> exact s) -> (forall s, exact' s -> lo <= s < hi -> lo' <= s < hi') ->
  core_with fly exact' lo' hi' i.
Proof.
  intros [] He Hr. split; auto. intros s Hx Hs Hp. destruct (c_exact0 s (He s Hx) Hs Hp) as [?|[?|?]]; auto.
Qed.

(** A step that takes [cur] and leaves the arbiter alone. *)
Lemma arb_done cur i i' :
  arb_state (eq cur) i -> arbiter i' = arbiter i -> seq_anchored i' = seq_anchored i -> next_unseen i' = next_unseen i ->
  expected i <= expected i' -> (forall s, processed i' s <-> processed i s \/ s = cur) ->
  (forall s, missing_in (gap_handler i) s -> missing_in (gap_handler i') s \/ s = cur) -> arb_state nothing i'.
Proof.
  intros [Hl Ha] E1 E2 E3 He Hp Hm. split; [by rewrite E1|]. intros a Ea. rewrite E1 in Ea. destruct (Ha a Ea) as [Hc Hf Ht].
  split; rewrite ?E2; try done. intros Hs. destruct (Ht Hs) as [a0 [A1 A2 A3 A4]]. exists a0. split.
  - lia.
  - eapply AbArbiter.tracks_ext; [|exact A2]. intros s. cbn. rewrite Hp. unfold nothing. split; (intros [Hlo Hor]; split; [exact Hlo|]); destruct Hor as [Hor|Hor]; auto; destruct Hor; auto.
  - by rewrite E3.
  - intros s Hs'. rewrite Hp. destruct (A4 s Hs') as [?|[<-|[?|Hms]]]; [tauto..|]. apply Hm in Hms. tauto.
Qed.

(** Marking [seq] received. *)
Lemma core_received fly exact lo hi i seq :
  core_with fly exact lo hi i -> u64 seq ->
  GapRequestHandler.wf (GapRequestHandler.mark_received (gap_handler i) seq) /\
  (forall s, missing_in (GapRequestHandler.mark_received (gap_handler i) seq) s <->
             missing_in (gap_handler i) s /\ s <> seq).
Proof. intros [] Hu. by apply GapRequestHandler.mark_received_spec. Qed.

(** The in-order branch of [take_block]: the message is queued and the run behind
    it released. *)
Lemma core_inline exact i stream off n hi i' :
  core_with (eq (expected i)) exact (expected i) hi i -> expected i < hi <= next_unseen i ->
  i' = queue_drained (u64_add (expected i) 1) stream
         (push_ready (Inline (expected i) stream off n)
            (set_reassembler (SequenceReassembler.advance_expected (reassembler i) 1)
               (set_gap_handler (GapRequestHandler.mark_received (gap_handler i) (expected i)) i))) ->
  core exact (expected i + 1) hi i' /\ expected i + 1 <= expected i' /\
  exists views, ready i' = ready i ++ Inline (expected i) stream off n :: number (expected i + 1) stream views /\
    expected i + 1 + len views < W64 /\
    (forall k v, views !! k = Some v -> view_ok (Receiver.session i) v (expected i + 1 + Z.of_nat k)).
Proof using room_pos room_window.
  intros Hc Hhi ->. pose proof Hc as [Harb [Hw He] _ Hb Hbuf Hmis Hex].
  destruct (core_received _ _ _ _ _ _ Hc He) as [Hgw Hgm].
  assert (Hadd : u64_add (expected i) 1 = expected i + 1)
    by (unfold u64_add, u64 in *; apply Z.mod_small; lia).
  rewrite Hadd. unfold queue_drained. fields.
  set (r1 := SequenceReassembler.advance_expected (reassembler i) 1).
  destruct (SequenceReassembler.drain_ready r1) as [views r2] eqn:Ed.
  assert (Hr1 : SequenceReassembler.expected_next r1 = expected i + 1) by exact Hadd.
  destruct (SequenceReassembler.drain_ready_below r1 (next_unseen i) views r2) as (Hw2 & He2 & Hle & Hmax & Hv & Hp2);
    [by apply SequenceReassembler.advance_wf|rewrite Hr1; unfold u64 in *; lia|lia| |done|].
  { intros s v Hs. apply Hbuf in Hs as [_ ?]. lia. }
  rewrite Hr1 in *. pose proof (len_nonneg views).
  assert (Hp1 : forall s, pending_at r1 s = pending_at (reassembler i) s) by done.
  assert (Hrun : forall s, expected i < s < SequenceReassembler.expected_next r2 -> is_Some (pending_at (reassembler i) s)).
  { intros s Hs. destruct (lookup_lt_is_Some_2 views (Z.to_nat (s - expected i - 1))) as [v Hk]; [unfold len in *; lia|].
    apply Hv in Hk. rewrite Hp1, Z2Nat.id in Hk by lia. replace (expected i + 1 + (s - expected i - 1)) with s in Hk by lia. by eexists. }
  split_and!; [|unfold expected in *; fields; lia|].
  - split; unfold ring_ok, held_back, expected in *; fields.
    + eapply (arb_done _ i); unfold processed, expected; fields; try done; [lia| |].
      * intros s. rewrite Hp2. split.
        -- intros [Hs|Hs]; [|case_decide; [by left; right|by destruct Hs]].
           destruct (decide (s < SequenceReassembler.expected_next (reassembler i))); [by left; left|].
           destruct (decide (s = SequenceReassembler.expected_next (reassembler i))); [by right|]. left. right. apply Hrun. lia.
        -- intros [[?|Hs]| ->]; [left; lia| |left; lia]. case_decide; [by right|]. left. destruct Hs as [v Hs]. pose proof (Hbuf _ _ Hs) as [_ ?].
           destruct (decide (s = SequenceReassembler.expected_next r2)) as [->|]; [|lia]. rewrite Hp1 in Hmax. congruence.
      * intros s Hs. rewrite Hgm. destruct (decide (s = SequenceReassembler.expected_next (reassembler i))); [by right|by left].
    + split; [done|]. unfold u64 in *. lia.
    + done.
    + lia.
    + intros s v Hs. rewrite Hp2 in Hs. case_decide; [|done]. apply Hbuf in Hs as [? ?]. split; [done|lia].
    + intros s [Hm Hne]%Hgm. destruct (Hmis _ Hm) as [Hr Hp]. split; [|rewrite Hp2; by case_decide].
      split; [|lia]. destruct (decide (s < SequenceReassembler.expected_next r2)) as [Hlt|]; [|lia]. exfalso.
      destruct (Hrun s ltac:(lia)). congruence.
    + intros s Hx Hs Hp. rewrite Hgm. rewrite Hp2 in Hp. case_decide as Hlt.
      * destruct (Hex s Hx ltac:(lia) Hp) as [?|[?|?]]; [left; split; [done|lia]|by right; left|right; right; lia].
      * assert (s = SequenceReassembler.expected_next r2) as -> by lia. rewrite Hp1 in Hmax.
        assert (Hs' : SequenceReassembler.expected_next (reassembler i) <= SequenceReassembler.expected_next r2 < next_unseen i) by lia.
        destruct (Hex _ Hx Hs' Hmax) as [?|[?|?]]; [left; split; [done|lia]|by right; left|right; right; lia].
  - exists views. rewrite <- app_assoc. split_and!; [done|lia|]. intros k v Hk. apply Hv in Hk. rewrite Hp1 in Hk.
    by apply Hbuf in Hk as [? _].
Qed.

(** The branch that buffers a message ahead of [expected_next]. A full ring leaves a receiver
    of one leg sound, but not its gap set. *)
Lemma core_insert exact i cur hi (v : MessageView F) result r :
  core_with (eq cur) exact cur hi i -> expected i < cur < hi -> hi <= next_unseen i ->
  view_ok (Receiver.session i) v cur ->
  SequenceReassembler.insert (reassembler i) cur v = (result, r) ->
  let i' := set_reassembler r
              (set_gap_handler (GapRequestHandler.mark_received (gap_handler i) cur) i) in
  (result = Ok false /\ core exact (cur + 1) hi i') \/
  ((exists c, result = Err (ReassemblyBufferFull c)) /\ (lone -> core (unless True exact) (cur + 1) hi i')).
Proof using room_pos room_window.
  intros Hc Hcur Hhi Hv E. cbv zeta. pose proof Hc as [Harb [Hw He] _ Hb Hbuf Hmis Hex].
  destruct (core_received _ _ _ _ _ cur Hc ltac:(unfold u64 in *; lia)) as [Hgw Hgm].
  destruct (SequenceReassembler.insert_spec _ _ _ _ _ Hw E) as (Hw' & _ & He' & Hres).
  set (i' := set_reassembler r _).
  assert (Hst : forall s, held_back i' s <-> held_back i s) by done.
  assert (Hkept : forall s, missing_in (gap_handler i) s -> missing_in (gap_handler i') s \/ s = cur).
  { intros s Hs. subst i'. fields. rewrite Hgm. destruct (decide (s = cur)); tauto. }
  assert (Hold : forall x : Z -> Prop, (forall s, x s -> exact s) -> r = reassembler i -> arb_state nothing i' ->
                 (x cur -> is_Some (pending_at (reassembler i) cur)) -> core x (cur + 1) hi i').
  { intros x Hx -> Ha Hp. subst i'. split; unfold ring_ok, expected in *; fields; try done.
    - intros s [Hm _]%Hgm. by apply Hmis.
    - intros s Hxx Hs Hps. rewrite Hgm, Hst. destruct (decide (s = cur)) as [->|]; [by destruct (Hp Hxx); congruence|].
      destruct (Hex s (Hx s Hxx) Hs Hps) as [?|[?|?]]; [by left|by right; left|right; right; lia]. }
  destruct result as [c|e|]; [| |done].
  - rewrite decide_False in Hres by (unfold expected in *; lia). left.
    case_decide as Hp; [destruct Hres as [-> ->]; split; [done|apply Hold; try done]|].
    { eapply (arb_done cur i); try done. intros s. split; [by left|]. intros [Hps| ->]; [done|by right]. }
    destruct Hres as [-> Hpr].
    split; [f_equal; apply Z.eqb_neq; unfold expected in *; lia|].
    assert (Ha : arb_state nothing i').
    { eapply (arb_done cur i); try done; unfold processed, expected; subst i'; fields; rewrite ?He'; [done|].
      intros s. rewrite Hpr. case_decide as Hs; [subst; split; [by right|right; by eexists]|tauto]. }
    subst i'. split; unfold ring_ok, expected in *; fields; rewrite ?He'; try done.
    + intros s w. rewrite Hpr. case_decide; [intros; simplify_eq; split; [done|lia]|apply Hbuf].
    + intros s [Hm Hne]%Hgm. rewrite Hpr, decide_False by done. by apply Hmis.
    + intros s Hx Hs. rewrite Hpr, Hgm, Hst. case_decide; [done|]. intros Hps.
      destruct (Hex s Hx Hs Hps) as [?|[?|?]]; [by left|by right; left|right; right; lia].
  - right. destruct Hres as (-> & -> & _). split; [by eexists|]. intros Hl. apply Hold; [by intros s []|done| |].
    2: { intros [_ Hn]. destruct Hn; [done|]. destruct Hv as [HP Hbl]. by eexists _, _, _, _. }
    destruct Harb as [Hn _]. split; [done|]. intros a Ea. subst i'. fields. by rewrite (Hn Hl) in Ea.
Qed.

(** A stale duplicate. *)
Lemma core_stale exact i cur hi :
  core_with (eq cur) exact cur hi i -> 0 <= cur < expected i ->
  core exact (cur + 1) hi (set_gap_handler (GapRequestHandler.mark_received (gap_handler i) cur) i).
Proof using room_pos room_window.
  intros Hc Hcur. pose proof Hc as [Harb [Hw He] _ Hb Hbuf Hmis Hex].
  destruct (core_received _ _ _ _ _ cur Hc ltac:(unfold u64 in *; lia)) as [Hgw Hgm].
  split; unfold ring_ok, held_back, expected in *; fields; try done.
  - eapply (arb_done cur i); unfold processed, expected in *; fields; try done.
    + intros s. split; [by left|]. intros [?| ->]; [done|by left; lia].
    + intros s Hs. rewrite Hgm. destruct (decide (s = cur)); tauto.
  - intros s [Hm _]%Hgm. by apply Hmis.
  - intros s Hx Hs Hps. rewrite Hgm. destruct (Hex s Hx Hs Hps) as [?|[?|?]]; [left; split; [done|lia]|by right; left|right; right; lia].
Qed.

(** *** The arbiter's verdict on a block *)

Lemma arb_moved fly cur a a' i a0 :
  arb_tracks nothing a i a0 -> AbArbiter.capacity a = CAP -> cur < next_unseen i ->
  AbArbiter.observed_candidates a a' (fun s => a0 <= s /\ (processed i s \/ nothing s)) cur ->
  AbArbiter.tracks a' (fun s => a0 <= s /\ (processed i s \/ fly s)) -> processed i cur \/ fly cur ->
  arb_tracks fly a' (set_arbiter (Some a') i) a0.
Proof.
  intros [A1 A2 A3 A4] Hcap Hcur [O1 O2 O3 O4 O5] Ht Hp. split; [unfold expected in *; fields; lia|done|..]; fields.
  - intros s [Hs|Hs]%O3; [by apply A3|]. rewrite Hcap in O2. unfold CAP in O2. lia.
  - intros s Hs. change (processed _ s) with (processed i s). destruct (decide (s < AbArbiter.window_base a)) as [Hlt|Hge].
    + destruct (A4 s ltac:(lia)) as [?|[[]|[Hcs|?]]]; [tauto| |tauto].
      destruct (decide (s = cur)) as [->|]; [tauto|]. specialize (O4 s Hcs). tauto.
    + destruct (O5 s ltac:(lia)) as [[_ [?|[]]]|?]; tauto.
Qed.

Lemma core_moved fly exact lo hi lo' i a a' :
  core exact lo hi i -> arbiter i = Some a -> arb_ok fly a' (set_arbiter (Some a') i) ->
  (forall s, AbArbiter.candidate a s -> ~ processed i s -> AbArbiter.candidate a' s \/ lo' <= s < hi) ->
  (forall s, lo <= s < hi -> ~ processed i s -> missing_in (gap_handler i) s \/ lo' <= s < hi) ->
  core_with fly exact lo' hi (set_arbiter (Some a') i).
Proof.
  intros [[Hl _] Hr Hg Hb Hbuf Hmis Hex] Ea Ha' Hcs Hlo. split; try done.
  - split; [intros HL; by rewrite (Hl HL) in Ea|]. intros b [= <-]. done.
  - intros s Hx Hs Hp. assert (Hn : ~ processed i s).
    { unfold processed, expected in *. fields. intros [?|[v Hv]]; [lia|congruence]. }
    fields. destruct (Hex s Hx Hs Hp) as [?|[(b & Eb & Hc)|Hr']]; [by left| |specialize (Hlo s Hr' Hn); tauto].
    assert (b = a) as -> by congruence. destruct (Hcs s Hc Hn) as [?|?]; [right; left; by exists a'|tauto].
Qed.

(** What is forwarded is on its way; what is not was taken before, or is missing already. *)
Lemma arbitrate_core exact cur hi stream now i v i' :
  core exact cur hi i -> 0 <= cur < hi -> hi <= next_unseen i -> seq_anchored i = true ->
  (is_Some (arbiter i) -> is_Some now) -> arbitrate stream cur now i = (v, i') ->
  match v with Forward => core_with (eq cur) exact cur hi i' | _ => core exact (cur + 1) hi i' end.
Proof using room_window.
  intros Hc Hcur Hhi Han Hnow E. pose proof Hc as [[Hl Ha] _ _ Hb _ _ _]. unfold arbitrate in E.
  destruct (arbiter i) as [a|] eqn:Ea.
  2: { simplify_eq. destruct Hc as [_ ? ? ? ? ? ?]. split; try done. split; [done|]. intros a. by rewrite Ea. }
  destruct Hnow as [t ->]; [by eexists|]. destruct (Ha a eq_refl) as [Hcap _ Ht]. destruct (Ht Han) as [a0 A].
  assert (Hroom : CAP <= room) by (destruct room_window as [HL|?]; [by apply Hl in HL|done]).
  destruct (AbArbiter.observe a stream cur t) as [w a'] eqn:Eo. simplify_eq.
  pose proof A as [A1 A2 A3 A4]. rewrite <- Hcap in Hroom.
  pose proof (AbArbiter.observe_tracks _ _ _ _ _ _ _ A2 (proj1 Hcur) ltac:(lia) Eo) as Hv.
  pose proof (AbArbiter.observe_candidates _ _ _ _ _ _ _ A2 (proj1 Hcur) ltac:(lia) Eo) as Ho.
  assert (Hok : forall fly, arb_tracks fly a' (set_arbiter (Some a') i) a0 -> arb_ok fly a' (set_arbiter (Some a') i)).
  { intros fly HA. split; [by rewrite (AbArbiter.oc_cap _ _ _ _ Ho)|fields; congruence|by eexists]. }
  destruct v.
  - destruct Hv as [Hn Ht']. assert (Ha0 : a0 <= cur).
    { destruct (decide (a0 <= cur)) as [|Hlt]; [done|]. exfalso. unfold AbArbiter.observe in Eo.
      rewrite (proj2 (Z.ltb_lt _ _)) in Eo by lia. destruct (AbArbiter.pending_gap_confirms a !! cur) eqn:Ep; [|done].
      apply Hlt. apply A3. by eexists. }
    apply (core_moved _ _ cur _ _ _ a); [done|done|apply Hok, (arb_moved _ cur a); try done; [lia| |by right]|..].
    + eapply AbArbiter.tracks_ext; [|exact Ht']. intros s. cbn. unfold nothing. split; [intros [->|[? [?|[]]]]; auto|].
      intros [? [?|<-]]; auto.
    + intros s Hs _. destruct (decide (s = cur)) as [->|]; [right; lia|left]. by apply (AbArbiter.oc_kept _ _ _ _ Ho).
    + intros s Hs _. by right.
  - destruct Hv as [[_ [Hp|[]]] Ht'].
    apply (core_moved _ _ cur _ _ _ a); [done|done|apply Hok, (arb_moved _ cur a); try done; [lia|by left]|..].
    + intros s Hs Hn. left. apply (AbArbiter.oc_kept _ _ _ _ Ho); [done|]. by intros ->.
    + intros s Hs Hn. right. destruct (decide (s = cur)) as [->|]; [done|lia].
  - destruct Hv as (Hlt & Hnc & ->). apply (core_moved _ _ cur _ _ _ a); [done|done|..].
    + apply Hok. destruct A. by split.
    + intros s Hs _. by left.
    + intros s Hs Hn. destruct (decide (s = cur)) as [->|]; [left|right; lia].
      destruct (decide (a0 <= cur)) as [|]; [|destruct Hn; left; lia].
      destruct (A4 cur ltac:(lia)) as [?|[[]|[[x Hx]|?]]]; [done|congruence|done].
Qed.

(** ** The block loop *)

Definition item_ok (sess : option (list byte)) (d : list byte) (it : ReadyItem F) : Prop :=
  match it with
  | Inline s _ off n => P d /\ block_of sess d s off n
  | View v s _ => view_ok sess v s
  | _ => True
  end.

Lemma number_ok sess d s stream views :
  0 <= s -> s + len views < W64 ->
  (forall k v, views !! k = Some v -> view_ok sess v (s + Z.of_nat k)) ->
  Forall (item_ok sess d) (number s stream views).
Proof.
  revert s. induction views as [|v views IH]; intros s H0s Hs Hv; cbn [number]; constructor.
  - rewrite <- (Z.add_0_r s). by apply (Hv 0%nat).
  - rewrite len_cons in Hs. pose proof (len_nonneg views).
    replace (u64_add s 1) with (s + 1) by (unfold u64_add; rewrite Z.mod_small; lia).
    apply IH; [lia|lia|]. intros k w Hk. specialize (Hv (S k) w Hk).
    by replace (s + 1 + Z.of_nat k) with (s + Z.of_nat (S k)) by lia.
Qed.

(** Fields the decode loop leaves alone. *)
Definition frame_same i i' : Prop :=
  Receiver.session i' = Receiver.session i /\ next_unseen i' = next_unseen i /\
  legs i' = legs i /\ current i' = current i /\ pending_datagrams i' = pending_datagrams i /\
  backing i' = backing i /\ inline_pending i' = inline_pending i /\
  seq_anchored i' = seq_anchored i /\ recv_batch i' = recv_batch i /\
  (is_Some (arbiter i') -> is_Some (arbiter i)).

(** Where the loop stands before block [cur]: [q] is what it has queued. *)
Record mid (exact : Z -> Prop) (cur hi : Z) (d : list byte) i0 i (held : Backing F) (inline : Z)
    (q : list (ReadyItem F)) : Prop := {
  m_core : core exact cur hi i;
  m_same : frame_same i0 i;
  m_held : backing_bytes held = d;
  m_ready : ready i = ready i0 ++ q;
  m_items : Forall (item_ok (Receiver.session i0) d) q;
  m_count : inlines q = inline;
  m_ahead : lone -> 0 < inline -> cur <= expected i;
}.

Lemma share_bytes (b b' : Backing F) arc :
  share b = (b', arc) -> backing_bytes b' = backing_bytes b /\ as_ref arc = backing_bytes b.
Proof. destruct b; simpl; intros; by simplify_eq. Qed.

(** A reading of the clock for the arbiter, where there is one. *)
Definition timed (now : option Z) i : Prop := is_Some (arbiter i) -> is_Some now.

Lemma arbitrate_same stream seq now i v i' :
  arbitrate stream seq now i = (v, i') ->
  frame_same i i' /\ ready i' = ready i /\ reassembler i' = reassembler i /\ gap_handler i' = gap_handler i /\
  (arbiter i = None -> v = Forward).
Proof.
  unfold arbitrate, frame_same. intros E. destruct (arbiter i) as [a|] eqn:Ea; [|simplify_eq; rewrite ?Ea; by split_and!].
  destruct now as [t|]; [|simplify_eq; rewrite ?Ea; by split_and!].
  destruct (AbArbiter.observe _ _ _ _). simplify_eq. fields. by split_and!.
Qed.

Lemma frame_same_trans i1 i2 i3 : frame_same i1 i2 -> frame_same i2 i3 -> frame_same i1 i3.
Proof. unfold frame_same. intros (?&?&?&?&?&?&?&?&?&?) (?&?&?&?&?&?&?&?&?&?). split_and!; (congruence || tauto). Qed.

(** A forwarded block. *)
Lemma take_forwarded_mid exact cur hi d i0 i held inline q stream off n out i' held' inline' :
  core_with (eq cur) exact cur hi i -> arbitrate stream cur None i = (Forward, i) -> frame_same i0 i -> backing_bytes held = d ->
  ready i = ready i0 ++ q -> Forall (item_ok (Receiver.session i0) d) q -> inlines q = inline ->
  (lone -> 0 < inline -> cur <= expected i) ->
  P d -> block_of (Receiver.session i0) d cur off n -> 0 <= cur < hi -> hi <= next_unseen i0 ->
  take_block stream None cur off n i held inline = (out, i', held', inline') ->
  exists q', inline' <= inline + 1 /\
  ((out = Ok tt /\ mid exact (cur + 1) hi d i0 i' held' inline' q') \/
   ((exists c, out = Err (ReassemblyBufferFull c)) /\ (lone -> inline' = 0 /\ mid (unless True exact) (cur + 1) hi d i0 i' held' 0 q'))).
Proof using room_pos room_window.
  intros Hc Earb Hs Hh Hr Hq Hi Ha HP Hblk Hcur Hhi E. pose proof Hs as (Hss & Hsn & _).
  unfold take_block in E. rewrite Earb in E. fields.
  change (SequenceReassembler.expected_next (reassembler i)) with (expected i) in E.
  destruct (Z.compare_spec cur (expected i)) as [Heq|Hlt|Hgt].
  - simplify_eq. destruct (core_inline _ _ stream off n hi _ Hc ltac:(lia) eq_refl) as (Hc' & He' & views & Hrd & Hlen & Hv).
    eexists. split; [lia|]. left. split; [done|].
    split; [exact Hc'| |done| | | |by intros _ _].
    + unfold queue_drained. destruct (SequenceReassembler.drain_ready _). exact Hs.
    + rewrite Hrd, Hr, <- app_assoc. done.
    + apply Forall_app. split; [done|]. rewrite <- Hss. destruct (c_ring _ _ _ _ _ Hc) as [_ Hu].
      constructor; [by rewrite Hss|]. apply number_ok; [unfold u64 in Hu; lia|done|done].
    + rewrite inlines_app. change (?x :: ?l) with ([x] ++ l) in *.
      rewrite inlines_app, inlines_number. unfold inlines at 2. done.
  - simplify_eq. exists q. split; [lia|]. left. split; [done|].
    split; [apply core_stale; [done|lia]|done|done|done|done|done|]. unfold expected in *. fields. lia.
  - destruct (share held) as [h arc] eqn:Es. apply share_bytes in Es as [Hh' Harc].
    destruct (SequenceReassembler.insert _ _ _) as [result r] eqn:Ei.
    assert (Hv : view_ok (Receiver.session i) {| view_datagram := arc; view_offset := off; view_len := n |} cur)
      by (rewrite Hss; split; cbn [view_datagram view_offset view_len]; by rewrite Harc, Hh).
    destruct (core_insert exact i cur hi _ result r Hc ltac:(lia) ltac:(lia) Hv Ei) as [[-> Hc']|[[c ->] Hc']]; simplify_eq.
    + exists q. split; [lia|]. left. split; [done|]. split; try done. intros HL Hpos. specialize (Ha HL Hpos). lia.
    + exists q. split; [lia|]. right. split; [by eexists|]. intros HL.
      assert (Hi0 : inlines q = 0) by (pose proof (len_nonneg (filter is_inline q)) as Hge; fold (inlines q) in Hge;
        destruct (decide (0 < inlines q)) as [Hpos|]; [specialize (Ha HL Hpos)|]; lia).
      split; [done|]. split; try done. by apply Hc'.
Qed.

(** The loop body is [take_block] without an arbiter once the verdict is in. *)
Lemma take_block_verdict stream now cur off n i held inline v i1 :
  arbitrate stream cur now i = (v, i1) ->
  take_block stream now cur off n i held inline =
  match v with
  | Forward => take_block stream None cur off n i1 held inline
  | _ => (Ok tt, i1, held, inline)
  end /\ arbitrate stream cur None i1 = (Forward, i1).
Proof.
  intros E. assert (En : arbitrate stream cur None i1 = (Forward, i1)) by (unfold arbitrate; by destruct (arbiter i1)).
  split; [|done]. unfold take_block. rewrite E, En. by destruct v.
Qed.

Lemma take_block_mid exact cur hi d i0 i held inline q stream now off n out i' held' inline' :
  mid exact cur hi d i0 i held inline q -> P d -> block_of (Receiver.session i0) d cur off n ->
  0 <= cur < hi -> hi <= next_unseen i0 -> seq_anchored i0 = true -> timed now i0 ->
  take_block stream now cur off n i held inline = (out, i', held', inline') ->
  exists q', inline' <= inline + 1 /\
  ((out = Ok tt /\ mid exact (cur + 1) hi d i0 i' held' inline' q') \/
   ((exists c, out = Err (ReassemblyBufferFull c)) /\ (lone -> inline' = 0 /\ mid (unless True exact) (cur + 1) hi d i0 i' held' 0 q'))).
Proof using room_pos room_window.
  intros [Hc Hs Hh Hr Hq Hi Ha] HP Hblk Hcur Hhi Han Hnow E. pose proof Hs as (Hss & Hsn & _ & _ & _ & _ & _ & Hsa & _ & Hsb).
  destruct (arbitrate stream cur now i) as [v i1] eqn:Earb.
  pose proof (arbitrate_core _ _ _ _ _ _ _ _ Hc Hcur ltac:(lia) ltac:(congruence) ltac:(auto) Earb) as Hv.
  destruct (arbitrate_same _ _ _ _ _ _ Earb) as (Hs1 & Hr1 & Ht1 & _ & Hfw).
  destruct (take_block_verdict stream now cur off n i held inline _ _ Earb) as [Et En]. rewrite Et in E. clear Et.
  pose proof (frame_same_trans _ _ _ Hs Hs1) as Hs2. assert (He1 : expected i1 = expected i) by (unfold expected; by rewrite Ht1).
  assert (Hskip : v <> Forward -> core exact (cur + 1) hi i1 -> mid exact (cur + 1) hi d i0 i1 held inline q).
  { intros Hne Hc1. split; try done; [congruence|]. intros HL. destruct (c_arb _ _ _ _ _ Hc) as [Hn _]. by destruct (Hne (Hfw (Hn HL))). }
  destruct v; [|simplify_eq; exists q; split; [lia|]; left; split; [done|by apply Hskip]..].
  eapply take_forwarded_mid; try eassumption; [congruence|by rewrite He1].
Qed.

Lemma take_blocks_mid exact blocks cur hi d i0 i held inline q stream now out i' held' inline' :
  mid exact cur hi d i0 i held inline q -> P d ->
  (forall k s off n, blocks !! k = Some (s, off, n) ->
     s = cur + Z.of_nat k /\ block_of (Receiver.session i0) d s off n) ->
  0 <= cur -> cur + len blocks = hi -> hi <= next_unseen i0 -> seq_anchored i0 = true -> timed now i0 ->
  take_blocks stream now blocks i held inline = (out, i', held', inline') ->
  inline' <= inline + len blocks /\ exists q',
  (out = Ok tt /\ mid exact hi hi d i0 i' held' inline' q') \/
  ((exists c, out = Err (ReassemblyBufferFull c)) /\ (lone -> inline' = 0 /\ mid (unless True exact) hi hi d i0 i' held' 0 q')).
Proof using room_pos room_window.
  revert cur i held inline q. induction blocks as [|[[s off] n] blocks IH];
    intros cur i held inline q Hm HP Hb Hcur Hlen Hhi Han Hnow E; cbn [take_blocks] in E.
  - simplify_eq. rewrite len_nil in *. split; [lia|]. exists q. left. split; [done|].
    replace (cur + 0) with cur in * by lia. done.
  - rewrite len_cons in *. pose proof (len_nonneg blocks).
    destruct (Hb 0%nat s off n eq_refl) as [-> Hblk]. rewrite Z.add_0_r in *.
    destruct (take_block stream now cur off n i held inline) as [[[o j] h] k] eqn:Eb.
    destruct (take_block_mid _ _ hi _ _ _ _ _ _ _ _ _ _ _ _ _ _ Hm HP Hblk ltac:(lia) Hhi Han Hnow Eb)
      as (q1 & Hk & [[-> Hm1]|([c ->] & Hm1)]).
    + assert (Hb' : forall k s off n, blocks !! k = Some (s, off, n) ->
                s = cur + 1 + Z.of_nat k /\ block_of (Receiver.session i0) d s off n)
        by (intros k0 s0 off0 n0 Hk0; destruct (Hb (S k0) _ _ _ Hk0) as [-> ?]; split; [lia|done]).
      destruct (IH _ _ _ _ _ Hm1 HP Hb' ltac:(lia) ltac:(lia) Hhi Han Hnow E) as (Hle & q' & Hout).
      split; [lia|]. by exists q'.
    + simplify_eq. split; [lia|]. exists q1. right. split; [by eexists|]. intros HL. destruct (Hm1 HL) as [-> Hm2]. split; [done|].
      destruct Hm2 as [Hc1 ? ? ? ? ? ?]. split; try done. eapply core_weaken; [exact Hc1|done|].
      intros s [_ Hn] Hs. destruct Hn; [done|]. destruct (lookup_lt_is_Some_2 blocks (Z.to_nat (s - (cur + 1)))) as [[[s0 off0] n0] Hk0];
        [unfold len in *; lia|]. destruct (Hb (S (Z.to_nat (s - (cur + 1)))) _ _ _ Hk0) as [-> Hbl0].
      exists (Receiver.session i0), d, off0, n0. split; [done|]. by replace (cur + Z.of_nat (S (Z.to_nat (s - (cur + 1))))) with s in * by lia.
Qed.

(** ** One datagram *)

(** Raising [next_unseen], with everything below [m] that was skipped noted. *)
Lemma core_raised exact m i i' :
  core exact 0 0 i -> next_unseen i <= m <= next_unseen i' -> next_unseen i' + room < W64 ->
  reassembler i' = reassembler i -> Receiver.session i' = Receiver.session i -> arb_state nothing i' ->
  GapRequestHandler.wf (gap_handler i') ->
  (forall s, missing_in (gap_handler i') s -> missing_in (gap_handler i) s \/ next_unseen i <= s < m) ->
  (forall s, missing_in (gap_handler i) s -> missing_in (gap_handler i') s) ->
  (forall s, held_back i s -> held_back i' s) ->
  (forall s, next_unseen i <= s < m -> missing_in (gap_handler i') s \/ held_back i' s) ->
  core exact m (next_unseen i') i'.
Proof using room_pos room_window.
  intros [_ Hring _ Hb Hbuf Hmis Hex] Hm Hw Er Es Ha Hg Hnew Hold Hst Hnote.
  split; unfold ring_ok, expected in *; rewrite ?Er, ?Es; try done; [lia| | |].
  - intros s v Hs. apply Hbuf in Hs as [? ?]. split; [done|lia].
  - intros s [Hs|Hs]%Hnew; [destruct (Hmis _ Hs); split; [lia|done]|]. split; [lia|].
    destruct (pending_at (reassembler i) s) eqn:Ep; [|done]. apply Hbuf in Ep as [_ ?]. lia.
  - intros s Hx Hs Hp. destruct (decide (s < next_unseen i)) as [Hlt|].
    + destruct (Hex s Hx ltac:(lia) Hp) as [?|[?|?]]; [by left; auto|by right; left; auto|lia].
    + destruct (decide (s < m)) as [|]; [|right; right; lia]. destruct (Hnote s ltac:(lia)); tauto.
Qed.

Lemma arb_raised i i' :
  arb_state nothing i -> arbiter i' = arbiter i -> reassembler i' = reassembler i -> seq_anchored i' = seq_anchored i ->
  next_unseen i <= next_unseen i' -> (forall s, missing_in (gap_handler i) s -> missing_in (gap_handler i') s) ->
  arb_state nothing i'.
Proof.
  intros [Hl Ha] E1 E2 E3 Hn Hm. split; [by rewrite E1|]. intros a Ea. rewrite E1 in Ea. destruct (Ha a Ea) as [Hc Hf Ht].
  split; rewrite ?E3; try done. intros Hs. destruct (Ht Hs) as [a0 [A1 A2 A3 A4]]. exists a0.
  split; unfold processed, expected in *; rewrite ?E2; try done.
  - intros s Hcs. specialize (A3 s Hcs). lia.
  - intros s Hs'. destruct (A4 s Hs') as [?|[?|[?|?]]]; auto.
Qed.

(** A jump staged with the arbiter. *)
Lemma arb_staged exact now m i a :
  core exact 0 0 i -> arbiter i = Some a -> seq_anchored i = true -> next_unseen i <= m ->
  let a' := AbArbiter.note_missing_range a (next_unseen i) m now in
  (forall s, AbArbiter.candidate a' s <-> AbArbiter.candidate a s \/ next_unseen i <= s < m) /\
  forall n, m <= n -> arb_state nothing (set_next_unseen n (set_arbiter (Some a') i)).
Proof.
  intros [[Hl Ha] _ _ Hb Hbuf _ _] Ea Han Hm a'. destruct (Ha a Ea) as [Hc Hf Ht]. destruct (Ht Han) as [a0 [A1 A2 A3 A4]].
  assert (Hfree : forall s, next_unseen i <= s < m -> ~ (a0 <= s /\ (processed i s \/ nothing s))).
  { intros s Hs [_ [[?|[v Hv]]|[]]]; [lia|]. apply Hbuf in Hv as [_ ?]. lia. }
  pose proof (fun s => AbArbiter.note_missing_candidates a _ _ _ now s A2 Hfree) as Hcand. fold a' in Hcand.
  split; [exact Hcand|]. intros n Hn. split; [intros HL; by rewrite (Hl HL) in Ea|].
  intros b [= <-]. split; [done|fields; congruence|]. intros _. exists a0. split; fields; [done|by apply AbArbiter.note_missing_tracks|..].
  - intros s [Hs|Hs]%Hcand; [specialize (A3 s Hs); lia|lia].
  - intros s Hs. destruct (A4 s Hs) as [?|[?|[?|?]]]; auto. right; right; left. apply Hcand. by left.
Qed.

(** What a datagram's header leaves alone; [q] is what it queues. *)
Definition queues (i j : Inner T F) : Prop :=
  Receiver.session j = Receiver.session i /\ seq_anchored j = seq_anchored i /\
  pending_datagrams j = pending_datagrams i /\ backing j = backing i /\
  inline_pending j = inline_pending i /\ current j = current i /\ recv_batch j = recv_batch i /\
  legs j = legs i /\ (is_Some (arbiter j) -> is_Some (arbiter i)) /\
  exists q, ready j = ready i ++ q /\ inlines q = 0 /\ forall sess d, Forall (item_ok sess d) q.

Lemma queues_gap i j :
  frame_same i (set_next_unseen (next_unseen i) j) -> (ready j = ready i \/ ready j = ready i ++ [GapItem]) -> queues i j.
Proof.
  unfold frame_same, queues. fields. intros (?&?&?&?&?&?&?&?&?&?) Hr. split_and!; try done.
  destruct Hr as [Hr|Hr]; [exists []|exists [GapItem]]; rewrite Hr, ?app_nil_r; split_and!; try done; by repeat constructor.
Qed.

Lemma note_jump_core exact h now i :
  core exact 0 0 i -> u64 (MoldWire.sequence h) -> 0 <= message_count h ->
  MoldWire.sequence h + message_count h + room < W64 -> seq_anchored i = true -> timed now i ->
  let j := note_jump h now i in
  core exact (MoldWire.sequence h) (MoldWire.sequence h + message_count h) j /\
  MoldWire.sequence h + message_count h <= next_unseen j /\ queues i j.
Proof using room_pos room_window.
  intros Hcore Hu Hc0 Hc Han Hnow j. subst j. unfold note_jump. pose proof Hcore as [Harb Hring Hg Hb Hbuf Hmis Hex].
  assert (Hsat : u64_saturating_add (MoldWire.sequence h) (message_count h) = MoldWire.sequence h + message_count h)
    by (unfold u64_saturating_add; lia).
  rewrite Hsat. unfold u64 in *. set (n := Z.max _ _).
  assert (Hn : next_unseen i <= n /\ MoldWire.sequence h + message_count h <= n /\ n + room < W64) by lia.
  destruct (MoldWire.sequence h >? next_unseen i) eqn:Egt; bool_facts.
  2: { split_and!; [|apply Hn|apply queues_gap; [by unfold frame_same|by left]].
       eapply core_weaken; [eapply (core_raised exact (next_unseen i) i); try done; fields; try lia; auto;
         eapply (arb_raised i); try done; fields; lia|done|]. fields. lia. }
  destruct (arbiter i) as [a|] eqn:Ea.
  - destruct Hnow as [t ->]; [by eexists|].
    destruct (arb_staged exact t (MoldWire.sequence h) i a Hcore Ea Han ltac:(lia)) as [Hcand Hst].
    split_and!; [|apply Hn|apply queues_gap; [|by left]; by unfold frame_same; rewrite Ea].
    eapply core_weaken; [eapply (core_raised exact (MoldWire.sequence h) i); try done; fields; try lia; auto;
      [apply Hst; lia|..]|done|fields; lia].
    + intros s (b & Eb & Hs). eexists. split; [done|]. apply Hcand. left. congruence.
    + intros s Hs. right. eexists. split; [done|]. apply Hcand. by right.
  - destruct (GapRequestHandler.record_missing_range_spec (gap_handler i) (next_unseen i) (MoldWire.sequence h) Hg)
      as [Hgw Hgm]; [unfold ring_ok, u64 in *; lia|lia|].
    split_and!; [|apply Hn|apply queues_gap; [by unfold frame_same|by right]].
    eapply core_weaken; [eapply (core_raised exact (MoldWire.sequence h) i); try done; fields; try lia|done|fields; lia].
    + eapply (arb_raised i); try done; fields; [lia|]. intros s Hs. apply Hgm. by left.
    + intros s. by rewrite Hgm.
    + intros s Hs. apply Hgm. by left.
    + intros s Hs. left. apply Hgm. by right.
Qed.

Lemma note_tail_gap_core exact e i :
  core exact 0 0 i -> u64 e -> e + room < W64 -> core exact 0 0 (note_tail_gap e i).
Proof using room_pos room_window.
  intros Hc Hu Hroom. pose proof Hc as [Harb Hring Hg Hb Hbuf Hmis Hex]. unfold note_tail_gap.
  destruct (e >? next_unseen i) eqn:Egt; [|done]. bool_facts. unfold u64 in *.
  destruct (GapRequestHandler.record_missing_range_spec (gap_handler i) (next_unseen i) e Hg)
    as [Hgw Hgm]; [unfold ring_ok, u64 in *; lia|lia|].
  eapply core_weaken; [eapply (core_raised exact e i); try done; fields; try lia|done|fields; lia].
  - eapply (arb_raised i); try done; fields; [lia|]. intros s Hs. apply Hgm. by left.
  - intros s. by rewrite Hgm.
  - intros s Hs. apply Hgm. by left.
  - intros s Hs. left. apply Hgm. by right.
Qed.

(** The receiver invariant. *)
Record sound (exact : Z -> Prop) i : Prop := {
  s_core : core exact 0 0 i;
  s_rx : Forall (fun p => P (as_ref p.2)) (pending_datagrams i);
  s_batch : Forall (fun f => P (as_ref f)) (frames (recv_batch i));
  s_items : Forall (item_ok (Receiver.session i) (backing_bytes (backing i))) (ready i);
  s_count : inline_pending i = inlines (option_list (current i) ++ ready i) /\ inline_pending i <= U16_MAX;
  s_fresh : seq_anchored i = false ->
    (forall s, pending_at (reassembler i) s = None) /\ (forall s, ~ missing_in (gap_handler i) s);
}.

(** Between polls: nothing is handed out and nothing queued. *)
Definition idle i : Prop := ready i = [] /\ current i = None.

(** The first header, or the configured start, sets the cursors and the arbiter's base. *)
Lemma anchor_core exact i s j :
  core exact 0 0 i -> u64 s -> s + room < W64 ->
  (forall q, pending_at (reassembler i) q = None) -> (forall q, ~ missing_in (gap_handler i) q) ->
  reassembler j = SequenceReassembler.reset_expected (reassembler i) s -> next_unseen j = s ->
  gap_handler j = gap_handler i -> arbiter j = (fun a => AbArbiter.rebase a s) <$> arbiter i -> seq_anchored j = true ->
  core exact 0 0 j.
Proof using room_window.
  intros [[Hl Ha] [Hw He] Hg Hb Hbuf Hmis Hex] Hu Hs Hn Hm E1 E2 E3 E4 E5.
  assert (Hp : forall q, pending_at (reassembler j) q = None) by (rewrite E1; exact Hn).
  assert (Hej : expected j = s) by (unfold expected; by rewrite E1).
  split; unfold ring_ok, u64 in *; rewrite ?E2, ?E3, ?Hej; try done; [|rewrite E1; split; [by apply SequenceReassembler.reset_wf|done]|..].
  - split; rewrite E4; [intros HL; by rewrite (Hl HL)|]. intros b Eb. apply fmap_Some in Eb as (a & Ea & ->).
    destruct (Ha a Ea) as [Hc _ _]. assert (Hcap : AbArbiter.capacity (AbArbiter.rebase a s) = CAP)
      by (rewrite <- Hc; unfold AbArbiter.capacity, len; simpl; by rewrite length_replicate).
    assert (Hroom : CAP <= room) by (destruct room_window as [HL|?]; [by rewrite (Hl HL) in Ea|done]).
    split; [done|congruence|]. intros _. exists s. split; [rewrite Hej; simpl; lia| | |simpl; lia].
    + eapply AbArbiter.tracks_ext; [|apply (AbArbiter.rebase_tracks a s); rewrite ?Hc; [done|lia|lia]].
      intros q. cbn. unfold nothing, processed. rewrite Hej, Hp. split; [done|]. intros [? [[?|[? ?]]|[]]]; [lia|done].
    + intros q [x Hx]. cbn in Hx. by rewrite lookup_empty in Hx.
  - intros q v Hq. by rewrite Hp in Hq.
  - intros q Hq. by apply Hm in Hq.
  - lia.
Qed.

(** Locking the session changes nothing that is buffered: nothing is. *)
Lemma session_core exact i s :
  core exact 0 0 i -> Receiver.session i = None -> core exact 0 0 (set_session (Some s) i).
Proof.
  intros [[Hl Ha] Hr Hg Hb Hbuf Hmis Hex] Hs. split; try done.
  { split; [done|]. intros a Ea. by eapply arb_ok_same; [by apply Ha|..]. }
  intros q v Hq. apply Hbuf in Hq as [[_ (h & bl & _ & Hx & _)] _]. congruence.
Qed.

Lemma accept_header_sound exact h i out i' :
  sound exact i -> idle i -> u64 (MoldWire.sequence h) -> MoldWire.sequence h + room < W64 -> accept_header h i = (out, i') ->
  sound exact i' /\ idle i' /\ (is_Some (arbiter i') -> is_Some (arbiter i)) /\
  match out with
  | Ok _ => Receiver.session i' = Some (MoldWire.session h) /\ seq_anchored i' = true
  | Err e => i' = i /\ exists x y, e = SessionMismatch x y
  | Panic => False
  end.
Proof using room_window.
  intros Hs [Hr Hcur] Hu Hroom E. unfold accept_header in E.
  assert (Hanchor : forall j, sound exact j -> idle j -> Receiver.session j = Some (MoldWire.session h) -> arbiter j = arbiter i ->
    let k := if seq_anchored j then j else
      set_seq_anchored true (match arbiter j with Some a => set_arbiter (Some (AbArbiter.rebase a (MoldWire.sequence h))) | None => id end
        (set_next_unseen (MoldWire.sequence h) (set_reassembler (SequenceReassembler.reset_expected (reassembler j) (MoldWire.sequence h)) j))) in
    sound exact k /\ idle k /\ (is_Some (arbiter k) -> is_Some (arbiter i)) /\
    Receiver.session k = Some (MoldWire.session h) /\ seq_anchored k = true).
  { intros j Hj Hi Hse Harb. cbv zeta. destruct (seq_anchored j) eqn:Ea; [rewrite Harb; by split_and!|].
    destruct Hj as [Hc ? ? ? ? Hf], Hi. destruct (Hf Ea) as [Hn Hm].
    set (k := set_seq_anchored true _).
    assert (Hk : core exact 0 0 k) by (eapply (anchor_core _ j (MoldWire.sequence h)); try done; subst k; destruct (arbiter j) eqn:Eb; fields; rewrite ?Eb; done).
    assert (Hko : arbiter k = (fun a => AbArbiter.rebase a (MoldWire.sequence h)) <$> arbiter i)
      by (rewrite <- Harb; subst k; destruct (arbiter j) eqn:Eb; fields; by rewrite ?Eb).
    split; [|split; [|split; [rewrite Hko; by destruct (arbiter i)|]]]; try (subst k; by destruct (arbiter j)).
    }
  destruct (Receiver.session i) as [e|] eqn:Ese.
  - case_decide as Hd; simplify_eq; [split_and!; try done; by do 2 eexists|].
    specialize (Hanchor i Hs ltac:(done) ltac:(done) eq_refl). cbv zeta in Hanchor. revert Hanchor.
    destruct (seq_anchored i); [done|]. fields. by destruct (arbiter i).
  - simplify_eq. assert (Hj : sound exact (set_session (Some (MoldWire.session h)) i)).
    { destruct Hs. split; try done; [by apply session_core|]. fields. rewrite Hr. constructor. }
    specialize (Hanchor _ Hj ltac:(done) ltac:(done) eq_refl). cbv zeta in Hanchor. revert Hanchor. fields.
    destruct (seq_anchored i); [done|]. fields. by destruct (arbiter i).
Qed.

Definition is_full (out : res MoldUdpError unit) : Prop :=
  match out with Err (ReassemblyBufferFull _) => True | _ => False end.

(** Blocks of an accepted packet: consecutive from the header's sequence, as many
    as it announces. *)
Lemma packet_blocks_shape sess h d blocks :
  parse_header d = Ok h -> sess = Some (MoldWire.session h) -> header_kind h = KData ->
  MoldWire.sequence h + message_count h < W64 -> packet_blocks h d = Ok blocks ->
  len blocks = message_count h /\
  forall k s off n, blocks !! k = Some (s, off, n) ->
    s = MoldWire.sequence h + Z.of_nat k /\ block_of sess d s off n.
Proof.
  intros Hh Hsess Hkind Hc Hb. destruct (parse_header_range _ _ Hh) as [Hu H16]. unfold u64, u16 in *.
  assert (Hl : len blocks = message_count h).
  { eapply collect_blocks_count in Hb; cbn [header_blocks block_iter blocks_left truncated] in *;
      [exact Hb|lia|lia|done]. }
  split; [done|]. intros k s off n Hk. split.
  - pose proof (lookup_lt_Some _ _ _ Hk). unfold packet_blocks in Hb.
    eapply collect_blocks_seqs in Hk; [|exact Hu|exact Hb].
    rewrite Hk. apply Z.mod_small. unfold len in *. lia.
  - exists h, blocks. split_and!; try done. by eapply list_elem_of_lookup_2.
Qed.

(** Without inline items, the backing does not matter. *)
Lemma items_rebase sess d d' q :
  Forall (item_ok sess d) q -> inlines q = 0 -> Forall (item_ok sess d') q.
Proof.
  intros Hf Hi0. apply Forall_forall. intros it Hin. rewrite Forall_forall in Hf. specialize (Hf it Hin).
  destruct it as [s id off n| | |]; try done. exfalso.
  assert (Hx : Inline s id off n ∈ filter is_inline q) by (by apply list_elem_of_filter).
  unfold inlines, len in Hi0. destruct (filter is_inline q); [by apply elem_of_nil in Hx|simpl in Hi0; lia].
Qed.

(** A reported overflow costs one leg its gap set; with several nothing is claimed past it. *)
Definition claimed (out : res MoldUdpError unit) : Prop := lone \/ ~ is_full out.

(** The block loop run to its end from an idle receiver. *)
Lemma take_blocks_done exact stream d h now i blocks out k held inline :
  sound exact i -> idle i -> P (as_ref d) -> parse_header (as_ref d) = Ok h ->
  header_kind h = KData -> Receiver.session i = Some (MoldWire.session h) -> seq_anchored i = true -> timed now i ->
  packet_blocks h (as_ref d) = Ok blocks ->
  take_blocks stream now blocks (note_jump h now i) (Owned d) 0 = (out, k, held, inline) ->
  out <> Panic /\ (claimed out -> core (unless (is_full out) exact) 0 0 k /\
  inlines (ready k) = inline /\ inline <= U16_MAX /\ (out <> Ok tt -> inline = 0) /\
  current k = None /\ inline_pending k = 0 /\ pending_datagrams k = pending_datagrams i /\
  recv_batch k = recv_batch i /\ seq_anchored k = seq_anchored i /\ backing_bytes held = as_ref d /\
  Forall (item_ok (Receiver.session k) (as_ref d)) (ready k)).
Proof using P_range room_pos room_window.
  intros [Hc Hrx Hbat Hit [Hcnt _] Hfr] [Hr Hcur] HP Hh Hk Hsess Han Hnow Hblk E.
  pose proof (P_range _ HP _ Hh) as Hrng. destruct (parse_header_range _ _ Hh) as [Hu H16]. unfold u64, u16 in *.
  destruct (packet_blocks_shape _ _ _ _ Hh Hsess Hk ltac:(lia) Hblk) as [Hlen Hbl].
  destruct (note_jump_core exact h now i Hc Hu ltac:(lia) Hrng Han Hnow)
    as (Hcj & Hnx & (Hsj & Haj & Hpj & Hbj & Hij & Hcuj & Hbatj & _ & Harj & q0 & Hq0 & Hiq0 & Hokq0)).
  set (j := note_jump h now i) in *.
  assert (Hm : mid exact (MoldWire.sequence h) (MoldWire.sequence h + message_count h) (as_ref d) j j (Owned d) 0 [])
    by (split; try done; by rewrite ?app_nil_r).
  rewrite <- Hsj in Hbl. rewrite <- Hlen in Hm, Hnx.
  destruct (take_blocks_mid _ _ _ _ _ _ _ _ _ _ _ _ _ _ _ _ Hm HP Hbl ltac:(lia) eq_refl Hnx ltac:(congruence)
    ltac:(unfold timed in *; auto) E) as (Hle & q & Hout).
  split; [by destruct Hout as [[-> _]|[[c ->] _]]|]. intros Hcl.
  assert (Hfin : exists x, (forall s, unless (is_full out) exact s -> x s) /\ (out <> Ok tt -> inline = 0) /\
    mid x (MoldWire.sequence h + len blocks) (MoldWire.sequence h + len blocks) (as_ref d) j k held inline q).
  { destruct Hout as [[-> Hmk]|([c ->] & Hmk)]; [eexists; (split_and!; [|done|exact Hmk]); weaker|].
    destruct Hcl as [HL|Hnf]; [|by destruct Hnf]. destruct (Hmk HL) as [-> Hmk'].
    eexists; (split_and!; [|done|exact Hmk']); weaker. }
  destruct Hfin as (x & Hx & Hinl & [Hck (Es & En & El & Ecu & Ep & Ebk & Ein & Ean & Ebt & _) Hhd Hrd Hqi Hic _]).
  rewrite Hrd, Hq0, Hr, !inlines_app, Hiq0, Hic, Ecu, Hcuj, Ein, Hij, Hcnt, Hcur, Hr, Ep, Hpj, Ebt, Hbatj, Ean, Haj, Hhd, Es.
  split_and!; try done; [eapply core_weaken; [exact Hck|done|lia]|lia|]. by apply Forall_app.
Qed.

Lemma process_data_sound exact stream d h now i out i' :
  sound exact i -> idle i -> P (as_ref d) -> parse_header (as_ref d) = Ok h ->
  header_kind h = KData -> Receiver.session i = Some (MoldWire.session h) -> seq_anchored i = true -> timed now i ->
  process_data stream d h now i = (out, i') ->
  out <> Panic /\ (claimed out -> sound (unless (is_full out) exact) i' /\ current i' = None).
Proof using P_range room_pos room_window.
  intros Hs Hidle HP Hh Hk Hsess Hanch Hnow E. unfold process_data in E.
  destruct (packet_blocks h (as_ref d)) as [blocks|e|] eqn:Eb; [| |by apply collect_blocks_no_panic in Eb].
  2: { simplify_eq. destruct Hidle. split_and!; try done. intros _. split; [|done]. destruct Hs. split; try done.
       eapply core_weaken; [done|weaker|done]. }
  destruct (take_blocks _ _ _ _ _ _) as [[[o k] held] inline] eqn:Et.
  destruct (take_blocks_done _ _ _ _ _ _ _ _ _ _ _ Hs Hidle HP Hh Hk Hsess Hanch Hnow Eb Et) as (Hnp & Hdone).
  assert (Ho : out = o) by (destruct o as [[]| |]; by simplify_eq). split; [by subst|]. intros Hcl. rewrite Ho in Hcl |- *.
  destruct (Hdone Hcl) as (Hck & Hik & Hle & Hz & Hcuk & Hipk & Hpk & Hbk & Hak & Hhk & Hok).
  destruct Hs as [_ Hrx Hbat _ _ _]. rewrite Hanch in Hak.
  assert (Hquiet : inline = 0 -> sound (unless (is_full o) exact) k).
  { intros H0i. split; rewrite ?Hpk, ?Hbk, ?Hak, ?Hcuk, ?Hipk; try done; [eapply items_rebase; [done|lia]|].
    simpl. split; [congruence|lia]. }
  destruct o as [[]|e|]; simplify_eq.
  - split; [|by destruct (_ >? _)].
    destruct (inlines (ready k) >? 0) eqn:Ei; bool_facts.
    + split; fields; rewrite ?Hpk, ?Hbk, ?Hak, ?Hcuk, ?Hhk; try done. eapply core_same; [exact Hck|done..].
    + apply Hquiet. pose proof (len_nonneg (filter is_inline (ready k))). unfold inlines in *. lia.
  - split; [|done]. apply Hquiet. by apply Hz.
Qed.

Lemma sound_weaken (exact exact' : Z -> Prop) i : sound exact i -> (forall s, exact' s -> exact s) -> sound exact' i.
Proof. intros [Hc ? ? ? ? ?] Hx. split; try done. by eapply core_weaken; [|exact Hx|]. Qed.

(** A heartbeat or end of session: the tail gap, then the event. *)
Lemma control_sound exact e ev i :
  sound exact i -> idle i -> seq_anchored i = true -> u64 e -> e + room < W64 ->
  sound exact (push_ready (Event ev) (note_tail_gap e i)).
Proof using room_pos room_window.
  intros [Hc ? ? Hi [Hcnt Hle] Hf] [Hr Hcur] Ha Hu Hroom.
  pose proof (note_tail_gap_core _ e _ Hc Hu Hroom) as Hc'. revert Hc'.
  unfold note_tail_gap. destruct (e >? next_unseen i); intros Hc';
    split; fields; try done; rewrite ?Hr, ?Hcur in *; simpl in *;
    try (by eapply core_same; [exact Hc'|done..]); try (by repeat constructor); congruence.
Qed.

Lemma process_datagram_sound exact stream d now i out i' :
  sound exact i -> idle i -> P (as_ref d) -> timed now i -> process_datagram stream d now i = (out, i') ->
  out <> Panic /\ (claimed out -> sound (unless (is_full out) exact) i' /\ current i' = None).
Proof using P_range room_pos room_window.
  intros Hs Hidle HP Hnow E. unfold process_datagram in E.
  assert (Hkeep : forall o, o <> Panic -> o <> Panic /\ (claimed o -> sound (unless (is_full o) exact) i /\ current i = None)).
  { intros o Ho. destruct Hidle. split; [done|]. intros _. split; [|done]. eapply sound_weaken; [exact Hs|weaker]. }
  destruct (parse_header (as_ref d)) as [h|e|] eqn:Eh; [|simplify_eq; by apply Hkeep|].
  2: { exfalso. clear -Eh. unfold parse_header in Eh. repeat case_on;
       repeat match goal with H : ok_or ?o _ = Panic |- _ => destruct o; simplify_eq/= end. }
  destruct (parse_header_range _ _ Eh) as [Hu Hu16].
  assert (Hroom : MoldWire.sequence h + room < W64) by (pose proof (P_range _ HP _ Eh); unfold u16 in *; lia).
  destruct (accept_header h i) as [o j] eqn:Ea.
  destruct (accept_header_sound _ _ _ _ _ Hs Hidle Hu Hroom Ea) as (Hj & Hidj & Harb & Ho).
  destruct o as [[]|e|]; [|destruct Ho as [-> _]; simplify_eq; by apply Hkeep|done].
  destruct Ho as [Hsess Hanch].
  assert (Hctl : forall ev, sound (unless (is_full (Ok tt)) exact) (push_ready (Event ev) (note_tail_gap (MoldWire.sequence h) j)) /\
                            current (push_ready (Event ev) (note_tail_gap (MoldWire.sequence h) j)) = None).
  { intros ev. split; [eapply sound_weaken; [by apply control_sound|weaker]|].
    unfold note_tail_gap. destruct Hidj. by destruct (_ >? _). }
  destruct (header_kind h) eqn:Ek; [simplify_eq; split; [done|by intros _]..|].
  eapply process_data_sound; try done. unfold timed in *. auto.
Qed.

(** ** The confirmed gaps *)

(** Confirming a list of candidates records each, and queues an item for each. *)
Lemma record_confirmed_all l i :
  GapRequestHandler.wf (gap_handler i) -> (forall s, s ∈ l -> 0 <= s /\ s + 1 < W64) ->
  exists g, foldl record_confirmed i l = set_ready (ready i ++ replicate (length l) GapItem) (set_gap_handler g i) /\
    GapRequestHandler.wf g /\ forall s, missing_in g s <-> missing_in (gap_handler i) s \/ s ∈ l.
Proof.
  revert i. induction l as [|x l IH]; intros i Hg Hl; cbn [foldl].
  { exists (gap_handler i). destruct i. cbn. rewrite app_nil_r. split_and!; try done. intros s. rewrite elem_of_nil. tauto. }
  destruct (Hl x ltac:(by left)) as [Hx0 Hx1].
  assert (Hadd : u64_add x 1 = x + 1) by (unfold u64_add; apply Z.mod_small; lia).
  destruct (GapRequestHandler.record_missing_range_spec (gap_handler i) x (x + 1) Hg Hx0 Hx1) as [Hgx Hmx].
  assert (Hgi : gap_handler (record_confirmed i x) = GapRequestHandler.record_missing_range (gap_handler i) x (x + 1))
    by (unfold record_confirmed, GapRequestHandler.record_gap; fields; by rewrite Hadd).
  destruct (IH (record_confirmed i x)) as (g & Eg & Hg' & Hm'); [by rewrite Hgi|intros s Hs; apply Hl; by right|].
  exists g. split_and!; [|done|].
  - rewrite Eg. unfold record_confirmed. fields. by rewrite <- app_assoc.
  - intros s. rewrite Hm', Hgi, Hmx, elem_of_cons. assert (x <= s < x + 1 <-> s = x) as -> by lia. tauto.
Qed.

(** A candidate is a hole below the highest sequence seen. *)
Lemma candidate_hole exact lo hi i a s :
  core exact lo hi i -> arbiter i = Some a -> AbArbiter.candidate a s ->
  expected i <= s < next_unseen i /\ pending_at (reassembler i) s = None /\ seq_anchored i = true.
Proof using.
  clear room_window room_pos. intros [[Hl Ha] _ _ Hb Hbuf _ _] Ea Hs. destruct (Ha a Ea) as [Hc Hf Ht].
  destruct (seq_anchored i) eqn:Ean; [|by destruct (Hf eq_refl s)]. destruct (Ht eq_refl) as [a0 [A1 A2 A3 A4]].
  pose proof (A3 s Hs) as Hr. destruct A2 as (_ & _ & _ & _ & HD).
  assert (Hn : ~ processed i s).
  { intros Hp. destruct (HD s) as [Hx _]; [split; [lia|by left]|]. destruct Hs as [x Hx']. congruence. }
  unfold processed in Hn. split_and!; [|lia| |done].
  - destruct (decide (s < expected i)); [tauto|lia].
  - destruct (pending_at (reassembler i) s) eqn:Ep; [|done]. destruct Hn. right. by eexists.
Qed.

Lemma drain_confirmed_core exact now i g l a a' :
  core exact 0 0 i -> arbiter i = Some a -> AbArbiter.confirmed_gaps a now = (l, a') ->
  GapRequestHandler.wf g -> (forall s, missing_in g s <-> missing_in (gap_handler i) s \/ s ∈ l) ->
  core exact 0 0 (set_gap_handler g (set_arbiter (Some a') i)).
Proof.
  intros Hcore Ea E Hg Hm. pose proof Hcore as [[Hl Ha] Hr _ Hb Hbuf Hmis Hex].
  destruct (AbArbiter.confirmed_gaps_spec _ _ _ _ E) as (_ & _ & Hin & Hpd & Hbase & Hbits).
  assert (Hcand : forall s, AbArbiter.candidate a' s <-> AbArbiter.candidate a s /\ s ∉ l).
  { intros s. unfold AbArbiter.candidate. rewrite Hpd. case_decide; [split; [by intros []|tauto]|tauto]. }
  assert (Hhole : forall s, s ∈ l -> expected i <= s < next_unseen i /\ pending_at (reassembler i) s = None).
  { intros s Hs. destruct (candidate_hole _ _ _ _ _ s Hcore Ea) as (? & ? & _); [|done].
    apply Hin in Hs as (t & Ht & _). by eexists. }
  split; try done.
  - split; [intros HL; by rewrite (Hl HL) in Ea|]. intros b [= <-]. destruct (Ha a Ea) as [Hc Hf Ht].
    split; fields; [by unfold AbArbiter.capacity in *; rewrite Hbits|intros Hn s [Hs _]%Hcand; by apply (Hf Hn s)|].
    intros Hs. destruct (Ht Hs) as [a0 [A1 A2 A3 A4]]. exists a0. split; fields; rewrite ?Hbase; [done|by eapply AbArbiter.confirmed_gaps_tracks|..].
    + intros s [Hc' _]%Hcand. by apply A3.
    + intros s Hs'. rewrite Hm, Hcand. change (processed _ s) with (processed i s). destruct (decide (s ∈ l)); destruct (A4 s Hs'); tauto.
  - fields. intros s [Hs|Hs]%Hm; [by apply Hmis|by apply Hhole].
  - intros s Hx Hs Hp. unfold expected, held_back in *. fields. rewrite Hm. destruct (decide (s ∈ l)); [left; by right|].
    destruct (Hex s Hx Hs Hp) as [?|[(b & Eb & Hc)|?]]; [left; by left| |by right; right].
    right; left. exists a'. split; [done|]. apply Hcand. split; [congruence|done].
Qed.

Lemma drain_confirmed_sound exact now i :
  sound exact i -> current i = None -> sound exact (drain_confirmed_gaps now i) /\ current (drain_confirmed_gaps now i) = None /\
  legs (drain_confirmed_gaps now i) = legs i.
Proof using room_pos room_window.
  intros Hs Hcur. unfold drain_confirmed_gaps. destruct (arbiter i) as [a|] eqn:Ea; [|done].
  destruct (AbArbiter.confirmed_gaps a now) as [l a'] eqn:E. pose proof Hs as [Hc Hrx Hb Hi [Hcnt Hle] Hf].
  destruct (AbArbiter.confirmed_gaps_spec _ _ _ _ E) as (_ & _ & Hin & _).
  assert (Hhole : forall s, s ∈ l -> expected i <= s < next_unseen i /\ seq_anchored i = true).
  { intros s (t & Ht & _)%Hin. destruct (candidate_hole _ _ _ _ _ s Hc Ea) as (? & _ & ?); [by eexists|done]. }
  pose proof (c_bounds _ _ _ _ _ Hc) as Hbd. pose proof (c_ring _ _ _ _ _ Hc) as [_ Hu].
  destruct (record_confirmed_all l (set_arbiter (Some a') i)) as (g & -> & Hg & Hm).
  { apply (c_gap _ _ _ _ _ Hc). }
  { intros s Hs'. destruct (Hhole s Hs') as [? _]. unfold u64 in *. lia. }
  split; [|done]. assert (Hz : inlines (F := F) (replicate (length l) GapItem) = 0) by (clear; induction (length l); [done|]; by cbn).
  split; fields; try done.
  - eapply core_same; [by eapply (drain_confirmed_core _ now i g l a a')|done..].
  - apply Forall_app. split; [done|]. by apply Forall_replicate.
  - rewrite app_assoc, inlines_app, Hz, Z.add_0_r. done.
  - intros Ean. destruct (Hf Ean) as [Hn Hnm]. split; [done|]. intros s [Hs'|Hs']%Hm; [by apply (Hnm s)|].
    destruct (Hhole s Hs') as [_ ?]. congruence.
Qed.

(** ** Legs, recovery, [pump] and [poll] *)

(** Rebuilds the invariant after writing a field it only reads through. *)
Ltac resplit Hs :=
  destruct Hs; split; fields; try done; eapply core_same; [eassumption|done..].

(** Every frame a leg delivers satisfies [P]; [leg_ok] is what that depends on. *)
Variable leg_ok : T -> Prop.
Hypothesis leg_emits : forall fuel t b out t' b',
  leg_ok t -> Forall (fun f => P (as_ref f)) (frames b) -> recv_burst fuel t b = Some (out, t', b') ->
  out <> Panic /\ leg_ok t' /\ Forall (fun f => P (as_ref f)) (frames b').

Lemma poll_legs_loop_sound exact fuel stream done todo landed i out i' :
  sound exact i -> current i = None -> Forall leg_ok done -> Forall leg_ok todo ->
  poll_legs_loop fuel stream done todo landed i = Some (out, i') ->
  out <> Panic /\ sound exact i' /\ current i' = None /\ Forall leg_ok (legs i').
Proof.
  revert stream done landed i. induction todo as [|leg todo IH]; intros stream done landed i Hs Hcur Hd Ht E;
    cbn [poll_legs_loop] in E.
  { simplify_eq. split_and!; try done. resplit Hs. }
  apply Forall_cons in Ht as [Hl Ht].
  destruct (stream >? U8_MAX).
  { simplify_eq. split_and!; try done; [resplit Hs|]. fields. apply Forall_app. by repeat constructor. }
  destruct (recv_burst fuel leg (recv_batch i)) as [[[o leg'] b]|] eqn:Er; [|done].
  destruct (leg_emits _ _ _ _ _ _ Hl (s_batch _ _ Hs) Er) as (Hnp & Hl' & Hb).
  assert (Hs' : sound exact (set_recv_batch b i)) by resplit Hs.
  assert (Hd' : Forall leg_ok (done ++ [leg'])) by (apply Forall_app; by repeat constructor).
  destruct o as [n|e|]; [|simplify_eq|done].
  - destruct (n =? 0); [by eapply IH in E|]. unfold FrameBatch.drain in E. fields.
    eapply IH in E; try done. destruct Hs' as [Hc Hrx ? ? ? ?]. split; fields; try done.
    + eapply core_same; [exact Hc|done..].
    + apply Forall_app. split; [done|]. apply Forall_fmap. eapply Forall_impl; [exact Hb|done].
  - split_and!; try done; [resplit Hs'|]. fields. apply Forall_app. by repeat constructor.
Qed.

Section recovery.
Context {R : Type} `{Recovery R}.
Variable rec_ok : R -> Prop.
Hypothesis rec_emits : forall fuel r out copies r',
  rec_ok r -> recovery_poll fuel r = Some (out, copies, r') -> out <> Panic /\ rec_ok r' /\ Forall P copies.
Hypothesis rec_sends : forall r clk s g r' clk',
  rec_ok r -> send_due r clk s g = (r', clk') -> rec_ok r'.

(** What [pump] keeps: the invariant, complete unless it reports an overflow. *)
Definition pump_ok (exact : Z -> Prop) (out : res MoldUdpError unit) i (r : R) : Prop :=
  out <> Panic /\ (claimed out -> sound (unless (is_full out) exact) i /\ current i = None) /\
  Forall leg_ok (legs i) /\ rec_ok r.

Lemma claimed_ok : claimed (Ok tt).
Proof. unfold claimed. right. intros []. Qed.

Lemma process_next_same_legs now i out i' : process_next_pending now i = (out, i') -> legs i' = legs i.
Proof.
  unfold process_next_pending. intros E. destruct (pending_datagrams i) as [|[st d] rest]; [by simplify_eq|].
  unfold process_datagram in E. destruct (parse_header _) as [h| |]; simplify_eq; try done.
  destruct (accept_header h _) as [o j] eqn:Ea.
  assert (Hj : legs j = legs i) by (unfold accept_header in Ea; repeat case_match; simplify_eq; done).
  destruct o; simplify_eq; try done. destruct (header_kind h); simplify_eq.
  - unfold note_tail_gap. by destruct (_ >? _).
  - unfold note_tail_gap. by destruct (_ >? _).
  - apply process_data_anchored in E as (_ & _ & ->). done.
Qed.

Lemma pump_sound exact fuel i r clk out i' r' clk' :
  pump_ok exact (Ok tt) i r -> pump fuel i r clk = Some (out, i', r', clk') -> pump_ok exact out i' r'.
Proof using P_range leg_emits rec_emits rec_sends room_pos room_window.
  apply (pump_inv (pump_ok exact)).
  - intros f j q o j' (_ & Hsc & Hl & Hq) _ _ E. destruct (Hsc claimed_ok) as [Hs Hc].
    destruct (poll_legs_loop_sound _ _ _ _ _ _ _ _ _ Hs Hc (Forall_nil_2 _) Hl E) as (Hn & Hs' & Hc' & Hl').
    split_and!; try done; [by destruct o|]. intros _. split; [|done]. eapply sound_weaken; [exact Hs'|weaker].
  - intros f j q o copies q' (_ & Hsc & Hl & Hq) E. destruct (Hsc claimed_ok) as [Hs Hc].
    destruct (rec_emits _ _ _ _ _ Hq E) as (Hn & Hq' & Hp). split_and!; try done; [by destruct o|]. intros _. split; [|done].
    eapply (sound_weaken (unless (is_full (Ok tt)) exact)); [|weaker].
    destruct Hs as [Hcore Hrx ? ? ? ?]. split; unfold with_copies; fields; try done;
      [eapply core_same; [exact Hcore|done..]|].
    apply Forall_app. split; [done|]. apply Forall_fmap. eapply Forall_impl; [exact Hp|done].
  - intros now j q o j' (_ & Hsc & Hl & Hq) Hr Hnow E. destruct (Hsc claimed_ok) as [Hs Hc].
    pose proof (process_next_same_legs _ _ _ _ E) as Hlegs. unfold process_next_pending in E.
    destruct (pending_datagrams j) as [|[st d] rest] eqn:Ep; [by simplify_eq|].
    pose proof (s_rx _ _ Hs) as Hrx. rewrite Ep in Hrx. apply Forall_cons in Hrx as [Hd Hrest].
    assert (Hs1 : sound (unless (is_full (Ok tt)) exact) (set_pending_datagrams rest j)) by resplit Hs.
    destruct (process_datagram_sound _ _ _ now _ _ _ Hs1 ltac:(done) Hd ltac:(by intros ?; apply Hnow) E) as (? & Hs').
    rewrite <- Hlegs in Hl. split_and!; try done. intros Hcl. destruct (Hs' Hcl) as [Hs2 Hc2]. split; [|done].
    eapply sound_weaken; [exact Hs2|weaker].
  - intros now j q (Hn & Hsc & Hl & Hq). destruct (Hsc claimed_ok) as [Hs Hc].
    destruct (drain_confirmed_sound _ now _ Hs Hc) as (? & ? & El). split_and!; try done. by rewrite El.
  - intros j q c s q' c' (? & ? & ? & Hq) E. split_and!; try done. by eapply rec_sends.
Qed.

Definition full_out (out : res MoldUdpError (option (MoldUdpOutcome F))) : Prop :=
  match out with Err (ReassemblyBufferFull _) => True | _ => False end.

(** What one call may return. *)
Definition out_ok (sess : option (list byte)) (out : res MoldUdpError (option (MoldUdpOutcome F))) : Prop :=
  match out with
  | Panic => False
  | Ok (Some (OFrame f)) => authentic P sess (f_sequence f) (payload f)
  | Ok (Some (OOwned f)) => exists m, view_as_ref (view f) = Ok m /\ authentic P sess (of_sequence f) m
  | _ => True
  end.

Definition poll_ok (exact : Z -> Prop) i (r : R) : Prop :=
  sound exact i /\ Forall leg_ok (legs i) /\ rec_ok r.

Lemma retire_sound exact i : sound exact i -> sound exact (retire_current i) /\ current (retire_current i) = None.
Proof.
  intros [Hc Hrx Hb Hi [Hcnt Hle] Hf]. unfold retire_current.
  assert (Hplain : inlines (option_list (current i)) = 0 -> sound exact (set_current None i)).
  { intros H0i. rewrite inlines_app, H0i in Hcnt. split; fields; try done. eapply core_same; [exact Hc|done..]. }
  destruct (current i) as [[s id off n|v s id|ev|]|] eqn:Ecur; try (split; [by apply Hplain|done]).
  rewrite inlines_app in Hcnt. unfold release_inline. fields.
  change (inlines (option_list (Some (Inline s id off n)))) with 1 in Hcnt.
  pose proof (len_nonneg (filter is_inline (ready i))) as Hge. fold (inlines (ready i)) in Hge.
  assert (Hsub : u64_sub (inline_pending i) 1 = inlines (ready i)).
  { unfold u64_sub. rewrite Hcnt, Z.mod_small; lia. }
  rewrite Hsub. destruct (inlines (ready i) =? 0) eqn:E0; bool_facts; (split; [|done]);
    (split; fields; try done; [eapply core_same; [exact Hc|done..]|..]); simpl; try (split; [done|lia]).
  by eapply items_rebase.
Qed.

(** Handing out the head of the queue keeps the invariant; what is handed out is authentic. *)
Definition yields_sound (yield : ReadyItem F -> Inner T F -> res MoldUdpError (MoldUdpOutcome F) * Inner T F) : Prop :=
  forall exact i item rest out i',
  sound exact i -> current i = None -> ready i = item :: rest -> yield item (set_ready rest i) = (out, i') ->
  sound exact i' /\ legs i' = legs i /\ Receiver.session i' = Receiver.session i /\
  out_ok (Receiver.session i') (let* o := out in Ok (Some o)) /\ ~ full_out (let* o := out in Ok (Some o)).

Lemma view_authentic sess v s : view_ok sess v s -> exists m, view_as_ref v = Ok m /\ authentic P sess s m.
Proof.
  intros [HP Hbl]. destruct (block_of_range _ _ _ _ _ Hbl) as [m Hm]. exists m. unfold view_as_ref, index_range. rewrite Hm.
  split; [done|]. by exists (as_ref (view_datagram v)), (view_offset v), (view_len v).
Qed.

Lemma yield_sound : yields_sound yield_item.
Proof.
  intros exact i item rest out i' [Hc Hrx Hb Hi [Hcnt Hle] Hf] Hcur Hr E. unfold yield_item in E. fields. simplify_eq.
  rewrite Hr in Hi. apply Forall_cons in Hi as [Hit Hi]. rewrite Hcur, Hr in Hcnt. split_and!; [|done|done|..].
  - split; fields; try done. eapply core_same; [exact Hc|done..].
  - destruct item as [s id off n|v s id|ev|]; try done.
    + destruct Hit as [HP Hbl]. destruct (block_of_range _ _ _ _ _ Hbl) as [m Hm].
      unfold index_range. rewrite Hm. exists (backing_bytes (backing i)), off, n. done.
    + by destruct (view_authentic _ _ _ Hit) as (m & -> & ?).
  - destruct item as [s id off n|v s id|ev|]; try by intros [].
    + unfold index_range. destruct (get_range _ _ _); intros [].
    + unfold view_as_ref, index_range. destruct (get_range _ _ _); intros [].
Qed.

(** Letting go of an inline item of the shared or owned backing. *)
Lemma release_sound exact i :
  sound exact (set_inline_pending (inlines (ready i)) i) -> inline_pending i = inlines (ready i) + 1 -> current i = None ->
  inlines (ready i) <= U16_MAX -> sound exact (release_inline i).
Proof.
  intros [Hc Hrx Hb Hi _ Hf] Hp Hcur Hle. unfold release_inline. fields.
  pose proof (len_nonneg (filter is_inline (ready i))) as Hge. fold (inlines (ready i)) in Hge.
  assert (Hsub : u64_sub (inline_pending i) 1 = inlines (ready i)) by (unfold u64_sub; rewrite Hp, Z.mod_small; lia).
  rewrite Hsub. destruct (inlines (ready i) =? 0) eqn:E0; bool_facts;
    (split; fields; try done; try (eapply core_same; [exact Hc|done..])); rewrite ?Hcur; simpl; try (split; [done|lia]).
  by eapply items_rebase.
Qed.

Lemma yield_owned_sound : yields_sound yield_owned.
Proof.
  intros exact i item rest out i' [Hc Hrx Hb Hi [Hcnt Hle] Hf] Hcur Hr E.
  rewrite Hr in Hi. apply Forall_cons in Hi as [Hit Hi]. rewrite Hcur, Hr in Hcnt.
  change (inlines (option_list None ++ item :: rest)) with (inlines ([item] ++ rest)) in Hcnt. rewrite inlines_app in Hcnt.
  assert (Hplain : inlines [item] = 0 -> sound exact (set_ready rest i)).
  { intros H0i. rewrite H0i in Hcnt. split; fields; try done; [eapply core_same; [exact Hc|done..]|]. rewrite Hcur. done. }
  destruct item as [s id off n|v s id|ev|]; unfold yield_owned in E; [|simplify_eq..].
  - unfold share_backing in E. fields. destruct (share (backing i)) as [b arc] eqn:Es. apply share_bytes in Es as [Hb' Harc].
    simplify_eq. change (inlines [Inline s id off n]) with 1 in Hcnt.
    pose proof (len_nonneg (filter is_inline rest)) as Hge. fold (inlines rest) in Hge.
    set (j := set_backing b (set_ready rest i)). assert (Hsess : Receiver.session (release_inline j) = Receiver.session i /\ legs (release_inline j) = legs i)
      by (unfold release_inline; by destruct (_ =? 0)).
    destruct Hsess as [Hse Hle']. rewrite Hse. split_and!; [|done|done| |by intros []].
    + apply release_sound; subst j; fields; [|lia|done|lia].
      split; fields; try done; [eapply core_same; [exact Hc|done..]|by rewrite Hb'|rewrite Hcur; split; [done|lia]].
    + assert (Hv : view_ok (Receiver.session i) {| view_datagram := arc; view_offset := off; view_len := n |} s)
        by (split; cbn [view_datagram view_offset view_len]; rewrite Harc; apply Hit).
      exact (view_authentic _ _ _ Hv).
  - split_and!; [by apply Hplain|done|done|by apply view_authentic|by intros []].
  - split_and!; [by apply Hplain|done|done|done|by intros []].
  - split_and!; [by apply Hplain|done|done|done|by intros []].
Qed.

(** What a call that pumped the receiver leaves. *)
Definition kept exact i (r : R) (out : res MoldUdpError (option (MoldUdpOutcome F))) i' (r' : R) : Prop :=
  (lone \/ ~ full_out out -> poll_ok (unless (full_out out) exact) i' r') /\ out_ok (Receiver.session i') out /\
  forall s, Receiver.session i = Some s -> Receiver.session i' = Some s.

(** A kind of call, as what it returns from a state and the state it leads to. *)
Definition call_kind : Type := Inner T F * R * Clock -> res MoldUdpError (option (MoldUdpOutcome F)) -> Inner T F * R * Clock -> Prop.

Definition keeps (call : call_kind) : Prop :=
  forall exact i r clk out i' r' clk', poll_ok exact i r -> call (i, r, clk) out (i', r', clk') -> kept exact i r out i' r'.

Definition polls : call_kind := fun '(i, r, clk) out '(i', r', clk') => exists fuel, poll fuel i r clk = Some (out, i', r', clk').

(** The receiver a call pumps, once it let go of what the call before handed out. *)
Lemma retired_pump_ok exact i r : poll_ok exact i r -> pump_ok exact (Ok tt) (retire_current i) r.
Proof.
  intros (Hs & Hl & Hr). destruct (retire_sound _ _ Hs) as [Hs1 Hc1]. split_and!; [done| | |done].
  - intros _. split; [|done]. eapply sound_weaken; [exact Hs1|weaker].
  - assert (legs (retire_current i) = legs i) as -> by (unfold retire_current, release_inline; by repeat case_match). done.
Qed.

(** The head of the queue handed out at the end of a call. *)
Lemma popped_kept yield exact i r j q item rest y k :
  yields_sound yield -> pump_ok exact (Ok tt) j q -> (forall s, Receiver.session i = Some s -> Receiver.session j = Some s) ->
  ready j = item :: rest -> yield item (set_ready rest j) = (y, k) -> kept exact i r (let* o := y in Ok (Some o)) k q.
Proof.
  intros Hy (_ & Hsc & Hl & Hr) Hse Er Ey. destruct (Hsc claimed_ok) as [Hs2 Hc2].
  destruct (Hy _ _ _ _ _ _ Hs2 Hc2 Er Ey) as (Hs3 & Hl3 & Hse3 & Ho & Hnf). split_and!; [|done|by rewrite Hse3].
  intros _. split_and!; [|by rewrite Hl3|done]. eapply sound_weaken; [exact Hs3|weaker].
Qed.

Lemma polls_keep : keeps polls.
Proof using P_range leg_emits rec_emits rec_sends room_pos room_window.
  intros exact i r clk out i' r' clk' Hi [fuel E]. unfold poll in E.
  destruct (pump fuel (retire_current i) r clk) as [[[[o j] q] c]|] eqn:Ep; [|done].
  assert (Hse : forall s, Receiver.session i = Some s -> Receiver.session j = Some s)
    by (intros s Hs; eapply pump_session; [|exact Ep]; by rewrite retire_session).
  pose proof (pump_sound _ _ _ _ _ _ _ _ _ (retired_pump_ok _ _ _ Hi) Ep) as Hj.
  destruct o as [[]|e|]; [| |by destruct Hj].
  - destruct (ready j) as [|item rest] eqn:Er; [|destruct (yield_item item _) as [y k] eqn:Ey]; simplify_eq;
      [|by eapply (popped_kept yield_item); [apply yield_sound|..]].
    destruct Hj as (_ & Hsc & Hl & Hr). destruct (Hsc claimed_ok). split_and!; [|done|done]. intros _. by split_and!.
  - simplify_eq. destruct Hj as (_ & Hsc & Hl & Hr). split_and!; [|done|done]. intros Hcl. destruct (Hsc Hcl). by split_and!.
Qed.

Lemma out_ok_session sess sess' out :
  out_ok sess out -> (forall s, sess = Some s -> sess' = Some s) -> out_ok sess' out.
Proof.
  intros Ho Hs. assert (Hau : forall q m, authentic P sess q m -> authentic P sess' q m).
  { intros q m (d & off & n & HP & (h & bl & Hh & Hx & Hrest) & Hg). exists d, off, n. split_and!; [done| |done].
    exists h, bl. split_and!; [done|by apply Hs|tauto..]. }
  destruct out as [[[f|f|ev]|]|e|]; try done; [by apply Hau|]. destruct Ho as (m & Hm & Ha). exists m. split; [done|by apply Hau].
Qed.

(** Calls of one kind, and between them whatever happens on the other side of the legs and of the
    requester, as long as [leg_ok] and [rec_ok] stay: packets that come, buffers the caller gives back. *)
Inductive served (call : call_kind) (st : Inner T F * R * Clock) : list (res MoldUdpError (option (MoldUdpOutcome F))) ->
    Inner T F * R * Clock -> Prop :=
  | served_nil : served call st [] st
  | served_call outs st1 out st2 : served call st outs st1 -> call st1 out st2 -> served call st (outs ++ [out]) st2
  | served_world outs i r clk ls r' clk' :
      served call st outs (i, r, clk) -> Forall leg_ok ls -> rec_ok r' -> served call st outs (set_legs ls i, r', clk').

Lemma polled_served st outs st' : polled st outs st' -> served polls st outs st'.
Proof. induction 1 as [|st outs i r c fuel out i' r' c' _ IH Hp]; [constructor|]. eapply served_call; [exact IH|]. by exists fuel. Qed.

Lemma served_sound call exact i r clk outs i' r' clk' :
  keeps call -> poll_ok exact i r -> served call (i, r, clk) outs (i', r', clk') -> lone \/ Forall (fun o => ~ full_out o) outs ->
  poll_ok (unless (Exists full_out outs) exact) i' r' /\ Forall (out_ok (Receiver.session i')) outs.
Proof using room_pos room_window.
  intros Hk Hi Hp. remember (i', r', clk') as st' eqn:Est'. revert i' r' clk' Est'.
  induction Hp as [|outs [[j q] c] out st2 Hp IH Hcall|outs j q c ls q' c' Hp IH Hls Hq]; intros i' r' clk' Est' Hcl; simplify_eq.
  - split; [|constructor]. destruct Hi as (? & ? & ?). split_and!; try done. eapply sound_weaken; [eassumption|weaker].
  - rewrite Forall_app, Forall_singleton in Hcl. destruct (IH _ _ _ eq_refl ltac:(tauto)) as [Hj Hos].
    destruct (Hk _ _ _ _ _ _ _ _ Hj Hcall) as (Hk' & Ho & Hse). destruct (Hk' ltac:(tauto)) as (Hs & Hl & Hr).
    split.
    + split_and!; try done. eapply sound_weaken; [exact Hs|]. intros s. unfold unless. rewrite Exists_app, Exists_cons. tauto.
    + apply Forall_app. split; [|by constructor]. eapply Forall_impl; [exact Hos|]. intros o Hoo.
      by eapply out_ok_session.
  - destruct (IH _ _ _ eq_refl Hcl) as [(Hs & _ & _) Hos]. split; [|done]. split_and!; [|done|done]. resplit Hs.
Qed.

(** A receiver before any packet came. *)
Lemma initial_sound ls rs ring arb mx :
  SequenceReassembler.wf ring -> (forall s, pending_at ring s = None) -> u64 (SequenceReassembler.expected_next ring) ->
  SequenceReassembler.expected_next ring + room < W64 -> (lone -> arb = None) ->
  (forall a, arb = Some a -> AbArbiter.capacity a = CAP /\ forall s, ~ AbArbiter.candidate a s) ->
  sound (fun _ => True) (Build_Inner ls rs None ring (SequenceReassembler.expected_next ring)
    GapRequestHandler.new arb mx [] None [] backing_empty 0 false (FrameBatch.with_capacity MAX_INFLIGHT_BURST)).
Proof using room_pos.
  intros Hw Hp Hu Hr Hl Ha. assert (Hnone : forall s, ~ missing_in GapRequestHandler.new s)
    by (intros s (p & Hin & _); by apply elem_of_nil in Hin).
  split; fields; try done; [|by constructor..].
  split; unfold ring_ok, expected, u64 in *; fields; try done.
  - split; [done|]. intros a Ea. destruct (Ha a Ea). by split.
  - split; constructor.
  - intros s v Hs. by rewrite Hp in Hs.
  - intros s Hs. by apply Hnone in Hs.
  - intros s _ Hs. lia.
Qed.

Lemma from_legs_sound cfg ls i r :
  (forall s, cfg_start_sequence cfg = Some s -> u64 s /\ s + room < W64) -> 1 + room < W64 -> (lone -> len ls <= 1) ->
  from_legs cfg ls = Ok i -> Forall leg_ok ls -> rec_ok r -> poll_ok (fun _ => True) i r.
Proof using room_pos room_window.
  intros Hst Hroom Hlone E Hl Hr. unfold from_legs in E.
  destruct (ok_or _ _) as [rs| |]; [|done..]. destruct (check_pools 0 ls); [|done..].
  set (arb := if len ls >? 1 then _ else _) in E. destruct arb as [ab| |] eqn:Ea; [|done..].
  assert (Hab : (lone -> ab = None) /\ forall a, ab = Some a -> AbArbiter.capacity a = CAP /\ forall s, ~ AbArbiter.candidate a s).
  { subst arb. destruct (len ls >? 1) eqn:En; [|by simplify_eq]. split; [intros HL; specialize (Hlone HL); zarith|].
    destruct (AbArbiter.new _ _ _) as [arb0| |] eqn:Enew; simplify_eq. intros b [= <-]. by eapply AbArbiter.new_spec. }
  clear Ea. clearbody arb. clear arb. destruct Hab as [Hl0 Ha].
  destruct (SequenceReassembler.new RING_CAPACITY) as [ring| |] eqn:En; [|done..].
  pose proof (SequenceReassembler.new_wf _ _ En) as Hw.
  assert (Hp : forall s, pending_at ring s = None) by (intros s; by eapply SequenceReassembler.new_pending).
  assert (He : SequenceReassembler.expected_next ring = 1) by (vm_compute in En; by simplify_eq).
  pose proof (initial_sound ls rs ring ab (cfg_max_rerequests_per_gap_per_sec cfg) Hw Hp ltac:(by rewrite He) ltac:(by rewrite He) Hl0 Ha)
    as [Hc ? ? ? ? Hf].
  destruct (cfg_start_sequence cfg) as [s|]; simplify_eq; (split_and!; [|done|done]); [|by split].
  destruct (Hst s eq_refl). destruct (Hf eq_refl). split; try done.
  eapply (anchor_core _ _ s); [exact Hc|done..|]. fields. by destruct ab.
Qed.
End recovery.
End safety.

(** ** Receivers and their sources *)

(** Room the arbiter's window of several legs needs above the sequences. *)
Definition headroom (legs : Z) : Z := if legs >? 1 then CAP else 0.

Lemma headroom_range n : 0 <= headroom n <= CAP.
Proof. unfold headroom, CAP, RING_CAPACITY. destruct (n >? 1); lia. Qed.

Section sources.
Context {T F : Type} `{DatagramRecv T F, AsRef F} {R : Type} `{Recovery R}.
Variable P : list byte -> Prop.
Variables (leg_ok : T -> Prop) (rec_ok : R -> Prop).

(** Every frame of a leg and every retransmission satisfies [P] and is in range. *)
Definition sources_emit (room : Z) : Prop :=
  (forall d, P d -> in_range_by room d) /\
  (forall fuel t b out t' b', leg_ok t -> Forall (fun f => P (as_ref f)) (frames b) ->
     recv_burst fuel t b = Some (out, t', b') ->
     out <> Panic /\ leg_ok t' /\ Forall (fun f => P (as_ref f)) (frames b')) /\
  (forall fuel r out copies r', rec_ok r -> recovery_poll fuel r = Some (out, copies, r') ->
     out <> Panic /\ rec_ok r' /\ Forall P copies) /\
  (forall r clk s g r' clk', rec_ok r -> send_due r clk s g = (r', clk') -> rec_ok r').

(** The calls made of a receiver over [ls], and where they left it. *)
Definition ran (call : call_kind (T := T) (F := F) (R := R)) (cfg : MoldUdpReceiverConfig) (ls : list T) (r : R) (clk : Clock)
    (outs : list (res MoldUdpError (option (MoldUdpOutcome F)))) (i' : Inner T F) : Prop :=
  (forall s, cfg_start_sequence cfg = Some s -> u64 s /\ s + headroom (len ls) < W64) /\ rec_ok r /\
  exists i r' clk', from_legs cfg ls = Ok i /\ served leg_ok rec_ok call (i, r, clk) outs (i', r', clk').

(** No call reported an overflow; one leg does not mind. *)
Definition clean (ls : list T) (outs : list (res MoldUdpError (option (MoldUdpOutcome F)))) : Prop :=
  len ls = 1 \/ Forall (fun o => ~ full_out o) outs.

(** Calls of a kind that keeps a receiver over [ls] sound. *)
Definition keeps_over (ls : list T) (call : call_kind (T := T) (F := F) (R := R)) : Prop :=
  sources_emit (headroom (len ls)) -> (len ls = 1 \/ CAP <= headroom (len ls)) ->
  keeps P (len ls = 1) (headroom (len ls)) leg_ok rec_ok call.

Lemma polls_keep_over ls : keeps_over ls polls.
Proof.
  intros (HP & Hl & Hr & Hs) Hw. eapply polls_keep; [apply headroom_range|exact Hw|exact HP|exact Hl|exact Hr|exact Hs].
Qed.

Lemma ran_sound call cfg ls r clk outs i' :
  sources_emit (headroom (len ls)) -> keeps_over ls call -> Forall leg_ok ls -> ran call cfg ls r clk outs i' -> clean ls outs ->
  sound P (len ls = 1) (headroom (len ls)) (unless P (Exists full_out outs) (fun _ => True)) i' /\
  Forall (out_ok P (Receiver.session i')) outs.
Proof.
  intros He Hk Hleg (Hst & Hrec & i & r' & clk' & Hi & Hp) Hcl. pose proof (headroom_range (len ls)) as Hr0.
  assert (Hw : len ls = 1 \/ CAP <= headroom (len ls)).
  { unfold headroom. destruct (len ls >? 1) eqn:En; bool_facts; [by right|left]. destruct ls; [done|rewrite len_cons in *; pose proof (len_nonneg ls); lia]. }
  destruct (served_sound P (len ls = 1) (headroom (len ls)) (proj1 Hr0) Hw leg_ok rec_ok call (fun _ => True) i r clk outs i' r' clk' (Hk He Hw))
    as [(Hso & _ & _) Ho]; [|exact Hp|exact Hcl|done].
  eapply (from_legs_sound P (len ls = 1) (headroom (len ls)) (proj1 Hr0) Hw leg_ok rec_ok);
    [exact Hst|unfold CAP, RING_CAPACITY in *; lia|by intros ->|exact Hi|done|done].
Qed.

(** A sequence below the highest one seen that was neither delivered nor buffered. *)
Definition hole (i' : Inner T F) (s : Z) : Prop :=
  expected i' <= s < next_unseen i' /\ pending_at (reassembler i') s = None.

(** What such a receiver tracks, or an arbiter holds back, are holes; and all of them, but for
    messages carried by some packet once an overflow was reported. *)
Lemma ran_holes call cfg ls r clk outs i' s :
  sources_emit (headroom (len ls)) -> keeps_over ls call -> Forall leg_ok ls -> ran call cfg ls r clk outs i' -> clean ls outs ->
  (missing_in (gap_handler i') s \/ held_back i' s -> hole i' s) /\
  (hole i' s -> (Exists full_out outs -> ~ carried P s) -> missing_in (gap_handler i') s \/ held_back i' s) /\
  (held_back i' s -> 1 < len ls).
Proof.
  intros He Hk Hls Hs Hcl. destruct (ran_sound _ _ _ _ _ _ _ He Hk Hls Hs Hcl) as [[Hc _ _ _ _ _] _]. split_and!.
  - intros [Hm|(a & Ea & Ha)]; [by apply (c_missing _ _ _ _ _ _ _ _ Hc)|].
    edestruct (candidate_hole (T := T) (F := F)) as (? & ? & _); [exact Hc|exact Ea|exact Ha|by split].
  - intros [Hb Hn] Hx. destruct (c_exact _ _ _ _ _ _ _ _ Hc s (conj I Hx) Hb Hn) as [?|[?|?]]; [tauto..|lia].
  - intros (a & Ea & _). destruct Hs as (_ & _ & i & r' & clk' & Hi & _).
    destruct (decide (1 < len ls)) as [|Hn]; [done|]. assert (Hone : len ls = 1).
    { destruct ls; [done|]. rewrite len_cons in *. pose proof (len_nonneg ls). lia. }
    destruct (c_arb _ _ _ _ _ _ _ _ Hc) as [Hnone _]. by rewrite (Hnone Hone) in Ea.
Qed.

(** With no overflow reported, exactly the holes. *)
Lemma ran_gaps call cfg ls r clk outs i' s :
  sources_emit (headroom (len ls)) -> keeps_over ls call -> Forall leg_ok ls -> ran call cfg ls r clk outs i' ->
  Forall (fun o => ~ full_out o) outs ->
  ((missing_in (gap_handler i') s \/ held_back i' s) <->
   expected i' <= s < next_unseen i' /\ pending_at (reassembler i') s = None) /\ (held_back i' s -> 1 < len ls).
Proof.
  intros He Hk Hls Hs Hf. destruct (ran_holes _ _ _ _ _ _ _ s He Hk Hls Hs ltac:(by right)) as (Hi1 & Hi2 & Hi3).
  split; [|done]. split; [exact Hi1|]. intros Hh. apply Hi2; [exact Hh|]. intros Hx. by apply Forall_not_Exists in Hf.
Qed.
End sources.

(** Whatever is read off the requester's own transport satisfies [Q]. *)
Record requester_emits {R} `{Recovery R} (rec_ok : R -> Prop) (Q : list byte -> Prop) : Prop := {
  re_poll : forall fuel r out copies r', rec_ok r -> recovery_poll fuel r = Some (out, copies, r') ->
    out <> Panic /\ rec_ok r' /\ Forall Q copies;
  re_send : forall r clk s g r' clk', rec_ok r -> send_due r clk s g = (r', clk') -> rec_ok r';
}.

Lemma no_recovery_emits Q : requester_emits (R := NoRecovery_t) (fun _ => True) Q.
Proof. split; [|done]. intros fuel r out copies r' _ E. simpl in E. by simplify_eq. Qed.

(** ** Worked legs *)

Definition no_full {F} (outs : list (res MoldUdpError (option (MoldUdpOutcome F)))) : bool :=
  forallb (fun o => match o with Err (ReassemblyBufferFull _) => false | _ => true end) outs.

Lemma no_full_outs {F} (outs : list (res MoldUdpError (option (MoldUdpOutcome F)))) :
  no_full outs = true -> Forall (fun o => ~ full_out o) outs.
Proof.
  unfold no_full. rewrite forallb_forall. intros Hb. apply Forall_forall. intros o Ho%list_elem_of_In%Hb Hfull.
  by destruct o as [|[]|].
Qed.

Lemma full_outs {F} (outs : list (res MoldUdpError (option (MoldUdpOutcome F)))) : no_full outs = false -> Exists full_out outs.
Proof.
  induction outs as [|o outs IH]; [done|]. cbn [no_full forallb]. intros [Ho|Ho]%andb_false_iff; [left|right; by apply IH].
  by destruct o as [|[]|].
Qed.

Module demo_safe.
Definition small (d : list byte) : bool :=
  match parse_header d with Ok h => MoldWire.sequence h + message_count h + CAP <? W64 | _ => true end.
Lemma small_range room d : 0 <= room <= CAP -> small d = true -> in_range_by room d.
Proof. intros Hr Hd h Hh. unfold small in Hd. rewrite Hh in Hd. bool_facts. lia. Qed.

(** Scripted legs all of whose datagrams satisfy [Q]. *)
Definition leg_of (Q : list byte -> Prop) (t : Scripted) : Prop := Forall (Forall Q) (bursts t).

Lemma sources_of {R} `{Recovery R} (rec_ok : R -> Prop) Q room :
  requester_emits rec_ok Q -> (forall d, Q d -> in_range_by room d) ->
  sources_emit (T := Scripted) (F := list byte) Q (leg_of Q) rec_ok room.
Proof.
  intros [Hp Hs] Hroom. split_and!; [exact Hroom| |exact Hp|exact Hs].
  intros fuel t b out t' b' Hl Hb E. simpl in E. unfold scripted_recv, leg_of in *.
  destruct (bursts t) as [|x rest] eqn:Eb; simplify_eq; [by rewrite Eb|].
  apply Forall_cons in Hl as [Hx Hrest]. split_and!; [done| |].
  - cbn [bursts]. pose proof (Forall_drop _ (Z.to_nat (spare b)) x Hx) as Hd.
    destruct (drop _ x); [done|by constructor].
  - cbn [frames]. apply Forall_app. split; [done|]. by apply Forall_take.
Qed.

(** A check of datagrams that evaluates. *)
Definition passes (check : list byte -> bool) (d : list byte) : Prop := check d = true.

(** Legs whose scripts pass, which evaluates. *)
Definition scripts_pass (check : list byte -> bool) (ls : list Scripted) : bool :=
  forallb (fun t => forallb (forallb check) (bursts t)) ls.

Lemma scripts_legs check ls : scripts_pass check ls = true -> Forall (leg_of (passes check)) ls.
Proof.
  unfold scripts_pass, leg_of, passes. rewrite forallb_forall. intros Hb. apply Forall_forall. intros t Ht%list_elem_of_In%Hb.
  rewrite forallb_forall in Ht. apply Forall_forall. intros x Hx%list_elem_of_In%Ht.
  rewrite forallb_forall in Hx. apply Forall_forall. intros d Hd%list_elem_of_In. by apply Hx.
Qed.

(** Datagrams that hold no message of sequence [s], which evaluates too. *)
Definition lacks (s : Z) (d : list byte) : bool :=
  match parse_header d with
  | Ok h =>
      match header_kind h, packet_blocks h d with
      | KData, Ok blocks => forallb (fun b => negb (b.1.1 =? s)) blocks
      | _, _ => true
      end
  | _ => true
  end.

Lemma lacks_block s d sess off n : lacks s d = true -> ~ block_of sess d s off n.
Proof.
  unfold lacks. intros Hl (h & blocks & Eh & _ & Ek & Eb & Hin). rewrite Eh, Ek, Eb, forallb_forall in Hl.
  specialize (Hl _ (proj1 (list_elem_of_In _ _) Hin)). simpl in Hl. bool_facts. lia.
Qed.

Abbreviation P := (passes small).
Abbreviation leg_ok := (leg_of P).

Lemma sources room : 0 <= room <= CAP -> sources_emit (T := Scripted) (F := list byte) (R := NoRecovery_t) P leg_ok (fun _ => True) room.
Proof. intros Hroom. apply sources_of; [apply no_recovery_emits|intros d; by apply small_range]. Qed.

(** Two legs: the first loses 8 and 10, the second carries 8 late and never 10. *)
Definition pair : list Scripted :=
  [demo.leg [[demo.packet 7 [70]]; [demo.packet 9 [90]]; []; [demo.packet 11 [110]]];
   demo.leg [[demo.packet 7 [70]]; []; [demo.packet 8 [80]]; []; []]].

(** One leg: 4098 is buffered while 1 and 2 are missing, then 2 arrives alone. [s] and [s + 4096]
    share a slot of the ring. *)
Definition overflow_leg : list Scripted :=
  [demo.leg [[demo.packet 4098 [0]]; [demo.packet 2 [2]]; [demo.packet 1 [1]]]].
End demo_safe.
