(* ===== verification/ReceiverLive.v ===== *)
(** * client-moldudp: [pump] and [poll] return

    Against legs and a requester that keep the receive contract, [pump]'s loop
    ends: every round decodes one datagram, and what is pending plus what the
    sources still hold only shrinks. It also ends with nothing to hand out only
    after every leg, and the requester while a gap is pending, had nothing. *)

From S2P Require Import Prelude TransportCore MoldWire Reassembly Gap Arbiter Receiver ReceiverOrder.
From Stdlib Require Import ZArith Lia.
From stdpp Require Import prelude list strings.

Open Scope Z_scope.
Open Scope res_scope.

Import FrameBatch (frames, cap, spare).

(** ** What a recovery mode promises *)

Class RecoveryOk (R : Type) `{Recovery R} := {
  rc_wf : R -> Prop;
  rc_backlog : R -> nat;
  rc_sound : forall fuel r out copies r',
    rc_wf r -> recovery_poll fuel r = Some (out, copies, r') ->
    rc_wf r' /\ (rc_backlog r' + length copies <= rc_backlog r)%nat /\
    (out = Ok true -> copies <> []) /\ (out = Ok false -> copies = []) /\ out <> Panic;
  rc_total : forall fuel r, rc_wf r -> (rc_backlog r < fuel)%nat -> is_Some (recovery_poll fuel r);
  rc_send : forall r clk s g, rc_wf r -> rc_wf (send_due r clk s g).1;
}.

#[export] Instance NoRecovery_ok : RecoveryOk NoRecovery_t.
Proof.
  refine {| rc_wf := fun _ => True; rc_backlog := fun _ => 0%nat |}.
  - intros fuel r out copies r' _ E. simpl in E. simplify_eq. split_and!; try done.
  - intros. by eexists.
  - done.
Defined.

(** What sends leave as it is, a round of re-requests leaves as it is. *)
Section sending.
Context {Q : Type} `{DatagramSend Q} (J : Q -> Prop).
Hypothesis send_keeps : forall q packet addr, J q -> J (send_to q packet addr).2.

Lemma emit_keeps em gaps session q now : J q -> J (GapRequestEmitter.emit em gaps session q now).2.
Proof.
  unfold GapRequestEmitter.emit. generalize (GapRequestEmitter.prune em now), 0. clear em. intros em sent. revert em q sent.
  induction gaps as [|g gaps IH]; intros em q sent Hq; [done|].
  cbn [GapRequestEmitter.emit_loop]. destruct (GapRequestEmitter.covered _ _ _); [by apply IH|].
  pose proof (send_keeps q (GapRequestEmitter.encode_request_packet session (start_seq g) (count g))
                (GapRequestEmitter.server_addr em) Hq) as Hk.
  destruct (send_to q _ _) as [result q']. simpl in Hk.
  destruct result as [n|[] |]; try done; [by apply IH|]. by destruct (is_would_block error).
Qed.

Lemma requester_send_keeps {G} `{DatagramRecv Q G, AsRef G} (r : Requester Q G) clk s g :
  J (sock r) -> J (sock (send_due r clk s g).1) /\ scratch (send_due r clk s g).1 = scratch r.
Proof.
  intros Hj. cbn. unfold requester_send_due, now_of.
  pose proof (emit_keeps (emitter r) (GapRequestHandler.pending_gaps g) s (sock r) (readings clk (reads clk)) Hj) as Hk.
  by destruct (GapRequestEmitter.emit _ _ _ _ _) as [[o em] q].
Qed.
End sending.

Section requester.
Context {Q G : Type} `{DatagramRecvOk Q G, !DatagramSend Q, !AsRef G}.

(** Sending leaves the receive side of the socket sound. *)
Hypothesis send_keeps : forall q packet addr,
  bc_wf datagram_contract q -> bc_wf datagram_contract (send_to q packet addr).2.

Definition requester_wf (r : Requester Q G) : Prop :=
  bc_wf datagram_contract (sock r) /\ frames (scratch r) = [] /\ 0 < cap (scratch r).

Definition Requester_ok : RecoveryOk (Requester Q G).
Proof.
  refine {| rc_wf := requester_wf; rc_backlog := fun r => bc_backlog datagram_contract (sock r) |}.
  - intros fuel r out copies r' (Hw & Hf & Hc) E. simpl in E. unfold requester_poll_frames in E.
    destruct (recv_burst fuel (sock r) (scratch r)) as [[[o s] b]|] eqn:Er; [|done].
    assert (Hsp : 0 < spare (scratch r)) by (by apply FrameBatch.spare_empty).
    destruct (bc_sound datagram_contract _ _ _ _ _ _ Hw Hsp Er) as (Hw' & Hcap & new & Hnew & Hbl & Ho).
    rewrite Hf in Hnew. simpl in Hnew. destruct o as [n|e|]; [| |done].
    + unfold FrameBatch.drain in E. injection E as <- <- <-. destruct Ho as [-> _]. cbn [sock scratch]. split_and!.
      * unfold requester_wf. cbn [sock scratch frames cap]. split_and!; [done|done|lia].
      * rewrite length_fmap, Hnew. lia.
      * intros [= Hn]. rewrite Hnew. destruct new; [rewrite len_nil in Hn; done|done].
      * intros [= Hn]. rewrite Hnew. destruct new; [done|]. rewrite len_cons in Hn. pose proof (len_nonneg new). bool_facts. lia.
      * done.
    + injection E as <- <- <-. subst new. split_and!; [|simpl in *; lia|done..]. split_and!; cbn [sock scratch]; [done|done|lia].
  - intros fuel r (Hw & Hf & Hc) Hfuel. simpl. unfold requester_poll_frames.
    assert (Hsp : 0 < spare (scratch r)) by (by apply FrameBatch.spare_empty).
    destruct (bc_total datagram_contract fuel (sock r) (scratch r) Hw Hsp Hfuel) as [[[[n|e|] s] b] ->]; by eexists.
  - intros r clk s g (Hw & Hf & Hc). destruct (requester_send_keeps _ send_keeps r clk s g Hw) as [? Hsc].
    unfold requester_wf. by rewrite Hsc.
Defined.
End requester.

(** ** Termination *)

Section live.
Context {T F : Type} `{DatagramRecvOk T F, !AsRef F} {R : Type} `{RecoveryOk R}.
Implicit Types (i : Inner T F) (r : R).

(** Every leg sound, the burst scratch empty and with room. *)
Definition pollable i : Prop :=
  Forall (bc_wf datagram_contract) (legs i) /\ frames (recv_batch i) = [] /\ 0 < cap (recv_batch i).

Definition legs_backlog (l : list T) : nat := sum_list (bc_backlog datagram_contract <$> l).

(** Datagrams waiting here or at a source. *)
Definition waiting i r : nat :=
  (length (pending_datagrams i) + legs_backlog (legs i) + rc_backlog r)%nat.

Lemma legs_backlog_app l k : legs_backlog (l ++ k) = (legs_backlog l + legs_backlog k)%nat.
Proof. unfold legs_backlog. induction l as [|t l IH]; [done|]. rewrite <- app_comm_cons, !fmap_cons. cbn [sum_list_with foldr]. simpl. rewrite IH. lia. Qed.

(** Asked for an empty batch with room, the leg had nothing, and was left as [t']. *)
Definition leg_quiet (fuel : nat) (t t' : T) : Prop :=
  exists b b', frames b = [] /\ 0 < cap b /\ recv_burst fuel t b = Some (Ok 0, t', b').

(** What a pass over the legs leaves: they are sound and all there, with no more to come than
    before; one that landed nothing found every leg quiet, as far as stream numbers go. *)
Record passed fuel stream done todo landed i (out : res MoldUdpError bool) i' : Prop := {
  pa_pollable : pollable i';
  pa_panic : out <> Panic;
  pa_backlog : (length (pending_datagrams i') + legs_backlog (legs i') <=
    length (pending_datagrams i) + legs_backlog done + legs_backlog todo)%nat;
  pa_pending : (length (pending_datagrams i) <= length (pending_datagrams i'))%nat;
  pa_landed : out = Ok true -> landed = true \/ pending_datagrams i' <> [];
  pa_length : length (legs i') = (length done + length todo)%nat;
  pa_quiet : out = Ok false -> landed = false /\ pending_datagrams i' = pending_datagrams i /\
    (stream + len todo <= U8_MAX + 1 -> exists rest, legs i' = done ++ rest /\ Forall2 (leg_quiet fuel) todo rest);
}.

Lemma legs_backlog_cons (t : T) l : legs_backlog (t :: l) = (bc_backlog datagram_contract t + legs_backlog l)%nat.
Proof. done. Qed.

Lemma legs_backlog_one (t : T) : legs_backlog [t] = bc_backlog datagram_contract t.
Proof. unfold legs_backlog. simpl. lia. Qed.

Lemma poll_legs_loop_kept fuel stream done todo landed i out i' :
  Forall (bc_wf datagram_contract) done -> Forall (bc_wf datagram_contract) todo ->
  frames (recv_batch i) = [] -> 0 < cap (recv_batch i) ->
  poll_legs_loop fuel stream done todo landed i = Some (out, i') -> passed fuel stream done todo landed i out i'.
Proof.
  revert stream done landed i. induction todo as [|leg todo IH]; intros stream done landed i Hd Ht Hf Hc E;
    cbn [poll_legs_loop] in E.
  { simplify_eq. split; fields; try done; try (unfold legs_backlog; simpl; lia); [intros [= ->]; by left|].
    intros [= ->]. split_and!; [done..|]. intros _. exists []. by rewrite app_nil_r. }
  destruct (stream >? U8_MAX) eqn:Es; bool_facts.
  { simplify_eq. split; fields; try done; [split; [fields; by apply Forall_app|done]|rewrite legs_backlog_app; lia|
      intros [= ->]; by left|by rewrite length_app|]. intros [= ->]. split_and!; [done..|].
    rewrite len_cons. pose proof (len_nonneg todo). lia. }
  apply Forall_cons in Ht as [Hl Ht]. assert (Hsp : 0 < spare (recv_batch i)) by (by apply FrameBatch.spare_empty).
  destruct (recv_burst fuel leg (recv_batch i)) as [[[o leg'] b]|] eqn:Er; [|done].
  destruct (bc_sound datagram_contract _ _ _ _ _ _ Hl Hsp Er) as (Hl' & Hcap & new & Hnew & Hbl & Ho).
  rewrite Hf in Hnew. simpl in Hnew.
  assert (Hd' : Forall (bc_wf datagram_contract) (done ++ [leg'])) by (apply Forall_app; by repeat constructor).
  pose proof (legs_backlog_cons leg todo) as Hcons. destruct o as [n|e|]; [|subst new|done].
  - destruct Ho as [Hn _]. destruct (n =? 0) eqn:E0; bool_facts.
    + assert (new = []) as -> by (destruct new; [done|rewrite len_cons in Hn; pose proof (len_nonneg new); lia]).
      apply IH in E; [|done|done|by fields|fields; lia]. destruct E as [A1 A2 A3 A4 A5 A6 A7].
      rewrite legs_backlog_app, legs_backlog_one in A3. rewrite length_app in A6. revert A3 A4 A6 A7. fields. intros A3 A4 A6 A7.
      split; try done; [simpl in *; lia|simpl in *; lia|]. intros Hout. destruct (A7 Hout) as (? & ? & Hq). split_and!; [done..|].
      intros Hlt. rewrite len_cons in Hlt. destruct Hq as (rest & -> & Hrest); [lia|].
      exists (leg' :: rest). rewrite <- app_assoc. split; [done|]. constructor; [|done]. exists (recv_batch i), b. subst n. done.
    + unfold FrameBatch.drain in E. fields. apply IH in E; [|done|done|done|cbn [recv_batch set_pending_datagrams set_recv_batch cap]; lia].
      destruct E as [A1 A2 A3 A4 A5 A6 A7]. rewrite legs_backlog_app, legs_backlog_one in A3. rewrite length_app in A6.
      revert A3 A4 A6 A7. fields. rewrite length_app, length_fmap, Hnew. intros A3 A4 A6 A7.
      split; try done; [lia|lia| |simpl in *; lia|intros Hout; by destruct (A7 Hout)].
      intros _. right. destruct new; [rewrite len_nil in Hn; lia|]. intros Hnil. rewrite Hnil in A4. simpl in A4. lia.
  - simplify_eq. split; fields; try done.
    + split_and!; fields; [repeat (apply Forall_app; split; [done|]); by repeat constructor|done|lia].
    + rewrite legs_backlog_app, legs_backlog_cons. simpl in *. lia.
    + rewrite !length_app. simpl. lia.
Qed.

Lemma poll_legs_loop_total fuel stream done todo landed i :
  Forall (bc_wf datagram_contract) todo -> frames (recv_batch i) = [] -> 0 < cap (recv_batch i) ->
  (legs_backlog todo < fuel)%nat -> is_Some (poll_legs_loop fuel stream done todo landed i).
Proof.
  revert stream done landed i. induction todo as [|leg todo IH]; intros stream done landed i Ht Hf Hc Hfuel; cbn [poll_legs_loop]; [by eexists|].
  destruct (stream >? U8_MAX); [by eexists|]. apply Forall_cons in Ht as [Hl Ht].
  rewrite legs_backlog_cons in Hfuel.
  assert (Hsp : 0 < spare (recv_batch i)) by (by apply FrameBatch.spare_empty).
  destruct (bc_total datagram_contract fuel leg (recv_batch i) Hl Hsp ltac:(lia)) as [[[o leg'] b] Er]. rewrite Er.
  destruct (bc_sound datagram_contract _ _ _ _ _ _ Hl Hsp Er) as (_ & Hcap & new & Hnew & _ & Ho).
  rewrite Hf in Hnew. simpl in Hnew. destruct o as [n|e|]; [|by eexists..]. destruct Ho as [Hn _].
  destruct (n =? 0) eqn:E0; bool_facts.
  - apply IH; fields; [done|by destruct new; [|rewrite len_cons in Hn; pose proof (len_nonneg new); lia]|lia|lia].
  - unfold FrameBatch.drain. apply IH; fields; [done|done|cbn [cap]; lia|lia].
Qed.

Lemma poll_legs_live fuel i :
  pollable i -> pending_datagrams i = [] -> (legs_backlog (legs i) < fuel)%nat ->
  exists out i', poll_legs fuel i = Some (out, i') /\ pollable i' /\ out <> Panic /\
    (length (pending_datagrams i') + legs_backlog (legs i') <= legs_backlog (legs i))%nat /\
    (out = Ok true -> pending_datagrams i' <> []).
Proof.
  intros (Hw & Hf & Hc) Hp Hfuel.
  destruct (poll_legs_loop_total fuel 0 [] (legs i) false i Hw Hf Hc Hfuel) as [[out i'] E].
  destruct (poll_legs_loop_kept _ _ _ _ _ _ _ _ (Forall_nil_2 _) Hw Hf Hc E) as [Hpo Hnp Hle _ Hout _ _].
  exists out, i'. split_and!; try done; [rewrite Hp in Hle; simpl in *; unfold legs_backlog in *; simpl in *; lia|].
  intros Ho. by destruct (Hout Ho).
Qed.

(** A round's decode half takes the head datagram off and leaves the sources alone. *)
Lemma process_next_shrinks now i out i' :
  process_next_pending now i = (out, i') ->
  pending_datagrams i' = tail (pending_datagrams i) /\ legs i' = legs i /\ recv_batch i' = recv_batch i.
Proof.
  unfold process_next_pending. intros E. destruct (pending_datagrams i) as [|[st d] rest] eqn:Ep; [by simplify_eq|].
  unfold process_datagram in E. destruct (parse_header _) as [h| |]; simplify_eq; try done.
  destruct (accept_header h _) as [o j] eqn:Ea.
  assert (Hj : pending_datagrams j = rest /\ legs j = legs i /\ recv_batch j = recv_batch i)
    by (unfold accept_header in Ea; repeat case_match; simplify_eq; done).
  destruct o; simplify_eq; try done. destruct (header_kind h); simplify_eq.
  - unfold note_tail_gap. by destruct (_ >? _).
  - unfold note_tail_gap. by destruct (_ >? _).
  - pose proof (process_data_session _ _ _ _ _ _ _ E) as [_ Hb].
    apply process_data_anchored in E as (_ & -> & ->). rewrite Hb. done.
Qed.

Lemma drain_confirmed_same now i :
  pending_datagrams (drain_confirmed_gaps now i) = pending_datagrams i /\
  legs (drain_confirmed_gaps now i) = legs i /\ recv_batch (drain_confirmed_gaps now i) = recv_batch i.
Proof.
  unfold drain_confirmed_gaps. destruct (arbiter i); [|done].
  destruct (AbArbiter.confirmed_gaps _ _) as [l a].
  change (legs i) with (legs (set_arbiter (Some a) i)).
  change (pending_datagrams i) with (pending_datagrams (set_arbiter (Some a) i)).
  change (recv_batch i) with (recv_batch (set_arbiter (Some a) i)).
  generalize (set_arbiter (Some a) i). induction l as [|x l IH]; intros j; [done|]. cbn [foldl].
  destruct (IH (record_confirmed j x)) as (-> & -> & ->). done.
Qed.

Definition round_ok (st : Inner T F * R * Clock) : Prop :=
  let '(i, r, _) := st in pollable i /\ rc_wf r.

Definition waiting_of (st : Inner T F * R * Clock) : nat := let '(i, r, _) := st in waiting i r.

(** A decoding round that goes on takes a datagram off the queue and no more. *)
Lemma decode_step_keeps i (r : R) clk st' :
  decode_step i r clk = Again st' -> exists k clk', st' = (k, r, clk') /\
    pending_datagrams k = tail (pending_datagrams i) /\ legs k = legs i /\ recv_batch k = recv_batch i.
Proof.
  intros E. unfold decode_step in E. set (c := match arbiter i with Some _ => _ | None => _ end) in E. destruct c as [now clk'].
  destruct (process_next_pending now i) as [out j] eqn:Ed. destruct (process_next_shrinks _ _ _ _ Ed) as (Hpd & Hl & Hb).
  destruct out as [[]| |]; [|done..]. injection E as <-. eexists _, clk'. split; [done|].
  destruct now as [t|]; [|by split_and!]. destruct (drain_confirmed_same t j) as (-> & -> & ->). by split_and!.
Qed.

Lemma decode_step_live i r clk st' :
  pollable i -> rc_wf r -> pending_datagrams i <> [] -> decode_step i r clk = Again st' ->
  round_ok st' /\ (waiting_of st' < waiting i r)%nat.
Proof.
  intros Hp Hr Hne E. apply decode_step_keeps in E as (k & clk' & -> & Hpd & Hl & Hb).
  unfold round_ok, pollable, waiting_of, waiting in *. rewrite Hpd, Hl, Hb. split; [done|].
  destruct (pending_datagrams i); simpl; [done|lia].
Qed.

(** Every round that goes on leaves less to wait for. *)
Lemma pump_step_live fuel st st' :
  round_ok st -> (waiting_of st < fuel)%nat -> pump_step fuel st = Again st' ->
  round_ok st' /\ (waiting_of st' < waiting_of st)%nat.
Proof.
  destruct st as [[i r] clk]. intros [Hp Hr] Hfuel E. cbn [waiting_of] in *. unfold pump_step in E.
  destruct (ready i); [|done].
  destruct (pending_datagrams i) eqn:Ep; [|apply decode_step_live in E; [done|done|done|by rewrite Ep]].
  unfold waiting in Hfuel.
  destruct (poll_legs_live fuel i Hp Ep ltac:(lia)) as (out & j & El & Hpj & _ & Hm & Hland). rewrite El in E.
  destruct out as [landed| |]; [|done..].
  assert (Hw : (waiting j r <= waiting i r)%nat) by (unfold waiting; rewrite Ep; simpl; lia).
  destruct (GapRequestHandler.has_pending _).
  - destruct (rc_total fuel r Hr ltac:(lia)) as [[[o copies] r'] Erec]. rewrite Erec in E.
    destruct (rc_sound _ _ _ _ _ Hr Erec) as (Hr' & Hb & Hc & _). destruct o as [more| |]; [|done..].
    destruct (landed || more) eqn:Elm; [|done].
    assert (Hne : pending_datagrams (with_copies copies j) <> []).
    { unfold with_copies. fields. destruct landed; [specialize (Hland eq_refl); by destruct (pending_datagrams j)|].
      destruct more; [|done]. specialize (Hc eq_refl). destruct (pending_datagrams j), copies; done. }
    apply (decode_step_live (with_copies copies j)) in E as [? ?]; try done. split; [done|].
    assert ((waiting (with_copies copies j) r' <= waiting j r)%nat); [|lia].
    unfold waiting, with_copies. fields. rewrite length_app, length_fmap. lia.
  - destruct landed; [|done]. apply decode_step_live in E as [? ?]; try done; [split; [done|lia]|by apply Hland].
Qed.

Lemma pump_step_returns fuel st :
  round_ok st -> (waiting_of st < fuel)%nat -> pump_step fuel st <> Leave None.
Proof.
  destruct st as [[i r] clk]. intros [Hp Hr] Hfuel E. cbn [waiting_of] in *. unfold pump_step in E.
  assert (Hdec : forall j (q : R) c, decode_step (T := T) (F := F) j q c <> Leave None).
  { intros j q c. unfold decode_step. destruct (match arbiter j with Some _ => _ | None => _ end).
    by destruct (process_next_pending _ j) as [[| |] ?]. }
  destruct (ready i); [|done]. destruct (pending_datagrams i) eqn:Ep; [|by apply Hdec in E].
  unfold waiting in Hfuel.
  destruct (poll_legs_live fuel i Hp Ep ltac:(lia)) as (out & j & El & _). rewrite El in E.
  destruct out as [landed| |]; [|done..].
  destruct (GapRequestHandler.has_pending _).
  - destruct (rc_total fuel r Hr ltac:(lia)) as [[[o copies] r'] Erec]. rewrite Erec in E.
    destruct o as [more| |]; [|done..]. destruct (landed || more); [|done]. by apply (Hdec (with_copies copies j)) in E.
  - destruct landed; [|done]. by apply Hdec in E.
Qed.

Lemma iterate_pump fuel n st :
  round_ok st -> (waiting_of st < fuel)%nat -> (waiting_of st < n)%nat ->
  exists x, iterate (pump_step fuel) n st = Some (Some x).
Proof.
  revert st. induction n as [|n IH]; intros st Hok Hfuel Hn; [lia|]. cbn [iterate].
  pose proof (pump_step_returns fuel st Hok Hfuel) as Hret.
  destruct (pump_step fuel st) as [st'|[r|]] eqn:Es; [|by eexists|done].
  destruct (pump_step_live _ _ _ Hok Hfuel Es) as [Hok' Hlt]. apply IH; [done|lia|lia].
Qed.

(** [pump] returns once given fuel for what is waiting after its send. *)
Lemma pump_returns i r clk :
  pollable i -> rc_wf r -> exists n, forall fuel, (n <= fuel)%nat -> is_Some (pump fuel i r clk).
Proof.
  intros Hp Hr. unfold pump.
  set (s := if GapRequestHandler.has_pending _ then _ else _).
  assert (Hs : rc_wf s.1).
  { subst s. destruct (GapRequestHandler.has_pending _); [|done]. destruct (Receiver.session i); [|done]. by apply rc_send. }
  destruct s as [r1 c1]. exists (S (waiting i r1)). intros fuel Hfuel.
  destruct (iterate_pump fuel fuel (i, r1, c1)) as [x ->]; [done|simpl; lia|simpl; lia|]. by eexists.
Qed.

Lemma poll_returns i r clk :
  pollable i -> rc_wf r -> exists n, forall fuel, (n <= fuel)%nat -> is_Some (poll fuel i r clk).
Proof.
  intros Hp Hr. assert (Hp' : pollable (retire_current i))
    by (unfold retire_current, release_inline; by repeat case_match).
  destruct (pump_returns (retire_current i) r clk Hp' Hr) as [n Hn]. exists n. intros fuel Hf. unfold poll.
  destruct (Hn fuel Hf) as [[[[o j] q] c] ->]. destruct o; [|by eexists..]. destruct (ready j); [by eexists|].
  destruct (yield_item _ _). by eexists.
Qed.

(** ** [Ok(None)] means every source had nothing *)

(** Each leg, asked for what it has, had answered nothing, and so had the requester if a gap
    is pending; nothing is queued. *)
Record all_quiet (fuel : nat) (i' : Inner T F) (r' : R) : Prop := {
  aq_legs : exists ls, Forall2 (leg_quiet fuel) ls (legs i');
  aq_requester : GapRequestHandler.has_pending (gap_handler i') = true ->
    exists r, rc_wf r /\ recovery_poll fuel r = Some (Ok false, [], r');
  aq_queues : ready i' = [] /\ pending_datagrams i' = [];
}.

(** As many legs as there are stream numbers, at most; [from_legs] takes no more. *)
Definition numbered_legs i : Prop := len (legs i) <= U8_MAX + 1.

(** A pass that lands nothing finds every leg quiet. *)
Lemma poll_legs_kept fuel i out j :
  pollable i -> numbered_legs i -> ready i = [] -> pending_datagrams i = [] -> poll_legs fuel i = Some (out, j) ->
  pollable j /\ numbered_legs j /\ ready j = [] /\ gap_handler j = gap_handler i /\
  (out = Ok false -> pending_datagrams j = [] /\ exists ls, Forall2 (leg_quiet fuel) ls (legs j)).
Proof.
  intros (Hw & Hf & Hc) Hn Hr Hp E. pose proof E as (ls & p & b & Ej)%poll_legs_loop_same.
  destruct (poll_legs_loop_kept _ _ _ _ _ _ _ _ (Forall_nil_2 _) Hw Hf Hc E) as [A1 _ _ _ _ A6 A7].
  assert (Hready : ready j = [] /\ gap_handler j = gap_handler i) by (by subst j). destruct Hready as [-> ->].
  split_and!; try done; [unfold numbered_legs, len in *; simpl in A6; lia|]. intros Hout. destruct (A7 Hout) as (_ & -> & Hq).
  split; [done|]. destruct Hq as (rest & -> & Hrest); [unfold numbered_legs in Hn; lia|]. by eexists.
Qed.

(** [pump] between two rounds. *)
Definition round_kept (st : Inner T F * R * Clock) : Prop :=
  let '(i, r, _) := st in pollable i /\ rc_wf r /\ numbered_legs i.

(** Where it leaves: with something to hand out, or quiet, or with an error. *)
Definition left_quiet (fuel : nat) (x : option (res MoldUdpError unit * Inner T F * R * Clock)) : Prop :=
  match x with
  | Some (Ok _, i', r', clk') => round_kept (i', r', clk') /\ (ready i' = [] -> all_quiet fuel i' r')
  | _ => True
  end.

Lemma decode_step_kept fuel i r clk :
  pollable i -> rc_wf r -> numbered_legs i ->
  match decode_step i r clk with Again st' => round_kept st' | Leave x => left_quiet fuel x end.
Proof.
  intros Hp Hr Hn. destruct (decode_step i r clk) as [st'|x] eqn:E.
  - apply decode_step_keeps in E as (k & clk' & -> & _ & Hl & Hb). unfold round_kept, pollable, numbered_legs in *. by rewrite Hl, Hb.
  - revert E. unfold decode_step. destruct (match arbiter i with Some _ => _ | None => _ end).
    destruct (process_next_pending _ i) as [[| |] ?]; intros; by simplify_eq.
Qed.

Lemma pump_step_kept fuel st :
  round_kept st -> match pump_step fuel st with Again st' => round_kept st' | Leave x => left_quiet fuel x end.
Proof.
  destruct st as [[i r] clk]. intros (Hp & Hr & Hn). unfold pump_step.
  destruct (ready i) eqn:Er; [|split; [done|congruence]].
  destruct (pending_datagrams i) eqn:Ep; [|by apply decode_step_kept].
  destruct (poll_legs fuel i) as [[out j]|] eqn:El; [|done].
  destruct (poll_legs_kept _ _ _ _ Hp Hn Er Ep El) as (Hpj & Hnj & Hrj & _ & Hq). destruct out as [landed| |]; [|done..].
  destruct (GapRequestHandler.has_pending (gap_handler j)) eqn:Eh.
  - destruct (recovery_poll fuel r) as [[[o copies] q]|] eqn:Erec; [|done].
    destruct (rc_sound _ _ _ _ _ Hr Erec) as (Hw & _ & _ & Hc & _).
    pose proof (decode_step_kept fuel (with_copies copies j) q clk Hpj Hw Hnj) as Hd. destruct o as [more| |]; [|done..].
    destruct (landed || more) eqn:Elm; [exact Hd|]. apply orb_false_iff in Elm as [-> ->]. split; [done|]. intros _.
    rewrite (Hc eq_refl) in *. destruct (Hq eq_refl) as [Hpd Hls]. unfold with_copies. split; fields; [done|by exists r|].
    cbn [fmap list_fmap]. by rewrite app_nil_r.
  - destruct landed; [by apply decode_step_kept|]. split; [done|]. intros _. destruct (Hq eq_refl). split; [done|congruence|done].
Qed.

Lemma pump_quiet fuel i r clk i' r' clk' :
  pollable i -> rc_wf r -> numbered_legs i ->
  pump fuel i r clk = Some (Ok tt, i', r', clk') ->
  round_kept (i', r', clk') /\ (ready i' = [] -> all_quiet fuel i' r').
Proof.
  intros Hp Hr Hn E. unfold pump in E.
  assert (Hs : rc_wf (if GapRequestHandler.has_pending (gap_handler i)
      then match Receiver.session i with Some s => send_due r clk s (gap_handler i) | None => (r, clk) end else (r, clk)).1).
  { destruct (GapRequestHandler.has_pending _); [|done]. destruct (Receiver.session i); [|done]. by apply rc_send. }
  destruct (if GapRequestHandler.has_pending _ then _ else _) as [r1 c1].
  destruct (iterate _ _ _) as [x|] eqn:Eit; [|done]. simpl in E. subst x. change (left_quiet fuel (Some (Ok tt, i', r', clk'))).
  refine (iterate_inv (pump_step fuel) round_kept (left_quiet fuel) _ _ _ _ _ _ Eit); [..|done].
  - intros st st' Hst Es. pose proof (pump_step_kept fuel st Hst) as Hk. by rewrite Es in Hk.
  - intros st x Hst Es. pose proof (pump_step_kept fuel st Hst) as Hk. by rewrite Es in Hk.
Qed.
End live.

(** ** Properties *)

Section properties.
Context {T F : Type} `{DatagramRecvOk T F, !AsRef F} {R : Type} `{RecoveryOk R}.

(** C15: Against legs and a requester that keep the receive contract, every [poll]
    returns: its loop cannot spin for ever on a finite backlog. *)
Theorem poll_terminates (i : Inner T F) (r : R) clk :
  pollable i -> rc_wf r -> exists n, forall fuel, (n <= fuel)%nat -> is_Some (poll fuel i r clk).
Proof. apply poll_returns. Qed.

(** C17: [poll] of a receiver with no more legs than stream numbers answers [Ok(None)] only
    after every one of its legs, asked for datagrams with room for some, answered that it has
    none, and the requester too while a gap is pending; nothing is then queued, decoded or
    not, so that a caller may park. *)
Theorem poll_none_quiet fuel (i : Inner T F) (r : R) clk i' r' clk' :
  pollable i -> rc_wf r -> numbered_legs i ->
  poll fuel i r clk = Some (Ok None, i', r', clk') -> all_quiet fuel i' r'.
Proof.
  intros Hp Hr Hn E. unfold poll in E. destruct (pump fuel _ r clk) as [[[[o j] q] c]|] eqn:Ep; [|done].
  assert (Hret : pollable (retire_current i) /\ numbered_legs (retire_current i))
    by (unfold retire_current, release_inline; by repeat case_match). destruct Hret.
  destruct o as [[]| |]; [|done..]. destruct (ready j) eqn:Er; [|by destruct (yield_item _ _) as [[| |] ?]].
  simplify_eq. by eapply pump_quiet in Ep as [_ Hq]; [apply Hq|..].
Qed.
End properties.

Lemma from_legs_pollable {T F : Type} `{DatagramRecvOk T F, !AsRef F} cfg ls (i : Inner T F) :
  Forall (bc_wf datagram_contract) ls -> from_legs cfg ls = Ok i -> pollable i.
Proof.
  intros Hl E. unfold from_legs in E.
  destruct (ok_or _ _); [|done..]. destruct (check_pools _ _); [|done..].
  destruct (if _ >? _ then _ else _); [|done..]. destruct (SequenceReassembler.new RING_CAPACITY); [|done..].
  destruct (cfg_start_sequence cfg); by simplify_eq.
Qed.

Lemma from_legs_numbered {T F : Type} `{DatagramRecv T F, AsRef F} cfg ls (i : Inner T F) : from_legs cfg ls = Ok i -> numbered_legs i.
Proof.
  intros E. unfold from_legs in E. destruct (ok_or _ _) as [n| |] eqn:En; [|done..].
  assert (Hls : legs i = ls).
  { destruct (check_pools _ _); [|done..]. destruct (if _ >? _ then _ else _); [|done..].
    destruct (SequenceReassembler.new RING_CAPACITY); [|done..]. destruct (cfg_start_sequence cfg); by simplify_eq. }
  unfold numbered_legs. rewrite Hls. unfold try_u8 in En. destruct (_ <=? U8_MAX) eqn:E8; bool_facts; [lia|done].
Qed.

Lemma poll_terminates_witness :
  exists i, from_legs (demo.cfg None) demo.late = Ok i /\
  exists n, forall fuel, (n <= fuel)%nat -> is_Some (poll fuel i NoRecovery demo.clock).
Proof.
  destruct (demo.go_polled None demo.late 0 (fun _ _ => true)) as (i & _ & _ & _ & _ & Hi & _); [vm_compute; reflexivity|].
  exists i. split; [exact Hi|]. apply (poll_terminates i NoRecovery demo.clock); [|done].
  by apply (from_legs_pollable (demo.cfg None) demo.late); [repeat constructor|].
Defined.

Lemma poll_none_quiet_witness :
  exists i i' r' c', from_legs (demo.cfg None) [demo.leg []] = Ok i /\
    poll 20 i NoRecovery demo.clock = Some (Ok None, i', r', c') /\ all_quiet 20 i' r'.
Proof.
  destruct (demo.go_polled None [demo.leg []] 0
    (fun outs i => (length outs =? 0)%nat &&
       match poll 20 i NoRecovery demo.clock with Some (Ok None, _, _, _) => true | _ => false end))
    as (i & outs & i0 & r0 & c0 & Hi & Hp & Hc); [vm_compute; reflexivity|].
  apply andb_true_iff in Hc as [Hz Hc]. apply Nat.eqb_eq, nil_length_inv in Hz. subst outs.
  inversion Hp as [|? outs0]; [|by destruct outs0]. subst.
  destruct (poll 20 i0 NoRecovery demo.clock) as [[[[[[o|]| |] i'] r'] c']|] eqn:E; try done.
  exists i0, i', r', c'. split_and!; [done|done|].
  apply (poll_none_quiet 20 i0 NoRecovery demo.clock i' r' c'); [|done| |exact E].
  - by apply (from_legs_pollable (demo.cfg None) [demo.leg []]); [repeat constructor|].
  - by apply (from_legs_numbered (demo.cfg None) [demo.leg []]).
Defined.
