(* ===== verification/MoldWait.v ===== *)
(** * client-moldudp: the asynchronous receive

    Models [receiver/wait.rs]: [recv] and [recv_owned] loop [pump], of [Receiver], around a wait
    on the readiness of every leg and, while a gap is pending, of the requester. A future is
    modelled by what its polls return; [patience] is how many polls of the readiness future the
    caller makes before it drops the call, so every point a timeout may cut is covered. *)

From S2P Require Import Prelude TransportCore MoldWire Reassembly Gap Arbiter Receiver ReceiverOrder ReceiverLive.
From Stdlib Require Import ZArith Lia.
From stdpp Require Import prelude list strings.

Open Scope Z_scope.
Open Scope res_scope.

Import FrameBatch (frames, cap, spare).

(** [SealedReady::ready]: one poll of its future. *)
Class AsyncRecovery (R : Type) := recovery_ready : R -> option (res TransportError unit) * R.

(** [future::pending()]. *)
#[export] Instance NoRecovery_ready : AsyncRecovery NoRecovery_t := fun r => (None, r).

#[export] Instance Requester_ready {Q G} `{AsyncReady Q} : AsyncRecovery (Requester Q G) := fun r =>
  let '(a, q) := poll_ready (sock r) in (a, {| sock := q; emitter := emitter r; scratch := scratch r |}).

Section wait.
Context {T F : Type} `{DatagramRecv T F, AsRef F, AsyncReady T} {R : Type} `{Recovery R, AsyncRecovery R}.
Implicit Types (i : Inner T F) (rec : R).

(** The [for] over the legs' futures: the first that is ready ends it. *)
Fixpoint poll_legs_ready (done todo : list T) : option (res TransportError unit) * list T :=
  match todo with
  | [] => (None, done)
  | leg :: todo =>
      match poll_ready leg with
      | (Some result, leg) => (Some result, done ++ leg :: todo)
      | (None, leg) => poll_legs_ready (done ++ [leg]) todo
      end
  end.

(** One poll of [wait_ready]'s [poll_fn]. *)
Definition wait_poll (gap_pending : bool) i rec : option (res TransportError unit) * Inner T F * R :=
  let '(result, ls) := poll_legs_ready [] (legs i) in
  let i := set_legs ls i in
  match result with
  | Some result => (Some result, i, rec)
  | None => if gap_pending then let '(result, rec) := recovery_ready rec in (result, i, rec) else (None, i, rec)
  end.

(** The [await] on it; [None] is a call dropped there. What is left of [patience] goes on. *)
Fixpoint wait_polls (gap_pending : bool) (patience : nat) i rec : option (res TransportError unit) * Inner T F * R * nat :=
  match patience with
  | O => (None, i, rec, O)
  | S patience =>
      match wait_poll gap_pending i rec with
      | (Some result, i, rec) => (Some result, i, rec, patience)
      | (None, i, rec) => wait_polls gap_pending patience i rec
      end
  end.

(** [wait_ready]. *)
Definition wait_ready (patience : nat) i rec : option (res MoldUdpError unit) * Inner T F * R * nat :=
  let '(result, i, rec, patience) := wait_polls (GapRequestHandler.has_pending (gap_handler i)) patience i rec in
  (map_err Transport_ <$> result, i, rec, patience).

(** How a call ended: [None] when its future was dropped. *)
Definition ended (A : Type) : Type := option (res MoldUdpError A) * Inner T F * R * Clock.

(** One round of the [loop] of [next_item]. *)
Definition next_item_step (fuel : nat) (st : Inner T F * R * Clock * nat)
    : option (step (Inner T F * R * Clock * nat) (ended (ReadyItem F))) :=
  let '(i, rec, clk, patience) := st in
  '(out, i, rec, clk) ← pump fuel i rec clk;
  match out with
  | Err e => Some (Leave (Some (Err e), i, rec, clk))
  | Panic => Some (Leave (Some Panic, i, rec, clk))
  | Ok _ =>
      match ready i with
      | item :: rest => Some (Leave (Some (Ok item), set_ready rest i, rec, clk))
      | [] =>
          let '(result, i, rec, patience) := wait_ready patience i rec in
          Some (match result with
                | None => Leave (None, i, rec, clk)
                | Some (Ok _) => Again (i, rec, clk, patience)
                | Some (Err e) => Leave (Some (Err e), i, rec, clk)
                | Some Panic => Leave (Some Panic, i, rec, clk)
                end)
      end
  end.

Definition next_item (fuel : nat) (patience : nat) i rec clk : option (ended (ReadyItem F)) :=
  loop (next_item_step fuel) fuel (i, rec, clk, patience).

(** What follows [next_item().await?]. *)
Definition yielding (yield : ReadyItem F -> Inner T F -> res MoldUdpError (MoldUdpOutcome F) * Inner T F)
    (e : ended (ReadyItem F)) : ended (MoldUdpOutcome F) :=
  let '(item, i, rec, clk) := e in
  match item with
  | Some (Ok item) => let '(out, i) := yield item i in (Some out, i, rec, clk)
  | Some (Err e) => (Some (Err e), i, rec, clk)
  | Some Panic => (Some Panic, i, rec, clk)
  | None => (None, i, rec, clk)
  end.

(** [MoldUdpReceiver::recv]. *)
Definition recv (fuel patience : nat) i rec clk : option (ended (MoldUdpOutcome F)) :=
  yielding yield_item <$> next_item fuel patience (retire_current i) rec clk.

(** [MoldUdpReceiver::recv_owned]. *)
Definition recv_owned (fuel patience : nat) i rec clk : option (ended (MoldUdpOutcome F)) :=
  yielding yield_owned <$> next_item fuel patience (retire_current i) rec clk.

(** A call's outcome as [poll] would report it: a dropped one handed out nothing. *)
Definition reported {A} (out : option (res MoldUdpError A)) : res MoldUdpError (option A) :=
  match out with
  | Some (Ok a) => Ok (Some a)
  | Some (Err e) => Err e
  | Some Panic => Panic
  | None => Ok None
  end.

(** Any calls of one receiver, with what each reported; [recv] may be dropped anywhere. *)
Inductive called : Inner T F * R * Clock -> list (res MoldUdpError (option (MoldUdpOutcome F))) ->
    Inner T F * R * Clock -> Prop :=
  | called_nil st : called st [] st
  | called_poll st outs i rec clk fuel out i' rec' clk' :
      called st outs (i, rec, clk) -> poll fuel i rec clk = Some (out, i', rec', clk') ->
      called st (outs ++ [out]) (i', rec', clk')
  | called_recv st outs i rec clk fuel patience out i' rec' clk' :
      called st outs (i, rec, clk) -> recv fuel patience i rec clk = Some (out, i', rec', clk') ->
      called st (outs ++ [reported out]) (i', rec', clk')
  | called_owned st outs i rec clk fuel patience out i' rec' clk' :
      called st outs (i, rec, clk) -> recv_owned fuel patience i rec clk = Some (out, i', rec', clk') ->
      called st (outs ++ [reported out]) (i', rec', clk').

(** ** The wait changes the sources only *)

Lemma poll_legs_ready_length done todo : length (poll_legs_ready done todo).2 = (length done + length todo)%nat.
Proof using.
  revert done. induction todo as [|leg todo IH]; intros done; cbn [poll_legs_ready]; [simpl; lia|].
  destruct (poll_ready leg) as [[r|] leg']; cbn [snd]; [by rewrite length_app|]. rewrite IH, length_app. simpl. lia.
Qed.

Definition waited i i' : Prop := exists ls, i' = set_legs ls i.

Lemma wait_polls_waited g patience i rec result i' rec' left_ :
  wait_polls g patience i rec = (result, i', rec', left_) -> waited i i' /\ (left_ <= patience)%nat /\ (is_Some result -> left_ < patience)%nat.
Proof using.
  revert i rec. induction patience as [|n IH]; intros i rec E; cbn [wait_polls] in E.
  { simplify_eq. split_and!; [by exists (legs i'); destruct i'|done|by intros [? ?]]. }
  destruct (wait_poll g i rec) as [[r j] q] eqn:Ew.
  assert (Hj : waited i j) by (unfold wait_poll in Ew; repeat case_match; simplify_eq; by eexists).
  destruct Hj as [ls ->]. destruct r as [r|].
  - simplify_eq. split_and!; [by exists ls|lia|intros; lia].
  - destruct (IH _ _ E) as ([ls' ->] & ? & Hs). split_and!; [by exists ls'|lia|intros Hx; specialize (Hs Hx); lia].
Qed.

(** No leg is lost by it. *)
Lemma wait_ready_legs patience i rec : length (legs (wait_ready patience i rec).1.1.2) = length (legs i).
Proof using.
  unfold wait_ready. generalize (GapRequestHandler.has_pending (gap_handler i)). intros g.
  assert (Hw : length (legs (wait_polls g patience i rec).1.1.2) = length (legs i));
    [|by destruct (wait_polls g patience i rec) as [[[? ?] ?] ?]].
  revert i rec. induction patience as [|n IH]; intros i rec; cbn [wait_polls]; [done|].
  assert (Hj : length (legs (wait_poll g i rec).1.2) = length (legs i)).
  { unfold wait_poll. pose proof (poll_legs_ready_length [] (legs i)) as Hl.
    destruct (poll_legs_ready [] (legs i)) as [r ls]. by repeat case_match. }
  destruct (wait_poll g i rec) as [[[r|] j] q]; [done|]. rewrite IH. done.
Qed.

(** Without patience nothing is polled. *)
Lemma wait_ready_waited patience i rec result i' rec' left_ :
  wait_ready patience i rec = (result, i', rec', left_) ->
  waited i i' /\ (left_ <= patience)%nat /\ (is_Some result -> left_ < patience)%nat.
Proof using.
  unfold wait_ready. destruct (wait_polls _ patience i rec) as [[[r j] q] l] eqn:Ew. intros E. simplify_eq.
  destruct (wait_polls_waited _ _ _ _ _ _ _ _ Ew) as (? & ? & Hs). split_and!; [done|done|]. intros Hx. apply Hs.
  by apply fmap_is_Some in Hx.
Qed.
End wait.

(** ** Delivery order *)

Section order.
Context {T F : Type} `{DatagramRecv T F, AsRef F, AsyncReady T} {R : Type} `{Recovery R, AsyncRecovery R}.
Implicit Types (i : Inner T F) (rec : R).

Lemma waited_history a done i i' : history a done i -> waited i i' -> history a done i'.
Proof using.
  intros Hi [ls ->]. eapply history_step; [exact Hi|]. intros a' Ha. exists a'. split; [|done]. by apply (in_order_same _ _ i).
Qed.

(** [next_item] takes the head of a queue in order, or leaves the order as it was. *)
Lemma next_item_history a done fuel patience i rec clk out i' rec' clk' :
  history a done i -> next_item fuel patience i rec clk = Some (out, i', rec', clk') ->
  match out with
  | Some (Ok item) => exists j rest, history a done j /\ ready j = item :: rest /\ i' = set_ready rest j
  | _ => history a done i'
  end.
Proof using.
  intros Hi E. unfold next_item in E.
  refine (loop_inv (next_item_step fuel) (fun st => history a done st.1.1.1)
    (fun e : ended (T := T) (F := F) (R := R) (ReadyItem F) => let '(out, i', _, _) := e in
       match out with
       | Some (Ok item) => exists j rest, history a done j /\ ready j = item :: rest /\ i' = set_ready rest j
       | _ => history a done i'
       end) fuel (i, rec, clk, patience) (out, i', rec', clk') _ _ Hi E); clear.
  - intros [[[i rec] c] n] st' Hi Hs. cbn [fst] in Hi. unfold next_item_step in Hs.
    destruct (pump fuel i rec c) as [[[[o j] q] c']|] eqn:Ep; [|done]. cbn in Hs.
    pose proof (pump_history _ _ _ _ _ _ _ _ _ _ Hi Ep) as Hj. destruct o as [[]| |]; [|done..]. destruct (ready j); [|done].
    destruct (wait_ready n j q) as [[[r k] q'] n'] eqn:Ew. apply wait_ready_waited in Ew as (Hw & _).
    destruct r as [[[]| |]|]; simplify_eq. by eapply waited_history.
  - intros [[[i rec] c] n] e Hi Hs. cbn [fst] in Hi. unfold next_item_step in Hs.
    destruct (pump fuel i rec c) as [[[[o j] q] c']|] eqn:Ep; [|done]. cbn in Hs.
    pose proof (pump_history _ _ _ _ _ _ _ _ _ _ Hi Ep) as Hj. destruct o as [[]| |]; simplify_eq; [|done..].
    destruct (ready j) as [|item rest] eqn:Er; [|simplify_eq; by exists j, rest].
    destruct (wait_ready n j q) as [[[r k] q'] n'] eqn:Ew. apply wait_ready_waited in Ew as (Hw & _).
    assert (history a done k) by (by eapply waited_history). by destruct r as [[[]| |]|]; simplify_eq.
Qed.

Lemma yield_owned_yields item i y k : yield_owned item i = (y, k) -> y <> Panic -> yields item i y k.
Proof using.
  unfold yield_owned, yields, share_backing, release_inline. intros E _. destruct item; try by simplify_eq.
  destruct (share (backing i)) as [b arc]. repeat case_match; by simplify_eq.
Qed.

(** [recv] and [recv_owned] alike, by what their yield does. *)
Lemma recv_history yield a done fuel patience i rec clk out i' rec' clk' :
  (forall item j y k, yield item j = (y, k) -> y <> Panic -> yields item j y k) ->
  history a done i -> yielding yield <$> next_item fuel patience (retire_current i) rec clk = Some (out, i', rec', clk') ->
  handed (reported out) -> history a (done ++ frame_seqs [reported out]) i'.
Proof using.
  intros Hy Hi E Hout. apply retire_history in Hi.
  destruct (next_item _ _ _ _ _) as [[[[o j] q] c]|] eqn:En; [|done]. apply next_item_history with (1 := Hi) in En.
  cbn in E. injection E as E. destruct o as [[item|e|]|]; simplify_eq; try by rewrite app_nil_r.
  destruct En as (k & rest & Hk & Er & ->). destruct (yield item _) as [y k'] eqn:Ey. simplify_eq.
  assert (Hne : y <> Panic) by (by intros ->). replace (reported (Some y)) with (let* o := y in Ok (Some o)) by (by destruct y).
  eapply popped_history; [done..|]. by apply Hy.
Qed.

Lemma called_history a done i rec clk outs i' rec' clk' :
  history a done i -> called (i, rec, clk) outs (i', rec', clk') -> Forall handed outs ->
  history a (done ++ frame_seqs outs) i'.
Proof using.
  intros Hi Hp Hf. remember (i, rec, clk) as st eqn:Est. remember (i', rec', clk') as st' eqn:Est'.
  revert i' rec' clk' Est' Hf.
  induction Hp as [|st outs j r c fuel out j' r' c' Hp IH Hc|st outs j r c fuel n out j' r' c' Hp IH Hc
                  |st outs j r c fuel n out j' r' c' Hp IH Hc]; intros ? ? ? ? Hf; simplify_eq; [by rewrite app_nil_r|..];
    apply Forall_app in Hf as [Ho [Hl _]%Forall_cons]; unfold frame_seqs; rewrite omap_app, app_assoc.
  - eapply poll_history; [by eapply IH|done|done].
  - eapply (recv_history yield_item); [apply yield_item_yields|by eapply IH|done|done].
  - eapply (recv_history yield_owned); [apply yield_owned_yields|by eapply IH|done|done].
Qed.
End order.

(** ** Waiting only when there is nothing, and returning *)

Section live.
Context {T F : Type} `{DatagramRecvOk T F, !AsRef F, AsyncReady T} {R : Type} `{RecoveryOk R, !AsyncRecovery R}.
Implicit Types (i : Inner T F) (rec : R).

(** Readiness and re-requests leave the receive side sound, and do not add to what it will
    still deliver: that backlog counts everything to come, answers included. *)
Class ReadyOk := {
  ready_leg : forall t : T, bc_wf datagram_contract t ->
    bc_wf datagram_contract (poll_ready t).2 /\
    (bc_backlog datagram_contract (poll_ready t).2 <= bc_backlog datagram_contract t)%nat /\
    (poll_ready t).1 <> Some Panic;
  ready_recovery : forall r : R, rc_wf r ->
    rc_wf (recovery_ready r).2 /\ (rc_backlog (recovery_ready r).2 <= rc_backlog r)%nat /\
    (recovery_ready r).1 <> Some Panic;
  send_backlog : forall (r : R) clk s g, rc_wf r -> (rc_backlog (send_due r clk s g).1 <= rc_backlog r)%nat;
}.
Context {Hready : ReadyOk}.

Lemma poll_legs_ready_live done todo :
  Forall (bc_wf datagram_contract) done -> Forall (bc_wf datagram_contract) todo ->
  let '(result, ls) := poll_legs_ready done todo in
  Forall (bc_wf datagram_contract) ls /\ (legs_backlog ls <= legs_backlog done + legs_backlog todo)%nat /\
  result <> Some Panic.
Proof using Hready.
  revert done. induction todo as [|leg todo IH]; intros done Hd Ht; cbn [poll_legs_ready].
  { split_and!; [done|lia|done]. }
  apply Forall_cons in Ht as [Hl Ht]. destruct (ready_leg leg Hl) as (Hw1 & Hb1 & Hn1). destruct (poll_ready leg) as [r leg'].
  cbn [fst snd] in *. rewrite legs_backlog_cons. destruct r as [r|].
  - split_and!; [apply Forall_app; by repeat constructor| |done]. rewrite legs_backlog_app, legs_backlog_cons. lia.
  - specialize (IH (done ++ [leg'])). destruct (poll_legs_ready _ _) as [r ls].
    destruct IH as (? & Hb & ?); [apply Forall_app; by repeat constructor|done|]. split_and!; [done| |done].
    rewrite legs_backlog_app, legs_backlog_cons in Hb. unfold legs_backlog at 3 in Hb. simpl in Hb. lia.
Qed.

(** The states a wait passes through stay sound, with no more to come. *)
Definition calm i rec i' rec' : Prop := pollable i' /\ rc_wf rec' /\ (waiting i' rec' <= waiting i rec)%nat.

Lemma wait_poll_live g i rec :
  pollable i -> rc_wf rec ->
  let '(result, i', rec') := wait_poll g i rec in calm i rec i' rec' /\ result <> Some Panic.
Proof using Hready.
  intros (Hl & Hf & Hc) Hr. unfold wait_poll. pose proof (poll_legs_ready_live [] (legs i) (Forall_nil_2 _) Hl) as Hp.
  destruct (poll_legs_ready [] (legs i)) as [r ls]. destruct Hp as (Hls & Hb & Hn).
  assert (Hlb : (legs_backlog ls <= legs_backlog (legs i))%nat) by (unfold legs_backlog in *; simpl in *; lia).
  unfold calm, waiting, pollable. destruct r as [r|]; [|destruct g].
  - split_and!; fields; try done. lia.
  - destruct (ready_recovery rec Hr) as (? & ? & ?). destruct (recovery_ready rec) as [r rec']. cbn [fst snd] in *.
    split_and!; fields; try done. lia.
  - split_and!; fields; try done. lia.
Qed.

Lemma wait_ready_live patience i rec :
  pollable i -> rc_wf rec ->
  let '(result, i', rec', _) := wait_ready patience i rec in calm i rec i' rec' /\ result <> Some Panic.
Proof using Hready.
  intros Hp Hr. unfold wait_ready. generalize (GapRequestHandler.has_pending (gap_handler i)). intros g.
  assert (Hi : calm i rec i rec) by (by split_and!). revert Hi. generalize i at 2 3 as j. generalize rec at 2 3 as q.
  induction patience as [|n IH]; intros q j (Hpj & Hq & Hm); cbn [wait_polls]; [by split_and!|].
  pose proof (wait_poll_live g j q Hpj Hq) as Hw. destruct (wait_poll g j q) as [[r k] q'].
  destruct Hw as ((Hpk & Hq' & Hm') & Hn). destruct r as [r|].
  - split; [split_and!; [done|done|lia]|]. by destruct r.
  - apply IH. split_and!; [done|done|lia].
Qed.

(** A dropped call, parked on its readiness, had found every source empty. *)
Lemma next_item_parks fuel patience i rec clk i' rec' clk' :
  pollable i -> rc_wf rec -> numbered_legs i ->
  next_item fuel patience i rec clk = Some (None, i', rec', clk') ->
  exists j q, all_quiet fuel j q /\ waited j i'.
Proof using Hready.
  intros Hp Hr Hn E. unfold next_item in E.
  pose (Q := fun e : ended (T := T) (F := F) (R := R) (ReadyItem F) => let '(out, i', _, _) := e in
    match out with None => exists j q, all_quiet fuel j q /\ waited j i' | _ => True end).
  change (Q (None, i', rec', clk')).
  refine (loop_inv (next_item_step fuel) (fun st => round_kept st.1) Q _ (i, rec, clk, patience) _ _ _ _ E); [..|done].
  - clear - Hready. intros [[[i rec] c] n] st' (Hp & Hr & Hn) Hs. unfold next_item_step in Hs.
    destruct (pump fuel i rec c) as [[[[o j] q] c']|] eqn:Ep; [|done]. cbn in Hs. destruct o as [[]| |]; [|done..].
    destruct (pump_quiet _ _ _ _ _ _ _ Hp Hr Hn Ep) as [(Hpj & Hq & Hnj) _]. destruct (ready j); [|done].
    pose proof (wait_ready_live n j q Hpj Hq) as Hl. pose proof (wait_ready_legs n j q) as Hlen.
    destruct (wait_ready n j q) as [[[r k] q'] n']. destruct Hl as [(? & ? & _) _].
    destruct r as [[[]| |]|]; simplify_eq. split_and!; [done|done|]. unfold numbered_legs, len in *. cbn [fst snd] in Hlen. by rewrite Hlen.
  - clear - Hready. intros [[[i rec] c] n] e (Hp & Hr & Hn) Hs. unfold next_item_step in Hs.
    destruct (pump fuel i rec c) as [[[[o j] q] c']|] eqn:Ep; [|done]. cbn in Hs. destruct o as [[]| |]; simplify_eq; [|done..].
    destruct (pump_quiet _ _ _ _ _ _ _ Hp Hr Hn Ep) as [_ Hquiet].
    destruct (ready j) as [|item rest]; [|by simplify_eq].
    destruct (wait_ready n j q) as [[[r k] q'] n'] eqn:Ew. apply wait_ready_waited in Ew as (Hw & _).
    destruct r as [[[]| |]|]; simplify_eq; try done. exists j, q. by split; [apply Hquiet|].
Qed.

(** A round that leaves, leaves the sources sound. *)
Lemma pump_step_leaves fuel i rec clk out i' rec' clk' :
  pollable i -> rc_wf rec -> (waiting i rec < fuel)%nat ->
  pump_step fuel (i, rec, clk) = Leave (Some (out, i', rec', clk')) -> calm i rec i' rec'.
Proof using.
  intros Hp Hr Hfuel E. unfold pump_step in E.
  assert (Hdec : forall j q c, pollable j -> rc_wf q -> (waiting j q <= waiting i rec)%nat ->
    decode_step j q c = Leave (Some (out, i', rec', clk')) -> calm i rec i' rec').
  { intros j q c Hpj Hq Hm Ed. unfold decode_step in Ed. set (w := match arbiter j with Some _ => _ | None => _ end) in Ed.
    destruct w as [now c']. destruct (process_next_pending now j) as [o k] eqn:En.
    destruct (process_next_shrinks _ _ _ _ En) as (Hq1 & Hq2 & Hq3).
    assert (Hk : calm i rec k q); [|by destruct o as [[]| |]; simplify_eq].
    unfold calm, pollable, waiting in *. rewrite Hq1, Hq2, Hq3. split_and!; try apply Hpj; [done|].
    destruct (pending_datagrams j); simpl in *; lia. }
  destruct (ready i); [|simplify_eq; by split_and!].
  destruct (pending_datagrams i) eqn:Ep; [|by apply Hdec in E]. unfold waiting in Hfuel.
  destruct (poll_legs_live fuel i Hp Ep ltac:(lia)) as (o & j & El & Hpj & _ & Hm & _). rewrite El in E.
  assert (Hw : (waiting j rec <= waiting i rec)%nat) by (unfold waiting; rewrite Ep; simpl; lia).
  destruct o as [landed| |]; [|simplify_eq; by split_and!..].
  destruct (GapRequestHandler.has_pending _).
  - destruct (rc_total fuel rec Hr ltac:(lia)) as [[[o copies] q] Erec]. rewrite Erec in E.
    destruct (rc_sound _ _ _ _ _ Hr Erec) as (Hq & Hb & _).
    assert (Hk : pollable (with_copies copies j) /\ (waiting (with_copies copies j) q <= waiting i rec)%nat).
    { split; [done|]. unfold waiting, with_copies in *. fields. rewrite length_app, length_fmap. lia. }
    destruct Hk as [Hk1 Hk2]. destruct o as [more| |]; [|simplify_eq; by split_and!..].
    destruct (landed || more); [|simplify_eq; by split_and!]. by apply (Hdec (with_copies copies j)) in E.
  - destruct landed; [by apply Hdec in E|]. simplify_eq. by split_and!.
Qed.

Lemma pump_live fuel i rec clk :
  pollable i -> rc_wf rec -> (waiting i rec < fuel)%nat ->
  exists out i' rec' clk', pump fuel i rec clk = Some (out, i', rec', clk') /\ calm i rec i' rec'.
Proof using Hready.
  intros Hp Hr Hfuel. unfold pump.
  assert (Hs : let s := (if GapRequestHandler.has_pending (gap_handler i)
      then match Receiver.session i with Some s => send_due rec clk s (gap_handler i) | None => (rec, clk) end
      else (rec, clk)) in rc_wf s.1 /\ (rc_backlog s.1 <= rc_backlog rec)%nat).
  { destruct (GapRequestHandler.has_pending _); [|done]. destruct (Receiver.session i); [|done].
    split; [by apply rc_send|by apply send_backlog]. }
  cbv zeta in Hs. destruct (if GapRequestHandler.has_pending _ then _ else _) as [r1 c1]. destruct Hs as [Hr1 Hb]. cbn [fst] in *.
  assert (Hw : (waiting i r1 <= waiting i rec)%nat) by (unfold waiting; lia).
  destruct (iterate_pump fuel fuel (i, r1, c1)) as [[[[o j] q] c] Ei]; [done|simpl; lia|simpl; lia|]. rewrite Ei.
  exists o, j, q, c. split; [done|].
  refine (iterate_inv (pump_step fuel) (fun '(k, x, _) => calm i rec k x)
    (fun x => match x with Some (_, i', r', _) => calm i rec i' r' | None => True end)
    fuel (i, r1, c1) (Some (o, j, q, c)) _ _ (conj Hp (conj Hr1 Hw)) Ei).
  - intros [[k x] c2] [[k' x'] c3] (Hk1 & Hk2 & Hk3) Es.
    destruct (pump_step_live fuel (k, x, c2) _ (conj Hk1 Hk2) ltac:(simpl; lia) Es) as [[? ?] ?]. simpl in *. split_and!; [done|done|lia].
  - intros [[k x] c2] [[[[o2 k'] x'] c3]|] (Hk1 & Hk2 & Hk3) Es; [|done].
    destruct (pump_step_leaves fuel k x c2 o2 k' x' c3 Hk1 Hk2 ltac:(lia) Es) as (? & ? & ?). split_and!; [done|done|lia].
Qed.

(** [next_item] returns: every round but the last uses up patience. *)
Lemma next_item_returns fuel patience i rec clk :
  pollable i -> rc_wf rec -> (waiting i rec < fuel)%nat -> (patience < fuel)%nat ->
  is_Some (next_item fuel patience i rec clk).
Proof using Hready.
  intros Hp Hr Hw Hf. unfold next_item.
  apply (loop_total (next_item_step fuel) (fun '(j, q, _, _) => calm i rec j q) (fun st => st.2)); [| |by split_and!|done].
  - intros [[[j q] c] n] (Hj1 & Hj2 & Hj3). unfold next_item_step.
    destruct (pump_live fuel j q c Hj1 Hj2 ltac:(lia)) as (o & k & x & c' & -> & _). cbn.
    destruct o as [[]| |]; [|by eexists..]. destruct (ready k); [|by eexists]. by destruct (wait_ready n k x) as [[[r ?] ?] ?].
  - intros [[[j q] c] n] st' (Hj1 & Hj2 & Hj3) Es. unfold next_item_step in Es.
    destruct (pump_live fuel j q c Hj1 Hj2 ltac:(lia)) as (o & k & x & c' & Ep & Hk1 & Hk2 & Hk3). rewrite Ep in Es. cbn in Es.
    destruct o as [[]| |]; [|done..]. destruct (ready k); [|done].
    pose proof (wait_ready_live n k x Hk1 Hk2) as Hl. destruct (wait_ready n k x) as [[[r y] q'] n'] eqn:Ew.
    apply wait_ready_waited in Ew as (_ & _ & Hn). destruct Hl as [(? & ? & ?) _].
    destruct r as [[[]| |]|]; simplify_eq. cbn [snd]. split; [split_and!; [done|done|lia]|]. apply Hn. by eexists.
Qed.
End live.

(** ** Worked calls *)

(** A scripted leg is ready while it holds a burst. *)
#[export] Instance Scripted_ready : AsyncReady Scripted := fun t =>
  (match bursts t with [] => None | _ => Some (Ok tt) end, t).

#[export] Instance Scripted_ready_ok : ReadyOk (T := Scripted) (F := list byte) (R := NoRecovery_t).
Proof. split; [|done|done]. intros t Ht. split_and!; [done|done|]. unfold poll_ready, Scripted_ready. simpl. by destruct (bursts t). Defined.

Module calls.
Inductive Call := Poll | Recv (patience : nat) | RecvOwned (patience : nat).

Definition once (c : Call) (st : Inner Scripted (list byte) * NoRecovery_t * Clock) :=
  let '(i, r, clk) := st in
  match c with
  | Poll => poll 20 i r clk
  | Recv n => '(out, i, r, clk) ← recv 20 n i r clk; Some (reported out, i, r, clk)
  | RecvOwned n => '(out, i, r, clk) ← recv_owned 20 n i r clk; Some (reported out, i, r, clk)
  end.

Fixpoint all (l : list Call) (st : Inner Scripted (list byte) * NoRecovery_t * Clock)
    (outs : list (res MoldUdpError (option (MoldUdpOutcome (list byte))))) :=
  match l with
  | [] => Some (outs, st)
  | c :: l => '(out, i, r, clk) ← once c st; all l (i, r, clk) (outs ++ [out])
  end.

Lemma all_called l st0 st outs outs' st' :
  called st0 outs st -> all l st outs = Some (outs', st') -> called st0 outs' st'.
Proof.
  revert st outs. induction l as [|c l IH]; intros [[i r] clk] outs Hc E; cbn [all] in E; [by simplify_eq|].
  destruct (once c _) as [[[[out i'] r'] clk']|] eqn:Eo; [|done]. cbn in E. apply IH in E; [done|].
  destruct c as [|n|n]; cbn [once] in Eo; [by eapply called_poll| |].
  - destruct (recv 20 n i r clk) as [[[[o j] q] c]|] eqn:Er; [|done]. cbn in Eo. simplify_eq. by eapply called_recv.
  - destruct (recv_owned 20 n i r clk) as [[[[o j] q] c]|] eqn:Er; [|done]. cbn in Eo. simplify_eq. by eapply called_owned.
Qed.

(** Facts of a run, checked by evaluation, carried over to its derivation. *)
Lemma go_called start ls l (check : list (res MoldUdpError (option (MoldUdpOutcome (list byte)))) -> bool) :
  match from_legs (demo.cfg start) ls with
  | Ok i => match all l (i, NoRecovery, demo.clock) [] with Some (outs, _) => check outs | None => false end
  | _ => false
  end = true ->
  exists i outs i' r' c', from_legs (demo.cfg start) ls = Ok i /\
    called (i, NoRecovery, demo.clock) outs (i', r', c') /\ check outs = true.
Proof.
  destruct (from_legs (demo.cfg start) ls) as [i| |]; [|done..]. destruct (all l _ []) as [[outs [[i' r'] c']]|] eqn:E; [|done].
  intros Hc. exists i, outs, i', r', c'. split_and!; [done| |done]. eapply all_called; [constructor|done].
Qed.
End calls.

(** ** Properties *)

(** C1: For any calls of [poll], [recv] and [recv_owned], the last two dropped at any await,
    on a receiver built by [from_legs] with any number of legs, any recovery mode, any input
    and any schedule of readiness, the sequence numbers of the messages handed to the caller
    are consecutive, with no duplicate, no reordering and no omission, from the configured
    start when there is one: dropping a call loses nothing. *)
Theorem calls_in_order {T F : Type} `{DatagramRecv T F, AsRef F, AsyncReady T} {R : Type} `{Recovery R, AsyncRecovery R}
    cfg (ls : list T) (i : Inner T F) (rec : R) clk outs i' rec' clk' :
  (forall s, cfg_start_sequence cfg = Some s -> u64 s) ->
  from_legs cfg ls = Ok i -> called (i, rec, clk) outs (i', rec', clk') -> Forall handed outs ->
  exists a, frame_seqs outs = run a (length (frame_seqs outs)) /\
    (forall s, cfg_start_sequence cfg = Some s -> a = s).
Proof.
  intros Hs Hi Hp Ho. pose proof (from_legs_history _ _ _ Hs Hi) as Hh.
  destruct (called_history _ _ _ _ _ _ _ _ _ Hh Hp Ho) as ([a|] & [_ Hord] & Ha); simpl in Hord.
  - destruct Hord as (_ & n & Hn & _). exists a. split; [by eapply run_prefix|].
    intros s Es. apply Ha in Es. congruence.
  - destruct Hord as (_ & -> & _). exists (default 0 (cfg_start_sequence cfg)). split; [done|].
    intros s ->. done.
Qed.

Lemma calls_in_order_witness :
  exists i outs i' r' c', from_legs (demo.cfg (Some 7)) demo.late = Ok i /\
    called (i, NoRecovery, demo.clock) outs (i', r', c') /\ frame_seqs outs = run 7 3.
Proof.
  destruct (calls.go_called (Some 7) demo.late
    [calls.Recv 3; calls.Poll; calls.RecvOwned 2; calls.Recv 1; calls.Recv 2; calls.Recv 3]
    (fun outs => demo.no_panic outs && (length (frame_seqs outs) =? 3)%nat)) as (i & outs & i' & r' & c' & Hi & Hp & Hc);
    [vm_compute; reflexivity|].
  apply andb_true_iff in Hc as [Hn Hl]. apply Nat.eqb_eq in Hl. exists i, outs, i', r', c'. split_and!; [done|done|].
  destruct (calls_in_order (demo.cfg (Some 7)) demo.late i NoRecovery demo.clock outs i' r' c') as (a & Ha & Hs);
    [by intros s [= <-]|done|done|by apply demo.no_panic_handed|].
  rewrite Ha, (Hs 7 eq_refl), Hl. done.
Defined.

(** C18: [recv] and [recv_owned], against sources that keep their contract, return or are
    dropped within the caller's patience: no round spins. A call dropped while parked had
    found, in the round before it parked, every leg, and the requester while a gap is pending,
    with nothing to deliver, and nothing was queued, decoded or not. *)
Theorem recv_returns {T F : Type} `{DatagramRecvOk T F, !AsRef F, AsyncReady T} {R : Type} `{RecoveryOk R, !AsyncRecovery R, !ReadyOk}
    fuel patience (i : Inner T F) (rec : R) clk :
  pollable i -> rc_wf rec -> numbered_legs i -> (waiting i rec < fuel)%nat -> (patience < fuel)%nat ->
  exists out i' rec' clk' out2 i2 rec2 clk2,
    recv fuel patience i rec clk = Some (out, i', rec', clk') /\
    recv_owned fuel patience i rec clk = Some (out2, i2, rec2, clk2) /\
    (out = None -> exists j q, all_quiet fuel j q /\ waited j i') /\
    (out2 = None -> exists j q, all_quiet fuel j q /\ waited j i2).
Proof.
  intros Hp Hr Hn Hw Hf. assert (Hq : (pollable (retire_current i) /\ numbered_legs (retire_current i)) /\ waiting (retire_current i) rec = waiting i rec)
    by (unfold retire_current, release_inline; by repeat case_match).
  destruct Hq as [[Hq1 Hn1] Hq2]. rewrite <- Hq2 in Hw.
  destruct (next_item_returns fuel patience _ rec clk Hq1 Hr Hw Hf) as [[[[o j] q] c] En].
  unfold recv, recv_owned. rewrite En. cbn [fmap option_fmap option_map].
  destruct o as [[item|e|]|]; cbn [yielding].
  - destruct (yield_item item j), (yield_owned item j). eexists _, _, _, _, _, _, _, _. split_and!; done.
  - eexists _, _, _, _, _, _, _, _. split_and!; done.
  - eexists _, _, _, _, _, _, _, _. split_and!; done.
  - exists None, j, q, c, None, j, q, c. split_and!; [done|done|..]; intros _; by eapply next_item_parks.
Qed.

Lemma recv_returns_witness :
  exists i : Inner Scripted (list byte), from_legs (demo.cfg None) demo.late = Ok i /\
  exists out i' rec' clk' out2 i2 rec2 clk2,
    recv 20 3 i NoRecovery demo.clock = Some (out, i', rec', clk') /\
    recv_owned 20 3 i NoRecovery demo.clock = Some (out2, i2, rec2, clk2) /\
    (out = None -> exists j q, all_quiet 20 j q /\ waited j i') /\
    (out2 = None -> exists j q, all_quiet 20 j q /\ waited j i2).
Proof.
  destruct (calls.go_called None demo.late [] (fun _ => true)) as (i & _ & _ & _ & _ & Hi & _); [vm_compute; reflexivity|].
  exists i. split; [exact Hi|].
  assert (Hl : legs i = demo.late /\ pending_datagrams i = []).
  { revert Hi. unfold from_legs. destruct (ok_or _ _); [|done..]. destruct (check_pools _ _); [|done..].
    destruct (if _ >? _ then _ else _); [|done..]. destruct (SequenceReassembler.new RING_CAPACITY); [|done..].
    by intros [= <-]. }
  destruct Hl as [Hl Hd]. apply (recv_returns 20 3 i NoRecovery demo.clock); [|done| | |lia].
  - by apply (from_legs_pollable (demo.cfg None) demo.late); [repeat constructor|].
  - by apply (from_legs_numbered (demo.cfg None) demo.late).
  - unfold waiting. rewrite Hl, Hd. simpl. lia.
Defined.
