(* ===== verification/MoldSafety.v ===== *)
(** * client-moldudp: calls of every kind are safe

    [recv] and [recv_owned], dropped at any await, keep the invariant of [ReceiverSafety] as
    [poll] does: readiness changes the sources only, and a frame the caller owns points into a
    datagram that was received. *)

From S2P Require Import Prelude TransportCore MoldWire Reassembly Gap Arbiter Receiver ReceiverOrder ReceiverSafety ReceiverLive MoldWait.
From Stdlib Require Import ZArith Lia.
From stdpp Require Import prelude list.

Open Scope Z_scope.
Open Scope res_scope.

Section calls.
Context {T F : Type} `{DatagramRecv T F, AsRef F, AsyncReady T} {R : Type} `{Recovery R, AsyncRecovery R}.
Implicit Types (i : Inner T F) (rec : R).

(** A call of one of the three kinds; [recv] and [recv_owned] report a dropped call as nothing. *)
Definition any_call : call_kind (T := T) (F := F) (R := R) := fun '(i, r, clk) out '(i', r', clk') =>
  exists fuel,
  poll fuel i r clk = Some (out, i', r', clk') \/
  exists patience o, out = reported o /\
    (recv fuel patience i r clk = Some (o, i', r', clk') \/ recv_owned fuel patience i r clk = Some (o, i', r', clk')).

Lemma wait_session i i' : waited i i' -> Receiver.session i' = Receiver.session i.
Proof using. by intros [ls ->]. Qed.

Section keeps.
Variable P : list byte -> Prop.
Variables (lone : Prop) (room : Z).
Hypothesis room_pos : 0 <= room.
Hypothesis room_window : lone \/ CAP <= room.
Variables (leg_ok : T -> Prop) (rec_ok : R -> Prop).
Hypothesis sources : sources_emit (F := F) P leg_ok rec_ok room.

(** Readiness leaves the sources in order. *)
Record ready_keeps : Prop := {
  rk_leg : forall t, leg_ok t -> leg_ok (poll_ready t).2 /\ (poll_ready t).1 <> Some Panic;
  rk_recovery : forall r, rec_ok r -> rec_ok (recovery_ready r).2 /\ (recovery_ready r).1 <> Some Panic;
}.
Hypothesis readies : ready_keeps.

Abbreviation sources_ok i rec := (Forall leg_ok (legs i) /\ rec_ok rec).

Lemma legs_ready_ok done todo :
  Forall leg_ok done -> Forall leg_ok todo ->
  let '(result, ls) := poll_legs_ready done todo in Forall leg_ok ls /\ result <> Some Panic.
Proof using readies.
  revert done. induction todo as [|leg todo IH]; intros done Hd Ht; cbn [poll_legs_ready]; [by split|].
  apply Forall_cons in Ht as [Hl Ht]. destruct (rk_leg readies leg Hl) as [Hl' Hn]. destruct (poll_ready leg) as [[r|] leg']; cbn [fst snd] in *.
  - split; [|done]. apply Forall_app. by repeat constructor.
  - apply IH; [|done]. apply Forall_app. by repeat constructor.
Qed.

Lemma wait_polls_ok g patience i rec :
  sources_ok i rec ->
  let '(result, i', rec', _) := wait_polls g patience i rec in sources_ok i' rec' /\ result <> Some Panic.
Proof using readies.
  revert i rec. induction patience as [|n IH]; intros i rec Hs; cbn [wait_polls]; [done|].
  assert (Hw : let '(result, i', rec') := wait_poll g i rec in sources_ok i' rec' /\ result <> Some Panic).
  { destruct Hs as [Hs Hr]. unfold wait_poll. pose proof (legs_ready_ok [] (legs i) (Forall_nil_2 _) Hs) as Hl.
    destruct (poll_legs_ready [] (legs i)) as [r ls]. destruct Hl as [Hl Hn]. destruct r as [r|]; [by split_and!|].
    destruct g; [|by split_and!]. destruct (rk_recovery readies rec Hr). destruct (recovery_ready rec) as [r rec']. by split_and!. }
  destruct (wait_poll g i rec) as [[r j] q]. destruct Hw as [Hj Hn]. destruct r as [r|]; [done|by apply IH].
Qed.

Lemma wait_ready_ok patience i rec result i' rec' n :
  sources_ok i rec -> wait_ready patience i rec = (result, i', rec', n) -> sources_ok i' rec' /\ result <> Some Panic.
Proof using readies.
  intros Hs. unfold wait_ready. pose proof (wait_polls_ok (GapRequestHandler.has_pending (gap_handler i)) patience i rec Hs) as Hw.
  destruct (wait_polls _ _ i rec) as [[[r j] q] m]. intros E. simplify_eq. destruct Hw as [? Hn]. split; [done|]. by destruct r as [[]|].
Qed.

Abbreviation going exact i rec := (pump_ok P lone room leg_ok rec_ok exact (Ok tt) i rec).

Lemma going_waited exact i i' rec rec' : going exact i rec -> waited i i' -> sources_ok i' rec' -> going exact i' rec'.
Proof using room_pos room_window.
  intros (_ & Hsc & _ & _) [ls ->] [Hl Hr]. split_and!; [done| |done|done]. intros Hcl. destruct (Hsc Hcl) as [Hs Hc]. split; [|done].
  destruct Hs; split; fields; try done. eapply core_same; [eassumption|done..].
Qed.

Lemma going_failed exact e i rec : going exact i rec -> pump_ok P lone room leg_ok rec_ok exact (Err e) i rec.
Proof using room_window.
  intros (_ & Hsc & Hl & Hr). split_and!; [done| |done|done]. intros _. destruct (Hsc (claimed_ok _)) as [Hs Hc]. split; [|done].
  eapply sound_weaken; [exact Hs|]. intros s. unfold unless. simpl. tauto.
Qed.

(** Where [next_item] leaves the receiver, whose session is still that of [i0]. *)
Definition next_kept exact i0 (e : ended (T := T) (F := F) (R := R) (ReadyItem F)) : Prop :=
  let '(out, i', rec', _) := e in
  (forall s, Receiver.session i0 = Some s -> Receiver.session i' = Some s) /\
  match out with
  | Some (Ok item) => exists j rest, going exact j rec' /\ ready j = item :: rest /\ i' = set_ready rest j
  | Some (Err e) => pump_ok P lone room leg_ok rec_ok exact (Err e) i' rec'
  | Some Panic => False
  | None => going exact i' rec'
  end.

Lemma next_item_kept exact i0 fuel patience i rec clk e :
  going exact i rec -> (forall s, Receiver.session i0 = Some s -> Receiver.session i = Some s) ->
  next_item fuel patience i rec clk = Some e -> next_kept exact i0 e.
Proof using readies room_pos room_window sources.
  intros Hi Hse E. unfold next_item in E. destruct sources as (HP & Hle & Hre & Hrs).
  pose (Inv := fun st : Inner T F * R * Clock * nat => going exact st.1.1.1 st.1.1.2 /\
    forall s, Receiver.session i0 = Some s -> Receiver.session st.1.1.1 = Some s).
  assert (Hstep : forall st, Inv st -> match next_item_step fuel st with
    | Some (Again st') => Inv st' | Some (Leave e) => next_kept exact i0 e | None => True end).
  { clear -HP Hle Hre Hrs readies room_pos room_window. intros [[[i rec] c] n] [Hi Hse]. cbn [fst snd] in *. unfold next_item_step.
    destruct (pump fuel i rec c) as [[[[o j] q] c']|] eqn:Ep; [|done]. cbn.
    pose proof (pump_sound P lone room room_pos room_window HP leg_ok Hle rec_ok Hre Hrs _ _ _ _ _ _ _ _ _ Hi Ep) as Hj.
    assert (Hsj : forall s, Receiver.session i0 = Some s -> Receiver.session j = Some s) by (intros s Hs; eapply pump_session; [by apply Hse|exact Ep]).
    destruct o as [[]|e|]; [|by split|by destruct Hj]. destruct (ready j) as [|item rest] eqn:Er; [|by split; [|by exists j, rest]].
    destruct (wait_ready n j q) as [[[r k] q'] n'] eqn:Ew. pose proof Ew as (Hw & _)%wait_ready_waited.
    destruct (wait_ready_ok n j q _ _ _ _ (proj2 (proj2 Hj)) Ew) as [Hk Hn].
    pose proof (going_waited _ _ _ _ _ Hj Hw Hk) as Hgk.
    assert (Hsk : forall s, Receiver.session i0 = Some s -> Receiver.session k = Some s) by (intros s Hs; rewrite (wait_session _ _ Hw); auto).
    destruct r as [[[]|e|]|]; [by split|split; [done|by apply going_failed]|done|by split]. }
  refine (loop_inv (next_item_step fuel) Inv (next_kept exact i0) fuel (i, rec, clk, patience) e _ _ (conj Hi Hse) E).
  - intros st st' Hst Es. specialize (Hstep st Hst). by rewrite Es in Hstep.
  - intros st x Hst Es. specialize (Hstep st Hst). by rewrite Es in Hstep.
Qed.

Lemma recv_kept yield exact fuel patience i r clk o i' r' clk' :
  yields_sound P lone room yield -> poll_ok P lone room leg_ok rec_ok exact i r ->
  yielding yield <$> next_item fuel patience (retire_current i) r clk = Some (o, i', r', clk') ->
  kept P lone room leg_ok rec_ok exact i r (reported o) i' r'.
Proof using readies room_pos room_window sources.
  intros Hy Hi E. destruct (next_item _ _ _ _ _) as [[[[out j] q] c]|] eqn:En; [|done].
  apply (next_item_kept exact i) in En as [Hse Hn]; [|by apply retired_pump_ok|by rewrite retire_session].
  cbn in E. injection E as E. destruct out as [[item|e|]|]; [|simplify_eq..|].
  - destruct Hn as (k & rest & Hk & Er & ->). destruct (yield item _) as [y k'] eqn:Ey. simplify_eq.
    replace (reported (Some y)) with (let* o := y in Ok (Some o)) by (by destruct y). by eapply popped_kept.
  - destruct Hn as (_ & Hsc & Hl & Hr). split_and!; [|done|done]. intros Hcl. destruct (Hsc Hcl). by split_and!.
  - done.
  - simplify_eq. destruct Hn as (_ & Hsc & Hl & Hr). split_and!; [|done|done]. intros _. destruct (Hsc (claimed_ok _)). by split_and!.
Qed.

Lemma any_call_keeps : keeps P lone room leg_ok rec_ok any_call.
Proof using readies room_pos room_window sources.
  intros exact i r clk out i' r' clk' Hi (fuel & [E|(patience & o & -> & [E|E])]).
  - destruct sources as (HP & Hle & Hre & Hrs).
    apply (polls_keep P lone room room_pos room_window HP leg_ok Hle rec_ok Hre Hrs exact i r clk out i' r' clk' Hi). by exists fuel.
  - eapply (recv_kept yield_item); [by apply yield_sound|exact Hi|exact E].
  - eapply (recv_kept yield_owned); [by apply yield_owned_sound|exact Hi|exact E].
Qed.
End keeps.

Lemma any_call_keeps_over P leg_ok rec_ok (ls : list T) :
  ready_keeps leg_ok rec_ok -> keeps_over P leg_ok rec_ok ls any_call.
Proof using. intros Hr Hs Hw. apply any_call_keeps; [apply headroom_range|done..]. Qed.
End calls.

(** ** Properties *)

Section properties.
Context {T F : Type} `{DatagramRecv T F, AsRef F, AsyncReady T} {R : Type} `{Recovery R, AsyncRecovery R}.
Variable P : list byte -> Prop.
Variables (leg_ok : T -> Prop) (rec_ok : R -> Prop).

(** C2: On any number of legs, for any calls of [poll], [recv] and [recv_owned], the last two dropped
    at any await, and whatever comes and goes between the calls, no call panics, and every message
    handed out, borrowed or owned, is exactly the block that its sequence number names in some
    received data packet of the locked session. With one leg this holds past a reported overflow too.
    Sequence numbers are assumed to stay below the top of [u64], by [headroom]. *)
Theorem legs_authentic cfg (ls : list T) (r : R) clk outs i' :
  sources_emit P leg_ok rec_ok (headroom (len ls)) -> ready_keeps leg_ok rec_ok -> Forall leg_ok ls ->
  ran leg_ok rec_ok any_call cfg ls r clk outs i' -> clean ls outs ->
  Forall (out_ok P (Receiver.session i')) outs.
Proof. intros He Hr Hls Hc Hcl. by destruct (ran_sound _ _ _ _ _ _ _ _ _ _ He (any_call_keeps_over _ _ _ _ Hr) Hls Hc Hcl). Qed.

(** C3: On any number of legs, for any calls of [poll], [recv] and [recv_owned], the last two dropped
    at any await, as long as no call reported a full reassembly buffer, the gaps the receiver tracks,
    and so re-requests, together with those the arbiter still holds back for their confirm window,
    are exactly the sequences below the highest one seen that were neither delivered nor buffered.
    One leg holds none back. Sequence numbers are assumed to stay below the top of [u64], by [headroom]. *)
Theorem legs_gaps_exact cfg (ls : list T) (r : R) clk outs i' :
  sources_emit P leg_ok rec_ok (headroom (len ls)) -> ready_keeps leg_ok rec_ok -> Forall leg_ok ls ->
  ran leg_ok rec_ok any_call cfg ls r clk outs i' -> Forall (fun o => ~ full_out o) outs ->
  forall s, ((missing_in (gap_handler i') s \/ held_back i' s) <->
             expected i' <= s < next_unseen i' /\ pending_at (reassembler i') s = None) /\
            (held_back i' s -> 1 < len ls).
Proof. intros He Hr Hls Hs Hf s. by eapply (ran_gaps P); [exact He|apply any_call_keeps_over|..]. Qed.

(** C5: On one leg, even once calls have reported a full reassembly buffer, whatever the calls and
    wherever they are dropped: every tracked gap is a sequence below the highest one seen that was
    neither delivered nor buffered, and every such sequence is tracked unless some packet carried
    its message. So an overflow loses track only of messages that came: one that never did stays
    tracked, to be re-requested. *)
Theorem uncarried_stay_tracked cfg (ls : list T) (r : R) clk outs i' :
  sources_emit P leg_ok rec_ok (headroom (len ls)) -> ready_keeps leg_ok rec_ok -> Forall leg_ok ls -> len ls = 1 ->
  ran leg_ok rec_ok any_call cfg ls r clk outs i' ->
  forall s, (missing_in (gap_handler i') s -> hole i' s) /\ (hole i' s -> ~ carried P s -> missing_in (gap_handler i') s).
Proof.
  intros He Hr Hls Hone Hc s.
  edestruct (ran_holes P leg_ok rec_ok any_call cfg ls r clk outs i' s) as (Hm & Hh & Hb);
    [exact He|by apply any_call_keeps_over|exact Hls|exact Hc|by left|].
  split; [intros Hx; apply Hm; by left|]. intros Hx Hn. destruct (Hh Hx ltac:(done)) as [|Hx']; [done|]. apply Hb in Hx'. lia.
Qed.
End properties.

(** ** Witnesses *)

Module demo_calls.
Import calls.

Lemma scripted_readies Q : ready_keeps (T := Scripted) (R := NoRecovery_t) (demo_safe.leg_of Q) (fun _ => True).
Proof. split; [|done]. intros t Ht. split; [done|]. unfold poll_ready, Scripted_ready. simpl. by destruct (bursts t). Qed.

Lemma called_served leg_ok (st st' : Inner Scripted (list byte) * NoRecovery_t * Clock) outs :
  called st outs st' -> served leg_ok (fun _ => True) any_call st outs st'.
Proof.
  induction 1 as [|st outs i r c fuel out i' r' c' _ IH Hp|st outs i r c fuel n out i' r' c' _ IH Hp|st outs i r c fuel n out i' r' c' _ IH Hp];
    [constructor|eapply served_call; [exact IH|]; exists fuel..].
  - by left.
  - right. exists n, out. split; [done|by left].
  - right. exists n, out. split; [done|by right].
Qed.

(** The two legs of [demo_safe] served by calls of every kind, with facts that evaluate. *)
Definition script : list Call := [Poll; RecvOwned 2; Recv 3; RecvOwned 3; Recv 1; Poll; RecvOwned 2].

Lemma script_ran start ls script leg_ok
    (check : list (res MoldUdpError (option (MoldUdpOutcome (list byte)))) -> Inner Scripted (list byte) -> bool) :
  u64 start /\ start + headroom (len ls) < W64 ->
  match from_legs (demo.cfg (Some start)) ls with
  | Ok i => match all script (i, NoRecovery, demo.clock) [] with Some (outs, (i', _, _)) => check outs i' | None => false end
  | _ => false
  end = true ->
  exists outs i', ran leg_ok (fun _ => True) any_call (demo.cfg (Some start)) ls NoRecovery demo.clock outs i' /\ check outs i' = true.
Proof.
  intros Hstart. destruct (from_legs (demo.cfg (Some start)) ls) as [i| |] eqn:Ei; [|done..].
  destruct (all script _ []) as [[outs [[i' r'] c']]|] eqn:E; [|done].
  intros Hc. exists outs, i'. split; [|exact Hc]. split; [by intros s [= <-]|]. split; [done|]. exists i, r', c'. split; [done|].
  apply called_served. eapply all_called; [constructor|exact E].
Qed.

Lemma pair_ran (check : list (res MoldUdpError (option (MoldUdpOutcome (list byte)))) -> Inner Scripted (list byte) -> bool) :
  match from_legs (demo.cfg (Some 7)) demo_safe.pair with
  | Ok i => match all script (i, NoRecovery, demo.clock) [] with Some (outs, (i', _, _)) => check outs i' | None => false end
  | _ => false
  end = true ->
  exists outs i', ran demo_safe.leg_ok (fun _ => True) any_call (demo.cfg (Some 7)) demo_safe.pair NoRecovery demo.clock outs i' /\ check outs i' = true.
Proof. apply script_ran. by vm_compute. Qed.
End demo_calls.

Lemma legs_authentic_witness :
  exists outs i', ran demo_safe.leg_ok (fun _ => True) any_call (demo.cfg (Some 7)) demo_safe.pair NoRecovery demo.clock outs i' /\
    frame_seqs outs = [7; 8; 9] /\ Forall (out_ok demo_safe.P (Receiver.session i')) outs.
Proof.
  destruct (demo_calls.pair_ran (fun outs _ => no_full outs && bool_decide (frame_seqs outs = [7; 8; 9]))) as (outs & i' & Hs & Hc);
    [vm_compute; reflexivity|].
  apply andb_true_iff in Hc as [Hn Hc]. apply bool_decide_eq_true in Hc. exists outs, i'. split_and!; [done..|].
  apply (legs_authentic demo_safe.P demo_safe.leg_ok (fun _ => True) (demo.cfg (Some 7)) demo_safe.pair NoRecovery demo.clock).
  - apply demo_safe.sources, headroom_range.
  - apply demo_calls.scripted_readies.
  - apply demo_safe.scripts_legs. vm_compute. reflexivity.
  - exact Hs.
  - right. by apply no_full_outs.
Defined.

Lemma legs_gaps_exact_witness :
  exists outs i', ran demo_safe.leg_ok (fun _ => True) any_call (demo.cfg (Some 7)) demo_safe.pair NoRecovery demo.clock outs i' /\
    expected i' = 10 /\ next_unseen i' = 12 /\ (missing_in (gap_handler i') 10 \/ held_back i' 10).
Proof.
  destruct (demo_calls.pair_ran (fun outs i => no_full outs && (expected i =? 10) && (next_unseen i =? 12) &&
                   bool_decide (pending_at (reassembler i) 10 = None))) as (outs & i' & Hs & Hc);
    [vm_compute; reflexivity|].
  apply andb_true_iff in Hc as [Hc Hp]. apply andb_true_iff in Hc as [Hc Hx]. apply andb_true_iff in Hc as [Hn He].
  apply Z.eqb_eq in Hx, He. apply bool_decide_eq_true in Hp. exists outs, i'. split_and!; [done..|].
  apply (legs_gaps_exact demo_safe.P demo_safe.leg_ok (fun _ => True) (demo.cfg (Some 7)) demo_safe.pair NoRecovery demo.clock outs i').
  - apply demo_safe.sources, headroom_range.
  - apply demo_calls.scripted_readies.
  - apply demo_safe.scripts_legs. vm_compute. reflexivity.
  - exact Hs.
  - by apply no_full_outs.
  - split; [lia|done].
Defined.

(** One leg whose ring overflows, in calls of every kind, over any packets but those with message 3. *)
Definition small_but_3 (d : list byte) : bool := demo_safe.small d && demo_safe.lacks 3 d.

Lemma uncarried_stay_tracked_witness :
  exists outs i', ran (demo_safe.leg_of (demo_safe.passes small_but_3)) (fun _ => True) any_call (demo.cfg (Some 1)) demo_safe.overflow_leg NoRecovery demo.clock outs i' /\
    Exists full_out outs /\ missing_in (gap_handler i') 3.
Proof.
  destruct (demo_calls.script_ran 1 demo_safe.overflow_leg [calls.Poll; calls.RecvOwned 2; calls.Recv 3; calls.Poll; calls.Recv 1] (demo_safe.leg_of (demo_safe.passes small_but_3))
    (fun outs i => negb (no_full outs) && (expected i <=? 3) && (3 <? next_unseen i) && bool_decide (pending_at (reassembler i) 3 = None)))
    as (outs & i' & Hs & Hc); [by vm_compute|vm_compute; reflexivity|].
  bool_facts. exists outs, i'. split; [exact Hs|]. split; [by apply full_outs|].
  apply (uncarried_stay_tracked (demo_safe.passes small_but_3) (demo_safe.leg_of (demo_safe.passes small_but_3)) (fun _ => True) (demo.cfg (Some 1))
    demo_safe.overflow_leg NoRecovery demo.clock outs i'); [| | |done|exact Hs| |].
  - apply demo_safe.sources_of; [apply no_recovery_emits|].
    intros d [Hd _]%andb_true_iff. apply demo_safe.small_range; [by vm_compute|done].
  - apply demo_calls.scripted_readies.
  - apply demo_safe.scripts_legs. vm_compute. reflexivity.
  - split; [lia|]. by destruct (pending_at (reassembler i') 3).
  - intros (sess & d & off & n & [_ Hd]%andb_true_iff & Hb). by eapply demo_safe.lacks_block in Hb.
Defined.
