(* ===== verification/ReceiverCases.v ===== *)
(** * client-moldudp: what happens when the reassembly ring overflows

    [process_next_pending] marks a message received before it knows that the ring can hold it,
    and returns early when it cannot. Two concrete runs show what is lost: on one leg a message
    is forgotten, and from then on, whatever comes but that very message, nothing is delivered;
    on two legs a later call panics. Sequences [s] and [s + 4096] share a ring slot. *)

From S2P Require Import Prelude TransportCore MoldWire Reassembly Gap Arbiter Receiver ReceiverOrder ReceiverSafety ReceiverLive MoldWait MoldSafety.
From Stdlib Require Import ZArith Lia.
From stdpp Require Import prelude list strings.

Open Scope Z_scope.
Open Scope res_scope.

Import FrameBatch (frames, cap, spare).

(** ** A forgotten message stays forgotten *)

Section forgotten.
Context {T F : Type} `{DatagramRecv T F, AsRef F}.
Implicit Types i : Inner T F.

(** A receiver of one leg that has seen past sequence [s] and does not track it. *)
Record forgets (s : Z) i : Prop := {
  fg_alone : arbiter i = None;
  fg_anchored : seq_anchored i = true;
  fg_gaps : GapRequestHandler.wf (gap_handler i);
  fg_unseen : u64 (next_unseen i) /\ s < next_unseen i;
  fg_missing : ~ missing_in (gap_handler i) s;
}.

Lemma forgets_same s i i' :
  forgets s i -> arbiter i' = arbiter i -> seq_anchored i' = seq_anchored i -> gap_handler i' = gap_handler i ->
  next_unseen i' = next_unseen i -> forgets s i'.
Proof. intros [] E1 E2 E3 E4. split; rewrite ?E1, ?E2, ?E3, ?E4; done. Qed.

Lemma forgets_received s seq i :
  forgets s i -> u64 seq -> forgets s (set_gap_handler (GapRequestHandler.mark_received (gap_handler i) seq) i).
Proof.
  intros [] Hs. destruct (GapRequestHandler.mark_received_spec (gap_handler i) seq) as [Hw Hm]; [done..|].
  split; fields; try done. by intros [? _]%Hm.
Qed.

(** What is recorded lies above what was seen. *)
Lemma forgets_noted s stop n i :
  forgets s i -> u64 stop -> u64 n -> next_unseen i <= n ->
  forgets s (set_gap_handler (GapRequestHandler.record_missing_range (gap_handler i) (next_unseen i) stop) (set_next_unseen n i)).
Proof.
  intros [? ? ? [Hu Hb] ?] Hs Hn Hle. unfold u64 in *.
  destruct (GapRequestHandler.record_missing_range_spec (gap_handler i) (next_unseen i) stop) as [Hw Hm]; [done|lia|lia|].
  split; fields; try done; [split; [done|lia]|]. intros [?|?]%Hm; [done|lia].
Qed.

Lemma forgets_take_block s stream seq off n i held inline out i' held' inline' :
  forgets s i -> u64 seq -> take_block stream None seq off n i held inline = (out, i', held', inline') -> forgets s i'.
Proof.
  intros Hi Hs E. pose proof (forgets_received s seq i Hi Hs) as Hk.
  unfold take_block, arbitrate, queue_drained in E. rewrite (fg_alone _ _ Hi) in E.
  repeat case_match; simplify_eq; by apply (forgets_same s _ _ Hk).
Qed.

Lemma forgets_take_blocks s stream blocks i held inline out i' held' inline' :
  forgets s i -> Forall (fun b => u64 b.1.1) blocks -> take_blocks stream None blocks i held inline = (out, i', held', inline') ->
  forgets s i'.
Proof.
  revert i held inline. induction blocks as [|[[seq off] n] blocks IH]; intros i held inline Hi Hb E; cbn [take_blocks] in E; [by simplify_eq|].
  apply Forall_cons in Hb as [Hs Hb]. destruct (take_block stream None seq off n i held inline) as [[[o j] h] k] eqn:Eb.
  pose proof (forgets_take_block _ _ _ _ _ _ _ _ _ _ _ _ Hi Hs Eb) as Hj. destruct o; simplify_eq; [by eapply IH|done..].
Qed.

Lemma forgets_jump s h i : forgets s i -> u64 (MoldWire.sequence h) -> forgets s (note_jump h None i).
Proof.
  intros Hi Hs. pose proof (fg_unseen _ _ Hi) as [Hu _]. unfold note_jump. set (n := Z.max _ _).
  assert (Hn : u64 n /\ next_unseen i <= n) by (unfold n, u64, u64_saturating_add in *; lia). destruct Hn as [Hn Hle].
  destruct (_ >? _) eqn:Eg.
  - pose proof (forgets_noted s (MoldWire.sequence h) n i Hi Hs Hn Hle) as Hk.
    rewrite (fg_alone _ _ Hi). by apply (forgets_same s _ _ Hk).
  - destruct Hi as [? ? ? [? ?] ?]. split; fields; try done. split; [done|lia].
Qed.

Lemma forgets_tail s e i : forgets s i -> u64 e -> forgets s (note_tail_gap e i).
Proof.
  intros Hi He. unfold note_tail_gap. destruct (e >? next_unseen i) eqn:Eg; bool_facts; [|done].
  by apply (forgets_same s _ _ (forgets_noted s e e i Hi He He ltac:(lia))).
Qed.

Lemma forgets_decode s i out i' : forgets s i -> process_next_pending None i = (out, i') -> forgets s i'.
Proof.
  intros Hi E. unfold process_next_pending in E. destruct (pending_datagrams i) as [|[stream d] rest]; [by simplify_eq|].
  assert (Hj : forgets s (set_pending_datagrams rest i)) by (by apply (forgets_same s i)). unfold process_datagram in E.
  destruct (parse_header (as_ref d)) as [h| |] eqn:Eh; simplify_eq; [|done..]. destruct (parse_header_range _ _ Eh) as [Hs Hc].
  destruct (accept_header h _) as [o k] eqn:Ea.
  assert (Hk : forgets s k).
  { unfold accept_header in Ea. fields. rewrite (fg_anchored _ _ Hi) in Ea.
    destruct (Receiver.session i); [case_decide|]; simplify_eq; by apply (forgets_same s i). }
  destruct o as [[]| |]; simplify_eq; [|done..].
  assert (Hctl : forall ev, forgets s (push_ready (Event ev) (note_tail_gap (MoldWire.sequence h) k)))
    by (intros ev; by apply (forgets_same s _ _ (forgets_tail s _ k Hk Hs))).
  destruct (header_kind h); simplify_eq; [done..|]. unfold process_data in E.
  destruct (packet_blocks h (as_ref d)) as [blocks| |] eqn:Eb; simplify_eq; [|done..].
  assert (Hbl : Forall (fun b => u64 b.1.1) blocks).
  { apply Forall_lookup. intros m [[q off] n] Hm. cbn [fst]. unfold packet_blocks in Eb.
    rewrite (collect_blocks_seqs _ _ _ _ Hs Eb _ _ _ _ Hm). unfold u64. apply Z.mod_pos_bound. lia. }
  destruct (take_blocks _ _ _ _ _ _) as [[[o j] held] inline] eqn:Et.
  pose proof (forgets_take_blocks _ _ _ _ _ _ _ _ _ _ (forgets_jump s h k Hk Hs) Hbl Et) as Hx.
  destruct o; simplify_eq; [|done..]. destruct (inline >? 0); [|done]. by apply (forgets_same s j).
Qed.
End forgotten.

Section stays.
Context {T F : Type} `{DatagramRecv T F, AsRef F, AsyncReady T} {R : Type} `{Recovery R, AsyncRecovery R}.
Implicit Types (i : Inner T F) (rec : R).

Lemma forgets_pump s fuel i rec clk out i' rec' clk' :
  forgets s i -> pump fuel i rec clk = Some (out, i', rec', clk') -> forgets s i'.
Proof using.
  intros Hi E. revert E. apply (pump_inv (fun _ i _ => forgets s i)); try done.
  - intros f j r o j' Hj _ _ (ls & p & b & ->)%poll_legs_loop_same. by apply (forgets_same s j).
  - intros f j r o cs r' Hj _. by apply (forgets_same s j).
  - intros now j r o j' Hj _ Hn Ed. destruct now; [|by eapply forgets_decode].
    rewrite (fg_alone _ _ Hj) in Hn. destruct Hn as [[? ?] _]; [by eexists|done].
  - intros now j r Hj. unfold drain_confirmed_gaps. by rewrite (fg_alone _ _ Hj).
Qed.

Lemma forgets_retire s i : forgets s i -> forgets s (retire_current i).
Proof using. intros Hi. apply (forgets_same s i _ Hi); unfold retire_current, release_inline; by repeat case_match. Qed.

Lemma forgets_next_item s fuel patience i rec clk out i' rec' clk' :
  forgets s i -> next_item fuel patience i rec clk = Some (out, i', rec', clk') -> forgets s i'.
Proof using.
  intros Hi E. unfold next_item in E.
  assert (Hstep : forall st, forgets s st.1.1.1 -> match next_item_step fuel st with
    | Some (Again st') => forgets s st'.1.1.1 | Some (Leave e) => forgets s e.1.1.2 | None => True end).
  { clear. intros [[[i rec] c] n] Hi. cbn [fst] in Hi. unfold next_item_step.
    destruct (pump fuel i rec c) as [[[[o j] q] c']|] eqn:Ep; [|done]. pose proof (forgets_pump _ _ _ _ _ _ _ _ _ Hi Ep) as Hj. cbn.
    destruct o as [[]| |]; [|done..]. destruct (ready j); [|by apply (forgets_same s j)].
    destruct (wait_ready n j q) as [[[r k] q'] n'] eqn:Ew. apply wait_ready_waited in Ew as ([ls ->] & _).
    destruct r as [[[]| |]|]; by apply (forgets_same s j). }
  refine (loop_inv (next_item_step fuel) (fun st => forgets s st.1.1.1) (fun e => forgets s e.1.1.2)
    fuel (i, rec, clk, patience) (out, i', rec', clk') _ _ Hi E).
  - intros st st' Hst Es. specialize (Hstep st Hst). by rewrite Es in Hstep.
  - intros st x Hst Es. specialize (Hstep st Hst). by rewrite Es in Hstep.
Qed.

Lemma forgets_yield s item i out i' :
  forgets s i -> (yield_item item i = (out, i') \/ yield_owned item i = (out, i')) -> forgets s i'.
Proof using.
  intros Hi [E|E]; unfold yield_item, yield_owned, share_backing, release_inline in E;
    repeat case_match; simplify_eq; by apply (forgets_same s _ _ Hi).
Qed.

Lemma forgets_call s i rec clk out i' rec' clk' :
  forgets s i -> any_call (i, rec, clk) out (i', rec', clk') -> forgets s i'.
Proof using.
  intros Hi%forgets_retire (fuel & [E|(patience & o & _ & E)]).
  - unfold poll in E. destruct (pump fuel _ rec clk) as [[[[o j] r] c]|] eqn:Ep; [|done].
    pose proof (forgets_pump _ _ _ _ _ _ _ _ _ Hi Ep) as Hj. destruct o as [[]| |]; simplify_eq; [|done..].
    destruct (ready j); simplify_eq; [done|]. destruct (yield_item _ _) as [y k] eqn:Ey. simplify_eq.
    eapply forgets_yield; [|left; exact Ey]. by apply (forgets_same s j).
  - assert (Hy : exists yield, (forall item j y k, yield item j = (y, k) -> yield_item item j = (y, k) \/ yield_owned item j = (y, k)) /\
      yielding yield <$> next_item fuel patience (retire_current i) rec clk = Some (o, i', rec', clk'))
      by (destruct E as [E|E]; [exists yield_item|exists yield_owned]; (split; [auto|exact E])).
    destruct Hy as (yield & Hy & E'). destruct (next_item _ _ _ _ _) as [[[[q j] r] c]|] eqn:En; [|done].
    pose proof (forgets_next_item _ _ _ _ _ _ _ _ _ _ Hi En) as Hj. cbn in E'. injection E' as E'.
    destruct q as [[item|e|]|]; simplify_eq; [|done..]. destruct (yield item j) as [y k] eqn:Ey. simplify_eq.
    eapply forgets_yield; [exact Hj|by apply Hy].
Qed.

Lemma call_history a done i rec clk out i' rec' clk' :
  history a done i -> any_call (i, rec, clk) out (i', rec', clk') -> handed out -> history a (done ++ frame_seqs [out]) i'.
Proof using.
  intros Hi (fuel & [E|(patience & o & -> & [E|E])]) Hh.
  - by eapply poll_history.
  - eapply (recv_history yield_item); [apply yield_item_yields|done..].
  - eapply (recv_history yield_owned); [apply yield_owned_yields|done..].
Qed.

(** Sources that bring no message of sequence [s]. *)
Variables (P : list byte -> Prop) (leg_ok : T -> Prop) (rec_ok : R -> Prop) (s : Z).
Hypothesis sources : sources_emit P leg_ok rec_ok 0.
Hypothesis readies : ready_keeps leg_ok rec_ok.
Hypothesis lacks : forall d sess off n, P d -> ~ block_of sess d s off n.

(** A sound receiver of one leg that handed out [m] messages from [a] on, up to [s], and forgot it. *)
Record stuck (a : Z) (m : nat) i rec : Prop := {
  st_ok : poll_ok P True 0 leg_ok rec_ok (fun _ => False) i rec;
  st_history : history (Some a) (run a m) i;
  st_next : s = (a + Z.of_nat m) mod W64;
  st_forgets : forgets s i;
}.

(** The next message of such a receiver would be [s]. *)
Lemma next_is_s a m rest n q : s = (a + Z.of_nat m) mod W64 -> run a m ++ q :: rest = run a n -> q = s.
Proof using s.
  clear sources readies lacks. intros -> E. pose proof (f_equal length E) as Hl. rewrite length_app, !run_length in Hl. cbn [length] in Hl.
  assert (Hq : (run a m ++ q :: rest) !! m = Some q) by (rewrite lookup_app_r; rewrite run_length; [by rewrite Nat.sub_diag|done]).
  rewrite E in Hq. unfold run in Hq. rewrite list_lookup_fmap, lookup_seq_lt in Hq by lia. cbn in Hq. by simplify_eq.
Qed.

Lemma stuck_waits a m i rec : stuck a m i rec -> expected i = s /\ hole i s.
Proof using lacks.
  intros [([Hc _ _ Hit _ _] & _ & _) (a' & [Hr Ho] & Ha) Hs Hf].
  rewrite (Ha a eq_refl) in Ho. destruct Ho as (_ & n & Hn & He).
  destruct (data_seqs (ready i)) as [|q rest] eqn:Ed.
  - rewrite app_nil_r in Hn. pose proof (f_equal length Hn) as Hl. rewrite !run_length in Hl. subst n. rewrite <- Hs in He.
    split; [done|]. split; [rewrite He; pose proof (fg_unseen _ _ Hf); lia|].
    destruct (pending_at (reassembler i) s) eqn:Ep; [|done]. apply (c_buffered _ _ _ _ _ _ _ _ Hc) in Ep as [_ ?]. lia.
  - exfalso. apply (next_is_s a m) in Hn; [|done]. subst q.
    assert (Hin : s ∈ data_seqs (ready i)) by (rewrite Ed; by left). unfold data_seqs in Hin.
    apply list_elem_of_omap in Hin as (it & Hin & Hq). rewrite Forall_forall in Hit. specialize (Hit it Hin).
    destruct it; simplify_eq/=; destruct Hit as [HP Hb]; by eapply lacks.
Qed.

Lemma stuck_call a m i rec clk out i' rec' clk' :
  stuck a m i rec -> any_call (i, rec, clk) out (i', rec', clk') -> stuck a m i' rec' /\ frame_seqs [out] = [].
Proof using lacks readies sources.
  intros [Hok Hh Hs Hf] Hc.
  destruct (any_call_keeps P True 0 (Z.le_refl 0) (or_introl I) leg_ok rec_ok sources readies _ _ _ _ _ _ _ _ Hok Hc) as (Hk & Ho & _).
  destruct (Hk (or_introl I)) as (Hso & Hl & Hr). assert (Hhd : handed out) by (intros ->; exact Ho).
  pose proof (call_history _ _ _ _ _ _ _ _ _ Hh Hc Hhd) as Hh'.
  assert (Hnone : frame_seqs [out] = []).
  { destruct (frame_seqs [out]) as [|q l] eqn:Eq; [done|]. exfalso. destruct Hh' as (a' & [_ Ho'] & Ha). rewrite (Ha a eq_refl) in Ho'.
    destruct Ho' as (_ & n & Hn & _). rewrite <- app_assoc, <- app_comm_cons in Hn. apply (next_is_s a m) in Hn; [|done]. subst q.
    unfold frame_seqs in Eq. destruct out as [[[f|f|ev]|]|e|]; cbn in Eq; try done; injection Eq as Eq _; cbn in Ho; rewrite Eq in Ho.
    - destruct Ho as (d & off & n' & HP & Hb & _). by eapply lacks.
    - destruct Ho as (x & _ & d & off & n' & HP & Hb & _). by eapply lacks. }
  split; [|done]. rewrite Hnone, app_nil_r in Hh'. split; [|done|done|by eapply forgets_call].
  split_and!; [|done|done]. eapply sound_weaken; [exact Hso|]. by intros ? [].
Qed.

Lemma stuck_served a m i rec clk outs i' rec' clk' :
  stuck a m i rec -> served leg_ok rec_ok any_call (i, rec, clk) outs (i', rec', clk') ->
  stuck a m i' rec' /\ frame_seqs outs = [].
Proof using lacks readies sources.
  intros Hi Hp. remember (i', rec', clk') as st' eqn:Est'. revert i' rec' clk' Est'.
  induction Hp as [|outs [[j q] c] out st2 Hp IH Hcall|outs j q c ls q' c' Hp IH Hls Hq]; intros i' rec' clk' Est'; simplify_eq; [done| |].
  - destruct (IH _ _ _ eq_refl) as [Hj Hos]. destruct (stuck_call _ _ _ _ _ _ _ _ _ Hj Hcall) as [Hk Ho]. split; [done|].
    unfold frame_seqs in *. rewrite omap_app, Hos. exact Ho.
  - destruct (IH _ _ _ eq_refl) as [[(Hs & _ & _) Hh Hn Hf] Hos]. split; [|done]. split; [|by eapply waited_history; [|eexists]|done|].
    + split_and!; [|done|done]. destruct Hs. split; fields; try done. eapply core_same; [eassumption|done..].
    + by apply (forgets_same s j).
Qed.
End stays.

(** ** One leg *)

(** Datagrams with no message of sequence [s], and none past the top of the range. *)
Definition without (s : Z) (d : list byte) : Prop := in_range d /\ forall sess off n, ~ block_of sess d s off n.

(** A receiver with nothing queued is as sound for other datagrams, when those it buffers are among them. *)
Lemma sound_moved {T F} `{DatagramRecv T F, AsRef F} (P P' : list byte -> Prop) (lone : Prop) exact (i : Inner T F) :
  sound P lone 0 exact i -> lone -> pending_datagrams i = [] -> frames (recv_batch i) = [] -> ready i = [] ->
  (forall d sess s off n, P d -> block_of sess d s off n -> expected i < s -> P' d) ->
  sound P' True 0 (fun _ => False) i.
Proof.
  intros [[[Ha _] Hr Hg Hb Hbuf Hm _] _ _ _ Hc Hf] HL E1 E2 E3 HP. split; rewrite ?E1, ?E2, ?E3 in *; try done.
  split; try done; [split; [by intros _; apply Ha|intros a Ea; by rewrite (Ha HL) in Ea]|].
  intros s v Hs. destruct (Hbuf s v Hs) as [[Hd Hbl] ?]. split; [|done]. split; [|done]. eapply HP; [exact Hd|exact Hbl|lia].
Qed.

Module overflow.
Definition packets : list (list byte) := [demo.packet 4098 [0]; demo.packet 2 [2]; demo.packet 1 [1]].
Definition sent (d : list byte) : bool := bool_decide (d ∈ packets).

(** Those packets are in range, and hold no message past 2 but the first, which lacks 2. *)
Lemma sent_range d : demo_safe.passes sent d -> in_range_by 0 d.
Proof.
  intros Hd%bool_decide_eq_true. apply demo_safe.small_range; [by vm_compute|].
  unfold packets in Hd. rewrite !elem_of_cons, elem_of_nil in Hd. destruct Hd as [->|[->|[->|[]]]]; vm_compute; reflexivity.
Qed.

Lemma block_seq d sess s off n : block_of sess d s off n ->
  match parse_header d with
  | Ok h => match packet_blocks h d with Ok blocks => s ∈ blocks.*1.*1 | _ => False end
  | _ => False
  end.
Proof. intros (h & blocks & -> & _ & _ & -> & Hin). apply list_elem_of_fmap. exists (s, off). split; [done|]. apply list_elem_of_fmap. by exists (s, off, n). Qed.

Lemma sent_past d sess s off n : demo_safe.passes sent d -> block_of sess d s off n -> 2 < s -> without 2 d.
Proof.
  intros Hp Hb Hs. split; [by apply sent_range|]. apply block_seq in Hb. apply bool_decide_eq_true in Hp.
  unfold packets in Hp. rewrite !elem_of_cons, elem_of_nil in Hp. destruct Hp as [->|[->|[->|[]]]].
  - intros sess' off' n'. apply demo_safe.lacks_block. vm_compute. reflexivity.
  - exfalso. assert (s ∈ [2]) as ->%list_elem_of_singleton by (by vm_compute in Hb |- *). lia.
  - exfalso. assert (s ∈ [1]) as ->%list_elem_of_singleton by (by vm_compute in Hb |- *). lia.
Qed.
End overflow.

Definition none {A} (o : option A) : bool := match o with None => true | Some _ => false end.
Definition empty {A} (l : list A) : bool := match l with [] => true | _ => false end.

Lemma none_None {A} (o : option A) : none o = true -> o = None.
Proof. by destruct o. Qed.

Lemma empty_nil {A} (l : list A) : empty l = true -> l = [].
Proof. by destruct l. Qed.

(** How the run went: what the polls returned, and where the receiver stands. *)
Record overflowed (i : Inner Scripted (list byte)) (outs : list (res MoldUdpError (option (MoldUdpOutcome (list byte))))) : Prop := {
  ov_outs : exists f, outs = [Err GapDetected; Err (ReassemblyBufferFull 4096); Ok (Some (OFrame f))] /\ f_sequence f = 1;
  ov_expected : expected i = 2 /\ next_unseen i = 4099;
  ov_ring : pending_at (reassembler i) 2 = None;
  ov_gaps : GapRequestHandler.gaps (gap_handler i) = [(3, 4098)];
  ov_alone : arbiter i = None /\ seq_anchored i = true;
  ov_empty : ready i = [] /\ pending_datagrams i = [] /\ frames (recv_batch i) = [];
  ov_legs : bursts <$> legs i = [[]];
}.

Lemma overflow_run :
  exists i outs i' r' c', from_legs (demo.cfg (Some 1)) demo_safe.overflow_leg = Ok i /\
    polled (i, NoRecovery, demo.clock) outs (i', r', c') /\ overflowed i' outs.
Proof.
  destruct (demo.go_polled (Some 1) demo_safe.overflow_leg 3 (fun outs i =>
    match outs with
    | [Err GapDetected; Err (ReassemblyBufferFull c); Ok (Some (OFrame f))] => (c =? 4096) && (f_sequence f =? 1)
    | _ => false
    end && (expected i =? 2) && (next_unseen i =? 4099) && none (pending_at (reassembler i) 2) &&
    bool_decide (GapRequestHandler.gaps (gap_handler i) = [(3, 4098)]) && none (arbiter i) && seq_anchored i &&
    empty (ready i) && empty (pending_datagrams i) && empty (frames (recv_batch i)) && bool_decide (bursts <$> legs i = [[]])))
    as (i & outs & i' & r' & c' & Hi & Hp & Hc); [vm_compute; reflexivity|].
  bool_facts. rewrite !bool_decide_eq_true in *. repeat match goal with
    | H : none _ = true |- _ => apply none_None in H
    | H : empty _ = true |- _ => apply empty_nil in H
    end.
  exists i, outs, i', r', c'. split_and!; [done..|]. split; try done.
  destruct outs as [|[|[]|] [|[|[]|] [|[[[f|f|]|]|e|] [|]]]]; try done. bool_facts. subst. by exists f.
Qed.

(** C39: On one leg, a message that does not fit the ring is dropped, with [ReassemblyBufferFull],
    after it was struck off the gap list. In this run sequence 2 comes, is refused, and after 1 is
    delivered the receiver waits for it: it is a hole, yet no gap is tracked, so it is never
    re-requested. And unless 2 comes again of itself, delivery has stopped for good: under any later
    calls, dropped anywhere, whatever else the leg brings and any recovery mode retransmits, no
    message is delivered, and 2 stays the expected sequence and untracked. *)
Theorem overflow_forgets_gap :
  exists i f (i' : Inner Scripted (list byte)) r' c',
    from_legs (demo.cfg (Some 1)) demo_safe.overflow_leg = Ok i /\
    polled (i, NoRecovery, demo.clock) [Err GapDetected; Err (ReassemblyBufferFull 4096); Ok (Some (OFrame f))] (i', r', c') /\
    f_sequence f = 1 /\ expected i' = 2 /\ hole i' 2 /\ ~ missing_in (gap_handler i') 2 /\ ~ held_back i' 2 /\
    forall (R : Type) (mode : Recovery R) (waits : AsyncRecovery R) (rec_ok : R -> Prop) rec clk outs i2 rec2 clk2,
      requester_emits rec_ok (without 2) -> ready_keeps (demo_safe.leg_of (without 2)) rec_ok -> rec_ok rec ->
      served (demo_safe.leg_of (without 2)) rec_ok any_call (i', rec, clk) outs (i2, rec2, clk2) ->
      frame_seqs outs = [] /\ expected i2 = 2 /\ hole i2 2 /\ ~ missing_in (gap_handler i2) 2 /\ ~ held_back i2 2.
Proof.
  destruct overflow_run as (i & outs & i' & r' & c' & Hi & Hp & [(f & -> & Hf) [He Hn] Hring Hgaps [Ha Han] (Er & Ep & Eb) Hlegs]).
  assert (Hmiss : ~ missing_in (gap_handler i') 2).
  { intros (p & Hin & Hcov). rewrite Hgaps in Hin. apply list_elem_of_singleton in Hin. subst p.
    unfold GapRequestHandler.covers in Hcov. simpl in Hcov. lia. }
  assert (Hhole : hole i' 2) by (split; [rewrite He, Hn; lia|done]).
  exists i, f, i', r', c'. do 7 (split; [first [done|by intros (a & Ea & _); rewrite Ha in Ea]|]).
  intros R mode waits rec_ok rec clk outs i2 rec2 clk2 Hem Hre Hrec Hs.
  destruct (ran_sound (demo_safe.passes overflow.sent) (demo_safe.leg_of (demo_safe.passes overflow.sent)) (fun _ : NoRecovery_t => True) polls
    (demo.cfg (Some 1)) demo_safe.overflow_leg NoRecovery demo.clock [Err GapDetected; Err (ReassemblyBufferFull 4096); Ok (Some (OFrame f))] i')
    as [Hso _].
  { apply demo_safe.sources_of; [apply no_recovery_emits|exact overflow.sent_range]. }
  { apply polls_keep_over. }
  { apply demo_safe.scripts_legs. vm_compute. reflexivity. }
  { split; [by intros s [= <-]|]. split; [done|]. exists i, r', c'. split; [done|by apply polled_served]. }
  { by left. }
  assert (Hh : history (Some 1) (run 1 1) i').
  { assert (Hone : run 1 1 = [] ++ frame_seqs (F := list byte) [Err GapDetected; Err (ReassemblyBufferFull 4096); Ok (Some (OFrame f))])
      by (cbn; by rewrite Hf). rewrite Hone.
    eapply (polled_history (Some 1) [] i NoRecovery demo.clock _ i' r' c'); [|exact Hp|by repeat constructor].
    apply (from_legs_history (demo.cfg (Some 1)) demo_safe.overflow_leg); [by intros s [= <-]|done]. }
  assert (Hst : stuck (without 2) (demo_safe.leg_of (without 2)) rec_ok 2 1 1 i' rec).
  { split; [|exact Hh|done|].
    - split_and!; [|by destruct (legs i') as [|[[]] []]; simplify_eq; repeat constructor|done].
      eapply sound_moved; [exact Hso|done..|]. rewrite He. apply overflow.sent_past.
    - split; [done|done|by destruct Hso as [[] _ _ _ _ _]|rewrite Hn; by vm_compute|done]. }
  eapply stuck_served in Hst as [Hst Hout]; [..|exact Hs].
  - pose proof (stuck_waits (without 2) (demo_safe.leg_of (without 2)) rec_ok 2 (fun d sess off n Hd => proj2 Hd sess off n) _ _ _ _ Hst) as [He2 Hh2].
    pose proof (st_forgets _ _ _ _ _ _ _ _ Hst) as [].
    split_and!; try done; [by apply Hh2..|by intros (a & Ea & _); congruence].
  - apply demo_safe.sources_of; [done|]. by intros d [? _].
  - done.
  - by intros d sess off n [_ Hd].
Qed.

(** On two legs the same overflow panics: the early return leaves the queued
    in-order message without its backing datagram, and the next [poll] slices an
    empty buffer. A delivers 4098 and 4099, B delivers 2 and then 1, 2, 3 in one packet. *)
Definition overflow_ab : list Scripted :=
  [demo.leg [[demo.packet 4098 [0]; demo.packet 4099 [0]]];
   demo.leg [[demo.packet 2 [2]; demo.packet 1 [1; 2; 3]]]].

Theorem overflow_ab_panics :
  exists i outs i' r' c',
    from_legs (demo.cfg (Some 1)) overflow_ab = Ok i /\
    polled (i, NoRecovery, demo.clock) outs (i', r', c') /\ last outs = Some Panic.
Proof.
  destruct (demo.go_polled (Some 1) overflow_ab 3
    (fun outs _ => match last outs with Some Panic => true | _ => false end))
    as (i & outs & i' & r' & c' & Hi & Hp & Hc); [vm_compute; reflexivity|].
  exists i, outs, i', r', c'. split_and!; [done|done|]. by destruct (last outs) as [[| |]|].
Qed.
