(* ===== verification/Pools.v ===== *)
(** * transport-core: buffer pools

    Models [crates/transports/core/src/pool/{vec,backend,region,index}.rs].
    A pool and the buffers out of it share reference counts and a free list, so an
    operation is a step on the pool plus the list of live handles; the invariants
    say where every buffer is. The allocator is a parameter: [alloc n] tells
    whether an allocation of [n] bytes succeeds. *)

From S2P Require Import Prelude TransportCore.
From Stdlib Require Import ZArith Lia.
From stdpp Require Import prelude list strings.

Open Scope Z_scope.
Open Scope res_scope.

(** ** [VecPool] and [VecSlab] *)

Module VecPool.

(** [strong] is [Arc::strong_count] of the shared free list. *)
Record t := Pool { free : list (list byte); capacity : Z; strong : Z }.

Record VecSlab := Slab { buf : list byte; slab_len : Z }.

Definition TOO_BIG : TransportError := InvalidConfig "slab_count * slab_size" "pool cannot be allocated".

Definition ISIZE_MAX : Z := 9223372036854775807.

Section ops.
Variable alloc : Z -> bool.

(** [try_reserve_exact]: refused above [isize::MAX] bytes, else up to the allocator. *)
Definition try_reserve (bytes : Z) : bool := (bytes <=? ISIZE_MAX) && alloc bytes.

(** The [for] over [slab_count]. A [Box<[u8]>] takes sixteen bytes. *)
Fixpoint new_slabs (n : nat) (slab_size : Z) (acc : list (list byte)) : res TransportError (list (list byte)) :=
  match n with
  | O => Ok acc
  | S n =>
      if try_reserve slab_size
      then new_slabs n slab_size (acc ++ [replicate (Z.to_nat slab_size) Byte.x00])
      else Err TOO_BIG
  end.

Definition new (slab_count slab_size : Z) : res TransportError t :=
  if try_reserve (16 * slab_count) then
    let* free := new_slabs (Z.to_nat slab_count) slab_size [] in
    Ok (Pool free slab_count 1)
  else Err TOO_BIG.
End ops.

Definition stats (p : t) : PoolStats := {| ps_capacity := capacity p; ps_in_use := strong p - 1 |}.

(** [backend::acquire]: [Vec::pop] takes the last slab. *)
Definition acquire (p : t) : option (VecSlab * t) :=
  match last (free p) with
  | None => None
  | Some b => Some (Slab b 0, Pool (removelast (free p)) (capacity p) (strong p + 1))
  end.

(** Landing [bytes] at the start of [backend::buf_mut]. *)
Definition land (s : VecSlab) (bytes : list byte) : VecSlab :=
  Slab (take (length (buf s)) bytes ++ drop (length bytes) (buf s)) (slab_len s).

(** [backend::set_len], clamped in release builds. *)
Definition set_len (s : VecSlab) (n : Z) : VecSlab := Slab (buf s) (Z.min n (len (buf s))).

(** [<VecSlab as AsRef>::as_ref]. *)
Definition slab_as_ref {E} (s : VecSlab) : res E (list byte) := index_range 0 (slab_len s) (buf s).

(** [<VecSlab as Drop>::drop]. *)
Definition drop_slab (s : VecSlab) (p : t) : t := Pool (free p ++ [buf s]) (capacity p) (strong p - 1).

(** *** Operations on a pool and its live slabs *)

Inductive op :=
  | Acquire
  | Fill (i : nat) (bytes : list byte)
  | Drop (i : nat).

Definition apply (o : op) (st : t * list VecSlab) : t * list VecSlab :=
  let '(p, live) := st in
  match o with
  | Acquire => match acquire p with Some (s, p) => (p, live ++ [s]) | None => st end
  | Fill i bytes =>
      match live !! i with
      | Some s => (p, <[i := set_len (land s bytes) (len bytes)]> live)
      | None => st
      end
  | Drop i =>
      match live !! i with
      | Some s => (drop_slab s p, delete i live)
      | None => st
      end
  end.

(** Every slab is free or live, all have the pool's slab size, and the strong count
    is the pool's own plus one per live slab. *)
Definition wf (size : Z) (st : t * list VecSlab) : Prop :=
  let '(p, live) := st in
  len (free p) + len live = capacity p /\ strong p = 1 + len live /\
  Forall (fun b => len b = size) (free p) /\
  Forall (fun s => len (buf s) = size /\ 0 <= slab_len s <= size) live.

Lemma len_land s bytes : len (buf (land s bytes)) = len (buf s).
Proof. unfold land, len. cbn [buf]. rewrite length_app, length_take, length_drop. lia. Qed.

Lemma new_slabs_spec alloc n size acc l :
  0 <= size -> new_slabs alloc n size acc = Ok l ->
  exists fresh, l = acc ++ fresh /\ length fresh = n /\ Forall (fun b => len b = size) fresh.
Proof.
  intros Hs. revert acc l. induction n as [|n IH]; intros acc l E; cbn [new_slabs] in E.
  { simplify_eq. exists []. by rewrite app_nil_r. }
  destruct (try_reserve alloc size); [|done]. apply IH in E as (fresh & -> & Hl & Hf).
  exists (replicate (Z.to_nat size) Byte.x00 :: fresh). rewrite <- app_assoc. split_and!; [done|simpl; lia|].
  constructor; [|done]. unfold len. rewrite length_replicate. lia.
Qed.

Lemma vec_new_wf alloc count size p :
  0 < count -> 0 < size -> new alloc count size = Ok p -> wf size (p, []).
Proof.
  intros Hc Hs. unfold new. destruct (try_reserve _ _); [|done].
  destruct (new_slabs _ _ _ _) as [l| |] eqn:E; [|done..]. intros; simplify_eq.
  apply new_slabs_spec in E as (fresh & -> & Hl & Hf); [|lia]. simpl. rewrite len_nil. split_and!; try done.
  unfold len. lia.
Qed.

Lemma apply_wf size o st : wf size st -> wf size (apply o st).
Proof.
  destruct st as [p live]. intros (Hc & Hst & Hf & Hl). destruct o as [|i bytes|i]; unfold apply.
  - unfold acquire. destruct (last (free p)) as [b|] eqn:El; [|done].
    apply last_Some in El as [fs El]. rewrite El, removelast_last in *. apply Forall_app in Hf as [Hf [Hb _]%Forall_cons].
    rewrite len_app in Hc. autorewrite with polaris in *. cbn [free capacity strong]. unfold wf. cbn [free capacity strong].
    autorewrite with polaris. split_and!; [lia|lia|done|]. apply Forall_app. split; [done|]. constructor; [|constructor].
    cbn [buf slab_len]. pose proof (len_nonneg b). lia.
  - destruct (live !! i) as [s|] eqn:Ei; [|done]. pose proof (proj1 (Forall_lookup _ _) Hl _ _ Ei) as [Hb _].
    unfold wf. rewrite len_insert. split_and!; try done. apply Forall_insert; [done|].
    unfold set_len. cbn [buf slab_len]. rewrite len_land. pose proof (len_nonneg bytes). pose proof (len_nonneg (buf s)). lia.
  - destruct (live !! i) as [s|] eqn:Ei; [|done]. pose proof (proj1 (Forall_lookup _ _) Hl _ _ Ei) as [Hb _].
    pose proof (lookup_lt_Some _ _ _ Ei). unfold wf, drop_slab. cbn [free capacity strong]. autorewrite with polaris.
    assert (Hd : len (delete i live) = len live - 1) by (unfold len; rewrite length_delete by done; lia).
    rewrite Hd. split_and!; [lia|lia|apply Forall_app; by repeat constructor|by apply Forall_delete].
Qed.

(** Bytes landed in a slab that holds them are what it reads back. *)
Lemma fill_reads {E} s bytes :
  len bytes <= len (buf s) -> slab_as_ref (E := E) (set_len (land s bytes) (len bytes)) = Ok bytes.
Proof.
  intros Hb. unfold slab_as_ref, set_len, land. cbn [buf slab_len].
  assert (Ht : take (length (buf s)) bytes = bytes) by (apply take_ge; unfold len in Hb; lia). rewrite Ht.
  rewrite len_app, Z.min_l by (pose proof (len_nonneg (drop (length bytes) (buf s))); lia).
  unfold index_range. by rewrite (get_range_split 0 (len bytes) _ [] bytes (drop (length bytes) (buf s))).
Qed.

End VecPool.

(** ** [Region] *)

Module Region.
Definition ALIGN : Z := 64 * 1024.

(** [checked_next_multiple_of] on a [usize]. *)
Definition checked_next_multiple_of (n m : Z) : option Z :=
  let up := (n + m - 1) / m * m in if up <=? U64_MAX then Some up else None.

(** [Layout::from_size_align] with a power of two: the size, rounded up to the
    alignment, must not pass [isize::MAX]. *)
Definition layout_size (size align : Z) : option Z :=
  if size <=? VecPool.ISIZE_MAX - (align - 1) then Some size else None.

Definition zeroed (alloc : Z -> bool) (field : string) (n : Z) : res TransportError (list byte) :=
  let* size := ok_or (match checked_next_multiple_of (Z.max n 1) ALIGN with
                      | Some size => layout_size size ALIGN
                      | None => None
                      end) (InvalidConfig field "region above allocation limit") in
  if alloc size then Ok (replicate (Z.to_nat size) Byte.x00)
  else Err (InvalidConfig field "region allocation failed").

(** The region covers what was asked for and is whole pages. *)
Lemma zeroed_covers alloc field n r :
  0 <= n -> zeroed alloc field n = Ok r -> n <= len r /\ (ALIGN | len r) /\ 0 < len r.
Proof.
  intros Hn. unfold zeroed, checked_next_multiple_of, layout_size.
  set (up := (Z.max n 1 + ALIGN - 1) / ALIGN * ALIGN). intros E.
  assert (Hr : r = replicate (Z.to_nat up) Byte.x00).
  { destruct (up <=? U64_MAX); [|done]. destruct (up <=? _); [|done]. cbn [ok_or] in E. destruct (alloc up); [|done].
    by simplify_eq. }
  assert (Hup : Z.max n 1 <= up) by (unfold up, ALIGN; pose proof (Z.div_mod (Z.max n 1 + 64 * 1024 - 1) (64 * 1024) ltac:(lia));
    pose proof (Z.mod_pos_bound (Z.max n 1 + 64 * 1024 - 1) (64 * 1024) ltac:(lia)); lia).
  rewrite Hr. unfold len. rewrite length_replicate, Z2Nat.id by lia.
  split_and!; [lia|by exists ((Z.max n 1 + ALIGN - 1) / ALIGN)|lia].
Qed.
End Region.

(** ** [IndexPool] and [IndexFrame] *)

Module IndexPool.
Definition SIZE_FIELD : string := "count * stride".

Record t := Pool {
  region : list byte;
  stride : Z;
  count : Z;
  freed : list Z;
  strong : Z;
}.

Record IndexFrame := Frame { slot : Z; offset : Z; flen : Z }.

Definition new (alloc : Z -> bool) (count stride : Z) : res TransportError t :=
  let* n := validate.checked_product SIZE_FIELD count stride in
  let* region := Region.zeroed alloc SIZE_FIELD n in
  if VecPool.try_reserve alloc (4 * count)
  then Ok (Pool region stride count [] 1)
  else Err (InvalidConfig "count" "freed list cannot be allocated").

Definition stats (p : t) : PoolStats := {| ps_capacity := count p; ps_in_use := strong p - 1 |}.

(** [IndexPool::frame]. *)
Definition frame (p : t) (slot offset len : Z) : IndexFrame * t :=
  (Frame slot offset len, Pool (region p) (stride p) (count p) (freed p) (strong p + 1)).

(** [drain_freed]: swaps the freed list with the caller's vector. *)
Definition drain_freed (p : t) (into : list Z) : list Z * t :=
  (freed p, Pool (region p) (stride p) (count p) into (strong p)).

(** [<IndexFrame as AsRef>::as_ref]: the raw slice of the region. *)
Definition frame_as_ref (p : t) (f : IndexFrame) : list byte :=
  take (Z.to_nat (flen f)) (drop (Z.to_nat (slot f * stride p + offset f)) (region p)).

(** [<IndexFrame as Drop>::drop]. *)
Definition drop_frame (p : t) (f : IndexFrame) : t :=
  Pool (region p) (stride p) (count p) (freed p ++ [slot f]) (strong p - 1).

(** The safety contract of [frame]: inside the slot, and so inside the region. *)
Definition frame_in_bounds (p : t) (f : IndexFrame) : Prop :=
  0 <= slot f < count p /\ 0 <= offset f /\ 0 <= flen f /\ offset f + flen f <= stride p.

Definition wf (p : t) : Prop := 0 < stride p /\ 0 < count p /\ count p * stride p <= len (region p).

Lemma index_new_wf alloc c s p : 0 < c -> 0 < s -> new alloc c s = Ok p -> wf p /\ count p = c /\ stride p = s /\ freed p = [] /\ strong p = 1.
Proof.
  intros Hc Hs. unfold new, validate.checked_product, checked_mul. destruct (c * s <=? U64_MAX); [|done]. cbn [ok_or].
  destruct (Region.zeroed _ _ _) as [r| |] eqn:E; [|done..]. destruct (VecPool.try_reserve _ _); [|done].
  intros; simplify_eq. apply Region.zeroed_covers in E as (Hl & _); [|nia]. unfold wf. cbn. done.
Qed.

(** What a pool's calls never change. *)
Definition shape (p : t) : list byte * Z * Z := (region p, stride p, count p).

(** A frame reads exactly its length, all of it inside the region. *)
Lemma frame_reads p f :
  wf p -> frame_in_bounds p f ->
  0 <= slot f * stride p + offset f /\ slot f * stride p + offset f + flen f <= len (region p) /\
  len (frame_as_ref p f) = flen f.
Proof.
  intros (Hs & Hc & Hr) (H1 & H2 & H3 & H4).
  assert (slot f * stride p + offset f + flen f <= len (region p)) by nia.
  assert (0 <= slot f * stride p + offset f) by nia. split_and!; [done..|].
  unfold frame_as_ref, len in *. rewrite length_take, length_drop. lia.
Qed.

(** Writing one slot leaves the frames of every other slot as they were. *)
Lemma write_other_slot p (f : IndexFrame) s bytes :
  wf p -> frame_in_bounds p f -> 0 <= s < count p -> len bytes <= stride p -> slot f <> s ->
  let at_ := Z.to_nat (s * stride p) in
  let p' := Pool (take at_ (region p) ++ bytes ++ drop (at_ + length bytes) (region p)) (stride p) (count p) (freed p) (strong p) in
  frame_as_ref p' f = frame_as_ref p f.
Proof.
  intros (Hst & Hc & Hr) (H1 & H2 & H3 & H4) Hs Hb Hne. cbv zeta. unfold frame_as_ref. cbn [region stride].
  set (a := s * stride p) in *. set (st := slot f * stride p + offset f).
  assert (Ha : 0 <= a) by (unfold a; nia). assert (Hae : a + len bytes <= len (region p)) by (unfold a; nia).
  destruct (decide (slot f < s)) as [Hlt|Hge].
  - assert (Hend : st + flen f <= a) by (unfold st, a; nia). unfold st in *.
    rewrite drop_app_le by (rewrite length_take; unfold len in *; nia).
    rewrite take_app_le by (rewrite length_drop, length_take; unfold len in *; nia).
    rewrite <- (take_drop (Z.to_nat a) (region p)) at 2.
    rewrite drop_app_le by (rewrite length_take; unfold len in *; nia).
    by rewrite take_app_le by (rewrite length_drop, length_take; unfold len in *; nia).
  - assert (Hbeg : a + len bytes <= st) by (unfold st, a; nia). f_equal.
    rewrite drop_app_ge by (rewrite length_take; unfold len in *; nia).
    rewrite drop_app_ge by (rewrite length_take; unfold len in *; nia).
    rewrite drop_drop, length_take. f_equal. unfold len in *. lia.
Qed.

(** A slot reads back what was written to it. *)
Lemma write_same_slot p s bytes :
  wf p -> 0 <= s < count p -> len bytes <= stride p ->
  let at_ := Z.to_nat (s * stride p) in
  let p' := Pool (take at_ (region p) ++ bytes ++ drop (at_ + length bytes) (region p)) (stride p) (count p) (freed p) (strong p) in
  frame_as_ref p' (Frame s 0 (len bytes)) = bytes /\ len (region p') = len (region p).
Proof.
  intros (Hst & Hc & Hr) Hs Hb. cbv zeta. unfold frame_as_ref. cbn [region stride slot offset flen].
  assert (Ha : 0 <= s * stride p) by nia. assert (Hae : s * stride p + len bytes <= len (region p)) by nia.
  split.
  - rewrite Z.add_0_r, drop_app_length' by (rewrite length_take; unfold len in *; lia).
    by rewrite take_app_length' by (unfold len; lia).
  - rewrite !len_app. unfold len in *. rewrite length_take, length_drop. lia.
Qed.
End IndexPool.

(** ** Properties *)

Section properties.
Context {E : Type}.
Import VecPool.

(** C31: From a fresh pool, after any sequence of acquire, fill and drop, every slab is
    either free or live, [stats().in_use] counts the live ones, [acquire] fails
    exactly when all are out, and reading a live slab never panics. *)
Theorem vec_pool_conserves alloc count size p ops :
  0 < count -> 0 < size -> new alloc count size = Ok p ->
  let '(p', live) := foldl (fun st o => apply o st) (p, []) ops in
  ps_in_use (VecPool.stats p') = len live /\ ps_capacity (VecPool.stats p') = count /\
  len (free p') + len live = count /\ (acquire p' = None <-> len live = count) /\
  Forall (fun s => exists bytes, slab_as_ref (E := E) s = Ok bytes) live.
Proof.
  intros Hc Hs En. assert (Hcap : capacity p = count).
  { unfold new in En. destruct (try_reserve _ _); [|done]. destruct (new_slabs _ _ _ _); by simplify_eq. }
  assert (Hinv : let st := foldl (fun st o => apply o st) (p, []) ops in wf size st /\ capacity st.1 = count).
  { cbv zeta. pose proof (vec_new_wf _ _ _ _ Hc Hs En) as Hw.
    assert (Hi : wf size (p, @nil VecSlab) /\ capacity (p, @nil VecSlab).1 = count) by done. revert Hi.
    generalize (p, @nil VecSlab). induction ops as [|o ops IH]; intros st Hi; [done|]. cbn [foldl]. apply IH.
    destruct Hi as [Hwf Hcc]. split; [by apply apply_wf|]. rewrite <- Hcc. destruct st as [q live].
    destruct o; unfold apply, acquire, drop_slab; by repeat case_match; simplify_eq. }
  destruct (foldl _ _ ops) as [p' live]. destruct Hinv as [(Hsum & Hst & Hf & Hl) Hcc]. cbn [fst] in Hcc.
  rewrite Hcc in Hsum. split_and!; [simpl; lia|done|done| |].
  - unfold acquire. destruct (last (free p')) as [b|] eqn:El.
    + apply last_Some in El as [fs El]. rewrite El in Hsum. autorewrite with polaris in Hsum. pose proof (len_nonneg fs).
      split; [done|lia].
    + apply last_None in El. rewrite El, len_nil in Hsum. split; [lia|done].
  - eapply Forall_impl; [exact Hl|]. intros s [Hb Hn]. unfold slab_as_ref, index_range.
    destruct (get_range_is_Some 0 (slab_len s) (buf s)) as [m ->]; [lia|lia|]. by exists m.
Qed.
End properties.

Lemma vec_pool_conserves_witness :
  exists p, VecPool.new (fun _ => true) 2 8 = Ok p /\
  let '(p', live) := foldl (fun st o => VecPool.apply o st) (p, [])
      [VecPool.Acquire; VecPool.Fill 0 [Byte.x41]; VecPool.Acquire; VecPool.Acquire; VecPool.Drop 0] in
  ps_in_use (VecPool.stats p') = len live /\ ps_capacity (VecPool.stats p') = 2 /\
  len (VecPool.free p') + len live = 2 /\ (VecPool.acquire p' = None <-> len live = 2) /\
  Forall (fun s => exists bytes, VecPool.slab_as_ref (E := TransportError) s = Ok bytes) live.
Proof.
  eexists. split; [reflexivity|].
  apply (vec_pool_conserves (fun _ => true) 2 8); [done|done|reflexivity].
Defined.
