(* ===== verification/Bypass.v ===== *)
(** * transport-core: the kernel-bypass shell

    Models [crates/transports/core/src/bypass/mod.rs], [bypass/mock.rs] and
    [telemetry.rs]: the [Driver] trait, [BypassTransport] with its deferred error
    and drop reports, and the mock driver over an [IndexPool]. A driver that keeps
    [driver_contract] gives a transport that keeps [burst_contract]. *)

From S2P Require Import Prelude TransportCore Pools.
From Stdlib Require Import ZArith Lia Permutation.
From stdpp Require Import prelude list strings.

Open Scope Z_scope.
Open Scope res_scope.

Import FrameBatch (frames, cap, spare).

Definition STATS_EVERY : Z := 1024.

Inductive Polled := Frames (n : Z) | Idle | Exhausted.

Record DriverStats := { no_buffer : Z; nic_missed : Z; ds_truncated : Z; syscalls : Z }.

Definition DriverStats_default : DriverStats :=
  {| no_buffer := 0; nic_missed := 0; ds_truncated := 0; syscalls := 0 |}.

(** [Layer]: the two markers. *)
Inductive L4 := .
Inductive L2 := .

Definition poll_result (D F : Type) : Type := res TransportError Polled * D * FrameBatch.t F.

Class Driver (D F : Type) := {
  BACKEND : string;
  poll_frames : nat -> D -> FrameBatch.t F -> option (poll_result D F);
  driver_stats : D -> DriverStats * D;
  driver_pool_stats : D -> PoolStats;
}.

(** ** Telemetry *)

(** [DropReason]. *)
Inductive DropReason := NoBuffer | NicMissed | TruncatedFrame | DecapFiltered.

(** Counter increments the seam emits. *)
Inductive metric :=
  | RECV_PACKETS (backend : string) (n : Z)
  | RECV_BYTES (backend : string) (n : Z)
  | RECV_DROPS (backend : string) (reason : DropReason) (n : Z).

(** [record_recv_burst], with the runtime gate [enabled]. *)
Definition record_recv_burst (enabled : bool) (backend : string) (packets bytes : Z) : list metric :=
  if (packets =? 0) || negb enabled then []
  else [RECV_PACKETS backend packets; RECV_BYTES backend bytes].

(** [record_drops]. *)
Definition record_drops (enabled : bool) (backend : string) (reason : DropReason) (delta : Z) : list metric :=
  if (delta =? 0) || negb enabled then [] else [RECV_DROPS backend reason delta].

(** ** [BypassTransport] *)

Record BypassTransport (L D : Type) := Bypass {
  driver : D;
  deferred : option TransportError;
  last_stats : DriverStats;
  calls : Z;
}.
Arguments Bypass {L D}.
Arguments driver {L D}.
Arguments deferred {L D}.
Arguments last_stats {L D}.
Arguments calls {L D}.

Section shell.
Context {L D F : Type} `{Driver D F, AsRef F}.
Implicit Types (b : BypassTransport L D) (out : FrameBatch.t F).

Definition new (d : D) : BypassTransport L D :=
  let '(s, d) := driver_stats d in Bypass d None s 0.

(** [BypassTransport::poll_frames]. *)
Definition shell_poll_frames (fuel : nat) b out : option (burst_result (BypassTransport L D) F) :=
  match deferred b with
  | Some error => Some (Err error, Bypass (driver b) None (last_stats b) (calls b), out)
  | None =>
      let before := FrameBatch.len_ out in
      match poll_frames fuel (driver b) out with
      | None => None
      | Some (polled, d, out) =>
          let pushed := FrameBatch.len_ out - before in
          let b := Bypass d None (last_stats b) (calls b) in
          match polled with
          | Ok Exhausted =>
              if pushed =? 0 then
                let s := driver_pool_stats d in
                Some (Err (PoolExhausted (ps_in_use s) (ps_capacity s)), b, out)
              else Some (Ok pushed, b, out)
          | Ok _ => Some (Ok pushed, b, out)
          | Err error =>
              if pushed >? 0
              then Some (Ok pushed, Bypass d (Some error) (last_stats b) (calls b), out)
              else Some (Err error, b, out)
          | Panic => Some (Panic, b, out)
          end
      end
  end.

(** [report_drops]: increases since the last read. *)
Definition report_drops (enabled : bool) b : list metric * BypassTransport L D :=
  let '(now, d) := driver_stats (driver b) in
  let last := last_stats b in
  (record_drops enabled BACKEND NoBuffer (saturating_sub (no_buffer now) (no_buffer last)) ++
   record_drops enabled BACKEND NicMissed (saturating_sub (nic_missed now) (nic_missed last)) ++
   record_drops enabled BACKEND TruncatedFrame (saturating_sub (ds_truncated now) (ds_truncated last)),
   Bypass d (deferred b) now (calls b)).

(** [report]: nothing while the gate is off; drops every [STATS_EVERY] calls. *)
Definition report (enabled : bool) (pushed : list F) b : list metric * BypassTransport L D :=
  if negb enabled then ([], b)
  else
    let burst :=
      match pushed with
      | [] => []
      | _ => record_recv_burst enabled BACKEND (len pushed)
               (foldr (fun f n => u64_add (len (as_ref f)) n) 0 pushed)
      end in
    let b := Bypass (driver b) (deferred b) (last_stats b) (u32_wrapping_add (calls b) 1) in
    if calls b =? STATS_EVERY then
      let '(ms, b) := report_drops enabled (Bypass (driver b) (deferred b) (last_stats b) 0) in
      (burst ++ ms, b)
    else (burst, b).

(** [recv]: with the [observability] feature the pushed frames are reported. *)
Definition recv (enabled : bool) (fuel : nat) b out
    : option (burst_result (BypassTransport L D) F * list metric) :=
  let before := FrameBatch.len_ out in
  match shell_poll_frames fuel b out with
  | None => None
  | Some (r, b, out) =>
      let '(ms, b) := report enabled (drop (Z.to_nat before) (frames out)) b in
      Some ((r, b, out), ms)
  end.

Definition shell_recv (fuel : nat) b out : option (burst_result (BypassTransport L D) F) :=
  match recv false fuel b out with Some (x, _) => Some x | None => None end.
End shell.

#[export] Instance Bypass_datagram {D F} `{Driver D F, AsRef F} : DatagramRecv (BypassTransport L4 D) F := {|
  recv_burst := shell_recv;
  pool_stats := fun b => driver_pool_stats (driver b);
|}.

#[export] Instance Bypass_l2 {D F} `{Driver D F, AsRef F} : L2Recv (BypassTransport L2 D) F := {|
  l2_recv_burst := shell_recv;
  l2_pool_stats := fun b => driver_pool_stats (driver b);
|}.

#[export] Instance Bypass_transport {L D F} `{Driver D F} : Transport (BypassTransport L D) := fun _ => BACKEND.

(** ** What a driver promises *)

(** [poll_frames] only pushes, at most what fits, and its answer agrees with what
    it pushed; an error may follow frames. *)
Record driver_contract {D F : Type} (poll : nat -> D -> FrameBatch.t F -> option (poll_result D F)) := {
  dc_wf : D -> Prop;
  dc_backlog : D -> nat;
  dc_sound : forall fuel d out r d' out',
    dc_wf d -> 0 < spare out -> poll fuel d out = Some (r, d', out') ->
    dc_wf d' /\ cap out' = cap out /\
    exists new, frames out' = frames out ++ new /\ len new <= spare out /\
      (dc_backlog d' + length new <= dc_backlog d)%nat /\
      match r with
      | Ok (Frames n) => n = len new /\ 0 < n
      | Ok Idle => new = []
      | Ok Exhausted => True
      | Err _ => True
      | Panic => False
      end;
  dc_total : forall fuel d out, dc_wf d -> 0 < spare out -> (dc_backlog d < fuel)%nat -> is_Some (poll fuel d out);
}.
Arguments dc_wf {D F poll} _ _.
Arguments dc_backlog {D F poll} _ _.
Arguments dc_sound {D F poll} _ _ _ _ _ _ _.
Arguments dc_total {D F poll} _ _ _ _.

Class DriverOk (D F : Type) `{Driver D F} := the_driver_contract : driver_contract poll_frames.

Section contract.
Context {L D F : Type} `{DriverOk D F, !AsRef F}.
Implicit Types (b : BypassTransport L D) (out : FrameBatch.t F).

Lemma shell_recv_poll fuel b out : shell_recv fuel b out = shell_poll_frames fuel b out.
Proof. unfold shell_recv, recv. by destruct (shell_poll_frames fuel b out) as [[[r b'] o]|]. Qed.

(** Every branch of the shell. *)
Lemma shell_sound fuel b out r b' out' :
  dc_wf the_driver_contract (driver b) -> 0 < spare out -> shell_recv fuel b out = Some (r, b', out') ->
  dc_wf the_driver_contract (driver b') /\ cap out' = cap out /\
  exists new, frames out' = frames out ++ new /\
    (dc_backlog the_driver_contract (driver b') + length new <= dc_backlog the_driver_contract (driver b))%nat /\
    match r with Ok n => n = len new /\ n <= spare out | Err _ => new = [] | Panic => False end.
Proof.
  intros Hw Hsp E. rewrite shell_recv_poll in E. unfold shell_poll_frames in E. destruct (deferred b) as [e|].
  { simplify_eq. split_and!; [done|done|]. exists []. rewrite app_nil_r. split_and!; [done|simpl; lia|done]. }
  destruct (poll_frames fuel (driver b) out) as [[[p d] o]|] eqn:Ep; [|done].
  destruct (dc_sound the_driver_contract _ _ _ _ _ _ Hw Hsp Ep) as (Hw' & Hc & fs & Hf & Hle & Hb & Hp).
  pose proof (batch_len_diff out o fs Hf) as Hdiff. rewrite Hdiff in E.
  assert (Hz : len fs = 0 -> fs = []) by (destruct fs; [done|rewrite len_cons; pose proof (len_nonneg fs); lia]).
  pose proof (len_nonneg fs).
  destruct p as [[n| |]|e|]; [| | | |done].
  - injection E as <- <- <-. split_and!; [done|done|]. exists fs. by split_and!.
  - injection E as <- <- <-. split_and!; [done|done|]. exists fs. by split_and!.
  - destruct (len fs =? 0) eqn:E0; bool_facts; injection E as <- <- <-; (split_and!; [done|done|]; exists fs; split_and!; auto).
  - destruct (len fs >? 0) eqn:E0; bool_facts; injection E as <- <- <-; (split_and!; [done|done|]; exists fs; split_and!; auto).
    apply Hz. lia.
Qed.

Lemma shell_total fuel b out :
  dc_wf the_driver_contract (driver b) -> 0 < spare out ->
  (dc_backlog the_driver_contract (driver b) < fuel)%nat -> is_Some (shell_recv fuel b out).
Proof.
  intros Hw Hsp Hf. rewrite shell_recv_poll. unfold shell_poll_frames. destruct (deferred b); [by eexists|].
  destruct (dc_total the_driver_contract fuel (driver b) out Hw Hsp Hf) as [[[p d] o] ->].
  destruct p as [[n| |]|e|]; try by eexists.
  - by destruct (_ =? 0); eexists.
  - by destruct (_ >? 0); eexists.
Qed.

Definition shell_contract : burst_contract (shell_recv (L := L)) := {|
  bc_wf := fun b => dc_wf the_driver_contract (driver b);
  bc_backlog := fun b => dc_backlog the_driver_contract (driver b);
  bc_sound := shell_sound;
  bc_total := shell_total;
|}.
End contract.

#[export] Instance Bypass_datagram_ok {D F} `{DriverOk D F, !AsRef F} : DatagramRecvOk (BypassTransport L4 D) F :=
  shell_contract.
#[export] Instance Bypass_l2_ok {D F} `{DriverOk D F, !AsRef F} : L2RecvOk (BypassTransport L2 D) F :=
  shell_contract.

(** ** The mock driver *)

Module MockDriver.
Import IndexPool (IndexFrame, slot, offset, flen, frame_as_ref).

Record t := Mock {
  pool : IndexPool.t;
  free : list Z;
  freed : list Z;
  queue : list (Z * Z);
  stats : DriverStats;
}.

(** [MockDriver::new]; the assertion panics over live frames. *)
Definition new (p : IndexPool.t) : res TransportError t :=
  let count := ps_capacity (IndexPool.stats p) in
  if negb (ps_in_use (IndexPool.stats p) =? 0) then Panic
  else
    let '(freed, p) := IndexPool.drain_freed p [] in
    Ok (Mock p (seqZ 0 count) [] [] DriverStats_default).

(** [recycle]: freed slots go back to the free list. *)
Definition recycle (d : t) : t :=
  let '(freed, p) := IndexPool.drain_freed (pool d) (freed d) in
  Mock p (free d ++ freed) [] (queue d) (stats d).

(** [copy_nonoverlapping] into the region at byte [at_]. *)
Definition write_region (p : IndexPool.t) (at_ : Z) (bytes : list byte) : IndexPool.t :=
  let a := Z.to_nat at_ in
  IndexPool.Pool (take a (IndexPool.region p) ++ bytes ++ drop (a + length bytes) (IndexPool.region p))
    (IndexPool.stride p) (IndexPool.count p) (IndexPool.freed p) (IndexPool.strong p).

Definition inject (d : t) (bytes : list byte) : t :=
  let d := recycle d in
  let stride := IndexPool.stride (pool d) in
  let s := stats d in
  match (match try_u32 (len bytes) with Some n => if n <=? stride then Some n else None | None => None end) with
  | None =>
      Mock (pool d) (free d) (freed d) (queue d)
        {| no_buffer := no_buffer s; nic_missed := nic_missed s;
           ds_truncated := u64_add (ds_truncated s) 1; syscalls := syscalls s |}
  | Some n =>
      match last (free d) with
      | None =>
          Mock (pool d) (free d) (freed d) (queue d)
            {| no_buffer := u64_add (no_buffer s) 1; nic_missed := nic_missed s;
               ds_truncated := ds_truncated s; syscalls := syscalls s |}
      | Some slot =>
          Mock (write_region (pool d) (slot * stride) bytes) (removelast (free d)) (freed d)
            (queue d ++ [(slot, n)]) s
      end
  end.

(** The [while] of [poll_frames]: one round per queued slot. *)
Fixpoint collect (q : list (Z * Z)) (p : IndexPool.t) (out : FrameBatch.t IndexFrame) (pushed : Z)
    : list (Z * Z) * IndexPool.t * FrameBatch.t IndexFrame * Z :=
  match q with
  | [] => ([], p, out, pushed)
  | (slot, n) :: rest =>
      if spare out >? 0 then
        let '(f, p) := IndexPool.frame p slot 0 n in collect rest p (FrameBatch.push out f) (pushed + 1)
      else (q, p, out, pushed)
  end.

Definition poll (_ : nat) (d : t) (out : FrameBatch.t IndexFrame) : option (poll_result t IndexFrame) :=
  let d := recycle d in
  let '(q, p, out, pushed) := collect (queue d) (pool d) out 0 in
  Some (Ok (if pushed =? 0 then Idle else Frames pushed), Mock p (free d) (freed d) q (stats d), out).

#[export] Instance driver_instance : Driver t IndexFrame := {|
  BACKEND := "mock";
  poll_frames := poll;
  driver_stats := fun d => (stats d, d);
  driver_pool_stats := fun d => IndexPool.stats (pool d);
|}.

(** Dropping a live frame. *)
Definition drop_live (d : t) (f : IndexFrame) : t :=
  Mock (IndexPool.drop_frame (pool d) f) (free d) (freed d) (queue d) (stats d).

(** *** Where every slot is *)

Definition places (d : t) (live : list IndexFrame) : list Z :=
  free d ++ freed d ++ IndexPool.freed (pool d) ++ (queue d).*1 ++ (slot <$> live).

Record wf (d : t) (live : list IndexFrame) : Prop := {
  w_pool : IndexPool.wf (pool d);
  w_places : places d live ≡ₚ seqZ 0 (IndexPool.count (pool d));
  w_strong : IndexPool.strong (pool d) = 1 + len live;
  w_queue : Forall (fun q => 0 <= q.2 <= IndexPool.stride (pool d)) (queue d);
  w_live : Forall (IndexPool.frame_in_bounds (pool d)) live;
  w_freed : freed d = [];
}.

(** The datagrams queued, read out of the region. *)
Definition queued (d : t) : list (list byte) :=
  (fun q => frame_as_ref (pool d) (IndexPool.Frame q.1 0 q.2)) <$> queue d.

Lemma place_range d live s : wf d live -> s ∈ places d live -> 0 <= s < IndexPool.count (pool d).
Proof. intros Hw Hs. rewrite (w_places _ _ Hw) in Hs. apply elem_of_seqZ in Hs. lia. Qed.

Lemma places_nodup d live : wf d live -> NoDup (places d live).
Proof. intros Hw. rewrite (w_places _ _ Hw). apply NoDup_seqZ. Qed.

Lemma queue_bounds d live q : wf d live -> q ∈ queue d -> IndexPool.frame_in_bounds (pool d) (IndexPool.Frame q.1 0 q.2).
Proof.
  intros Hw Hq. assert (Hp : q.1 ∈ places d live).
  { unfold places. rewrite !elem_of_app. right. right. right. left. by apply list_elem_of_fmap_2. }
  pose proof (place_range _ _ _ Hw Hp). pose proof (w_queue _ _ Hw) as Hf. rewrite Forall_forall in Hf.
  specialize (Hf q Hq). split_and!; cbn [slot offset flen]; lia.
Qed.

Lemma recycle_wf d live : wf d live -> wf (recycle d) live /\ queued (recycle d) = queued d.
Proof.
  intros [Hp Hpl Hs Hq Hl Hf]. split; [|done]. split; try done. unfold places in *. cbn [recycle free freed pool queue IndexPool.drain_freed].
  rewrite <- Hpl, Hf. cbn [IndexPool.freed IndexPool.count]. simpl. by rewrite <- app_assoc.
Qed.

Lemma recycle_reads d f : frame_as_ref (pool (recycle d)) f = frame_as_ref (pool d) f.
Proof. done. Qed.

(** *** Injecting *)

(** Landing bytes in the slot on top of the free list. *)
Lemma land_wf d live fs s bytes n :
  wf d live -> free d = fs ++ [s] -> n = len bytes -> n <= IndexPool.stride (pool d) ->
  let d' := Mock (write_region (pool d) (s * IndexPool.stride (pool d)) bytes) fs (freed d) (queue d ++ [(s, n)]) (stats d) in
  wf d' live /\ queued d' = queued d ++ [bytes] /\
  forall f, f ∈ live -> frame_as_ref (pool d') f = frame_as_ref (pool d) f.
Proof.
  intros Hw Hfree -> Hlen d'.
  assert (Hsp : s ∈ places d live) by (unfold places; rewrite Hfree, !elem_of_app, list_elem_of_singleton; auto).
  pose proof (place_range _ _ _ Hw Hsp) as Hsr. pose proof (places_nodup _ _ Hw) as Hnd.
  assert (Hother : forall x, x ∈ (queue d).*1 ++ (slot <$> live) -> x <> s).
  { intros x Hx ->. unfold places in Hnd. rewrite Hfree in Hnd. rewrite <- app_assoc in Hnd.
    apply NoDup_app in Hnd as (_ & _ & Hnd). simpl in Hnd. apply NoDup_cons in Hnd as [Hn _]. apply Hn.
    rewrite !elem_of_app in *. tauto. }
  pose proof Hw as [Hp Hpl Hst Hq Hl Hf].
  destruct (IndexPool.write_same_slot (pool d) s bytes Hp Hsr Hlen) as [Hsame Hrl].
  assert (Hkeep : forall f, IndexPool.frame_in_bounds (pool d) f -> slot f <> s ->
            frame_as_ref (pool d') f = frame_as_ref (pool d) f)
    by (intros f Hb Hne; by apply IndexPool.write_other_slot).
  split_and!.
  - split; try done.
    + destruct Hp as (? & ? & Hr). unfold IndexPool.wf. cbn [d' pool write_region IndexPool.stride IndexPool.count].
      split_and!; [done|done|]. exact (eq_ind_r (fun z => _ <= z) Hr Hrl).
    + unfold places in *. cbn [d' pool write_region free freed queue IndexPool.freed IndexPool.count].
      rewrite <- Hpl, Hfree, fmap_app. simpl. solve_Permutation.
    + apply Forall_app. split; [done|]. constructor; [|constructor]. cbn. pose proof (len_nonneg bytes). lia.
  - unfold queued. cbn [d' queue]. rewrite fmap_app. f_equal; [|exact (f_equal (fun b => [b]) Hsame)].
    apply list_fmap_ext. intros k q Hk. apply list_elem_of_lookup_2 in Hk. apply Hkeep.
    + by eapply queue_bounds.
    + cbn [slot]. apply Hother. rewrite elem_of_app. left. by apply list_elem_of_fmap_2.
  - intros f Hin. apply Hkeep; [by rewrite Forall_forall in Hl; apply Hl|].
    apply Hother. rewrite elem_of_app. right. by apply list_elem_of_fmap_2.
Qed.

(** Everything [inject] may do. *)
Lemma inject_spec d live bytes :
  wf d live -> IndexPool.stride (pool d) <= U32_MAX ->
  wf (inject d bytes) live /\
  (forall f, f ∈ live -> frame_as_ref (pool (inject d bytes)) f = frame_as_ref (pool d) f) /\
  queued (inject d bytes) =
    if decide (len bytes <= IndexPool.stride (pool d) /\ len (queue d) + len live < IndexPool.count (pool d))
    then queued d ++ [bytes] else queued d.
Proof.
  intros Hw Hst. destruct (recycle_wf d live Hw) as [Hw1 Hq1]. unfold inject. cbv zeta.
  set (r := recycle d) in *. assert (Hsr : IndexPool.stride (pool r) = IndexPool.stride (pool d)) by done.
  assert (Hfree : len (free r) = IndexPool.count (pool d) - len (queue d) - len live).
  { pose proof (Permutation_length (w_places _ _ Hw1)) as Hl. unfold places in Hl. rewrite (w_freed _ _ Hw1) in Hl.
    rewrite length_seqZ in Hl. cbn [r recycle pool IndexPool.drain_freed IndexPool.freed queue IndexPool.count] in Hl.
    rewrite (w_freed _ _ Hw) in Hl. simpl in Hl. rewrite !length_app, !length_fmap in Hl.
    pose proof (w_pool _ _ Hw) as (_ & Hc & _). unfold len. cbn [r recycle free IndexPool.drain_freed]. rewrite length_app.
    rewrite ?length_app in Hl. lia. }
  unfold try_u32. destruct (len bytes <=? U32_MAX) eqn:E1; bool_facts.
  2: { rewrite decide_False by lia. split_and!; [|done|done]. destruct Hw1. by split. }
  rewrite Hsr. destruct (len bytes <=? IndexPool.stride (pool d)) eqn:E2; bool_facts.
  2: { rewrite decide_False by lia. split_and!; [|done|done]. destruct Hw1. by split. }
  destruct (last (free r)) as [s|] eqn:El.
  - apply last_Some in El as [fs El]. rewrite El, removelast_last.
    rewrite decide_True by (rewrite El, len_app in Hfree; autorewrite with polaris in Hfree; pose proof (len_nonneg fs); lia).
    destruct (land_wf r live fs s bytes (len bytes) Hw1 El eq_refl) as (? & Hqq & ?); [by rewrite Hsr|].
    rewrite <- Hq1. rewrite <- Hsr. done.
  - apply last_None in El. rewrite El, len_nil in Hfree. rewrite decide_False by lia.
    split_and!; [|done|done]. destruct Hw1. by split.
Qed.

(** *** Delivering *)

Lemma collect_spec q p out pushed q' p' out' n :
  collect q p out pushed = (q', p', out', n) ->
  exists new, frames out' = frames out ++ new /\ cap out' = cap out /\ n = pushed + len new /\
    q = ((fun f => (slot f, flen f)) <$> new) ++ q' /\ Forall (fun f => offset f = 0) new /\
    (0 <= spare out -> len new <= spare out) /\ (q' <> [] -> spare out' = 0) /\
    IndexPool.region p' = IndexPool.region p /\ IndexPool.stride p' = IndexPool.stride p /\
    IndexPool.count p' = IndexPool.count p /\ IndexPool.freed p' = IndexPool.freed p /\
    IndexPool.strong p' = IndexPool.strong p + len new.
Proof.
  revert p out pushed. induction q as [|[s m] q IH]; intros p out pushed E; cbn [collect] in E.
  { simplify_eq. exists []. rewrite app_nil_r, len_nil. split_and!; try done; lia. }
  destruct (spare out >? 0) eqn:Es; bool_facts.
  - unfold IndexPool.frame in E. destruct (IH _ _ _ E) as (new & Hf & Hc & -> & -> & Ho & Hle & Hz & Hr & Hs & Hn & Hfr & Hst).
    exists (IndexPool.Frame s 0 m :: new). cbn [FrameBatch.push frames cap] in *. rewrite FrameBatch.spare_push in Hle by lia.
    rewrite len_cons, Hf, <- app_assoc, Hst. cbn [IndexPool.strong] in *. split_and!; try done; [lia|by constructor|lia|lia].
  - simplify_eq. exists []. rewrite app_nil_r, len_nil. pose proof (FrameBatch.spare_nonneg out'). split_and!; try done; lia.
Qed.

(** [poll_frames] moves queued datagrams into frames, in injection order, as many
    as fit; every frame reads what was injected. *)
Lemma poll_spec fuel d live out r d' out' :
  wf d live -> poll fuel d out = Some (r, d', out') ->
  exists new, frames out' = frames out ++ new /\ cap out' = cap out /\ wf d' (live ++ new) /\
    queued d = (frame_as_ref (pool d') <$> new) ++ queued d' /\
    (0 <= spare out -> len new <= spare out) /\ (queued d' <> [] -> spare out' = 0) /\
    (forall f, f ∈ live -> frame_as_ref (pool d') f = frame_as_ref (pool d) f) /\
    r = Ok (if len new =? 0 then Idle else Frames (len new)) /\ (length (queue d') + length new = length (queue d))%nat.
Proof.
  intros Hw E. destruct (recycle_wf d live Hw) as [Hw1 Hq1]. unfold poll in E. cbv zeta in E.
  set (x := recycle d) in *. destruct (collect (queue x) (pool x) out 0) as [[[q p] o] n] eqn:Ec. simplify_eq.
  destruct (collect_spec _ _ _ _ _ _ _ _ Ec) as (new & Hf & Hc & -> & Hq & Ho & Hle & Hz & Hr & Hs & Hn & Hfr & Hst).
  assert (Hread : forall f, frame_as_ref p f = frame_as_ref (pool x) f)
    by (intros f; unfold frame_as_ref; by rewrite Hr, Hs).
  exists new. rewrite Z.add_0_l. split_and!; try done.
  - pose proof Hw1 as [Hp Hpl Hsg Hqb Hl Hfz]. split; cbn [pool free freed queue].
    + unfold IndexPool.wf. rewrite Hr, Hs, Hn. done.
    + unfold places in *. cbn [pool free freed queue]. rewrite Hn, <- Hpl, Hq, Hfr, !fmap_app, <- list_fmap_compose.
      change (fst ∘ (fun f : IndexFrame => (slot f, flen f))) with slot. solve_Permutation.
    + rewrite Hst, Hsg, len_app. lia.
    + rewrite Hq in Hqb. apply Forall_app in Hqb as [_ Hqb]. by rewrite Hs.
    + apply Forall_app. unfold IndexPool.frame_in_bounds. rewrite Hn, Hs. split; [exact Hl|].
      apply Forall_forall. intros f Hin. rewrite Forall_forall in Ho. specialize (Ho f Hin).
      assert (Hqf : (slot f, flen f) ∈ queue x) by (rewrite Hq, elem_of_app, list_elem_of_fmap; left; eauto).
      apply (queue_bounds _ _ _ Hw1) in Hqf as (? & ? & ? & ?). cbn [slot offset flen fst snd] in *. rewrite Ho. lia.
    + done.
  - rewrite <- Hq1. unfold queued. rewrite Hq, fmap_app. cbn [queue pool]. f_equal.
    + rewrite <- list_fmap_compose. apply list_fmap_ext. intros k f Hk. simpl. rewrite Hread.
      apply list_elem_of_lookup_2 in Hk. rewrite Forall_forall in Ho. specialize (Ho f Hk). destruct f. simpl in *. by subst.
    + apply list_fmap_ext. intros. symmetry. apply Hread.
  - intros Hne. apply Hz. intros ->. by apply Hne.
  - change (queue d) with (queue x). rewrite Hq, length_app, length_fmap. cbn [queue]. lia.
Qed.

Lemma drop_wf d live i f :
  wf d live -> live !! i = Some f -> wf (drop_live d f) (delete i live) /\ queued (drop_live d f) = queued d.
Proof.
  intros [Hp Hpl Hs Hq Hl Hf] Hi. split; [|done]. pose proof (delete_Permutation _ _ _ Hi) as Hperm.
  split; try done.
  - unfold places in *. cbn [drop_live pool IndexPool.drop_frame IndexPool.freed IndexPool.count free freed queue].
    rewrite <- Hpl. rewrite Hperm at 2. rewrite fmap_cons. solve_Permutation.
  - cbn [drop_live pool IndexPool.drop_frame IndexPool.strong]. rewrite Hs.
    pose proof (lookup_lt_Some _ _ _ Hi). unfold len. rewrite length_delete by done. lia.
  - by apply Forall_delete.
Qed.

(** The mock keeps the driver contract. *)
#[export] Instance driver_ok : DriverOk t IndexFrame.
Proof.
  refine {| dc_wf := fun d => exists live, wf d live; dc_backlog := fun d => length (queue d) |}.
  - intros fuel d out r d' out' [live Hw] Hsp E.
    destruct (poll_spec _ _ _ _ _ _ _ Hw E) as (new & Hf & Hc & Hw' & _ & Hle & _ & _ & -> & Hlen).
    split_and!; [by exists (live ++ new)|done|]. exists new. split_and!; [done|apply Hle; lia|lia|].
    destruct (len new =? 0) eqn:E0; bool_facts.
    + destruct new as [|x l]; [done|]. rewrite len_cons in E0. pose proof (len_nonneg l). lia.
    + pose proof (len_nonneg new). lia.
  - intros fuel d out _ _ _. simpl. unfold poll. destruct (collect _ _ _ _) as [[[q p] o] n]. by eexists.
Defined.
End MockDriver.

(** ** Properties *)

Section properties.
Context {L D F : Type} `{DriverOk D F, !AsRef F}.
Implicit Types (b : BypassTransport L D) (out : FrameBatch.t F).

(** C22: Over any driver that keeps its contract the shell keeps the transports'
    receive contract: it returns, appends at most what fits, reports exactly what
    it appended, and an error never travels with frames. *)
Theorem bypass_keeps_contract fuel b out :
  dc_wf the_driver_contract (driver b) -> 0 < spare out ->
  (dc_backlog the_driver_contract (driver b) < fuel)%nat ->
  exists r b' out', shell_recv fuel b out = Some (r, b', out') /\
    exists new, frames out' = frames out ++ new /\ len new <= spare out /\
      match r with Ok n => n = len new | Err _ => new = [] | Panic => False end.
Proof.
  intros Hw Hsp Hf. destruct (shell_total fuel b out Hw Hsp Hf) as [[[r b'] out'] E].
  destruct (shell_sound _ _ _ _ _ _ Hw Hsp E) as (_ & _ & fs & Hfs & _ & Hr).
  exists r, b', out'. split; [done|]. exists fs. split; [done|].
  destruct r; [destruct Hr; split; [lia|done]| |done]. subst. rewrite len_nil. split; [lia|done].
Qed.

(** A driver error met after frames were pushed is not lost: the call returns the
    frames, the next call returns that error and touches neither driver nor batch. *)
Theorem deferred_error_returned fuel fuel' b out e d out1 out2 :
  deferred b = None -> poll_frames fuel (driver b) out = Some (Err e, d, out1) ->
  FrameBatch.len_ out < FrameBatch.len_ out1 ->
  exists b1, shell_recv fuel b out = Some (Ok (FrameBatch.len_ out1 - FrameBatch.len_ out), b1, out1) /\
    exists b2, shell_recv fuel' b1 out2 = Some (Err e, b2, out2) /\ driver b2 = d /\ deferred b2 = None.
Proof.
  intros Hd Ep Hlt. eexists. split.
  - rewrite shell_recv_poll. unfold shell_poll_frames. rewrite Hd, Ep.
    rewrite (proj2 (Z.gtb_lt _ 0)) by lia. reflexivity.
  - eexists. rewrite shell_recv_poll. unfold shell_poll_frames. cbn [deferred driver]. done.
Qed.
End properties.

(** A driver that pushes one frame and fails, for the witnesses. *)
#[local] Instance faulty : Driver unit (list byte) := {|
  BACKEND := "faulty";
  poll_frames := fun _ d out => Some (Err PeerClosed, d, FrameBatch.push out [Byte.x01]);
  driver_stats := fun d => (DriverStats_default, d);
  driver_pool_stats := fun _ => {| ps_capacity := 1; ps_in_use := 0 |};
|}.

Lemma deferred_error_returned_witness :
  exists b1, shell_recv 1 (new (L := L4) tt) (FrameBatch.with_capacity 2) =
      Some (Ok 1, b1, FrameBatch.Batch [[Byte.x01]] 2) /\
    exists b2, shell_recv 1 b1 (FrameBatch.with_capacity (F := list byte) 2) = Some (Err PeerClosed, b2, FrameBatch.with_capacity 2) /\
      driver b2 = tt /\ deferred b2 = None.
Proof.
  apply (deferred_error_returned (L := L4) (D := unit) (F := list byte) 1 1 (new tt) (FrameBatch.with_capacity 2) PeerClosed tt
           (FrameBatch.Batch [[Byte.x01]] 2) (FrameBatch.with_capacity 2)); [done|done|by vm_compute].
Defined.

Section mock_history.
Import IndexPool (IndexFrame, frame_as_ref).

(** A mock driver and the frames its user holds, each with the bytes it showed
    when it was delivered. *)
Definition mock_state : Type := MockDriver.t * list (IndexFrame * list byte).

Inductive mock_op := MInject (bytes : list byte) | MPoll (room : Z) | MDrop (i : nat).

Definition mock_apply (o : mock_op) (st : mock_state) : mock_state :=
  let '(d, held) := st in
  match o with
  | MInject bytes => (MockDriver.inject d bytes, held)
  | MPoll room =>
      match MockDriver.poll 0 d (FrameBatch.with_capacity room) with
      | Some (_, d, out) => (d, held ++ ((fun f => (f, frame_as_ref (MockDriver.pool d) f)) <$> frames out))
      | None => st
      end
  | MDrop i =>
      match held !! i with
      | Some (f, _) => (MockDriver.drop_live d f, delete i held)
      | None => st
      end
  end.

Definition mock_inv (stride : Z) (st : mock_state) : Prop :=
  MockDriver.wf st.1 (st.2.*1) /\ IndexPool.stride (MockDriver.pool st.1) = stride /\
  forall f b, (f, b) ∈ st.2 -> frame_as_ref (MockDriver.pool st.1) f = b.

Lemma fmap_delete_fst {A B} (l : list (A * B)) i : (delete i l).*1 = delete i (l.*1).
Proof. revert i. induction l as [|x l IH]; intros [|i]; simpl; [done..|]. by rewrite IH. Qed.

Lemma mock_apply_inv stride o st : stride <= U32_MAX -> mock_inv stride st -> mock_inv stride (mock_apply o st).
Proof.
  intros Hs. destruct st as [d held]. intros (Hw & Hst & Hb). cbn [fst snd] in *. destruct o as [bytes|room|i]; unfold mock_apply.
  - destruct (MockDriver.inject_spec d _ bytes Hw ltac:(lia)) as (Hw' & Hk & _). split_and!; cbn [fst snd]; [done| |].
    + rewrite <- Hst. unfold MockDriver.inject. cbv zeta. by repeat case_match.
    + intros f b Hin. rewrite Hk; [by apply Hb|]. apply list_elem_of_fmap. by exists (f, b).
  - destruct (MockDriver.poll 0 d (FrameBatch.with_capacity room)) as [[[r d'] out]|] eqn:E; [|done].
    destruct (MockDriver.poll_spec _ _ _ _ _ _ _ Hw E) as (new & Hf & _ & Hw' & _ & _ & _ & Hk & _).
    simpl in Hf. rewrite Hf. split_and!; cbn [fst snd].
    + by rewrite fmap_app, <- list_fmap_compose, list_fmap_id.
    + rewrite <- Hst. unfold MockDriver.poll in E. cbv zeta in E. destruct (MockDriver.collect _ _ _ _) as [[[q p] o] n] eqn:Ec.
      apply MockDriver.collect_spec in Ec as (? & _ & _ & _ & _ & _ & _ & _ & _ & Hss & _). simplify_eq. exact Hss.
    + intros f b [Hin|Hin]%elem_of_app.
      * rewrite Hk; [by apply Hb|]. apply list_elem_of_fmap. by exists (f, b).
      * apply list_elem_of_fmap in Hin as (g & [= -> ->] & _). done.
  - destruct (held !! i) as [[f b]|] eqn:Ei; [|done].
    destruct (MockDriver.drop_wf d (held.*1) i f Hw) as [Hw' _]; [by rewrite list_lookup_fmap, Ei|].
    split_and!; cbn [fst snd]; [by rewrite fmap_delete_fst|done|].
    intros g c Hin. apply (Hb g c). rewrite (delete_Permutation _ _ _ Ei). by right.
Qed.

Lemma mock_new_inv p d :
  IndexPool.wf p -> MockDriver.new p = Ok d -> mock_inv (IndexPool.stride p) (d, []).
Proof.
  intros Hp E. unfold MockDriver.new, IndexPool.drain_freed in E. cbv zeta in E.
  destruct (negb _) eqn:En; [done|]. simplify_eq. bool_facts.
  split_and!; [|done|by intros f b Hin%not_elem_of_nil]. cbn [fst snd]. split; cbn; try done.
  - by rewrite !app_nil_r.
  - cbn in En. rewrite len_nil. lia.
Qed.

(** Over any interleaving of injections, polls and drops, every pool slot is in
    exactly one place (free list, freed list, queue or a live frame), and the bytes
    of a frame its holder has not dropped never change. *)
Theorem mock_frames_stable p d ops :
  IndexPool.wf p -> IndexPool.stride p <= U32_MAX -> MockDriver.new p = Ok d ->
  let '(d', held) := foldl (fun st o => mock_apply o st) (d, []) ops in
  NoDup (MockDriver.places d' (held.*1)) /\
  MockDriver.places d' (held.*1) ≡ₚ seqZ 0 (IndexPool.count (MockDriver.pool d')) /\
  forall f b, (f, b) ∈ held -> frame_as_ref (MockDriver.pool d') f = b.
Proof.
  intros Hp Hs E.
  assert (Hinv : mock_inv (IndexPool.stride p) (foldl (fun st o => mock_apply o st) (d, []) ops)).
  { pose proof (mock_new_inv _ _ Hp E) as Hi. revert Hi. generalize (d, @nil (IndexFrame * list byte)).
    induction ops as [|o ops IH]; intros st Hi; [done|]. cbn [foldl]. apply IH. by apply mock_apply_inv. }
  destruct (foldl _ _ ops) as [d' held]. destruct Hinv as (Hw & _ & Hb). cbn [fst snd] in *.
  split_and!; [by eapply MockDriver.places_nodup|apply (MockDriver.w_places _ _ Hw)|done].
Qed.
End mock_history.

Definition demo_index_pool : IndexPool.t := IndexPool.Pool (replicate 64 Byte.x00) 16 4 [] 1.

Lemma mock_frames_stable_witness :
  exists d, MockDriver.new demo_index_pool = Ok d /\
  let '(d', held) := foldl (fun st o => mock_apply o st) (d, [])
       [MInject [Byte.x41]; MInject [Byte.x42]; MPoll 1; MInject [Byte.x43]; MDrop 0; MInject [Byte.x44]] in
  NoDup (MockDriver.places d' (held.*1)) /\
  MockDriver.places d' (held.*1) ≡ₚ seqZ 0 (IndexPool.count (MockDriver.pool d')) /\
  forall f b, (f, b) ∈ held -> IndexPool.frame_as_ref (MockDriver.pool d') f = b.
Proof.
  eexists. split; [reflexivity|].
  apply (mock_frames_stable demo_index_pool); [by vm_compute|by vm_compute|reflexivity].
Defined.

(** A driver holding a list of frames, one per poll. *)
#[local] Instance one_by_one : Driver (list (list byte)) (list byte) := {|
  BACKEND := "list";
  poll_frames := fun _ d out =>
    match d with
    | [] => Some (Ok Idle, [], out)
    | f :: rest => Some (Ok (Frames 1), rest, FrameBatch.push out f)
    end;
  driver_stats := fun d => (DriverStats_default, d);
  driver_pool_stats := fun d => {| ps_capacity := 8; ps_in_use := 0 |};
|}.

#[local] Instance one_by_one_ok : DriverOk (list (list byte)) (list byte).
Proof.
  refine {| dc_wf := fun _ => True; dc_backlog := fun d => length d |}.
  - intros fuel d out r d' out' _ Hsp E. simpl in E. destruct d as [|f rest]; simplify_eq.
    + split_and!; [done|done|]. exists []. rewrite app_nil_r, len_nil. split_and!; [done|lia|simpl; lia|done].
    + split_and!; [done|done|]. exists [f]. autorewrite with polaris. split_and!; [done|lia|simpl; lia|done|lia].
  - intros fuel d out _ _ _. simpl. by destruct d; eexists.
Defined.

Lemma bypass_keeps_contract_witness :
  exists r b' out', shell_recv (L := L2) 9 (new [[Byte.x41]; [Byte.x42]]) (FrameBatch.with_capacity (F := list byte) 2) = Some (r, b', out') /\
    exists fs, frames out' = [] ++ fs /\ len fs <= 2 /\
      match r with Ok n => n = len fs | Err _ => fs = [] | Panic => False end.
Proof.
  apply (bypass_keeps_contract (L := L2) 9 (new [[Byte.x41]; [Byte.x42]]) (FrameBatch.with_capacity 2));
    [done|by vm_compute|vm_compute; lia].
Defined.
