(* ===== verification/FrameMemory.v ===== *)
(** * transport-core: what is in the frames of a driver that shares memory with a device

    A kernel-bypass driver hands out frames whose bytes stay where the kernel or the NIC put
    them. Here the writes of that other side are steps of their own, interleaved with the
    driver's calls. A driver that owns its memory as [owner] says keeps the bytes of every
    frame its holder has not dropped; so a frame is as good as the copy [snap_poll] takes
    at its delivery, and the transports above it may be run on those copies. *)

From S2P Require Import Prelude TransportCore Pools Bypass.
From Stdlib Require Import ZArith Lia.
From stdpp Require Import prelude list.

Open Scope Z_scope.
Open Scope res_scope.

Import FrameBatch (frames, cap, spare).
Import IndexPool (IndexFrame, frame_as_ref, shape).

(** ** Bytes of a pool *)

(** The region with one slot overwritten from its start. *)
Definition write (p : IndexPool.t) (s : Z) (bytes : list byte) : IndexPool.t :=
  let at_ := Z.to_nat (s * IndexPool.stride p) in
  IndexPool.Pool (take at_ (IndexPool.region p) ++ bytes ++ drop (at_ + length bytes) (IndexPool.region p))
    (IndexPool.stride p) (IndexPool.count p) (IndexPool.freed p) (IndexPool.strong p).

(** The pool over other bytes. *)
Definition set_region (m : list byte) (p : IndexPool.t) : IndexPool.t :=
  IndexPool.Pool m (IndexPool.stride p) (IndexPool.count p) (IndexPool.freed p) (IndexPool.strong p).

(** A frame and the bytes it had then. *)
Definition snapshot (p : IndexPool.t) (f : IndexFrame) : IndexFrame * list byte := (f, frame_as_ref p f).

#[export] Instance snapshot_as_ref : AsRef (IndexFrame * list byte) := snd.

Lemma snapshot_fst p l : (snapshot p <$> l).*1 = l.
Proof. induction l as [|f l IH]; [done|]. by rewrite !fmap_cons, IH. Qed.

Lemma same_bytes p p' f : shape p' = shape p -> frame_as_ref p' f = frame_as_ref p f.
Proof. unfold frame_as_ref. by intros [= -> -> _]. Qed.

Lemma write_wf p s bytes :
  IndexPool.wf p -> 0 <= s < IndexPool.count p -> len bytes <= IndexPool.stride p -> IndexPool.wf (write p s bytes).
Proof.
  intros Hp Hs Hl. destruct (IndexPool.write_same_slot p s bytes Hp Hs Hl) as [_ Hr]. destruct Hp as (H1 & H2 & H3).
  split_and!; [done|done|]. rewrite <- Hr in H3. done.
Qed.

(** ** A driver that owns its memory *)

(** [call] is the driver's calls with the frames each hands out, [give] the drop of one frame,
    [writable] the slots the other side may write between calls; [owns] relates a driver and its
    live frames. A call neither reads nor writes the bytes ([o_blind]). *)
Record owner {D O : Type} := Owner {
  pool_of : D -> IndexPool.t;
  with_pool : IndexPool.t -> D -> D;
  call : O -> D -> D * list IndexFrame;
  give : D -> IndexFrame -> D;
  writable : D -> list Z;
  owns : D -> list IndexFrame -> Prop;
  o_pool : forall d live, owns d live -> IndexPool.wf (pool_of d) /\ Forall (IndexPool.frame_in_bounds (pool_of d)) live;
  o_with_pool : forall p d, pool_of (with_pool p d) = p;
  o_with_same : forall d, with_pool (pool_of d) d = d;
  o_with_with : forall p q d, with_pool p (with_pool q d) = with_pool p d;
  o_writable : forall d live s, owns d live -> s ∈ writable d -> 0 <= s < IndexPool.count (pool_of d) /\ s ∉ (IndexPool.slot <$> live);
  o_write : forall d live s bytes, owns d live -> 0 <= s < IndexPool.count (pool_of d) -> len bytes <= IndexPool.stride (pool_of d) ->
    owns (with_pool (write (pool_of d) s bytes) d) live;
  o_blind : forall o m d,
    call o (with_pool (set_region m (pool_of d)) d) = (with_pool (set_region m (pool_of (call o d).1)) (call o d).1, (call o d).2);
  o_call : forall o d live d' new, owns d live -> call o d = (d', new) ->
    owns d' (live ++ new) /\ shape (pool_of d') = shape (pool_of d);
  o_give : forall d live i f, owns d live -> live !! i = Some f ->
    owns (give d f) (delete i live) /\ shape (pool_of (give d f)) = shape (pool_of d);
}.
Arguments owner : clear implicits.

Section history.
Context {D O : Type} (M : owner D O).

(** A driver, and the live frames with the bytes each had when it was delivered. *)
Definition held_state : Type := D * list (IndexFrame * list byte).

(** Writes of the other side, in order. *)
Definition lands (ws : list (Z * list byte)) (d : D) : D :=
  foldl (fun d w => with_pool M (write (pool_of M d) w.1 w.2) d) d ws.

(** What may be written while [held] are out: no slot of theirs. *)
Definition landable (d : D) (held : list (IndexFrame * list byte)) (w : Z * list byte) : Prop :=
  0 <= w.1 < IndexPool.count (pool_of M d) /\ (w.1 ∉ (IndexPool.slot <$> held.*1)) /\ len w.2 <= IndexPool.stride (pool_of M d).

(** Calls, drops of live frames and writes of the other side, in any order. During a call the
    other side writes as well: into slots the call gives it, before it takes them back as
    frames; so [ws] may touch any slot but those of the frames held before. *)
Inductive mem_steps (st : held_state) : held_state -> Prop :=
  | mem_none : mem_steps st st
  | mem_call o ws d held :
      mem_steps st (d, held) -> Forall (landable d held) ws ->
      mem_steps st (lands ws (call M o d).1, held ++ (snapshot (pool_of M (lands ws (call M o d).1)) <$> (call M o d).2))
  | mem_drop i d held f b : mem_steps st (d, held) -> held !! i = Some (f, b) -> mem_steps st (give M d f, delete i held)
  | mem_write s bytes d held :
      mem_steps st (d, held) -> s ∈ writable M d -> len bytes <= IndexPool.stride (pool_of M d) ->
      mem_steps st (lands [(s, bytes)] d, held).

(** *** A write during a call is as good as one before it or after it *)

Lemma write_region_of p s bytes : write p s bytes = set_region (IndexPool.region (write p s bytes)) p.
Proof. done. Qed.

Lemma call_region o d : IndexPool.region (pool_of M (call M o d).1) = IndexPool.region (pool_of M d).
Proof.
  pose proof (o_blind M o (IndexPool.region (pool_of M d)) d) as E.
  assert (Hs : forall p, set_region (IndexPool.region p) p = p) by (by intros []).
  rewrite Hs, o_with_same in E. apply (f_equal (fun x => IndexPool.region (pool_of M x.1))) in E. by rewrite E; cbn; rewrite o_with_pool.
Qed.

Lemma call_write o s bytes d :
  IndexPool.stride (pool_of M (call M o d).1) = IndexPool.stride (pool_of M d) ->
  call M o (lands [(s, bytes)] d) = (lands [(s, bytes)] (call M o d).1, (call M o d).2).
Proof.
  intros Hs. unfold lands. cbn [foldl fst snd]. rewrite (write_region_of (pool_of M d)), o_blind. f_equal. f_equal.
  rewrite (write_region_of (pool_of M (call M o d).1)). unfold write. cbn [IndexPool.region]. by rewrite call_region, Hs.
Qed.

(** *** What every step keeps *)

Definition stable (st : held_state) : Prop :=
  owns M st.1 st.2.*1 /\ forall f b, (f, b) ∈ st.2 -> frame_as_ref (pool_of M st.1) f = b.

(** Frames among [held] survive a write outside their slots, and the new ones with them. *)
Lemma write_keeps d (live held : list IndexFrame) s bytes :
  owns M d live -> 0 <= s < IndexPool.count (pool_of M d) -> len bytes <= IndexPool.stride (pool_of M d) ->
  (forall f, f ∈ held -> f ∈ live /\ IndexPool.slot f <> s) ->
  let d' := with_pool M (write (pool_of M d) s bytes) d in
  owns M d' live /\ IndexPool.stride (pool_of M d') = IndexPool.stride (pool_of M d) /\
  IndexPool.count (pool_of M d') = IndexPool.count (pool_of M d) /\
  forall f, f ∈ held -> frame_as_ref (pool_of M d') f = frame_as_ref (pool_of M d) f.
Proof.
  intros I Hs Hl Hh d'. destruct (o_pool M _ _ I) as [Hp Hf]. unfold d'. rewrite o_with_pool. split_and!; [by apply o_write|done|done|].
  intros f Hin. destruct (Hh f Hin) as [Hlive Hne].
  apply (IndexPool.write_other_slot (pool_of M d) f s bytes Hp); [by apply (proj1 (Forall_forall _ _) Hf)|done..].
Qed.

Lemma lands_keep ws d (live held : list IndexFrame) :
  owns M d live -> (forall f, f ∈ held -> f ∈ live) ->
  Forall (fun w => 0 <= w.1 < IndexPool.count (pool_of M d) /\ (w.1 ∉ (IndexPool.slot <$> held)) /\ len w.2 <= IndexPool.stride (pool_of M d)) ws ->
  owns M (lands ws d) live /\ IndexPool.count (pool_of M (lands ws d)) = IndexPool.count (pool_of M d) /\
  forall f, f ∈ held -> frame_as_ref (pool_of M (lands ws d)) f = frame_as_ref (pool_of M d) f.
Proof.
  revert d. induction ws as [|[s bytes] ws IH]; intros d I Hh Hw; [done|]. apply Forall_cons in Hw as [(Hs & Hn & Hl) Hw]. cbn [fst snd] in *.
  destruct (write_keeps d live held s bytes I Hs Hl) as (I' & Hst & Hc & Hb).
  { intros f Hin. split; [by apply Hh|]. intros <-. apply Hn. by apply list_elem_of_fmap_2. }
  unfold lands. cbn [foldl fst snd]. fold (lands ws (with_pool M (write (pool_of M d) s bytes) d)).
  destruct (IH _ I' Hh) as (I2 & Hc2 & Hb2); [by rewrite Hst, Hc|]. split_and!; [done|by rewrite Hc2|].
  intros f Hin. by rewrite Hb2, Hb.
Qed.

Lemma mem_steps_stable st st' : stable st -> mem_steps st st' -> stable st' /\ IndexPool.count (pool_of M st'.1) = IndexPool.count (pool_of M st.1).
Proof.
  intros Hst. assert (Hsh : forall p p', shape p' = shape p -> IndexPool.count p' = IndexPool.count p /\ IndexPool.stride p' = IndexPool.stride p) by (by intros ? ? [= _ -> ->]).
  induction 1 as [|o ws d held Hm IH Hw|i d held f b Hm IH Hi|s bytes d held Hm IH Hw Hl]; [done|..];
    destruct IH as [[I Hb] Hc]; cbn [fst snd] in *; rewrite <- Hc.
  - destruct (call M o d) as [d' new] eqn:E. cbn [fst snd]. destruct (o_call M _ _ _ _ _ I E) as [I' Hs].
    destruct (Hsh _ _ Hs) as [Hc1 Hs1]. destruct (lands_keep ws d' (held.*1 ++ new) held.*1 I') as (I2 & Hc2 & Hb2).
    + intros f Hin. apply elem_of_app. by left.
    + rewrite Hc1, Hs1. exact Hw.
    + split; [|by rewrite Hc2]. split; cbn [fst snd]; [by rewrite fmap_app, snapshot_fst|].
      intros f b [Hin|(g & [= -> ->] & _)%list_elem_of_fmap]%elem_of_app; [|done]. rewrite Hb2, <- (Hb f b Hin); [by apply same_bytes|].
      apply list_elem_of_fmap. by exists (f, b).
  - destruct (o_give M d held.*1 i f I) as [I' Hs]; [by rewrite list_lookup_fmap, Hi|].
    split; [|by apply Hsh]. split; cbn [fst snd]; [by rewrite list_fmap_delete|]. intros g c Hin.
    rewrite <- (Hb g c); [by apply same_bytes|]. rewrite (delete_Permutation _ _ _ Hi). by right.
  - destruct (o_writable M _ _ _ I Hw) as [Hs Hn].
    destruct (lands_keep [(s, bytes)] d held.*1 held.*1 I) as (I' & Hc' & Hb'); [done|by apply Forall_singleton|].
    split; [|done]. split; [done|]. cbn [fst snd]. intros f b Hin. rewrite Hb', (Hb f b Hin); [done|].
    apply list_elem_of_fmap. by exists (f, b).
Qed.

(** Histories that run, for worked examples: writes that are not allowed are skipped. *)
Inductive mem_act := ACall (o : O) (ws : list (Z * list byte)) | ADrop (i : nat) | AWrite (s : Z) (bytes : list byte).

#[local] Instance landable_dec d held w : Decision (landable d held w).
Proof. unfold landable. apply _. Defined.

Definition mem_do (st : held_state) (a : mem_act) : held_state :=
  let '(d, held) := st in
  match a with
  | ACall o ws =>
      let '(d', new) := call M o d in
      let d' := lands (filter (landable d held) ws) d' in (d', held ++ (snapshot (pool_of M d') <$> new))
  | ADrop i => match held !! i with Some (f, _) => (give M d f, delete i held) | None => st end
  | AWrite s bytes =>
      if bool_decide (s ∈ writable M d) && (len bytes <=? IndexPool.stride (pool_of M d))
      then (lands [(s, bytes)] d, held) else st
  end.

Lemma mem_do_steps st0 l st : mem_steps st0 st -> mem_steps st0 (foldl mem_do st l).
Proof.
  revert st. induction l as [|a l IH]; intros [d held] Hm; [done|]. apply IH. destruct a as [o ws|i|s bytes]; cbn [mem_do].
  - pose proof (mem_call st0 o (filter (landable d held) ws) d held Hm) as Hc. destruct (call M o d) as [d' new]. apply Hc.
    apply Forall_forall. by intros w [? _]%list_elem_of_filter.
  - destruct (held !! i) as [[f b]|] eqn:E; [by eapply mem_drop|done].
  - destruct (_ && _) eqn:E; [|done]. bool_facts. apply mem_write; [done| |done]. by apply bool_decide_eq_true in H.
Qed.
End history.

(** ** Frames that read as their bytes *)

Section copies.
Context {D : Type} (pool_of : D -> IndexPool.t) (poll : nat -> D -> FrameBatch.t IndexFrame -> option (poll_result D IndexFrame)).

(** [poll_frames] with each new frame's bytes. *)
Definition snap_poll (fuel : nat) (d : D) (out : FrameBatch.t (IndexFrame * list byte))
    : option (poll_result D (IndexFrame * list byte)) :=
  match poll fuel d (FrameBatch.Batch (frames out).*1 (cap out)) with
  | Some (r, d, out') =>
      let new := drop (length (frames out)) (frames out') in
      Some (r, d, FrameBatch.Batch (frames out ++ (snapshot (pool_of d) <$> new)) (cap out'))
  | None => None
  end.

Definition snap_contract : driver_contract poll -> driver_contract snap_poll.
Proof.
  intros X.
  assert (Hsp : forall out : FrameBatch.t (IndexFrame * list byte), spare (FrameBatch.Batch (frames out).*1 (cap out)) = spare out).
  { intros out. unfold spare, len. cbn [frames cap]. by rewrite length_fmap. }
  refine {| dc_wf := dc_wf X; dc_backlog := dc_backlog X |}.
  - intros fuel d out r d' out' Hw Hs E. unfold snap_poll in E. destruct (poll _ _ _) as [[[r1 d1] o1]|] eqn:Ex; [|done].
    rewrite <- Hsp in Hs. destruct (dc_sound X _ _ _ _ _ _ Hw Hs Ex) as (Hw' & Hcap & new & Hf & Hroom & Hb & Hr). simplify_eq.
    split_and!; [done|done|]. exists (snapshot (pool_of d') <$> new). cbn [frames] in *.
    rewrite Hf, drop_app_length' by (by rewrite length_fmap). rewrite Hsp in Hroom.
    assert (Hl : len (snapshot (pool_of d') <$> new) = len new) by (unfold len; by rewrite length_fmap).
    rewrite Hl, length_fmap. split_and!; [done|done|done|]. destruct r as [[n| |]|er|]; try done. by rewrite Hr.
  - intros fuel d out Hw Hs Hf. rewrite <- Hsp in Hs. destruct (dc_total X fuel d _ Hw Hs Hf) as [[[r d'] o] Ex].
    unfold snap_poll. rewrite Ex. by eexists.
Defined.
End copies.

(** A driver, run on the copies. *)
Definition copied {D} (pool_of : D -> IndexPool.t) `{Driver D IndexFrame} : Driver D (IndexFrame * list byte) := {|
  BACKEND := BACKEND (F := IndexFrame);
  poll_frames := snap_poll pool_of poll_frames;
  driver_stats := driver_stats (F := IndexFrame);
  driver_pool_stats := driver_pool_stats (F := IndexFrame);
|}.
