(* ===== verification/Decap.v ===== *)
(** * transport-core: UDP decapsulation

    Models [crates/transports/core/src/decap.rs]: [parse_udp] on a raw Ethernet
    frame, the drop counters, and [UdpDecap] turning any [L2Recv] into a
    [DatagramRecv]. [encode_frame] builds the frame format from its fields; the
    parser is proved to accept exactly the frames it builds. *)

From S2P Require Import Prelude TransportCore.
From Stdlib Require Import ZArith Lia.
From stdpp Require Import prelude list strings.

Open Scope Z_scope.
Open Scope res_scope.

Import FrameBatch (frames, cap, spare).

Definition ETH_HDR : Z := 14.
Definition VLAN_TAG : Z := 4.
Definition IPV4_HDR : Z := 20.
Definition UDP_HDR : Z := 8.
Definition ETHERTYPE_IPV4 : Z := 0x0800.
Definition ETHERTYPE_VLAN : Z := 0x8100.
Definition IPPROTO_UDP : Z := 17.
Definition FRAGMENT_BITS : Z := 0x3fff.

Inductive DecapDrop := NotIpv4 | Fragment | WrongDst | Truncated.

(** [a[i]] on a fixed-size header array; every index used is below its size. *)
Definition at_ (l : list byte) (i : nat) : byte := l !!! i.

(** [u16::from_be_bytes([a[i], a[i + 1]])]. *)
Definition be16 (l : list byte) (i : nat) : Z := from_be_bytes [at_ l i; at_ l (S i)].

(** The IPv4 octets at [i]. *)
Definition octets (l : list byte) (i : nat) : list byte := [at_ l i; at_ l (i + 1); at_ l (i + 2); at_ l (i + 3)].

(** Ethernet and VLAN: where IPv4 starts, and the bytes from there on. *)
Definition parse_l2 (frame : list byte) : res DecapDrop (Z * list byte) :=
  let* (eth, rest) := ok_or (split_first_chunk 14 frame) Truncated in
  if be16 eth 12 =? ETHERTYPE_IPV4 then Ok (ETH_HDR, rest)
  else if be16 eth 12 =? ETHERTYPE_VLAN then
    let* (tag, ip) := ok_or (split_first_chunk 4 rest) Truncated in
    if negb (be16 tag 2 =? ETHERTYPE_IPV4) then Err NotIpv4 else Ok (ETH_HDR + VLAN_TAG, ip)
  else Err NotIpv4.

Definition parse_udp (frame : list byte) (dst_port : Z) (dst_ip : option (list byte))
    : res DecapDrop ((Z * Z) * SocketAddr) :=
  let* (l3, ip) := parse_l2 frame in
  let* (hdr, _) := ok_or (split_first_chunk 20 ip) Truncated in
  if negb (Z.shiftr (byte_Z (at_ hdr 0)) 4 =? 4) then Err NotIpv4
  else
    let ihl := Z.land (byte_Z (at_ hdr 0)) 0x0f * 4 in
    if (ihl <? IPV4_HDR) || (len ip <? ihl) then Err Truncated
    else if negb (Z.land (be16 hdr 6) FRAGMENT_BITS =? 0) then Err Fragment
    else if negb (byte_Z (at_ hdr 9) =? IPPROTO_UDP) then Err WrongDst
    else
      let* segment := ok_or (get_range ihl (be16 hdr 2) ip) Truncated in
      let* (udp, _) := ok_or (split_first_chunk 8 segment) Truncated in
      let dst := octets hdr 16 in
      if negb (be16 udp 2 =? dst_port) ||
         match dst_ip with Some want => bool_decide (want <> dst) | None => false end
      then Err WrongDst
      else
        let udp_len := be16 udp 4 in
        if (udp_len <? UDP_HDR) || (len segment <? udp_len) then Err Truncated
        else
          let start := l3 + ihl + UDP_HDR in
          let stop := l3 + ihl + udp_len in
          Ok ((start mod W32, stop mod W32), {| ip := V4 (octets hdr 12); port := be16 udp 0 |}).

(** ** Counters *)

Record DecapStats := { not_ipv4 : Z; fragment : Z; wrong_dst : Z; truncated : Z }.

Definition DecapStats_default : DecapStats :=
  {| not_ipv4 := 0; fragment := 0; wrong_dst := 0; truncated := 0 |}.

(** [DecapStats::count]. *)
Definition count (s : DecapStats) (reason : DecapDrop) : DecapStats :=
  match reason with
  | NotIpv4 => {| not_ipv4 := u64_add (not_ipv4 s) 1; fragment := fragment s; wrong_dst := wrong_dst s; truncated := truncated s |}
  | Fragment => {| not_ipv4 := not_ipv4 s; fragment := u64_add (fragment s) 1; wrong_dst := wrong_dst s; truncated := truncated s |}
  | WrongDst => {| not_ipv4 := not_ipv4 s; fragment := fragment s; wrong_dst := u64_add (wrong_dst s) 1; truncated := truncated s |}
  | Truncated => {| not_ipv4 := not_ipv4 s; fragment := fragment s; wrong_dst := wrong_dst s; truncated := u64_add (truncated s) 1 |}
  end.

(** [DecapStats::total]. *)
Definition total (s : DecapStats) : Z :=
  u64_add (u64_add (u64_add (not_ipv4 s) (fragment s)) (wrong_dst s)) (truncated s).

(** ** [DecapFrame] and [UdpDecap] *)

Record DecapFrame (F : Type) := { frame : F; df_payload : Z * Z; peer : SocketAddr }.
Arguments frame {F}.
Arguments df_payload {F}.
Arguments peer {F}.

(** [<DecapFrame as AsRef>::as_ref]: the payload only. *)
#[export] Instance DecapFrame_as_ref {F} `{AsRef F} : AsRef (DecapFrame F) := fun d =>
  default [] (get_range (df_payload d).1 (df_payload d).2 (as_ref (frame d))).

Record UdpDecap (S F : Type) := Decap {
  inner : S;
  dst_port : Z;
  dst_ip : option (list byte);
  collected : FrameBatch.t F;
  pending : list F;
  stats : DecapStats;
}.
Arguments Decap {S F}.
Arguments inner {S F}.
Arguments dst_port {S F}.
Arguments dst_ip {S F}.
Arguments collected {S F}.
Arguments pending {S F}.
Arguments stats {S F}.

Section decap.
Context {S F : Type} `{L2Recv S F, AsRef F}.
Implicit Types (d : UdpDecap S F).

Definition new (inner : S) (dst_port : Z) (dst_ip : option (list byte)) (burst : Z) : UdpDecap S F :=
  Decap inner dst_port dst_ip (FrameBatch.with_capacity burst) [] DecapStats_default.

(** [deliver]: one round per pending frame, while [out] has room. *)
Fixpoint deliver_loop (port : Z) (dip : option (list byte)) (pend : list F) (st : DecapStats)
    (out : FrameBatch.t (DecapFrame F)) (pushed : Z)
    : Z * list F * DecapStats * FrameBatch.t (DecapFrame F) :=
  match pend with
  | [] => (pushed, [], st, out)
  | f :: rest =>
      if spare out >? 0 then
        match parse_udp (as_ref f) port dip with
        | Ok (payload, peer) =>
            deliver_loop port dip rest st
              (FrameBatch.push out {| frame := f; df_payload := payload; peer := peer |}) (pushed + 1)
        | Err reason => deliver_loop port dip rest (count st reason) out pushed
        | Panic => (pushed, pend, st, out)
        end
      else (pushed, pend, st, out)
  end.

Definition deliver d (out : FrameBatch.t (DecapFrame F)) : Z * UdpDecap S F * FrameBatch.t (DecapFrame F) :=
  let '(pushed, pend, st, out) := deliver_loop (dst_port d) (dst_ip d) (pending d) (stats d) out 0 in
  (pushed, Decap (inner d) (dst_port d) (dst_ip d) (collected d) pend st, out).

(** One round of [fill]. [fuel] is for the inner call only. *)
Definition fill_step (fuel : nat) (s : UdpDecap S F * FrameBatch.t (DecapFrame F))
    : step (UdpDecap S F * FrameBatch.t (DecapFrame F))
           (option (burst_result (UdpDecap S F) (DecapFrame F))) :=
  let '(d, out) := s in
  let '(pushed, d, out) := deliver d out in
  if (pushed >? 0) || (spare out =? 0) then Leave (Some (Ok pushed, d, out))
  else
    match l2_recv_burst fuel (inner d) (collected d) with
    | None => Leave None
    | Some (r, i, c) =>
        let d := Decap i (dst_port d) (dst_ip d) c (pending d) (stats d) in
        match r with
        | Err e => Leave (Some (Err e, d, out))
        | Panic => Leave (Some (Panic, d, out))
        | Ok n =>
            if n =? 0 then Leave (Some (Ok 0, d, out))
            else
              let '(fs, c) := FrameBatch.drain (collected d) in
              Again (Decap (inner d) (dst_port d) (dst_ip d) c (pending d ++ fs) (stats d), out)
        end
    end.

Definition fill (fuel : nat) d (out : FrameBatch.t (DecapFrame F))
    : option (burst_result (UdpDecap S F) (DecapFrame F)) :=
  default None (iterate (fill_step fuel) fuel (d, out)).

(** [<UdpDecap as DatagramRecv>]: telemetry aside, [recv_burst] is [fill]. *)
#[export] Instance UdpDecap_recv : DatagramRecv (UdpDecap S F) (DecapFrame F) := {|
  recv_burst := fill;
  pool_stats := fun d => l2_pool_stats (inner d);
|}.
End decap.

#[export] Instance UdpDecap_multicast {S F} `{Multicast S} : Multicast (UdpDecap S F) := fun d group iface =>
  let '(r, i) := join_multicast (inner d) group iface in
  (r, Decap i (dst_port d) (dst_ip d) (collected d) (pending d) (stats d)).

(** ** The frame format *)

(** Every field of an Ethernet, optional 802.1Q, IPv4, UDP frame; [words] is the
    header length in 32-bit words, [tail] what the IPv4 total length covers past
    the UDP length, [pad] what follows the IPv4 packet. *)
Record UdpFrame := {
  macs : list byte; vlan : option (byte * byte);
  words : Z; tos : byte; ident : byte * byte; flags : Z; ttl : byte; csum : byte * byte;
  src : byte * byte * byte * byte; dst : byte * byte * byte * byte; options : list byte;
  sport : Z; dport : Z; ucsum : byte * byte;
  payload : list byte; tail : list byte; pad : list byte;
}.

Definition quad (q : byte * byte * byte * byte) : list byte :=
  let '(a, b, c, d) := q in [a; b; c; d].

Definition encode_l2 (r : UdpFrame) : list byte :=
  macs r ++ match vlan r with
            | None => to_be_bytes 2 ETHERTYPE_IPV4
            | Some (a, b) => to_be_bytes 2 ETHERTYPE_VLAN ++ [a; b] ++ to_be_bytes 2 ETHERTYPE_IPV4
            end.

Definition udp_length (r : UdpFrame) : Z := UDP_HDR + len (payload r).
Definition total_length (r : UdpFrame) : Z := 4 * words r + udp_length r + len (tail r).

Definition encode_ipv4 (r : UdpFrame) : list byte :=
  [Z_byte (64 + words r); tos r] ++ to_be_bytes 2 (total_length r) ++ [(ident r).1; (ident r).2] ++
  to_be_bytes 2 (flags r) ++ [ttl r; Z_byte IPPROTO_UDP; (csum r).1; (csum r).2] ++
  quad (src r) ++ quad (dst r).

Definition encode_udp (r : UdpFrame) : list byte :=
  to_be_bytes 2 (sport r) ++ to_be_bytes 2 (dport r) ++ to_be_bytes 2 (udp_length r) ++
  [(ucsum r).1; (ucsum r).2].

Definition encode_frame (r : UdpFrame) : list byte :=
  encode_l2 r ++ encode_ipv4 r ++ options r ++ encode_udp r ++ payload r ++ tail r ++ pad r.

(** Lengths that fit their fields, and no fragment. *)
Definition wf_frame (r : UdpFrame) : Prop :=
  length (macs r) = 12%nat /\ 5 <= words r <= 15 /\ len (options r) = 4 * words r - 20 /\
  u16 (sport r) /\ u16 (dport r) /\ u16 (flags r) /\ Z.land (flags r) FRAGMENT_BITS = 0 /\
  total_length r <= U16_MAX.

Definition l2_len (r : UdpFrame) : Z := match vlan r with None => 14 | Some _ => 18 end.
Definition payload_start (r : UdpFrame) : Z := l2_len r + 4 * words r + UDP_HDR.

(** [r] passes the filter. *)
Definition accepted (r : UdpFrame) (port : Z) (dip : option (list byte)) : Prop :=
  dport r = port /\ match dip with None => True | Some want => want = quad (dst r) end.

(** ** Lemmas *)

Lemma version_nibble w :
  5 <= w <= 15 ->
  Z.shiftr (byte_Z (Z_byte (64 + w))) 4 = 4 /\ Z.land (byte_Z (Z_byte (64 + w))) 0x0f = w.
Proof.
  intros Hw. rewrite byte_Z_byte, Z.mod_small by lia.
  assert (w ∈ seqZ 5 11) as Hin by (apply elem_of_seqZ; lia).
  revert Hin. generalize w. apply Forall_forall. vm_compute. repeat constructor.
Qed.

Lemma version_byte b :
  Z.shiftr (byte_Z b) 4 = 4 -> b = Z_byte (64 + Z.land (byte_Z b) 0x0f) /\ 0 <= Z.land (byte_Z b) 0x0f <= 15.
Proof. destruct b; vm_compute; intros E; try discriminate; (split; [done|split; intros; discriminate]). Qed.

Lemma length_encode_ipv4 r : length (encode_ipv4 r) = 20%nat.
Proof.
  unfold encode_ipv4. rewrite !length_app, !length_to_be_bytes.
  destruct (src r) as [[[??]?]?], (dst r) as [[[??]?]?]. done.
Qed.

Lemma length_encode_udp r : length (encode_udp r) = 8%nat.
Proof. unfold encode_udp. by rewrite !length_app, !length_to_be_bytes. Qed.

Lemma len_encode_l2 r : length (macs r) = 12%nat -> len (encode_l2 r) = l2_len r.
Proof.
  intros Hm. unfold encode_l2, l2_len, len. rewrite length_app, Hm.
  destruct (vlan r) as [[a b]|]; by rewrite ?length_app, !length_to_be_bytes.
Qed.

(** The Ethernet part parses to where it ends. *)
Lemma parse_l2_encode r rest :
  length (macs r) = 12%nat -> parse_l2 (encode_l2 r ++ rest) = Ok (l2_len r, rest).
Proof.
  intros Hm. unfold parse_l2, encode_l2, l2_len.
  assert (Hat : forall a b, be16 (macs r ++ [a; b]) 12 = from_be_bytes [a; b]).
  { intros a b. unfold be16, at_. rewrite !lookup_total_app_r by lia. by rewrite Hm. }
  destruct (vlan r) as [[a b]|].
  - rewrite <- !app_assoc. rewrite (app_assoc (macs r)).
    rewrite split_first_chunk_app by (by rewrite length_app, length_to_be_bytes, Hm). cbn [ok_or].
    change (to_be_bytes 2 ETHERTYPE_VLAN) with [Z_byte 0x81; Z_byte 0]. rewrite Hat.
    change (from_be_bytes [Z_byte 0x81; Z_byte 0] =? ETHERTYPE_IPV4) with false.
    change (from_be_bytes [Z_byte 0x81; Z_byte 0] =? ETHERTYPE_VLAN) with true. cbv iota.
    rewrite (app_assoc [a; b]), split_first_chunk_app by done. cbn [ok_or].
    by change (negb (be16 ([a; b] ++ to_be_bytes 2 ETHERTYPE_IPV4) 2 =? ETHERTYPE_IPV4)) with false.
  - rewrite split_first_chunk_app by (by rewrite length_app, length_to_be_bytes, Hm). cbn [ok_or].
    change (to_be_bytes 2 ETHERTYPE_IPV4) with [Z_byte 8; Z_byte 0]. rewrite Hat.
    by change (from_be_bytes [Z_byte 8; Z_byte 0] =? ETHERTYPE_IPV4) with true.
Qed.

(** The fields the parser reads off an encoded IPv4 header. *)
Lemma ipv4_fields r :
  5 <= words r <= 15 -> 0 <= total_length r <= U16_MAX -> u16 (flags r) ->
  at_ (encode_ipv4 r) 0 = Z_byte (64 + words r) /\ be16 (encode_ipv4 r) 2 = total_length r /\
  be16 (encode_ipv4 r) 6 = flags r /\ byte_Z (at_ (encode_ipv4 r) 9) = IPPROTO_UDP /\
  octets (encode_ipv4 r) 12 = quad (src r) /\ octets (encode_ipv4 r) 16 = quad (dst r).
Proof.
  intros Hw Ht Hf. unfold be16, at_, octets, encode_ipv4.
  change (to_be_bytes 2 ?z) with [Z_byte (z / 256); Z_byte z].
  destruct (src r) as [[[s0 s1] s2] s3], (dst r) as [[[d0 d1] d2] d3]. cbn.
  rewrite !be16_to_be by (unfold u16 in *; lia). split_and!; try done.
Qed.

Lemma udp_fields r :
  u16 (sport r) -> u16 (dport r) -> 0 <= udp_length r <= U16_MAX ->
  be16 (encode_udp r) 0 = sport r /\ be16 (encode_udp r) 2 = dport r /\ be16 (encode_udp r) 4 = udp_length r.
Proof.
  intros Hs Hd Hu. unfold be16, at_, encode_udp.
  change (to_be_bytes 2 ?z) with [Z_byte (z / 256); Z_byte z]. cbn.
  rewrite !be16_to_be by (unfold u16 in *; lia). done.
Qed.

Lemma parse_udp_encode r port dip :
  wf_frame r -> accepted r port dip ->
  parse_udp (encode_frame r) port dip =
    Ok ((payload_start r, payload_start r + len (payload r)), {| ip := V4 (quad (src r)); port := sport r |}) /\
  get_range (payload_start r) (payload_start r + len (payload r)) (encode_frame r) = Some (payload r).
Proof.
  intros (Hm & Hw & Ho & Hs & Hd & Hf & Hfr & Ht) [Hp Hip].
  pose proof (len_nonneg (payload r)). pose proof (len_nonneg (tail r)). pose proof (len_nonneg (pad r)).
  assert (Hul : 0 <= udp_length r <= total_length r) by (unfold total_length, udp_length, UDP_HDR in *; lia).
  destruct (ipv4_fields r Hw ltac:(unfold total_length in *; lia) Hf) as (F0 & F2 & F6 & F9 & F12 & F16).
  destruct (udp_fields r Hs Hd ltac:(lia)) as (U0 & U2 & U4).
  destruct (version_nibble _ Hw) as [V1 V2].
  set (body := encode_udp r ++ payload r ++ tail r ++ pad r).
  assert (Hhl : len (encode_ipv4 r ++ options r) = 4 * words r)
    by (rewrite len_app; unfold len at 1; rewrite length_encode_ipv4, Ho; lia).
  assert (Hseg : get_range (Z.land (byte_Z (at_ (encode_ipv4 r) 0)) 15 * 4) (be16 (encode_ipv4 r) 2) (encode_ipv4 r ++ options r ++ body) =
                 Some (encode_udp r ++ payload r ++ tail r)).
  { rewrite F0, V2, F2. apply (get_range_split _ _ _ (encode_ipv4 r ++ options r) _ (pad r)).
    - unfold body. by rewrite <- !app_assoc.
    - lia.
    - rewrite Hhl, !len_app. unfold len at 1. rewrite length_encode_udp. unfold total_length, udp_length, UDP_HDR. lia. }
  assert (Hll : len (encode_ipv4 r ++ options r ++ body) >= 4 * words r)
    by (rewrite app_assoc, len_app, Hhl; pose proof (len_nonneg body); lia).
  split.
  - unfold parse_udp, encode_frame. rewrite parse_l2_encode by done. fold body.
    rewrite split_first_chunk_app by apply length_encode_ipv4. cbn [ok_or].
    rewrite Hseg, F0, V1, V2, F6, Hfr, F9. cbn [ok_or].
    change (negb (4 =? 4)) with false. change (negb (0 =? 0)) with false.
    change (negb (IPPROTO_UDP =? IPPROTO_UDP)) with false. cbv iota.
    rewrite (proj2 (Z.ltb_ge _ IPV4_HDR)), (proj2 (Z.ltb_ge _ (words r * 4))) by (unfold IPV4_HDR; lia). cbn [orb].
    rewrite split_first_chunk_app by apply length_encode_udp. cbn [ok_or].
    rewrite U2, U4, U0, F12, F16, Hp, Z.eqb_refl. cbn [negb orb].
    replace (match dip with Some want => bool_decide (want <> quad (dst r)) | None => false end) with false
      by (destruct dip; [rewrite bool_decide_false; [done|tauto]|done]).
    assert (Hsl : len (encode_udp r ++ payload r ++ tail r) >= udp_length r)
      by (rewrite !len_app; unfold len at 1; rewrite length_encode_udp; unfold udp_length, UDP_HDR; lia).
    rewrite (proj2 (Z.ltb_ge _ UDP_HDR)), (proj2 (Z.ltb_ge _ (udp_length r))) by (unfold udp_length in *; lia). cbn [orb].
    assert (Hl2 : 0 <= l2_len r <= 18) by (unfold l2_len; destruct (vlan r); lia).
    rewrite !Z.mod_small by (unfold udp_length, UDP_HDR in *; lia).
    unfold payload_start, udp_length. do 3 f_equal; lia.
  - assert (Hst : payload_start r = len (encode_l2 r ++ encode_ipv4 r ++ options r ++ encode_udp r)).
    { rewrite len_app, len_encode_l2, (app_assoc (encode_ipv4 r)), len_app, Hhl by done. unfold len. rewrite length_encode_udp.
      unfold payload_start, UDP_HDR. lia. }
    apply (get_range_split _ _ _ (encode_l2 r ++ encode_ipv4 r ++ options r ++ encode_udp r) _ (tail r ++ pad r));
      [unfold encode_frame; by rewrite <- !app_assoc|done|lia].
Qed.

(** *** Soundness: what the parser accepts has the format *)

Lemma be16_bytes a b z : from_be_bytes [a; b] = z -> [a; b] = to_be_bytes 2 z.
Proof. intros <-. by rewrite to_be16. Qed.

Lemma parse_l2_sound frame l3 ip :
  parse_l2 frame = Ok (l3, ip) ->
  exists ms vl, length ms = 12%nat /\
    frame = (ms ++ match vl with
                   | None => to_be_bytes 2 ETHERTYPE_IPV4
                   | Some (a, b) => to_be_bytes 2 ETHERTYPE_VLAN ++ [a; b] ++ to_be_bytes 2 ETHERTYPE_IPV4
                   end) ++ ip.
Proof.
  unfold parse_l2. intros E. destruct (split_first_chunk 14 frame) as [[eth rest]|] eqn:E1; [|done].
  apply split_first_chunk_Some in E1 as [-> He]. cbn [ok_or] in E.
  assert (Ht : length (drop 12 eth) = 2%nat) by (rewrite length_drop; lia).
  assert (Hms : length (take 12 eth) = 12%nat) by (rewrite length_take; lia).
  rewrite <- (take_drop 12 eth) in E |- *. set (ms := take 12 eth) in *. clearbody ms.
  destruct (drop 12 eth) as [|x [|y [|]]]; try discriminate.
  assert (Hat : be16 (ms ++ [x; y]) 12 = from_be_bytes [x; y])
    by (unfold be16, at_; rewrite !lookup_total_app_r by lia; by rewrite Hms).
  rewrite Hat in E. exists ms. destruct (from_be_bytes [x; y] =? ETHERTYPE_IPV4) eqn:E2; bool_facts.
  - simplify_eq. exists None. split; [done|]. by rewrite (be16_bytes _ _ _ E2).
  - destruct (from_be_bytes [x; y] =? ETHERTYPE_VLAN) eqn:E3; [|done]. bool_facts.
    destruct (split_first_chunk 4 rest) as [[tag ip']|] eqn:E4; [|done].
    apply split_first_chunk_Some in E4 as [-> Htag]. cbn [ok_or] in E.
    destruct tag as [|a [|b [|c [|d [|]]]]]; try discriminate.
    change (be16 [a; b; c; d] 2) with (from_be_bytes [c; d]) in E.
    destruct (from_be_bytes [c; d] =? ETHERTYPE_IPV4) eqn:E5; [|done]. bool_facts. cbn [negb] in E. simplify_eq.
    exists (Some (a, b)). split; [done|]. rewrite <- (be16_bytes _ _ _ E3), <- (be16_bytes _ _ _ E5).
    by rewrite <- !app_assoc.
Qed.

(** A header the parser accepts is one the encoder writes. *)
Lemma header_sound hdr w total :
  length hdr = 20%nat -> Z.shiftr (byte_Z (at_ hdr 0)) 4 = 4 -> w = Z.land (byte_Z (at_ hdr 0)) 15 ->
  total = be16 hdr 2 -> byte_Z (at_ hdr 9) = IPPROTO_UDP ->
  exists to id tt cs s d, hdr =
    [Z_byte (64 + w); to] ++ to_be_bytes 2 total ++ [fst id; snd id] ++ to_be_bytes 2 (be16 hdr 6) ++
    [tt; Z_byte IPPROTO_UDP; fst cs; snd cs] ++ quad s ++ quad d /\ quad s = octets hdr 12 /\ quad d = octets hdr 16.
Proof.
  intros Hl Hv -> -> Hp.
  destruct hdr as [|h0 [|h1 [|h2 [|h3 [|h4 [|h5 [|h6 [|h7 [|h8 [|h9 [|h10 [|h11 [|h12 [|h13 [|h14
    [|h15 [|h16 [|h17 [|h18 [|h19 [|]]]]]]]]]]]]]]]]]]]]]; try discriminate.
  exists h1, (h4, h5), h8, (h10, h11), (h12, h13, h14, h15), (h16, h17, h18, h19).
  unfold be16, at_, octets in *. cbn in *.
  destruct (version_byte _ Hv) as [E0 _]. cbn in E0. rewrite <- E0, !to_be16. split_and!; [|done|done].
  assert (h9 = Z_byte IPPROTO_UDP) as -> by (rewrite <- Hp; by rewrite Z_byte_Z). done.
Qed.

Lemma udp_header_sound udp :
  length udp = 8%nat -> exists cs, udp =
    to_be_bytes 2 (be16 udp 0) ++ to_be_bytes 2 (be16 udp 2) ++ to_be_bytes 2 (be16 udp 4) ++ [fst cs; snd cs].
Proof.
  intros Hl. destruct udp as [|u0 [|u1 [|u2 [|u3 [|u4 [|u5 [|u6 [|u7 [|]]]]]]]]]; try discriminate.
  exists (u6, u7). unfold be16, at_. cbn. by rewrite !to_be16.
Qed.

Lemma be16_range l i : u16 (be16 l i).
Proof. unfold be16, u16. apply (from_be_bytes_range _ 2). done. Qed.

(** The IPv4 packet around its segment. *)
Lemma carve (ip hdr rest seg : list byte) a t :
  ip = hdr ++ rest -> length hdr = 20%nat -> 20 <= a -> get_range a t ip = Some seg ->
  ip = hdr ++ take (Z.to_nat a - 20) rest ++ seg ++ drop (Z.to_nat t) ip /\
  len (take (Z.to_nat a - 20) rest) = a - 20 /\ len seg = t - a.
Proof.
  intros -> Hh Ha E. pose proof (get_range_length _ _ _ _ E) as Hl. apply get_range_Some in E as (H1 & H2 & ->).
  rewrite len_app in H2. unfold len in H2. rewrite Hh in H2. split_and!; [| |done].
  - rewrite !drop_app_ge by lia. rewrite Hh. f_equal.
    rewrite <- (take_drop (Z.to_nat a - 20) rest) at 1. f_equal.
    rewrite <- (take_drop (Z.to_nat (t - a)) (drop (Z.to_nat a - 20) rest)) at 1. f_equal.
    rewrite drop_drop. f_equal. lia.
  - unfold len. rewrite length_take. lia.
Qed.

Lemma parse_udp_sound fr port dip rng peer :
  parse_udp fr port dip = Ok (rng, peer) ->
  exists r, wf_frame r /\ accepted r port dip /\ fr = encode_frame r.
Proof.
  unfold parse_udp. intros E.
  destruct (parse_l2 fr) as [[l3 ip]| |] eqn:E1; [|done..].
  destruct (parse_l2_sound _ _ _ E1) as (ms & vl & Hms & ->).
  destruct (split_first_chunk 20 ip) as [[hdr rest]|] eqn:E2; [|done]. cbn [ok_or] in E.
  apply split_first_chunk_Some in E2 as [Hip Hhdr].
  destruct (negb (_ =? 4)) eqn:E3; [done|]. bool_facts. set (w := Z.land (byte_Z (at_ hdr 0)) 15) in *.
  destruct ((w * 4 <? IPV4_HDR) || (len ip <? w * 4)) eqn:E4; [done|]. bool_facts. unfold IPV4_HDR in *.
  destruct (negb (_ =? 0)) eqn:E5; [done|]. destruct (negb (_ =? IPPROTO_UDP)) eqn:E6; [done|]. bool_facts.
  destruct (get_range (w * 4) (be16 hdr 2) ip) as [seg|] eqn:E7; [|done]. cbn [ok_or] in E.
  destruct (split_first_chunk 8 seg) as [[udp srest]|] eqn:E8; [|done]. cbn [ok_or] in E.
  apply split_first_chunk_Some in E8 as [Hseg Hudp].
  destruct (_ || _) eqn:E9; [done|]. apply orb_false_iff in E9 as [Ep Ed]. bool_facts.
  destruct (_ || _) eqn:E10; [done|]. apply orb_false_iff in E10 as [El1 El2]. bool_facts. clear E.
  destruct (carve ip hdr rest seg (w * 4) (be16 hdr 2) Hip Hhdr ltac:(lia) E7) as (Hcut & Hopt & Hsl).
  destruct (header_sound hdr w (be16 hdr 2) Hhdr E3 eq_refl eq_refl E6) as (to & id & tt & cs & s & d & Eh & Es & Edd).
  destruct (udp_header_sound udp Hudp) as (ucs & Eu). destruct (version_byte _ E3) as [_ Hw]. fold w in Hw.
  pose proof (be16_range hdr 2) as Htot. unfold u16, UDP_HDR in *.
  pose (r := {| macs := ms; vlan := vl; words := w; tos := to; ident := id; flags := be16 hdr 6; ttl := tt; csum := cs;
            src := s; dst := d; options := take (Z.to_nat (w * 4) - 20) rest; sport := be16 udp 0; dport := be16 udp 2;
            ucsum := ucs; payload := take (Z.to_nat (be16 udp 4 - 8)) srest;
            tail := drop (Z.to_nat (be16 udp 4 - 8)) srest; pad := drop (Z.to_nat (be16 hdr 2)) ip |}).
  assert (Hsr : len seg = 8 + len srest) by (rewrite Hseg, len_app; unfold len at 1; rewrite Hudp; lia).
  assert (Hpl : udp_length r = be16 udp 4)
    by (unfold udp_length, UDP_HDR, r, len in *; cbn [payload]; rewrite length_take; lia).
  assert (Htl : total_length r = be16 hdr 2)
    by (unfold total_length; rewrite Hpl; unfold r, len in *; cbn [words tail]; rewrite length_drop; lia).
  exists r. split_and!.
  - unfold wf_frame. rewrite Htl. unfold r. cbn. split_and!; try done; try apply be16_range; lia.
  - split; [done|]. unfold r. cbn [dst]. destruct dip; [|done]. apply bool_decide_eq_false in Ed.
    rewrite Edd. by apply dec_stable in Ed.
  - unfold encode_frame, encode_ipv4, encode_udp, encode_l2. rewrite Htl, Hpl. unfold r.
    cbn [macs vlan words tos ident flags ttl csum src dst options sport dport ucsum payload tail pad].
    rewrite <- Eu, <- Eh. rewrite Hcut at 1. rewrite Hseg. rewrite <- !app_assoc. do 5 f_equal.
    by rewrite (app_assoc (take _ srest)), take_drop.
Qed.

(** ** [UdpDecap] *)

Section source.
Context {S F : Type} `{L2Recv S F, AsRef F}.
Implicit Types (d : UdpDecap S F) (out : FrameBatch.t (DecapFrame F)).

(** The datagram of an accepted frame, or the reason it is dropped. *)
Definition accept (port : Z) (dip : option (list byte)) (f : F) : option (DecapFrame F) :=
  match parse_udp (as_ref f) port dip with
  | Ok (payload, peer) => Some {| frame := f; df_payload := payload; peer := peer |}
  | _ => None
  end.

Definition reject (port : Z) (dip : option (list byte)) (f : F) : option DecapDrop :=
  match parse_udp (as_ref f) port dip with Err reason => Some reason | _ => None end.

Lemma parse_udp_no_panic fr port dip : parse_udp fr port dip <> Panic.
Proof.
  assert (H2 : parse_l2 fr <> Panic).
  { unfold parse_l2. intros E. destruct (split_first_chunk 14 fr) as [[? ?]|]; cbn [ok_or] in E; [|done].
    repeat case_match; simplify_eq. destruct (split_first_chunk 4 _) as [[? ?]|]; cbn [ok_or] in *; by simplify_eq. }
  unfold parse_udp. intros E. destruct (parse_l2 fr) as [[l3 i]| |]; [|done..].
  destruct (split_first_chunk 20 i) as [[hdr rest]|]; cbn [ok_or] in E; [|done].
  destruct (negb _); [done|]. destruct (_ || _); [done|]. destruct (negb _); [done|]. destruct (negb _); [done|].
  destruct (get_range _ _ _); cbn [ok_or] in E; [|done].
  destruct (split_first_chunk 8 _) as [[? ?]|]; cbn [ok_or] in E; [|done].
  destruct (_ || _); [done|]. by destruct (_ || _).
Qed.

Lemma deliver_loop_spec port dip pend st out pushed n pend' st' out' :
  deliver_loop port dip pend st out pushed = (n, pend', st', out') ->
  exists processed, pend = processed ++ pend' /\ cap out' = cap out /\
    frames out' = frames out ++ omap (accept port dip) processed /\
    n = pushed + len (omap (accept port dip) processed) /\
    st' = foldl count st (omap (reject port dip) processed) /\
    (0 < spare out' -> pend' = []) /\
    (0 <= spare out -> len (omap (accept port dip) processed) <= spare out).
Proof.
  revert st out pushed. induction pend as [|f rest IH]; intros st out pushed E; cbn [deliver_loop] in E.
  { simplify_eq. exists []. simpl. rewrite app_nil_r, len_nil. split_and!; try done; lia. }
  destruct (spare out >? 0) eqn:Es; bool_facts.
  2: { simplify_eq. exists []. simpl. rewrite app_nil_r, len_nil. split_and!; try done; lia. }
  destruct (parse_udp (as_ref f) port dip) as [[pl pe]|reason|] eqn:Ep; [| |by apply parse_udp_no_panic in Ep].
  - destruct (IH _ _ _ E) as (processed & -> & Hc & Hf & -> & Hst & Hsp & Hle). exists (f :: processed).
    assert (Ha : accept port dip f = Some {| frame := f; df_payload := pl; peer := pe |}) by (unfold accept; by rewrite Ep).
    assert (Hr : reject port dip f = None) by (unfold reject; by rewrite Ep).
    cbn [omap list_omap]. rewrite Ha, Hr. rewrite len_cons. split_and!; try done.
    + rewrite Hf. unfold FrameBatch.push. cbn [frames]. by rewrite <- app_assoc.
    + lia.
    + intros _. rewrite FrameBatch.spare_push in Hle by lia. specialize (Hle ltac:(lia)). lia.
  - destruct (IH _ _ _ E) as (processed & -> & Hc & Hf & -> & Hst & Hsp & Hle). exists (f :: processed).
    assert (Ha : accept port dip f = None) by (unfold accept; by rewrite Ep).
    assert (Hr : reject port dip f = Some reason) by (unfold reject; by rewrite Ep).
    cbn [omap list_omap]. rewrite Ha, Hr. split_and!; try done.
Qed.

(** The shape of one round. *)
Lemma deliver_spec d out n d' out' :
  deliver d out = (n, d', out') ->
  exists processed, pending d = processed ++ pending d' /\ cap out' = cap out /\
    frames out' = frames out ++ omap (accept (dst_port d) (dst_ip d)) processed /\
    n = len (omap (accept (dst_port d) (dst_ip d)) processed) /\
    stats d' = foldl count (stats d) (omap (reject (dst_port d) (dst_ip d)) processed) /\
    (0 < spare out' -> pending d' = []) /\ n <= spare out /\
    inner d' = inner d /\ dst_port d' = dst_port d /\ dst_ip d' = dst_ip d /\ collected d' = collected d.
Proof.
  unfold deliver. destruct (deliver_loop _ _ _ _ _ _) as [[[m p] s] o] eqn:E. intros; simplify_eq.
  destruct (deliver_loop_spec _ _ _ _ _ _ _ _ _ _ E) as (processed & ? & ? & ? & ? & ? & ? & Hle).
  exists processed. cbn [pending stats inner dst_port dst_ip collected].
  specialize (Hle (FrameBatch.spare_nonneg _)). split_and!; try done; lia.
Qed.

Section refine.
Variable view : S -> list F.
Hypothesis inner_queue : queue_source l2_recv_burst view.

(** What the source still has to deliver: the accepted frames of both queues. *)
Definition decap_view d : list (DecapFrame F) :=
  omap (accept (dst_port d) (dst_ip d)) (pending d ++ frames (collected d) ++ view (inner d)).

Lemma fill_step_view fuel d out :
  match fill_step fuel (d, out) with
  | Again (d', out') | Leave (Some (_, d', out')) =>
      exists new, frames out' = frames out ++ new /\ decap_view d = new ++ decap_view d'
  | Leave None => True
  end.
Proof.
  unfold fill_step. destruct (deliver d out) as [[n d1] out1] eqn:Ed.
  destruct (deliver_spec _ _ _ _ _ Ed) as (pr & Hp & Hc & Hf & Hn & Hst & Hsp & Hle & Hi & Hport & Hip & Hcol).
  assert (H1 : decap_view d = omap (accept (dst_port d) (dst_ip d)) pr ++ decap_view d1).
  { unfold decap_view. rewrite Hp, Hi, Hport, Hip, Hcol, <- app_assoc. by rewrite !omap_app. }
  destruct ((n >? 0) || (spare out1 =? 0)) eqn:Eg; [by eexists|].
  apply orb_false_iff in Eg as [_ Eg2]. bool_facts.
  assert (Hpn : pending d1 = []) by (apply Hsp; pose proof (FrameBatch.spare_nonneg out1); lia).
  destruct (l2_recv_burst fuel (inner d1) (collected d1)) as [[[r i] c]|] eqn:Er; [|done].
  destruct (inner_queue _ _ _ _ _ _ Er) as (new & Hnew & Hv).
  assert (H2 : forall p c', p ++ frames c' = frames c ->
            decap_view (Decap i (dst_port d1) (dst_ip d1) c' p (stats d1)) = decap_view d1).
  { intros p c' Hpc. unfold decap_view. cbn [pending collected inner dst_port dst_ip].
    rewrite Hpn, Hv, (app_assoc p), Hpc, Hnew. simpl. by rewrite <- app_assoc. }
  destruct r as [k|e|].
  - destruct (k =? 0).
    + exists (omap (accept (dst_port d) (dst_ip d)) pr). split; [done|]. rewrite H1. f_equal. symmetry. apply H2. by rewrite Hpn.
    + unfold FrameBatch.drain. cbn [collected inner dst_port dst_ip pending stats]. exists (omap (accept (dst_port d) (dst_ip d)) pr).
      split; [done|]. rewrite H1. f_equal. symmetry. apply H2. rewrite Hpn. cbn [frames]. by rewrite app_nil_r.
  - exists (omap (accept (dst_port d) (dst_ip d)) pr). split; [done|]. rewrite H1. f_equal. symmetry. apply H2. by rewrite Hpn.
  - exists (omap (accept (dst_port d) (dst_ip d)) pr). split; [done|]. rewrite H1. f_equal. symmetry. apply H2. by rewrite Hpn.
Qed.

(** Decapsulating a queue gives the queue of its accepted frames. *)
Lemma decap_queue : queue_source (recv_burst (T := UdpDecap S F)) decap_view.
Proof.
  intros fuel d out r d' out' E. simpl in E. unfold fill in E.
  destruct (iterate (fill_step fuel) fuel (d, out)) as [x|] eqn:Eit; [|done]. simpl in E. subst x.
  pose (Inv := fun s : UdpDecap S F * FrameBatch.t (DecapFrame F) =>
    exists new, frames s.2 = frames out ++ new /\ decap_view d = new ++ decap_view s.1).
  pose (Q := fun x : option (burst_result (UdpDecap S F) (DecapFrame F)) =>
    match x with Some (_, d', out') => Inv (d', out') | None => True end).
  change (Q (Some (r, d', out'))).
  assert (Hgo : forall s d1 out1, Inv s -> (exists new, frames out1 = frames s.2 ++ new /\ decap_view s.1 = new ++ decap_view d1) -> Inv (d1, out1)).
  { intros s d1 out1 (n1 & Hf1 & Hv1) (n2 & Hf2 & Hv2). exists (n1 ++ n2).
    cbn [fst snd]. rewrite Hf2, Hf1, Hv1, Hv2, !app_assoc. done. }
  eapply (iterate_inv (fill_step fuel) Inv Q); [| | |exact Eit].
  - intros [d0 o0] [d1 o1] Hi Es. pose proof (fill_step_view fuel d0 o0) as Hs. rewrite Es in Hs. by eapply Hgo.
  - intros [d0 o0] [[[x d1] o1]|] Hi Es; [|done]. pose proof (fill_step_view fuel d0 o0) as Hs. rewrite Es in Hs. by eapply (Hgo (d0, o0)).
  - exists []. by rewrite app_nil_r.
Qed.
End refine.
End source.

(** ** The receive contract *)

Section contract.
Context {S F : Type} `{L2RecvOk S F, !AsRef F}.
Implicit Types (d : UdpDecap S F) (out : FrameBatch.t (DecapFrame F)).

Definition decap_wf d : Prop :=
  bc_wf l2_contract (inner d) /\ frames (collected d) = [] /\ 0 < cap (collected d).

Definition decap_backlog d : nat := (length (pending d) + bc_backlog l2_contract (inner d))%nat.

(** One round from a batch with room: it leaves with a result the contract allows,
    or goes on with less left to read and the batch untouched. *)
Lemma fill_step_contract fuel d out :
  decap_wf d -> 0 < spare out ->
  match fill_step fuel (d, out) with
  | Again (d', out') =>
      out' = out /\ decap_wf d' /\ (decap_backlog d' <= decap_backlog d)%nat /\
      (bc_backlog l2_contract (inner d') < bc_backlog l2_contract (inner d))%nat
  | Leave None => (fuel <= decap_backlog d)%nat
  | Leave (Some (r, d', out')) =>
      decap_wf d' /\ cap out' = cap out /\ exists new, frames out' = frames out ++ new /\
        (decap_backlog d' + length new <= decap_backlog d)%nat /\
        match r with Ok n => n = len new /\ n <= spare out | Err _ => new = [] | Panic => False end
  end.
Proof.
  intros (Hw & Hcf & Hcc) Hsp. unfold fill_step. destruct (deliver d out) as [[n d1] out1] eqn:Ed.
  destruct (deliver_spec _ _ _ _ _ Ed) as (pr & Hp & Hc & Hf & Hn & Hst & Hsp1 & Hle & Hi & Hport & Hip & Hcol).
  pose proof (length_omap_le (accept (dst_port d) (dst_ip d)) pr) as Hlen.
  assert (Hpl : length (pending d) = (length pr + length (pending d1))%nat) by (rewrite Hp; apply length_app).
  unfold decap_backlog, decap_wf in *.
  destruct ((n >? 0) || (spare out1 =? 0)) eqn:Eg.
  { rewrite Hi, Hcol. split_and!; try done. eexists. split_and!; [exact Hf|lia|done|done]. }
  apply orb_false_iff in Eg as [Eg1 Eg2]. bool_facts.
  assert (Hnil : omap (accept (dst_port d) (dst_ip d)) pr = []).
  { destruct (omap _ pr); [done|]. rewrite len_cons in Hn. pose proof (len_nonneg l). lia. }
  assert (out1 = out) as ->.
  { rewrite Hnil, app_nil_r in Hf. destruct out1, out. simpl in *. by subst. }
  rewrite <- Hi in *. rewrite <- Hcol in *. pose proof (FrameBatch.spare_empty _ Hcf Hcc) as Hcs.
  destruct (l2_recv_burst fuel (inner d1) (collected d1)) as [[[r i] c]|] eqn:Er.
  2: { destruct (decide (fuel <= bc_backlog l2_contract (inner d1))%nat); [lia|].
       destruct (bc_total l2_contract fuel (inner d1) (collected d1) Hw Hcs ltac:(lia)). congruence. }
  destruct (bc_sound l2_contract _ _ _ _ _ _ Hw Hcs Er) as (Hw' & Hcap & new & Hnew & Hbl & Hr).
  rewrite Hcf in Hnew. simpl in Hnew. destruct r as [k|e|]; [| |done].
  - destruct Hr as [Hk _]. destruct (k =? 0) eqn:Ek; bool_facts.
    + assert (new = []) as -> by (destruct new as [|x fs]; [done|rewrite len_cons in Hk; pose proof (len_nonneg fs); lia]).
      cbn [inner collected pending]. split_and!; [done|done|lia|done|]. exists [].
      rewrite app_nil_r. split_and!; [done|simpl in *; lia|done|lia].
    + unfold FrameBatch.drain. cbn [inner collected pending stats dst_port dst_ip frames cap].
      assert (new <> []) by (intros ->; rewrite len_nil in Hk; lia).
      rewrite length_app, Hnew. destruct new; [done|]. simpl in *. split_and!; [done|done|done|lia|lia|lia].
  - subst new. cbn [inner collected pending]. split_and!; [done|done|lia|done|]. exists [].
    rewrite app_nil_r. split_and!; [done|simpl in *; lia|done].
Qed.

(** What the contract asks of a returned burst. *)
Definition burst_ok d out (x : burst_result (UdpDecap S F) (DecapFrame F)) : Prop :=
  let '(r, d', out') := x in
  decap_wf d' /\ cap out' = cap out /\ exists new, frames out' = frames out ++ new /\
    (decap_backlog d' + length new <= decap_backlog d)%nat /\
    match r with Ok n => n = len new /\ n <= spare out | Err _ => new = [] | Panic => False end.

Lemma fill_sound n fuel d out x :
  decap_wf d -> 0 < spare out -> iterate (fill_step fuel) n (d, out) = Some (Some x) -> burst_ok d out x.
Proof.
  revert d. induction n as [|n IH]; intros d Hw Hsp E; [done|]. cbn [iterate] in E.
  pose proof (fill_step_contract fuel d out Hw Hsp) as Hs.
  destruct (fill_step fuel (d, out)) as [[d1 out1]|[[[r d1] out1]|]]; [|by simplify_eq|done].
  destruct Hs as (-> & Hw1 & Hb1 & _). specialize (IH d1 Hw1 Hsp E).
  destruct x as [[r d'] out']. destruct IH as (Hw' & Hc' & new & Hf & Hb & Hr).
  split_and!; try done. exists new. split_and!; [done|lia|done].
Qed.

Lemma fill_total n fuel d out :
  decap_wf d -> 0 < spare out -> (decap_backlog d < fuel)%nat -> (bc_backlog l2_contract (inner d) < n)%nat ->
  exists x, iterate (fill_step fuel) n (d, out) = Some (Some x).
Proof.
  revert d. induction n as [|n IH]; intros d Hw Hsp Hfuel Hn; [lia|]. cbn [iterate].
  pose proof (fill_step_contract fuel d out Hw Hsp) as Hs.
  destruct (fill_step fuel (d, out)) as [[d1 out1]|[x|]]; [|by exists x|lia].
  destruct Hs as (-> & Hw1 & Hb1 & Hlt). apply IH; [done|done|lia|lia].
Qed.

#[export] Instance UdpDecap_ok : DatagramRecvOk (UdpDecap S F) (DecapFrame F).
Proof.
  refine {| bc_wf := decap_wf; bc_backlog := decap_backlog |}.
  - intros fuel d out r d' out' Hw Hsp E. simpl in E. unfold fill in E.
    destruct (iterate _ _ _) as [x|] eqn:Eit; [|done]. simpl in E. subst x.
    exact (fill_sound _ _ _ _ _ Hw Hsp Eit).
  - intros fuel d out Hw Hsp Hfuel. simpl. unfold fill.
    destruct (fill_total fuel fuel d out Hw Hsp Hfuel) as [x ->]; [unfold decap_backlog in Hfuel; lia|]. by eexists.
Defined.
End contract.

(** ** Properties *)

(** C20: [parse_udp] accepts exactly the unfragmented IPv4/UDP frames, plain or with
    one VLAN tag and with any IPv4 options, that are addressed to the wanted port
    and address; the range it returns is the UDP payload, without trailing IPv4
    bytes or Ethernet padding, and the peer is the sender. *)
Theorem parse_udp_exact fr port dip rng peer :
  parse_udp fr port dip = Ok (rng, peer) <->
  exists r, wf_frame r /\ accepted r port dip /\ fr = encode_frame r /\
    rng = (payload_start r, payload_start r + len (payload r)) /\
    peer = {| ip := V4 (quad (src r)); port := sport r |} /\
    get_range rng.1 rng.2 fr = Some (payload r).
Proof.
  split.
  - intros E. destruct (parse_udp_sound _ _ _ _ _ E) as (r & Hw & Ha & ->). exists r.
    destruct (parse_udp_encode r port dip Hw Ha) as [E' Hg]. rewrite E' in E. by simplify_eq.
  - intros (r & Hw & Ha & -> & -> & -> & _). by apply parse_udp_encode.
Qed.

Section properties.
Context {S F : Type} `{L2RecvOk S F, !AsRef F}.

(** C21: [UdpDecap] over a queue of frames is the queue of the accepted ones: every
    burst delivers the next accepted datagrams in arrival order, none lost for lack
    of room and none twice. *)
Theorem decap_filters (view : S -> list F) fuel (d d' : UdpDecap S F) out r out' :
  queue_source l2_recv_burst view -> recv_burst fuel d out = Some (r, d', out') ->
  exists new, frames out' = frames out ++ new /\ decap_view view d = new ++ decap_view view d'.
Proof. intros Hq E. exact (decap_queue view Hq _ _ _ _ _ _ E). Qed.

(** [UdpDecap::recv_burst] returns although it loops over bursts that all fail the
    filter, never overfills the batch, and reports an inner error only when it
    appended nothing. *)
Theorem decap_returns fuel (d : UdpDecap S F) out :
  decap_wf d -> 0 < spare out -> (decap_backlog d < fuel)%nat ->
  exists r d' out', recv_burst fuel d out = Some (r, d', out') /\ decap_wf d' /\
    exists new, frames out' = frames out ++ new /\ len new <= spare out /\
      match r with Ok n => n = len new | Err _ => new = [] | Panic => False end.
Proof.
  intros Hw Hsp Hfuel. destruct (bc_total UdpDecap_ok fuel d out Hw Hsp Hfuel) as [[[r d'] out'] E].
  destruct (bc_sound UdpDecap_ok _ _ _ _ _ _ Hw Hsp E) as (Hw' & _ & fs & Hf & _ & Hr).
  exists r, d', out'. split_and!; [done|done|]. exists fs. split; [done|].
  destruct r; [destruct Hr; split; [lia|done]| |done]. subst. rewrite len_nil. split; [lia|done].
Qed.
End properties.

(** A minimal frame carrying [p] to port 30001, and a source holding two of them
    around one that is filtered. *)
Definition demo_frame (dp : Z) (p : list byte) : list byte :=
  encode_frame {| macs := replicate 12 Byte.x00; vlan := None; words := 5; tos := Byte.x00; ident := (Byte.x00, Byte.x00);
    flags := 0x4000; ttl := Byte.x40; csum := (Byte.x00, Byte.x00); src := (Byte.x0a, Byte.x00, Byte.x00, Byte.x01);
    dst := (Byte.xef, Byte.x01, Byte.x01, Byte.x01); options := []; sport := 40000; dport := dp;
    ucsum := (Byte.x00, Byte.x00); payload := p; tail := []; pad := replicate 18 Byte.x00 |}.

Definition demo_decap : UdpDecap Scripted (list byte) :=
  new {| bursts := [[demo_frame 1 []]; [demo_frame 30001 [Byte.x41]; demo_frame 30001 [Byte.x42]]]; pool_size := 64 |}
      30001 None 8.

Lemma decap_filters_witness :
  exists r d' out', recv_burst 9 demo_decap (FrameBatch.with_capacity 1) = Some (r, d', out') /\ r = Ok 1 /\
  exists new, frames out' = [] ++ new /\
    decap_view (fun t => concat (bursts t)) demo_decap = new ++ decap_view (fun t => concat (bursts t)) d'.
Proof.
  eexists _, _, _. split; [vm_compute; reflexivity|]. split; [reflexivity|].
  eapply (decap_filters (fun t : Scripted => concat (bursts t)) 9 demo_decap _ (FrameBatch.with_capacity 1));
    [apply scripted_queue|vm_compute; reflexivity].
Defined.

Lemma decap_returns_witness :
  exists r d' out', recv_burst 9 demo_decap (FrameBatch.with_capacity 1) = Some (r, d', out') /\ decap_wf d' /\
    exists new, frames out' = [] ++ new /\ len new <= 1 /\
      match r with Ok n => n = len new | Err _ => new = [] | Panic => False end.
Proof.
  apply (decap_returns 9 demo_decap (FrameBatch.with_capacity 1)); [|by vm_compute|vm_compute; lia].
  split_and!; [done|done|by vm_compute].
Defined.
