(* ===== verification/AfxdpRing.v ===== *)
(** * transport-afxdp: the shared ring and its index protocol

    Models [crates/transports/afxdp/src/ring.rs]: [Ring], [Producer::produce] and
    [Consumer::consume] over the words and entries the process shares with the kernel.
    The protocol runs concurrently, so besides the two functions there is a step
    relation whose steps are the single loads, entry accesses and stores of both ends;
    the peer follows the same protocol. Each step is atomic: the Release stores and
    Acquire loads order entry accesses as the steps do. *)

From S2P Require Import Prelude.
From Stdlib Require Import ZArith Lia.
From stdpp Require Import prelude list relations.

Open Scope Z_scope.

Definition XDP_RING_NEED_WAKEUP : Z := 1.

(** The memory behind [RingPtrs]. *)
Record Shared (T : Type) := Mem { producer : Z; consumer : Z; flags : Z; desc : list T }.
Arguments Mem {T}.
Arguments producer {T} _.
Arguments consumer {T} _.
Arguments flags {T} _.
Arguments desc {T} _.

Section ring.
Context {T : Type}.
Implicit Types (m : Shared T).

(** [Ring::size]; the ring keeps [mask], one less. *)
Definition size (mask : Z) : Z := mask + 1.

(** [Ring::entry]: position of a free-running index in the array. *)
Definition entry (mask index : Z) : nat := Z.to_nat (Z.land index mask).

Definition set_producer (v : Z) m : Shared T := Mem v (consumer m) (flags m) (desc m).
Definition set_consumer (v : Z) m : Shared T := Mem (producer m) v (flags m) (desc m).
Definition write_entry (at_ : nat) (x : T) m : Shared T :=
  Mem (producer m) (consumer m) (flags m) (<[at_ := x]> (desc m)).

(** Room [produce] computes from one load of the peer's word. *)
Definition free_room (mask prod : Z) m : Z :=
  Z.min (u32_wrapping_sub (u32_wrapping_add (consumer m) (size mask)) prod) (size mask).

(** Entries [consume] may take after one load of the peer's word. *)
Definition takeable (mask cons max : Z) m : Z :=
  Z.min (Z.min (u32_wrapping_sub (producer m) cons) (size mask)) max.

(** The [for] loop of [produce]. *)
Fixpoint write_items (mask prod written : Z) (items : list T) m : Z * Shared T :=
  match items with
  | [] => (written, m)
  | x :: items =>
      write_items mask prod (written + 1) items
        (write_entry (entry mask (u32_wrapping_add prod written)) x m)
  end.

(** [Producer::produce]: count written, new memory, new [prod]. *)
Definition produce (mask prod : Z) (items : list T) m : Z * Shared T * Z :=
  let free := free_room mask prod m in
  let '(written, m) := write_items mask prod 0 (take (Z.to_nat free) items) m in
  if written >? 0 then
    let prod := u32_wrapping_add prod written in (written, set_producer prod m, prod)
  else (written, m, prod).

Definition needs_wakeup m : bool := negb (Z.land (flags m) XDP_RING_NEED_WAKEUP =? 0).

(** The [for] loop of [consume]: the entries handed to the closure, in order. *)
Fixpoint read_items (mask cons i : Z) (n : nat) m : list T :=
  match n with
  | O => []
  | S n =>
      match desc m !! entry mask (u32_wrapping_add cons i) with
      | Some x => x :: read_items mask cons (i + 1) n m
      | None => []
      end
  end.

(** [Consumer::consume]: entries passed, new memory, new [cons]. *)
Definition consume (mask cons max : Z) m : list T * Shared T * Z :=
  let taken := takeable mask cons max m in
  let out := read_items mask cons 0 (Z.to_nat taken) m in
  if taken >? 0 then
    let cons := u32_wrapping_add cons taken in (out, set_consumer cons m, cons)
  else (out, m, cons).

(** ** Both ends at once *)

(** Where a writer or reader is inside a call: not in one, or between its first load
    (of room for [free], or of [taken] entries) and its last store, [n] entries done. *)
Inductive phase := Quiet | InBatch (limit n : Z).

Record system := {
  mem : Shared T;
  wloc : Z;
  wphase : phase;
  rloc : Z;
  rphase : phase;
  written : list T;
  passed : list T;
}.

(** [written] and [passed] record every entry written and every entry read so far. *)
Inductive ring_step (mask : Z) : system -> system -> Prop :=
  | write_load m w r rp h o :
      ring_step mask
        {| mem := m; wloc := w; wphase := Quiet; rloc := r; rphase := rp; written := h; passed := o |}
        {| mem := m; wloc := w; wphase := InBatch (free_room mask w m) 0; rloc := r; rphase := rp;
           written := h; passed := o |}
  | write_one m w free n r rp h o x :
      n < free ->
      ring_step mask
        {| mem := m; wloc := w; wphase := InBatch free n; rloc := r; rphase := rp; written := h; passed := o |}
        {| mem := write_entry (entry mask (u32_wrapping_add w n)) x m; wloc := w; wphase := InBatch free (n + 1);
           rloc := r; rphase := rp; written := h ++ [x]; passed := o |}
  | write_publish m w free n r rp h o :
      ring_step mask
        {| mem := m; wloc := w; wphase := InBatch free n; rloc := r; rphase := rp; written := h; passed := o |}
        {| mem := if n >? 0 then set_producer (u32_wrapping_add w n) m else m;
           wloc := if n >? 0 then u32_wrapping_add w n else w; wphase := Quiet;
           rloc := r; rphase := rp; written := h; passed := o |}
  | read_load m w wp r h o max :
      0 <= max ->
      ring_step mask
        {| mem := m; wloc := w; wphase := wp; rloc := r; rphase := Quiet; written := h; passed := o |}
        {| mem := m; wloc := w; wphase := wp; rloc := r; rphase := InBatch (takeable mask r max m) 0;
           written := h; passed := o |}
  | read_one m w wp r taken n h o x :
      n < taken -> desc m !! entry mask (u32_wrapping_add r n) = Some x ->
      ring_step mask
        {| mem := m; wloc := w; wphase := wp; rloc := r; rphase := InBatch taken n; written := h; passed := o |}
        {| mem := m; wloc := w; wphase := wp; rloc := r; rphase := InBatch taken (n + 1);
           written := h; passed := o ++ [x] |}
  | read_release m w wp r taken h o :
      ring_step mask
        {| mem := m; wloc := w; wphase := wp; rloc := r; rphase := InBatch taken taken; written := h; passed := o |}
        {| mem := if taken >? 0 then set_consumer (u32_wrapping_add r taken) m else m;
           wloc := w; wphase := wp; rloc := if taken >? 0 then u32_wrapping_add r taken else r; rphase := Quiet;
           written := h; passed := o |}.

(** An empty ring whose words start at [base]. *)
Definition empty_ring (base : Z) (f : Z) (entries : list T) : system :=
  {| mem := Mem base base f entries; wloc := base; wphase := Quiet; rloc := base; rphase := Quiet;
     written := []; passed := [] |}.
End ring.

(** ** The invariant of the protocol *)

Section protocol.
Context {T : Type} (k b : Z) (Hk : 0 <= k <= 31).

Definition slots : Z := 2 ^ k.

(** Array position of the [i]-th entry ever written. *)
Definition pos (i : Z) : nat := Z.to_nat ((b + i) mod slots).

Lemma slots_pos : 0 < slots.
Proof using Hk. apply Z.pow_pos_nonneg; lia. Qed.

Lemma slots_bound : slots <= 2147483648.
Proof using Hk. unfold slots. change 2147483648 with (2 ^ 31). apply Z.pow_le_mono_r; lia. Qed.

Lemma slots_divides : W32 = 2 ^ (32 - k) * slots.
Proof using Hk. unfold slots. rewrite <- Z.pow_add_r by lia. by replace (32 - k + k) with 32 by lia. Qed.

Lemma entry_pos i : entry (slots - 1) ((b + i) mod W32) = pos i.
Proof using Hk.
  unfold entry, pos. pose proof slots_pos. f_equal.
  replace (slots - 1) with (Z.ones k) by (rewrite Z.ones_equiv; unfold slots; lia).
  rewrite Z.land_ones by lia. fold slots. apply Z.mod_mod_divide.
  exists (2 ^ (32 - k)). apply slots_divides.
Qed.

Lemma pos_lt i : (pos i < Z.to_nat slots)%nat.
Proof using Hk. unfold pos. pose proof slots_pos. pose proof (Z.mod_pos_bound (b + i) slots). lia. Qed.

Lemma pos_inj i j : i <= j < i + slots -> pos i = pos j -> i = j.
Proof using Hk.
  unfold pos. pose proof slots_pos. intros Hij He.
  pose proof (Z.mod_pos_bound (b + i) slots). pose proof (Z.mod_pos_bound (b + j) slots).
  apply Z2Nat.inj in He; [|lia|lia].
  pose proof (Z.div_mod (b + i) slots). pose proof (Z.div_mod (b + j) slots).
  assert ((b + j) / slots - (b + i) / slots = 0) by nia. lia.
Qed.

(** The word of free-running index [i]. *)
Definition word (i : Z) : Z := (b + i) mod W32.

Lemma word_add i n : u32_wrapping_add (word i) n = word (i + n).
Proof using. unfold word, u32_wrapping_add. rewrite Z.add_mod_idemp_l by done. f_equal; lia. Qed.

Lemma word_sub i j : 0 <= i - j < W32 -> u32_wrapping_sub (word i) (word j) = i - j.
Proof using.
  intros. unfold word, u32_wrapping_sub. rewrite <- Zminus_mod.
  rewrite Z.mod_small; lia.
Qed.

(** Entries of the current batch already written, already read. *)
Definition batch_done (p : phase) : Z := match p with Quiet => 0 | InBatch _ n => n end.

(** [P] entries published and [C] released, both counted from the start: the words
    are their low 32 bits, the writer is at most one lap ahead, and every entry
    written and not yet released sits at its position. *)
Record ring_inv (s : system) (P C : Z) : Prop := {
  inv_order : 0 <= C <= P /\ P <= C + slots;
  inv_desc : len (desc (mem s)) = slots;
  inv_producer : producer (mem s) = word P;
  inv_consumer : consumer (mem s) = word C;
  inv_wloc : wloc s = word P;
  inv_rloc : rloc s = word C;
  inv_writer : match wphase s with
               | Quiet => True
               | InBatch free n => 0 <= n <= free /\ P + free <= C + slots
               end;
  inv_reader : match rphase s with
               | Quiet => True
               | InBatch taken n => 0 <= n <= taken /\ taken <= P - C
               end;
  inv_written : len (written (T := T) s) = P + batch_done (wphase s);
  inv_passed : passed s = take (Z.to_nat (C + batch_done (rphase s))) (written s);
  inv_entries : forall i, C <= i < len (written s) -> desc (mem s) !! pos i = written s !! Z.to_nat i;
}.

Lemma word_0 : u32 b -> word 0 = b.
Proof using. unfold word, u32. intros. rewrite Z.add_0_r. by apply Z.mod_small. Qed.

Lemma empty_ring_inv f entries :
  u32 b -> len entries = slots -> ring_inv (empty_ring b f entries) 0 0.
Proof using Hk.
  intros Hb Hl. pose proof slots_pos. constructor; cbn; rewrite ?word_0 by done; try done; [lia|].
  intros i. unfold len. simpl. lia.
Qed.

Lemma free_room_inv s P C :
  ring_inv s P C -> free_room (slots - 1) (wloc s) (mem s) = C + slots - P.
Proof using Hk.
  intros I. pose proof (inv_order _ _ _ I). pose proof slots_bound. pose proof slots_pos.
  unfold free_room, size. rewrite (inv_consumer _ _ _ I), (inv_wloc _ _ _ I), word_add.
  rewrite word_sub by lia. lia.
Qed.

Lemma takeable_inv s P C max :
  ring_inv s P C -> takeable (slots - 1) (rloc s) max (mem s) = Z.min (P - C) max.
Proof using Hk.
  intros I. pose proof (inv_order _ _ _ I). pose proof slots_bound. pose proof slots_pos.
  unfold takeable, size. rewrite (inv_producer _ _ _ I), (inv_rloc _ _ _ I).
  rewrite word_sub by lia. lia.
Qed.

(** A write lands on no entry that is written and not yet released. *)
Lemma write_keeps_entries (d h : list T) P C n free x :
  0 <= C <= P -> len d = slots -> len h = P + n -> 0 <= n < free -> P + free <= C + slots ->
  (forall i, C <= i < len h -> d !! pos i = h !! Z.to_nat i) ->
  forall i, C <= i < len (h ++ [x]) -> <[pos (P + n) := x]> d !! pos i = (h ++ [x]) !! Z.to_nat i.
Proof using Hk.
  intros HC Hd Hh Hn Hfree He i Hi. autorewrite with polaris in Hi. unfold len in *.
  destruct (decide (i = P + n)) as [->|Hne].
  - rewrite list_lookup_insert_eq by (pose proof (pos_lt (P + n)); lia).
    rewrite lookup_app_r by lia. replace (Z.to_nat (P + n) - length h)%nat with 0%nat by lia. done.
  - rewrite list_lookup_insert_ne.
    + rewrite lookup_app_l by lia. apply He. lia.
    + intros E. apply Hne. symmetry in E. apply pos_inj in E; [done|]. lia.
Qed.

Lemma word_step (i n : Z) : 0 <= n -> (if n >? 0 then u32_wrapping_add (word i) n else word i) = word (i + n).
Proof using.
  intros. rewrite word_add. destruct (n >? 0) eqn:E; bool_facts; [done|]. f_equal; lia.
Qed.

(** Every step keeps the invariant, moving [P] or [C] only at a store. *)
Lemma ring_step_inv s s' P C :
  ring_inv s P C -> ring_step (slots - 1) s s' ->
  exists P' C', ring_inv s' P' C'.
Proof using Hk.
  intros I Hs. pose proof slots_pos. pose proof I as [HO HD HP HC HW HR HWr HRd Hwr Hpa He].
  destruct Hs as [m w r rp h o|m w free n r rp h o x Hn|m w free n r rp h o
                 |m w wp r h o mx Hmx|m w wp r taken n h o x Hn Hx|m w wp r taken h o];
    cbn in HO, HD, HP, HC, HW, HR, HWr, HRd, Hwr, Hpa, He.
  - exists P, C. apply free_room_inv in I. cbn in I. rewrite I. constructor; cbn; first [done | lia | idtac].
  - exists P, C. constructor; cbn; try done; [by rewrite len_insert|lia| | |].
    + rewrite len_app, Hwr, len_cons, len_nil. lia.
    + rewrite Hpa, take_app_le; [done|]. unfold len in *. destruct rp; cbn; lia.
    + rewrite HW, word_add. unfold word. rewrite entry_pos. eapply (write_keeps_entries _ _ P C n free); first [done | lia | by apply He].
  - exists (P + n), C. constructor; cbn; try done; try lia.
    + by destruct (n >? 0).
    + rewrite HW. destruct (n >? 0) eqn:En; cbn; rewrite ?word_add, ?HP; bool_facts; [done|]. f_equal; lia.
    + by destruct (n >? 0).
    + rewrite HW. apply word_step. lia.
    + destruct rp; [done|lia].
    + by destruct (n >? 0).
  - exists P, C. apply (takeable_inv _ _ _ mx) in I. cbn in I. rewrite I. constructor; cbn; first [done | lia].
  - exists P, C. constructor; cbn; try done; [lia|]. rewrite Hpa. rewrite HR, word_add in Hx.
    unfold word in Hx. rewrite entry_pos, He in Hx by (destruct wp; cbn in *; lia).
    replace (Z.to_nat (C + (n + 1))) with (S (Z.to_nat (C + n))) by lia. by rewrite <- take_S_r with (x := x).
  - exists P, (C + taken). constructor; cbn; try done; try lia.
    + by destruct (taken >? 0).
    + by destruct (taken >? 0).
    + rewrite HR. destruct (taken >? 0) eqn:En; cbn; rewrite ?word_add, ?HC; bool_facts; [done|]. f_equal; lia.
    + rewrite HR. apply word_step. lia.
    + destruct wp; [done|lia].
    + by rewrite Z.add_0_r.
    + intros i Hi. rewrite <- He by lia. by destruct (taken >? 0).
Qed.

Lemma ring_reachable f entries s :
  u32 b -> len entries = slots -> rtc (ring_step (slots - 1)) (empty_ring b f entries) s ->
  exists P C, ring_inv s P C.
Proof using Hk.
  intros Hb Hl Hr. pose proof (empty_ring_inv f entries Hb Hl) as I.
  generalize dependent (empty_ring b f entries). intros s0 Hr I.
  assert (I' : exists P C, ring_inv s0 P C) by eauto. clear I.
  induction Hr as [|s1 s2 s3 Hs Hr IH]; [done|]. apply IH.
  destruct I' as (P & C & I). by eapply ring_step_inv.
Qed.

End protocol.

(** ** Calls as runs of steps *)

Section calls.
Context {T : Type} (mask : Z).
Implicit Types (m : Shared T) (h o : list T).

Lemma write_items_runs free items m n w r rp h o :
  n + len items <= free ->
  exists m', write_items mask w n items m = (n + len items, m') /\
  rtc (ring_step mask)
    {| mem := m; wloc := w; wphase := InBatch free n; rloc := r; rphase := rp; written := h; passed := o |}
    {| mem := m'; wloc := w; wphase := InBatch free (n + len items); rloc := r; rphase := rp;
       written := h ++ items; passed := o |}.
Proof.
  revert m n h. induction items as [|x items IH]; intros m n h Hn; cbn [write_items].
  - exists m. rewrite len_nil, Z.add_0_r, app_nil_r. split; [done|apply rtc_refl].
  - rewrite len_cons in *. pose proof (len_nonneg items).
    destruct (IH (write_entry (entry mask (u32_wrapping_add w n)) x m) (n + 1) (h ++ [x]) ltac:(lia)) as (m' & E & Hr).
    exists m'. rewrite E. split; [f_equal; lia|]. eapply rtc_l; [by apply (write_one mask _ _ _ _ _ _ _ _ x); lia|].
    rewrite <- app_assoc in Hr. replace (n + (len items + 1)) with (n + 1 + len items) by lia. exact Hr.
Qed.

Lemma read_items_runs taken cnt m n w wp r h o :
  0 <= n -> n + Z.of_nat cnt <= taken ->
  (forall i, is_Some (desc m !! entry mask i)) ->
  length (read_items mask r n cnt m) = cnt /\
  rtc (ring_step mask)
    {| mem := m; wloc := w; wphase := wp; rloc := r; rphase := InBatch taken n; written := h; passed := o |}
    {| mem := m; wloc := w; wphase := wp; rloc := r; rphase := InBatch taken (n + Z.of_nat cnt);
       written := h; passed := o ++ read_items mask r n cnt m |}.
Proof.
  revert n o. induction cnt as [|cnt IH]; intros n o Hn Hc He; cbn [read_items].
  - rewrite Z.add_0_r, app_nil_r. split; [done|apply rtc_refl].
  - destruct (He (u32_wrapping_add r n)) as [x Hx]. rewrite Hx.
    destruct (IH (n + 1) (o ++ [x]) ltac:(lia) ltac:(lia) He) as [Hl Hr]. split; [by cbn; f_equal|].
    eapply rtc_l; [eapply read_one; [lia|done]|]. rewrite <- app_assoc in Hr.
    replace (n + Z.of_nat (S cnt)) with (n + 1 + Z.of_nat cnt) by lia. exact Hr.
Qed.
End calls.

(** ** A quiet ring as a queue

    With the peer between its calls the ring is a queue of at most [slots] entries:
    [produce] appends what fits, [consume] takes from the front. *)

Section queue.
Context {T : Type} (k : Z) (Hk : 0 <= k <= 31).
Implicit Types (m : Shared T) (items : list T).
#[local] Abbreviation mask := (slots k - 1).

Definition ring_queue m : list T :=
  read_items mask (consumer m) 0 (Z.to_nat (u32_wrapping_sub (producer m) (consumer m))) m.

Definition ring_wf m : Prop :=
  len (desc m) = slots k /\ u32 (producer m) /\ u32 (consumer m) /\
  u32_wrapping_sub (producer m) (consumer m) <= slots k.

Lemma entry_in m i : ring_wf m -> is_Some (desc m !! entry mask i).
Proof using Hk.
  intros (Hl & _). apply lookup_lt_is_Some. pose proof (slots_pos k Hk). unfold entry.
  replace mask with (Z.ones k) by (rewrite Z.ones_equiv; unfold slots; lia).
  rewrite Z.land_ones by lia. fold (slots k). pose proof (Z.mod_pos_bound i (slots k)). unfold len in Hl. lia.
Qed.

Lemma read_items_length m c n cnt : ring_wf m -> length (read_items mask c n cnt m) = cnt.
Proof using Hk.
  intros Hw. revert n. induction cnt as [|cnt IH]; intros n; cbn [read_items]; [done|].
  destruct (entry_in m (u32_wrapping_add c n) Hw) as [x ->]. cbn. by rewrite IH.
Qed.

Lemma read_items_lookup m c n cnt j :
  ring_wf m -> (j < cnt)%nat ->
  read_items mask c n cnt m !! j = desc m !! entry mask (u32_wrapping_add c (n + Z.of_nat j)).
Proof using Hk.
  intros Hw. revert n j. induction cnt as [|cnt IH]; intros n j Hj; [lia|]. cbn [read_items].
  destruct (entry_in m (u32_wrapping_add c n) Hw) as [x Hx]. rewrite Hx. destruct j as [|j].
  - by rewrite Z.add_0_r, Hx.
  - cbn. rewrite IH by lia. do 3 f_equal. lia.
Qed.

Lemma ring_queue_length m : ring_wf m -> len (ring_queue m) = u32_wrapping_sub (producer m) (consumer m).
Proof using Hk.
  intros Hw. unfold len, ring_queue. rewrite read_items_length by done.
  unfold u32_wrapping_sub. pose proof (Z.mod_pos_bound (producer m - consumer m) W32). lia.
Qed.

(** Two lists of one length that agree at every index below it are equal. *)
Lemma list_eq_at {A} (l l' : list A) :
  length l = length l' -> (forall j, (j < length l)%nat -> l !! j = l' !! j) -> l = l'.
Proof.
  intros Hl Hj. apply list_eq. intros i. destruct (decide (i < length l)%nat); [by apply Hj|].
  by rewrite !lookup_ge_None_2 by lia.
Qed.

Lemma read_items_split m c n a d :
  ring_wf m -> read_items mask c n (a + d) m = read_items mask c n a m ++ read_items mask c (n + Z.of_nat a) d m.
Proof using Hk.
  intros Hw. apply list_eq_at; rewrite ?length_app, !read_items_length by done; [done|]. intros j Hj.
  rewrite read_items_lookup by done. destruct (decide (j < a)%nat).
  - by rewrite lookup_app_l, read_items_lookup by (rewrite ?read_items_length; done).
  - rewrite lookup_app_r, read_items_length, read_items_lookup by (rewrite ?read_items_length; lia || done).
    do 3 f_equal. lia.
Qed.

Lemma read_items_shift m c s n cnt :
  read_items mask (u32_wrapping_add c s) n cnt m = read_items mask c (s + n) cnt m.
Proof using.
  revert n. induction cnt as [|cnt IH]; intros n; cbn [read_items]; [done|].
  replace (u32_wrapping_add (u32_wrapping_add c s) n) with (u32_wrapping_add c (s + n)).
  - rewrite IH. by replace (s + n + 1) with (s + (n + 1)) by lia.
  - unfold u32_wrapping_add. rewrite Z.add_mod_idemp_l by done. f_equal. lia.
Qed.

Lemma read_items_desc m m' c n cnt :
  desc m' = desc m -> read_items mask c n cnt m' = read_items mask c n cnt m.
Proof using.
  intros E. revert n. induction cnt as [|cnt IH]; intros n; cbn [read_items]; [done|]. by rewrite E, IH.
Qed.

Lemma ring_queue_split m n :
  ring_wf m -> (n <= length (ring_queue m))%nat ->
  take n (ring_queue m) = read_items mask (consumer m) 0 n m /\
  drop n (ring_queue m) = read_items mask (consumer m) (Z.of_nat n) (length (ring_queue m) - n) m.
Proof using Hk.
  intros Hw Hn. assert (E : ring_queue m = read_items mask (consumer m) 0 (n + (length (ring_queue m) - n)) m).
  { replace (n + (length (ring_queue m) - n))%nat with (length (ring_queue m)) by lia. unfold ring_queue.
    by rewrite read_items_length. }
  revert E. generalize (length (ring_queue m) - n)%nat. intros d ->. rewrite read_items_split, Z.add_0_l by done.
  by rewrite take_app_length', drop_app_length' by (by rewrite read_items_length).
Qed.

(** [consume] pops: what it passes is the front of the queue. *)
Lemma consume_pops m mx :
  ring_wf m -> 0 <= mx ->
  let n := Z.to_nat (Z.min (len (ring_queue m)) mx) in
  exists m', consume mask (consumer m) mx m = (take n (ring_queue m), m', consumer m') /\
  ring_wf m' /\ producer m' = producer m /\ desc m' = desc m /\ flags m' = flags m /\
  ring_queue m' = drop n (ring_queue m).
Proof using Hk.
  intros Hw Hmx n. pose proof Hw as (Hl & Hp & Hc & Hq). pose proof (ring_queue_length m Hw) as Hlen.
  unfold consume. assert (Et : takeable mask (consumer m) mx m = Z.of_nat n).
  { unfold takeable, size, n. rewrite Hlen. pose proof (Z.mod_pos_bound (producer m - consumer m) W32).
    unfold u32_wrapping_sub in *. lia. }
  rewrite Et, Nat2Z.id. assert (Hn : (n <= length (ring_queue m))%nat) by (unfold n, len in *; lia).
  destruct (ring_queue_split m n Hw Hn) as [-> ->].
  set (m' := set_consumer (u32_wrapping_add (consumer m) (Z.of_nat n)) m).
  assert (Hm' : (if Z.of_nat n >? 0 then (read_items mask (consumer m) 0 n m, m', consumer m')
    else (read_items mask (consumer m) 0 n m, m, consumer m)) = (read_items mask (consumer m) 0 n m, m', consumer m')).
  { destruct (Z.of_nat n >? 0) eqn:En; [done|]. bool_facts. unfold m'. replace (Z.of_nat n) with 0 by lia.
    unfold set_consumer, u32_wrapping_add. rewrite Z.add_0_r, Z.mod_small by (unfold u32 in Hc; lia). by destruct m. }
  exists m'. split; [exact Hm'|]. clear Hm'.
  assert (Hsub : u32_wrapping_sub (producer m') (consumer m') = len (ring_queue m) - Z.of_nat n).
  { rewrite Hlen. unfold m', u32_wrapping_sub, u32_wrapping_add, set_consumer. cbn.
    rewrite Zminus_mod_idemp_r. replace (producer m - (consumer m + Z.of_nat n)) with (producer m - consumer m - Z.of_nat n) by lia.
    rewrite <- Zminus_mod_idemp_l, Z.mod_small; [done|]. unfold u32_wrapping_sub, len in Hlen.
    pose proof (Z.mod_pos_bound (producer m - consumer m) W32). lia. }
  split_and!; try done.
  - split_and!; [done|done|apply Z.mod_pos_bound; done|]. rewrite Hsub. lia.
  - unfold ring_queue at 1. rewrite Hsub. unfold m' at 1. cbn [consumer set_consumer].
    rewrite read_items_shift, Z.add_0_r, (read_items_desc m m') by done. f_equal. unfold len. lia.
Qed.

Lemma entry_inj w i j :
  i <= j < i + slots k -> entry mask (u32_wrapping_add w i) = entry mask (u32_wrapping_add w j) -> i = j.
Proof using Hk.
  unfold u32_wrapping_add. intros Hij. rewrite !(entry_pos k w Hk). by apply (pos_inj k w Hk).
Qed.

Lemma write_items_frame w n items m :
  let '(n', m') := write_items mask w n items m in
  n' = n + len items /\ producer m' = producer m /\ consumer m' = consumer m /\ flags m' = flags m /\
  len (desc m') = len (desc m).
Proof using.
  revert n m. induction items as [|x items IH]; intros n m; cbn [write_items].
  - rewrite len_nil. split_and!; [lia|done..].
  - specialize (IH (n + 1) (write_entry (entry mask (u32_wrapping_add w n)) x m)).
    destruct (write_items _ _ _ _ _) as [n' m']. destruct IH as (-> & Hp & Hc & Hf & Hd).
    rewrite len_cons, Hp, Hc, Hf, Hd. unfold write_entry. cbn. rewrite len_insert. split_and!; [lia|done..].
Qed.

(** What a batch of writes leaves at each index within a lap. *)
Lemma write_items_lookup w n items m j :
  len (desc m) = slots k -> n + len items - slots k <= j < n + slots k ->
  desc (write_items mask w n items m).2 !! entry mask (u32_wrapping_add w j) =
  if decide (n <= j < n + len items) then items !! Z.to_nat (j - n) else desc m !! entry mask (u32_wrapping_add w j).
Proof using Hk.
  revert n m. induction items as [|x items IH]; intros n m Hl Hj; cbn [write_items]; autorewrite with polaris in *.
  { by rewrite decide_False by lia. }
  pose proof (len_nonneg items).
  rewrite IH by (unfold write_entry; cbn [desc]; autorewrite with polaris; lia). unfold write_entry. cbn [desc].
  destruct (decide (j = n)) as [->|Hne].
  - rewrite decide_False, decide_True by lia. rewrite Z.sub_diag. cbn. apply list_lookup_insert_eq.
    pose proof (pos_lt k w Hk n). unfold u32_wrapping_add. rewrite (entry_pos k w Hk). unfold len in Hl. lia.
  - destruct (decide (n + 1 <= j < _)).
    + rewrite decide_True by lia. by replace (Z.to_nat (j - n)) with (S (Z.to_nat (j - (n + 1)))) by lia.
    + rewrite decide_False by lia. apply list_lookup_insert_ne. intros E.
      destruct (decide (n <= j)); [apply entry_inj in E; lia|symmetry in E; apply entry_inj in E; lia].
Qed.

Lemma from_consumer m i :
  ring_wf m -> u32_wrapping_add (consumer m) i = u32_wrapping_add (producer m) (i - len (ring_queue m)).
Proof using Hk.
  intros Hw. rewrite ring_queue_length by done. unfold u32_wrapping_add, u32_wrapping_sub.
  rewrite (Z.mod_eq (producer m - consumer m) W32) by done.
  replace (producer m + (i - (producer m - consumer m - W32 * ((producer m - consumer m) / W32))))
    with (consumer m + i + (producer m - consumer m) / W32 * W32) by lia.
  by rewrite Z_mod_plus_full.
Qed.

Lemma free_room_queue m :
  ring_wf m -> free_room mask (producer m) m = slots k - len (ring_queue m).
Proof using Hk.
  intros Hw. pose proof Hw as (_ & _ & _ & Hq). rewrite <- ring_queue_length in Hq by done.
  pose proof (slots_bound k Hk). pose proof (len_nonneg (ring_queue m)).
  unfold free_room, size. rewrite (from_consumer m _ Hw).
  replace (mask + 1 - len (ring_queue m)) with (slots k - len (ring_queue m)) by lia.
  unfold u32_wrapping_add, u32_wrapping_sub. rewrite Zminus_mod_idemp_l.
  replace (producer m + (slots k - len (ring_queue m)) - producer m) with (slots k - len (ring_queue m)) by lia.
  rewrite Z.mod_small; lia.
Qed.

Lemma publish_distance m n :
  ring_wf m -> 0 <= n <= slots k - len (ring_queue m) ->
  u32_wrapping_sub (u32_wrapping_add (producer m) n) (consumer m) = len (ring_queue m) + n.
Proof using Hk.
  intros Hw Hn. pose proof (slots_bound k Hk). pose proof (len_nonneg (ring_queue m)).
  pose proof (ring_queue_length m Hw) as Hl. unfold u32_wrapping_sub, u32_wrapping_add in *.
  rewrite Zminus_mod_idemp_l. replace (producer m + n - consumer m) with (producer m - consumer m + n) by lia.
  rewrite <- Zplus_mod_idemp_l, <- Hl, Z.mod_small; lia.
Qed.

Lemma publish_zero m m1 n :
  ring_wf m -> producer m1 = producer m -> 0 <= n ->
  (if n >? 0 then (n, set_producer (u32_wrapping_add (producer m) n) m1, u32_wrapping_add (producer m) n)
   else (n, m1, producer m)) =
  (n, set_producer (u32_wrapping_add (producer m) n) m1, u32_wrapping_add (producer m) n).
Proof using.
  intros (_ & Hp & _) E Hn. destruct (n >? 0) eqn:En; [done|]. bool_facts. replace n with 0 by lia.
  unfold set_producer, u32_wrapping_add. rewrite Z.add_0_r, Z.mod_small, <- E by (unfold u32 in Hp; lia).
  by destruct m1.
Qed.

(** [produce] appends: what it takes goes to the back of the queue. *)
Lemma produce_appends m items :
  ring_wf m ->
  exists n m', Z.of_nat n = Z.min (len items) (slots k - len (ring_queue m)) /\
  produce mask (producer m) items m = (Z.of_nat n, m', producer m') /\
  ring_wf m' /\ consumer m' = consumer m /\ flags m' = flags m /\
  ring_queue m' = ring_queue m ++ take n items.
Proof using Hk.
  intros Hw. pose proof Hw as (Hl & Hp & Hc & Hq). rewrite <- ring_queue_length in Hq by done.
  pose proof (len_nonneg items). pose proof (len_nonneg (ring_queue m)) as Hq0.
  assert (Hn0 : Z.of_nat (Z.to_nat (Z.min (len items) (slots k - len (ring_queue m)))) =
    Z.min (len items) (slots k - len (ring_queue m))) by lia. revert Hn0.
  generalize (Z.to_nat (Z.min (len items) (slots k - len (ring_queue m)))). intros n Hn0.
  unfold produce. rewrite free_room_queue by done.
  assert (Et : take (Z.to_nat (slots k - len (ring_queue m))) items = take n items).
  { destruct (decide (len items <= slots k - len (ring_queue m))); [rewrite !take_ge|f_equal]; unfold len in *; done || lia. }
  rewrite Et. assert (Hn : len (take n items) = Z.of_nat n) by (unfold len in *; rewrite length_take; lia).
  pose proof (write_items_frame (producer m) 0 (take n items) m) as HF.
  pose proof (fun j => write_items_lookup (producer m) 0 (take n items) m j Hl) as HL.
  destruct (write_items mask (producer m) 0 (take n items) m) as [w m1]. destruct HF as (-> & HFp & HFc & HFf & HFd).
  cbn [snd] in HL. rewrite Hn, !Z.add_0_l in *. exists n, (set_producer (u32_wrapping_add (producer m) (Z.of_nat n)) m1). split; [done|]. split; [apply publish_zero; done || lia|].
  pose proof (publish_distance m (Z.of_nat n) Hw ltac:(lia)) as Hsub. unfold set_producer.
  assert (Hw' : ring_wf (Mem (u32_wrapping_add (producer m) (Z.of_nat n)) (consumer m1) (flags m1) (desc m1))).
  { split_and!; cbn; [lia|by apply Z.mod_pos_bound|by rewrite HFc|]. rewrite HFc, Hsub. lia. }
  split_and!; try done. unfold ring_queue at 1. cbn [producer consumer]. rewrite HFc, Hsub in *.
  apply list_eq_at; [rewrite read_items_length, length_app, length_take by done; unfold len in *; lia|].
  intros j. rewrite read_items_length by done. intros Hj. rewrite read_items_lookup, Z.add_0_l by done.
  rewrite (from_consumer m _ Hw). cbn [desc]. rewrite HL by lia.
  destruct (decide (0 <= _ < _)) as [Hd|Hd].
  - rewrite lookup_app_r by (unfold len in *; lia). f_equal. unfold len. lia.
  - rewrite lookup_app_l by (unfold len in *; lia). pose proof (ring_queue_length m Hw). unfold ring_queue.
    by rewrite read_items_lookup, Z.add_0_l, (from_consumer m _ Hw) by (done || lia).
Qed.
End queue.

(** ** Properties *)

(** C12: However the two ends interleave their loads, entry accesses and stores, from an
    empty ring whose words start anywhere: what the reader was passed is a prefix of what
    was written, at most a ring of entries is outstanding, no write in progress touches
    the entry a read in progress takes, and indices may wrap at [u32] at any time. *)
Theorem ring_fifo {T} k b f (entries : list T) s :
  0 <= k <= 31 -> u32 b -> len entries = 2 ^ k ->
  rtc (ring_step (2 ^ k - 1)) (empty_ring b f entries) s ->
  passed s `prefix_of` written s /\ len (written s) <= len (passed s) + 2 ^ k /\
  (forall free n taken j, wphase s = InBatch free n -> n < free -> rphase s = InBatch taken j -> j < taken ->
    entry (2 ^ k - 1) (u32_wrapping_add (wloc s) n) <> entry (2 ^ k - 1) (u32_wrapping_add (rloc s) j)).
Proof.
  intros Hk Hb Hl Hr. destruct (ring_reachable k b Hk f entries s Hb Hl Hr) as (P & C & I).
  destruct I as [HO HD HP HC HW HR HWr HRd Hwr Hpa He]. fold (slots k). split_and!.
  - rewrite Hpa. exists (drop (Z.to_nat (C + batch_done (rphase s))) (written s)). by rewrite take_drop.
  - assert (Hle : C <= len (passed s)).
    { rewrite Hpa. unfold len in *. rewrite length_take. destruct (rphase s), (wphase s); cbn in *; lia. }
    destruct (wphase s); cbn in *; lia.
  - intros free n taken j EW Hn ER Hj. rewrite EW, ER in *. rewrite HW, HR, !word_add. unfold word.
    rewrite !entry_pos by done. intros E. symmetry in E. apply (pos_inj k b Hk) in E; cbn in *; lia.
Qed.

Lemma ring_fifo_witness :
  exists s, rtc (ring_step 1) (empty_ring 4294967295 0 [0; 0]) s /\ passed s = [7; 8] /\
  passed s `prefix_of` written s /\ len (written s) <= len (passed s) + 2 ^ 1 /\
  (forall free n taken j, wphase s = InBatch free n -> n < free -> rphase s = InBatch taken j -> j < taken ->
    entry (2 ^ 1 - 1) (u32_wrapping_add (wloc s) n) <> entry (2 ^ 1 - 1) (u32_wrapping_add (rloc s) j)).
Proof.
  assert (R : exists s, rtc (ring_step 1) (empty_ring 4294967295 0 [0; 0]) s /\ passed s = [7; 8]).
  { eexists. split.
    - eapply rtc_l; [apply write_load|]. eapply rtc_l; [apply (write_one _ _ _ _ _ _ _ _ _ 7); reflexivity|].
      eapply rtc_l; [apply (write_one _ _ _ _ _ _ _ _ _ 8); reflexivity|].
      eapply rtc_l; [apply write_publish|]. eapply rtc_l; [apply (read_load _ _ _ _ _ _ _ 5); lia|].
      eapply rtc_l; [eapply read_one; reflexivity|]. eapply rtc_l; [eapply read_one; reflexivity|].
      apply rtc_refl.
    - reflexivity. }
  destruct R as (s & R & E). exists s. split; [exact R|]. split; [exact E|].
  apply (ring_fifo 1 4294967295 0 [0; 0]); [lia|unfold u32; lia|reflexivity|exact R].
Defined.

(** The functions are the protocol: a call of [produce] or [consume] is a run of one
    load, the entry accesses, and one store, whatever phase the peer is in. *)
Theorem ring_calls_are_steps {T} k (m : Shared T) w r h o :
  0 <= k <= 31 -> len (desc m) = 2 ^ k ->
  (forall items rp,
    let '(n, m', w') := produce (2 ^ k - 1) w items m in
    rtc (ring_step (2 ^ k - 1))
      {| mem := m; wloc := w; wphase := Quiet; rloc := r; rphase := rp; written := h; passed := o |}
      {| mem := m'; wloc := w'; wphase := Quiet; rloc := r; rphase := rp;
         written := h ++ take (Z.to_nat n) items; passed := o |}) /\
  (forall mx wp, 0 <= mx ->
    let '(out, m', r') := consume (2 ^ k - 1) r mx m in
    rtc (ring_step (2 ^ k - 1))
      {| mem := m; wloc := w; wphase := wp; rloc := r; rphase := Quiet; written := h; passed := o |}
      {| mem := m'; wloc := w; wphase := wp; rloc := r'; rphase := Quiet; written := h; passed := o ++ out |}).
Proof.
  intros Hk Hl. pose proof (slots_pos k Hk). fold (slots k) in *. split.
  - intros items rp. unfold produce. set (free := free_room (slots k - 1) w m).
    assert (Hf : 0 <= free) by (unfold free, free_room, size, u32_wrapping_sub;
      pose proof (Z.mod_pos_bound (u32_wrapping_add (consumer m) (slots k - 1 + 1) - w) W32); lia).
    destruct (write_items_runs (slots k - 1) free (take (Z.to_nat free) items) m 0 w r rp h o) as (m' & E & R).
    { unfold len. rewrite length_take. lia. }
    rewrite E, Z.add_0_l in *. set (n := len (take (Z.to_nat free) items)) in *.
    pose proof (write_publish (slots k - 1) m' w free n r rp (h ++ take (Z.to_nat free) items) o) as Hp.
    assert (Et : take (Z.to_nat n) items = take (Z.to_nat free) items).
    { unfold n, len. rewrite Nat2Z.id, length_take. destruct (decide (Z.to_nat free <= length items)%nat);
      [by rewrite Nat.min_l|by rewrite Nat.min_r, !take_ge by lia]. }
    pose proof (write_load (slots k - 1) m w r rp h o).
    destruct (n >? 0) eqn:En; rewrite Et; (eapply rtc_l; [done|]; eapply rtc_r; [exact R|exact Hp]).
  - intros mx wp Hmx. unfold consume. set (taken := takeable (slots k - 1) r mx m).
    assert (Ht : 0 <= taken) by (unfold taken, takeable, size, u32_wrapping_sub;
      pose proof (Z.mod_pos_bound (producer m - r) W32); lia).
    destruct (read_items_runs (slots k - 1) taken (Z.to_nat taken) m 0 w wp r h o) as [Hlen R]; [lia|lia| |].
    { intros i. apply lookup_lt_is_Some. pose proof (pos_lt k i Hk 0) as Hp. revert Hp. unfold pos. intros Hp.
      unfold entry. replace (slots k - 1) with (Z.ones k) by (rewrite Z.ones_equiv; unfold slots; lia).
      rewrite Z.land_ones by lia. fold (slots k). rewrite Z.add_0_r in Hp. unfold len in Hl. lia. }
    rewrite Z.add_0_l, Z2Nat.id in R by done. pose proof (read_load (slots k - 1) m w wp r h o mx Hmx).
    pose proof (read_release (slots k - 1) m w wp r taken h (o ++ read_items (slots k - 1) r 0 (Z.to_nat taken) m)) as Hp.
    destruct (taken >? 0) eqn:En; (eapply rtc_l; [done|]; eapply rtc_r; [exact R|exact Hp]).
Qed.

Lemma ring_calls_are_steps_witness :
  produce (2 ^ 1 - 1) 5 [7; 8; 9] (Mem 5 4 0 [0; 0]) = (1, Mem 6 4 0 [0; 7], 6) /\
  let '(n, m', w') := produce (2 ^ 1 - 1) 5 [7; 8; 9] (Mem 5 4 0 [0; 0]) in
  rtc (ring_step (2 ^ 1 - 1))
    {| mem := Mem 5 4 0 [0; 0]; wloc := 5; wphase := Quiet; rloc := 4; rphase := Quiet; written := [0]; passed := [] |}
    {| mem := m'; wloc := w'; wphase := Quiet; rloc := 4; rphase := Quiet;
       written := [0] ++ take (Z.to_nat n) [7; 8; 9]; passed := [] |}.
Proof.
  split; [vm_compute; reflexivity|].
  exact (proj1 (ring_calls_are_steps 1 (Mem 5 4 0 [0; 0]) 5 4 [0] [] ltac:(lia) eq_refl) [7; 8; 9] Quiet).
Defined.
