(* ===== verification/Afxdp.v ===== *)
(** * transport-afxdp: configuration, receive rings and the XSK driver

    Models [crates/transports/afxdp/src/{config,driver,lib}.rs]. The process side ([Rings],
    [XskDriver]) is written over the two rings of [AfxdpRing]; the kernel is a class whose
    law says what AF_XDP promises about chunks: it takes addresses off the fill ring and hands
    each chunk back in at most one receive descriptor. A kernel turn may come before every look
    of the process at shared memory. Opening is the order of the system calls and the
    checks of what they answer. *)

From S2P Require Import Prelude TransportCore Pools Bypass AfxdpRing.
From Stdlib Require Import ZArith Lia Permutation.
From stdpp Require Import prelude list strings.

Open Scope Z_scope.
Open Scope res_scope.

Import FrameBatch (frames, cap, spare).
Import IndexPool (IndexFrame, slot, offset, flen).

(** ** Configuration *)

Definition XDP_PACKET_HEADROOM : Z := 256.
Definition MIN_FRAME_SIZE : Z := 2048.
Definition IFNAMSIZ : Z := 16.

Inductive XdpMode := Skb | Drv.
Inductive XdpRedirect := Builtin (mode : XdpMode) | Pinned (path : list byte).

Record AfxdpConfig := {
  ifname : list byte;
  cfg_queue : Z;
  cfg_frames : Z;
  cfg_frame_size : Z;
  headroom : Z;
  zero_copy : bool;
  redirect : XdpRedirect;
}.

Definition AfxdpConfig_new (ifname : list byte) (queue : Z) : AfxdpConfig :=
  {| ifname := ifname; cfg_queue := queue; cfg_frames := 4096; cfg_frame_size := 2048; headroom := 0;
     zero_copy := false; redirect := Builtin Skb |}.

(** [is_power_of_two] of a positive integer. *)
Definition is_power_of_two (n : Z) : bool := (0 <? n) && (2 ^ Z.log2 n =? n).

Definition contains_nul (s : list byte) : bool := bool_decide (Byte.x00 ∈ s).

Definition invalid (field reason : string) : res TransportError unit := Err (InvalidConfig field reason).

(** [AfxdpConfig::validate]. *)
Definition validate_afxdp (c : AfxdpConfig) : res TransportError unit :=
  if len (ifname c) =? 0 then invalid "ifname" "empty"
  else if IFNAMSIZ <=? len (ifname c) then invalid "ifname" "longer than 15 bytes"
  else if contains_nul (ifname c) then invalid "ifname" "contains NUL byte"
  else if negb (is_power_of_two (cfg_frames c)) then invalid "frames" "not a power of two"
  else
    let size := cfg_frame_size c in
    if negb (is_power_of_two size) || (size <? MIN_FRAME_SIZE)
    then invalid "frame_size" "not a power of two of at least 2048"
    else if size - XDP_PACKET_HEADROOM <=? headroom c then invalid "headroom" "leaves no packet room in frame"
    else
      match redirect c with
      | Builtin _ => if cfg_queue c =? U32_MAX then invalid "queue" "u32::MAX leaves no XSKMAP size" else Ok tt
      | Pinned path =>
          if len path =? 0 then invalid "redirect.path" "empty"
          else if contains_nul path then invalid "redirect.path" "contains NUL byte"
          else Ok tt
      end.

(** ** Descriptors *)

Record xdp_desc := Desc { addr : Z; dlen : Z }.

Inductive Located :=
  | LFrame (slot offset len : Z)
  | LTruncated (slot : Z)
  | LForeign.

#[export] Instance Located_eq_dec : EqDecision Located.
Proof. solve_decision. Defined.

(** [locate]. *)
Definition locate (addr len frame_size frames : Z) : Located :=
  match try_u32 (addr / frame_size), try_u32 (addr mod frame_size) with
  | Some slot, Some offset =>
      if frames <=? slot then LForeign
      else
        match checked_add U32_MAX offset len with
        | Some end_ => if end_ <=? frame_size then LFrame slot offset len else LTruncated slot
        | None => LTruncated slot
        end
  | _, _ => LForeign
  end.

(** ** The kernel *)

(** What the process meets of the kernel: a turn on the shared memory, the answer of a
    wakeup [recvfrom], and the counters of [XDP_STATISTICS] when they can be read. *)
Class XskKernel (K : Type) := {
  turn : K -> Shared Z -> Shared xdp_desc -> K * Shared Z * Shared xdp_desc;
  wakeup : K -> option io_Error * K;
  statistics : K -> option (Z * Z);
}.

Definition EBUSY : Z := 16.
Definition ENOBUFS : Z := 105.

(** ** [Rings] *)

Module Rings.

(** [fill_prod] and [rx_cons] are the private indices of the two ring ends; both rings
    have [frames] entries. *)
Record t := {
  fill_prod : Z;
  rx_cons : Z;
  free : list Z;
  freed : list Z;
  frames : Z;
  frame_size : Z;
  truncated : Z;
}.

Definition mask (r : t) : Z := frames r - 1.

(** [Producer::new] and [Consumer::new] resume at their own words. *)
Definition new (fill : Shared Z) (rx : Shared xdp_desc) (frames frame_size : Z) : t :=
  {| fill_prod := producer fill; rx_cons := consumer rx; free := seqZ 0 frames; freed := [];
     frames := frames; frame_size := frame_size; truncated := 0 |}.

(** [refill]: [drain_freed] swaps, [append] empties, then [free.pop()] feeds [produce]. *)
Definition refill (r : t) (pool : IndexPool.t) (fill : Shared Z) : t * IndexPool.t * Shared Z :=
  let '(freed', pool) := IndexPool.drain_freed pool (freed r) in
  let free := free r ++ freed' in
  let items := (fun slot => (slot * frame_size r) mod W64) <$> reverse free in
  let '(n, fill, prod) := produce (mask r) (fill_prod r) items fill in
  ({| fill_prod := prod; rx_cons := rx_cons r; free := take (length free - Z.to_nat n) free; freed := [];
      frames := frames r; frame_size := frame_size r; truncated := truncated r |}, pool, fill).

Definition set_free (free : list Z) (truncated : Z) (r : t) : t :=
  {| fill_prod := fill_prod r; rx_cons := rx_cons r; free := free; freed := freed r;
     frames := frames r; frame_size := frame_size r; truncated := truncated |}.

Definition set_cons (cons : Z) (r : t) : t :=
  {| fill_prod := fill_prod r; rx_cons := cons; free := free r; freed := freed r;
     frames := frames r; frame_size := frame_size r; truncated := truncated r |}.

(** The closure [poll_frames] gives to [consume]. *)
Definition on_desc (d : xdp_desc) (st : t * IndexPool.t * FrameBatch.t IndexFrame * Z)
    : t * IndexPool.t * FrameBatch.t IndexFrame * Z :=
  let '(r, pool, out, pushed) := st in
  match locate (addr d) (dlen d) (frame_size r) (frames r) with
  | LFrame slot offset n =>
      let '(f, pool) := IndexPool.frame pool slot offset n in (r, pool, FrameBatch.push out f, pushed + 1)
  | LTruncated slot => (set_free (free r ++ [slot]) (u64_add (truncated r) 1) r, pool, out, pushed)
  | LForeign => (set_free (free r) (u64_add (truncated r) 1) r, pool, out, pushed)
  end.

Section ops.
Context {K : Type} `{XskKernel K}.

(** What the loop threads: the kernel and both memories, and what [on_desc] changes. *)
Record polling := {
  k : K;
  fill : Shared Z;
  rx : Shared xdp_desc;
  rings : t;
  pool : IndexPool.t;
  out : FrameBatch.t IndexFrame;
  pushed : Z;
}.

(** One round of the [loop] of [poll_frames]. *)
Definition poll_round (s : polling) : step polling polling :=
  let '(k, fill, rx) := turn (k s) (fill s) (rx s) in
  let room := match try_u32 (spare (out s)) with Some n => n | None => U32_MAX end in
  let '(ds, rx, next) := consume (mask (rings s)) (rx_cons (rings s)) room rx in
  let '(r, p, o, n) := foldl (fun st d => on_desc d st) (set_cons next (rings s), pool s, out s, pushed s) ds in
  let s := {| k := k; fill := fill; rx := rx; rings := r; pool := p; out := o; pushed := n |} in
  if (len ds =? 0) || (n >? 0) || (spare o =? 0) then Leave s else Again s.

Definition poll_frames (fuel : nat) (s : polling) : option polling := iterate poll_round fuel s.
End ops.
End Rings.

(** ** [XskDriver] *)

Record KernelDrops := { rx_dropped : Z; rx_ring_full : Z }.

(** The kernel and the two rings' memory travel with the driver. *)
Record XskDriver (K : Type) := Xsk {
  rings : Rings.t;
  fill_mem : Shared Z;
  rx_mem : Shared xdp_desc;
  kernel : K;
  xpool : IndexPool.t;
  xsyscalls : Z;
  kernel_cell : KernelDrops;
}.
Arguments Xsk {K}.
Arguments rings {K}.
Arguments fill_mem {K}.
Arguments rx_mem {K}.
Arguments kernel {K}.
Arguments xpool {K}.
Arguments xsyscalls {K}.
Arguments kernel_cell {K}.

Section driver.
Context {K : Type} `{XskKernel K}.
Implicit Types (d : XskDriver K) (out : FrameBatch.t IndexFrame).

(** [XskDriver::wake]: would-block, interrupted, [EBUSY] and [ENOBUFS] are no error. *)
Definition wake d : res TransportError unit * XskDriver K :=
  let '(answer, k) := wakeup (kernel d) in
  let d := Xsk (rings d) (fill_mem d) (rx_mem d) k (xpool d) (u64_add (xsyscalls d) 1) (kernel_cell d) in
  match answer with
  | None => (Ok tt, d)
  | Some error =>
      if match kind error with WouldBlock | Interrupted => true | _ => false end
         || match raw_os_error error with Some e => (e =? EBUSY) || (e =? ENOBUFS) | None => false end
      then (Ok tt, d)
      else (Err (Io "recvfrom(AF_XDP wakeup)" error), d)
  end.

(** [<XskDriver as Driver>::poll_frames]. *)
Definition xsk_poll (fuel : nat) d out : option (poll_result (XskDriver K) IndexFrame) :=
  let '(k, fill, rx) := turn (kernel d) (fill_mem d) (rx_mem d) in
  let '(r, p, fill) := Rings.refill (rings d) (xpool d) fill in
  match Rings.poll_frames fuel
          {| Rings.k := k; Rings.fill := fill; Rings.rx := rx; Rings.rings := r; Rings.pool := p;
             Rings.out := out; Rings.pushed := 0 |} with
  | None => None
  | Some s =>
      let d := Xsk (Rings.rings s) (Rings.fill s) (Rings.rx s) (Rings.k s) (Rings.pool s) (xsyscalls d) (kernel_cell d) in
      if Rings.pushed s >? 0 then Some (Ok (Frames (Rings.pushed s)), d, Rings.out s)
      else if needs_wakeup (fill_mem d) then
        let '(woken, d) := wake d in
        Some (let* _ := woken in Ok Idle, d, Rings.out s)
      else Some (Ok Idle, d, Rings.out s)
  end.

(** [kernel_drops]: a good reading replaces the cell; the last one stands when it fails. *)
Definition kernel_drops d : KernelDrops * XskDriver K :=
  match statistics (kernel d) with
  | Some (dropped, full) =>
      let now := {| rx_dropped := dropped; rx_ring_full := full |} in
      (now, Xsk (rings d) (fill_mem d) (rx_mem d) (kernel d) (xpool d) (xsyscalls d) now)
  | None => (kernel_cell d, d)
  end.

Definition xsk_stats d : DriverStats * XskDriver K :=
  let '(kernel, d) := kernel_drops d in
  ({| no_buffer := rx_dropped kernel; nic_missed := rx_ring_full kernel;
      ds_truncated := Rings.truncated (rings d); syscalls := xsyscalls d |}, d).

(** Dropping a live frame. *)
Definition drop_live d (f : IndexFrame) : XskDriver K :=
  Xsk (rings d) (fill_mem d) (rx_mem d) (kernel d) (IndexPool.drop_frame (xpool d) f) (xsyscalls d) (kernel_cell d).
End driver.

#[export] Instance Xsk_driver {K} `{XskKernel K} : Driver (XskDriver K) IndexFrame := {|
  BACKEND := "afxdp";
  poll_frames := xsk_poll;
  driver_stats := xsk_stats;
  driver_pool_stats := fun d => IndexPool.stats (xpool d);
|}.

(** ** What the kernel promises *)

(** Chunk an address lies in. *)
Definition chunk (size a : Z) : Z := a / size.

(** A turn moves addresses off the fill ring and publishes descriptors, each in a chunk
    the kernel held or has just taken; it leaves the process's words alone. [k_pending]
    bounds the descriptors still to come. Rings have [2 ^ e] entries. *)
Record kernel_contract (K : Type) `{XskKernel K} (e size : Z) := {
  k_held : K -> list Z;
  k_pending : K -> nat;
  k_turn : forall k fill rx k' fill' rx',
    ring_wf e fill -> ring_wf e rx -> turn k fill rx = (k', fill', rx') ->
    ring_wf e fill' /\ ring_wf e rx' /\ producer fill' = producer fill /\ consumer rx' = consumer rx /\
    exists taken new,
      ring_queue e fill = taken ++ ring_queue e fill' /\ ring_queue e rx' = ring_queue e rx ++ new /\
      k_held k' ++ (chunk size ∘ addr <$> new) ≡ₚ k_held k ++ (chunk size <$> taken) /\
      Forall (fun d => 0 <= dlen d) new /\ (k_pending k' + length new <= k_pending k)%nat;
  k_wakeup : forall k,
    k_held (wakeup k).2 = k_held k /\ k_pending (wakeup k).2 = k_pending k;
}.
Arguments k_held {K _ e size} _ _.
Arguments k_pending {K _ e size} _ _.
Arguments k_turn {K _ e size} _ _ _ _ _ _ _ _ _ _.
Arguments k_wakeup {K _ e size} _ _.

(** ** Where every chunk is *)

Section ownership.
Context {K : Type} `{XskKernel K} (e size : Z) (He : 0 <= e <= 31) (Hsize : 0 < size < W32).
Context (C : kernel_contract K e size).
Implicit Types (r : Rings.t) (p : IndexPool.t) (live : list IndexFrame) (ds : list xdp_desc).

(** [ds] are descriptors taken off the receive ring and not yet handled. *)
Definition places k (fill : Shared Z) (rx : Shared xdp_desc) r p live ds : list Z :=
  (chunk size <$> ring_queue e fill) ++ k_held C k ++ (chunk size ∘ addr <$> ring_queue e rx) ++
  (chunk size ∘ addr <$> ds) ++ (slot <$> live) ++ IndexPool.freed p ++ Rings.free r.

Record xsk_inv k fill rx r p live ds : Prop := {
  i_frames : Rings.frames r = 2 ^ e;
  i_size : Rings.frame_size r = size;
  i_pool : IndexPool.wf p /\ IndexPool.count p = 2 ^ e /\ IndexPool.stride p = size;
  i_fill : ring_wf e fill /\ Rings.fill_prod r = producer fill;
  i_rx : ring_wf e rx /\ Rings.rx_cons r = consumer rx;
  i_freed : Rings.freed r = [];
  i_strong : IndexPool.strong p = 1 + len live;
  i_live : Forall (IndexPool.frame_in_bounds p) live;
  i_dlen : Forall (fun d => 0 <= dlen d) (ring_queue e rx) /\ Forall (fun d => 0 <= dlen d) ds;
  i_truncated : u64 (Rings.truncated r);
  i_places : places k fill rx r p live ds ≡ₚ seqZ 0 (2 ^ e);
}.

Lemma chunk_bounds k fill rx r p live ds x :
  xsk_inv k fill rx r p live ds -> x ∈ places k fill rx r p live ds -> 0 <= x < 2 ^ e.
Proof using. intros I Hx. rewrite (i_places _ _ _ _ _ _ _ I) in Hx. apply elem_of_seqZ in Hx. lia. Qed.

Lemma turn_inv k fill rx r p live k' fill' rx' :
  xsk_inv k fill rx r p live [] -> turn k fill rx = (k', fill', rx') ->
  xsk_inv k' fill' rx' r p live [] /\
  exists new, ring_queue e rx' = ring_queue e rx ++ new /\ (k_pending C k' + length new <= k_pending C k)%nat.
Proof using He.
  intros I E. destruct I as [I1 I2 I3 [I4 I4'] [I5 I5'] I6 I7 I8 I9 I10 I11].
  destruct (k_turn C _ _ _ _ _ _ I4 I5 E) as (Hf & Hr & Hp & Hc & taken & new & Ht & Hn & Hperm & Hlen & Hpend).
  split; [|by exists new]. constructor; try done.
  - by rewrite Hp.
  - by rewrite Hc.
  - rewrite Hn. split; [|done]. apply Forall_app. split; [apply I9|done].
  - rewrite <- I11. unfold places. rewrite Ht, Hn, !fmap_app.
    rewrite (Permutation_app_comm (chunk size <$> taken)), <- !app_assoc. apply Permutation_app_head.
    rewrite !app_assoc. do 4 apply Permutation_app_tail. rewrite <- !app_assoc.
    rewrite (Permutation_app_comm (chunk size ∘ addr <$> ring_queue e rx) (chunk size ∘ addr <$> new)), !app_assoc.
    rewrite Hperm. apply Permutation_app_tail, Permutation_app_comm.
Qed.

(** Every chunk address fits its word. *)
Lemma chunk_address s : 0 <= s < 2 ^ e -> chunk size ((s * size) mod W64) = s.
Proof using He Hsize.
  intros Hs. assert (2 ^ e <= 2 ^ 31) by (apply Z.pow_le_mono_r; lia). change (2 ^ 31) with 2147483648 in *.
  rewrite Z.mod_small by nia. unfold chunk. apply Z.div_mul. lia.
Qed.

(** The ring has room for every free chunk. *)
Lemma refill_inv k fill rx r p live :
  xsk_inv k fill rx r p live [] ->
  let '(r', p', fill') := Rings.refill r p fill in
  xsk_inv k fill' rx r' p' live [] /\ Rings.free r' = [] /\ IndexPool.freed p' = [] /\
  Rings.truncated r' = Rings.truncated r /\ IndexPool.region p' = IndexPool.region p.
Proof using He Hsize.
  intros I. pose proof (fun x => chunk_bounds _ _ _ _ _ _ _ x I) as Hb. destruct I as [I1 I2 I3 [I4 I4'] I5 I6 I7 I8 I9 I10 I11].
  unfold Rings.refill, Rings.mask, IndexPool.drain_freed. rewrite I1, I2, I4', I6. fold (slots e).
  set (fr := Rings.free r ++ IndexPool.freed p). set (items := (fun s => (s * size) mod W64) <$> reverse fr).
  assert (Hlenp := Permutation_length I11). rewrite length_seqZ in Hlenp. unfold places in Hlenp.
  rewrite !length_app, !length_fmap in Hlenp. cbn [length] in Hlenp.
  destruct (produce_appends e He fill items I4) as (n & fill' & Hn & -> & Hw & Hc & Hf & Hq).
  assert (Hni : n = length fr).
  { assert (Hl : len items = len fr) by (unfold items, len; by rewrite length_fmap, length_reverse).
    rewrite Hl in Hn. pose proof (slots_pos e He) as Hsp. unfold slots, len in *.
    assert (length fr = length (Rings.free r) + length (IndexPool.freed p))%nat by (unfold fr; by rewrite length_app). lia. }
  rewrite Nat2Z.id, Hni, Nat.sub_diag, take_0. split_and!; try done.
  constructor; try done. rewrite <- I11. unfold places. cbn. rewrite Hq, take_ge by (unfold items; rewrite length_fmap, length_reverse; lia).
  assert (Hch : chunk size <$> items = reverse fr).
  { unfold items. rewrite <- list_fmap_compose. etrans; [|apply list_fmap_id]. apply list_fmap_ext. intros i s Hs. simpl.
    apply chunk_address, Hb. unfold places. apply list_elem_of_lookup_2 in Hs. rewrite elem_of_reverse in Hs. unfold fr in Hs.
    rewrite !elem_of_app in *. tauto. }
  rewrite fmap_app, Hch, reverse_Permutation, !app_nil_r. unfold fr. solve_Permutation.
Qed.

(** *** Handling descriptors *)

Definition is_frame (d : xdp_desc) : option IndexFrame :=
  match locate (addr d) (dlen d) size (2 ^ e) with
  | LFrame slot offset n => Some (IndexPool.Frame slot offset n)
  | _ => None
  end.

(** In a chunk the process owns, a descriptor is a frame or runs past its chunk. *)
Lemma locate_owned (d : xdp_desc) :
  0 <= chunk size (addr d) < 2 ^ e -> 0 <= dlen d ->
  locate (addr d) (dlen d) size (2 ^ e) =
  let s := chunk size (addr d) in let off := addr d mod size in
  if off + dlen d <=? size then LFrame s off (dlen d) else LTruncated s.
Proof using He Hsize.
  intros Hc Hl. assert (2 ^ e <= 2 ^ 31) by (apply Z.pow_le_mono_r; lia). change (2 ^ 31) with 2147483648 in *.
  pose proof (Z.mod_pos_bound (addr d) size ltac:(lia)). unfold locate, try_u32, checked_add, chunk in *.
  rewrite !(proj2 (Z.leb_le _ U32_MAX)) by lia. rewrite (proj2 (Z.leb_gt _ _)) by lia.
  destruct (addr d mod size + dlen d <=? U32_MAX) eqn:E1; [done|]. bool_facts.
  by rewrite (proj2 (Z.leb_gt _ size)) by lia.
Qed.

Lemma on_desc_inv k fill rx r p live d ds out n :
  xsk_inv k fill rx r p live (d :: ds) ->
  exists r' p' out' n', Rings.on_desc d (r, p, out, n) = (r', p', out', n') /\
  xsk_inv k fill rx r' p' (live ++ option_list (is_frame d)) ds /\
  frames out' = frames out ++ option_list (is_frame d) /\ cap out' = cap out /\
  n' = n + len (option_list (is_frame d)) /\ IndexPool.region p' = IndexPool.region p /\
  Rings.truncated r' = u64_add (Rings.truncated r) (1 - len (option_list (is_frame d))).
Proof using He Hsize.
  intros I. pose proof (chunk_bounds _ _ _ _ _ _ _ (chunk size (addr d)) I) as Hb.
  destruct I as [I1 I2 I3 I4 I5 I6 I7 I8 [I9 [Hd I9']%Forall_cons] I10 I11].
  specialize (Hb ltac:(unfold places; rewrite fmap_cons, !elem_of_app; do 3 right; left; by left)).
  pose proof (Z.mod_pos_bound (addr d) size ltac:(lia)). unfold Rings.on_desc, is_frame.
  rewrite I1, I2, locate_owned by done. cbv zeta. destruct (_ <=? size) eqn:E; bool_facts; do 4 eexists.
  - split; [done|]. unfold option_list. cbn [option_rect]. rewrite len_cons, len_nil, Z.add_0_l. split_and!; try done.
    + constructor; try done; [cbn [IndexPool.strong]; rewrite len_app, len_cons, len_nil; lia| |].
      * apply Forall_app. split; [exact I8|]. constructor; [|constructor]. destruct I3 as (_ & Hn & Hst).
        split_and!; cbn in *; lia.
      * rewrite <- I11. unfold places. cbn [IndexPool.freed]. rewrite fmap_app, fmap_cons. simpl. solve_Permutation.
    + rewrite Z.sub_diag. unfold u64_add. rewrite Z.add_0_r, Z.mod_small; [done|exact I10].
  - split; [done|]. unfold option_list. cbn [option_rect]. rewrite len_nil, !app_nil_r. split_and!; try done; try lia.
    constructor; try done; [apply Z.mod_pos_bound; done|].
    rewrite <- I11. unfold places. cbn [Rings.set_free Rings.free]. rewrite fmap_cons. simpl. solve_Permutation.
Qed.

Lemma u64_add_add a b c : u64_add (u64_add a b) c = u64_add a (b + c).
Proof using. unfold u64_add. rewrite Z.add_mod_idemp_l by done. f_equal. lia. Qed.

(** The whole batch: frames in ring order, every other descriptor counted. *)
Lemma on_descs_inv k fill rx ds r p live out n :
  xsk_inv k fill rx r p live ds ->
  exists r' p' out' n', foldl (fun st d => Rings.on_desc d st) (r, p, out, n) ds = (r', p', out', n') /\
  xsk_inv k fill rx r' p' (live ++ omap is_frame ds) [] /\
  frames out' = frames out ++ omap is_frame ds /\ cap out' = cap out /\
  n' = n + len (omap is_frame ds) /\ IndexPool.region p' = IndexPool.region p /\
  Rings.truncated r' = u64_add (Rings.truncated r) (len ds - len (omap is_frame ds)).
Proof using He Hsize.
  revert r p live out n. induction ds as [|d ds IH]; intros r p live out n I.
  { exists r, p, out, n. simpl. rewrite !app_nil_r, len_nil. split_and!; try done; try lia.
    unfold u64_add. rewrite Z.add_0_r, Z.mod_small; [done|exact (i_truncated _ _ _ _ _ _ _ I)]. }
  destruct (on_desc_inv _ _ _ _ _ _ _ _ out n I) as (r1 & p1 & o1 & n1 & E1 & I1 & F1 & C1 & N1 & R1 & T1).
  cbn [foldl]. rewrite E1. destruct (IH _ _ _ o1 n1 I1) as (r2 & p2 & o2 & n2 & E2 & I2 & F2 & C2 & N2 & R2 & T2).
  exists r2, p2, o2, n2. rewrite E2.
  assert (Eo : omap is_frame (d :: ds) = option_list (is_frame d) ++ omap is_frame ds) by (simpl; by destruct (is_frame d)).
  rewrite Eo, !app_assoc, len_app, len_cons. split_and!; try done.
  - by rewrite F2, F1.
  - by rewrite C2.
  - lia.
  - by rewrite R2.
  - rewrite T2, T1, u64_add_add. f_equal. lia.
Qed.

Lemma omap_length_le {A B} (f : A -> option B) l : (length (omap f l) <= length l)%nat.
Proof. induction l as [|x l IH]; csimpl; [lia|]. destruct (f x); csimpl; lia. Qed.

(** *** Polling *)

Definition poll_inv (s : Rings.polling (K := K)) live : Prop :=
  xsk_inv (Rings.k s) (Rings.fill s) (Rings.rx s) (Rings.rings s) (Rings.pool s) live [].

(** From [s] to [s'] the kernel published [pub] and the process handled [ds], in ring order. *)
Record handled (s s' : Rings.polling (K := K)) live (pub ds : list xdp_desc) : Prop := {
  h_inv : poll_inv s' (live ++ omap is_frame ds);
  h_queue : ring_queue e (Rings.rx s) ++ pub = ds ++ ring_queue e (Rings.rx s');
  h_frames : frames (Rings.out s') = frames (Rings.out s) ++ omap is_frame ds;
  h_cap : cap (Rings.out s') = cap (Rings.out s);
  h_pushed : Rings.pushed s' = Rings.pushed s + len (omap is_frame ds);
  h_region : IndexPool.region (Rings.pool s') = IndexPool.region (Rings.pool s);
  h_truncated : Rings.truncated (Rings.rings s') =
    u64_add (Rings.truncated (Rings.rings s)) (len ds - len (omap is_frame ds));
  h_pending : (k_pending C (Rings.k s') + length pub <= k_pending C (Rings.k s))%nat;
}.

Lemma handled_trans s1 s2 s3 live pub1 ds1 pub2 ds2 :
  handled s1 s2 live pub1 ds1 -> handled s2 s3 (live ++ omap is_frame ds1) pub2 ds2 ->
  handled s1 s3 live (pub1 ++ pub2) (ds1 ++ ds2).
Proof using.
  intros [A1 A2 A3 A4 A5 A6 A7 A8] [B1 B2 B3 B4 B5 B6 B7 B8].
  constructor; rewrite ?omap_app, ?app_assoc, ?length_app, ?len_app; try done.
  - by rewrite A2, <- app_assoc, B2, app_assoc.
  - by rewrite B3, A3.
  - by rewrite B4.
  - rewrite B5, A5. lia.
  - by rewrite B6.
  - rewrite B7, A7, u64_add_add. f_equal. rewrite ?len_app. lia.
  - lia.
Qed.

Definition room (out : FrameBatch.t IndexFrame) : Z :=
  match try_u32 (spare out) with Some n => n | None => U32_MAX end.

Lemma room_spare out : 0 < spare out -> 0 < room out <= spare out.
Proof using. unfold room, try_u32. destruct (_ <=? U32_MAX) eqn:E; bool_facts; lia. Qed.

(** One round: what it took, and when it is the last. *)
Lemma poll_round_spec s live :
  poll_inv s live -> Rings.pushed s = 0 -> 0 < spare (Rings.out s) ->
  exists s' pub ds, handled s s' live pub ds /\ len ds <= spare (Rings.out s) /\
    (ds = [] -> ring_queue e (Rings.rx s') = []) /\
    Rings.poll_round s =
      if (len ds =? 0) || (Rings.pushed s' >? 0) || (spare (Rings.out s') =? 0) then Leave s' else Again s'.
Proof using He Hsize.
  intros I Hp Hsp. unfold Rings.poll_round. fold (room (Rings.out s)). pose proof (room_spare _ Hsp) as Hroom.
  destruct (turn (Rings.k s) (Rings.fill s) (Rings.rx s)) as [[k fill] rx] eqn:Et.
  destruct (turn_inv _ _ _ _ _ _ _ _ _ I Et) as (I1 & pub & Hpub & Hpend).
  pose proof I1 as [J1 J2 J3 J4 [J5 J5'] J6 J7 J8 [J9 _] J10 J11]. unfold Rings.mask. rewrite J1, J5'. fold (slots e).
  destruct (consume_pops e He rx (room (Rings.out s)) J5 ltac:(lia)) as (rx' & -> & Hw & Hprod & Hdesc & Hfl & Hq).
  set (n := Z.to_nat (Z.min (len (ring_queue e rx)) (room (Rings.out s)))) in *.
  set (ds := take n (ring_queue e rx)) in *.
  assert (I2 : xsk_inv k fill rx' (Rings.set_cons (consumer rx') (Rings.rings s)) (Rings.pool s) live ds).
  { constructor; try done.
    - rewrite <- (take_drop n), <- Hq in J9. apply Forall_app in J9 as [? ?]. done.
    - rewrite <- J11. unfold places. cbn [Rings.set_cons Rings.free]. rewrite <- (take_drop n (ring_queue e rx)), <- Hq.
      fold ds. rewrite fmap_app. simpl. solve_Permutation. }
  destruct (on_descs_inv _ _ _ _ _ _ _ (Rings.out s) (Rings.pushed s) I2) as (r & p & o & m & -> & I3 & F3 & C3 & N3 & R3 & T3).
  assert (Hlen : len ds = Z.min (len (ring_queue e rx)) (room (Rings.out s))).
  { unfold ds, n, len. rewrite length_take. unfold len in *. lia. }
  exists {| Rings.k := k; Rings.fill := fill; Rings.rx := rx'; Rings.rings := r; Rings.pool := p; Rings.out := o;
    Rings.pushed := m |}, pub, ds. split_and!; [|lia| |reflexivity].
  - constructor; cbn; try done. unfold ds. by rewrite <- Hpub, Hq, take_drop.
  - intros E. cbn. rewrite E, len_nil in Hlen. assert (El : len (ring_queue e rx) = 0) by (pose proof (len_nonneg (ring_queue e rx)); lia).
    rewrite Hq. destruct (ring_queue e rx); [by rewrite drop_nil|]. rewrite len_cons in El. pose proof (len_nonneg l). lia.
Qed.

Lemma spare_frames (o o' : FrameBatch.t IndexFrame) fs :
  frames o' = frames o ++ fs -> cap o' = cap o -> 0 <= spare o' -> spare o - len fs <= spare o'.
Proof using. unfold spare, saturating_sub. intros -> -> . rewrite len_app. pose proof (len_nonneg fs). lia. Qed.

(** The loop: partial correctness. *)
Lemma poll_loop_spec fuel s live s' :
  poll_inv s live -> Rings.pushed s = 0 -> 0 < spare (Rings.out s) ->
  Rings.poll_frames fuel s = Some s' ->
  exists pub ds, handled s s' live pub ds /\ len (omap is_frame ds) <= spare (Rings.out s) /\
    (omap is_frame ds = [] -> ring_queue e (Rings.rx s') = []).
Proof using He Hsize.
  unfold Rings.poll_frames. revert s live. induction fuel as [|fuel IH]; intros s live I Hp Hsp E; [done|].
  destruct (poll_round_spec s live I Hp Hsp) as (s1 & pub & ds & H1 & Hle & Hempty & Er).
  cbn [iterate] in E. rewrite Er in E. pose proof (h_pushed _ _ _ _ _ H1) as Hn. rewrite Hp, Z.add_0_l in Hn.
  pose proof (omap_length_le is_frame ds) as Hol. pose proof (spare_frames _ _ _ (h_frames _ _ _ _ _ H1) (h_cap _ _ _ _ _ H1) (FrameBatch.spare_nonneg _)).
  destruct (len ds =? 0) eqn:E0; [|destruct (Rings.pushed s1 >? 0) eqn:E1; [|destruct (spare (Rings.out s1) =? 0) eqn:E2]];
    cbn [orb] in E; bool_facts; [| | |].
  - simplify_eq. exists pub, ds. split_and!; [done|unfold len in *; lia|]. intros _. apply Hempty.
    destruct ds; [done|]. rewrite len_cons in E0. pose proof (len_nonneg ds). lia.
  - simplify_eq. exists pub, ds. split_and!; [done|unfold len in *; lia|]. intros Ez. rewrite Ez, len_nil in Hn. lia.
  - simplify_eq. exists pub, ds. split_and!; [done|unfold len in *; lia|]. intros Ez. rewrite Ez, len_nil in *. lia.
  - assert (Ez : omap is_frame ds = []) by (destruct (omap is_frame ds); [done|rewrite len_cons in Hn; pose proof (len_nonneg l); lia]).
    pose proof (h_frames _ _ _ _ _ H1) as Hf. pose proof (h_cap _ _ _ _ _ H1) as Hc. rewrite Ez, app_nil_r in Hf.
    assert (Eo : Rings.out s1 = Rings.out s) by (destruct (Rings.out s1), (Rings.out s); cbn in *; by subst).
    destruct (IH s1 (live ++ omap is_frame ds) (h_inv _ _ _ _ _ H1)) as (pub2 & ds2 & H2 & Hle2 & He2);
      [by rewrite Hn, Ez|by rewrite Eo|done|].
    exists (pub ++ pub2), (ds ++ ds2). rewrite omap_app, Ez, <- Eo. split_and!; [by eapply handled_trans|done|done].
Qed.

Definition backlog k (rx : Shared xdp_desc) : nat := length (ring_queue e rx) + k_pending C k.

Lemma handled_backlog s s' live pub ds :
  handled s s' live pub ds ->
  (backlog (Rings.k s') (Rings.rx s') + length ds <= backlog (Rings.k s) (Rings.rx s))%nat.
Proof using.
  intros Hh. pose proof (f_equal length (h_queue _ _ _ _ _ Hh)) as Hq. rewrite !length_app in Hq.
  pose proof (h_pending _ _ _ _ _ Hh). unfold backlog. lia.
Qed.

(** The loop: fuel above the backlog is enough. *)
Lemma xsk_loop_total fuel s live :
  poll_inv s live -> Rings.pushed s = 0 -> 0 < spare (Rings.out s) ->
  (backlog (Rings.k s) (Rings.rx s) < fuel)%nat -> is_Some (Rings.poll_frames fuel s).
Proof using He Hsize.
  unfold Rings.poll_frames. revert s live. induction fuel as [|fuel IH]; intros s live I Hp Hsp Hf; [lia|].
  destruct (poll_round_spec s live I Hp Hsp) as (s1 & pub & ds & H1 & Hle & _ & Er).
  cbn [iterate]. rewrite Er. pose proof (h_pushed _ _ _ _ _ H1) as Hn. rewrite Hp, Z.add_0_l in Hn.
  pose proof (handled_backlog _ _ _ _ _ H1).
  destruct (len ds =? 0) eqn:E0; [by eexists|]. destruct (Rings.pushed s1 >? 0) eqn:E1; [by eexists|].
  destruct (spare (Rings.out s1) =? 0) eqn:E2; [by eexists|]. cbn [orb]. bool_facts.
  pose proof (FrameBatch.spare_nonneg (Rings.out s1)). pose proof (len_nonneg (omap is_frame ds)).
  apply (IH s1 (live ++ omap is_frame ds)); [exact (h_inv _ _ _ _ _ H1)|lia|lia|]. unfold len in E0. lia.
Qed.

(** *** The driver *)

Definition xsk_wf (d : XskDriver K) live : Prop :=
  xsk_inv (kernel d) (fill_mem d) (rx_mem d) (rings d) (xpool d) live [].

Lemma inv_held k k' fill rx r p live ds :
  k_held C k' = k_held C k -> xsk_inv k fill rx r p live ds -> xsk_inv k' fill rx r p live ds.
Proof using. intros E [I1 I2 I3 I4 I5 I6 I7 I8 I9 I10 I11]. constructor; try done. unfold places. by rewrite E. Qed.

Lemma wake_wf d live :
  xsk_wf d live -> let '(r, d') := wake d in
  xsk_wf d' live /\ rx_mem d' = rx_mem d /\ rings d' = rings d /\ xpool d' = xpool d /\
  k_pending C (kernel d') = k_pending C (kernel d) /\ r <> Panic.
Proof using.
  intros I. unfold wake. pose proof (k_wakeup C (kernel d)) as [Hh Hp].
  destruct (wakeup (kernel d)) as [a k]. cbn [snd] in *. destruct a as [e'|]; [destruct (_ || _)|];
    (split_and!; [eapply inv_held; [exact Hh|exact I]|try done..]).
Qed.

(** What one [poll_frames] did: [pub] published meanwhile, [ds] handled, in ring order. *)
Record xsk_polled (d d' : XskDriver K) out out' live (pub ds : list xdp_desc) : Prop := {
  p_wf : xsk_wf d' (live ++ omap is_frame ds);
  p_queue : ring_queue e (rx_mem d) ++ pub = ds ++ ring_queue e (rx_mem d');
  p_frames : frames out' = frames out ++ omap is_frame ds;
  p_cap : cap out' = cap out;
  p_room : len (omap is_frame ds) <= spare out;
  p_region : IndexPool.region (xpool d') = IndexPool.region (xpool d);
  p_truncated : Rings.truncated (rings d') = u64_add (Rings.truncated (rings d)) (len ds - len (omap is_frame ds));
  p_backlog : (backlog (kernel d') (rx_mem d') + length ds <= backlog (kernel d) (rx_mem d))%nat;
}.

(** The state the loop starts from, after a kernel turn and [refill]. *)
Lemma xsk_start d out live :
  xsk_wf d live ->
  exists s pub, Rings.out s = out /\ Rings.pushed s = 0 /\ poll_inv s live /\
    ring_queue e (Rings.rx s) = ring_queue e (rx_mem d) ++ pub /\
    (k_pending C (Rings.k s) + length pub <= k_pending C (kernel d))%nat /\
    Rings.truncated (Rings.rings s) = Rings.truncated (rings d) /\
    IndexPool.region (Rings.pool s) = IndexPool.region (xpool d) /\
    forall fuel, xsk_poll fuel d out =
      match Rings.poll_frames fuel s with
      | None => None
      | Some s =>
          let d := Xsk (Rings.rings s) (Rings.fill s) (Rings.rx s) (Rings.k s) (Rings.pool s) (xsyscalls d) (kernel_cell d) in
          if Rings.pushed s >? 0 then Some (Ok (Frames (Rings.pushed s)), d, Rings.out s)
          else if needs_wakeup (fill_mem d) then
            let '(woken, d) := wake d in Some (let* _ := woken in Ok Idle, d, Rings.out s)
          else Some (Ok Idle, d, Rings.out s)
      end.
Proof using He Hsize.
  intros I. unfold xsk_poll. destruct (turn _ _ _) as [[k fill] rx] eqn:Et.
  destruct (turn_inv _ _ _ _ _ _ _ _ _ I Et) as (I1 & pub & Hpub & Hpend).
  pose proof (refill_inv _ _ _ _ _ _ I1) as R. destruct (Rings.refill _ _ _) as [[r p] fill'].
  destruct R as (I2 & _ & _ & Ht & Hr).
  exists {| Rings.k := k; Rings.fill := fill'; Rings.rx := rx; Rings.rings := r; Rings.pool := p;
            Rings.out := out; Rings.pushed := 0 |}, pub. by split_and!.
Qed.

Lemma xsk_poll_spec fuel d live out (r : res TransportError Polled) d' out' :
  xsk_wf d live -> 0 < spare out -> xsk_poll fuel d out = Some (r, d', out') ->
  exists pub ds, xsk_polled d d' out out' live pub ds /\
    match r with
    | Ok (Frames n) => n = len (omap is_frame ds) /\ 0 < n
    | Ok Idle | Err _ => omap is_frame ds = [] /\ ring_queue e (rx_mem d') = []
    | Ok Exhausted | Panic => False
    end.
Proof using He Hsize.
  intros I Hsp E. destruct (xsk_start d out live I) as (s & pub & Ho & Hp & Is & Hq & Hk & Ht & Hr & Ex).
  rewrite Ex in E. clear Ex. destruct (Rings.poll_frames fuel s) as [s'|] eqn:El; [|done]. subst out.
  destruct (poll_loop_spec fuel s live s' Is Hp Hsp El) as (pub2 & ds & Hh & Hroom & Hempty).
  pose proof (handled_backlog _ _ _ _ _ Hh) as Hb. destruct Hh as [H1 H2 H3 H4 H5 H6 H7 H8].
  rewrite Hp, Z.add_0_l in H5. rewrite Hq, <- app_assoc in H2. rewrite Ht in H7. rewrite Hr in H6.
  assert (Hbl : (backlog (Rings.k s') (Rings.rx s') + length ds <= backlog (kernel d) (rx_mem d))%nat).
  { unfold backlog in *. rewrite Hq, length_app in Hb. lia. }
  set (d1 := Xsk (Rings.rings s') (Rings.fill s') (Rings.rx s') (Rings.k s') (Rings.pool s') (xsyscalls d) (kernel_cell d)) in *.
  assert (P1 : xsk_polled d d1 (Rings.out s) (Rings.out s') live (pub ++ pub2) ds) by by constructor.
  exists (pub ++ pub2), ds. cbv zeta in E. destruct (Rings.pushed s' >? 0) eqn:Ep; bool_facts.
  { injection E as <- <- <-. split; [exact P1|]. lia. }
  assert (Ez : omap is_frame ds = []) by (destruct (omap is_frame ds); [done|rewrite len_cons in H5; pose proof (len_nonneg l); lia]).
  destruct (needs_wakeup (fill_mem d1)); [|by injection E as <- <- <-; auto].
  pose proof (wake_wf d1 _ H1) as W. destruct (wake d1) as [w d2]. destruct W as (W1 & W2 & W3 & W4 & W5 & W6).
  injection E as <- <- <-. split.
  - destruct P1. constructor; unfold backlog in *; rewrite ?W2, ?W3, ?W4, ?W5; done.
  - rewrite W2. by destruct w; auto.
Qed.

Lemma xsk_poll_total fuel d live out :
  xsk_wf d live -> 0 < spare out -> (backlog (kernel d) (rx_mem d) < fuel)%nat -> is_Some (xsk_poll fuel d out).
Proof using He Hsize.
  intros I Hsp Hf. destruct (xsk_start d out live I) as (s & pub & Ho & Hp & Is & Hq & Hk & _ & _ & Ex). subst out.
  rewrite Ex. destruct (xsk_loop_total fuel s live Is Hp Hsp) as [s' ->].
  { unfold backlog in *. rewrite Hq, length_app. lia. }
  cbv zeta. destruct (_ >? 0); [by eexists|]. destruct (needs_wakeup _); [|by eexists]. by destruct (wake _); eexists.
Qed.

(** The XSK driver keeps the shell's driver contract. *)
Definition xsk_contract : driver_contract (xsk_poll (K := K)).
Proof using C He Hsize.
  refine {| dc_wf := fun d => exists live, xsk_wf d live; dc_backlog := fun d => backlog (kernel d) (rx_mem d) |}.
  - intros fuel d out r d' out' [live I] Hsp E.
    destruct (xsk_poll_spec _ _ _ _ _ _ _ I Hsp E) as (pub & ds & P & Hr).
    pose proof (omap_length_le is_frame ds). pose proof (p_backlog _ _ _ _ _ _ _ P).
    split_and!; [by exists (live ++ omap is_frame ds); apply P|apply P|]. exists (omap is_frame ds).
    split_and!; [apply P|apply P|lia|]. destruct r as [[| |]|e'|]; try done. by destruct Hr.
  - intros fuel d out [live I] Hsp Hf. by eapply xsk_poll_total.
Defined.

Lemma drop_live_wf d live i f :
  xsk_wf d live -> live !! i = Some f -> xsk_wf (drop_live d f) (delete i live).
Proof using He.
  intros [I1 I2 I3 I4 I5 I6 I7 I8 I9 I10 I11] Hi. pose proof (delete_Permutation _ _ _ Hi) as Hperm.
  constructor; try done.
  - cbn. rewrite I7. pose proof (lookup_lt_Some _ _ _ Hi). unfold len. rewrite length_delete by done. lia.
  - by apply Forall_delete.
  - rewrite <- I11. unfold places. cbn. rewrite Hperm at 2. rewrite fmap_cons. solve_Permutation.
Qed.
End ownership.

(** ** Histories of a driver and its frames *)

Section history.
Context {K : Type} `{XskKernel K}.

Inductive xsk_op := XPoll (fuel : nat) (room : Z) | XDrop (i : nat) | XStats.

Definition xsk_apply (o : xsk_op) (st : XskDriver K * list IndexFrame) : XskDriver K * list IndexFrame :=
  let '(d, live) := st in
  match o with
  | XPoll fuel room =>
      if 0 <? room then
        match xsk_poll fuel d (FrameBatch.with_capacity room) with
        | Some (_, d, out) => (d, live ++ frames out)
        | None => st
        end
      else st
  | XDrop i =>
      match live !! i with
      | Some f => (drop_live d f, delete i live)
      | None => st
      end
  | XStats => ((xsk_stats d).2, live)
  end.

(** The driver as [open] builds it: fresh pool, rings without entries. *)
Definition xsk_fresh (e size : Z) (C : kernel_contract K e size) (d : XskDriver K) : Prop :=
  rings d = Rings.new (fill_mem d) (rx_mem d) (2 ^ e) size /\
  (ring_wf e (fill_mem d) /\ ring_queue e (fill_mem d) = []) /\
  (ring_wf e (rx_mem d) /\ ring_queue e (rx_mem d) = []) /\
  k_held C (kernel d) = [] /\
  IndexPool.wf (xpool d) /\ IndexPool.count (xpool d) = 2 ^ e /\ IndexPool.stride (xpool d) = size /\
  IndexPool.strong (xpool d) = 1 /\ IndexPool.freed (xpool d) = [].

Lemma fresh_wf e size C d : xsk_fresh e size C d -> xsk_wf e size C d [].
Proof.
  intros (Hr & [Hf1 Hf2] & [Hx1 Hx2] & Hh & Hp & Hc & Hs & Hst & Hfr). unfold xsk_wf. rewrite Hr.
  constructor; try done; [by rewrite Hx2|]. unfold places. by rewrite Hf2, Hx2, Hh, Hfr.
Qed.

Lemma stats_wf e size C d live : xsk_wf e size C d live -> xsk_wf e size C (xsk_stats d).2 live.
Proof. intros I. unfold xsk_stats, kernel_drops. by destruct (statistics (kernel d)) as [[? ?]|]. Qed.

Lemma xsk_apply_wf e size C o d live :
  0 <= e <= 31 -> 0 < size < W32 -> xsk_wf e size C d live ->
  let '(d', live') := xsk_apply o (d, live) in xsk_wf e size C d' live'.
Proof.
  intros He Hs I. destruct o as [fuel room|i|]; unfold xsk_apply.
  - destruct (0 <? room) eqn:Er; [|done]. bool_facts. destruct (xsk_poll _ _ _) as [[[r d'] out]|] eqn:E; [|done].
    destruct (xsk_poll_spec e size He Hs C _ _ _ _ _ _ _ I (FrameBatch.spare_empty (FrameBatch.with_capacity room) eq_refl Er) E)
      as (pub & ds & P & _).
    rewrite (p_frames _ _ _ _ _ _ _ _ _ _ P). exact (p_wf _ _ _ _ _ _ _ _ _ _ P).
  - destruct (live !! i) eqn:Ei; [|done]. by apply drop_live_wf.
  - by apply stats_wf.
Qed.

Lemma xsk_run_wf e size C ops st :
  0 <= e <= 31 -> 0 < size < W32 -> xsk_wf e size C st.1 st.2 ->
  let st' := foldl (fun st o => xsk_apply o st) st ops in xsk_wf e size C st'.1 st'.2.
Proof.
  intros He Hs. revert st. induction ops as [|o ops IH]; intros [d live] I; [done|]. apply IH.
  pose proof (xsk_apply_wf e size C o d live He Hs I). by destruct (xsk_apply o (d, live)).
Qed.
End history.

(** What the invariant says to a caller: one place per chunk, no memory shared. *)
Lemma wf_conserved {K} `{XskKernel K} e size (C : kernel_contract K e size) d live :
  xsk_wf e size C d live ->
  places e size C (kernel d) (fill_mem d) (rx_mem d) (rings d) (xpool d) live [] ≡ₚ seqZ 0 (2 ^ e) /\
  NoDup ((slot <$> live) ++ k_held C (kernel d) ++ (chunk size <$> ring_queue e (fill_mem d))) /\
  Forall (IndexPool.frame_in_bounds (xpool d)) live /\ ps_in_use (IndexPool.stats (xpool d)) = len live.
Proof.
  intros I. pose proof (i_places _ _ _ _ _ _ _ _ _ _ I) as Hp. split_and!; [exact Hp| |apply I|].
  - assert (Hnd : NoDup (places e size C (kernel d) (fill_mem d) (rx_mem d) (rings d) (xpool d) live []))
      by (rewrite Hp; apply NoDup_seqZ).
    assert (Hsplit : places e size C (kernel d) (fill_mem d) (rx_mem d) (rings d) (xpool d) live [] ≡ₚ
      ((slot <$> live) ++ k_held C (kernel d) ++ (chunk size <$> ring_queue e (fill_mem d))) ++
      (chunk size ∘ addr <$> ring_queue e (rx_mem d)) ++ IndexPool.freed (xpool d) ++ Rings.free (rings d))
      by (unfold places; simpl; solve_Permutation).
    rewrite Hsplit in Hnd. by apply NoDup_app in Hnd as [? _].
  - cbn. rewrite (i_strong _ _ _ _ _ _ _ _ _ _ I). lia.
Qed.

(** ** A scripted kernel, for worked examples

    Each turn takes the whole fill ring, then publishes the next batch of (offset, length)
    pairs in chunks it holds, as far as the receive ring has room. *)

Record ScriptKernel (e size : Z) := Script { sk_held : list Z; script : list (list (Z * nat)) }.
Arguments Script {e size}.
Arguments sk_held {e size}.
Arguments script {e size}.

Section scripted.
Context (e size : Z).

Definition script_turn (k : ScriptKernel e size) (fill : Shared Z) (rx : Shared xdp_desc)
    : ScriptKernel e size * Shared Z * Shared xdp_desc :=
  let '(addrs, fill, _) := consume (2 ^ e - 1) (consumer fill) U32_MAX fill in
  let held := sk_held k ++ (chunk size <$> addrs) in
  match script k with
  | [] => (Script held [], fill, rx)
  | batch :: rest =>
      let ds := zip_with (fun c ol => Desc (c * size + ol.1 mod size) (Z.of_nat ol.2)) held batch in
      let '(n, rx, _) := produce (2 ^ e - 1) (producer rx) ds rx in
      (Script (drop (Z.to_nat n) held) rest, fill, rx)
  end.

#[export] Instance script_kernel : XskKernel (ScriptKernel e size) := {|
  turn := script_turn;
  wakeup := fun k => (None, k);
  statistics := fun _ => None;
|}.

Lemma zip_with_chunks held batch n :
  0 < size -> (n <= length (zip_with (fun c (ol : Z * nat) => Desc (c * size + ol.1 mod size) (Z.of_nat ol.2)) held batch))%nat ->
  chunk size ∘ addr <$> take n (zip_with (fun c (ol : Z * nat) => Desc (c * size + ol.1 mod size) (Z.of_nat ol.2)) held batch)
  = take n held.
Proof.
  intros Hs. revert batch n. induction held as [|c held IH]; intros [|[o l] batch] [|n] Hn; cbn in *; try done; try lia.
  f_equal; [|apply IH; lia]. unfold chunk. rewrite Z.div_add_l, Z.div_small by (try apply Z.mod_pos_bound; lia). lia.
Qed.

Lemma zip_with_lens (held : list Z) batch :
  Forall (fun d => 0 <= dlen d) (zip_with (fun c (ol : Z * nat) => Desc (c * size + ol.1 mod size) (Z.of_nat ol.2)) held batch).
Proof. revert batch. induction held as [|c held IH]; intros [|[o l] batch]; cbn; constructor; cbn; [lia|apply IH]. Qed.

Definition script_contract (He : 0 <= e <= 31) (Hs : 0 < size) : kernel_contract (ScriptKernel e size) e size.
Proof.
  refine {| k_held := sk_held; k_pending := fun k => length (concat (script k)) |}; [|done].
  intros k fill rx k' fill' rx' Hf Hr E. cbn in E. unfold script_turn in E. fold (slots e) in E.
  destruct (consume_pops e He fill U32_MAX Hf ltac:(lia)) as (f1 & Ef & Hf1 & Hfp & _ & _ & Hfq).
  rewrite Ef in E. set (n := Z.to_nat (Z.min (len (ring_queue e fill)) U32_MAX)) in *.
  destruct (script k) as [|batch rest] eqn:Es.
  { simplify_eq. split_and!; try done. exists (take n (ring_queue e fill)), []. rewrite Hfq, take_drop, !app_nil_r.
    by split_and!. }
  set (held := sk_held k ++ _) in E. set (ds := zip_with _ held batch) in E.
  destruct (produce_appends e He rx ds Hr) as (m & r1 & Hm & Ep & Hr1 & Hrc & _ & Hrq). rewrite Ep, Nat2Z.id in E. simplify_eq.
  assert (Hmd : (m <= length ds)%nat) by (unfold len in Hm; lia).
  split_and!; try done. exists (take n (ring_queue e fill)), (take m ds). rewrite Hfq, take_drop.
  split_and!; try done.
  - cbn. unfold ds. rewrite zip_with_chunks by done. by rewrite Permutation_app_comm, take_drop.
  - apply Forall_take, zip_with_lens.
  - cbn. rewrite length_app, length_take. assert (length ds <= length batch)%nat by (unfold ds; rewrite length_zip_with; lia). lia.
Defined.
End scripted.

(** A driver of four 2048-byte chunks whose rings start two short of wrapping. *)
Definition demo_xsk (batches : list (list (Z * nat))) : XskDriver (ScriptKernel 2 2048) :=
  let fill := Mem 4294967294 4294967294 0 [0; 0; 0; 0] in
  let blank := Desc 0 0 in
  let rx := Mem 4294967294 4294967294 0 [blank; blank; blank; blank] in
  Xsk (Rings.new fill rx 4 2048) fill rx (Script [] batches)
      (IndexPool.Pool (replicate (Z.to_nat 8192) Byte.x00) 2048 4 [] 1) 0 {| rx_dropped := 0; rx_ring_full := 0 |}.

Lemma demo_exponent : 0 <= 2 <= 31. Proof. lia. Qed.

Lemma demo_size : 0 < 2048. Proof. lia. Qed.

Definition demo_contract : kernel_contract (ScriptKernel 2 2048) 2 2048 := script_contract 2 2048 demo_exponent demo_size.

Lemma demo_xsk_fresh batches : xsk_fresh 2 2048 demo_contract (demo_xsk batches).
Proof. split_and!; try done; vm_compute; done. Qed.

(** ** Properties *)

(** After any sequence of polls, frame drops and counter reads on a freshly opened
    driver, against any kernel that keeps its side, every chunk is in exactly one place
    (fill ring, kernel, receive ring, a live frame, the pool's freed list or the free
    list): no two live frames share memory, none is on loan to the kernel, all lie inside
    their chunk, and [pool_stats] counts the live ones. *)
Theorem xsk_chunks_conserved {K} `{XskKernel K} e size (C : kernel_contract K e size) d0 ops :
  0 <= e <= 31 -> 0 < size < W32 -> xsk_fresh e size C d0 ->
  let '(d, live) := foldl (fun st o => xsk_apply o st) (d0, []) ops in
  places e size C (kernel d) (fill_mem d) (rx_mem d) (rings d) (xpool d) live [] ≡ₚ seqZ 0 (2 ^ e) /\
  NoDup ((slot <$> live) ++ k_held C (kernel d) ++ (chunk size <$> ring_queue e (fill_mem d))) /\
  Forall (IndexPool.frame_in_bounds (xpool d)) live /\ ps_in_use (IndexPool.stats (xpool d)) = len live.
Proof.
  intros He Hs Hf.
  pose proof (xsk_run_wf e size C ops (d0, []) He Hs (fresh_wf _ _ _ _ Hf)) as I.
  destruct (foldl _ _ ops) as [d live]. by apply wf_conserved.
Qed.

Lemma xsk_chunks_conserved_witness :
  let C := demo_contract in
  let ops := [XPoll 9 2; XDrop 0; XPoll 9 2; XStats] in
  let '(d, live) := foldl (fun st o => xsk_apply o st) (demo_xsk [[]; [(256, 60%nat); (320, 10%nat)]; [(1000, 1049%nat)]], []) ops in
  places 2 2048 C (kernel d) (fill_mem d) (rx_mem d) (rings d) (xpool d) live [] ≡ₚ seqZ 0 (2 ^ 2) /\
  NoDup ((slot <$> live) ++ k_held C (kernel d) ++ (chunk 2048 <$> ring_queue 2 (fill_mem d))) /\
  Forall (IndexPool.frame_in_bounds (xpool d)) live /\ ps_in_use (IndexPool.stats (xpool d)) = len live.
Proof. apply xsk_chunks_conserved; [lia|lia|apply demo_xsk_fresh]. Defined.

(** C26: [poll_frames] returns once its fuel is above what the kernel still has to give. It
    handles descriptors in ring order, those published meanwhile included: each inside
    its chunk is pushed as a frame at its own address and length, every other one is counted
    truncated. It is idle, or fails in the wakeup call, only having found the ring empty. *)
Theorem xsk_poll_exact {K} `{XskKernel K} e size (C : kernel_contract K e size) fuel d live out :
  0 <= e <= 31 -> 0 < size < W32 -> xsk_wf e size C d live -> 0 < spare out ->
  (backlog e size C (kernel d) (rx_mem d) < fuel)%nat ->
  exists r d' out' pub ds, xsk_poll fuel d out = Some (r, d', out') /\
    ring_queue e (rx_mem d) ++ pub = ds ++ ring_queue e (rx_mem d') /\
    frames out' = frames out ++ omap (is_frame e size) ds /\
    Rings.truncated (rings d') = u64_add (Rings.truncated (rings d)) (len ds - len (omap (is_frame e size) ds)) /\
    match r with
    | Ok (Frames n) => n = len (omap (is_frame e size) ds) /\ 0 < n <= spare out
    | Ok Idle | Err _ => frames out' = frames out /\ ring_queue e (rx_mem d') = []
    | Ok Exhausted | Panic => False
    end.
Proof.
  intros He Hs I Hsp Hf. destruct (xsk_poll_total e size He Hs C _ _ _ _ I Hsp Hf) as [[[r d'] out'] E].
  destruct (xsk_poll_spec e size He Hs C _ _ _ _ _ _ _ I Hsp E) as (pub & ds & P & Hr).
  exists r, d', out', pub, ds. split_and!; [done|apply P|apply P|apply P|].
  pose proof (p_room _ _ _ _ _ _ _ _ _ _ P). pose proof (p_frames _ _ _ _ _ _ _ _ _ _ P) as Hfr.
  destruct r as [[n| |]|er|]; try done.
  - destruct Hr. split; [done|lia].
  - destruct Hr as [Hr ?]. by rewrite Hr, app_nil_r in Hfr.
  - destruct Hr as [Hr ?]. by rewrite Hr, app_nil_r in Hfr.
Qed.

Lemma xsk_poll_exact_witness :
  let d := demo_xsk [[]; [(256, 60%nat); (1000, 1049%nat)]] in
  let out := FrameBatch.with_capacity (F := IndexFrame) 4 in
  exists r d' out' pub ds, xsk_poll 9 d out = Some (r, d', out') /\
    ring_queue 2 (rx_mem d) ++ pub = ds ++ ring_queue 2 (rx_mem d') /\
    frames out' = frames out ++ omap (is_frame 2 2048) ds /\
    Rings.truncated (rings d') = u64_add (Rings.truncated (rings d)) (len ds - len (omap (is_frame 2 2048) ds)) /\
    match r with
    | Ok (Frames n) => n = len (omap (is_frame 2 2048) ds) /\ 0 < n <= spare out
    | Ok Idle | Err _ => frames out' = frames out /\ ring_queue 2 (rx_mem d') = []
    | Ok Exhausted | Panic => False
    end.
Proof.
  intros d out. apply (xsk_poll_exact 2 2048 demo_contract 9 d []);
    [lia|lia|apply fresh_wf, demo_xsk_fresh|vm_compute; reflexivity|vm_compute; lia].
Defined.

(** [locate] maps an address and length to a frame exactly when the payload lies inside one
    chunk of the region, and to the chunk to recycle exactly when it starts in one and
    runs past it; nothing outside the region is framed or recycled. *)
Theorem locate_exact a n size count s o l :
  0 <= a < W64 -> u32 n -> 0 < size < W32 -> 0 < count < W32 ->
  (locate a n size count = LFrame s o l <->
    l = n /\ a = s * size + o /\ 0 <= s < count /\ 0 <= o /\ o + n <= size /\ o < size) /\
  (locate a n size count = LTruncated s <->
    0 <= s < count /\ s * size <= a < (s + 1) * size /\ (s + 1) * size < a + n) /\
  (locate a n size count = LForeign <-> count * size <= a).
Proof.
  intros Ha Hn Hs Hc. pose proof (Z.div_mod a size ltac:(lia)) as Hdm. pose proof (Z.mod_pos_bound a size ltac:(lia)) as Hmb.
  assert (Hq : forall q x, a = q * size + x -> 0 <= x < size -> q = a / size /\ x = a mod size).
  { intros q x -> Hx. rewrite Z.div_add_l, Z.div_small by lia. rewrite (Z.add_comm (q * size) x), Z_mod_plus_full, Z.mod_small by lia. lia. }
  assert (Hd0 : 0 <= a / size) by (apply Z.div_pos; lia).
  unfold locate, try_u32, checked_add. rewrite (proj2 (Z.leb_le (a mod size) U32_MAX)) by lia.
  set (q := a / size) in *. set (x := a mod size) in *. clearbody q x. unfold u32 in *.
  destruct (q <=? U32_MAX) eqn:E1; [destruct (count <=? q) eqn:E2; [|destruct (x + n <=? U32_MAX) eqn:E3;
    [destruct (x + n <=? size) eqn:E4|]]|]; bool_facts; split_and!; split; intros HH;
    try done; try (injection HH; intros; subst; split_and!; nia);
    try (destruct HH as (-> & ? & ? & ? & ? & ?); destruct (Hq s o); [lia|lia|subst; try done; try nia; exfalso; nia]);
    try (destruct HH as (? & ? & ?); destruct (Hq s (a - s * size)); [lia|lia|subst; try done; try nia; exfalso; nia]);
    try nia; exfalso; nia.
Qed.

Lemma locate_exact_witness :
  (locate 6464 60 2048 4 = LFrame 3 320 60 <->
    60 = 60 /\ 6464 = 3 * 2048 + 320 /\ 0 <= 3 < 4 /\ 0 <= 320 /\ 320 + 60 <= 2048 /\ 320 < 2048) /\
  (locate 6464 60 2048 4 = LTruncated 3 <->
    0 <= 3 < 4 /\ 3 * 2048 <= 6464 < (3 + 1) * 2048 /\ (3 + 1) * 2048 < 6464 + 60) /\
  (locate 6464 60 2048 4 = LForeign <-> 4 * 2048 <= 6464).
Proof. apply (locate_exact 6464 60 2048 4 3 320 60); unfold u32; lia. Defined.
