(* ===== verification/XdpProgram.v ===== *)
(** * transport-afxdp: the built-in XDP redirect program

    Models [crates/transports/afxdp/src/xdp/program.rs]: the encoder and the 25 instructions
    the driver loads, as bytes, and the interpreter the repository runs them on
    ([program/tests.rs], [run]). The program is proved to redirect exactly the frames its
    documentation names, reading only inside the frame, and so every frame [parse_udp]
    accepts. The helper [bpf_redirect_map] is a parameter. *)

From S2P Require Import Prelude TransportCore Decap.
From Stdlib Require Import ZArith Lia.
From stdpp Require Import prelude list strings.

Open Scope Z_scope.
Open Scope res_scope.

(** ** Encoding *)

Definition LDX_W_MEM : Z := 0x61.
Definition LDX_H_MEM : Z := 0x69.
Definition LDX_B_MEM : Z := 0x71.
Definition LD_DW_IMM : Z := 0x18.
Definition MOV64_K : Z := 0xb7.
Definition MOV64_X : Z := 0xbf.
Definition ADD64_K : Z := 0x07.
Definition JA : Z := 0x05.
Definition JEQ_K : Z := 0x15.
Definition JGT_X : Z := 0x2d.
Definition JNE_K : Z := 0x55.
Definition CALL : Z := 0x85.
Definition EXIT : Z := 0x95.
Definition PSEUDO_MAP_FD : Z := 1.
Definition MD_DATA : Z := 0.
Definition MD_DATA_END : Z := 4.
Definition MD_RX_QUEUE_INDEX : Z := 16.
Definition XDP_PASS : Z := 2.
Definition FN_REDIRECT_MAP : Z := 51.

Definition ETH_TYPE : Z := 12.
Definition IP_PROTO : Z := 14 + 9.
Definition XVLAN_TAG : Z := 4.
Definition HEADERS : Z := 14 + 20 + 8.

(** [u16::swap_bytes]. *)
Definition swap_bytes (v : Z) : Z := v mod 256 * 256 + v / 256.
Definition ETH_P_IP : Z := swap_bytes 0x0800.
Definition ETH_P_8021Q : Z := swap_bytes 0x8100.
Definition XIPPROTO_UDP : Z := 17.

Definition UNTAGGED_PROTO : Z := 15.
Definition UDP_CHECK : Z := 16.
Definition PASS : Z := 23.
Definition INSNS : Z := 25.

(** [insn]: [src << 4] is a [u8]. *)
Definition insn (code dst src off imm : Z) : list byte :=
  [Z_byte code; Z_byte (Z.lor (Z.shiftl src 4 mod 256) dst)] ++ to_le_bytes 2 off ++ to_le_bytes 4 imm.

Definition jump (at_ target : Z) : Z := target - at_ - 1.

Definition instructions (map_fd : Z) : list (list byte) :=
  [ insn LDX_W_MEM 2 1 MD_DATA 0;
    insn LDX_W_MEM 3 1 MD_DATA_END 0;
    insn MOV64_X 4 2 0 0;
    insn ADD64_K 4 0 0 HEADERS;
    insn JGT_X 4 3 (jump 4 PASS) 0;
    insn LDX_H_MEM 4 2 ETH_TYPE 0;
    insn JEQ_K 4 0 (jump 6 UNTAGGED_PROTO) ETH_P_IP;
    insn JNE_K 4 0 (jump 7 PASS) ETH_P_8021Q;
    insn MOV64_X 4 2 0 0;
    insn ADD64_K 4 0 0 (HEADERS + XVLAN_TAG);
    insn JGT_X 4 3 (jump 10 PASS) 0;
    insn LDX_H_MEM 4 2 (ETH_TYPE + XVLAN_TAG) 0;
    insn JNE_K 4 0 (jump 12 PASS) ETH_P_IP;
    insn LDX_B_MEM 4 2 (IP_PROTO + XVLAN_TAG) 0;
    insn JA 0 0 (jump 14 UDP_CHECK) 0;
    insn LDX_B_MEM 4 2 IP_PROTO 0;
    insn JNE_K 4 0 (jump 16 PASS) XIPPROTO_UDP;
    insn LDX_W_MEM 2 1 MD_RX_QUEUE_INDEX 0;
    insn LD_DW_IMM 1 PSEUDO_MAP_FD 0 map_fd;
    insn 0 0 0 0 0;
    insn MOV64_K 3 0 0 XDP_PASS;
    insn CALL 0 0 0 FN_REDIRECT_MAP;
    insn EXIT 0 0 0 0;
    insn MOV64_K 0 0 0 XDP_PASS;
    insn EXIT 0 0 0 0 ].

(** ** The interpreter *)

Definition CTX : Z := Z.shiftl 1 40.
Definition PKT : Z := Z.shiftl 1 32.

(** [iN::from_le_bytes] of a value of [w] bits. *)
Definition signed (w v : Z) : Z := if v <? 2 ^ (w - 1) then v else v - 2 ^ w.

(** Fields of one instruction; the immediate sign-extended to 64 bits. *)
Record Insn := { code : Z; rdst : nat; rsrc : nat; off : Z; imm : Z }.

Definition decode (bs : list byte) : Insn :=
  let regs := byte_Z (bs !!! 1%nat) in
  {| code := byte_Z (bs !!! 0%nat);
     rdst := Z.to_nat (Z.land regs 0xf);
     rsrc := Z.to_nat (Z.shiftr regs 4);
     off := signed 16 (from_le_bytes (take 2 (drop 2 bs)));
     imm := signed 32 (from_le_bytes (take 4 (drop 4 bs))) mod W64 |}.

Section machine.
Context (frame : list byte) (queue : Z) (redirect_map : Z -> Z -> Z -> Z).

(** [ctx_load]. *)
Definition ctx_load {E} (off size : Z) : res E Z :=
  if negb (size =? 4) then Panic
  else if off =? 0 then Ok PKT
  else if off =? 4 then Ok (u64_add PKT (len frame))
  else if off =? 16 then Ok queue
  else Panic.

(** [pkt_load]: [addr - PKT] wraps, then the range must lie in the frame. *)
Definition pkt_load {E} (addr size : Z) : res E Z :=
  let at_ := u64_sub addr PKT in
  let* bytes := index_range at_ (at_ + size) frame in
  Ok (foldl (fun v b => Z.lor (Z.shiftl v 8 mod W64) (byte_Z b)) 0 (reverse bytes)).

(** One round of [run]: the next registers and program counter, or the action. *)
Definition exec {E} (i : Insn) (r : list Z) (pc : nat) : res E (step (list Z * nat) Z) :=
  let get n := r !!! n in
  let set v := <[rdst i := v]> r in
  let target : res E nat :=
    if off i <? 0 then Panic else Ok (pc + 1 + Z.to_nat (off i))%nat in
  let next := (pc + 1)%nat in
  let cond (b : bool) : res E (step (list Z * nat) Z) :=
    if b then let* t := target in Ok (Again (r, t)) else Ok (Again (r, next)) in
  if (code i =? LDX_W_MEM) || (code i =? LDX_H_MEM) || (code i =? LDX_B_MEM) then
    let size := if code i =? LDX_W_MEM then 4 else if code i =? LDX_H_MEM then 2 else 1 in
    let addr := u64_add (get (rsrc i)) (off i) in
    let* v := if CTX <=? addr then ctx_load (addr - CTX) size else pkt_load addr size in
    Ok (Again (set v, next))
  else if code i =? LD_DW_IMM then Ok (Again (set (imm i), (pc + 2)%nat))
  else if code i =? MOV64_K then Ok (Again (set (imm i), next))
  else if code i =? MOV64_X then Ok (Again (set (get (rsrc i)), next))
  else if code i =? ADD64_K then Ok (Again (set (u64_add (get (rdst i)) (imm i)), next))
  else if code i =? JA then cond true
  else if code i =? JEQ_K then cond (get (rdst i) =? imm i)
  else if code i =? JNE_K then cond (negb (get (rdst i) =? imm i))
  else if code i =? JGT_X then cond (get (rsrc i) <? get (rdst i))
  else if code i =? CALL then
    if imm i =? FN_REDIRECT_MAP
    then Ok (Again (<[0%nat := redirect_map (get 1%nat) (get 2%nat) (get 3%nat)]> r, next))
    else Panic
  else if code i =? EXIT then Ok (Leave (get 0%nat))
  else Panic.

(** The [for] over [INSNS] rounds. *)
Fixpoint rounds {E} (prog : list Insn) (fuel : nat) (r : list Z) (pc : nat) : res E Z :=
  match fuel with
  | O => Panic
  | S fuel =>
      match prog !! pc with
      | None => Panic
      | Some i =>
          let* s := exec i r pc in
          match s with
          | Leave action => Ok action
          | Again (r, pc) => rounds prog fuel r pc
          end
      end
  end.

(** Registers at the start: the context in [r1]. *)
Definition start_regs : list Z := [0; CTX; 0; 0; 0; 0; 0; 0; 0; 0; 0].

Definition run {E} (prog : list (list byte)) : res E Z :=
  rounds (decode <$> prog) (Z.to_nat INSNS) start_regs 0%nat.
End machine.

(** ** What the documentation says: the frames that go to the socket *)

(** Big-endian halfword at [i]. *)
Definition half (frame : list byte) (i : nat) : Z := byte_Z (frame !!! i) * 256 + byte_Z (frame !!! S i).

(** IPv4 UDP, untagged or under one 802.1Q tag, at least Ethernet plus a 20-byte IPv4 plus
    a UDP header long. *)
Definition redirects (frame : list byte) : bool :=
  if len frame <? 42 then false
  else if half frame 12 =? 0x0800 then byte_Z (frame !!! 23%nat) =? 17
  else if half frame 12 =? 0x8100 then
    (46 <=? len frame) && (half frame 16 =? 0x0800) && (byte_Z (frame !!! 27%nat) =? 17)
  else false.

(** ** Lemmas *)

Lemma lor_shift_byte a b : 0 <= a < 256 -> 0 <= b < 256 -> Z.lor (Z.shiftl a 8 mod W64) b = 256 * a + b.
Proof.
  intros Ha Hb. rewrite Z.shiftl_mul_pow2, Z.mod_small by lia. change (2 ^ 8) with 256.
  assert (Hl : Z.land (a * 256) b = 0).
  { change 256 with (2 ^ 8). rewrite <- Z.shiftl_mul_pow2 by lia. apply Z.bits_inj'. intros n Hn.
    rewrite Z.land_spec, Z.shiftl_spec, Z.bits_0 by lia. destruct (decide (n < 8)).
    - by rewrite Z.testbit_neg_r by lia.
    - rewrite (Z.bits_above_log2 b n); [apply andb_false_r|lia|].
      destruct (decide (b = 0)) as [->|]; [cbn; lia|]. apply Z.log2_lt_pow2; [lia|].
      assert (2 ^ 8 <= 2 ^ n) by (apply Z.pow_le_mono_r; lia). lia. }
  pose proof (Z.add_lor_land (a * 256) b). lia.
Qed.

Lemma signed_le_bytes fd : 0 <= fd <= I32_MAX -> signed 32 (from_le_bytes (to_le_bytes 4 fd)) mod W64 = fd.
Proof.
  intros Hfd. assert (E : from_le_bytes (to_le_bytes 4 fd) = fd).
  { unfold to_le_bytes, from_le_bytes. rewrite !byte_Z_byte.
    pose proof (Z.div_mod fd 256). pose proof (Z.div_mod (fd / 256) 256). pose proof (Z.div_mod (fd / 256 / 256) 256).
    pose proof (Z.mod_small (fd / 256 / 256 / 256) 256).
    assert (0 <= fd / 256 / 256 / 256 < 256).
    { rewrite !Z.div_div by lia. split; [apply Z.div_pos; lia|apply Z.div_lt_upper_bound; lia]. } lia. }
  rewrite E. unfold signed. change (2 ^ (32 - 1)) with 2147483648. rewrite (proj2 (Z.ltb_lt _ _)) by lia. apply Z.mod_small. lia.
Qed.

(** The program, decoded. *)
Definition decoded (map_fd : Z) : list Insn :=
  let I code d s o i := {| code := code; rdst := d; rsrc := s; off := o; imm := i |} in
  [ I 0x61 2%nat 1%nat 0 0; I 0x61 3%nat 1%nat 4 0; I 0xbf 4%nat 2%nat 0 0; I 0x07 4%nat 0%nat 0 42; I 0x2d 4%nat 3%nat 18 0;
    I 0x69 4%nat 2%nat 12 0; I 0x15 4%nat 0%nat 8 8; I 0x55 4%nat 0%nat 15 0x81;
    I 0xbf 4%nat 2%nat 0 0; I 0x07 4%nat 0%nat 0 46; I 0x2d 4%nat 3%nat 12 0; I 0x69 4%nat 2%nat 16 0;
    I 0x55 4%nat 0%nat 10 8; I 0x71 4%nat 2%nat 27 0; I 0x05 0%nat 0%nat 1 0;
    I 0x71 4%nat 2%nat 23 0; I 0x55 4%nat 0%nat 6 17; I 0x61 2%nat 1%nat 16 0; I 0x18 1%nat 1%nat 0 map_fd; I 0 0%nat 0%nat 0 0;
    I 0xb7 3%nat 0%nat 0 2; I 0x85 0%nat 0%nat 0 51; I 0x95 0%nat 0%nat 0 0; I 0xb7 0%nat 0%nat 0 2; I 0x95 0%nat 0%nat 0 0 ].

Lemma decode_instructions map_fd :
  0 <= map_fd <= I32_MAX -> decode <$> instructions map_fd = decoded map_fd.
Proof.
  intros Hfd. unfold instructions, decoded.
  assert (E : decode (insn LD_DW_IMM 1 PSEUDO_MAP_FD 0 map_fd) =
    {| code := 0x18; rdst := 1; rsrc := 1; off := 0; imm := map_fd |}).
  { unfold decode, insn.
    change (signed 32 (from_le_bytes (take 4 (drop 4 ([Z_byte LD_DW_IMM; Z_byte (Z.lor (Z.shiftl PSEUDO_MAP_FD 4 mod 256) 1)] ++ to_le_bytes 2 0 ++ to_le_bytes 4 map_fd)))) mod W64)
      with (signed 32 (from_le_bytes (to_le_bytes 4 map_fd)) mod W64).
    rewrite signed_le_bytes by done. reflexivity. }
  cbn [fmap list_fmap]. rewrite E. reflexivity.
Qed.

(** ** Running it *)

Section run.
Context (frame : list byte) (queue : Z) (helper : Z -> Z -> Z -> Z) (map_fd : Z) {E : Type}.
Context (Hlen : len frame < CTX - PKT).
#[local] Abbreviation go := (rounds (E := E) frame queue helper (decoded map_fd)).

(** The round at [pc]. *)
Definition round_at r (pc : nat) : res E (step (list Z * nat) Z) :=
  match decoded map_fd !! pc with
  | None => Panic
  | Some i => exec frame queue helper i r pc
  end.

Lemma rounds_step fuel r pc r' pc' :
  round_at r pc = Ok (Again (r', pc')) -> go (S fuel) r pc = go fuel r' pc'.
Proof. unfold round_at. cbn [rounds]. destruct (_ !! pc); [|done]. by intros ->. Qed.

(** A load inside the frame reads its bytes, the low one first. *)
Lemma pkt_load_half a :
  0 <= a -> a + 2 <= len frame ->
  pkt_load (E := E) frame (u64_add PKT a) 2 = Ok (byte_Z (frame !!! Z.to_nat a) + 256 * byte_Z (frame !!! S (Z.to_nat a))).
Proof using Hlen.
  intros Ha Hl. unfold pkt_load, u64_sub, u64_add. rewrite Zminus_mod_idemp_l.
  change PKT with 4294967296 in *. change CTX with 1099511627776 in *.
  replace (4294967296 + a - 4294967296) with a by lia. rewrite Z.mod_small by lia. unfold index_range.
  destruct (lookup_lt_is_Some_2 frame (Z.to_nat a)) as [x Hx]; [unfold len in *; lia|].
  destruct (lookup_lt_is_Some_2 frame (S (Z.to_nat a))) as [y Hy]; [unfold len in *; lia|].
  assert (Hsp : frame = take (Z.to_nat a) frame ++ [x; y] ++ drop (S (S (Z.to_nat a))) frame).
  { rewrite <- (take_drop (Z.to_nat a) frame) at 1. f_equal. rewrite (drop_S _ _ _ Hx). simpl. f_equal. by apply drop_S. }
  rewrite (get_range_split a (a + 2) frame (take (Z.to_nat a) frame) [x; y] _ Hsp).
  2,3: rewrite ?len_cons, ?len_nil; unfold len in *; rewrite length_take; lia.
  rewrite (list_lookup_total_correct _ _ _ Hx), (list_lookup_total_correct _ _ _ Hy). simpl.
  pose proof (byte_Z_range x). pose proof (byte_Z_range y). rewrite Z.lor_0_l, lor_shift_byte by lia. f_equal. lia.
Qed.

Lemma pkt_load_byte a :
  0 <= a -> a + 1 <= len frame -> pkt_load (E := E) frame (u64_add PKT a) 1 = Ok (byte_Z (frame !!! Z.to_nat a)).
Proof using Hlen.
  intros Ha Hl. unfold pkt_load, u64_sub, u64_add. rewrite Zminus_mod_idemp_l.
  change PKT with 4294967296 in *. change CTX with 1099511627776 in *.
  replace (4294967296 + a - 4294967296) with a by lia. rewrite Z.mod_small by lia. unfold index_range.
  destruct (lookup_lt_is_Some_2 frame (Z.to_nat a)) as [x Hx]; [unfold len in *; lia|].
  assert (Hsp : frame = take (Z.to_nat a) frame ++ [x] ++ drop (S (Z.to_nat a)) frame).
  { rewrite <- (take_drop (Z.to_nat a) frame) at 1. f_equal. by apply drop_S. }
  rewrite (get_range_split a (a + 1) frame (take (Z.to_nat a) frame) [x] _ Hsp).
  2,3: rewrite ?len_cons, ?len_nil; unfold len in *; rewrite length_take; lia.
  rewrite (list_lookup_total_correct _ _ _ Hx). simpl. by rewrite Z.lor_0_l.
Qed.

(** The registers between the bounds check and the end: [x] is [r4]. *)
Definition regs (x : Z) : list Z := [0; CTX; PKT; u64_add PKT (len frame); x; 0; 0; 0; 0; 0; 0].

Lemma run_pass fuel x : go (S (S fuel)) (regs x) 23 = Ok XDP_PASS.
Proof. reflexivity. Qed.

Lemma run_redirect fuel x :
  go (S (S (S (S (S fuel))))) (regs x) 17 = Ok (helper map_fd queue XDP_PASS).
Proof. reflexivity. Qed.

Definition pc_if (b : bool) (t n : nat) : nat := if b then t else n.

Lemma again_if (b : bool) (r : list Z) (t n : nat) :
  (if b then Ok (E := E) (Again (R := Z) (r, t)) else Ok (Again (r, n))) = Ok (Again (r, pc_if b t n)).
Proof. by destruct b. Qed.

(** From the protocol check on. *)
Lemma run_udp_check fuel x :
  go (S (S (S (S (S (S fuel)))))) (regs x) 16 = Ok (if x =? 17 then helper map_fd queue XDP_PASS else XDP_PASS).
Proof.
  rewrite (rounds_step _ _ _ (regs x) (pc_if (negb (x =? 17)) 23 17)).
  - destruct (x =? 17); [apply run_redirect|apply run_pass].
  - rewrite <- again_if. reflexivity.
Qed.

(** [r4] against [data_end]. *)
Lemma data_end_test n : 0 <= n < 4096 -> (u64_add PKT (len frame) <? u64_add PKT n) = (len frame <? n).
Proof using Hlen.
  intros Hn. pose proof (len_nonneg frame). unfold u64_add. change PKT with 4294967296 in *. change CTX with 1099511627776 in *.
  rewrite !Z.mod_small by lia. destruct (len frame <? n) eqn:En; bool_facts; [apply Z.ltb_lt|apply Z.ltb_ge]; lia.
Qed.

(** Up to the ethertype. *)
Lemma run_headers fuel :
  go (S (S (S (S (S fuel))))) start_regs 0 =
  go fuel (regs (u64_add PKT 42)) (pc_if (len frame <? 42) 23 5).
Proof using Hlen.
  do 4 (erewrite rounds_step by reflexivity).
  rewrite (rounds_step _ _ _ (regs (u64_add PKT 42)) (pc_if (len frame <? 42) 23 5)); [done|].
  rewrite <- again_if, <- data_end_test by lia. reflexivity.
Qed.

(** One packet load into [r4]. *)
Lemma load_step fuel x pc (a size v : Z) pc' :
  round_at (regs x) pc = (let* v := pkt_load frame (u64_add PKT a) size in Ok (Again (regs v, pc'))) ->
  pkt_load (E := E) frame (u64_add PKT a) size = Ok v -> go (S fuel) (regs x) pc = go fuel (regs v) pc'.
Proof. intros Hr Hv. apply rounds_step. by rewrite Hr, Hv. Qed.

Definition le_half (i : nat) : Z := byte_Z (frame !!! i) + 256 * byte_Z (frame !!! S i).

(** Little-endian halves against network-order constants. *)
Lemma half_test i v hi lo :
  0 <= hi < 256 -> 0 <= lo < 256 -> v = hi + 256 * lo -> (le_half i =? v) = (half frame i =? 256 * hi + lo).
Proof using.
  intros Hh Hl ->. unfold le_half, half. pose proof (byte_Z_range (frame !!! i)). pose proof (byte_Z_range (frame !!! S i)).
  apply eq_true_iff_eq. rewrite !Z.eqb_eq. lia.
Qed.

(** One conditional jump. *)
Lemma jump_step fuel x pc (b : bool) (t n : nat) :
  round_at (regs x) pc = (if b then Ok (Again (regs x, t)) else Ok (Again (regs x, n))) ->
  go (S fuel) (regs x) pc = go fuel (regs x) (pc_if b t n).
Proof. intros Hr. apply rounds_step. by rewrite Hr, again_if. Qed.

Lemma run_untagged fuel x :
  42 <= len frame -> go (S (S (S (S (S (S (S fuel))))))) (regs x) 15 =
  Ok (if byte_Z (frame !!! 23%nat) =? 17 then helper map_fd queue XDP_PASS else XDP_PASS).
Proof using Hlen.
  intros Hl. rewrite (load_step _ x 15 23 1 (byte_Z (frame !!! 23%nat)) 16).
  - apply run_udp_check.
  - reflexivity.
  - apply pkt_load_byte; lia.
Qed.

(** After the 802.1Q ethertype was seen. *)
Lemma run_tagged fuel x :
  go (14 + fuel) (regs x) 8 =
  Ok (if (46 <=? len frame) && (half frame 16 =? 0x0800) && (byte_Z (frame !!! 27%nat) =? 17)
      then helper map_fd queue XDP_PASS else XDP_PASS).
Proof using Hlen.
  cbn [Nat.add]. do 2 (erewrite rounds_step by reflexivity).
  change (go _ _ _) with (go (12 + fuel) (regs (u64_add PKT 46)) 10). cbn [Nat.add].
  rewrite (jump_step _ _ 10 (u64_add PKT (len frame) <? u64_add PKT 46) 23 11), data_end_test by (reflexivity || lia).
  rewrite Z.leb_antisym. destruct (len frame <? 46) eqn:E1; [apply run_pass|]. bool_facts. cbn [pc_if negb andb].
  rewrite (load_step _ _ 11 16 2 (le_half 16) 12) by (reflexivity || (apply (pkt_load_half 16); lia)).
  rewrite (jump_step _ _ 12 (negb (le_half 16 =? 8)) 23 13) by reflexivity.
  rewrite (half_test 16 8 8 0 ltac:(lia) ltac:(lia) eq_refl). change (256 * 8 + 0) with 0x0800.
  destruct (half frame 16 =? 0x0800); [|apply run_pass]. cbn [pc_if negb andb].
  rewrite (load_step _ _ 13 27 1 (byte_Z (frame !!! 27%nat)) 14) by (reflexivity || (apply (pkt_load_byte 27); lia)).
  erewrite rounds_step by reflexivity. apply run_udp_check.
Qed.

Lemma run_decoded fuel :
  go (22 + fuel) start_regs 0 = Ok (if redirects frame then helper map_fd queue XDP_PASS else XDP_PASS).
Proof using Hlen.
  cbn [Nat.add]. rewrite run_headers. unfold redirects.
  destruct (len frame <? 42) eqn:E1; [apply run_pass|]. bool_facts. cbn [pc_if].
  rewrite (load_step _ _ 5 12 2 (le_half 12) 6) by (reflexivity || (apply (pkt_load_half 12); lia)).
  rewrite (jump_step _ _ 6 (le_half 12 =? 8) 15 7) by reflexivity.
  rewrite (half_test 12 8 8 0 ltac:(lia) ltac:(lia) eq_refl). change (256 * 8 + 0) with 0x0800.
  destruct (half frame 12 =? 0x0800); cbn [pc_if]; [by apply run_untagged|].
  rewrite (jump_step _ _ 7 (negb (le_half 12 =? 0x81)) 23 8) by reflexivity.
  rewrite (half_test 12 0x81 0x81 0 ltac:(lia) ltac:(lia) eq_refl). change (256 * 0x81 + 0) with 0x8100.
  destruct (half frame 12 =? 0x8100); cbn [pc_if negb]; [|apply run_pass]. apply (run_tagged fuel).
Qed.
End run.

(** Everything [parse_udp] checks about the headers the program looks at. *)
Lemma lookup_total_drop {A} `{Inhabited A} (l : list A) n i : drop n l !!! i = l !!! (n + i)%nat.
Proof. by rewrite !list_lookup_total_alt, lookup_drop. Qed.

Lemma lookup_total_take {A} `{Inhabited A} (l : list A) n i : (i < n)%nat -> take n l !!! i = l !!! i.
Proof. intros. by rewrite !list_lookup_total_alt, lookup_take_lt. Qed.

Lemma chunk_facts {A} n (l a b : list A) :
  split_first_chunk n l = Some (a, b) -> a = take n l /\ b = drop n l /\ (n <= length l)%nat.
Proof. unfold split_first_chunk. destruct (n <=? length l)%nat eqn:E; intros; simplify_eq; bool_facts. done. Qed.

Lemma be16_half (l : list byte) i : be16 l i = half l i.
Proof. unfold be16, half, at_, from_be_bytes. cbn [be_acc]. lia. Qed.

Lemma half_take l n i : (S i < n)%nat -> half (take n l) i = half l i.
Proof. intros. unfold half. by rewrite !lookup_total_take by lia. Qed.

Lemma half_drop l n i : half (drop n l) i = half l (n + i).
Proof. unfold half. rewrite !lookup_total_drop. by replace (n + S i)%nat with (S (n + i)) by lia. Qed.

(** An IPv4 packet [parse_udp] goes on with carries UDP and has both headers. *)
Lemma parse_udp_headers frame port dip x :
  parse_udp frame port dip = Ok x ->
  exists l3 ip, parse_l2 frame = Ok (l3, ip) /\ byte_Z (ip !!! 9%nat) = 17 /\ 28 <= len ip.
Proof.
  unfold parse_udp. destruct (parse_l2 frame) as [[l3 ip]| |]; [|done..]. intros E. exists l3, ip. split; [done|].
  destruct (split_first_chunk 20 ip) as [[hdr rest]|] eqn:Eh; [|done]. cbn [ok_or] in E.
  apply chunk_facts in Eh as (-> & _ & Hl). destruct (negb (_ =? 4)); [done|].
  destruct (_ || _) eqn:E1 in E; [done|]. destruct (negb (Z.land _ FRAGMENT_BITS =? 0)); [done|].
  destruct (negb (_ =? IPPROTO_UDP)) eqn:E2; [done|]. unfold at_ in E2. rewrite lookup_total_take in E2 by lia.
  apply negb_false_iff, Z.eqb_eq in E2. split; [exact E2|]. apply orb_false_iff in E1 as [E1 _].
  destruct (get_range _ _ ip) as [seg|] eqn:Eg; [|done]. cbn [ok_or] in E.
  destruct (split_first_chunk 8 seg) as [[udp r2]|] eqn:Eu; [|done]. apply chunk_facts in Eu as (_ & _ & Hu).
  pose proof (get_range_length _ _ _ _ Eg) as Hsl. apply get_range_Some in Eg as (Hr1 & Hr2 & _).
  apply Z.ltb_ge in E1. unfold IPV4_HDR in E1. unfold len in *. lia.
Qed.

Lemma redirects_untagged frame :
  42 <= len frame -> half frame 12 = 0x0800 -> byte_Z (frame !!! 23%nat) = 17 -> redirects frame = true.
Proof.
  intros H1 H2 H3. unfold redirects. rewrite H2, H3. by rewrite (proj2 (Z.ltb_ge _ _)) by lia.
Qed.

Lemma redirects_tagged frame :
  46 <= len frame -> half frame 12 = 0x8100 -> half frame 16 = 0x0800 -> byte_Z (frame !!! 27%nat) = 17 ->
  redirects frame = true.
Proof.
  intros H1 H2 H3 H4. unfold redirects. rewrite H2, H3, H4. rewrite (proj2 (Z.ltb_ge _ _)) by lia.
  by rewrite (proj2 (Z.leb_le _ _)) by lia.
Qed.

(** ** Properties *)

(** C13: The bytes loaded into the kernel do what their documentation says, for every frame,
    queue, map and answer of the helper: the program never reads outside the frame or the
    context, ends within its 25 rounds, hands exactly the IPv4 UDP frames (untagged or under
    one 802.1Q tag, long enough for the three headers) to [bpf_redirect_map] with the
    socket map, the receive queue and [XDP_PASS] for a miss, and passes every other frame. *)
Theorem xdp_program_exact {E} frame queue helper map_fd :
  0 <= map_fd <= I32_MAX -> len frame < CTX - PKT ->
  run (E := E) frame queue helper (instructions map_fd) =
    Ok (if redirects frame then helper map_fd queue XDP_PASS else XDP_PASS).
Proof.
  intros Hfd Hl. unfold run. rewrite decode_instructions by done.
  exact (run_decoded frame queue helper map_fd Hl 3).
Qed.

(** A 42-byte IPv4 UDP frame. *)
Definition demo_frame : list byte :=
  replicate 12 Byte.xaa ++ [Byte.x08; Byte.x00; Byte.x45] ++ replicate 8 Byte.x00 ++ [Byte.x11] ++ replicate 18 Byte.x00.

Lemma xdp_program_exact_witness :
  run (E := DecapDrop) demo_frame 3 (fun _ _ _ => 4) (instructions 298) =
    Ok (if redirects demo_frame then 4 else XDP_PASS).
Proof. apply (xdp_program_exact demo_frame 3 (fun _ _ _ => 4) 298); [lia|vm_compute; reflexivity]. Defined.

(** C30: No datagram is lost to the kernel stack: every frame the decapsulator accepts, for any
    port and address filter, is one the program redirects. *)
Theorem xdp_covers_decap {E} frame port dip x queue helper map_fd :
  0 <= map_fd <= I32_MAX -> len frame < CTX - PKT -> parse_udp frame port dip = Ok x ->
  run (E := E) frame queue helper (instructions map_fd) = Ok (helper map_fd queue XDP_PASS).
Proof.
  intros Hfd Hl Hp. unfold run. rewrite decode_instructions by done.
  pose proof (run_decoded frame queue helper map_fd (E := E) Hl 3) as Hrun.
  destruct (parse_udp_headers _ _ _ _ Hp) as (l3 & ip & H2 & Hproto & Hlen).
  assert (Hr : redirects frame = true); [|by rewrite Hr in Hrun].
  unfold parse_l2 in H2. destruct (split_first_chunk 14 frame) as [[eth rest]|] eqn:E1; [|done]. cbn [ok_or] in H2.
  apply chunk_facts in E1 as (-> & -> & Hf). rewrite !be16_half, !half_take in H2 by lia.
  destruct (half frame 12 =? ETHERTYPE_IPV4) eqn:Et.
  - simplify_eq. rewrite lookup_total_drop in Hproto. apply Z.eqb_eq in Et.
    apply redirects_untagged; [|done|done]. unfold len in *. rewrite length_drop in Hlen. lia.
  - destruct (half frame 12 =? ETHERTYPE_VLAN) eqn:Ev; [|done]. apply Z.eqb_eq in Ev.
    destruct (split_first_chunk 4 (drop 14 frame)) as [[tag r]|] eqn:E2; [|done]. cbn [ok_or] in H2.
    apply chunk_facts in E2 as (-> & -> & Hg). rewrite !be16_half, half_take, half_drop in H2 by lia.
    destruct (negb _) eqn:Ei; [done|]. simplify_eq. apply negb_false_iff, Z.eqb_eq in Ei.
    rewrite drop_drop, lookup_total_drop in Hproto. apply redirects_tagged; [|done..].
    unfold len in *. rewrite !length_drop in Hlen. lia.
Qed.

Definition demo_datagram : list byte :=
  encode_frame {| macs := replicate 12 Byte.xaa; vlan := Some (Byte.x00, Byte.x05); words := 5; tos := Byte.x00;
    ident := (Byte.x00, Byte.x01); flags := 0; ttl := Byte.x40; csum := (Byte.x00, Byte.x00);
    src := (Byte.x0a, Byte.x00, Byte.x00, Byte.x01); dst := (Byte.xe8, Byte.x00, Byte.x00, Byte.x01); options := [];
    sport := 9; dport := 30001; ucsum := (Byte.x00, Byte.x00); payload := [Byte.x41]; Decap.tail := []; pad := [] |}.

Lemma xdp_covers_decap_witness :
  exists x, parse_udp demo_datagram 30001 None = Ok x /\
  run (E := DecapDrop) demo_datagram 3 (fun _ _ _ => 4) (instructions 298) = Ok 4.
Proof.
  eexists. split; [vm_compute; reflexivity|].
  eapply (xdp_covers_decap demo_datagram 30001 None _ 3 (fun _ _ _ => 4) 298); [lia|vm_compute; reflexivity|].
  vm_compute. reflexivity.
Defined.
