(* ===== verification/AfxdpOpen.v ===== *)
(** * transport-afxdp: opening and closing

    Models [XskDriver::open], [map_ring] and the option helpers of [driver.rs], the bpf maps,
    program load and link of [xdp/*.rs], and [AfxdpL2] of [lib.rs]: which system calls are made,
    with what arguments, what each failure becomes, and what is dropped on the way out. The
    system answers each call as it likes, given everything that happened before. *)

From S2P Require Import Prelude TransportCore Trace Pools Bypass AfxdpRing Afxdp XdpProgram.
From Stdlib Require Import ZArith Lia.
From stdpp Require Import prelude list strings gmultiset.

Open Scope Z_scope.
Open Scope res_scope.

(** ** System calls *)

(** [xdp_ring_offset] and, of [xdp_mmap_offsets], the two rings that are mapped. *)
Record RingOffset := { off_producer : Z; off_consumer : Z; off_flags : Z; off_desc : Z }.
Record MmapOffsets := { off_rx : RingOffset; off_fr : RingOffset }.

(** [MapInfo], the fields the code reads. *)
Record MapInfo := { info_type : Z; info_key_size : Z; info_value_size : Z; info_max_entries : Z }.

(** The calls, with the arguments that carry the configuration; attribute structs by their
    non-zero fields. *)
Inductive Call :=
  | IfNameToIndex (name : list byte)
  | SocketXdp
  | SetUmem (fd len chunk_size headroom : Z)
  | SetRing (fd name entries : Z)
  | GetMmapOffsets (fd : Z)
  | Mmap (fd len pgoff : Z)
  | BindXdp (fd flags ifindex queue : Z)
  | MapCreate (map_type key_size value_size max_entries : Z)
  | MapUpdateElem (map_fd key value flags : Z)
  | ProgLoad (prog_type : Z) (insns : list (list byte)) (log_level log_size : Z)
  | ObjGet (path : list byte)
  | ObjGetInfo (fd : Z)
  | LinkCreate (prog_fd ifindex attach_type flags : Z)
  | SocketGroup (v6 : bool)
  | JoinGroup (fd : Z) (group : IpAddr) (ifindex : Z).

(** What a call answers when it succeeds; [getsockopt] also gives the length it wrote. *)
Definition reply (c : Call) : Type :=
  match c with
  | IfNameToIndex _ | SocketXdp | Mmap _ _ _ | MapCreate _ _ _ _ | ProgLoad _ _ _ _ | ObjGet _
  | LinkCreate _ _ _ _ | SocketGroup _ => Z
  | GetMmapOffsets _ => MmapOffsets * Z
  | ObjGetInfo _ => MapInfo
  | _ => unit
  end.

(** What happens while a socket is opened: calls, the pool's region, and drops. *)
Inductive Event :=
  | Called (c : Call)
  | Reserved
  | Closed (fd : Z)
  | Unmapped (base len : Z)
  | Freed.

(** The system: the answer to each call after a history, the rings' memory as mapped. *)
Record Os (K : Type) := {
  answer : list Event -> forall c : Call, res io_Error (reply c);
  fill_at : Z -> Shared Z;
  rx_at : Z -> Shared xdp_desc;
  kernel_at : list Event -> K;
  big_endian : bool;
}.
Arguments answer {K}.
Arguments fill_at {K}.
Arguments rx_at {K}.
Arguments kernel_at {K}.
Arguments big_endian {K}.

Definition unavailable (reason : string) (error : option io_Error) : TransportError := Unavailable "afxdp" reason error.

Definition EPERM : Z := 1.
Definition ENOENT : Z := 2.
Definition E2BIG : Z := 7.
Definition EACCES : Z := 13.
Definition EEXIST : Z := 17.
Definition ENOTDIR : Z := 20.
Definition EAFNOSUPPORT : Z := 97.

(** [raw_os_error] is one of these. *)
Definition raw_in (e : io_Error) (codes : list Z) : bool :=
  match raw_os_error e with Some n => bool_decide (n ∈ codes) | None => false end.

Definition INVALID_DATA : io_Error := {| kind := InvalidData; raw_os_error := None |}.

(** [sys::error]. *)
Definition sys_error (stage : string) (error : io_Error) : TransportError :=
  if raw_in error [EPERM] then unavailable "needs CAP_BPF and CAP_NET_ADMIN" (Some error) else Io stage error.

(** [socket_error]. *)
Definition socket_error (error : io_Error) : TransportError :=
  if raw_in error [EPERM; EACCES] then unavailable "needs CAP_NET_RAW" (Some error)
  else if raw_in error [EAFNOSUPPORT] then unavailable "kernel built without AF_XDP" (Some error)
  else Io "socket(AF_XDP)" error.

Definition MAP_TYPE_XSKMAP : Z := 17.
Definition PROG_TYPE_XDP : Z := 6.
Definition ATTACH_XDP : Z := 37.
Definition NOEXIST : Z := 1.
Definition XDP_FLAGS_SKB_MODE : Z := Z.shiftl 1 1.
Definition XDP_FLAGS_DRV_MODE : Z := Z.shiftl 1 2.
Definition ENTRY : Z := 4.
Definition PATH_FIELD : string := "redirect.path".
Definition LOG_SIZE : Z := 64 * 1024.
Definition MMAP_STAGE : string := "mmap(XDP ring)".

(** libc's [XDP_*]: option names, page offsets, bind flags, [size_of::<xdp_mmap_offsets>]. *)
Definition XDP_RX_RING : Z := 2.
Definition XDP_UMEM_FILL_RING : Z := 5.
Definition XDP_UMEM_COMPLETION_RING : Z := 6.
Definition XDP_PGOFF_RX_RING : Z := 0.
Definition XDP_UMEM_PGOFF_FILL_RING : Z := 4294967296.
Definition XDP_COPY : Z := 2.
Definition XDP_ZEROCOPY : Z := 4.
Definition XDP_USE_NEED_WAKEUP : Z := 8.
Definition MMAP_OFFSETS_SIZE : Z := 128.

Definition RING_SIZES : list (Z * string) :=
  [(XDP_UMEM_FILL_RING, "setsockopt(XDP_UMEM_FILL_RING)");
   (XDP_UMEM_COMPLETION_RING, "setsockopt(XDP_UMEM_COMPLETION_RING)");
   (XDP_RX_RING, "setsockopt(XDP_RX_RING)")].

(** ** Operations *)

Section open.
Context {K : Type} (os : Os K).

(** A call and its answer. *)
Definition ask (c : Call) : Traced Event (res io_Error (reply c)) := fun h => (Ok (answer os h c), h ++ [Called c]).

(** A call whose failure is an error. *)
Definition call (c : Call) (wrap : io_Error -> TransportError) : Traced Event (reply c) :=
  r ← ask c; pure_step (map_err wrap r).

(** [bpf_fd]: the answer as a descriptor. *)
Definition to_fd (r : res io_Error Z) : res io_Error Z :=
  let* ret := r in if ret >? I32_MAX then Err INVALID_DATA else Ok ret.

(** [ifindex]. *)
Definition ifindex (name : list byte) : Traced Event Z :=
  if contains_nul name then pure_step (Err (InvalidConfig "ifname" "contains NUL byte"))
  else call (IfNameToIndex name) (Io "if_nametoindex").

(** *** [xdp/map.rs] *)

Definition map_create (entries : Z) : Traced Event Z :=
  r ← ask (MapCreate MAP_TYPE_XSKMAP ENTRY ENTRY entries);
  pure_step (map_err (sys_error "bpf(MAP_CREATE)") (to_fd r)).

(** [XskMap::info]. *)
Definition map_info (fd : Z) : Traced Event MapInfo := call (ObjGetInfo fd) (sys_error "bpf(OBJ_GET_INFO_BY_FD)").

(** [XskMap::open_pinned]. *)
Definition open_pinned (path : list byte) (queue : Z) : Traced Event Z :=
  if contains_nul path then pure_step (Err (InvalidConfig PATH_FIELD "contains NUL byte"))
  else
    r ← ask (ObjGet path);
    fd ← pure_step (map_err (fun error =>
           if raw_in error [ENOENT; ENOTDIR; EACCES]
           then InvalidConfig PATH_FIELD "no pinned object there, or access denied"
           else sys_error "bpf(OBJ_GET)" error) (to_fd r));
    scope (Closed fd)
      (info ← map_info fd;
       if negb (info_type info =? MAP_TYPE_XSKMAP) || negb (info_key_size info =? ENTRY)
          || negb (info_value_size info =? ENTRY)
       then pure_step (Err (InvalidConfig PATH_FIELD "not an XSKMAP with 4-byte key and value"))
       else if queue >=? info_max_entries info
       then pure_step (Err (InvalidConfig "queue" "beyond pinned XSKMAP size"))
       else mret fd).

(** [XskMap::insert]. *)
Definition map_insert (map queue xsk : Z) : Traced Event unit :=
  call (MapUpdateElem map queue xsk NOEXIST) (fun error =>
    if raw_in error [E2BIG] then InvalidConfig "queue" "beyond XSKMAP size"
    else if raw_in error [EEXIST] then unavailable "queue already served" (Some error)
    else sys_error "bpf(MAP_UPDATE_ELEM)" error).

(** *** [xdp/program.rs] and [xdp/link.rs] *)

(** [prog_load]; the verifier log is only read. *)
Definition prog_load (insns : list (list byte)) (log : bool) : Traced Event (res io_Error Z) :=
  r ← (if log then ask (ProgLoad PROG_TYPE_XDP insns 1 LOG_SIZE) else ask (ProgLoad PROG_TYPE_XDP insns 0 0));
  mret (to_fd r).

(** [load]: a second try, with the log, tells why the first failed. *)
Definition load (map : Z) : Traced Event Z :=
  if big_endian os then pure_step (Err (Unsupported "afxdp" "built-in XDP program on big-endian host"))
  else
    let insns := instructions map in
    r ← prog_load insns false;
    match r with
    | Ok fd => mret fd
    | Panic => pure_step Panic
    | Err first =>
        if raw_in first [EPERM] then pure_step (Err (sys_error "bpf(PROG_LOAD)" first))
        else
          r ← prog_load insns true;
          pure_step (map_err (fun _ => sys_error "bpf(PROG_LOAD)" first) r)
    end.

(** [XdpLink::attach]. *)
Definition attach (prog ifindex : Z) (mode : XdpMode) : Traced Event Z :=
  r ← ask (LinkCreate prog ifindex ATTACH_XDP match mode with Skb => XDP_FLAGS_SKB_MODE | Drv => XDP_FLAGS_DRV_MODE end);
  pure_step (map_err (fun error =>
    if raw_in error [EBUSY] then unavailable "an XDP program is already attached; use Pinned" (Some error)
    else sys_error "bpf(LINK_CREATE)" error) (to_fd r)).

(** [install]: the link in built-in mode, [None] in pinned mode. *)
Definition install (redirect : XdpRedirect) (ifindex queue xsk : Z) : Traced Event (option Z) :=
  match redirect with
  | Builtin mode =>
      map ← map_create (u32_wrapping_add queue 1);
      finally (Closed map)
        (_ ← map_insert map queue xsk;
         prog ← load map;
         finally (Closed prog) (link ← attach prog ifindex mode; mret (Some link)))
  | Pinned path =>
      map ← open_pinned path queue;
      _ ← finally (Closed map) (map_insert map queue xsk);
      mret None
  end.

(** *** [driver.rs] *)

(** A checked [usize] operation. *)
Definition is_multiple_of (n m : Z) : bool := n mod m =? 0.

(** The checks of [map_ring] over entries of so many bytes, alignment 8 for both rings: the
    length to map. *)
Definition ring_length (off : RingOffset) (entries size : Z) : res TransportError Z :=
  let bad := Io MMAP_STAGE INVALID_DATA in
  let word_ok w := is_multiple_of w 4 &&
    match checked_add U64_MAX w 4 with Some stop => stop <=? off_desc off | None => false end in
  if negb (word_ok (off_producer off) && word_ok (off_consumer off) && word_ok (off_flags off)
           && is_multiple_of (off_desc off) 8)
  then Err bad
  else ok_or (n ← checked_mul U64_MAX entries size; checked_add U64_MAX n (off_desc off)) bad.

(** [map_ring]: base and length of the mapping. *)
Definition map_ring (fd : Z) (off : RingOffset) (entries size pgoff : Z) : Traced Event (Z * Z) :=
  n ← pure_step (ring_length off entries size);
  base ← call (Mmap fd n pgoff) (Io MMAP_STAGE);
  if base =? 0 then pure_step (Err (Io MMAP_STAGE INVALID_DATA)) else mret (base, n).

(** [register_umem]; the product of two [u32] fits a [u64]. *)
Definition register_umem (fd : Z) (c : AfxdpConfig) : Traced Event unit :=
  call (SetUmem fd (cfg_frames c * cfg_frame_size c) (cfg_frame_size c) (headroom c)) (fun error =>
    if raw_in error [ENOBUFS] then unavailable "RLIMIT_MEMLOCK too low; grant CAP_IPC_LOCK" (Some error)
    else Io "setsockopt(XDP_UMEM_REG)" error).

(** [mmap_offsets]. *)
Definition mmap_offsets (fd : Z) : Traced Event MmapOffsets :=
  '(off, n) ← call (GetMmapOffsets fd) (Io "getsockopt(XDP_MMAP_OFFSETS)");
  if n <? MMAP_OFFSETS_SIZE then pure_step (Err (unavailable "kernel predates AF_XDP ring flags (5.4)" None))
  else mret off.

(** [bind] of [driver.rs]. *)
Definition bind_queue (fd : Z) (c : AfxdpConfig) (ifindex : Z) : Traced Event unit :=
  let copy := if zero_copy c then XDP_ZEROCOPY else XDP_COPY in
  call (BindXdp fd (Z.lor copy XDP_USE_NEED_WAKEUP) ifindex (cfg_queue c)) (fun error =>
    if raw_in error [EBUSY] then unavailable "queue busy or previous socket still releasing" (Some error)
    else Io "bind(AF_XDP)" error).

(** [XskDriver] with what it owns besides the driver's state of [Afxdp]. *)
Record Opened := {
  link : option Z;
  driver : XskDriver K;
  fill_map : Z * Z;
  rx_map : Z * Z;
  socket : Z;
}.

(** [IndexPool::new]; its region counts from here. *)
Definition reserve (alloc : Z -> bool) (count stride : Z) : Traced Event IndexPool.t := fun h =>
  match IndexPool.new alloc count stride with
  | Ok p => (Ok p, h ++ [Reserved])
  | Err e => (Err e, h)
  | Panic => (Panic, h)
  end.

(** The kernel behind the socket, once all is set up. *)
Definition kernel_now : Traced Event K := fun h => (Ok (kernel_at os h), h).

(** The driver over its mapped rings, every frame handed to the kernel. *)
Definition build (c : AfxdpConfig) (pool : IndexPool.t) (fill_base rx_base : Z) (k : K) : XskDriver K :=
  let fill := fill_at os fill_base in
  let rx := rx_at os rx_base in
  let '(r, p, fill) := Rings.refill (Rings.new fill rx (cfg_frames c) (cfg_frame_size c)) pool fill in
  Xsk r fill rx k p 0 {| rx_dropped := 0; rx_ring_full := 0 |}.

(** [XskDriver::open]. *)
Definition xsk_open (alloc : Z -> bool) (c : AfxdpConfig) (ifindex : Z) : Traced Event Opened :=
  pool ← reserve alloc (cfg_frames c) (cfg_frame_size c);
  scope Freed
    (socket ← call SocketXdp socket_error;
     scope (Closed socket)
       (_ ← register_umem socket c;
        _ ← each (fun '(name, stage) => call (SetRing socket name (cfg_frames c)) (Io stage)) RING_SIZES;
        off ← mmap_offsets socket;
        fill ← map_ring socket (off_fr off) (cfg_frames c) 8 XDP_UMEM_PGOFF_FILL_RING;
        scope (Unmapped fill.1 fill.2)
          (rx ← map_ring socket (off_rx off) (cfg_frames c) 16 XDP_PGOFF_RX_RING;
           scope (Unmapped rx.1 rx.2)
             (_ ← bind_queue socket c ifindex;
              link ← install (redirect c) ifindex (cfg_queue c) socket;
              k ← kernel_now;
              mret {| link := link; driver := build c pool fill.1 rx.1 k; fill_map := fill; rx_map := rx;
                      socket := socket |})))).

(** Dropping the driver: its fields in declared order. *)
Definition drop_events (o : Opened) : list Event :=
  match link o with Some fd => [Closed fd] | None => [] end ++
  [Unmapped (fill_map o).1 (fill_map o).2; Unmapped (rx_map o).1 (rx_map o).2; Closed (socket o); Freed].

(** *** [lib.rs] *)

(** [AfxdpL2]; the driver inside its [BypassTransport]. *)
Record AfxdpL2 := { rx : Opened; l2_ifindex : Z; group_v4 : option Z; group_v6 : option Z }.

(** [AfxdpL2::bind]. *)
Definition l2_bind (alloc : Z -> bool) (c : AfxdpConfig) : Traced Event AfxdpL2 :=
  _ ← pure_step (validate_afxdp c);
  index ← ifindex (ifname c);
  o ← xsk_open alloc c index;
  mret {| rx := o; l2_ifindex := index; group_v4 := None; group_v6 := None |}.

(** [group_socket]: the socket of a slot, opened on first use. *)
Definition group_socket (slot : option Z) (v6 : bool) : Traced Event Z :=
  match slot with
  | Some sock => mret sock
  | None => call (SocketGroup v6) (Io "socket(multicast)")
  end.

(** [<AfxdpL2 as Multicast>::join_multicast]: a join that fails keeps the socket it opened. *)
Definition l2_join (l : AfxdpL2) (group : IpAddr) (iface : MulticastInterface) (h : list Event)
    : res TransportError unit * AfxdpL2 * list Event :=
  if negb (bool_decide (v4 iface = None)) || negb (bool_decide (v6_scope_id iface = None))
  then (Err (InvalidConfig "iface" "AF_XDP joins on its bound interface only"), l, h)
  else
    let is_v6 := match group with V4 _ => false | V6 _ => true end in
    match group_socket (if is_v6 then group_v6 l else group_v4 l) is_v6 h with
    | (Ok sock, h) =>
        let l := {| rx := rx l; l2_ifindex := l2_ifindex l;
                    group_v4 := if is_v6 then group_v4 l else Some sock;
                    group_v6 := if is_v6 then Some sock else group_v6 l |} in
        let '(r, h) := call (JoinGroup sock group (l2_ifindex l)) (Io "join_multicast") h in (r, l, h)
    | (Err e, h) => (Err e, l, h)
    | (Panic, h) => (Panic, l, h)
    end.
End open.

(** ** What is held *)

(** A descriptor, a mapping, the pool's region. *)
Inductive Res := RFd (fd : Z) | RMap (base len : Z) | RRegion.

#[export] Instance Res_eq_dec : EqDecision Res.
Proof. solve_decision. Defined.

#[export] Instance Res_countable : Countable Res.
Proof.
  apply (inj_countable' (fun x => match x with RFd fd => inl fd | RMap b n => inr (Some (b, n)) | RRegion => inr None end)
           (fun x => match x with inl fd => RFd fd | inr (Some (b, n)) => RMap b n | inr None => RRegion end)).
  by intros [].
Defined.

Section held.
Context {K : Type} (os : Os K).
Implicit Types (h evs : list Event) (held l : gmultiset Res) (cs : list Call).

Definition fd_of (r : res io_Error Z) : gmultiset Res := match r with Ok fd => {[+ RFd fd +]} | _ => ∅ end.

(** What a call made after [h] gives the process to own. *)
Definition acquired h (c : Call) : gmultiset Res :=
  match c as c return res io_Error (reply c) -> gmultiset Res with
  | SocketXdp | SocketGroup _ => fd_of
  | MapCreate _ _ _ _ | ProgLoad _ _ _ _ | ObjGet _ | LinkCreate _ _ _ _ => fun r => fd_of (to_fd r)
  | Mmap _ n _ => fun r => match r with Ok base => if base =? 0 then ∅ else {[+ RMap base n +]} | _ => ∅ end
  | _ => fun _ => ∅
  end (answer os h c).

(** The resource a drop gives back. *)
Definition dropped (e : Event) : option Res :=
  match e with
  | Closed fd => Some (RFd fd)
  | Unmapped b n => Some (RMap b n)
  | Freed => Some RRegion
  | _ => None
  end.

(** The resources held after [evs]; [None] when something not held is dropped. *)
Fixpoint replay h evs held : option (gmultiset Res) :=
  match evs with
  | [] => Some held
  | e :: evs =>
      match e with
      | Called c => replay (h ++ [e]) evs (acquired h c ⊎ held)
      | Reserved => replay (h ++ [e]) evs ({[+ RRegion +]} ⊎ held)
      | _ => match dropped e with
             | Some x => if decide (x ∈ held) then replay (h ++ [e]) evs (held ∖ {[+ x +]}) else None
             | None => None
             end
      end
  end.

Definition calls evs : list Call := omap (fun e => match e with Called c => Some c | _ => None end) evs.

Lemma replay_app h a b held : replay h (a ++ b) held = replay h a held ≫= replay (h ++ a) b.
Proof using.
  revert h held. induction a as [|e a IH]; intros h held; [by rewrite app_nil_r|]. cbn [app replay].
  rewrite (cons_middle e h a), (app_assoc h [e] a). destruct e; cbn [dropped]; repeat case_decide; try done; apply IH.
Qed.

(** [m] drops what it acquired when it fails; when it succeeds, [P] of its result, of what it
    leaves held, and of the calls it made. *)
Definition keeps {A} (m : Traced Event A) (P : A -> gmultiset Res -> list Call -> Prop) : Prop :=
  forall h held, let '(r, h') := m h in exists evs, h' = h ++ evs /\
    match r with
    | Ok a => exists l, P a l (calls evs) /\ replay h evs held = Some (l ⊎ held)
    | _ => replay h evs held = Some held
    end.

Lemma keeps_pure {A} (r : res TransportError A) (P : A -> gmultiset Res -> list Call -> Prop) :
  (forall a, r = Ok a -> P a ∅ []) -> keeps (pure_step r) P.
Proof using.
  intros Hr h held. cbn [pure_step]. unfold pure_step. exists []. rewrite app_nil_r. split; [done|]. destruct r; [|done..]. exists ∅.
  split; [by apply Hr|]. cbn [replay]. f_equal. multiset_solver.
Qed.

Lemma keeps_ret {A} (a : A) (P : A -> gmultiset Res -> list Call -> Prop) : P a ∅ [] -> keeps (mret a) P.
Proof using. intros Ha. apply (keeps_pure (Ok a)). by intros ? [= <-]. Qed.

Lemma keeps_weaken {A} (m : Traced Event A) (P Q : A -> gmultiset Res -> list Call -> Prop) :
  keeps m P -> (forall a l cs, P a l cs -> Q a l cs) -> keeps m Q.
Proof using.
  intros Hm Hw h held. specialize (Hm h held). destruct (m h) as [[a|e|] h'];
    destruct Hm as (evs & -> & Hm); exists evs; (split; [done|]); [|done..]. destruct Hm as (l & Hp & E). eauto.
Qed.

(** After a step that leaves nothing held, the next may fail. *)
Lemma keeps_bind {A B} (m : Traced Event A) (k : A -> Traced Event B) Q P :
  keeps m Q -> (forall a l cs, Q a l cs -> l = ∅ /\ keeps (k a) (fun b l' cs' => P b l' (cs ++ cs'))) ->
  keeps (m ≫= k) P.
Proof using.
  intros Hm Hk h held. specialize (Hm h held). unfold mbind, Traced_bind. destruct (m h) as [[a|e|] h1];
    destruct Hm as (evs & -> & Hm); [|by exists evs..]. destruct Hm as (l & Hq & E).
  destruct (Hk a l _ Hq) as [-> Hk']. specialize (Hk' (h ++ evs) held).
  replace (∅ ⊎ held) with held in E by multiset_solver.
  destruct (k a (h ++ evs)) as [[b|e|] h2]; destruct Hk' as (evs' & -> & Hk'); exists (evs ++ evs');
    rewrite app_assoc; (split; [done|]); rewrite replay_app, E; [|exact Hk'..].
  destruct Hk' as (l' & Hp & E'). exists l'. unfold calls. rewrite omap_app. done.
Qed.

Lemma replay_drop h e x held : dropped e = Some x -> replay h [e] ({[+ x +]} ⊎ held) = Some held.
Proof using.
  intros He. cbn [replay]. destruct e; simplify_eq/=; rewrite decide_True by multiset_solver; f_equal; multiset_solver.
Qed.

(** A value that is dropped if what follows fails. *)
Lemma keeps_scope {A B} (m : Traced Event A) (e : A -> Event) (k : A -> Traced Event B) Q P :
  keeps m Q ->
  (forall a l cs, Q a l cs -> exists x, l = {[+ x +]} /\ dropped (e a) = Some x /\
     keeps (k a) (fun b l' cs' => P b (l' ⊎ {[+ x +]}) (cs ++ cs'))) ->
  keeps (m ≫= fun a => scope (e a) (k a)) P.
Proof using.
  intros Hm Hk h held. specialize (Hm h held). unfold mbind, Traced_bind, scope. destruct (m h) as [[a|er|] h1];
    destruct Hm as (evs & -> & Hm); [|by exists evs..]. destruct Hm as (l & Hq & E).
  destruct (Hk a l _ Hq) as (x & -> & Hx & Hk'). specialize (Hk' (h ++ evs) ({[+ x +]} ⊎ held)).
  destruct (k a (h ++ evs)) as [[b|er|] h2]; destruct Hk' as (evs' & -> & Hk').
  - exists (evs ++ evs'). rewrite app_assoc. split; [done|]. rewrite replay_app, E. destruct Hk' as (l' & Hp & E').
    exists (l' ⊎ {[+ x +]}). unfold calls. rewrite omap_app. split; [done|]. etransitivity; [exact E'|]. f_equal. multiset_solver.
  - exists (evs ++ evs' ++ [e a]). rewrite !app_assoc. split; [done|]. rewrite !replay_app, E. cbn [mbind option_bind].
    rewrite Hk'. cbn [mbind option_bind]. by apply replay_drop.
  - exists (evs ++ evs' ++ [e a]). rewrite !app_assoc. split; [done|]. rewrite !replay_app, E. cbn [mbind option_bind].
    rewrite Hk'. cbn [mbind option_bind]. by apply replay_drop.
Qed.

Lemma calls_drop evs e x : dropped e = Some x -> calls (evs ++ [e]) = calls evs.
Proof using. intros He. unfold calls. rewrite omap_app. destruct e; simplify_eq/=; by rewrite app_nil_r. Qed.

(** A value dropped whatever follows. *)
Lemma keeps_finally {A B} (m : Traced Event A) (e : A -> Event) (k : A -> Traced Event B) Q P :
  keeps m Q ->
  (forall a l cs, Q a l cs -> exists x, l = {[+ x +]} /\ dropped (e a) = Some x /\
     keeps (k a) (fun b l' cs' => P b l' (cs ++ cs'))) ->
  keeps (m ≫= fun a => finally (e a) (k a)) P.
Proof using.
  intros Hm Hk h held. specialize (Hm h held). unfold mbind, Traced_bind, finally. destruct (m h) as [[a|er|] h1];
    destruct Hm as (evs & -> & Hm); [|by exists evs..]. destruct Hm as (l & Hq & E).
  destruct (Hk a l _ Hq) as (x & -> & Hx & Hk'). specialize (Hk' (h ++ evs) ({[+ x +]} ⊎ held)).
  destruct (k a (h ++ evs)) as [r h2]. destruct Hk' as (evs' & -> & Hk'). exists (evs ++ evs' ++ [e a]).
  rewrite !app_assoc. split; [done|].
  destruct r as [b|er|]; [destruct Hk' as (l' & Hp & E'); exists l'; split|..].
  - erewrite calls_drop by done. unfold calls in *. by rewrite omap_app.
  - rewrite !replay_app, E. cbn [mbind option_bind]. rewrite E'. cbn [mbind option_bind].
    replace (l' ⊎ ({[+ x +]} ⊎ held)) with ({[+ x +]} ⊎ (l' ⊎ held)) by multiset_solver. by apply replay_drop.
  - rewrite !replay_app, E. cbn [mbind option_bind]. rewrite Hk'. cbn [mbind option_bind]. by apply replay_drop.
  - rewrite !replay_app, E. cbn [mbind option_bind]. rewrite Hk'. cbn [mbind option_bind]. by apply replay_drop.
Qed.
Lemma keeps_same {A} (m n : Traced Event A) P : same m n -> keeps n P -> keeps m P.
Proof using. intros Hs Hn h held. rewrite Hs. apply Hn. Qed.

(** One call, and what its answer becomes. *)
Lemma keeps_ask {B} c (k : res io_Error (reply c) -> res TransportError B) (P : B -> gmultiset Res -> list Call -> Prop) :
  (forall h, match k (answer os h c) with Ok b => P b (acquired h c) [c] | _ => acquired h c = ∅ end) ->
  keeps (r ← ask os c; pure_step (k r)) P.
Proof using.
  intros Hk h held. specialize (Hk h). unfold mbind, Traced_bind, ask, pure_step. exists [Called c]. cbn [replay].
  destruct (k (answer os h c)) as [b|e|]; split; try done.
  - exists (acquired h c). done.
  - rewrite Hk. f_equal. multiset_solver.
  - rewrite Hk. f_equal. multiset_solver.
Qed.

Lemma keeps_call c wrap (P : reply c -> gmultiset Res -> list Call -> Prop) :
  (forall h, acquired h c = ∅) -> (forall a, P a ∅ [c]) -> keeps (call os c wrap) P.
Proof using. intros Ha HP. apply keeps_ask. intros h. rewrite Ha. destruct (answer os h c); cbn [map_err]; done. Qed.

(** A call that gives nothing to own. *)
Lemma keeps_quiet c wrap : (forall h, acquired h c = ∅) -> keeps (call os c wrap) (fun _ l cs => l = ∅ /\ cs = [c]).
Proof using. intros Ha. by apply keeps_call. Qed.

End held.

(** ** Each step *)

(** The next call of a sequence gives nothing to own. *)
Ltac quiet_call :=
  lazymatch goal with
  | |- keeps ?os (mbind _ (call _ ?c ?wrap)) _ =>
      apply (keeps_bind os (call os c wrap) _ (fun _ l cs => l = ∅ /\ cs = [c])); [by apply keeps_quiet|];
      intros ? ? ? [-> ->]; split; [done|]
  end.

Section steps.
Context {K : Type} (os : Os K).
Implicit Types (h evs : list Event) (l : gmultiset Res) (cs : list Call).

(** [r] as a descriptor, or an error. *)
Definition an_fd (P : Z -> list Call -> Prop) (fd : Z) l cs : Prop := l = {[+ RFd fd +]} /\ P fd cs.

Lemma fd_answer (r : res io_Error Z) (c : Call) (f : io_Error -> TransportError) (P : Z -> list Call -> Prop) :
  (forall fd, P fd [c]) ->
  match map_err f (to_fd r) with Ok b => an_fd P b (fd_of (to_fd r)) [c] | _ => fd_of (to_fd r) = ∅ end.
Proof using. intros HP. unfold to_fd. destruct r as [fd|e|]; try done. cbn. by destruct (fd >? I32_MAX). Qed.

Lemma socket_keeps : keeps os (call os SocketXdp socket_error) (an_fd (fun _ cs => cs = [SocketXdp])).
Proof using. apply (keeps_ask os SocketXdp). intros h. cbn [acquired]. by destruct (answer os h SocketXdp). Qed.

Lemma map_create_keeps n : keeps os (map_create os n) (an_fd (fun _ cs => cs = [MapCreate MAP_TYPE_XSKMAP ENTRY ENTRY n])).
Proof using.
  apply (keeps_ask os (MapCreate MAP_TYPE_XSKMAP ENTRY ENTRY n)). intros h.
  by apply (fd_answer _ (MapCreate MAP_TYPE_XSKMAP ENTRY ENTRY n) _ (fun _ cs => cs = _)).
Qed.

Definition xdp_flags (mode : XdpMode) : Z := match mode with Skb => XDP_FLAGS_SKB_MODE | Drv => XDP_FLAGS_DRV_MODE end.

Lemma attach_keeps prog index mode :
  keeps os (attach os prog index mode) (an_fd (fun _ cs => cs = [LinkCreate prog index ATTACH_XDP (xdp_flags mode)])).
Proof using.
  apply (keeps_ask os (LinkCreate prog index ATTACH_XDP (xdp_flags mode))). intros h.
  by apply (fd_answer _ (LinkCreate prog index ATTACH_XDP (xdp_flags mode)) _ (fun _ cs => cs = _)).
Qed.

Lemma map_insert_keeps map queue xsk :
  keeps os (map_insert os map queue xsk) (fun _ l cs => l = ∅ /\ cs = [MapUpdateElem map queue xsk NOEXIST]).
Proof using. by apply (keeps_quiet os (MapUpdateElem map queue xsk NOEXIST)). Qed.

(** The program of [XdpProgram], over the map, once or with the log again. *)
Definition loads (map : Z) cs : Prop :=
  let first := ProgLoad PROG_TYPE_XDP (instructions map) 0 0 in
  cs = [first] \/ cs = [first; ProgLoad PROG_TYPE_XDP (instructions map) 1 LOG_SIZE].

Lemma load_keeps map : keeps os (load os map) (an_fd (fun _ cs => loads map cs /\ big_endian os = false)).
Proof using.
  unfold load. destruct (big_endian os) eqn:Eb; [by apply keeps_pure|]. intros h held.
  unfold mbind, Traced_bind, prog_load, mbind, Traced_bind, ask, pure_step, mret, Traced_ret.
  set (c1 := ProgLoad PROG_TYPE_XDP (instructions map) 0 0). set (c2 := ProgLoad PROG_TYPE_XDP (instructions map) 1 LOG_SIZE).
  assert (H1 : acquired os h c1 = fd_of (to_fd (answer os h c1))) by done.
  assert (H2 : acquired os (h ++ [Called c1]) c2 = fd_of (to_fd (answer os (h ++ [Called c1]) c2))) by done.
  destruct (to_fd (answer os h c1)) as [fd|first|] eqn:E1.
  - exists [Called c1]. split; [done|]. exists {[+ RFd fd +]}. cbn [replay calls]. rewrite H1. split; [|done]. split; [done|].
    split; [by left|done].
  - destruct (raw_in first [EPERM]).
    { exists [Called c1]. split; [done|]. cbn [replay]. rewrite H1. f_equal. cbn [fd_of]. multiset_solver. }
    exists [Called c1; Called c2]. rewrite <- app_assoc. cbn [replay]. rewrite H1, H2.
    destruct (to_fd (answer os (h ++ [Called c1]) c2)) as [fd|e|]; cbn [map_err fd_of]; (split; [done|]).
    + exists {[+ RFd fd +]}. split; [|f_equal; multiset_solver]. split; [done|]. split; [by right|done].
    + f_equal. multiset_solver.
    + f_equal. multiset_solver.
  - exists [Called c1]. split; [done|]. cbn [replay]. rewrite H1. f_equal. cbn [fd_of]. multiset_solver.
Qed.

Lemma open_pinned_keeps path queue :
  keeps os (open_pinned os path queue) (an_fd (fun fd cs => cs = [ObjGet path; ObjGetInfo fd])).
Proof using.
  unfold open_pinned. destruct (contains_nul path); [by apply keeps_pure|].
  eapply keeps_same; [intros log; symmetry; apply bind_assoc|].
  eapply (keeps_scope os _ Closed); [apply (keeps_ask os (ObjGet path)); intros h; by apply (fd_answer _ _ _ (fun _ cs => cs = [ObjGet path]))|].
  intros fd l cs [-> ->]. exists (RFd fd). split_and!; [done|done|].
  unfold map_info. quiet_call. destruct (_ || _); [by apply keeps_pure|]. destruct (_ >=? _); [by apply keeps_pure|].
  apply keeps_ret. split; [multiset_solver|done].
Qed.
End steps.

(** ** The whole *)

Section whole.
Context {K : Type} (os : Os K).
Implicit Types (h evs : list Event) (l : gmultiset Res) (cs : list Call).

(** The calls of a successful [install]. *)
Definition installed (redirect : XdpRedirect) (index queue xsk : Z) (link : option Z) cs : Prop :=
  match redirect with
  | Builtin mode => exists map prog tries fd, link = Some fd /\ big_endian os = false /\ loads map tries /\
      cs = [MapCreate MAP_TYPE_XSKMAP ENTRY ENTRY (u32_wrapping_add queue 1); MapUpdateElem map queue xsk NOEXIST] ++
           tries ++ [LinkCreate prog index ATTACH_XDP (xdp_flags mode)]
  | Pinned path => exists map, link = None /\ cs = [ObjGet path; ObjGetInfo map; MapUpdateElem map queue xsk NOEXIST]
  end.

Definition link_held (link : option Z) : gmultiset Res := match link with Some fd => {[+ RFd fd +]} | None => ∅ end.

Lemma install_keeps redirect index queue xsk :
  keeps os (install os redirect index queue xsk)
    (fun link l cs => l = link_held link /\ installed redirect index queue xsk link cs).
Proof using.
  destruct redirect as [mode|path]; cbn [install].
  - eapply (keeps_finally os _ Closed); [apply map_create_keeps|]. intros map l cs [-> ->]. exists (RFd map). split_and!; [done|done|].
    eapply keeps_bind; [apply map_insert_keeps|]. intros [] l cs [-> ->]. split; [done|].
    eapply (keeps_finally os _ Closed); [apply load_keeps|]. intros prog l tries (-> & Ht & Hb). exists (RFd prog). split_and!; [done|done|].
    intros h held. pose proof (attach_keeps os prog index mode h held) as Ha. unfold mbind, Traced_bind.
    destruct (attach os prog index mode h) as [[fd|e|] h']; destruct Ha as (evs & -> & Ha); exists evs; (split; [done|]); [|done..].
    destruct Ha as (l & [-> Hc] & E). exists {[+ RFd fd +]}. split; [|done]. split; [done|]. rewrite Hc.
    exists map, prog, tries, fd. by split_and!.
  - intros h held. cbn beta. revert h held. change (keeps os (map ← open_pinned os path queue;
      _ ← finally (Closed map) (map_insert os map queue xsk); mret None)
      (fun link l cs => l = link_held link /\ installed (Pinned path) index queue xsk link cs)).
    eapply keeps_same; [intros log; symmetry; apply bind_assoc|].
    eapply (keeps_bind os _ _ (fun _ l cs => l = ∅ /\ exists map, cs = [ObjGet path; ObjGetInfo map; MapUpdateElem map queue xsk NOEXIST])).
    + eapply (keeps_finally os _ Closed); [apply open_pinned_keeps|]. intros map l cs [-> ->]. exists (RFd map). split_and!; [done|done|].
      eapply keeps_weaken; [apply map_insert_keeps|]. intros [] l cs [-> ->]. split; [done|]. by exists map.
    + intros [] l cs [-> [map ->]]. split; [done|]. apply keeps_ret. split; [done|]. by exists map.
Qed.

(** A mapping of the length its offsets ask for. *)
Lemma map_ring_keeps fd off entries size pgoff :
  keeps os (map_ring os fd off entries size pgoff)
    (fun m l cs => l = {[+ RMap m.1 m.2 +]} /\ ring_length off entries size = Ok m.2 /\ cs = [Mmap fd m.2 pgoff]).
Proof using.
  unfold map_ring. eapply (keeps_bind os _ _ (fun n l cs => l = ∅ /\ cs = [] /\ ring_length off entries size = Ok n));
    [by apply keeps_pure|]. intros n l cs (-> & -> & Hn). split; [done|].
  eapply keeps_same with (n := r ← ask os (Mmap fd n pgoff);
    pure_step (let* base := map_err (Io MMAP_STAGE) r in
      if base =? 0 then Err (Io MMAP_STAGE INVALID_DATA) else Ok (base, n))).
  { intros log. unfold call, mbind, Traced_bind, ask, pure_step. destruct (answer os log (Mmap fd n pgoff)); [|done..].
    cbn. by destruct (_ =? 0). }
  apply (keeps_ask os (Mmap fd n pgoff)). intros h. cbn [acquired]. destruct (answer os h (Mmap fd n pgoff)) as [base|e|]; [|done..].
  cbn. by destruct (base =? 0).
Qed.

(** What an open driver holds. *)
Definition resources (o : Opened (K := K)) : gmultiset Res :=
  link_held (link o) ⊎ {[+ RMap (rx_map o).1 (rx_map o).2; RMap (fill_map o).1 (fill_map o).2; RFd (socket o); RRegion +]}.

(** The calls of a successful [open], and how the driver comes out of its answers. *)
Definition opened (alloc : Z -> bool) (c : AfxdpConfig) (index : Z) (o : Opened (K := K)) cs : Prop :=
  exists pool off past inst,
    IndexPool.new alloc (cfg_frames c) (cfg_frame_size c) = Ok pool /\
    ring_length (off_fr off) (cfg_frames c) 8 = Ok (fill_map o).2 /\
    ring_length (off_rx off) (cfg_frames c) 16 = Ok (rx_map o).2 /\
    driver o = build os c pool (fill_map o).1 (rx_map o).1 (kernel_at os past) /\
    installed (redirect c) index (cfg_queue c) (socket o) (link o) inst /\
    cs = [SocketXdp;
          SetUmem (socket o) (cfg_frames c * cfg_frame_size c) (cfg_frame_size c) (headroom c);
          SetRing (socket o) XDP_UMEM_FILL_RING (cfg_frames c);
          SetRing (socket o) XDP_UMEM_COMPLETION_RING (cfg_frames c);
          SetRing (socket o) XDP_RX_RING (cfg_frames c);
          GetMmapOffsets (socket o);
          Mmap (socket o) (fill_map o).2 XDP_UMEM_PGOFF_FILL_RING;
          Mmap (socket o) (rx_map o).2 XDP_PGOFF_RX_RING;
          BindXdp (socket o) (Z.lor (if zero_copy c then XDP_ZEROCOPY else XDP_COPY) XDP_USE_NEED_WAKEUP) index (cfg_queue c)]
         ++ inst.

Lemma mmap_offsets_keeps fd : keeps os (mmap_offsets os fd) (fun _ l cs => l = ∅ /\ cs = [GetMmapOffsets fd]).
Proof using.
  unfold mmap_offsets. apply (keeps_bind os (call os (GetMmapOffsets fd) _) _ (fun _ l cs => l = ∅ /\ cs = [GetMmapOffsets fd]));
    [by apply keeps_quiet|]. intros [off n] l cs [-> ->]. split; [done|]. destruct (n <? _); [by apply keeps_pure|by apply keeps_ret].
Qed.

Lemma ring_sizes_keeps fd n :
  keeps os (each (fun '(name, stage) => call os (SetRing fd name n) (Io stage)) RING_SIZES)
    (fun _ l cs => l = ∅ /\ cs = [SetRing fd XDP_UMEM_FILL_RING n; SetRing fd XDP_UMEM_COMPLETION_RING n; SetRing fd XDP_RX_RING n]).
Proof using.
  cbn [each RING_SIZES]. do 3 quiet_call. by apply keeps_ret.
Qed.

Lemma reserve_keeps alloc n size :
  keeps os (reserve alloc n size) (fun p l cs => l = {[+ RRegion +]} /\ cs = [] /\ IndexPool.new alloc n size = Ok p).
Proof using.
  intros h held. unfold reserve. destruct (IndexPool.new alloc n size) as [p|e|].
  - exists [Reserved]. split; [done|]. by exists {[+ RRegion +]}.
  - exists []. by rewrite app_nil_r.
  - exists []. by rewrite app_nil_r.
Qed.

Lemma xsk_open_keeps alloc c index :
  keeps os (xsk_open os alloc c index) (fun o l cs => l = resources o /\ opened alloc c index o cs).
Proof using.
  unfold xsk_open. eapply (keeps_scope os _ (fun _ => Freed)); [apply reserve_keeps|]. intros pool l cs (-> & -> & Hp).
  exists RRegion. split_and!; [done|done|].
  eapply (keeps_scope os _ Closed); [apply socket_keeps|]. intros sock l cs [-> ->]. exists (RFd sock). split_and!; [done|done|].
  unfold register_umem. quiet_call.
  eapply keeps_bind; [apply ring_sizes_keeps|]. intros [] l cs [-> ->]. split; [done|].
  eapply keeps_bind; [apply mmap_offsets_keeps|]. intros off l cs [-> ->]. split; [done|].
  eapply (keeps_scope os _ (fun m => Unmapped m.1 m.2)); [apply map_ring_keeps|]. intros fill l cs (-> & Hf & ->).
  exists (RMap fill.1 fill.2). split_and!; [done|done|].
  eapply (keeps_scope os _ (fun m => Unmapped m.1 m.2)); [apply map_ring_keeps|]. intros rx l cs (-> & Hr & ->).
  exists (RMap rx.1 rx.2). split_and!; [done|done|].
  unfold bind_queue. quiet_call.
  intros h held. pose proof (install_keeps (redirect c) index (cfg_queue c) sock h held) as Hi. unfold mbind, Traced_bind.
  destruct (install os _ index _ sock h) as [[lk|e|] h']; destruct Hi as (evs & -> & Hi); exists evs; (split; [done|]); [|done..].
  destruct Hi as (l & [-> Hi] & E). exists (link_held lk). split; [|done]. split; [unfold resources; cbn [link rx_map fill_map socket]; multiset_solver|].
  exists pool, off, (h ++ evs), (calls evs). by split_and!.
Qed.

Lemma ifindex_keeps name : keeps os (ifindex os name) (fun _ l cs => l = ∅ /\ cs = [IfNameToIndex name]).
Proof using.
  unfold ifindex. destruct (contains_nul name); [by apply keeps_pure|].
  by apply (keeps_quiet os (IfNameToIndex name)).
Qed.

Lemma l2_bind_keeps alloc c :
  keeps os (l2_bind os alloc c) (fun b l cs => l = resources (rx b) /\ validate_afxdp c = Ok tt /\
    exists cs', cs = IfNameToIndex (ifname c) :: cs' /\ opened alloc c (l2_ifindex b) (rx b) cs').
Proof using.
  unfold l2_bind. eapply (keeps_bind os _ _ (fun _ l cs => l = ∅ /\ cs = [] /\ validate_afxdp c = Ok tt)).
  { apply keeps_pure. by intros []. }
  intros [] l cs (-> & -> & Hv). split; [done|]. eapply keeps_bind; [apply ifindex_keeps|]. intros index l cs [-> ->]. split; [done|].
  intros h held. pose proof (xsk_open_keeps alloc c index h held) as Ho. unfold mbind, Traced_bind.
  destruct (xsk_open os alloc c index h) as [[o|e|] h']; destruct Ho as (evs & -> & Ho); exists evs; (split; [done|]); [|done..].
  destruct Ho as (l & [-> Ho] & E). exists (resources o). split; [|done]. split_and!; [done|done|]. exists (calls evs). by split.
Qed.

(** Dropping an open driver gives everything back. *)
Lemma drop_replays o h held : replay os h (drop_events o) (resources o ⊎ held) = Some held.
Proof using.
  unfold drop_events, resources. destruct (link o) as [fd|]; cbn [app replay dropped link_held];
    repeat (rewrite decide_True by multiset_solver); f_equal; multiset_solver.
Qed.
End whole.

(** ** The driver as it comes out *)

(** The words and the entries of a mapped ring lie inside the mapping. *)
Lemma ring_length_covers off entries size n :
  0 <= off_desc off -> 0 <= entries -> 0 <= size -> ring_length off entries size = Ok n ->
  off_producer off + 4 <= off_desc off /\ off_consumer off + 4 <= off_desc off /\ off_flags off + 4 <= off_desc off /\
  n = off_desc off + entries * size /\ n <= U64_MAX /\
  off_producer off mod 4 = 0 /\ off_consumer off mod 4 = 0 /\ off_flags off mod 4 = 0 /\ off_desc off mod 8 = 0.
Proof.
  intros Hd He Hs E. unfold ring_length in E. destruct (negb _) eqn:Ec; [done|].
  apply negb_false_iff in Ec. unfold is_multiple_of, checked_add, checked_mul in *.
  rewrite !andb_true_iff in Ec. destruct Ec as [[[[Hp Hp'] [Hc Hc']] [Hf Hf']] Hm].
  destruct (entries * size <=? U64_MAX); [|done]. cbn [mbind option_bind] in E.
  destruct (_ + off_desc off <=? U64_MAX) eqn:En; [|done]. cbn [ok_or] in E. injection E as <-.
  repeat (case_match; try done). bool_facts. simplify_eq. split_and!; try done; lia.
Qed.

Lemma power_of_two_log n : is_power_of_two n = true -> n = 2 ^ Z.log2 n /\ 0 < n.
Proof. unfold is_power_of_two. intros [Hp He]%andb_true_iff. bool_facts. lia. Qed.

Lemma log_bounds n : 0 < n < W32 -> 0 <= Z.log2 n <= 31.
Proof.
  intros Hn. split; [apply Z.log2_nonneg|]. apply Z.lt_succ_r, Z.log2_lt_pow2; [lia|]. change (2 ^ Z.succ 31) with W32. lia.
Qed.

Lemma validated_sizes c : validate_afxdp c = Ok tt -> is_power_of_two (cfg_frames c) = true /\ 0 < cfg_frame_size c.
Proof.
  unfold validate_afxdp, invalid, MIN_FRAME_SIZE. repeat (case_match; try done); bool_facts; intros _; (split; [done|]);
    bool_facts; lia.
Qed.

(** Rings as freshly mapped: well-formed and without entries. *)
Definition fresh_rings {K} (os : Os K) (e : Z) : Prop := forall base,
  (ring_wf e (fill_at os base) /\ ring_queue e (fill_at os base) = []) /\
  (ring_wf e (rx_at os base) /\ ring_queue e (rx_at os base) = []).

Lemma xsk_build_wf {K} `{XskKernel K} (os : Os K) c pool alloc fill_base rx_base k
    (C : kernel_contract K (Z.log2 (cfg_frames c)) (cfg_frame_size c)) :
  cfg_frames c < W32 -> cfg_frame_size c < W32 -> validate_afxdp c = Ok tt ->
  IndexPool.new alloc (cfg_frames c) (cfg_frame_size c) = Ok pool ->
  fresh_rings os (Z.log2 (cfg_frames c)) -> k_held C k = [] ->
  xsk_wf (Z.log2 (cfg_frames c)) (cfg_frame_size c) C (build os c pool fill_base rx_base k) [].
Proof.
  intros Hf Hs Hv Hp Hr Hk. destruct (validated_sizes _ Hv) as [H2 Hz]. destruct (power_of_two_log _ H2) as [He Hpos].
  pose proof (log_bounds _ (conj Hpos Hf)) as Hlog.
  destruct (IndexPool.index_new_wf _ _ _ _ Hpos Hz Hp) as (Hw & Hc & Hst & Hfr & Hg).
  destruct (Hr fill_base) as [[F1 F2] _]. destruct (Hr rx_base) as [_ [R1 R2]].
  set (d0 := Xsk (Rings.new (fill_at os fill_base) (rx_at os rx_base) (cfg_frames c) (cfg_frame_size c))
               (fill_at os fill_base) (rx_at os rx_base) k pool 0 {| rx_dropped := 0; rx_ring_full := 0 |}).
  assert (I : xsk_wf (Z.log2 (cfg_frames c)) (cfg_frame_size c) C d0 []).
  { apply fresh_wf. unfold xsk_fresh. rewrite <- He. by split_and!. }
  pose proof (refill_inv _ _ Hlog (conj Hz Hs) C _ _ _ _ _ _ I) as Hi. unfold build. cbn [rings xpool fill_mem] in Hi.
  destruct (Rings.refill _ _ _) as [[r p] fill]. apply Hi.
Qed.

(** What [bind] returns is sound, whatever the answers were. *)
Lemma bound_wf {K} `{XskKernel K} (os : Os K) alloc c h b h'
    (C : kernel_contract K (Z.log2 (cfg_frames c)) (cfg_frame_size c)) :
  cfg_frames c < W32 -> cfg_frame_size c < W32 -> fresh_rings os (Z.log2 (cfg_frames c)) ->
  (forall h, k_held C (kernel_at os h) = []) -> l2_bind os alloc c h = (Ok b, h') ->
  xsk_wf (Z.log2 (cfg_frames c)) (cfg_frame_size c) C (driver (rx b)) [] /\
  2 ^ Z.log2 (cfg_frames c) = cfg_frames c /\ 0 <= Z.log2 (cfg_frames c) <= 31 /\ 0 < cfg_frame_size c < W32.
Proof.
  intros Hf Hs Hr Hk E. pose proof (l2_bind_keeps os alloc c h ∅) as Hb. rewrite E in Hb.
  destruct Hb as (evs & _ & l & (_ & Hv & cs & _ & Ho) & _). destruct Ho as (pool & off & past & inst & Hp & _ & _ & Hd & _).
  destruct (validated_sizes _ Hv) as [H2 Hz]. destruct (power_of_two_log _ H2) as [He Hpos]. rewrite Hd.
  split_and!; [by eapply xsk_build_wf|done|by apply log_bounds|by apply log_bounds|done|done].
Qed.

(** ** A system for worked examples

    Descriptors and bases are told apart by the moment of the call; one call may be refused. *)

Definition demo_ring : RingOffset := {| off_producer := 0; off_consumer := 64; off_flags := 72; off_desc := 128 |}.

Definition demo_answer (refuse : option (Call -> bool)) (h : list Event) (c : Call) : res io_Error (reply c) :=
  let fd := 3 + len h in
  if match refuse with Some f => f c | None => false end then Err {| kind := Other; raw_os_error := Some EEXIST |}
  else
    match c as c return res io_Error (reply c) with
    | IfNameToIndex _ => Ok 2
    | SocketXdp | MapCreate _ _ _ _ | ProgLoad _ _ _ _ | ObjGet _ | LinkCreate _ _ _ _ | SocketGroup _ => Ok fd
    | Mmap _ _ _ => Ok (4096 * fd)
    | GetMmapOffsets _ => Ok ({| off_rx := demo_ring; off_fr := demo_ring |}, MMAP_OFFSETS_SIZE)
    | ObjGetInfo _ => Ok {| info_type := MAP_TYPE_XSKMAP; info_key_size := 4; info_value_size := 4; info_max_entries := 64 |}
    | SetUmem _ _ _ _ | SetRing _ _ _ | BindXdp _ _ _ _ | MapUpdateElem _ _ _ _ | JoinGroup _ _ _ => Ok tt
    end.

Definition demo_os (refuse : option (Call -> bool)) (batches : list (list (Z * nat))) : Os (ScriptKernel 2 2048) :=
  {| answer := demo_answer refuse;
     fill_at := fun _ => Mem 0 0 0 [0; 0; 0; 0];
     rx_at := fun _ => Mem 0 0 0 [Desc 0 0; Desc 0 0; Desc 0 0; Desc 0 0];
     kernel_at := fun _ => Script [] batches;
     big_endian := false |}.

Definition demo_config : AfxdpConfig :=
  {| ifname := [Byte.x65]; cfg_queue := 5; cfg_frames := 4; cfg_frame_size := 2048; headroom := 0; zero_copy := false;
     redirect := Builtin Skb |}.

Lemma demo_bound batches :
  exists b h', l2_bind (demo_os None batches) (fun _ => true) demo_config [] = (Ok b, h').
Proof.
  destruct (l2_bind (demo_os None batches) (fun _ => true) demo_config []) as [r h'] eqn:E.
  apply (f_equal (fun x => match x.1 with Ok _ => true | _ => false end)) in E as E'. vm_compute in E'.
  destruct r as [b|e|]; [by eexists _, _|done..].
Qed.

Lemma demo_fresh batches : fresh_rings (demo_os None batches) 2.
Proof. intros base. by split_and!; vm_compute. Qed.

Definition is_update (c : Call) : bool := match c with MapUpdateElem _ _ _ _ => true | _ => false end.

(** The queue is already served: everything opened so far is dropped, innermost first. *)
Example demo_refused :
  let '(r, h) := l2_bind (demo_os (Some is_update) []) (fun _ => true) demo_config [] in
  match r with Err e => e | _ => PeerClosed end = unavailable "queue already served" (Some {| kind := Other; raw_os_error := Some EEXIST |}) /\
  drop 12 h = [Called (MapUpdateElem 14 5 5 NOEXIST); Closed 14; Unmapped 49152 192; Unmapped 45056 160; Closed 5; Freed].
Proof. vm_compute. done. Qed.

(** ** Properties *)

(** C11: Binding an AF_XDP socket, whatever the system answers: a failure at any point has
    dropped every descriptor, mapping and region it had acquired, each once; a success made
    exactly the calls of the source in its order, the rings mapped at the lengths their
    offsets ask for, the queue bound before the map entry, and the program of [XdpProgram]
    over that map loaded and attached last; it holds the link, two mappings, the socket and
    the region and nothing else, and dropping the driver gives exactly those back. *)
Theorem xsk_bind_exact {K} (os : Os K) alloc c h held :
  let '(r, h') := l2_bind os alloc c h in exists evs, h' = h ++ evs /\
  match r with
  | Ok b =>
      replay os h evs held = Some (resources (rx b) ⊎ held) /\
      replay os h' (drop_events (rx b)) (resources (rx b) ⊎ held) = Some held /\
      validate_afxdp c = Ok tt /\
      exists cs, calls evs = IfNameToIndex (ifname c) :: cs /\ opened os alloc c (l2_ifindex b) (rx b) cs
  | _ => replay os h evs held = Some held
  end.
Proof.
  pose proof (l2_bind_keeps os alloc c h held) as Hk. destruct (l2_bind os alloc c h) as [[b|e|] h'];
    destruct Hk as (evs & -> & Hk); exists evs; (split; [done|]); [|done..].
  destruct Hk as (l & (-> & Hv & cs & Hc & Ho) & E). split_and!; [done|apply drop_replays|done|]. by exists cs.
Qed.
