(* ===== verification/AfxdpMemory.v ===== *)
(** * transport-afxdp: what is in the frames

    The AF_XDP driver owns its memory as FrameMemory says: the kernel writes packet bytes only
    into the chunks it holds or finds on the fill ring, at any moment, during a call too, and no
    frame lies there. *)

From S2P Require Import Prelude TransportCore Trace Pools Bypass FrameMemory AfxdpRing Afxdp AfxdpOpen.
From Stdlib Require Import ZArith Lia.
From stdpp Require Import prelude list strings.

Open Scope Z_scope.
Open Scope res_scope.

Import FrameBatch (frames, cap, spare).
Import IndexPool (IndexFrame, frame_as_ref).

Section memory.
Context {K : Type} `{XskKernel K} (e size : Z) (He : 0 <= e <= 31) (Hsize : 0 < size < W32).
Context (C : kernel_contract K e size).

Inductive xsk_call := CPoll (fuel : nat) (room : Z) | CStats.

Definition xsk_do (o : xsk_call) (d : XskDriver K) : XskDriver K * list IndexFrame :=
  match o with
  | CPoll fuel room =>
      if 0 <? room then
        match xsk_poll fuel d (FrameBatch.with_capacity room) with
        | Some (_, d, out) => (d, frames out)
        | None => (d, [])
        end
      else (d, [])
  | CStats => ((xsk_stats d).2, [])
  end.

Definition xsk_with_pool (p : IndexPool.t) (d : XskDriver K) : XskDriver K :=
  Xsk (rings d) (fill_mem d) (rx_mem d) (kernel d) p (xsyscalls d) (kernel_cell d).

(** Chunks the kernel may write: those it holds, and those it may take off the fill ring. *)
Definition xsk_writable (d : XskDriver K) : list Z := k_held C (kernel d) ++ (chunk size <$> ring_queue e (fill_mem d)).

Lemma writable_chunk d live s : xsk_wf e size C d live -> s ∈ xsk_writable d -> 0 <= s < 2 ^ e /\ s ∉ (IndexPool.slot <$> live).
Proof using He Hsize.
  intros I Hs. destruct (wf_conserved e size C d live I) as (_ & Hnd & _). fold (xsk_writable d) in Hnd. split.
  - apply (chunk_bounds e size C _ _ _ _ _ _ _ s I). unfold places, xsk_writable in *. rewrite !elem_of_app in *. tauto.
  - apply NoDup_app in Hnd as (_ & Hnd & _). intros Hl. by apply (Hnd s).
Qed.

Lemma xsk_do_wf o d live d' new :
  xsk_wf e size C d live -> xsk_do o d = (d', new) ->
  xsk_wf e size C d' (live ++ new) /\ IndexPool.region (xpool d') = IndexPool.region (xpool d).
Proof using He Hsize.
  intros I E. destruct o as [fuel room|]; cbn [xsk_do] in E.
  - destruct (0 <? room) eqn:Er; [|by simplify_eq; rewrite app_nil_r]. bool_facts.
    destruct (xsk_poll _ _ _) as [[[r d1] out]|] eqn:Ep; [|by simplify_eq; rewrite app_nil_r].
    destruct (xsk_poll_spec e size He Hsize C _ _ _ _ _ _ _ I (FrameBatch.spare_empty (FrameBatch.with_capacity room) eq_refl Er) Ep)
      as (pub & ds & P & _). simplify_eq. split; [|apply P].
    rewrite (p_frames _ _ _ _ _ _ _ _ _ _ P). exact (p_wf _ _ _ _ _ _ _ _ _ _ P).
  - simplify_eq. rewrite app_nil_r. split; [by apply stats_wf|]. unfold xsk_stats, kernel_drops.
    by destruct (statistics (kernel d)) as [[? ?]|].
Qed.

Lemma wf_shape d live d' live' :
  xsk_wf e size C d live -> xsk_wf e size C d' live' -> IndexPool.region (xpool d') = IndexPool.region (xpool d) ->
  IndexPool.shape (xpool d') = IndexPool.shape (xpool d).
Proof using.
  intros I I' Hr. unfold IndexPool.shape. destruct (i_pool _ _ _ _ _ _ _ _ _ _ I) as (_ & -> & ->).
  destruct (i_pool _ _ _ _ _ _ _ _ _ _ I') as (_ & -> & ->). by rewrite Hr.
Qed.

(** *** No call looks at the bytes *)

Lemma xsk_refill_blind (r : Rings.t) (p : IndexPool.t) fill m :
  Rings.refill r (set_region m p) fill = let '(r', p', fill') := Rings.refill r p fill in (r', set_region m p', fill').
Proof using. unfold Rings.refill, IndexPool.drain_freed. cbn. by destruct (produce _ _ _ _) as [[n f] prod]. Qed.

Definition over_desc (m : list byte) (st : Rings.t * IndexPool.t * FrameBatch.t IndexFrame * Z) :=
  let '(r, p, out, n) := st in (r, set_region m p, out, n).

Lemma on_desc_blind m d st : Rings.on_desc d (over_desc m st) = over_desc m (Rings.on_desc d st).
Proof using. destruct st as [[[r p] out] n]. unfold Rings.on_desc. cbn. by destruct (locate _ _ _ _). Qed.

Lemma on_descs_blind m ds st :
  foldl (fun st d => Rings.on_desc d st) (over_desc m st) ds = over_desc m (foldl (fun st d => Rings.on_desc d st) st ds).
Proof using. revert st. induction ds as [|d ds IH]; intros st; [done|]. cbn [foldl]. by rewrite on_desc_blind, IH. Qed.

Definition over_polling (m : list byte) (s : Rings.polling (K := K)) : Rings.polling :=
  {| Rings.k := Rings.k s; Rings.fill := Rings.fill s; Rings.rx := Rings.rx s; Rings.rings := Rings.rings s;
     Rings.pool := set_region m (Rings.pool s); Rings.out := Rings.out s; Rings.pushed := Rings.pushed s |}.

Lemma poll_round_blind m s :
  Rings.poll_round (over_polling m s) =
  match Rings.poll_round s with Again s' => Again (over_polling m s') | Leave r => Leave (over_polling m r) end.
Proof using.
  unfold Rings.poll_round. cbn. destruct (turn _ _ _) as [[k fill] rx]. destruct (consume _ _ _ _) as [[ds rx'] next].
  pose proof (on_descs_blind m ds (Rings.set_cons next (Rings.rings s), Rings.pool s, Rings.out s, Rings.pushed s)) as E.
  cbn [over_desc] in E. rewrite E. clear E. destruct (foldl _ _ ds) as [[[r p] o] n]. cbn. by destruct (orb _ _).
Qed.

Definition over (m : list byte) (d : XskDriver K) : XskDriver K := xsk_with_pool (set_region m (xpool d)) d.

Lemma wake_blind m d : wake (over m d) = let '(r, d') := wake d in (r, over m d').
Proof using. unfold wake. cbn. destruct (wakeup (kernel d)) as [[e'|] k]; [|done]. by destruct (_ || _). Qed.

Lemma xsk_poll_blind m fuel d out :
  xsk_poll fuel (over m d) out = match xsk_poll fuel d out with Some (r, d', o) => Some (r, over m d', o) | None => None end.
Proof using.
  unfold xsk_poll. cbn [over xsk_with_pool kernel fill_mem rx_mem rings xpool xsyscalls kernel_cell].
  destruct (turn _ _ _) as [[k fill] rx]. rewrite xsk_refill_blind. destruct (Rings.refill _ _ _) as [[r p] fill'].
  unfold Rings.poll_frames.
  set (s := {| Rings.k := k; Rings.fill := fill'; Rings.rx := rx; Rings.rings := r; Rings.pool := p; Rings.out := out; Rings.pushed := 0 |}).
  change {| Rings.k := k; Rings.fill := fill'; Rings.rx := rx; Rings.rings := r; Rings.pool := set_region m p; Rings.out := out; Rings.pushed := 0 |}
    with (over_polling m s).
  rewrite (iterate_map _ (over_polling m) (over_polling m)) by apply poll_round_blind.
  destruct (iterate Rings.poll_round fuel s) as [s'|]; [|done]. cbn. destruct (Rings.pushed s' >? 0); [done|].
  destruct (needs_wakeup _); [|done].
  pose proof (wake_blind m (Xsk (Rings.rings s') (Rings.fill s') (Rings.rx s') (Rings.k s') (Rings.pool s') (xsyscalls d) (kernel_cell d))) as E.
  unfold over at 1, xsk_with_pool at 1 in E. cbn in E. rewrite E. clear E. by destruct (wake _) as [a d'].
Qed.

Lemma xsk_do_blind m o d : xsk_do o (over m d) = (over m (xsk_do o d).1, (xsk_do o d).2).
Proof using.
  destruct o as [fuel room|]; cbn [xsk_do].
  - destruct (0 <? room); [|done]. rewrite xsk_poll_blind. by destruct (xsk_poll _ d _) as [[[r d'] out]|].
  - unfold xsk_stats, kernel_drops. cbn. by destruct (statistics (kernel d)) as [[? ?]|].
Qed.
End memory.

Definition xsk_owner {K} `{XskKernel K} e size (C : kernel_contract K e size) : owner (XskDriver K) xsk_call.
Proof.
  refine {| FrameMemory.pool_of := xpool; FrameMemory.with_pool := xsk_with_pool; FrameMemory.call := xsk_do;
            FrameMemory.give := drop_live; FrameMemory.writable := xsk_writable e size C;
            FrameMemory.owns := fun d live => xsk_wf e size C d live /\ 0 <= e <= 31 /\ 0 < size < W32 |}.
  - intros d live (I & _). split; apply I.
  - done.
  - by intros [].
  - done.
  - intros d live s (I & He & Hz) Hs. destruct (i_pool _ _ _ _ _ _ _ _ _ _ I) as (_ & -> & _). by eapply writable_chunk.
  - intros d live s bytes (I & He & Hz) Hs Hl. split; [|done].
    destruct I as [I1 I2 (I3 & I3' & I3'') I4 I5 I6 I7 I8 I9 I10 I11]. constructor; try done.
    split_and!; [by apply write_wf|done|done].
  - intros o m d. apply xsk_do_blind.
  - intros o d live d' new (I & He & Hz) E. destruct (xsk_do_wf e size He Hz C o d live d' new I E) as [I' Hr].
    split; [done|]. by apply (wf_shape e size C _ _ _ _ I I').
  - intros d live i f (I & He & Hz) Hi. split; [|done]. split; [by apply drop_live_wf|done].
Defined.

(** Two packets, then one too long for its chunk; the kernel writes before and after a drop. *)
Definition demo_packets : list (list (Z * nat)) := [[(256, 60%nat); (320, 10%nat)]; [(1000, 1049%nat)]].

Definition demo_acts : list (mem_act (O := xsk_call)) :=
  [AWrite 0 [Byte.x41; Byte.x42]; ACall (CPoll 9 2) [(3, [Byte.x46])]; AWrite 2 [Byte.x43]; ADrop 0; ACall (CPoll 9 2) [(0, [Byte.x45])]; AWrite 0 [Byte.x44]].

(** ** Properties *)

(** C10: From what [AfxdpL2::bind] returns, over rings as the kernel maps them, after any
    interleaving of polls, frame drops, counter reads and packet bytes the kernel writes,
    between the calls and during them, into chunks it may write: every chunk is in exactly one place (fill ring, kernel, receive ring,
    a live frame, the pool's freed list or the free list), live frames share no chunk with
    each other or with what the kernel may write, lie inside their chunk and are counted by
    [pool_stats], and the bytes of each are those it had when it was delivered. *)
Theorem xsk_bound_conserved {K} `{XskKernel K} (os : Os K) alloc c h b h' st
    (C : kernel_contract K (Z.log2 (cfg_frames c)) (cfg_frame_size c)) :
  cfg_frames c < W32 -> cfg_frame_size c < W32 -> fresh_rings os (Z.log2 (cfg_frames c)) ->
  (forall h, k_held C (kernel_at os h) = []) -> l2_bind os alloc c h = (Ok b, h') ->
  mem_steps (xsk_owner _ _ C) (AfxdpOpen.driver (rx b), []) st ->
  let e := Z.log2 (cfg_frames c) in let '(d, held) := st in
  2 ^ e = cfg_frames c /\
  places e (cfg_frame_size c) C (kernel d) (fill_mem d) (rx_mem d) (rings d) (xpool d) held.*1 [] ≡ₚ seqZ 0 (2 ^ e) /\
  NoDup ((IndexPool.slot <$> held.*1) ++ xsk_writable e (cfg_frame_size c) C d) /\
  Forall (IndexPool.frame_in_bounds (xpool d)) held.*1 /\ ps_in_use (IndexPool.stats (xpool d)) = len held /\
  forall f bytes, (f, bytes) ∈ held -> frame_as_ref (xpool d) f = bytes.
Proof.
  intros Hf Hs Hr Hk E M. destruct (bound_wf _ _ _ _ _ _ C Hf Hs Hr Hk E) as (I & H2 & Hl & Hz).
  assert (Hst : stable (xsk_owner _ _ C) (AfxdpOpen.driver (rx b), [])) by (split; [by split|by intros f x Hin%not_elem_of_nil]).
  pose proof (mem_steps_stable _ _ _ Hst M) as [[(I' & _) Hb] _]. destruct st as [d held]. cbn [fst snd] in I', Hb.
  destruct (wf_conserved _ _ _ _ _ I') as (P1 & P2 & P3 & P4). split_and!; [done|exact P1|exact P2|exact P3| |exact Hb].
  rewrite P4. unfold len. by rewrite length_fmap.
Qed.

(** Packets come, one frame is dropped, the kernel writes, more packets come. *)
Lemma xsk_bound_conserved_witness :
  exists b h', l2_bind (demo_os None demo_packets) (fun _ => true) demo_config [] = (Ok b, h') /\
  let '(d, held) := foldl (mem_do (xsk_owner 2 2048 demo_contract)) (AfxdpOpen.driver (rx b), []) demo_acts in
  2 ^ 2 = 4 /\
  places 2 2048 demo_contract (kernel d) (fill_mem d) (rx_mem d) (rings d) (xpool d) held.*1 [] ≡ₚ seqZ 0 (2 ^ 2) /\
  NoDup ((IndexPool.slot <$> held.*1) ++ xsk_writable 2 2048 demo_contract d) /\
  Forall (IndexPool.frame_in_bounds (xpool d)) held.*1 /\ ps_in_use (IndexPool.stats (xpool d)) = len held /\
  forall f bytes, (f, bytes) ∈ held -> frame_as_ref (xpool d) f = bytes.
Proof.
  destruct (demo_bound demo_packets) as (b & h' & E). exists b, h'. split; [done|].
  apply (xsk_bound_conserved (demo_os None demo_packets) (fun _ => true) demo_config [] b h' _ demo_contract);
    [done|done|apply demo_fresh|done|exact E|apply mem_do_steps, mem_none].
Defined.
