(* ===== verification/Dpdk.v ===== *)
(** * transport-dpdk: the poll-mode receive driver

    Models [crates/transports/dpdk/src/{driver,frame,config,lib}.rs]: [settle] over one received
    burst and [PmdDriver] over one receive queue. DPDK, reached through the C shim, is a class:
    [rx_burst] fills the scratch arrays, [free_bulk] and [free_mbuf] return mbufs. *)

From S2P Require Import Prelude TransportCore Bypass.
From Stdlib Require Import ZArith Lia.
From stdpp Require Import prelude list strings.

Open Scope Z_scope.
Open Scope res_scope.

Import FrameBatch (frames, cap, spare).

(** ** [settle] *)

Section settle.
Context {M D : Type} (deliver : nat -> M -> D -> D).

(** The [for] loop: [mbufs[i]] read, then written at [chained] or delivered. *)
Fixpoint settle_loop {E} (i : nat) (nb_segs : list Z) (mbufs : list M) (chained : nat) (d : D)
    : res E (list M * nat * D) :=
  match nb_segs with
  | [] => Ok (mbufs, chained, d)
  | segs :: rest =>
      match mbufs !! i with
      | None => Panic
      | Some mbuf =>
          if segs >? 1 then settle_loop (S i) rest (<[chained := mbuf]> mbufs) (S chained) d
          else settle_loop (S i) rest mbufs chained (deliver i mbuf d)
      end
  end.

(** [settle]: frames delivered, the slice as left behind, [truncated], the deliveries, and
    what went to [free], if anything. *)
Definition settle {E} (mbufs : list M) (nb_segs : list Z) (truncated : Z) (d : D)
    : res E (Z * list M * Z * D * option (list M)) :=
  let* (mbufs, chained, d) := settle_loop 0 nb_segs mbufs 0 d in
  let left := len mbufs - Z.of_nat chained in
  if (0 <? chained)%nat
  then Ok (left, mbufs, u64_add truncated (Z.of_nat chained), d, Some (take chained mbufs))
  else Ok (left, mbufs, truncated, d, None).
End settle.

(** ** Configuration and frames *)

Record DpdkConfig := { port : Z; queue : Z; cfg_burst : Z }.

Definition DpdkConfig_new (port queue : Z) : DpdkConfig := {| port := port; queue := queue; cfg_burst := 32 |}.

(** A frame owns its mbuf; [data] is what its pointer points at. *)
Record MbufFrame := Mbuf { mbuf : Z; data : list byte; dlen : Z }.

#[export] Instance MbufFrame_as_ref : AsRef MbufFrame := fun f => take (Z.to_nat (dlen f)) (data f).

(** What one entry of a received burst is: the mbuf, its data and length, its segments. *)
Record Received := { r_mbuf : Z; r_data : list byte; r_len : Z; r_segs : Z }.

(** The shim and DPDK: a burst of at most so many mbufs, both ways to free, and the counters. *)
Class Pmd (P : Type) := {
  rx_burst : P -> Z -> list Received * P;
  free_bulk : P -> list Z -> P;
  free_mbuf : P -> Z -> P;
  rx_drops : P -> option (Z * Z);
  mempool_stats : P -> Z * Z;
}.

(** ** [PmdDriver] *)

Record PmdDriver (P : Type) := Driver_ {
  burst : Z;
  mbufs : list Z;
  datas : list (list byte);
  lens : list Z;
  segs : list Z;
  truncated : Z;
  nic : Z * Z;
  pmd : P;
}.
Arguments Driver_ {P}.
Arguments burst {P}.
Arguments mbufs {P}.
Arguments datas {P}.
Arguments lens {P}.
Arguments segs {P}.
Arguments truncated {P}.
Arguments nic {P}.
Arguments pmd {P}.

(** Entries the shim wrote at the front of a scratch array. *)
Definition fill_front {A} (new old : list A) : list A := new ++ drop (length new) old.

Section driver.
Context {P : Type} `{Pmd P}.
Implicit Types (d : PmdDriver P) (out : FrameBatch.t MbufFrame).

(** [PmdDriver::new]. *)
Definition new (cfg : DpdkConfig) (p : P) : PmdDriver P :=
  let n := Z.to_nat (cfg_burst cfg) in
  Driver_ (cfg_burst cfg) (replicate n 0) (replicate n []) (replicate n 0) (replicate n 0) 0 (0, 0) p.

(** [poll_frames]: the request, fixed before the loop. *)
Definition want d out : Z :=
  match try_u16 (spare out) with Some spare => Z.min spare (burst d) | None => burst d end.

(** The [FnMut] given to [settle]. *)
Definition deliver d (i : nat) (m : Z) out : FrameBatch.t MbufFrame :=
  FrameBatch.push out (Mbuf m (datas d !!! i) (lens d !!! i)).

(** One round of the [loop]. *)
Definition poll_round (request : Z) (s : PmdDriver P * FrameBatch.t MbufFrame)
    : step (PmdDriver P * FrameBatch.t MbufFrame) (poll_result (PmdDriver P) MbufFrame) :=
  let '(d, out) := s in
  let '(got, p) := rx_burst (pmd d) request in
  let d := Driver_ (burst d) (fill_front (r_mbuf <$> got) (mbufs d)) (fill_front (r_data <$> got) (datas d))
             (fill_front (r_len <$> got) (lens d)) (fill_front (r_segs <$> got) (segs d)) (truncated d) (nic d) p in
  let n := length got in
  if (n =? 0)%nat then Leave (Ok Idle, d, out)
  else
    match (let* ms := index_range 0 (Z.of_nat n) (mbufs d) in
           let* ss := index_range 0 (Z.of_nat n) (segs d) in
           settle (deliver d) ms ss (truncated d) out) with
    | Err e => Leave (Err e, d, out)
    | Panic => Leave (Panic, d, out)
    | Ok (delivered, ms, truncated, out, freed) =>
        let p := match freed with Some chained => free_bulk (pmd d) chained | None => pmd d end in
        let d := Driver_ (burst d) (fill_front ms (mbufs d)) (datas d) (lens d) (segs d) truncated (nic d) p in
        if delivered >? 0 then Leave (Ok (Frames delivered), d, out) else Again (d, out)
    end.

Definition dpdk_poll (fuel : nat) d out : option (poll_result (PmdDriver P) MbufFrame) :=
  iterate (poll_round (want d out)) fuel (d, out).

(** [stats]: the last good NIC reading stands when a read fails. *)
Definition dpdk_stats d : DriverStats * PmdDriver P :=
  let '(imissed, rx_nombuf) := default (nic d) (rx_drops (pmd d)) in
  ({| no_buffer := rx_nombuf; nic_missed := imissed; ds_truncated := truncated d; syscalls := 0 |},
   Driver_ (burst d) (mbufs d) (datas d) (lens d) (segs d) (truncated d) (imissed, rx_nombuf) (pmd d)).

Definition dpdk_pool_stats d : PoolStats :=
  let '(capacity, in_use) := mempool_stats (pmd d) in {| ps_capacity := capacity; ps_in_use := in_use |}.

(** [<MbufFrame as Drop>::drop]. *)
Definition drop_frame d (f : MbufFrame) : PmdDriver P :=
  Driver_ (burst d) (mbufs d) (datas d) (lens d) (segs d) (truncated d) (nic d) (free_mbuf (pmd d) (mbuf f)).
End driver.

#[export] Instance Dpdk_driver {P} `{Pmd P} : Driver (PmdDriver P) MbufFrame := {|
  BACKEND := "dpdk";
  poll_frames := dpdk_poll;
  driver_stats := dpdk_stats;
  driver_pool_stats := dpdk_pool_stats;
|}.

(** [DpdkL2::attach]: a null [mempool] is refused before anything is allocated or read. *)
Definition attach {P} `{Pmd P} (cfg : DpdkConfig) (mempool : Z) (p : P)
    : res TransportError (BypassTransport L2 (PmdDriver P)) :=
  if mempool =? 0 then Err (InvalidConfig "mempool" "null rte_mempool pointer")
  else Ok (Bypass.new (new cfg p)).

(** ** [settle] is a partition *)

Section partition.
Context {M D : Type} (deliver : nat -> M -> D -> D).
Implicit Types (mbufs : list M) (d : D).

(** A burst's entries with their indices, single-segment and chained ones. *)
Definition entries (i : nat) mbufs (nb_segs : list Z) : list (nat * (M * Z)) :=
  zip (seq i (length mbufs)) (zip mbufs nb_segs).
Definition singles (es : list (nat * (M * Z))) : list (nat * M) :=
  (fun e => (e.1, e.2.1)) <$> filter (fun e => e.2.2 <= 1) es.
Definition chained (es : list (nat * (M * Z))) : list M :=
  (fun e => e.2.1) <$> filter (fun e => 1 < e.2.2) es.

Lemma singles_chained es : length es = (length (singles es) + length (chained es))%nat.
Proof.
  unfold singles, chained. rewrite !length_fmap. induction es as [|e es IH]; [done|].
  rewrite !filter_cons. destruct (decide (e.2.2 <= 1)), (decide (1 < e.2.2)); cbn [length]; lia.
Qed.

Lemma settle_loop_spec {E} nb_segs i mbufs c d :
  (c <= i)%nat -> (i + length nb_segs = length mbufs)%nat ->
  let es := entries i (drop i mbufs) nb_segs in
  exists mbufs', settle_loop (E := E) deliver i nb_segs mbufs c d =
      Ok (mbufs', (c + length (chained es))%nat, foldl (fun d e => deliver e.1 e.2 d) d (singles es)) /\
    length mbufs' = length mbufs /\ take (c + length (chained es)) mbufs' = take c mbufs ++ chained es.
Proof.
  revert i mbufs c d. induction nb_segs as [|sg rest IH]; intros i mbufs c d Hc Hl; cbn [settle_loop length] in *.
  { exists mbufs. unfold entries. rewrite zip_with_nil_r. destruct (seq _ _); cbn; by rewrite Nat.add_0_r, app_nil_r. }
  destruct (lookup_lt_is_Some_2 mbufs i ltac:(lia)) as [m Hm]. rewrite Hm.
  assert (Ees : entries i (drop i mbufs) (sg :: rest) = (i, (m, sg)) :: entries (S i) (drop (S i) mbufs) rest).
  { unfold entries. by rewrite (drop_S _ _ _ Hm). }
  cbv zeta. rewrite Ees. unfold singles, chained. rewrite !filter_cons. cbn [snd fst].
  destruct (sg >? 1) eqn:Eg; bool_facts.
  - rewrite (decide_False (P := sg <= 1)), (decide_True (P := 1 < sg)) by lia. rewrite !fmap_cons. cbn [length snd fst].
    destruct (IH (S i) (<[c := m]> mbufs) (S c) d) as (ms & -> & Hlen & Ht); [lia|rewrite length_insert; lia|].
    rewrite drop_insert_lt in * by lia. exists ms. split_and!.
    + do 2 f_equal. f_equal. unfold chained. lia.
    + by rewrite Hlen, length_insert.
    + rewrite Nat.add_succ_r. unfold chained in Ht. rewrite Nat.add_succ_l in Ht. rewrite Ht.
      rewrite (take_S_r _ _ m) by (apply list_lookup_insert_eq; lia). rewrite take_insert_ge by lia. by rewrite <- app_assoc.
  - rewrite (decide_True (P := sg <= 1)), (decide_False (P := 1 < sg)) by lia. rewrite !fmap_cons. cbn [foldl snd fst].
    destruct (IH (S i) mbufs c (deliver i m d)) as (ms & E1 & Hlen & Ht); [lia|lia|]. by exists ms.
Qed.

Lemma settle_spec {E} mbufs nb_segs truncated d :
  length mbufs = length nb_segs ->
  let es := entries 0 mbufs nb_segs in
  exists mbufs', settle (E := E) deliver mbufs nb_segs truncated d =
    Ok (len (singles es), mbufs', if decide (chained es = []) then truncated else u64_add truncated (len (chained es)),
        foldl (fun d e => deliver e.1 e.2 d) d (singles es),
        if decide (chained es = []) then None else Some (chained es)) /\ length mbufs' = length mbufs.
Proof.
  intros Hl es. destruct (settle_loop_spec (E := E) nb_segs 0 mbufs 0 d) as (ms & E1 & Hlen & Ht); [lia|lia|].
  rewrite drop_0 in *. fold es in E1, Ht. unfold settle. rewrite E1, Nat.add_0_l in *. exists ms.
  assert (Hn : len ms - Z.of_nat (length (chained es)) = len (singles es)).
  { pose proof (singles_chained es) as Hsc. assert (Hes : length es = length mbufs).
    { unfold es, entries. rewrite !length_zip, length_seq. lia. }
    unfold len. lia. }
  rewrite Hn. rewrite take_0 in Ht. split; [|done]. destruct (chained es) as [|c l] eqn:Ec.
  - by rewrite !decide_True.
  - rewrite !decide_False by done. cbn [length] in Ht |- *. by rewrite Ht.
Qed.
End partition.

(** ** What DPDK promises *)

(** A burst gives at most what was asked; [m_pending] bounds what is still to come and
    [m_freed] lists the mbufs handed back so far. *)
Record pmd_contract (P : Type) `{Pmd P} := {
  m_pending : P -> nat;
  m_freed : P -> list Z;
  m_burst : forall p w got p',
    0 <= w -> rx_burst p w = (got, p') ->
    len got <= w /\ m_freed p' = m_freed p /\ (m_pending p' + length got <= m_pending p)%nat;
  m_bulk : forall p ms, m_freed (free_bulk p ms) = m_freed p ++ ms /\ m_pending (free_bulk p ms) = m_pending p;
  m_free : forall p m, m_freed (free_mbuf p m) = m_freed p ++ [m] /\ m_pending (free_mbuf p m) = m_pending p;
}.
Arguments m_pending {P _} _ _.
Arguments m_freed {P _} _ _.
Arguments m_burst {P _} _ _ _ _ _ _ _.
Arguments m_bulk {P _} _ _ _.
Arguments m_free {P _} _ _ _.

Definition frame_of (g : Received) : MbufFrame := Mbuf (r_mbuf g) (r_data g) (r_len g).
Definition whole (rs : list Received) : list MbufFrame := frame_of <$> filter (fun g => r_segs g <= 1) rs.
Definition split (rs : list Received) : list Z := r_mbuf <$> filter (fun g => 1 < r_segs g) rs.

Lemma whole_app rs rs' : whole (rs ++ rs') = whole rs ++ whole rs'.
Proof. unfold whole. by rewrite filter_app, fmap_app. Qed.

Lemma split_app rs rs' : split (rs ++ rs') = split rs ++ split rs'.
Proof. unfold split. by rewrite filter_app, fmap_app. Qed.

Lemma whole_length rs : (length (whole rs) <= length rs)%nat.
Proof. unfold whole. rewrite length_fmap. apply length_filter. Qed.

Section received.
Context {P : Type} `{Pmd P}.
Implicit Types (d : PmdDriver P) (out : FrameBatch.t MbufFrame) (got : list Received).

Lemma deliver_fold d got i out :
  (forall k g, got !! k = Some g -> datas d !!! (i + k)%nat = r_data g /\ lens d !!! (i + k)%nat = r_len g) ->
  foldl (fun o e => deliver d e.1 e.2 o) out (singles (entries i (r_mbuf <$> got) (r_segs <$> got))) =
  FrameBatch.Batch (frames out ++ whole got) (cap out).
Proof.
  revert i out. induction got as [|g got IH]; intros i out Hat.
  { cbn. rewrite app_nil_r. by destruct out. }
  change (entries i (r_mbuf <$> g :: got) (r_segs <$> g :: got))
    with ((i, (r_mbuf g, r_segs g)) :: entries (S i) (r_mbuf <$> got) (r_segs <$> got)).
  assert (Hs : forall k g', got !! k = Some g' -> datas d !!! (S i + k)%nat = r_data g' /\ lens d !!! (S i + k)%nat = r_len g').
  { intros k g' Hk. replace (S i + k)%nat with (i + S k)%nat by lia. by apply Hat. }
  unfold singles, whole. rewrite !filter_cons. cbn [snd fst].
  destruct (decide (r_segs g <= 1)); [|by apply IH]. rewrite !fmap_cons. cbn [foldl fst snd].
  unfold singles, whole in IH. rewrite IH by done. unfold deliver. cbn [FrameBatch.push frames cap]. rewrite <- app_assoc.
  destruct (Hat 0%nat g eq_refl) as [E1 E2]. rewrite Nat.add_0_r in E1, E2. by rewrite E1, E2.
Qed.

Lemma chained_split got i : chained (entries i (r_mbuf <$> got) (r_segs <$> got)) = split got.
Proof.
  revert i. induction got as [|g got IH]; intros i; [done|].
  change (entries i (r_mbuf <$> g :: got) (r_segs <$> g :: got))
    with ((i, (r_mbuf g, r_segs g)) :: entries (S i) (r_mbuf <$> got) (r_segs <$> got)).
  unfold chained, split in *. rewrite !filter_cons. cbn [snd fst].
  destruct (decide (1 < r_segs g)); [|apply IH]. rewrite !fmap_cons. f_equal. apply IH.
Qed.

Lemma singles_whole got i : length (singles (entries i (r_mbuf <$> got) (r_segs <$> got))) = length (whole got).
Proof.
  revert i. induction got as [|g got IH]; intros i; [done|].
  change (entries i (r_mbuf <$> g :: got) (r_segs <$> g :: got))
    with ((i, (r_mbuf g, r_segs g)) :: entries (S i) (r_mbuf <$> got) (r_segs <$> got)).
  unfold singles, whole in *. rewrite !filter_cons. cbn [snd fst].
  destruct (decide (r_segs g <= 1)); [|apply IH]. rewrite !fmap_cons. cbn [length]. f_equal. apply IH.
Qed.

Lemma fill_front_range {E A B} (f : B -> A) (got : list B) (old : list A) :
  index_range (E := E) 0 (Z.of_nat (length got)) (fill_front (f <$> got) old) = Ok (f <$> got).
Proof.
  unfold index_range, fill_front.
  rewrite (get_range_split 0 (Z.of_nat (length got)) _ [] (f <$> got) (drop (length (f <$> got)) old)); try done.
  unfold len. rewrite length_fmap. cbn. lia.
Qed.

Lemma fill_front_length {A} (new old : list A) : (length new <= length old)%nat -> length (fill_front new old) = length old.
Proof. intros. unfold fill_front. rewrite length_app, length_drop. lia. Qed.

Lemma fill_front_at {A} `{Inhabited A} (new old : list A) k x : new !! k = Some x -> fill_front new old !!! k = x.
Proof.
  intros Hk. unfold fill_front. rewrite lookup_total_app_l by (by apply lookup_lt_Some in Hk).
  by apply list_lookup_total_correct.
Qed.

(** The scratch arrays hold a burst, and bursts are [u16]. *)
Definition pmd_wf d : Prop :=
  0 < burst d <= U16_MAX /\ u64 (truncated d) /\ len (mbufs d) = burst d /\ len (datas d) = burst d /\
  len (lens d) = burst d /\ len (segs d) = burst d.

Context (C : pmd_contract P).

(** From [d] to [d'] the mbufs [rs] were received: whole ones framed, chained ones freed. *)
Record pmd_polled d d' out out' (rs : list Received) : Prop := {
  m_wf : pmd_wf d';
  m_same : burst d' = burst d;
  m_frames : frames out' = frames out ++ whole rs;
  m_cap : cap out' = cap out;
  m_freed_bulk : m_freed C (pmd d') = m_freed C (pmd d) ++ split rs;
  m_truncated : truncated d' = u64_add (truncated d) (len (split rs));
  m_backlog : (m_pending C (pmd d') + length rs <= m_pending C (pmd d))%nat;
}.

Lemma pmd_polled_trans d1 d2 d3 o1 o2 o3 rs rs' :
  pmd_polled d1 d2 o1 o2 rs -> pmd_polled d2 d3 o2 o3 rs' -> pmd_polled d1 d3 o1 o3 (rs ++ rs').
Proof using.
  intros [A1 A2 A3 A4 A5 A6 A7] [B1 B2 B3 B4 B5 B6 B7].
  constructor; rewrite ?whole_app, ?split_app, ?length_app, ?len_app, ?app_assoc; try done.
  - by rewrite B2.
  - by rewrite B3, A3.
  - by rewrite B4.
  - by rewrite B5, A5.
  - rewrite B6, A6. unfold u64_add. rewrite Z.add_mod_idemp_l by done. f_equal. lia.
  - lia.
Qed.

(** The driver once the shim has filled the scratch arrays. *)
Definition landed d got (p : P) : PmdDriver P :=
  Driver_ (burst d) (fill_front (r_mbuf <$> got) (mbufs d)) (fill_front (r_data <$> got) (datas d))
    (fill_front (r_len <$> got) (lens d)) (fill_front (r_segs <$> got) (segs d)) (truncated d) (nic d) p.

Lemma count_split d got :
  u64 (truncated d) ->
  (if decide (split got = []) then truncated d else u64_add (truncated d) (len (split got))) =
  u64_add (truncated d) (len (split got)).
Proof using.
  intros Ht. destruct (decide _) as [->|]; [|done]. unfold u64_add. rewrite len_nil, Z.add_0_r, Z.mod_small; [done|exact Ht].
Qed.

Lemma settle_landed d got p out :
  u64 (truncated d) ->
  exists ms, settle (E := TransportError) (deliver (landed d got p)) (r_mbuf <$> got) (r_segs <$> got) (truncated d) out =
    Ok (len (whole got), ms, u64_add (truncated d) (len (split got)),
        FrameBatch.Batch (frames out ++ whole got) (cap out),
        if decide (split got = []) then None else Some (split got)) /\ length ms = length got.
Proof using.
  intros Ht. destruct (settle_spec (E := TransportError) (deliver (landed d got p)) (r_mbuf <$> got) (r_segs <$> got)
    (truncated d) out) as (ms & -> & Hml); [by rewrite !length_fmap|].
  rewrite deliver_fold.
  2: { intros k g Hk. cbn [datas lens landed Nat.add]. split; apply fill_front_at; by rewrite list_lookup_fmap, Hk. }
  rewrite chained_split, count_split by done. exists ms. rewrite length_fmap in Hml. split; [|done].
  do 5 f_equal. unfold len. by rewrite singles_whole.
Qed.

Lemma landed_wf d got p : pmd_wf d -> len got <= burst d -> pmd_wf (landed d got p).
Proof using.
  intros (Hb & Ht & H1 & H2 & H3 & H4) Hg.
  assert (Hff : forall A (f : Received -> A) (old : list A), len old = burst d -> len (fill_front (f <$> got) old) = burst d).
  { intros A f old Ho. unfold len in *. rewrite fill_front_length; [done|]. rewrite length_fmap. lia. }
  split_and!; cbn; try done; try lia; by apply Hff.
Qed.

Lemma handed_back p got :
  let p' := match (if decide (split got = []) then None else Some (split got)) with
            | Some ms => free_bulk p ms | None => p end in
  m_freed C p' = m_freed C p ++ split got /\ m_pending C p' = m_pending C p.
Proof using.
  cbv zeta. destruct (decide _) as [->|]; [by rewrite app_nil_r|]. apply m_bulk.
Qed.

(** [rs] is one burst of the port at [p], which is left with its chained mbufs given back,
    in one call, when there are any. *)
Definition one_burst request (p : P) rs (p' : P) : Prop :=
  exists q, rx_burst p request = (rs, q) /\ p' = if decide (split rs = []) then q else free_bulk q (split rs).

(** The bursts the port gave, one after the other, from [p] to [p']. *)
Inductive bursts_from (request : Z) : P -> list (list Received) -> P -> Prop :=
  | from_nil p : bursts_from request p [] p
  | from_burst p rs q bs p' : one_burst request p rs q -> bursts_from request q bs p' -> bursts_from request p (rs :: bs) p'.

(** One round. *)
Lemma pmd_round_spec request d out :
  pmd_wf d -> 0 <= request <= burst d ->
  exists d' out' rs, pmd_polled d d' out out' rs /\ len (whole rs) <= request /\ one_burst request (pmd d) rs (pmd d') /\
    poll_round request (d, out) =
      if decide (rs = []) then Leave (Ok Idle, d', out')
      else if len (whole rs) >? 0 then Leave (Ok (Frames (len (whole rs))), d', out') else Again (d', out').
Proof using.
  intros Hwf Hr. pose proof Hwf as (Hb & Ht & _). unfold poll_round.
  destruct (rx_burst (pmd d) request) as [got p] eqn:Eb. destruct (m_burst C _ _ _ _ (proj1 Hr) Eb) as (Hg & Hfr & Hpend).
  assert (Hwr : len (whole got) <= request) by (pose proof (whole_length got); unfold len in *; lia).
  fold (landed d got p). pose proof (landed_wf d got p Hwf ltac:(lia)) as Hw1.
  destruct (decide (got = [])) as [->|Hne].
  { exists (landed d [] p), out, []. split_and!; [|exact Hwr|by exists p|done].
    constructor; try done; cbn; rewrite ?app_nil_r; try done.
    unfold u64_add. rewrite Z.add_0_r, Z.mod_small; [done|exact Ht]. }
  assert (E0 : (length got =? 0)%nat = false) by (apply Nat.eqb_neq; by destruct got). rewrite E0.
  cbn [landed mbufs segs truncated]. rewrite !fill_front_range. fold (landed d got p).
  destruct (settle_landed d got p out Ht) as (ms & -> & Hml).
  destruct (handed_back p got) as [Mf Mp].
  assert (Hone : one_burst request (pmd d) got
    (match (if decide (split got = []) then None else Some (split got)) with Some ms => free_bulk p ms | None => p end))
    by (exists p; split; [done|]; by destruct (decide _)).
  set (p' := match _ with Some _ => _ | None => p end) in *.
  exists (Driver_ (burst d) (fill_front ms (fill_front (r_mbuf <$> got) (mbufs d))) (fill_front (r_data <$> got) (datas d))
    (fill_front (r_len <$> got) (lens d)) (fill_front (r_segs <$> got) (segs d))
    (u64_add (truncated d) (len (split got))) (nic d) p'),
    (FrameBatch.Batch (frames out ++ whole got) (cap out)), got.
  split_and!; [|done|exact Hone|rewrite (decide_False (P := got = [])) by done; destruct (_ >? 0); reflexivity].
  constructor; try done; cbn; [|by rewrite Mf, Hfr|by rewrite Mp].
  destruct Hw1 as (_ & _ & W1 & W2 & W3 & W4). split; [exact Hb|]. split; [by apply Z.mod_pos_bound|].
  cbn in *. split_and!; try done. unfold len in *. rewrite fill_front_length; [done|]. lia.
Qed.

(** The bursts of a poll: those before the last held chained mbufs only; the last brought
    frames, or, when the poll is idle, nothing at all. *)
Definition poll_end (r : res TransportError Polled) (bs : list (list Received)) (request : Z) : Prop :=
  exists before last, bs = before ++ [last] /\ Forall (fun rs => rs <> [] /\ whole rs = []) before /\
  match r with
  | Ok (Frames n) => n = len (whole last) /\ 0 < n <= request
  | Ok Idle => last = []
  | _ => False
  end.

Lemma poll_end_whole r bs request :
  poll_end r bs request ->
  whole (concat bs) = match r with Ok (Frames _) => whole (List.last bs []) | _ => [] end.
Proof using.
  intros (before & last & -> & Hb & Hr). rewrite concat_app, whole_app. cbn [concat]. rewrite app_nil_r, List.last_last.
  assert (Hw : whole (concat before) = []).
  { induction Hb as [|rs before [_ Hrs] _ IH]; [done|]. cbn [concat]. by rewrite whole_app, Hrs, IH. }
  rewrite Hw. destruct r as [[n| |]|e|]; try done. by subst last.
Qed.

(** The loop: what it did, given that it returned. *)
Lemma pmd_loop_spec fuel request d out r d' out' :
  pmd_wf d -> 0 <= request <= burst d ->
  iterate (poll_round request) fuel (d, out) = Some (r, d', out') ->
  exists bs, bursts_from request (pmd d) bs (pmd d') /\ pmd_polled d d' out out' (concat bs) /\ poll_end r bs request.
Proof using.
  revert d out. induction fuel as [|fuel IH]; intros d out Hw Hr E; [done|]. cbn [iterate] in E.
  destruct (pmd_round_spec request d out Hw Hr) as (d1 & o1 & rs & P1 & Hle & Hone & Er). rewrite Er in E.
  assert (Hlast : bursts_from request (pmd d) [rs] (pmd d1) /\ pmd_polled d d1 out o1 (concat [rs]))
    by (split; [by eapply from_burst, from_nil|cbn [concat]; by rewrite app_nil_r]).
  destruct (decide (rs = [])) as [->|Hne].
  { simplify_eq. exists [[]]. split_and!; [apply Hlast..|]. by exists [], []. }
  destruct (len (whole rs) >? 0) eqn:E0; bool_facts.
  - simplify_eq. exists [rs]. split_and!; [apply Hlast..|]. exists [], rs. split_and!; [done..|lia|lia].
  - assert (Ez : whole rs = []) by (destruct (whole rs); [done|rewrite len_cons in E0; pose proof (len_nonneg l); lia]).
    rewrite <- (m_same _ _ _ _ _ P1) in Hr.
    destruct (IH d1 o1 (m_wf _ _ _ _ _ P1) Hr E) as (bs & Hf & P2 & before & last & -> & Hb & Hend).
    exists (rs :: before ++ [last]). split_and!; [by eapply from_burst|cbn [concat]; by eapply pmd_polled_trans|].
    exists (rs :: before), last. split_and!; [done|by constructor|done].
Qed.

Lemma pmd_loop_total fuel request d out :
  pmd_wf d -> 0 <= request <= burst d -> (m_pending C (pmd d) < fuel)%nat ->
  is_Some (iterate (poll_round request) fuel (d, out)).
Proof using.
  revert d out. induction fuel as [|fuel IH]; intros d out Hw Hr Hf; [lia|]. cbn [iterate].
  destruct (pmd_round_spec request d out Hw Hr) as (d1 & o1 & rs & P1 & Hle & _ & Er). rewrite Er.
  destruct (decide (rs = [])) as [->|Hne]; [by eexists|]. destruct (len (whole rs) >? 0); [by eexists|].
  apply IH; [apply P1|by rewrite (m_same _ _ _ _ _ P1)|].
  pose proof (m_backlog _ _ _ _ _ P1). destruct rs; [done|]. cbn [length] in *. lia.
Qed.

Lemma want_bounds d out : pmd_wf d -> 0 < spare out -> 0 < want d out <= burst d /\ want d out <= spare out.
Proof using.
  intros (Hb & _) Hs. unfold want, try_u16. destruct (_ <=? U16_MAX) eqn:E; bool_facts; lia.
Qed.

Definition dpdk_contract : driver_contract (dpdk_poll (P := P)).
Proof using C.
  refine {| dc_wf := pmd_wf; dc_backlog := fun d => m_pending C (pmd d) |}.
  - intros fuel d out r d' out' Hw Hsp E. destruct (want_bounds d out Hw Hsp) as [Hwt Hws].
    destruct (pmd_loop_spec _ _ _ _ _ _ _ Hw (conj (Z.lt_le_incl _ _ (proj1 Hwt)) (proj2 Hwt)) E) as (bs & _ & P1 & Hend).
    pose proof (poll_end_whole _ _ _ Hend) as Hwh. destruct Hend as (before & last & -> & _ & Hend). rewrite List.last_last in Hwh.
    set (rs := concat (before ++ [last])) in *. pose proof (whole_length rs). pose proof (m_backlog _ _ _ _ _ P1).
    split_and!; [apply P1|apply P1|]. exists (whole rs). destruct r as [[n| |]|e|]; try done; cbn in Hend.
    + destruct Hend as [-> Hn]. rewrite <- Hwh in *. split_and!; try done; try lia; apply P1.
    + pose proof (m_frames _ _ _ _ _ P1) as Hf. rewrite Hwh in *. rewrite len_nil. split_and!; [exact Hf|lia|cbn [length]; lia|done].
  - intros fuel d out Hw Hsp Hf. destruct (want_bounds d out Hw Hsp). apply pmd_loop_total; [done|lia|done].
Defined.
End received.

(** ** A scripted port, for worked examples *)

Record ScriptPort := { bursts : list (list Received); freed : list Z }.

#[export] Instance script_port : Pmd ScriptPort := {|
  rx_burst := fun p w =>
    match bursts p with
    | [] => ([], p)
    | b :: rest => (take (Z.to_nat w) b, {| bursts := rest; freed := freed p |})
    end;
  free_bulk := fun p ms => {| bursts := bursts p; freed := freed p ++ ms |};
  free_mbuf := fun p m => {| bursts := bursts p; freed := freed p ++ [m] |};
  rx_drops := fun _ => None;
  mempool_stats := fun _ => (0, 0);
|}.

Definition script_port_contract : pmd_contract ScriptPort.
Proof.
  refine {| m_pending := fun p => length (concat (bursts p)); m_freed := freed |}; [|done..].
  intros p w got p' Hw E. cbn in E. destruct (bursts p) as [|b rest] eqn:Eb; simplify_eq.
  - rewrite Eb. split_and!; [by rewrite len_nil|done|cbn; lia].
  - split_and!; [unfold len; rewrite length_take; lia|done|].
    cbn [bursts]. simpl. rewrite length_app, length_take. lia.
Defined.

(** ** Properties *)

(** [settle] compacts in place, yet partitions the burst: single-segment mbufs are
    delivered with their own index in arrival order, chained ones go to one [free] call in
    arrival order (to none when there is none) and are counted, and the count returned is
    that of the deliveries. *)
Theorem settle_partitions {E M D} (deliver : nat -> M -> D -> D) mbufs nb_segs truncated d :
  length mbufs = length nb_segs -> u64 truncated ->
  let es := zip (seq 0 (length mbufs)) (zip mbufs nb_segs) in
  let ones := filter (fun e => e.2.2 <= 1) es in
  let chains := (fun e => e.2.1) <$> filter (fun e => 1 < e.2.2) es in
  exists left, settle (E := E) deliver mbufs nb_segs truncated d =
    Ok (len ones, left, u64_add truncated (len chains),
        foldl (fun d e => deliver e.1 e.2.1 d) d ones, if decide (chains = []) then None else Some chains).
Proof.
  intros Hl Ht es ones chains. destruct (settle_spec (E := E) deliver mbufs nb_segs truncated d Hl) as (left & E1 & _).
  exists left. rewrite E1. change (chained (entries 0 mbufs nb_segs)) with chains.
  change (singles (entries 0 mbufs nb_segs)) with ((fun e : nat * (M * Z) => (e.1, e.2.1)) <$> ones).
  assert (Hfold : forall l d, foldl (fun d e => deliver e.1 e.2 d) d ((fun e : nat * (M * Z) => (e.1, e.2.1)) <$> l) =
    foldl (fun d (e : nat * (M * Z)) => deliver e.1 e.2.1 d) d l) by (induction l as [|e l IH]; intros d'; [done|apply IH]).
  rewrite Hfold. unfold len at 1. rewrite length_fmap. fold (len ones). do 4 f_equal.
  destruct (decide (chains = [])) as [->|]; [|done]. unfold u64_add. by rewrite len_nil, Z.add_0_r, Z.mod_small.
Qed.

Lemma settle_partitions_witness :
  let es := zip (seq 0 5) (zip [10; 11; 12; 13; 14] [1; 3; 1; 2; 1]) in
  let ones := filter (fun e => e.2.2 <= 1) es in
  let chains := (fun e => e.2.1) <$> filter (fun e => 1 < e.2.2) es in
  chains = [11; 13] /\
  exists left, settle (E := TransportError) (fun i m d => d ++ [(i, m)]) [10; 11; 12; 13; 14] [1; 3; 1; 2; 1] 7 [] =
    Ok (len ones, left, u64_add 7 (len chains),
        foldl (fun d e => d ++ [(e.1, e.2.1)]) [] ones, if decide (chains = []) then None else Some chains).
Proof.
  split; [reflexivity|].
  apply (settle_partitions (E := TransportError) (fun i m d => d ++ [(i, m)]) [10; 11; 12; 13; 14] [1; 3; 1; 2; 1] 7 []);
    [reflexivity|unfold u64; lia].
Defined.

(** C27: [poll_frames] of the DPDK driver returns once its fuel is above what the port still
    has to give. It asks the port for bursts of as many mbufs as fit, handing each burst's
    chained mbufs back before the next, until one brings a frame or nothing at all: [bs] are
    the bursts before, which held chained mbufs only, and [last] ends it. Of all the mbufs the
    port gave, in order, each single-segment one is pushed as a frame with its own data and
    length and each chained one is freed exactly once and counted, so none leaks; it reports
    the frames pushed, and idle only on an empty burst. *)
Theorem dpdk_poll_exact {P} `{Pmd P} (C : pmd_contract P) fuel d out :
  pmd_wf d -> 0 < spare out -> (m_pending C (pmd d) < fuel)%nat ->
  exists r d' out' bs last, dpdk_poll fuel d out = Some (r, d', out') /\ pmd_wf d' /\
    bursts_from (Z.min (spare out) (burst d)) (pmd d) (bs ++ [last]) (pmd d') /\
    Forall (fun b => b <> [] /\ filter (fun g => r_segs g <= 1) b = []) bs /\
    let rs := concat (bs ++ [last]) in
    frames out' = frames out ++ (frame_of <$> filter (fun g => r_segs g <= 1) rs) /\ cap out' = cap out /\
    m_freed C (pmd d') = m_freed C (pmd d) ++ (r_mbuf <$> filter (fun g => 1 < r_segs g) rs) /\
    truncated d' = u64_add (truncated d) (len (filter (fun g => 1 < r_segs g) rs)) /\
    match r with
    | Ok (Frames n) => n = len (filter (fun g => r_segs g <= 1) last) /\ 0 < n <= spare out
    | Ok Idle => last = []
    | _ => False
    end.
Proof.
  intros Hw Hsp Hf. destruct (want_bounds d out Hw Hsp) as [Hwt Hws].
  assert (Hwant : Z.min (spare out) (burst d) = want d out)
    by (destruct Hw as (? & _); unfold want, try_u16; destruct (_ <=? U16_MAX) eqn:E8; bool_facts; lia).
  destruct (pmd_loop_total C fuel (want d out) d out Hw ltac:(lia) Hf) as [[[r d'] out'] E].
  destruct (pmd_loop_spec C _ _ _ _ _ _ _ Hw (conj (Z.lt_le_incl _ _ (proj1 Hwt)) (proj2 Hwt)) E) as (? & Hfrom & P1 & bs & last & -> & Hb & Hend).
  destruct P1 as [P1 P2 P3 P4 P5 P6 P7].
  exists r, d', out', bs, last. rewrite Hwant. cbv zeta. split_and!; try done.
  - eapply Forall_impl; [exact Hb|]. intros b [? Hwb%fmap_nil_inv]. done.
  - rewrite P6. unfold split, len. by rewrite length_fmap.
  - destruct r as [[n| |]|e|]; try done; cbn in Hend. destruct Hend as [-> Hn].
    unfold whole, len in *. rewrite length_fmap in *. split; [done|lia].
Qed.

Definition demo_received (m segs : Z) : Received :=
  {| r_mbuf := m; r_data := [Byte.x41; Byte.x42]; r_len := 2; r_segs := segs |}.

Definition demo_port : ScriptPort :=
  {| bursts := [[demo_received 10 2]; [demo_received 11 1; demo_received 12 3; demo_received 13 1]]; freed := [] |}.

Lemma dpdk_poll_exact_witness :
  let d := new (DpdkConfig_new 0 0) demo_port in
  let out := FrameBatch.with_capacity (F := MbufFrame) 2 in
  let C := script_port_contract in
  exists r d' out' bs last, dpdk_poll 9 d out = Some (r, d', out') /\ pmd_wf d' /\
    bursts_from (Z.min (spare out) (burst d)) (pmd d) (bs ++ [last]) (pmd d') /\
    Forall (fun b => b <> [] /\ filter (fun g => r_segs g <= 1) b = []) bs /\
    let rs := concat (bs ++ [last]) in
    frames out' = frames out ++ (frame_of <$> filter (fun g => r_segs g <= 1) rs) /\ cap out' = cap out /\
    m_freed C (pmd d') = m_freed C (pmd d) ++ (r_mbuf <$> filter (fun g => 1 < r_segs g) rs) /\
    truncated d' = u64_add (truncated d) (len (filter (fun g => 1 < r_segs g) rs)) /\
    match r with
    | Ok (Frames n) => n = len (filter (fun g => r_segs g <= 1) last) /\ 0 < n <= spare out
    | Ok Idle => last = []
    | _ => False
    end.
Proof.
  apply (dpdk_poll_exact script_port_contract 9 (new (DpdkConfig_new 0 0) demo_port) (FrameBatch.with_capacity 2));
    [split_and!; try done; vm_compute; done|vm_compute; done|vm_compute; lia].
Defined.
