(* ===== verification/UringParts.v ===== *)
(** * transport-io-uring: completions, configuration, path choice, buffer ring, fleet

    Models [crates/transports/io-uring/src/{completion,config,ring_mem,probe}.rs] and the parts of
    [driver.rs] that keep no kernel state: [Fleet] and [provide_runs]. The two readers of
    completion flags belong to the io-uring crate and are parameters. *)

From S2P Require Import Prelude TransportCore.
From Stdlib Require Import ZArith Lia Sorted Permutation.
From stdpp Require Import prelude list sorting strings.

Open Scope Z_scope.
Open Scope res_scope.

Definition ENOBUFS : Z := 105.
Definition EIO : Z := 5.

(** ** [classify] *)

Inductive Completion :=
  | Data (slot len : Z) (rearm : bool)
  | Truncated (slot : Z) (rearm : bool)
  | Empty (rearm : bool)
  | NoBuffers
  | Failed (errno : Z).

#[export] Instance Completion_eq_dec : EqDecision Completion.
Proof. solve_decision. Defined.

(** [cqueue::more] and [cqueue::buffer_select] of the io-uring crate. *)
Class CqFlags := { more : Z -> bool; buffer_select : Z -> option Z }.

Definition classify `{CqFlags} (res flags slot_size : Z) (multishot : bool) : Completion :=
  if res <? 0 then (if res =? - ENOBUFS then NoBuffers else Failed (- res))
  else
    let rearm := negb (multishot && more flags) in
    match buffer_select flags with
    | None => if res =? 0 then Empty rearm else Failed EIO
    | Some slot => if res >? slot_size then Truncated slot rearm else Data slot res rearm
    end.

(** ** Configuration *)

Inductive RecvPath := Legacy | BufRing | Multishot.

#[export] Instance RecvPath_eq_dec : EqDecision RecvPath.
Proof. solve_decision. Defined.

Record IoUringConfig := {
  bind_addr : SocketAddr;
  slots : Z;
  cfg_slot_size : Z;
  depth : Z;
  cfg_path : option RecvPath;
  recv_buf : option Z;
}.

Definition MAX_SLOTS : Z := 32768.
Definition MAX_DEPTH : Z := 4096.
Definition C_INT_MAX : Z := I32_MAX.

Definition IoUringConfig_new (bind : SocketAddr) : IoUringConfig :=
  {| bind_addr := bind; slots := 1024; cfg_slot_size := 2048; depth := 64; cfg_path := None; recv_buf := None |}.

(** [IoUringConfig::validate]. *)
Definition validate_uring (c : IoUringConfig) : res TransportError unit :=
  let* _ := validate.at_most "slots" (slots c) MAX_SLOTS in
  let* _ := validate.at_most "slot_size" (cfg_slot_size c) C_INT_MAX in
  let* _ := validate.at_most "depth" (depth c) MAX_DEPTH in
  if depth c >? slots c then Err (InvalidConfig "depth" "deeper than slots")
  else
    match recv_buf c with
    | Some bytes => validate.at_most "recv_buf" bytes C_INT_MAX
    | None => Ok tt
    end.

(** ** Path choice *)

Record Support := { legacy : bool; sup_buf_ring : bool; multishot : bool }.

(** [Support::has]. *)
Definition has (s : Support) (p : RecvPath) : bool :=
  match p with Legacy => legacy s | BufRing => sup_buf_ring s | Multishot => multishot s end.

(** The derived order of [RecvPath]. *)
Definition rank (p : RecvPath) : nat := match p with Legacy => 0 | BufRing => 1 | Multishot => 2 end.

(** [Iterator::max]: the last of the greatest. *)
Definition max_path (ps : list RecvPath) : option RecvPath :=
  foldl (fun best p =>
    match best with
    | None => Some p
    | Some b => if (rank b <=? rank p)%nat then Some p else Some b
    end) None ps.

Definition select (forced : option RecvPath) (support : Support) : res TransportError RecvPath :=
  match forced with
  | Some path => if has support path then Ok path else Err (Unsupported "io-uring" "recv path")
  | None =>
      ok_or (max_path (filter (fun p => has support p = true) [Legacy; BufRing; Multishot]))
            (Unavailable "io-uring" "kernel supports no recv path" None)
  end.

(** [next_power_of_two] of a positive integer far below the width. *)
Definition next_power_of_two (n : Z) : Z := 2 ^ Z.log2_up n.

(** [id16]. *)
Definition id16 (v : Z) : Z := v mod W16.

(** ** [RingMem] *)

Record Entry := { e_addr : Z; e_len : Z; e_bid : Z }.

#[export] Instance Entry_inhabited : Inhabited Entry := populate {| e_addr := 0; e_len := 0; e_bid := 0 |}.

(** [resv] is the tail the kernel reads, kept in entry 0 and never touched by [push]. *)
Record RingMem := { entries : list Entry; mask : Z; tail : Z; resv : Z }.

(** [RingMem::new]: a zeroed mapping. *)
Definition RingMem_new (count : Z) : RingMem :=
  {| entries := replicate (Z.to_nat count) {| e_addr := 0; e_len := 0; e_bid := 0 |};
     mask := count - 1; tail := 0; resv := 0 |}.

(** [RingMem::push]. *)
Definition push (e : Entry) (r : RingMem) : RingMem :=
  {| entries := <[Z.to_nat (Z.land (tail r) (mask r)) := e]> (entries r); mask := mask r;
     tail := u16_wrapping_add (tail r) 1; resv := resv r |}.

(** [RingMem::publish]. *)
Definition publish (r : RingMem) : RingMem :=
  {| entries := entries r; mask := mask r; tail := tail r; resv := tail r |}.

(** ** [Fleet] *)

Module Fleet.
Record t := { f_depth : Z; armed : Z; starved : bool }.

Definition new (depth : Z) : t := {| f_depth := depth; armed := 0; starved := false |}.

Definition wanted (f : t) : Z := if starved f then 0 else saturating_sub (f_depth f) (armed f).

(** Whether a completion ends its request, as [complete] has it. *)
Definition ended (c : Completion) : bool :=
  match c with
  | Data _ _ rearm | Truncated _ rearm | Empty rearm => rearm
  | NoBuffers | Failed _ => true
  end.

Definition complete (c : Completion) (f : t) : t :=
  let f := match c with
           | NoBuffers => {| f_depth := f_depth f; armed := armed f; starved := true |}
           | _ => f
           end in
  if ended c
  then {| f_depth := f_depth f; armed := saturating_sub (armed f) 1; starved := starved f |}
  else f.

Definition refilled (slots : nat) (f : t) : t :=
  if (0 <? slots)%nat then {| f_depth := f_depth f; armed := armed f; starved := false |} else f.

(** [fleet.armed += 1] in [arm]. *)
Definition arm_one (f : t) : t := {| f_depth := f_depth f; armed := armed f + 1; starved := starved f |}.
End Fleet.

(** ** [provide_runs] *)

(** [zip(first..).take_while(slot == next).count()]. *)
Fixpoint run_length (next : Z) (l : list Z) : nat :=
  match l with
  | [] => 0
  | slot :: l => if slot =? next then S (run_length (next + 1) l) else 0
  end.

Section provide.
Context {St : Type} (provide : Z -> nat -> St -> res TransportError unit * St).

(** One round of the [while]: [handed] slots are gone, the state is the closure's. *)
Definition provide_round (back : list Z) (s : nat * St)
    : step (nat * St) (res TransportError unit * list Z * St) :=
  let '(handed, st) := s in
  match back !! handed with
  | None => Leave (Ok tt, [], st)
  | Some first =>
      let run := run_length first (drop handed back) in
      let '(r, st) := provide first run st in
      match r with
      | Ok _ => Again ((handed + run)%nat, st)
      | Err e => Leave (Err e, drop handed back, st)
      | Panic => Leave (Panic, back, st)
      end
  end.

(** [provide_runs]: the answer, what is left in [back], the closure's state. *)
Definition provide_runs (back : list Z) (st : St) : option (res TransportError unit * list Z * St) :=
  let back := merge_sort (fun a b => a <= b) back in
  iterate (provide_round back) (S (length back)) (0%nat, st).
End provide.

(** ** Detection *)

Definition EINVAL : Z := 22.
Definition UD_PROBE : Z := 4.

(** What the kernel answers while [probe] runs: the opcode probe, the ring setup, the
    registration, the multishot request and its completions (user data, result). *)
Record ProbeAnswers := {
  p_opcodes : bool;
  p_fast_poll : bool;
  p_mmap : option io_Error;
  p_register : option io_Error;
  p_pushed : bool;
  p_submit : option io_Error;
  p_cqes : list (Z * Z);
  p_unregister : option io_Error;
}.

(** [legacy]: a failed probe reads as unsupported. *)
Definition probe_legacy (a : ProbeAnswers) : bool := p_opcodes a && p_fast_poll a.

(** [multishot]. *)
Definition probe_multishot (a : ProbeAnswers) : res TransportError bool :=
  if negb (p_pushed a)
  then Err (Io "io_uring multishot probe" {| kind := WouldBlock; raw_os_error := None |})
  else
    match p_submit a with
    | Some e => Err (Io "io_uring_enter" e)
    | None =>
        Ok (negb (existsb (fun c => (c.1 =? UD_PROBE) && (c.2 <? 0) && negb (c.2 =? - ENOBUFS)) (p_cqes a)))
    end.

(** [probe]: the answer, and whether the probe ring stays mapped for good. *)
Definition probe (a : ProbeAnswers) : res TransportError Support * bool :=
  let legacy := probe_legacy a in
  match p_mmap a with
  | Some e => (Err (Io "mmap" e), false)
  | None =>
      match p_register a with
      | Some e =>
          if bool_decide (raw_os_error e = Some EINVAL)
          then (Ok {| legacy := legacy; sup_buf_ring := false; multishot := false |}, false)
          else (Err (Io "io_uring register buf ring" e), false)
      | None =>
          let m := probe_multishot a in
          match p_unregister a with
          | Some e => (Err (Io "io_uring unregister buf ring" e), true)
          | None => (let* m := m in Ok {| legacy := legacy; sup_buf_ring := true; multishot := m |}, false)
          end
      end
  end.

(** ** Lemmas on the fleet *)

Lemma complete_armed c f :
  Fleet.armed (Fleet.complete c f) = if Fleet.ended c then saturating_sub (Fleet.armed f) 1 else Fleet.armed f.
Proof. unfold Fleet.complete. by destruct c as [| | | |], (Fleet.ended _) eqn:E. Qed.

Lemma complete_depth c f : Fleet.f_depth (Fleet.complete c f) = Fleet.f_depth f.
Proof. unfold Fleet.complete. by destruct c as [| | | |], (Fleet.ended _) eqn:E. Qed.

(** ** Lemmas on runs *)

Lemma run_length_spec first l :
  exists rest, l = seqZ first (Z.of_nat (run_length first l)) ++ rest /\
    head rest <> Some (first + Z.of_nat (run_length first l)).
Proof.
  revert first. induction l as [|x l IH]; intros first; cbn [run_length].
  - exists []. split; [by rewrite seqZ_nil by lia|done].
  - destruct (x =? first) eqn:E; bool_facts.
    + subst x. destruct (IH (first + 1)) as (rest & Hl & Hh). exists rest.
      rewrite seqZ_cons by lia. replace (Z.pred (Z.of_nat (S (run_length (first + 1) l))))
        with (Z.of_nat (run_length (first + 1) l)) by lia. rewrite <- Z.add_1_r. cbn [app]. rewrite <- Hl. split; [done|].
      intros Hx. apply Hh. rewrite Hx. f_equal. lia.
    + exists (x :: l). rewrite seqZ_nil by lia. split; [done|]. cbn. intros [= Hx]. lia.
Qed.

Lemma run_length_pos first l : (0 < run_length first (first :: l))%nat.
Proof. cbn. rewrite Z.eqb_refl. lia. Qed.

Lemma run_length_le first l : (run_length first l <= length l)%nat.
Proof. revert first. induction l as [|x l IH]; intros first; cbn; [lia|]. destruct (x =? first); [specialize (IH (first + 1))|]; lia. Qed.

Section provide_lemmas.
Context {St : Type} (provide : Z -> nat -> St -> res TransportError unit * St).

(** Runs already handed: [calls] are (first, count), in order. *)
Definition run_slots (calls : list (Z * nat)) : list Z := c ← calls; seqZ c.1 (Z.of_nat c.2).

(** The closure called on each run in turn, all accepted. *)
Fixpoint provided (calls : list (Z * nat)) (st : St) : option St :=
  match calls with
  | [] => Some st
  | (first, n) :: calls =>
      match provide first n st with
      | (Ok _, st) => provided calls st
      | _ => None
      end
  end.

Lemma provided_app calls calls' st st' :
  provided calls st = Some st' -> provided (calls ++ calls') st = provided calls' st'.
Proof.
  revert st. induction calls as [|[f n] calls IH]; intros st E; cbn in *; [by simplify_eq|].
  destruct (provide f n st) as [[| |] st1]; try done. by apply IH.
Qed.

Lemma run_slots_app calls calls' : run_slots (calls ++ calls') = run_slots calls ++ run_slots calls'.
Proof. unfold run_slots. apply bind_app. Qed.

(** No call could have been longer: what follows it is not its next slot. *)
Fixpoint maximal (calls : list (Z * nat)) (rest : list Z) : Prop :=
  match calls with
  | [] => True
  | (first, n) :: calls => head (run_slots calls ++ rest) <> Some (first + Z.of_nat n) /\ maximal calls rest
  end.

Lemma maximal_snoc calls first n rest :
  maximal calls (run_slots [(first, n)] ++ rest) -> head rest <> Some (first + Z.of_nat n) ->
  maximal (calls ++ [(first, n)]) rest.
Proof.
  induction calls as [|[f m] calls IH]; cbn [app maximal]; intros Hm Hr; [by split|]. destruct Hm as [H1 H2].
  split; [by rewrite run_slots_app, <- app_assoc|by apply IH].
Qed.

(** What the loop leaves: every run handed so far was accepted; the rest is still in
    [back], and on an error the first of the rest is the run that was refused. *)
Definition provide_end (back : list Z) (st0 : St) (x : res TransportError unit * list Z * St) : Prop :=
  let '(r, rest_, st) := x in
  exists calls st1, provided calls st0 = Some st1 /\ Forall (fun c => (0 < c.2)%nat) calls /\
    match r with Panic => True | _ => maximal calls rest_ end /\
    match r with
    | Ok _ => st = st1 /\ rest_ = [] /\ run_slots calls = back
    | Err e => run_slots calls ++ rest_ = back /\
        exists first n, head rest_ = Some first /\ provide first n st1 = (Err e, st)
    | Panic => exists first n, provide first n st1 = (Panic, st)
    end.

Lemma provide_loop fuel back handed calls st0 st1 :
  (length back < handed + fuel)%nat -> (handed <= length back)%nat ->
  provided calls st0 = Some st1 -> run_slots calls = take handed back -> Forall (fun c => (0 < c.2)%nat) calls ->
  maximal calls (drop handed back) ->
  exists x, iterate (provide_round provide back) fuel (handed, st1) = Some x /\ provide_end back st0 x.
Proof.
  revert handed calls st1. induction fuel as [|fuel IH]; intros handed calls st1 Hf Hh Hp Hr Hc Hm; [lia|].
  cbn [iterate provide_round]. destruct (back !! handed) as [first|] eqn:Eb.
  - destruct (run_length_spec first (drop handed back)) as (rest & Hsplit & Hnext).
    set (n := run_length first (drop handed back)) in *.
    assert (Hn : (0 < n)%nat) by (unfold n; rewrite (drop_S _ _ _ Eb); apply run_length_pos).
    assert (Hle : (handed + n <= length back)%nat).
    { pose proof (run_length_le first (drop handed back)) as Hle. fold n in Hle. rewrite length_drop in Hle. lia. }
    destruct (provide first n st1) as [r st2] eqn:Ep. destruct r as [u|e|].
    + assert (Hrest : drop (handed + n) back = rest).
      { rewrite <- drop_drop, Hsplit. by rewrite drop_app_length' by (by rewrite length_seqZ, Nat2Z.id). }
      apply (IH (handed + n)%nat (calls ++ [(first, n)]) st2); [lia|done| | | |].
      * rewrite (provided_app _ _ _ _ Hp). cbn. by rewrite Ep.
      * rewrite run_slots_app, Hr. unfold run_slots. cbn. rewrite app_nil_r.
        rewrite <- take_take_drop. f_equal. rewrite Hsplit.
        by rewrite take_app_length' by (by rewrite length_seqZ, Nat2Z.id).
      * apply Forall_app. split; [done|]. constructor; [done|constructor].
      * rewrite Hrest. apply maximal_snoc; [|done]. unfold run_slots. cbn. by rewrite app_nil_r, <- Hsplit.
    + eexists. split; [done|]. exists calls, st1. split_and!; [done|done|done|by rewrite Hr, take_drop|].
      exists first, n. rewrite (drop_S _ _ _ Eb). done.
    + eexists. split; [done|]. exists calls, st1. split_and!; [done|done|done|]. by exists first, n.
  - eexists. split; [done|]. apply lookup_ge_None in Eb. exists calls, st1.
    split_and!; [done|done| |done|done|by rewrite Hr, take_ge]. by rewrite drop_ge in Hm.
Qed.

Lemma provide_runs_spec back st :
  exists x, provide_runs provide back st = Some x /\ provide_end (merge_sort (fun a b => a <= b) back) st x.
Proof. apply (provide_loop _ _ 0 [] st st); [lia|lia|done|done|constructor|done]. Qed.
End provide_lemmas.

(** ** Lemmas on the buffer ring *)

(** Entries from index [head] up to index [upto], as the kernel walks them. *)
Definition ring_entries (head upto : Z) (r : RingMem) : list Entry :=
  (fun i => entries r !!! Z.to_nat (Z.land ((head + i) mod W16) (mask r))) <$> seqZ 0 ((upto - head) mod W16).

(** Entries the kernel may take: up to the published tail. *)
Definition published (head : Z) (r : RingMem) : list Entry := ring_entries head (resv r) r.

(** Entries queued: published or not. *)
Definition queued (head : Z) (r : RingMem) : list Entry := ring_entries head (tail r) r.

Definition ring_mem_wf (e : Z) (r : RingMem) : Prop :=
  len (entries r) = 2 ^ e /\ mask r = 2 ^ e - 1 /\ u16 (tail r) /\ u16 (resv r).

Section ring_mem.
Context (e : Z) (He : 0 <= e <= 15).

Lemma two_e : 0 < 2 ^ e <= 32768.
Proof using He. split; [apply Z.pow_pos_nonneg; lia|]. change 32768 with (2 ^ 15). apply Z.pow_le_mono_r; lia. Qed.

Lemma slot_index r a : ring_mem_wf e r -> Z.land (a mod W16) (mask r) = a mod 2 ^ e.
Proof using He.
  intros (_ & -> & _). replace (2 ^ e - 1) with (Z.ones e) by (rewrite Z.ones_equiv; lia).
  rewrite Z.land_ones by lia. apply Z.mod_mod_divide. change W16 with (2 ^ 16). exists (2 ^ (16 - e)).
  rewrite <- Z.pow_add_r by lia. f_equal. lia.
Qed.

Lemma slots_differ a b : 0 < b - a < 2 ^ e -> a mod 2 ^ e <> b mod 2 ^ e.
Proof using He.
  intros Hd E. pose proof two_e.
  assert (Hm : (b - a) mod 2 ^ e = 0) by (rewrite Zminus_mod, E, Z.sub_diag; apply Z.mod_0_l; lia).
  rewrite Z.mod_small in Hm by lia. lia.
Qed.

Lemma push_wf en r : ring_mem_wf e r -> ring_mem_wf e (push en r).
Proof using He.
  intros (Hl & Hm & Ht & Hr). unfold push, ring_mem_wf. cbn [entries mask tail resv]. rewrite len_insert.
  split_and!; try done; apply Z.mod_pos_bound; lia.
Qed.

Lemma publish_wf r : ring_mem_wf e r -> ring_mem_wf e (publish r).
Proof using. by intros (Hl & Hm & Ht & Hr). Qed.

Lemma length_queued head r : len (queued head r) = (tail r - head) mod W16.
Proof using.
  unfold queued, ring_entries, len. rewrite length_fmap, length_seqZ.
  pose proof (Z.mod_pos_bound (tail r - head) W16 ltac:(lia)). lia.
Qed.

Lemma tail_index head r :
  ring_mem_wf e r -> Z.land (tail r) (mask r) = (head + (tail r - head) mod W16) mod 2 ^ e.
Proof using He.
  intros Hw. pose proof Hw as (_ & _ & Ht & _). rewrite <- (slot_index r) by done. f_equal.
  rewrite Z.add_mod_idemp_r by lia. replace (head + (tail r - head)) with (tail r) by lia.
  symmetry. apply Z.mod_small, Ht.
Qed.

Lemma push_distance en head r :
  (tail r - head) mod W16 < W16 - 1 -> (tail (push en r) - head) mod W16 = (tail r - head) mod W16 + 1.
Proof using.
  intros Hn. pose proof (Z.mod_pos_bound (tail r - head) W16 ltac:(lia)). cbn [push tail]. unfold u16_wrapping_add.
  rewrite Zminus_mod_idemp_l, <- (Z.mod_small ((tail r - head) mod W16 + 1) W16) by lia.
  rewrite Z.add_mod_idemp_l by lia. f_equal. lia.
Qed.

(** A push into a ring that is not full adds its entry at the end and keeps the others. *)
Lemma push_queued en head r :
  ring_mem_wf e r -> len (queued head r) < 2 ^ e -> queued head (push en r) = queued head r ++ [en].
Proof using He.
  intros Hw Hn. rewrite length_queued in Hn. pose proof two_e as H2. pose proof Hw as (Hl & _).
  pose proof (Z.mod_pos_bound (tail r - head) W16 ltac:(lia)). unfold queued, ring_entries.
  rewrite push_distance, seqZ_app, fmap_app by lia. pose proof (tail_index head r Hw) as Ht.
  set (n := (tail r - head) mod W16) in *. f_equal.
  - apply list_fmap_ext. intros i x [-> Hx]%lookup_seqZ. rewrite !slot_index by (try apply push_wf; done).
    cbn [push entries]. rewrite Ht, list_lookup_total_insert_ne; [done|].
    pose proof (slots_differ (head + (0 + Z.of_nat i)) (head + n) ltac:(lia)) as Hd.
    pose proof (Z.mod_pos_bound (head + n) (2 ^ e) ltac:(lia)).
    pose proof (Z.mod_pos_bound (head + (0 + Z.of_nat i)) (2 ^ e) ltac:(lia)). lia.
  - rewrite (seqZ_cons _ 1), (seqZ_nil _ (Z.pred 1)) by lia. cbn [fmap list_fmap]. f_equal.
    rewrite slot_index by (by apply push_wf). cbn [push entries]. rewrite Ht, Z.add_0_l.
    rewrite list_lookup_total_insert_eq; [done|].
    pose proof (Z.mod_pos_bound (head + n) (2 ^ e) ltac:(lia)). unfold len in Hl. lia.
Qed.

(** Taking the first published entry moves the kernel's head by one. *)
Lemma published_cons en l head r :
  published head r = en :: l -> published (u16_wrapping_add head 1) r = l.
Proof using.
  unfold published, ring_entries. intros E. pose proof (f_equal length E) as Hl. rewrite length_fmap, length_seqZ in Hl.
  cbn [length] in Hl. pose proof (Z.mod_pos_bound (resv r - head) W16 ltac:(lia)).
  assert (Hd : (resv r - u16_wrapping_add head 1) mod W16 = Z.pred ((resv r - head) mod W16)).
  { unfold u16_wrapping_add. rewrite Zminus_mod_idemp_r, <- (Z.mod_small (Z.pred _) W16) by lia.
    unfold Z.pred. rewrite Z.add_mod_idemp_l by lia. f_equal. lia. }
  rewrite seqZ_cons in E by lia. cbn [fmap list_fmap] in E. injection E as _ <-. rewrite Hd.
  rewrite <- (fmap_add_seqZ 1 0), <- list_fmap_compose. apply list_fmap_ext. intros i x _. simpl.
  unfold u16_wrapping_add. rewrite Z.add_mod_idemp_l by lia. do 4 f_equal. lia.
Qed.

(** Publishing hands over everything queued. *)
Lemma publish_published head r : published head (publish r) = queued head r.
Proof using. done. Qed.
End ring_mem.

(** ** Properties *)

(** [provide_runs] always ends. It calls [provide] on the slots in increasing order, one
    call per contiguous run, none of which could be longer; on success nothing is left, and
    on an error the refused run and everything after it are left, so each slot is in exactly
    one accepted call or still in [back]. *)
Theorem provide_runs_exact {St} (provide : Z -> nat -> St -> res TransportError unit * St) back st :
  exists r rest st' calls st1, provide_runs provide back st = Some (r, rest, st') /\
    provided provide calls st = Some st1 /\
    match r with
    | Ok _ => st' = st1 /\ rest = []
    | Err e => exists first n, head rest = Some first /\ provide first n st1 = (Err e, st')
    | Panic => exists first n, provide first n st1 = (Panic, st')
    end /\
    (r <> Panic -> run_slots calls ++ rest ≡ₚ back /\ Sorted Z.le (run_slots calls ++ rest) /\ maximal calls rest).
Proof.
  destruct (provide_runs_spec provide back st) as ([[r rest] st'] & Ex & calls & st1 & Hp & _ & Hm & Hr).
  exists r, rest, st', calls, st1. split_and!; [done|done|by destruct r; [destruct Hr as (? & ? & ?)|destruct Hr as [_ ?]|]|].
  intros Hn. assert (Hs : run_slots calls ++ rest = merge_sort (fun a b => a <= b) back)
    by (destruct r; [destruct Hr as (_ & -> & Hr); by rewrite app_nil_r|by destruct Hr|done]).
  assert (Hmax : maximal calls rest) by (destruct r; done). rewrite Hs.
  split; [apply merge_sort_Permutation|]. split; [|exact Hmax].
  apply (Sorted_merge_sort (fun a b => a <= b)).
Qed.

(** Path choice: a forced path is taken exactly when the kernel has it; otherwise the best
    supported path is, and the choice fails only when there is none. *)
Theorem select_best s :
  (forall p, select (Some p) s = if has s p then Ok p else Err (Unsupported "io-uring" "recv path")) /\
  (forall p, select None s = Ok p <-> has s p = true /\ forall q, has s q = true -> (rank q <= rank p)%nat) /\
  (forall e, select None s = Err e <->
     e = Unavailable "io-uring" "kernel supports no recv path" None /\ forall q, has s q = false).
Proof.
  split_and!; [done| |].
  - intros p. split.
    + destruct s as [[] [] []]; intros E; vm_compute in E; simplify_eq; (split; [done|]); intros []; cbn; intros; (done || lia).
    + intros [Hp Hb]. pose proof (Hb BufRing) as H1. pose proof (Hb Multishot) as H2.
      destruct s as [[] [] []], p; cbn in *; try done; exfalso; (specialize (H1 eq_refl) || specialize (H2 eq_refl)); lia.
  - intros e. split.
    + destruct s as [[] [] []]; intros E; vm_compute in E; simplify_eq; (split; [done|]); by intros [].
    + intros [-> Hn]. pose proof (Hn Legacy). pose proof (Hn BufRing). pose proof (Hn Multishot).
      by destruct s as [[] [] []].
Qed.
