(* ===== verification/UringKernel.v ===== *)
(** * transport-io-uring: what the driver meets of the kernel

    The io-uring crate and the kernel are not under [src/]: the operations the driver calls
    are the class [IoUring], and [ring_contract] relates each of them to the moves of
    [kstep], the documented life of requests, provided buffers and completions. The
    accounting functions say where every slot and every armed recv is on the kernel's side. *)

From S2P Require Import Prelude TransportCore UringParts.
From Stdlib Require Import ZArith Lia.
From stdpp Require Import prelude list relations.

Open Scope Z_scope.

(** ** Requests and completions *)

(** User-data tags. *)
Definition UD_RECV : Z := 1.
Definition UD_PROVIDE : Z := 2.
Definition UD_CANCEL : Z := 3.

(** What the driver submits: a recv of either kind, [ProvideBuffers] (address, length,
    count, first id, success skipped), a cancel of [UD_RECV]. *)
Inductive SqEntry :=
  | SqRecv
  | SqProvide (addr len count first : Z) (skip : bool)
  | SqCancel.

#[export] Instance SqEntry_eq_dec : EqDecision SqEntry.
Proof. solve_decision. Defined.

Record Cqe := CQE { user_data : Z; result : Z; flags : Z }.

(** The ring: [submission().push] answers [None] when full; [completion] loads the
    completions ready, [advance] is the head store when that view drops; [submit] and
    [submit_wait] are the two forms of [io_uring_enter]. The buffer ring is memory the
    kernel reads at any of its turns. *)
Class IoUring (U : Type) := {
  sq_push : SqEntry -> U -> option U;
  sq_is_empty : U -> bool;
  cq_overflow : U -> bool;
  completion : option RingMem -> U -> list Cqe * U;
  advance : nat -> U -> U;
  submit : option RingMem -> U -> option io_Error * U;
  submit_wait : option RingMem -> Z -> U -> option io_Error * U;
}.

(** ** The kernel's side *)

(** Submission queue, completions not yet consumed, recvs armed, buffers of the group,
    slots lost to a failed provide, the kernel's index into the buffer ring, datagrams to come. *)
Record KState := KS {
  ks_sq : list SqEntry;
  ks_cq : list Cqe;
  ks_armed : nat;
  ks_group : list Z;
  ks_lost : list Z;
  ks_head : Z;
  ks_net : nat;
}.

Section kernel.
Context `{CqFlags} (ms : bool) (mem : option RingMem).

(** The request behind a recv completion ended: a single-shot one always, a multishot one
    unless the completion says that more will come. *)
Definition ends (c : Cqe) : bool := negb (ms && more (flags c)).

(** What the kernel posts for a recv: a failure, which says of no more to come; a datagram in
    a buffer; an empty result. *)
Definition posted (c : Cqe) : Prop :=
  user_data c = UD_RECV ->
  result c < 0 /\ more (flags c) = false \/ 0 <= result c /\ is_Some (buffer_select (flags c)) \/ result c = 0.

Definition published_entries (s : KState) : list Entry :=
  match mem with Some r => published (ks_head s) r | None => [] end.

(** One move. *)
Inductive kstep : KState -> KState -> Prop :=
  | k_arm sq cq armed group lost head net :
      kstep (KS (SqRecv :: sq) cq armed group lost head net)
            (KS sq cq (S armed) group lost head net)
  | k_provide addr n count first skip done_ sq cq armed group lost head net :
      done_ = [] /\ skip = true \/ (exists res fl, done_ = [CQE UD_PROVIDE res fl] /\ 0 <= res) ->
      kstep (KS (SqProvide addr n count first skip :: sq) cq armed group lost head net)
            (KS sq (cq ++ done_) armed (group ++ seqZ first count) lost head net)
  | k_refuse addr n count first skip res fl sq cq armed group lost head net :
      res < 0 ->
      kstep (KS (SqProvide addr n count first skip :: sq) cq armed group lost head net)
            (KS sq (cq ++ [CQE UD_PROVIDE res fl]) armed group (lost ++ seqZ first count) head net)
  | k_cancel res fl sq cq armed group lost head net :
      kstep (KS (SqCancel :: sq) cq armed group lost head net)
            (KS sq (cq ++ [CQE UD_CANCEL res fl]) armed group lost head net)
  | k_take en entries s :
      published_entries s = en :: entries ->
      kstep s (KS (ks_sq s) (ks_cq s) (ks_armed s) (ks_group s ++ [e_bid en]) (ks_lost s) (u16_wrapping_add (ks_head s) 1) (ks_net s))
  | k_recv slot res fl left_ right_ sq cq armed lost head net :
      0 <= res -> buffer_select fl = Some slot ->
      kstep (KS sq cq (S armed) (left_ ++ slot :: right_) lost head (S net))
            (KS sq (cq ++ [CQE UD_RECV res fl]) (if ends (CQE UD_RECV res fl) then armed else S armed) (left_ ++ right_) lost head net)
  | k_recv_empty fl sq cq armed group lost head net :
      buffer_select fl = None ->
      kstep (KS sq cq (S armed) group lost head (S net))
            (KS sq (cq ++ [CQE UD_RECV 0 fl]) (if ends (CQE UD_RECV 0 fl) then armed else S armed) group lost head net)
  | k_end res fl sq cq armed group lost head net :
      res < 0 -> more fl = false ->
      kstep (KS sq cq (S armed) group lost head net)
            (KS sq (cq ++ [CQE UD_RECV res fl]) armed group lost head net)
  | k_other c sq cq armed group lost head net :
      user_data c <> UD_RECV -> user_data c <> UD_PROVIDE ->
      kstep (KS sq cq armed group lost head net)
            (KS sq (cq ++ [c]) armed group lost head net).

Definition ksteps : KState -> KState -> Prop := rtc kstep.

(** ** Accounting *)

Definition sq_slots (sq : list SqEntry) : list Z :=
  e ← sq; match e with SqProvide _ _ count first _ => seqZ first count | _ => [] end.

Definition sq_recvs (sq : list SqEntry) : nat :=
  length (filter (fun e => e = SqRecv) sq).

(** The slot a completion hands back. *)
Definition cqe_slot (c : Cqe) : list Z :=
  if (user_data c =? UD_RECV) && (0 <=? result c)
  then match buffer_select (flags c) with Some slot => [slot] | None => [] end
  else [].

Definition cq_slots (cq : list Cqe) : list Z := c ← cq; cqe_slot c.

Definition cqe_ends (c : Cqe) : bool := (user_data c =? UD_RECV) && ends c.

Definition cq_ends (cq : list Cqe) : nat := length (filter (fun c => cqe_ends c = true) cq).

(** Every slot the driver has given away. *)
Definition kernel_slots (s : KState) : list Z :=
  sq_slots (ks_sq s) ++ (e_bid <$> published_entries s) ++ ks_group s ++ cq_slots (ks_cq s) ++ ks_lost s.

(** Every recv armed whose end the driver has not read. *)
Definition kernel_recvs (s : KState) : nat := (sq_recvs (ks_sq s) + ks_armed s + cq_ends (ks_cq s))%nat.

(** Datagrams landed and not yet read, and those to come. *)
Definition kernel_backlog (s : KState) : nat := (length (cq_slots (ks_cq s)) + ks_net s)%nat.

Lemma cq_slots_app a b : cq_slots (a ++ b) = cq_slots a ++ cq_slots b.
Proof using. apply bind_app. Qed.

Lemma cq_ends_app a b : cq_ends (a ++ b) = (cq_ends a + cq_ends b)%nat.
Proof using. unfold cq_ends. by rewrite filter_app, length_app. Qed.

Lemma sq_slots_app a b : sq_slots (a ++ b) = sq_slots a ++ sq_slots b.
Proof using. apply bind_app. Qed.

Lemma sq_recvs_app a b : sq_recvs (a ++ b) = (sq_recvs a + sq_recvs b)%nat.
Proof using. unfold sq_recvs. by rewrite filter_app, length_app. Qed.

Lemma cqe_slot_other c : user_data c <> UD_RECV -> cqe_slot c = [] /\ cqe_ends c = false.
Proof using. intros Hu. unfold cqe_slot, cqe_ends. by rewrite (proj2 (Z.eqb_neq _ _) Hu). Qed.

(** A move changes neither where the slots are counted nor how many recvs are out. *)
Lemma kstep_accounts s s' :
  kstep s s' ->
  kernel_slots s' ≡ₚ kernel_slots s /\ kernel_recvs s' = kernel_recvs s /\
  (kernel_backlog s' <= kernel_backlog s)%nat.
Proof using.
  assert (Hone : forall cq c, cq_slots (cq ++ [c]) = cq_slots cq ++ cqe_slot c /\
    cq_ends (cq ++ [c]) = (cq_ends cq + (if cqe_ends c then 1 else 0))%nat).
  { intros cq c. rewrite cq_slots_app, cq_ends_app. unfold cq_slots at 2, cq_ends at 2. simpl. rewrite app_nil_r.
    rewrite filter_cons, filter_nil. by destruct (cqe_ends c). }
  intros Hs. unfold kernel_slots, kernel_recvs, kernel_backlog, published_entries.
  destruct Hs as [| ? ? ? ? ? ? ? ? ? ? ? ? ? [[-> _]|(res & fl & -> & _)]| | |en entries s Hp|slot res fl | | |c];
    unfold published_entries in *; cbn [ks_sq ks_cq ks_armed ks_group ks_lost ks_head ks_net] in *.
  - unfold sq_recvs. rewrite filter_cons, decide_True by done. simpl. split_and!; [done|lia|lia].
  - rewrite app_nil_r. unfold sq_recvs. rewrite filter_cons, decide_False by done. simpl. split_and!; [solve_Permutation|lia|lia].
  - destruct (Hone cq (CQE UD_PROVIDE res fl)) as [-> ->]. unfold sq_recvs.
    rewrite filter_cons, decide_False by done. simpl. rewrite app_nil_r. split_and!; [solve_Permutation|lia|lia].
  - destruct (Hone cq (CQE UD_PROVIDE res fl)) as [-> ->]. unfold sq_recvs.
    rewrite filter_cons, decide_False by done. simpl. rewrite app_nil_r. split_and!; [solve_Permutation|lia|lia].
  - destruct (Hone cq (CQE UD_CANCEL res fl)) as [-> ->]. unfold sq_recvs.
    rewrite filter_cons, decide_False by done. simpl. rewrite app_nil_r. split_and!; [done|lia|lia].
  - destruct mem as [r|]; [|done]. rewrite (published_cons _ _ _ _ Hp), Hp. simpl. split_and!; [solve_Permutation|lia|lia].
  - destruct (Hone cq (CQE UD_RECV res fl)) as [-> ->].
    assert (Es : cqe_slot (CQE UD_RECV res fl) = [slot])
      by (unfold cqe_slot; cbn; rewrite (proj2 (Z.leb_le _ _)) by done; by rewrite H1).
    rewrite Es, length_app. unfold cqe_ends. cbn [user_data]. rewrite Z.eqb_refl. cbn [andb].
    split_and!; [solve_Permutation|destruct (ends _); lia|simpl; lia].
  - destruct (Hone cq (CQE UD_RECV 0 fl)) as [-> ->].
    assert (Es : cqe_slot (CQE UD_RECV 0 fl) = []) by (unfold cqe_slot; cbn; by rewrite H0).
    rewrite Es, app_nil_r. unfold cqe_ends. cbn [user_data]. rewrite Z.eqb_refl. cbn [andb].
    split_and!; [done|destruct (ends _); lia|lia].
  - destruct (Hone cq (CQE UD_RECV res fl)) as [-> ->].
    assert (Ee : ends (CQE UD_RECV res fl) = true)
      by (unfold ends; cbn [flags]; rewrite H1; by destruct ms).
    assert (Es : cqe_slot (CQE UD_RECV res fl) = [])
      by (unfold cqe_slot; cbn; by rewrite (proj2 (Z.leb_gt _ _)) by done).
    rewrite Es, app_nil_r. unfold cqe_ends. cbn [user_data]. rewrite Z.eqb_refl, Ee. cbn [andb]. split_and!; [done|lia|lia].
  - destruct (Hone cq c) as [-> ->]. destruct (cqe_slot_other c) as [-> ->]; [done|]. rewrite app_nil_r. split_and!; [done|lia|lia].
Qed.

Lemma ksteps_accounts s s' :
  ksteps s s' ->
  kernel_slots s' ≡ₚ kernel_slots s /\ kernel_recvs s' = kernel_recvs s /\
  (kernel_backlog s' <= kernel_backlog s)%nat.
Proof using.
  induction 1 as [s|s s1 s2 Hs _ (IH1 & IH2 & IH3)]; [done|].
  destruct (kstep_accounts _ _ Hs) as (H1 & H2 & H3). split_and!; [by rewrite IH1|lia|lia].
Qed.
End kernel.

(** What is posted keeps its form. *)
Lemma ksteps_posted `{CqFlags} ms mem s s' : ksteps ms mem s s' -> Forall posted (ks_cq s) -> Forall posted (ks_cq s').
Proof.
  induction 1 as [s|s s1 s2 Hs _ IH]; [done|]. intros Hp. apply IH. clear IH.
  assert (Hone : forall cq c, Forall posted cq -> (user_data c = UD_RECV -> posted c) -> Forall posted (cq ++ [c])).
  { intros cq c Hcq Hc. apply Forall_app. split; [done|]. constructor; [|done]. intros Hu. by apply Hc. }
  destruct Hs as [|? ? ? ? ? ? ? ? ? ? ? ? ? [[-> _]|(res & fl & -> & _)]| | | | | | |]; cbn [ks_cq] in *; try done;
    rewrite ?app_nil_r; try done; apply Hone; try done; intros _ _; cbn [result flags].
  - right. left. split; [done|by eexists].
  - by right; right.
  - by left.
Qed.

(** ** What the crate and the kernel promise *)

(** Each operation is moves of the kernel; a push appends, the completions ready are the
    front of the completion queue, and consuming them takes them off it. *)
Record ring_contract (U : Type) `{IoUring U, CqFlags} (ms : bool) := {
  rc_state : U -> KState;
  rc_empty : forall u, sq_is_empty u = true -> ks_sq (rc_state u) = [];
  rc_push : forall e u u', sq_push e u = Some u' ->
    let s := rc_state u in
    rc_state u' = KS (ks_sq s ++ [e]) (ks_cq s) (ks_armed s) (ks_group s) (ks_lost s) (ks_head s) (ks_net s);
  rc_ready : forall mem u cqes u', completion mem u = (cqes, u') ->
    ksteps ms mem (rc_state u) (rc_state u') /\ cqes `prefix_of` ks_cq (rc_state u');
  rc_advance : forall n u, (n <= length (ks_cq (rc_state u)))%nat ->
    let s := rc_state u in
    rc_state (advance n u) = KS (ks_sq s) (drop n (ks_cq s)) (ks_armed s) (ks_group s) (ks_lost s) (ks_head s) (ks_net s);
  rc_submit : forall mem u r u', submit mem u = (r, u') -> ksteps ms mem (rc_state u) (rc_state u');
  rc_wait : forall mem left_ u r u', submit_wait mem left_ u = (r, u') -> ksteps ms mem (rc_state u) (rc_state u');
}.
Arguments rc_state {U _ _ ms} _ _.
Arguments rc_empty {U _ _ ms} _ _ _.
Arguments rc_push {U _ _ ms} _ _ _ _ _.
Arguments rc_ready {U _ _ ms} _ _ _ _ _ _.
Arguments rc_advance {U _ _ ms} _ _ _ _.
Arguments rc_submit {U _ _ ms} _ _ _ _ _ _.
Arguments rc_wait {U _ _ ms} _ _ _ _ _ _ _.
