(* ===== verification/Uring.v ===== *)
(** * transport-io-uring: the driver

    Models [UringDriver] of [crates/transports/io-uring/src/driver.rs]: [bind], one function
    per method, [poll_frames] and [drop], over any [IoUring] of UringKernel. Methods that
    return [Result] are state-error computations with their own notation. *)

From S2P Require Import Prelude TransportCore Pools Bypass UringParts UringKernel.
From Stdlib Require Import ZArith Lia.
From stdpp Require Import prelude list strings.

Open Scope Z_scope.
Open Scope res_scope.

Import FrameBatch (frames, cap, spare).
Import IndexPool (IndexFrame).

Definition EAGAIN : Z := 11.
Definition EBUSY : Z := 16.
Definition EINTR : Z := 4.
Definition ETIME : Z := 62.
Definition EPERM : Z := 1.
Definition ENOSYS : Z := 38.

(** [io::Error::from_raw_os_error], with the kinds the code tells apart. *)
Definition from_raw_os_error (errno : Z) : io_Error :=
  {| kind := if errno =? EAGAIN then WouldBlock else if errno =? EINTR then Interrupted
             else if errno =? 110 then TimedOut else if errno =? 12 then OutOfMemory
             else if (errno =? 95) || (errno =? ENOSYS) then UnsupportedKind else Other;
     raw_os_error := Some errno |}.

(** [matches!(e.raw_os_error(), Some(..))]. *)
Definition raw_in (e : io_Error) (codes : list Z) : bool :=
  match raw_os_error e with Some c => existsb (Z.eqb c) codes | None => false end.

Definition BACKEND : string := "io-uring".

(** [UringDriver]; [base] is the address of the pool's region. *)
Record UringDriver (U : Type) := Ud {
  ring : U;
  pool : IndexPool.t;
  buf_ring : option RingMem;
  base : Z;
  path : RecvPath;
  slot_size : Z;
  skip_success : bool;
  fleet : Fleet.t;
  back : list Z;
  stats : DriverStats;
}.
Arguments Ud {U}.
Arguments ring {U}.
Arguments pool {U}.
Arguments buf_ring {U}.
Arguments base {U}.
Arguments path {U}.
Arguments slot_size {U}.
Arguments skip_success {U}.
Arguments fleet {U}.
Arguments back {U}.
Arguments stats {U}.

Section setters.
Context {U : Type}.
Implicit Types (d : UringDriver U).
Definition set_ring (u : U) d := Ud u (pool d) (buf_ring d) (base d) (path d) (slot_size d) (skip_success d) (fleet d) (back d) (stats d).
Definition set_pool p d := Ud (ring d) p (buf_ring d) (base d) (path d) (slot_size d) (skip_success d) (fleet d) (back d) (stats d).
Definition set_buf_ring b d := Ud (ring d) (pool d) b (base d) (path d) (slot_size d) (skip_success d) (fleet d) (back d) (stats d).
Definition set_fleet f d := Ud (ring d) (pool d) (buf_ring d) (base d) (path d) (slot_size d) (skip_success d) f (back d) (stats d).
Definition set_back b d := Ud (ring d) (pool d) (buf_ring d) (base d) (path d) (slot_size d) (skip_success d) (fleet d) b (stats d).
Definition set_stats s d := Ud (ring d) (pool d) (buf_ring d) (base d) (path d) (slot_size d) (skip_success d) (fleet d) (back d) s.
End setters.

(** ** State-error computations *)

Definition io {U} (A : Type) : Type := UringDriver U -> res TransportError A * UringDriver U.

Definition ret {U A} (x : A) : io (U := U) A := fun d => (Ok x, d).
Definition fail {U A} (e : TransportError) : io (U := U) A := fun d => (Err e, d).
Definition and_then {U A B} (m : io (U := U) A) (k : A -> io (U := U) B) : io (U := U) B :=
  fun d => match m d with (Ok x, d) => k x d | (Err e, d) => (Err e, d) | (Panic, d) => (Panic, d) end.

Declare Scope io_scope.
Notation "'let!' x ':=' c 'in' k" := (and_then c (fun x => k)) (at level 10, x pattern, c at level 200, k at level 200) : io_scope.
Open Scope io_scope.

Section driver.
Context {U : Type} `{IoUring U, CqFlags}.
Implicit Types (d : UringDriver U) (out : FrameBatch.t IndexFrame).

(** [enter]: busy and interrupted are no error. *)
Definition enter : io (U := U) unit := fun d =>
  let s := stats d in
  let d := set_stats {| no_buffer := no_buffer s; nic_missed := nic_missed s; ds_truncated := ds_truncated s;
                        syscalls := u64_add (syscalls s) 1 |} d in
  let '(answer, u) := submit (buf_ring d) (ring d) in
  let d := set_ring u d in
  match answer with
  | None => (Ok tt, d)
  | Some error => if raw_in error [EAGAIN; EBUSY; EINTR] then (Ok tt, d) else (Err (Io "io_uring_enter" error), d)
  end.

(** [push]: a full queue is submitted to make room, and tried once more. *)
Definition push (entry : SqEntry) : io (U := U) unit := fun d =>
  match sq_push entry (ring d) with
  | Some u => (Ok tt, set_ring u d)
  | None =>
      (let! _ := enter in
       fun d => match sq_push entry (ring d) with
                | Some u => (Ok tt, set_ring u d)
                | None => (Err (Io "io_uring submission queue" {| kind := WouldBlock; raw_os_error := None |}), d)
                end) d
  end.

(** [submit_if_needed]. *)
Definition submit_if_needed : io (U := U) unit := fun d =>
  if sq_is_empty (ring d) && negb (cq_overflow (ring d)) then (Ok tt, d) else enter d.

(** The [for] of [arm]. *)
Fixpoint arm_loop (wanted : nat) : io (U := U) unit :=
  match wanted with
  | O => ret tt
  | S wanted =>
      let! _ := push SqRecv in
      let! _ := (fun d => (Ok tt, set_fleet (Fleet.arm_one (fleet d)) d)) in
      arm_loop wanted
  end.

Definition arm : io (U := U) unit := fun d => arm_loop (Z.to_nat (Fleet.wanted (fleet d))) d.

(** Address of a slot's buffer. *)
Definition slot_addr d (slot : Z) : Z := (base d + slot * IndexPool.stride (pool d)) mod W64.

(** The arguments of the [ring.push] of [hand_over]. *)
Definition ring_entry d (slot : Z) : Entry := {| e_addr := slot_addr d slot; e_len := slot_size d; e_bid := id16 slot |}.

(** The closure [hand_over] gives to [provide_runs]. *)
Definition provide_run (first : Z) (run : nat) : io (U := U) unit := fun d =>
  push (SqProvide (slot_addr d first) (slot_size d) (id16 (Z.of_nat run)) (id16 first) (skip_success d)) d.

(** [hand_over]: what is left of [back]. The search in [provide_runs] never runs out. *)
Definition hand_over (slots_back : list Z) d : res TransportError unit * list Z * UringDriver U :=
  match buf_ring d with
  | Some r =>
      let r := foldl (fun r slot => UringParts.push (ring_entry d slot) r) r slots_back in
      (Ok tt, [], set_buf_ring (Some (publish r)) d)
  | None => default (Panic, slots_back, d) (provide_runs provide_run slots_back d)
  end.

(** [give_back]. *)
Definition give_back : io (U := U) unit := fun d =>
  match back d with
  | [] => (Ok tt, d)
  | slots_back =>
      let queued := length slots_back in
      let '(handed, rest, d) := hand_over slots_back (set_back [] d) in
      let d := set_fleet (Fleet.refilled (queued - length rest) (fleet d)) d in
      (handed, set_back rest d)
  end.

Definition is_multishot d : bool := bool_decide (path d = Multishot).

(** What [complete] makes of one recv completion it classified. *)
Definition on_completion (c : Completion) d out (pushed : Z) : res TransportError Z * UringDriver U * FrameBatch.t IndexFrame :=
  let d := set_fleet (Fleet.complete c (fleet d)) d in
  let s := stats d in
  match c with
  | Data slot n _ =>
      let '(f, p) := IndexPool.frame (pool d) slot 0 n in (Ok (pushed + 1), set_pool p d, FrameBatch.push out f)
  | Truncated slot _ =>
      (Ok pushed,
       set_back (back d ++ [slot])
         (set_stats {| no_buffer := no_buffer s; nic_missed := nic_missed s;
                       ds_truncated := u64_add (ds_truncated s) 1; syscalls := syscalls s |} d), out)
  | UringParts.Empty _ => (Ok pushed, d, out)
  | NoBuffers =>
      (Ok pushed,
       set_stats {| no_buffer := u64_add (no_buffer s) 1; nic_missed := nic_missed s;
                    ds_truncated := ds_truncated s; syscalls := syscalls s |} d, out)
  | Failed errno => (Err (Io "io_uring recv" (from_raw_os_error errno)), d, out)
  end.

(** The [while] of [complete]: the answer, and how many completions were consumed. *)
Fixpoint complete_loop (cqes : list Cqe) d out (pushed : Z) (consumed : nat)
    : res TransportError Z * UringDriver U * FrameBatch.t IndexFrame * nat :=
  match cqes with
  | [] => (Ok pushed, d, out, consumed)
  | c :: cqes =>
      if spare out >? 0 then
        if user_data c =? UD_RECV then
          match on_completion (classify (result c) (flags c) (slot_size d) (is_multishot d)) d out pushed with
          | (Ok pushed, d, out) => complete_loop cqes d out pushed (S consumed)
          | (r, d, out) => (r, d, out, S consumed)
          end
        else if (user_data c =? UD_PROVIDE) && (result c <? 0)
        then (Err (Io "io_uring provide buffers" (from_raw_os_error (- result c))), d, out, S consumed)
        else complete_loop cqes d out pushed (S consumed)
      else (Ok pushed, d, out, consumed)
  end.

(** [complete]. *)
Definition complete d out : res TransportError Z * UringDriver U * FrameBatch.t IndexFrame :=
  let '(cqes, u) := completion (buf_ring d) (ring d) in
  let '(r, d, out, consumed) := complete_loop cqes (set_ring u d) out 0 0 in
  (r, set_ring (advance consumed (ring d)) d, out).

(** The first lines of [poll_frames]: the freed list and [back] change places. *)
Definition drain d : UringDriver U :=
  let '(freed, p) := IndexPool.drain_freed (pool d) (back d) in set_back freed (set_pool p d).

(** The refill of [poll_frames]. *)
Definition refill : io (U := U) unit :=
  let! _ := give_back in
  let! _ := arm in
  submit_if_needed.

(** [<UringDriver as Driver>::poll_frames]. *)
Definition uring_poll (_ : nat) d out : option (poll_result (UringDriver U) IndexFrame) :=
  let d := drain d in
  let '(completed, d, out) := complete d out in
  let '(refilled, d) := refill d in
  Some (let* pushed := completed in
        let* _ := refilled in
        Ok (if pushed >? 0 then Frames pushed else if Fleet.starved (fleet d) then Exhausted else Idle), d, out).

(** Dropping a live frame. *)
Definition drop_live d (f : IndexFrame) : UringDriver U := set_pool (IndexPool.drop_frame (pool d) f) d.

(** ** Teardown *)

Definition CANCEL_WAIT : Z := 1000000000.

(** The [for cqe in self.ring.completion()] of [cancel_recvs]. *)
Definition read_ended d : UringDriver U :=
  let '(cqes, u) := completion (buf_ring d) (ring d) in
  let d := set_ring u d in
  let d := foldl (fun d c =>
    if user_data c =? UD_RECV
    then set_fleet (Fleet.complete (classify (result c) (flags c) (slot_size d) (is_multishot d)) (fleet d)) d
    else d) d cqes in
  set_ring (advance (length cqes) (ring d)) d.

(** One round of the [while] of [cancel_recvs]. *)
Definition cancel_round (deadline : Z) (s : UringDriver U * Clock) : step (UringDriver U * Clock) (bool * UringDriver U) :=
  let '(d, clock) := s in
  if negb (Fleet.armed (fleet d) >? 0) then Leave (true, d)
  else
    let '(now, clock) := now_of clock in
    let left_ := duration_since deadline now in
    if left_ =? 0 then Leave (false, d)
    else
      match push SqCancel d with
      | (Ok _, d) =>
          let '(answer, u) := submit_wait (buf_ring d) left_ (ring d) in
          let d := set_ring u d in
          match answer with
          | None => Again (read_ended d, clock)
          | Some e => if raw_in e [ETIME; EINTR] then Again (read_ended d, clock) else Leave (false, d)
          end
      | (_, d) => Leave (false, d)
      end.

Definition cancel_recvs (fuel : nat) d (clock : Clock) : option (bool * UringDriver U) :=
  let '(now, clock) := now_of clock in
  iterate (cancel_round (now + CANCEL_WAIT)) fuel (d, clock).

(** [drop]: whether the receive memory is freed, and the ring as it is closed; otherwise
    the memory is leaked. *)
Definition drop_driver (fuel : nat) d (clock : Clock) : option (bool * U) :=
  match cancel_recvs fuel d clock with
  | Some (quiet, d) => Some (quiet, ring d)
  | None => None
  end.

(** ** Opening *)

(** What the operating system answers during [bind]. *)
Record Os := {
  os_alloc : Z -> bool;
  os_base : Z;
  os_socket : option io_Error;
  os_recv_buf : option io_Error;
  os_bind : option io_Error;
  os_ring : Z -> Z -> res io_Error U;
  os_skip_success : bool;
  os_probe : U -> ProbeAnswers * U;
  os_mmap : option io_Error;
  os_register : option io_Error;
}.

(** [socket]. *)
Definition socket (os : Os) (cfg : IoUringConfig) : res TransportError unit :=
  let try (stage : string) (answer : option io_Error) : res TransportError unit :=
    match answer with Some e => Err (Io stage e) | None => Ok tt end in
  let* _ := try "socket" (os_socket os) in
  let* _ := match recv_buf cfg with
            | Some _ => try "setsockopt(SO_RCVBUF)" (os_recv_buf os)
            | None => Ok tt
            end in
  match os_bind os with Some e => Err (Bind (bind_addr cfg) e) | None => Ok tt end.

(** [open_ring]. *)
Definition open_ring (os : Os) (sq cq : Z) : res TransportError U :=
  map_err (fun e => if raw_in e [EPERM; ENOSYS] then Unavailable BACKEND "io_uring disabled or absent" (Some e)
                    else Io "io_uring_setup" e) (os_ring os sq cq).

(** The driver [bind] builds before its first [give_back]. *)
Definition build (cfg : IoUringConfig) (p : IndexPool.t) (base_ : Z) (u : U) (skip : bool) (path_ : RecvPath) (mem : option RingMem)
    : UringDriver U :=
  Ud u p mem base_ path_ (cfg_slot_size cfg) skip
     (Fleet.new (if bool_decide (path_ = Multishot) then 1 else depth cfg)) (seqZ 0 (slots cfg)) DriverStats_default.

(** The end of [bind]. *)
Definition launch : io (U := U) unit :=
  let! _ := give_back in
  let! _ := arm in
  enter.

(** [UringDriver::bind]: the answer, and the driver, which is dropped if the answer is
    an error. *)
Definition bind (os : Os) (cfg : IoUringConfig) : res TransportError unit * option (UringDriver U) :=
  match (let* _ := validate_uring cfg in
         let* p := IndexPool.new (os_alloc os) (slots cfg) (cfg_slot_size cfg) in
         let* _ := socket os cfg in
         let* u := open_ring os (next_power_of_two (depth cfg + 2)) (next_power_of_two (slots cfg + depth cfg + 2)) in
         let '(answers, u) := os_probe os u in
         let* support := (probe answers).1 in
         let* path_ := select (cfg_path cfg) support in
         let* mem :=
           match path_ with
           | Legacy => Ok None
           | BufRing | Multishot =>
               match os_mmap os with
               | Some e => Err (Io "mmap" e)
               | None =>
                   match os_register os with
                   | Some e => Err (Io "io_uring register buf ring" e)
                   | None => Ok (Some (RingMem_new (id16 (next_power_of_two (slots cfg)))))
                   end
               end
           end in
         Ok (build cfg p (os_base os) u (os_skip_success os) path_ mem)) with
  | Ok d => let '(r, d) := launch d in (r, Some d)
  | Err e => (Err e, None)
  | Panic => (Panic, None)
  end.
End driver.

(** [IoUringUdp::join_multicast], over the two socket calls it makes. *)
Definition join_multicast (join_v4 : list byte -> list byte -> option io_Error) (join_v6 : list byte -> Z -> option io_Error)
    (group : IpAddr) (iface : MulticastInterface) : res TransportError unit :=
  let tag (answer : option io_Error) : res TransportError unit :=
    match answer with Some e => Err (Io "join_multicast" e) | None => Ok tt end in
  match group with
  | V4 g =>
      if bool_decide (v6_scope_id iface <> None) then Err (InvalidConfig "iface.v6_scope_id" "set for IPv4 group")
      else tag (join_v4 g (default [Byte.x00; Byte.x00; Byte.x00; Byte.x00] (v4 iface)))
  | V6 g =>
      if bool_decide (v4 iface <> None) then Err (InvalidConfig "iface.v4" "set for IPv6 group")
      else tag (join_v6 g (default 0 (v6_scope_id iface)))
  end.

#[export] Instance Uring_driver {U} `{IoUring U, CqFlags} : Driver (UringDriver U) IndexFrame := {|
  Bypass.BACKEND := BACKEND;
  poll_frames := uring_poll;
  driver_stats := fun d => (stats d, d);
  driver_pool_stats := fun d => IndexPool.stats (pool d);
|}.

(** ** [IoUringUdp]: the shell over the driver *)

Section udp.
Context {U : Type} `{IoUring U, CqFlags}.

(** [IoUringUdp::bind]. *)
Definition udp_bind (os : Os (U := U)) (cfg : IoUringConfig) : res TransportError (BypassTransport L4 (UringDriver U)) :=
  match bind os cfg with
  | (Ok _, Some d) => Ok (Bypass.new d)
  | (Err e, _) => Err e
  | _ => Panic
  end.

(** [IoUringUdp::path] and [IoUringUdp::stats]. *)
Definition udp_path (t : BypassTransport L4 (UringDriver U)) : RecvPath := path (driver t).
Definition udp_stats (t : BypassTransport L4 (UringDriver U)) : DriverStats := stats (driver t).
End udp.

(** [IoUringUdp::local_addr]; the system's answer is [None] when the address is not an IP one. *)
Definition udp_local_addr (getsockname : res io_Error (option SocketAddr)) : res TransportError SocketAddr :=
  let* addr := map_err (Io "getsockname") getsockname in
  ok_or addr (Io "getsockname" {| kind := UnsupportedKind; raw_os_error := None |}).
