(* ===== verification/UringSafety.v ===== *)
(** * transport-io-uring: where every slot and every recv is

    Invariant of the driver of Uring.v against any ring that keeps [ring_contract]: each pool
    slot is in exactly one place (on its way back, freed, in a live frame, with the kernel),
    the fleet's count is that of the recvs out, and what the kernel was given addresses
    slots of the pool. *)

From S2P Require Import Prelude TransportCore Pools Bypass UringParts UringKernel Uring.
From Stdlib Require Import ZArith Lia.
From stdpp Require Import prelude list relations sorting strings.

Open Scope Z_scope.
Open Scope res_scope.

Import FrameBatch (frames, cap, spare).
Import IndexPool (IndexFrame, shape).

Section safety.
Context {U : Type} `{IoUring U, CqFlags} (size : Z) (ms : bool) (C : ring_contract U ms).
Implicit Types (d : UringDriver U) (s : KState) (live : list IndexFrame) (out : FrameBatch.t IndexFrame).

(** *** The invariant *)

(** [hand] is slots a method has taken out of [back]. *)
Definition places d s live (hand : list Z) : list Z :=
  hand ++ back d ++ IndexPool.freed (pool d) ++ (IndexPool.slot <$> live) ++ kernel_slots (buf_ring d) s.

Definition sq_good d (e : SqEntry) : Prop :=
  match e with SqProvide addr n _ first _ => addr = slot_addr d first /\ n = slot_size d | _ => True end.

Definition entry_good d (en : Entry) : Prop := e_addr en = slot_addr d (e_bid en) /\ e_len en = slot_size d.

Definition mem_wf (count : Z) (mem : option RingMem) : Prop :=
  match mem with
  | Some r => exists e, 0 <= e <= 15 /\ ring_mem_wf e r /\ resv r = UringParts.tail r /\ count <= 2 ^ e
  | None => True
  end.

Record uring_inv d s live hand : Prop := {
  i_path : is_multishot d = ms;
  i_size : slot_size d = size /\ 0 < size;
  i_pool : IndexPool.wf (pool d) /\ IndexPool.stride (pool d) = size /\ IndexPool.count (pool d) <= 32768;
  i_mem : mem_wf (IndexPool.count (pool d)) (buf_ring d);
  i_strong : IndexPool.strong (pool d) = 1 + len live;
  i_live : Forall (IndexPool.frame_in_bounds (pool d)) live;
  i_sq : Forall (sq_good d) (ks_sq s);
  i_entries : Forall (entry_good d) (published_entries (buf_ring d) s);
  i_armed : Fleet.armed (fleet d) = Z.of_nat (kernel_recvs ms s);
  i_places : places d s live hand ≡ₚ seqZ 0 (IndexPool.count (pool d));
  i_posted : Forall posted (ks_cq s);
}.

Definition uring_wf d live hand : Prop := uring_inv d (rc_state C (ring d)) live hand.

Lemma place_bounds d s live hand x : uring_inv d s live hand -> x ∈ places d s live hand -> 0 <= x < IndexPool.count (pool d).
Proof using. intros I Hx. rewrite (i_places _ _ _ _ I) in Hx. apply elem_of_seqZ in Hx. lia. Qed.

Lemma inv_hand d s live hand hand' : hand ≡ₚ hand' -> uring_inv d s live hand -> uring_inv d s live hand'.
Proof using. intros Hp [I1 I2 I3 I4 I5 I6 I7 I8 I9 I10 I11]. constructor; try done. rewrite <- I10. unfold places. by rewrite Hp. Qed.

(** *** Moves of the kernel *)

Lemma kstep_shrinks mem s s' :
  kstep ms mem s s' -> ks_sq s' `suffix_of` ks_sq s /\ published_entries mem s' `suffix_of` published_entries mem s.
Proof using.
  intros Hs. destruct Hs as [| | | |en entries s Hp| | | |]; unfold published_entries in *; cbn [ks_sq ks_head] in *;
    try (split; [done|done]); try (split; [by eexists [_]|done]).
  destruct mem as [r|]; [|done]. split; [done|]. rewrite (published_cons _ _ _ _ Hp), Hp. by exists [en].
Qed.

Lemma ksteps_shrinks mem s s' :
  ksteps ms mem s s' -> ks_sq s' `suffix_of` ks_sq s /\ published_entries mem s' `suffix_of` published_entries mem s.
Proof using.
  induction 1 as [s|s s1 s2 Hs _ [IH1 IH2]]; [done|]. destruct (kstep_shrinks _ _ _ Hs) as [H1 H2].
  split; by etrans.
Qed.

Lemma Forall_suffix {A} (P : A -> Prop) (l k : list A) : l `suffix_of` k -> Forall P k -> Forall P l.
Proof using. intros [x ->] [_ Hf]%Forall_app. done. Qed.

Lemma inv_ksteps d s s' live hand : uring_inv d s live hand -> ksteps ms (buf_ring d) s s' -> uring_inv d s' live hand.
Proof using.
  intros [I1 I2 I3 I4 I5 I6 I7 I8 I9 I10 I11] Hk. destruct (ksteps_accounts _ _ _ _ Hk) as (Ks & Kr & _).
  destruct (ksteps_shrinks _ _ _ Hk) as [S1 S2]. constructor; try done.
  - by eapply Forall_suffix.
  - by eapply Forall_suffix.
  - by rewrite Kr.
  - rewrite <- I10. unfold places. by rewrite Ks.
  - by eapply ksteps_posted.
Qed.

(** *** [enter] and [push] *)

(** A method that only moved the ring and the syscall counter. *)
Definition counters d : Z * Z * Z := (no_buffer (stats d), nic_missed (stats d), ds_truncated (stats d)).

(** No counter but the syscalls moved, and no datagram was added. *)
Definition keeps d d' : Prop :=
  counters d' = counters d /\ (kernel_backlog (rc_state C (ring d')) <= kernel_backlog (rc_state C (ring d)))%nat.

#[local] Instance keeps_preorder : PreOrder keeps.
Proof using. split; [done|]. intros d1 d2 d3 [A1 A2] [B1 B2]. split; [congruence|lia]. Qed.

Definition ring_moved d d' : Prop := exists u x, d' = set_ring u (set_stats x d) /\ keeps d d'.

Lemma moved_refl d : ring_moved d d.
Proof using. exists (ring d), (stats d). by destruct d. Qed.

Lemma moved_trans d1 d2 d3 : ring_moved d1 d2 -> ring_moved d2 d3 -> ring_moved d1 d3.
Proof using. intros (u & x & -> & E) (u' & x' & -> & E'). exists u', x'. split; [done|by etrans]. Qed.

Lemma inv_moved d d' s live hand : ring_moved d d' -> uring_inv d s live hand -> uring_inv d' s live hand.
Proof using. intros (u & x & -> & _) I. destruct I. by constructor. Qed.

Lemma enter_spec d r d' :
  enter d = (r, d') -> ring_moved d d' /\ r <> Panic /\
  ksteps ms (buf_ring d) (rc_state C (ring d)) (rc_state C (ring d')).
Proof using.
  unfold enter. intros E. destruct (submit _ _) as [a u] eqn:Es. pose proof (rc_submit C _ _ _ _ Es) as Hk.
  cbn [set_stats ring buf_ring] in Hk.
  assert (Hd : r <> Panic /\ exists x, d' = set_ring u (set_stats x d) /\ counters d' = counters d).
  { destruct a as [e|]; [destruct (raw_in e _)|]; simplify_eq; (split; [done|by eexists]). }
  destruct Hd as (Hr & x & -> & Hc). pose proof (ksteps_accounts _ _ _ _ Hk) as (_ & _ & Hb).
  split_and!; [by exists u, x|done|done].
Qed.

Definition with_sq (sq : list SqEntry) s : KState :=
  KS sq (ks_cq s) (ks_armed s) (ks_group s) (ks_lost s) (ks_head s) (ks_net s).

Lemma sq_push_moved e u d : sq_push e (ring d) = Some u -> ring_moved d (set_ring u d).
Proof using.
  intros E. exists u, (stats d). split; [by destruct d|]. split; [done|]. cbn [set_ring ring]. rewrite (rc_push C _ _ _ E). done.
Qed.

Lemma push_spec e d r d' :
  Uring.push e d = (r, d') -> ring_moved d d' /\ exists s, ksteps ms (buf_ring d) (rc_state C (ring d)) s /\
  match r with
  | Ok _ => rc_state C (ring d') = with_sq (ks_sq s ++ [e]) s
  | Err _ => rc_state C (ring d') = s
  | Panic => False
  end.
Proof using.
  unfold Uring.push. intros E. destruct (sq_push e (ring d)) as [u|] eqn:Ep.
  { simplify_eq. split; [by eapply sq_push_moved|]. exists (rc_state C (ring d)). split; [apply rtc_refl|].
    exact (rc_push C _ _ _ Ep). }
  unfold and_then in E. destruct (enter d) as [w d1] eqn:Ee. apply enter_spec in Ee as (Hm & Hw & Hk).
  destruct w as [[]|e1|]; [| |done].
  - destruct (sq_push e (ring d1)) as [u|] eqn:Ep1; simplify_eq.
    + split; [eapply moved_trans; [exact Hm|by eapply sq_push_moved]|]. exists (rc_state C (ring d1)).
      split; [exact Hk|]. exact (rc_push C _ _ _ Ep1).
    + split; [done|]. by exists (rc_state C (ring d')).
  - simplify_eq. split; [done|]. by exists (rc_state C (ring d')).
Qed.

(** *** Handing slots to the kernel *)

Lemma kernel_slots_sq mem sq s : kernel_slots mem (with_sq sq s) ++ sq_slots (ks_sq s) ≡ₚ kernel_slots mem s ++ sq_slots sq.
Proof using. unfold kernel_slots, published_entries, with_sq. cbn. solve_Permutation. Qed.

Lemma kernel_recvs_sq sq s : (kernel_recvs ms (with_sq sq s) + sq_recvs (ks_sq s) = kernel_recvs ms s + sq_recvs sq)%nat.
Proof using. unfold kernel_recvs, with_sq. cbn [ks_sq ks_cq ks_armed]. lia. Qed.

Lemma kernel_slots_snoc mem e s : kernel_slots mem (with_sq (ks_sq s ++ [e]) s) ≡ₚ kernel_slots mem s ++ sq_slots [e].
Proof using.
  apply (Permutation_app_inv_r (sq_slots (ks_sq s))). rewrite kernel_slots_sq, sq_slots_app, app_assoc.
  rewrite <- !app_assoc. apply Permutation_app_head, Permutation_app_comm.
Qed.

Lemma kernel_recvs_snoc e s : kernel_recvs ms (with_sq (ks_sq s ++ [e]) s) = (kernel_recvs ms s + sq_recvs [e])%nat.
Proof using. pose proof (kernel_recvs_sq (ks_sq s ++ [e]) s) as Hk. rewrite sq_recvs_app in Hk. lia. Qed.

Lemma published_sq mem sq s : published_entries mem (with_sq sq s) = published_entries mem s.
Proof using. done. Qed.

(** A slot id fits the sixteen bits it travels in. *)
Lemma id16_slot d s live hand x : uring_inv d s live hand -> x ∈ hand -> id16 x = x.
Proof using.
  intros I Hx. pose proof (place_bounds _ _ _ _ x I) as Hb. destruct (i_pool _ _ _ _ I) as (_ & _ & Hc).
  unfold id16. apply Z.mod_small. unfold places in Hb. rewrite elem_of_app in Hb. specialize (Hb (or_introl Hx)). lia.
Qed.

(** One provided run. *)
Lemma provide_run_spec d live first n hand r d' :
  uring_wf d live (seqZ first (Z.of_nat n) ++ hand) -> (0 < n)%nat -> provide_run first n d = (r, d') ->
  ring_moved d d' /\
  match r with
  | Ok _ => uring_wf d' live hand
  | Err _ => uring_wf d' live (seqZ first (Z.of_nat n) ++ hand)
  | Panic => False
  end.
Proof using.
  intros I Hn E. unfold provide_run in E. apply push_spec in E as (Hm & s & Hk & Hr). split; [done|].
  pose proof (inv_ksteps _ _ _ _ _ I Hk) as I1.
  assert (Hf : id16 first = first).
  { eapply id16_slot; [exact I|]. rewrite elem_of_app, elem_of_seqZ. lia. }
  assert (Hlen : id16 (Z.of_nat n) = Z.of_nat n).
  { destruct (i_pool _ _ _ _ I) as (_ & _ & Hc). unfold id16. apply Z.mod_small.
    pose proof (Permutation_length (i_places _ _ _ _ I)) as Hl. unfold places in Hl.
    rewrite !length_app, !length_seqZ in Hl. lia. }
  rewrite Hf, Hlen in Hr. destruct r as [u|e|]; [| |done].
  - unfold uring_wf. rewrite Hr. apply (inv_moved d); [done|]. destruct I1 as [J1 J2 J3 J4 J5 J6 J7 J8 J9 J10 J11].
    constructor; try done.
    + cbn. apply Forall_app. split; [done|]. by repeat constructor.
    + rewrite kernel_recvs_snoc, J9. unfold sq_recvs. rewrite filter_cons, decide_False by done. simpl. lia.
    + rewrite <- J10. unfold places. rewrite kernel_slots_snoc. unfold sq_slots at 1. simpl. rewrite app_nil_r. solve_Permutation.
  - unfold uring_wf. rewrite Hr. by apply (inv_moved d).
Qed.

(** Runs accepted one after the other. *)
Lemma provided_spec calls d live hand d' :
  Forall (fun c => (0 < c.2)%nat) calls -> uring_wf d live (run_slots calls ++ hand) ->
  provided provide_run calls d = Some d' -> ring_moved d d' /\ uring_wf d' live hand.
Proof using.
  revert d. induction calls as [|[first n] calls IH]; intros d Hc I E; cbn [provided] in E.
  { simplify_eq. split; [apply moved_refl|done]. }
  apply Forall_cons in Hc as [Hn Hc]. destruct (provide_run first n d) as [r d1] eqn:Ep.
  apply (provide_run_spec _ live _ _ (run_slots calls ++ hand)) in Ep as [Hm Hr]; [|by rewrite app_assoc|done].
  destruct r as [u|e|]; [|done|done]. destruct (IH _ Hc Hr E) as [Hm2 I2]. split; [by eapply moved_trans|done].
Qed.

Lemma inv_buf_ring d r s live hand hand' :
  uring_inv d s live hand -> mem_wf (IndexPool.count (pool d)) (Some r) ->
  Forall (entry_good d) (published (ks_head s) r) ->
  (e_bid <$> published (ks_head s) r) ++ hand' ≡ₚ (e_bid <$> published_entries (buf_ring d) s) ++ hand ->
  uring_inv (set_buf_ring (Some r) d) s live hand'.
Proof using.
  intros [I1 I2 I3 I4 I5 I6 I7 I8 I9 I10 I11] Hm Hg Hp. constructor; try done.
  rewrite <- I10. unfold places, kernel_slots. cbn [buf_ring set_buf_ring published_entries back pool].
  transitivity (((e_bid <$> published (ks_head s) r) ++ hand') ++ back d ++ IndexPool.freed (pool d) ++ (IndexPool.slot <$> live) ++
    sq_slots (ks_sq s) ++ ks_group s ++ cq_slots (ks_cq s) ++ ks_lost s); [solve_Permutation|].
  rewrite Hp. solve_Permutation.
Qed.

(** Every entry queued in turn. *)
Lemma push_all_queued e en_of (hand : list Z) head r :
  0 <= e <= 15 -> ring_mem_wf e r -> len (queued head r) + len hand <= 2 ^ e ->
  let r' := foldl (fun r slot => UringParts.push (en_of slot) r) r hand in
  ring_mem_wf e r' /\ queued head r' = queued head r ++ (en_of <$> hand).
Proof using.
  intros He. revert r. induction hand as [|x hand IH]; intros r Hw Hn; cbn [foldl].
  { split; [done|]. by rewrite app_nil_r. }
  rewrite len_cons in Hn. pose proof (len_nonneg hand).
  pose proof (push_queued e He (en_of x) head r Hw ltac:(lia)) as Hq.
  destruct (IH (UringParts.push (en_of x) r)) as [Hw' Hq']; [by apply push_wf|rewrite Hq, len_app, len_cons, len_nil; lia|].
  split; [done|]. rewrite Hq', Hq, <- app_assoc. done.
Qed.

(** Room for the whole hand in the buffer ring. *)
Lemma ring_room d live hand m e :
  uring_wf d live hand -> buf_ring d = Some m -> resv m = UringParts.tail m -> IndexPool.count (pool d) <= 2 ^ e ->
  len (queued (ks_head (rc_state C (ring d))) m) + len hand <= 2 ^ e.
Proof using.
  intros I Em Ht Hc. pose proof (Permutation_length (i_places _ _ _ _ I)) as Hl. unfold places, kernel_slots in Hl.
  rewrite Em in Hl. cbn [published_entries] in Hl. unfold published in Hl. rewrite Ht in Hl.
  fold (queued (ks_head (rc_state C (ring d))) m) in Hl. rewrite !length_app, !length_fmap, length_seqZ in Hl. unfold len.
  destruct (i_pool _ _ _ _ I) as ((_ & ? & _) & _). lia.
Qed.

Lemma hand_over_ring d live hand m :
  uring_wf d live hand -> buf_ring d = Some m ->
  let r := foldl (fun r slot => UringParts.push (ring_entry d slot) r) m hand in
  uring_wf (set_buf_ring (Some (publish r)) d) live [].
Proof using.
  intros I Em r. pose proof (i_mem _ _ _ _ I) as Hm. rewrite Em in Hm.
  destruct Hm as (e & He & Hw & Ht & Hc). set (s := rc_state C (ring d)).
  destruct (push_all_queued e (ring_entry d) hand (ks_head s) m He Hw (ring_room _ _ _ _ _ I Em Ht Hc)) as [Hw' Hq].
  fold r in Hw', Hq. pose proof (fun x => id16_slot _ _ _ _ x I) as Hid.
  apply (inv_buf_ring d _ s live hand []); [exact I| | |].
  - exists e. split_and!; [lia|lia|by apply publish_wf|done|done].
  - rewrite publish_published, Hq. apply Forall_app. split.
    + pose proof (i_entries _ _ _ _ I) as Hg. rewrite Em in Hg. cbn [published_entries] in Hg. unfold published in Hg.
      by rewrite Ht in Hg.
    + apply Forall_fmap, Forall_forall. intros x Hx. split; [|done]. cbn. by rewrite (Hid x).
  - rewrite publish_published, Hq, Em. cbn [published_entries]. unfold published. rewrite Ht.
    fold (queued (ks_head s) m). rewrite app_nil_r, fmap_app. apply Permutation_app_head.
    rewrite <- list_fmap_compose. apply reflexive_eq. etrans; [|apply list_fmap_id]. apply list_fmap_ext.
    intros i x Hx. apply list_elem_of_lookup_2 in Hx. cbn. by apply Hid.
Qed.

Lemma hand_over_runs d live hand :
  uring_wf d live hand ->
  exists r rest d', provide_runs provide_run hand d = Some (r, rest, d') /\ ring_moved d d' /\
  uring_wf d' live rest /\ r <> Panic /\ (is_ok r = true -> rest = []) /\ (length rest <= length hand)%nat.
Proof using.
  intros I. destruct (provide_runs_spec provide_run hand d) as ([[r rest] d'] & Ex & calls & d2 & Hp & Hc & _ & Hr).
  exists r, rest, d'. split; [done|]. set (sorted := merge_sort (fun a b => a <= b) hand) in *.
  assert (Hperm : sorted ≡ₚ hand) by apply merge_sort_Permutation.
  destruct r as [u|e|].
  - destruct Hr as (-> & -> & Hs). apply (provided_spec _ _ live []) in Hp as [Hm I2];
      [|done|rewrite Hs, app_nil_r; by eapply inv_hand]. split_and!; try done. simpl. lia.
  - destruct Hr as (Hs & first & n & Hh & Hpr).
    apply (provided_spec _ _ live rest) in Hp as [Hm I2]; [|done|rewrite Hs; by eapply inv_hand].
    assert (Hn : (length rest <= length hand)%nat).
    { rewrite <- (Permutation_length Hperm), <- Hs, length_app. lia. }
    unfold provide_run in Hpr. apply push_spec in Hpr as (Hm1 & s1 & Hk1 & Hs1).
    split_and!; [by eapply moved_trans| |done|done|done].
    unfold uring_wf. rewrite Hs1. apply (inv_moved d2); [done|]. by eapply inv_ksteps.
  - destruct Hr as (first & n & Hpr). unfold provide_run in Hpr. by apply push_spec in Hpr as (_ & s1 & _ & []).
Qed.

Lemma hand_over_spec d live hand r rest d' :
  uring_wf d live hand -> hand_over hand d = (r, rest, d') ->
  uring_wf d' live rest /\ r <> Panic /\ (is_ok r = true -> rest = []) /\ (length rest <= length hand)%nat /\
  back d' = back d /\ fleet d' = fleet d /\ pool d' = pool d /\ keeps d d'.
Proof using.
  intros I. unfold hand_over. destruct (buf_ring d) as [m|] eqn:Em; intros E.
  - simplify_eq. split_and!; try done; [|cbn; lia]. by apply hand_over_ring.
  - destruct (hand_over_runs d live hand I) as (r1 & rest1 & d1 & Ex & (u & x & -> & Hcnt) & I1 & Hp & Ho & Hl).
    rewrite Ex in E. cbn [default from_option id] in E. by injection E as <- <- <-.
Qed.

(** [give_back]: what was not handed over is back in [back]. *)
Lemma inv_refilled d s live hand n :
  uring_inv d s live hand -> uring_inv (set_fleet (Fleet.refilled n (fleet d)) d) s live hand.
Proof using.
  intros [I1 I2 I3 I4 I5 I6 I7 I8 I9 I10 I11]. constructor; try done. unfold Fleet.refilled. by destruct (0 <? n)%nat.
Qed.

Lemma inv_back d s live hand : uring_inv d s live hand -> back d = [] -> uring_inv (set_back hand d) s live [].
Proof using.
  intros [I1 I2 I3 I4 I5 I6 I7 I8 I9 I10 I11] Hb. constructor; try done. rewrite <- I10. unfold places. rewrite Hb. done.
Qed.

Lemma inv_take d s live : uring_inv d s live [] -> uring_inv (set_back [] d) s live (back d).
Proof using. intros [I1 I2 I3 I4 I5 I6 I7 I8 I9 I10 I11]. by constructor. Qed.

(** Every slot on its way back was handed over, and the gate is open if there was one. *)
Definition given_back d d' : Prop :=
  back d' = [] /\ Fleet.starved (fleet d') = (if decide (back d = []) then Fleet.starved (fleet d) else false).

Lemma give_back_spec d live r d' :
  uring_wf d live [] -> give_back d = (r, d') ->
  uring_wf d' live [] /\ r <> Panic /\ pool d' = pool d /\ keeps d d' /\
  Fleet.f_depth (fleet d') = Fleet.f_depth (fleet d) /\ (is_ok r = true -> given_back d d').
Proof using.
  intros I. unfold give_back, given_back. destruct (back d) as [|x hand0] eqn:Eb.
  { intros E. simplify_eq. by split_and!. }
  set (hand := x :: hand0) in *. pose proof (inv_take _ _ _ I) as I1. rewrite Eb in I1.
  destruct (hand_over hand (set_back [] d)) as [[r1 rest] d1] eqn:Eh. intros E.
  destruct (hand_over_spec (set_back [] d) live hand r1 rest d1 I1 Eh) as (I2 & Hp & Ho & Hl & Hb & Hf & Hpool & Hcnt).
  cbn [set_back back fleet pool] in Hb, Hf, Hpool.
  set (d2 := set_fleet (Fleet.refilled (length hand - length rest) (fleet d1)) d1) in *.
  assert (I3 : uring_wf (set_back rest d2) live []) by (by apply (inv_back d2 (rc_state C (ring d1)) live rest); [apply inv_refilled|]).
  injection E as <- <-. split_and!; [done|done|done|done| |].
  - cbn. rewrite Hf. unfold Fleet.refilled. by destruct (0 <? _)%nat.
  - intros Hr. rewrite (Ho Hr). split; [done|]. rewrite decide_False by done. cbn. rewrite (Ho Hr). done.
Qed.

(** *** Arming recvs *)

(** A method that moved the ring, the syscall counter and the fleet's count only. *)
Definition armed_moved d d' : Prop :=
  pool d' = pool d /\ back d' = back d /\ keeps d d' /\
  Fleet.f_depth (fleet d') = Fleet.f_depth (fleet d) /\ Fleet.starved (fleet d') = Fleet.starved (fleet d).

Lemma moved_armed d d' : ring_moved d d' -> armed_moved d d' /\ fleet d' = fleet d.
Proof using. intros (u & x & -> & E). by split. Qed.

Lemma arm_loop_spec n d live r d' :
  uring_wf d live [] -> arm_loop n d = (r, d') ->
  uring_wf d' live [] /\ r <> Panic /\ armed_moved d d' /\
  (is_ok r = true -> Fleet.armed (fleet d') = Fleet.armed (fleet d) + Z.of_nat n).
Proof using.
  revert d. induction n as [|n IH]; intros d I E; cbn [arm_loop] in E.
  { injection E as <- <-. split_and!; try done. intros _. lia. }
  unfold and_then in E. destruct (Uring.push SqRecv d) as [w d1] eqn:Ep.
  apply push_spec in Ep as (Hm & s & Hk & Hw). pose proof (inv_ksteps _ _ _ _ _ I Hk) as I1.
  destruct (moved_armed _ _ Hm) as [Ha Hf]. destruct w as [u|e|]; [| |done].
  - destruct (IH (set_fleet (Fleet.arm_one (fleet d1)) d1)) as (I2 & Hr & Ha2 & Hn); [|exact E|].
    + unfold uring_wf. cbn [set_fleet ring]. rewrite Hw. apply (inv_moved _ _ _ _ _ Hm) in I1.
      destruct I1 as [J1 J2 J3 J4 J5 J6 J7 J8 J9 J10 J11]. constructor; try done.
      * cbn. apply Forall_app. by split; [|constructor].
      * rewrite kernel_recvs_snoc. cbn [set_fleet fleet Fleet.arm_one Fleet.armed]. rewrite J9. unfold sq_recvs.
        rewrite filter_cons, decide_True by done. simpl. lia.
      * rewrite <- J10. unfold places. rewrite kernel_slots_snoc. unfold sq_slots. simpl. by rewrite app_nil_r.
    + split_and!; [done|done| |].
      * unfold armed_moved in *. cbn [set_fleet fleet pool back Fleet.arm_one Fleet.f_depth Fleet.starved] in Ha2.
        destruct Ha as (P1 & P2 & P3 & P4 & P5), Ha2 as (Q1 & Q2 & Q3 & Q4 & Q5). split_and!; [congruence|congruence|by etrans|congruence|congruence].
      * intros Hok. rewrite (Hn Hok). cbn [set_fleet fleet Fleet.arm_one Fleet.armed]. rewrite Hf. lia.
  - injection E as <- <-. split_and!; try done. unfold uring_wf. rewrite Hw. by apply (inv_moved d).
Qed.

(** The fleet is full, or starved and left as it was. *)
Definition fleet_ready (f : Fleet.t) : Prop := Fleet.starved f = true \/ Fleet.f_depth f <= Fleet.armed f.

Lemma arm_spec d live r d' :
  uring_wf d live [] -> arm d = (r, d') ->
  uring_wf d' live [] /\ r <> Panic /\ armed_moved d d' /\ (is_ok r = true -> fleet_ready (fleet d')).
Proof using.
  intros I E. unfold arm in E. destruct (arm_loop_spec _ _ _ _ _ I E) as (I1 & Hr & Ha & Hn).
  split_and!; [done..|]. intros Hok. specialize (Hn Hok). unfold fleet_ready. destruct Ha as (_ & _ & _ & -> & ->).
  unfold Fleet.wanted, saturating_sub in Hn. destruct (Fleet.starved (fleet d)); [by left|]. right. lia.
Qed.

Lemma enter_wf d live r d' :
  uring_wf d live [] -> enter d = (r, d') -> uring_wf d' live [] /\ r <> Panic /\ ring_moved d d'.
Proof using.
  intros I E. apply enter_spec in E as (Hm & Hr & Hk). split_and!; [|done|done].
  apply (inv_moved d); [done|]. by eapply inv_ksteps.
Qed.

(** Nothing is left for the kernel to be told: the submission queue is empty and no completion
    overflowed, or entering the kernel, which took it or was busy, was the last thing done. *)
Definition submitted d : Prop :=
  (ks_sq (rc_state C (ring d)) = [] /\ cq_overflow (ring d) = false) \/
  exists u answer, submit (buf_ring d) u = (answer, ring d) /\
    match answer with None => True | Some e => raw_os_error e ∈ [Some EAGAIN; Some EBUSY; Some EINTR] end.

Lemma raw_in_elem e codes : raw_in e codes = true -> raw_os_error e ∈ (Some <$> codes).
Proof using.
  unfold raw_in. destruct (raw_os_error e) as [c|]; [|done]. intros (x & Hx & ->%Z.eqb_eq)%existsb_exists.
  by apply list_elem_of_fmap_2, list_elem_of_In.
Qed.

Lemma submit_wf d live r d' :
  uring_wf d live [] -> submit_if_needed d = (r, d') ->
  uring_wf d' live [] /\ r <> Panic /\ armed_moved d d' /\ fleet d' = fleet d /\ (is_ok r = true -> submitted d').
Proof using.
  intros I E. unfold submit_if_needed in E. destruct (_ && _) eqn:Eq.
  { simplify_eq. apply andb_true_iff in Eq as [Eq Eo%negb_true_iff]. split_and!; try done. intros _. left. split; [by apply rc_empty|done]. }
  pose proof E as Ee. apply (enter_wf _ live) in E as (I1 & Hr & Hm); [|done]. split_and!; [done|done|by apply moved_armed..|].
  intros Hok. right. unfold enter in Ee. destruct (submit _ _) as [answer u] eqn:Es. exists (ring d), answer.
  destruct answer as [e|]; [destruct (raw_in e _) eqn:Er; [|by simplify_eq]|]; simplify_eq; (split; [exact Es|]); [|done].
  by apply raw_in_elem in Er.
Qed.

(** What a refill leaves when it succeeds. *)
Definition refilled_ok d d' : Prop :=
  submitted d' /\ back d' = [] /\ fleet_ready (fleet d') /\
  Fleet.starved (fleet d') = (if decide (back d = []) then Fleet.starved (fleet d) else false).

Lemma refill_spec d live r d' :
  uring_wf d live [] -> refill d = (r, d') ->
  uring_wf d' live [] /\ r <> Panic /\ pool d' = pool d /\ keeps d d' /\
  Fleet.f_depth (fleet d') = Fleet.f_depth (fleet d) /\ (is_ok r = true -> refilled_ok d d').
Proof using.
  intros I E. unfold refill, and_then in E. destruct (give_back d) as [w1 d1] eqn:E1.
  apply (give_back_spec _ live) in E1 as (I1 & Hw1 & Hp1 & Hc1 & Hd1 & Hg1); [|done].
  destruct w1 as [[]|e|]; [|by injection E as <- <-|done]. specialize (Hg1 eq_refl) as [Hb1 Hs1].
  destruct (arm d1) as [w2 d2] eqn:E2. apply (arm_spec _ live) in E2 as (I2 & Hw2 & Ha2 & Hr2); [|done].
  destruct Ha2 as (Hp2 & Hb2 & Hc2 & Hd2 & Hs2).
  destruct w2 as [[]|e|]; [|injection E as <- <-; split_and!; (done || congruence || by etrans)|done]. specialize (Hr2 eq_refl).
  apply (submit_wf _ live) in E as (I3 & Hw3 & (Hp3 & Hb3 & Hc3 & Hd3 & Hs3) & Hf3 & Hq3); [|done].
  split_and!; [done|done|congruence|by do 2 (etrans; [done|])|congruence|]. intros Hok. split_and!; [by apply Hq3|congruence|by rewrite Hf3|congruence].
Qed.

(** *** Consuming completions *)

Definition class (c : Cqe) : Completion := classify (result c) (flags c) size ms.

Definition is_recv (c : Cqe) : bool := user_data c =? UD_RECV.

(** A datagram that fits its buffer, one that does not, a buffer group run dry. *)
Definition cqe_frame (c : Cqe) : option IndexFrame :=
  if is_recv c && (0 <=? result c) && (result c <=? size)
  then (fun slot => IndexPool.Frame slot 0 (result c)) <$> buffer_select (flags c) else None.

Definition cqe_cut (c : Cqe) : bool :=
  is_recv c && (size <? result c) && bool_decide (is_Some (buffer_select (flags c))).

Definition cqe_dry (c : Cqe) : bool := is_recv c && (result c =? - ENOBUFS).

(** The error a completion makes [complete] return: a recv that failed for want of anything
    but buffers, bytes without a buffer, or a failed provide. *)
Definition cqe_error (c : Cqe) : option TransportError :=
  if is_recv c then
    if (result c <? 0) && negb (result c =? - ENOBUFS) then Some (Io "io_uring recv" (from_raw_os_error (- result c)))
    else if (0 <? result c) && bool_decide (buffer_select (flags c) = None) then Some (Io "io_uring recv" (from_raw_os_error EIO))
    else None
  else if (user_data c =? UD_PROVIDE) && (result c <? 0)
  then Some (Io "io_uring provide buffers" (from_raw_os_error (- result c))) else None.

Definition with_cq (cq : list Cqe) s : KState :=
  KS (ks_sq s) cq (ks_armed s) (ks_group s) (ks_lost s) (ks_head s) (ks_net s).

Lemma class_slot c :
  is_recv c = true ->
  match class c with
  | Data slot n _ => cqe_slot c = [slot] /\ 0 <= n <= size
  | Truncated slot _ => cqe_slot c = [slot]
  | _ => cqe_slot c = []
  end.
Proof using.
  intros Hr. unfold class, classify, cqe_slot. unfold is_recv in Hr. rewrite Hr. cbn [andb].
  destruct (result c <? 0) eqn:E; bool_facts.
  - rewrite (proj2 (Z.leb_gt _ _)) by done. by destruct (_ =? _).
  - rewrite (proj2 (Z.leb_le _ _)) by done. destruct (buffer_select _); [|by destruct (_ =? _)].
    destruct (_ >? size) eqn:E2; bool_facts; [done|]. split; [done|lia].
Qed.

(** Counters after some completions; they wrap as the code's do. *)
Fixpoint bump (n : Z) (k : nat) : Z := match k with O => n | S k => u64_add (bump n k) 1 end.

Lemma bump_plus n a b : bump (bump n a) b = bump n (a + b).
Proof using. induction b as [|b IH]; [by rewrite Nat.add_0_r|]. rewrite Nat.add_succ_r. cbn [bump]. by rewrite IH. Qed.

Lemma bump_small n k : 0 <= n -> n + Z.of_nat k < W64 -> bump n k = n + Z.of_nat k.
Proof using.
  induction k as [|k IH]; intros Hn Hk; cbn [bump]; [lia|]. rewrite IH by lia. unfold u64_add. rewrite Z.mod_small; lia.
Qed.

Definition count (f : Cqe -> bool) (l : list Cqe) : nat := length (filter (fun c => f c = true) l).

Lemma count_cons f c l : count f (c :: l) = ((if f c then 1 else 0) + count f l)%nat.
Proof using. unfold count. rewrite filter_cons. by destruct (f c). Qed.

(** From [d] and [out] to [d'] and [out'], the completions [done_] were consumed. *)
Record consumed d d' out out' (done_ : list Cqe) : Prop := {
  c_ring : ring d' = ring d /\ buf_ring d' = buf_ring d;
  c_region : shape (pool d') = shape (pool d) /\ Fleet.f_depth (fleet d') = Fleet.f_depth (fleet d);
  c_frames : frames out' = frames out ++ omap cqe_frame done_;
  c_cap : cap out' = cap out;
  c_truncated : ds_truncated (stats d') = bump (ds_truncated (stats d)) (count cqe_cut done_);
  c_no_buffer : no_buffer (stats d') = bump (no_buffer (stats d)) (count cqe_dry done_);
  c_starved : Fleet.starved (fleet d') = Fleet.starved (fleet d) || existsb cqe_dry done_;
}.

Lemma consumed_nil d out : consumed d d out out [].
Proof using. split; try done; [by rewrite app_nil_r|by rewrite orb_false_r]. Qed.

Lemma omap_snoc_app {A B} (f : A -> option B) c l : omap f (c :: l) = option_list (f c) ++ omap f l.
Proof using. simpl. by destruct (f c). Qed.

Lemma consumed_cons d d1 d' out out1 out' c l :
  consumed d d1 out out1 [c] -> consumed d1 d' out1 out' l -> consumed d d' out out' (c :: l).
Proof using.
  intros [[A1 A1'] [A2 A2'] A3 A4 A5 A6 A7] [[B1 B1'] [B2 B2'] B3 B4 B5 B6 B7]. split.
  - split; congruence.
  - split; congruence.
  - rewrite B3, A3, <- app_assoc, (omap_snoc_app _ c l), (omap_snoc_app _ c []). simpl. by rewrite app_nil_r.
  - congruence.
  - rewrite B5, A5, bump_plus, !count_cons. f_equal. cbn. lia.
  - rewrite B6, A6, bump_plus, !count_cons. f_equal. cbn. lia.
  - rewrite B7, A7. cbn [existsb]. by rewrite orb_false_r, orb_assoc.
Qed.

Lemma recvs_cons c cq s :
  kernel_recvs ms (with_cq (c :: cq) s) = ((if cqe_ends ms c then 1 else 0) + kernel_recvs ms (with_cq cq s))%nat.
Proof using.
  unfold kernel_recvs, with_cq, cq_ends. cbn [ks_sq ks_cq ks_armed]. rewrite filter_cons.
  destruct (cqe_ends ms c); [rewrite decide_True by done; cbn [length]|rewrite decide_False by done]; lia.
Qed.

Lemma slots_cons mem c cq s : kernel_slots mem (with_cq (c :: cq) s) ≡ₚ cqe_slot c ++ kernel_slots mem (with_cq cq s).
Proof using. unfold kernel_slots, with_cq, published_entries. cbn. solve_Permutation. Qed.

(** The code's classes are those kinds. *)
Lemma class_kinds c :
  is_recv c = true -> 0 < size ->
  cqe_frame c = match class c with Data slot n _ => Some (IndexPool.Frame slot 0 n) | _ => None end /\
  cqe_error c = match class c with Failed errno => Some (Io "io_uring recv" (from_raw_os_error errno)) | _ => None end /\
  cqe_cut c = match class c with Truncated _ _ => true | _ => false end /\
  cqe_dry c = match class c with NoBuffers => true | _ => false end.
Proof using.
  intros Hr Hs. unfold cqe_frame, cqe_error, cqe_cut, cqe_dry, class, classify. rewrite Hr. cbn [andb].
  assert (HE : - ENOBUFS < 0) by done. revert HE. generalize (- ENOBUFS). intros enobufs HE. rewrite Z.gtb_ltb.
  destruct (Z.ltb_spec (result c) 0), (Z.leb_spec 0 (result c)), (Z.leb_spec (result c) size), (Z.ltb_spec size (result c)),
    (Z.ltb_spec 0 (result c)), (Z.eqb_spec (result c) enobufs), (Z.eqb_spec (result c) 0), (buffer_select (flags c)); try lia; done.
Qed.

(** Where the driver reads an end in what the kernel posted, the request has ended. *)
Lemma ended_ends c : is_recv c = true -> posted c -> Fleet.ended (class c) = ends ms c.
Proof using.
  intros Hr%Z.eqb_eq Hp. unfold class, classify, ends. destruct (Hp Hr) as [[Hn Hm]|[[Hn [slot Hsl]]|Hz]].
  - rewrite (proj2 (Z.ltb_lt _ _)), Hm, andb_false_r by done. by destruct (_ =? _).
  - rewrite (proj2 (Z.ltb_ge _ _)), Hsl by done. by destruct (_ >? _).
  - rewrite Hz. cbn [Z.ltb Z.compare Z.eqb]. destruct (buffer_select _); [|done]. by destruct (_ >? _).
Qed.

(** The fleet after one recv completion. *)
Lemma complete_fleet c cq s f :
  is_recv c = true -> posted c -> Fleet.armed f = Z.of_nat (kernel_recvs ms (with_cq (c :: cq) s)) ->
  Fleet.armed (Fleet.complete (class c) f) = Z.of_nat (kernel_recvs ms (with_cq cq s)) /\
  Fleet.f_depth (Fleet.complete (class c) f) = Fleet.f_depth f.
Proof using.
  intros Hr Hp Ha. split; [|apply complete_depth]. rewrite recvs_cons in Ha. rewrite complete_armed, (ended_ends c Hr Hp).
  unfold cqe_ends in Ha. fold (is_recv c) in Ha. rewrite Hr in Ha. cbn [andb] in Ha. unfold saturating_sub. destruct (ends ms c); lia.
Qed.

Lemma complete_starved c f :
  is_recv c = true -> 0 < size -> Fleet.starved (Fleet.complete (class c) f) = Fleet.starved f || cqe_dry c.
Proof using.
  intros Hr Hs. destruct (class_kinds c Hr Hs) as (_ & _ & _ & ->). unfold Fleet.complete.
  by destruct (class c) as [| | | |], (Fleet.ended _), (Fleet.starved f).
Qed.

(** What one recv completion counts as. *)
Lemma class_counts c :
  is_recv c = true -> 0 < size ->
  cqe_frame c = match class c with Data slot n _ => Some (IndexPool.Frame slot 0 n) | _ => None end /\
  cqe_error c = match class c with Failed errno => Some (Io "io_uring recv" (from_raw_os_error errno)) | _ => None end /\
  count cqe_cut [c] = match class c with Truncated _ _ => 1%nat | _ => O end /\
  count cqe_dry [c] = match class c with NoBuffers => 1%nat | _ => O end /\
  omap cqe_frame [c] = option_list (cqe_frame c) /\ existsb cqe_dry [c] = cqe_dry c.
Proof using.
  intros Hr Hs. destruct (class_kinds c Hr Hs) as (Hf & He & Hc & Hd). rewrite !count_cons, Hc, Hd, omap_snoc_app.
  cbn [existsb]. rewrite Hd, orb_false_r. split_and!; try done; [by destruct (class c)..|]. simpl. by rewrite app_nil_r.
Qed.

(** The fields of [consumed] for one completion, from the facts in context. *)
Ltac count_one :=
  constructor; unfold shape; cbn [set_pool set_fleet set_back set_stats ring buf_ring pool fleet stats IndexPool.region IndexPool.stride IndexPool.count frames cap
    FrameBatch.push ds_truncated no_buffer]; repeat match goal with H : _ = _ |- _ => rewrite H end; rewrite ?app_nil_r; done.

(** One recv completion. *)
Lemma on_completion_spec d s live out pushed c cq r d' out' :
  uring_inv d (with_cq (c :: cq) s) live [] -> is_recv c = true ->
  on_completion (class c) d out pushed = (r, d', out') ->
  uring_inv d' (with_cq cq s) (live ++ option_list (cqe_frame c)) [] /\ consumed d d' out out' [c] /\
  match r with
  | Ok n => n = pushed + len (option_list (cqe_frame c)) /\ cqe_error c = None
  | Err e => cqe_error c = Some e /\ cqe_frame c = None
  | Panic => False
  end.
Proof using.
  intros I Hr E. pose proof (class_slot c Hr) as Hs. pose proof (place_bounds _ _ _ _ (hd 0 (cqe_slot c)) I) as Hb.
  destruct I as [I1 I2 I3 I4 I5 I6 I7 I8 I9 I10 I11]. cbn [with_cq ks_cq] in I11. apply Forall_cons in I11 as [Hpo I11].
  destruct (complete_fleet c cq s _ Hr Hpo I9) as (Ha & Hd). pose proof (complete_starved c (fleet d) Hr (proj2 I2)) as Hst.
  unfold places in I10, Hb. rewrite slots_cons in I10, Hb.
  unfold on_completion in E. destruct I2 as [I2 I2'], I3 as (I3 & I3' & I3'').
  destruct (class_counts c Hr I2') as (Hf & He & Hk1 & Hk2 & Hom & Hdr).
  destruct (class c) as [slot n rearm|slot rearm|rearm| |errno] eqn:Ec; injection E as <- <- <-; rewrite Hf, He;
    rewrite Hf in Hom; unfold option_list in *; cbn [option_rect] in *; rewrite ?app_nil_r, ?len_cons, ?len_nil.
  - destruct Hs as [Hs Hn]. rewrite Hs in I10, Hb. cbn [hd] in Hb. specialize (Hb ltac:(rewrite !elem_of_app, list_elem_of_singleton; tauto)).
    split_and!; [|count_one|unfold len; cbn [length]; lia|done]. constructor; try done.
    + cbn [set_pool set_fleet pool IndexPool.strong]. rewrite len_app, len_cons, len_nil, I5. lia.
    + apply Forall_app. split; [exact I6|]. constructor; [|constructor]. split_and!; cbn; try done; lia.
    + cbn. rewrite <- I10. unfold places. cbn. rewrite fmap_app. simpl. solve_Permutation.
  - rewrite Hs in I10. split_and!; [|count_one|unfold len; cbn [length]; lia|done].
    constructor; try done. cbn. rewrite <- I10. unfold places. cbn. solve_Permutation.
  - rewrite Hs in I10. split_and!; [|count_one|unfold len; cbn [length]; lia|done].
    by constructor.
  - rewrite Hs in I10. split_and!; [|count_one|unfold len; cbn [length]; lia|done].
    by constructor.
  - rewrite Hs in I10. split_and!; [|count_one|done|done].
    by constructor.
Qed.

(** A completion that is not a recv's. *)
Lemma other_spec d s live out c cq :
  uring_inv d (with_cq (c :: cq) s) live [] -> is_recv c = false ->
  uring_inv d (with_cq cq s) (live ++ option_list (cqe_frame c)) [] /\ consumed d d out out [c] /\ cqe_frame c = None.
Proof using.
  intros [I1 I2 I3 I4 I5 I6 I7 I8 I9 I10 I11] Hr. rewrite recvs_cons in I9. unfold places in I10. rewrite slots_cons in I10.
  cbn [with_cq ks_cq] in I11. apply Forall_cons in I11 as [_ I11].
  destruct (cqe_slot_other ms c) as [Hs He]; [by apply Z.eqb_neq|]. rewrite Hs in I10. rewrite He in I9.
  assert (Hf : cqe_frame c = None) by (unfold cqe_frame; by rewrite Hr). rewrite Hf. cbn. rewrite app_nil_r.
  split_and!; [by constructor| |done].
  constructor; try done; rewrite ?count_cons; unfold cqe_cut, cqe_dry; cbn; rewrite ?Hf, ?Hr; cbn;
    by rewrite ?app_nil_r, ?orb_false_r.
Qed.

(** The completions consumed were all good, or all but the last, which is the error. *)
Definition loop_end (r : res TransportError Z) (pushed : Z) (done_ rest : list Cqe) out' : Prop :=
  match r with
  | Ok n => n = pushed + len (omap cqe_frame done_) /\ Forall (fun c => cqe_error c = None) done_ /\
            (rest = [] \/ spare out' = 0)
  | Err e => exists good c, done_ = good ++ [c] /\ Forall (fun c => cqe_error c = None) good /\ cqe_error c = Some e
  | Panic => False
  end.

Lemma loop_end_cons r pushed c done_ rest out' :
  cqe_error c = None -> loop_end r (pushed + len (option_list (cqe_frame c))) done_ rest out' ->
  loop_end r pushed (c :: done_) rest out'.
Proof using.
  intros He. unfold loop_end. rewrite omap_snoc_app, len_app. destruct r as [n|e|]; [|intros (good & x & -> & Hg & Hx)|done].
  - intros (-> & Hg & Hr). split_and!; [lia|by constructor|done].
  - exists (c :: good), x. split_and!; [done|by constructor|done].
Qed.

(** What the loop leaves of the completions [cqes], those in [cq] not being visible yet. *)
Definition loop_post cqes cq d s live out pushed k
    (x : res TransportError Z * UringDriver U * FrameBatch.t IndexFrame * nat) : Prop :=
  let '(r, d', out', k') := x in
  exists done_ rest, cqes = done_ ++ rest /\ k' = (k + length done_)%nat /\
    uring_inv d' (with_cq (rest ++ cq) s) (live ++ omap cqe_frame done_) [] /\ consumed d d' out out' done_ /\
    len (omap cqe_frame done_) <= spare out /\ loop_end r pushed done_ rest out'.

Lemma loop_stop cqes cq d s live out pushed k :
  uring_inv d (with_cq (cqes ++ cq) s) live [] -> cqes = [] \/ spare out = 0 ->
  loop_post cqes cq d s live out pushed k (Ok pushed, d, out, k).
Proof using.
  intros I Hs. exists [], cqes. pose proof (FrameBatch.spare_nonneg out). split_and!.
  - done.
  - by rewrite Nat.add_0_r.
  - simpl. by rewrite app_nil_r.
  - apply consumed_nil.
  - simpl. rewrite len_nil. lia.
  - split_and!; [simpl; rewrite len_nil; lia|done|done].
Qed.

Lemma loop_fail c cqes cq d d' s live out out' pushed k e :
  uring_inv d' (with_cq (cqes ++ cq) s) (live ++ option_list (cqe_frame c)) [] -> consumed d d' out out' [c] ->
  0 < spare out -> cqe_error c = Some e -> cqe_frame c = None ->
  loop_post (c :: cqes) cq d s live out pushed k (Err e, d', out', S k).
Proof using.
  intros I Hc Hs He Hf. exists [c], cqes. rewrite omap_snoc_app, Hf in *. simpl in *. split_and!; try done; [lia|rewrite len_nil; lia|].
  by exists [], c.
Qed.

Lemma loop_step c cqes cq d d1 s live out out1 pushed k x :
  consumed d d1 out out1 [c] -> cqe_error c = None -> 0 < spare out ->
  loop_post cqes cq d1 s (live ++ option_list (cqe_frame c)) out1 (pushed + len (option_list (cqe_frame c))) (S k) x ->
  loop_post (c :: cqes) cq d s live out pushed k x.
Proof using.
  intros C1 He Hs. destruct x as [[[r d'] out'] k']. intros (done_ & rest & -> & -> & I2 & C2 & Hle & Hend).
  exists (c :: done_), rest. rewrite omap_snoc_app, app_assoc.
  split_and!; [done|cbn [length]; lia|done|by eapply consumed_cons| |by apply loop_end_cons].
  rewrite len_app. pose proof (c_frames _ _ _ _ _ C1) as Hf. pose proof (c_cap _ _ _ _ _ C1) as Hc.
  rewrite omap_snoc_app, app_nil_r in Hf. unfold spare, saturating_sub in *. rewrite Hc, Hf, len_app in Hle.
  assert (len (option_list (cqe_frame c)) <= 1) by (destruct (cqe_frame c); unfold len; simpl; lia). lia.
Qed.

Lemma complete_loop_spec cqes cq d s live out pushed k :
  uring_inv d (with_cq (cqes ++ cq) s) live [] ->
  loop_post cqes cq d s live out pushed k (complete_loop cqes d out pushed k).
Proof using.
  revert d live out pushed k. induction cqes as [|c cqes IH]; intros d live out pushed k I; cbn [complete_loop].
  { apply loop_stop; auto. }
  destruct (spare out >? 0) eqn:Es; bool_facts.
  2: { apply loop_stop; [done|]. pose proof (FrameBatch.spare_nonneg out). right. lia. }
  cbn [app] in I. rewrite (proj1 (i_size _ _ _ _ I)), (i_path _ _ _ _ I). fold (class c) (is_recv c).
  destruct (is_recv c) eqn:Er.
  - destruct (on_completion (class c) d out pushed) as [[r1 d1] out1] eqn:Eo.
    destruct (on_completion_spec _ _ _ _ _ _ _ _ _ _ I Er Eo) as (I1 & C1 & Hr).
    destruct r1 as [n|e|]; [destruct Hr as [-> He]|destruct Hr as [He Hf]|done].
    + eapply loop_step; [exact C1|done|done|]. by apply IH.
    + by eapply loop_fail.
  - destruct (other_spec _ _ _ out _ _ I Er) as (I1 & C1 & Hf). destruct (_ && _) eqn:Ep.
    + eapply loop_fail; [exact I1|exact C1|done| |done]. unfold cqe_error. by rewrite Er, Ep.
    + eapply loop_step; [exact C1|unfold cqe_error; by rewrite Er, Ep|done|].
      rewrite Hf in *. rewrite Z.add_0_r. by apply IH.
Qed.

(** *** [complete] and [poll_frames] *)

Lemma inv_set_ring u d s live hand : uring_inv d s live hand -> uring_inv (set_ring u d) s live hand.
Proof using. intros I. destruct I. by constructor. Qed.

Lemma with_cq_id s : with_cq (ks_cq s) s = s.
Proof using. by destruct s. Qed.

Lemma frames_slots l : (length (omap cqe_frame l) <= length (cq_slots l))%nat.
Proof using.
  induction l as [|c l IH]; [done|]. rewrite omap_snoc_app, length_app. unfold cq_slots. cbn [mbind list_bind].
  fold (cq_slots l). rewrite length_app. assert (length (option_list (cqe_frame c)) <= length (cqe_slot c))%nat; [|lia].
  unfold cqe_frame, cqe_slot. fold (is_recv c).
  destruct (is_recv c && (0 <=? result c)), (result c <=? size), (buffer_select (flags c)); cbn; lia.
Qed.

(** Of the completions ready the front [done_] was consumed, and [rest] was not. *)
Record completed d d' out out' live (done_ rest : list Cqe) : Prop := {
  q_ready : exists u, completion (buf_ring d) (ring d) = (done_ ++ rest, u);
  q_wf : uring_wf d' (live ++ omap cqe_frame done_) [];
  q_front : exists s rest, ksteps ms (buf_ring d) (rc_state C (ring d)) s /\ ks_cq s = done_ ++ rest;
  q_frames : frames out' = frames out ++ omap cqe_frame done_;
  q_cap : cap out' = cap out;
  q_room : len (omap cqe_frame done_) <= spare out;
  q_region : shape (pool d') = shape (pool d);
  q_depth : Fleet.f_depth (fleet d') = Fleet.f_depth (fleet d);
  q_truncated : ds_truncated (stats d') = bump (ds_truncated (stats d)) (count cqe_cut done_);
  q_no_buffer : no_buffer (stats d') = bump (no_buffer (stats d)) (count cqe_dry done_);
  q_backlog : (kernel_backlog (rc_state C (ring d')) + length (omap cqe_frame done_) <= kernel_backlog (rc_state C (ring d)))%nat;
}.

Lemma complete_spec d live out r d' out' :
  uring_wf d live [] -> complete d out = (r, d', out') ->
  exists done_ rest, completed d d' out out' live done_ rest /\ loop_end r 0 done_ rest out' /\
    Fleet.starved (fleet d') = Fleet.starved (fleet d) || existsb cqe_dry done_.
Proof using.
  intros I E. unfold complete in E. destruct (completion (buf_ring d) (ring d)) as [cqes u] eqn:Ec.
  destruct (rc_ready C _ _ _ _ Ec) as [Hk [cq Hcq]]. set (s := rc_state C u) in *.
  pose proof (inv_ksteps _ _ _ _ _ I Hk) as I1. rewrite <- (with_cq_id s), Hcq in I1.
  apply (inv_set_ring u) in I1.
  pose proof (complete_loop_spec cqes cq (set_ring u d) s live out 0 0 I1) as L.
  destruct (complete_loop cqes (set_ring u d) out 0 0) as [[[r1 d1] out1] k] eqn:El.
  destruct L as (done_ & rest & -> & -> & I2 & [[C1 C1'] [C2 C2'] C3 C4 C5 C6 C7] & Hle & Hend). injection E as <- <- <-.
  cbn [set_ring ring] in C1. rewrite <- app_assoc in Hcq.
  assert (Hst : rc_state C (advance (length done_) (ring d1)) = with_cq (rest ++ cq) s).
  { rewrite C1, (rc_advance C) by (fold s; rewrite Hcq, length_app; lia). fold s. rewrite Hcq. by rewrite drop_app_length. }
  exists done_, rest. split_and!; [|done|done]. destruct (ksteps_accounts _ _ _ _ Hk) as (_ & _ & Hb). fold s in Hb.
  split; try done.
  - by exists u.
  - unfold uring_wf. cbn [set_ring ring]. change (0 + length done_)%nat with (length done_). rewrite Hst. by destruct I2.
  - by exists s, (rest ++ cq).
  - cbn [set_ring ring]. change (0 + length done_)%nat with (length done_). rewrite Hst. pose proof (frames_slots done_). unfold kernel_backlog in *.
    rewrite Hcq, cq_slots_app, length_app in Hb. cbn [with_cq ks_cq ks_net] in *. lia.
Qed.

(** After [drain] the freed slots are on their way back. *)
Lemma drain_wf d live : uring_wf d live [] -> uring_wf (drain d) live [].
Proof using.
  intros [I1 I2 I3 I4 I5 I6 I7 I8 I9 I10 I11]. constructor; try done. rewrite <- I10. unfold places. cbn. solve_Permutation.
Qed.

(** How a poll ends. *)
Definition poll_end (r : res TransportError Polled) d' out' (done_ rest : list Cqe) : Prop :=
  match r with
  | Ok p =>
      (rest = [] \/ spare out' = 0) /\ back d' = [] /\ submitted d' /\ fleet_ready (fleet d') /\ Forall (fun c => cqe_error c = None) done_ /\
      match p with
      | Frames n => n = len (omap cqe_frame done_) /\ 0 < n
      | Idle => omap cqe_frame done_ = [] /\ Fleet.starved (fleet d') = false
      | Exhausted => omap cqe_frame done_ = [] /\ Fleet.starved (fleet d') = true
      end
  | Err e =>
      (exists good c, done_ = good ++ [c] /\ Forall (fun c => cqe_error c = None) good /\ cqe_error c = Some e) \/
      Forall (fun c => cqe_error c = None) done_
  | Panic => False
  end.

Lemma uring_poll_spec fuel d live out :
  uring_wf d live [] ->
  exists r d' out' done_ rest, uring_poll fuel d out = Some (r, d', out') /\
    completed d d' out out' live done_ rest /\ poll_end r d' out' done_ rest.
Proof using.
  intros I. unfold uring_poll. apply drain_wf in I as I1.
  destruct (complete (drain d) out) as [[r1 d1] out1] eqn:Ec.
  destruct (complete_spec _ _ _ _ _ _ I1 Ec) as (done_ & rest & [Q0 Q1 Q2 Q3 Q4 Q5 Q6 Q7 Q8 Q9 Q10] & Hend & Hst).
  destruct (refill d1) as [r2 d2] eqn:Er. destruct (refill_spec _ _ _ _ Q1 Er) as (I2 & Hr2 & Hp2 & [Hk2 Hb2] & Hd2 & Ho2).
  do 5 eexists. split; [done|]. injection Hk2 as Hk1 Hk2 Hk3. split.
  - split; try done; [by rewrite Hp2|by rewrite Hd2|by rewrite Hk3|by rewrite Hk1|]. change (ring (drain d)) with (ring d) in Q10. lia.
  - unfold loop_end in Hend. destruct r1 as [n|e|]; [|by left|done]. destruct Hend as (Hn & Hg & Hrest).
    destruct r2 as [u|e|]; [|by right|done]. destruct (Ho2 eq_refl) as (Hq & Hb & Hf & Hs). rewrite Z.add_0_l in Hn. subst n.
    unfold poll_end. split_and!; [done..|]. destruct (len (omap cqe_frame done_) >? 0) eqn:El; bool_facts; [done|].
    assert (Hz : omap cqe_frame done_ = []) by (destruct (omap cqe_frame done_); [done|rewrite len_cons in El; pose proof (len_nonneg l); lia]).
    by destruct (Fleet.starved (fleet d2)) eqn:Es.
Qed.

(** The io_uring driver keeps the shell's driver contract. *)
Definition uring_contract : driver_contract (uring_poll (U := U)).
Proof using C size.
  refine {| dc_wf := fun d => exists live, uring_wf d live []; dc_backlog := fun d => kernel_backlog (rc_state C (ring d)) |}.
  - intros fuel d out r d' out' [live I] Hsp E.
    destruct (uring_poll_spec fuel d live out I) as (r1 & d1 & out1 & done_ & rest & E1 & Q & Hend).
    rewrite E in E1. injection E1 as <- <- <-. split_and!; [eexists; apply Q|apply Q|]. exists (omap cqe_frame done_).
    split_and!; [apply Q|apply Q|apply Q|]. destruct r as [p|e|]; [|done|done]. destruct Hend as (_ & _ & _ & _ & _ & Hp).
    destruct p; [done|by destruct Hp|done].
  - intros fuel d out [live I] Hsp _. destruct (uring_poll_spec fuel d live out I) as (? & ? & ? & ? & ? & -> & _). by eexists.
Defined.

(** *** Teardown *)

(** What [cancel_recvs] keeps: slots read back at teardown are not handed on. *)
Record fleet_inv d : Prop := {
  f_path : is_multishot d = ms;
  f_size : slot_size d = size;
  f_armed : Fleet.armed (fleet d) = Z.of_nat (kernel_recvs ms (rc_state C (ring d)));
  f_posted : Forall posted (ks_cq (rc_state C (ring d)));
}.

Lemma wf_fleet d live hand : uring_wf d live hand -> fleet_inv d.
Proof using. intros [I1 [I2 _] _ _ _ _ _ _ I9 _ I11]. by split. Qed.

Lemma cancel_push d r d' : fleet_inv d -> Uring.push SqCancel d = (r, d') -> fleet_inv d' /\ r <> Panic.
Proof using.
  intros [F1 F2 F3 F4] E. apply push_spec in E as ((u & x & -> & _) & s & Hk & Hr).
  destruct (ksteps_accounts _ _ _ _ Hk) as (_ & Hn & _). pose proof (ksteps_posted _ _ _ _ Hk F4) as Hp.
  cbn [set_ring ring] in Hr. split; [|by destruct r].
  split; [done|done|..]; cbn [set_ring set_stats ring fleet]; [rewrite F3, <- Hn|]; destruct r as [[]|e|]; rewrite ?Hr; try done.
  rewrite kernel_recvs_snoc. unfold sq_recvs. rewrite filter_cons, decide_False by done. cbn. lia.
Qed.

(** The recv completions read at teardown. *)
Lemma read_ended_fold cqes cq s d :
  is_multishot d = ms -> slot_size d = size -> Forall posted cqes ->
  Fleet.armed (fleet d) = Z.of_nat (kernel_recvs ms (with_cq (cqes ++ cq) s)) ->
  let d' := foldl (fun d c => if user_data c =? UD_RECV
              then set_fleet (Fleet.complete (classify (result c) (flags c) (slot_size d) (is_multishot d)) (fleet d)) d
              else d) d cqes in
  is_multishot d' = ms /\ slot_size d' = size /\ ring d' = ring d /\
  Fleet.armed (fleet d') = Z.of_nat (kernel_recvs ms (with_cq cq s)).
Proof using.
  revert d. induction cqes as [|c cqes IH]; intros d H1 H2 Hp H3; cbn [foldl]; [done|]. rewrite H1, H2.
  apply Forall_cons in Hp as [Hpc Hp].
  fold (class c) (is_recv c). cbn [app] in H3. destruct (is_recv c) eqn:Er.
  - destruct (complete_fleet c _ _ _ Er Hpc H3) as (Ha & _).
    destruct (IH (set_fleet (Fleet.complete (class c) (fleet d)) d)) as (J1 & J2 & J3 & J4); done.
  - apply IH; [done..|]. rewrite H3, recvs_cons. destruct (cqe_slot_other ms c) as [_ ->]; [by apply Z.eqb_neq|done].
Qed.

Lemma read_ended_inv d : fleet_inv d -> fleet_inv (read_ended d).
Proof using.
  intros [F1 F2 F3 F4]. unfold read_ended. destruct (completion (buf_ring d) (ring d)) as [cqes u] eqn:Ec.
  destruct (rc_ready C _ _ _ _ Ec) as [Hk [cq Hcq]]. destruct (ksteps_accounts _ _ _ _ Hk) as (_ & Hn & _).
  pose proof (ksteps_posted _ _ _ _ Hk F4) as Hp. rewrite Hcq in Hp. apply Forall_app in Hp as [Hp1 Hp2].
  destruct (read_ended_fold cqes cq (rc_state C u) (set_ring u d)) as (J1 & J2 & J3 & J4); [done..| |].
  { rewrite <- Hcq, with_cq_id. cbn [set_ring fleet]. by rewrite F3, Hn. }
  split; [done|done|..]; cbn [set_ring fleet ring]; rewrite ?J4, J3; cbn [set_ring ring];
    rewrite (rc_advance C) by (rewrite Hcq, length_app; lia); cbn [ks_cq]; rewrite Hcq, drop_app_length; done.
Qed.

Lemma wait_inv d left_ r u : fleet_inv d -> submit_wait (buf_ring d) left_ (ring d) = (r, u) -> fleet_inv (set_ring u d).
Proof using.
  intros [F1 F2 F3 F4] E. pose proof (rc_wait C _ _ _ _ _ E) as Hk. destruct (ksteps_accounts _ _ _ _ Hk) as (_ & Hn & _).
  split; [done|done|..]; cbn [set_ring ring fleet]; [by rewrite F3, Hn|by eapply ksteps_posted].
Qed.

Lemma cancel_recvs_inv fuel d clock quiet d' :
  fleet_inv d -> cancel_recvs fuel d clock = Some (quiet, d') ->
  fleet_inv d' /\ (quiet = true -> Fleet.armed (fleet d') <= 0).
Proof using.
  intros I E. unfold cancel_recvs in E. destruct (now_of clock) as [now clock'].
  refine (iterate_inv _ (fun x => fleet_inv x.1) (fun x => fleet_inv x.2 /\ (x.1 = true -> Fleet.armed (fleet x.2) <= 0))
            fuel (d, clock') (quiet, d') _ _ I E); clear.
  - intros [d c] [d' c'] I E. unfold cancel_round in E. cbn [fst] in *. repeat case_match; simplify_eq;
      apply read_ended_inv; eapply wait_inv; try done; by eapply cancel_push.
  - intros [d c] [q d'] I E. unfold cancel_round in E. cbn [fst snd] in *. destruct (negb _) eqn:En.
    { simplify_eq. bool_facts. split; [done|lia]. }
    destruct (now_of c) as [t c']. destruct (_ =? 0); [by simplify_eq|].
    destruct (Uring.push SqCancel d) as [[[]|e|] d1] eqn:Ep; destruct (cancel_push _ _ _ I Ep) as [I1 _]; [|by simplify_eq..].
    destruct (submit_wait _ _ _) as [a u] eqn:Ew. pose proof (wait_inv _ _ _ _ I1 Ew) as I2.
    destruct a as [e|]; [|done]. destruct (raw_in e _); by simplify_eq.
Qed.

(** With no recv out, nothing the kernel does lands a datagram. *)
Lemma quiet_ksteps mem s s' :
  ksteps ms mem s s' -> kernel_recvs ms s = O ->
  ks_armed s' = O /\ cq_slots (ks_cq s') = cq_slots (ks_cq s).
Proof using.
  induction 1 as [s|s s1 s2 Hs Hr IH]; intros Hz; [split; [unfold kernel_recvs in Hz; lia|done]|].
  destruct (kstep_accounts _ _ _ _ Hs) as (_ & Hn & _). destruct IH as [IH1 IH2]; [lia|]. split; [done|]. rewrite IH2.
  clear Hr IH1 IH2 Hn. unfold kernel_recvs in Hz.
  assert (Hone : forall cq c, user_data c <> UD_RECV -> cq_slots (cq ++ [c]) = cq_slots cq).
  { intros cq c Hc. rewrite cq_slots_app. unfold cq_slots at 2. simpl. destruct (cqe_slot_other ms c Hc) as [-> _].
    by rewrite !app_nil_r. }
  destruct Hs as [|? ? ? ? ? ? ? ? ? ? ? ? ? [[-> _]|(res & fl & -> & _)]| | | | | | |]; cbn [ks_cq ks_armed ks_sq] in *;
    try lia; rewrite ?app_nil_r; try done; by apply Hone.
Qed.
End safety.

(** The clock bounds the rounds of [cancel_recvs]. *)
Lemma cancel_recvs_total {U} `{IoUring U, CqFlags} (d : UringDriver U) clock n fuel :
  readings clock (reads clock) + CANCEL_WAIT <= readings clock (S (reads clock + n)) -> (n < fuel)%nat ->
  is_Some (cancel_recvs fuel d clock).
Proof.
  unfold cancel_recvs, now_of. cbn [fst snd]. set (deadline := _ + CANCEL_WAIT).
  replace (S (reads clock + n)) with (S (reads clock) + n)%nat by lia.
  set (c := {| readings := readings clock; reads := S (reads clock) |}).
  change (readings clock) with (readings c). change (S (reads clock)) with (reads c). clearbody c deadline. clear clock.
  revert d c n. induction fuel as [|fuel IH]; intros d c n Hn Hf; [lia|]. cbn [iterate].
  destruct (cancel_round deadline (d, c)) as [[d' c']|r] eqn:E; [|by eexists].
  unfold cancel_round, now_of in E. destruct (negb _); [done|]. unfold duration_since in E.
  destruct (Z.max 0 (deadline - readings c (reads c)) =? 0) eqn:Ez; [done|]. bool_facts.
  destruct n as [|n]; [rewrite Nat.add_0_r in Hn; lia|].
  assert (Hc : c' = {| readings := readings c; reads := S (reads c) |}) by (repeat case_match; by simplify_eq).
  subst c'. apply (IH _ _ n); [|lia]. cbn [readings reads]. by replace (S (reads c) + n)%nat with (reads c + S n)%nat by lia.
Qed.
