(* ===== verification/UringDrive.v ===== *)
(** * transport-io-uring: histories, a scripted ring, the properties

    The driver as [bind] leaves it keeps the invariant of UringSafety through any polls and
    frame drops. [ScriptRing] is a concrete ring for worked examples. *)

From S2P Require Import Prelude TransportCore Pools Bypass UringParts UringKernel Uring UringSafety.
From Stdlib Require Import ZArith Lia.
From stdpp Require Import prelude list relations strings sorting.

Open Scope Z_scope.
Open Scope res_scope.

Import FrameBatch (frames, cap, spare).
Import IndexPool (IndexFrame).

(** ** The driver as [bind] builds it *)

(** Nothing submitted, nothing given, no recv completion pending. *)
Definition fresh (s : KState) : Prop :=
  ks_sq s = [] /\ ks_armed s = O /\ ks_group s = [] /\ ks_lost s = [] /\ ks_head s = 0 /\
  Forall (fun c => user_data c <> UD_RECV) (ks_cq s).

Lemma cq_of_fresh `{CqFlags} ms cq :
  Forall (fun c => user_data c <> UD_RECV) cq -> cq_slots cq = [] /\ cq_ends ms cq = O.
Proof.
  induction 1 as [|c cq Hc _ [IH1 IH2]]; [done|]. destruct (cqe_slot_other ms c Hc) as [H1 H2].
  unfold cq_slots, cq_ends in *. cbn [mbind list_bind]. rewrite filter_cons, H1, H2, decide_False by done. done.
Qed.

(** The buffer ring [bind] maps. *)
Lemma ring_mem_new_wf n :
  0 < n <= 32768 -> mem_wf n (Some (RingMem_new (id16 (next_power_of_two n)))).
Proof.
  intros Hn. unfold mem_wf, next_power_of_two. set (e := Z.log2_up n).
  assert (He0 : 0 <= e) by apply Z.log2_up_nonneg.
  assert (He : e <= 15).
  { unfold e. transitivity (Z.log2_up 32768); [apply Z.log2_up_le_mono; lia|done]. }
  assert (Hp : 2 ^ e <= 2 ^ 15) by (apply Z.pow_le_mono_r; lia). change (2 ^ 15) with 32768 in Hp.
  assert (Hpos : 0 < 2 ^ e) by (apply Z.pow_pos_nonneg; lia).
  unfold id16. rewrite Z.mod_small by lia. exists e. unfold RingMem_new, ring_mem_wf. cbn [entries mask UringParts.tail resv].
  split_and!; try done; try lia.
  - unfold len. rewrite length_replicate. lia.
  - destruct (decide (n = 1)) as [->|]; [unfold e; done|]. apply Z.log2_up_spec. lia.
Qed.

Section start.
Context {U : Type} `{IoUring U, CqFlags} (size : Z) (ms : bool) (C : ring_contract U ms).

Lemma build_wf cfg p base_ u skip path_ mem :
  IndexPool.wf p -> IndexPool.count p = slots cfg -> IndexPool.stride p = size -> cfg_slot_size cfg = size ->
  IndexPool.freed p = [] -> IndexPool.strong p = 1 -> slots cfg <= 32768 ->
  bool_decide (path_ = Multishot) = ms -> mem = None \/ mem = Some (RingMem_new (id16 (next_power_of_two (slots cfg)))) ->
  fresh (rc_state C u) -> uring_wf size ms C (build cfg p base_ u skip path_ mem) [] [].
Proof.
  intros Hp Hc Hst Hs Hf Hsg Hmax Hms Hmem (F1 & F2 & F3 & F4 & F5 & F6).
  destruct (cq_of_fresh ms _ F6) as [G1 G2]. pose proof Hp as (Hs0 & Hc0 & _).
  assert (Hpub : published_entries mem (rc_state C u) = []).
  { destruct Hmem as [->| ->]; [done|]. cbn [published_entries]. unfold published, ring_entries. by rewrite F5. }
  unfold uring_wf. cbn [build ring]. constructor; cbn [build pool buf_ring slot_size fleet back].
  - done.
  - split; [done|lia].
  - split_and!; [done|done|lia].
  - rewrite Hc. destruct Hmem as [->| ->]; [done|]. apply ring_mem_new_wf. lia.
  - by rewrite Hsg.
  - constructor.
  - rewrite F1. constructor.
  - rewrite Hpub. constructor.
  - unfold kernel_recvs. rewrite F1, F2, G2. done.
  - unfold places, kernel_slots. cbn [build back pool buf_ring]. rewrite Hf, F1, Hpub, F3, F4, G1, Hc. cbn. by rewrite app_nil_r.
  - eapply Forall_impl; [exact F6|]. intros c Hc' Hu. by destruct Hc'.
Qed.

(** [launch] keeps the invariant; on success every slot and the whole fleet are out. *)
Lemma launch_spec d live r d' :
  uring_wf size ms C d live [] -> launch d = (r, d') ->
  uring_wf size ms C d' live [] /\ r <> Panic /\ pool d' = pool d /\
  (is_ok r = true -> back d' = [] /\ fleet_ready (fleet d')).
Proof.
  intros I E. unfold launch, and_then in E. destruct (give_back d) as [w1 d1] eqn:E1.
  destruct (give_back_spec size ms C d live _ _ I E1) as (I1 & Hw1 & Hp1 & _ & _ & Hg1).
  destruct w1 as [[]|e|]; [|by injection E as <- <-|done]. destruct (Hg1 eq_refl) as [Hb1 _].
  destruct (arm d1) as [w2 d2] eqn:E2. destruct (arm_spec size ms C d1 live _ _ I1 E2) as (I2 & Hw2 & Ha2 & Hr2).
  destruct Ha2 as (Hp2 & Hb2 & _).
  destruct w2 as [[]|e|]; [|injection E as <- <-; split_and!; (done || congruence)|done]. specialize (Hr2 eq_refl).
  destruct (enter_wf size ms C d2 live _ _ I2 E) as (I3 & Hw3 & Hm3).
  destruct (moved_armed _ _ _ _ Hm3) as [(Hp3 & Hb3 & _) Hf3]. split_and!; [done|done|congruence|]. intros _.
  split; [congruence|by rewrite Hf3].
Qed.
End start.

(** ** [bind] *)

Section bind.
Context {U : Type} `{IoUring U, CqFlags}.
Implicit Types (d : UringDriver U).

(** A computation that keeps the chosen path. *)
Definition keeps_path {A} (m : io (U := U) A) : Prop := forall d, path (m d).2 = path d.

Lemma and_then_path {A B} (m : io (U := U) A) (k : A -> io (U := U) B) :
  keeps_path m -> (forall x, keeps_path (k x)) -> keeps_path (and_then m k).
Proof.
  intros Hm Hk d. unfold and_then. specialize (Hm d). destruct (m d) as [[x|e|] d']; cbn in *; [|done..].
  by rewrite Hk.
Qed.

Lemma enter_path : keeps_path (enter (U := U)).
Proof. intros d. unfold enter. destruct (submit _ _) as [[e|] u]; [destruct (raw_in e _)|]; done. Qed.

Lemma push_path e : keeps_path (Uring.push (U := U) e).
Proof.
  intros d. unfold Uring.push. destruct (sq_push e (ring d)); [done|]. apply and_then_path; [apply enter_path|].
  intros _ d1. by destruct (sq_push e (ring d1)).
Qed.

Lemma arm_loop_path n : keeps_path (arm_loop (U := U) n).
Proof.
  induction n as [|n IH]; cbn [arm_loop]; [done|]. apply and_then_path; [apply push_path|]. intros _.
  by apply and_then_path.
Qed.

Lemma provide_run_path first n : keeps_path (provide_run (U := U) first n).
Proof. intros d. apply push_path. Qed.

Lemma hand_over_path l d : path (hand_over l d).2 = path d.
Proof.
  unfold hand_over. destruct (buf_ring d); [done|]. unfold provide_runs. destruct (iterate _ _ _) as [x|] eqn:E; [|done].
  refine (iterate_inv _ (fun y => path y.2 = path d) (fun y => path y.2 = path d) _ _ _ _ _ _ E); [| |done];
    clear; intros [n d1] y Hd Es; cbn in *; (destruct (_ !! n); [|by simplify_eq]);
    match type of Es with context [provide_run ?f ?m ?x] =>
      pose proof (provide_run_path f m x) as Hp; destruct (provide_run f m x) as [[?|e|] d2]
    end; cbn in Hp; simplify_eq; cbn; congruence.
Qed.

Lemma launch_path : keeps_path (launch (U := U)).
Proof.
  apply and_then_path; [|intros _; apply and_then_path; [intros d; apply arm_loop_path|intros _; apply enter_path]].
  intros d. unfold give_back. destruct (back d) as [|x l]; [done|].
  pose proof (hand_over_path (x :: l) (set_back [] d)) as Hp. by destruct (hand_over _ _) as [[r rest] d'].
Qed.

(** What [bind] went through when it built a driver. *)
Lemma bind_built os cfg r d :
  bind os cfg = (r, Some d) ->
  exists p u support path_ mem, validate_uring cfg = Ok tt /\ IndexPool.new (os_alloc os) (slots cfg) (cfg_slot_size cfg) = Ok p /\
    socket os cfg = Ok tt /\ (probe (os_probe os u).1).1 = Ok support /\ select (cfg_path cfg) support = Ok path_ /\
    (mem = None \/ mem = Some (RingMem_new (id16 (next_power_of_two (slots cfg))))) /\
    launch (build cfg p (os_base os) (os_probe os u).2 (os_skip_success os) path_ mem) = (r, d).
Proof.
  unfold bind. destruct (validate_uring cfg) as [[]|e|]; [|done..]. destruct (IndexPool.new _ _ _) as [p|e|]; [|done..].
  destruct (socket os cfg) as [[]|e|]; [|done..]. destruct (open_ring _ _ _) as [u|e|]; [|done..].
  destruct (os_probe os u) as [answers u'] eqn:Ep. destruct (probe answers).1 as [support|e|] eqn:Es; [|done..].
  destruct (select _ _) as [path_|e|] eqn:Esel; [|done..]. intros E.
  assert (Hgo : forall mem, (let '(r, d) := launch (build cfg p (os_base os) u' (os_skip_success os) path_ mem) in (r, Some d)) = (r, Some d) ->
    launch (build cfg p (os_base os) u' (os_skip_success os) path_ mem) = (r, d)).
  { intros mem E1. destruct (launch _) as [r1 d1]. by simplify_eq. }
  destruct path_; [|destruct (os_mmap os); [done|]; destruct (os_register os); [done|]..];
    (eexists p, u, support, _, _; rewrite Ep; split_and!; [done..| |by apply Hgo]; auto).
Qed.
End bind.

(** ** A scripted ring, for worked examples

    Each look at the completion queue first plays the next acts of the script; entering
    the kernel takes the whole submission queue. *)

(** [IORING_CQE_F_BUFFER], [IORING_CQE_F_MORE] and the buffer id above them. *)
#[export] Instance abi_flags : CqFlags := {|
  more := fun f => Z.testbit f 1;
  buffer_select := fun f => if Z.testbit f 0 then Some (Z.shiftr f 16) else None;
|}.

Inductive kact := ATake | ARecv (n : Z) (more_ : bool) | AEnd (errno : Z).

(** [sr_busy] is how many entries into the kernel still answer [EBUSY]. *)
Record ScriptRing := Script { sr_state : KState; sr_plan : list (list kact); sr_room : nat; sr_busy : nat }.

Section acts.
Context (ms : bool) (mem : option RingMem).

Definition act (s : KState) (a : kact) : KState :=
  match a, s with
  | ATake, KS sq cq armed group lost head net =>
      match published_entries mem s with
      | en :: _ => KS sq cq armed (group ++ [e_bid en]) lost (u16_wrapping_add head 1) net
      | [] => s
      end
  | ARecv n m, KS sq cq (S armed) (slot :: group) lost head (S net) =>
      let fl := slot * 65536 + (if m then 3 else 1) in
      if (0 <=? n) && bool_decide (buffer_select fl = Some slot)
      then KS sq (cq ++ [CQE UD_RECV n fl]) (if ends ms (CQE UD_RECV n fl) then armed else S armed) group lost head net
      else s
  | AEnd errno, KS sq cq (S armed) group lost head net =>
      if 0 <? errno then KS sq (cq ++ [CQE UD_RECV (- errno) 0]) armed group lost head net else s
  | _, _ => s
  end.

Definition take_request (s : KState) (e : SqEntry) : KState :=
  match e, s with
  | SqRecv, KS (_ :: sq) cq armed group lost head net => KS sq cq (S armed) group lost head net
  | SqProvide _ _ n first skip, KS (_ :: sq) cq armed group lost head net =>
      KS sq (cq ++ if skip then [] else [CQE UD_PROVIDE 0 0]) armed (group ++ seqZ first n) lost head net
  | SqCancel, KS (_ :: sq) cq armed group lost head net =>
      act (KS sq (cq ++ [CQE UD_CANCEL 0 0]) armed group lost head net) (AEnd 125)
  | _, _ => s
  end.

Lemma act_steps s a : ksteps ms mem s (act s a).
Proof.
  destruct s as [sq cq armed group lost head net]. destruct a as [|n m|errno]; cbn [act].
  - destruct (published_entries mem _) as [|en l] eqn:Ep; [apply rtc_refl|]. apply rtc_once.
    exact (k_take ms mem en l (KS sq cq armed group lost head net) Ep).
  - destruct armed as [|armed], group as [|slot group], net as [|net]; try apply rtc_refl.
    destruct (_ && _) eqn:E; [|apply rtc_refl]. bool_facts. apply rtc_once.
    by apply (k_recv ms mem slot n _ [] group); [|apply bool_decide_eq_true in H0].
  - destruct armed as [|armed]; try apply rtc_refl. destruct (0 <? errno) eqn:E; [|apply rtc_refl]. bool_facts.
    apply rtc_once, k_end; [lia|done].
Qed.

Lemma acts_steps l s : ksteps ms mem s (foldl act s l).
Proof.
  revert s. induction l as [|a l IH]; intros s; [apply rtc_refl|]. etrans; [apply act_steps|apply IH].
Qed.

Lemma act_sq s a : ks_sq (act s a) = ks_sq s.
Proof. destruct s as [sq cq [|armed] [|slot group] lost head [|net]], a; cbn [act]; repeat case_match; done. Qed.

Lemma take_requests_steps sq s : ks_sq s = sq -> ksteps ms mem s (foldl take_request s sq).
Proof.
  revert s. induction sq as [|e sq IH]; intros s E; [apply rtc_refl|]. cbn [foldl].
  destruct s as [sq0 cq armed group lost head net]. cbn in E. subst sq0.
  destruct e as [|addr n count first skip|]; cbn [take_request].
  - eapply rtc_l; [apply k_arm|]. by apply IH.
  - eapply rtc_l; [|by apply IH]. destruct skip; [|]; apply k_provide; [by left|right]. by eexists _, _.
  - eapply rtc_l; [apply (k_cancel _ _ 0 0)|]. etrans; [apply (act_steps _ (AEnd 125))|]. apply IH. by rewrite act_sq.
Qed.
End acts.

Section script.
Context (ms : bool).

Definition script_enter (mem : option RingMem) (u : ScriptRing) : option io_Error * ScriptRing :=
  match sr_busy u with
  | O => (None, Script (foldl (take_request ms mem) (sr_state u) (ks_sq (sr_state u))) (sr_plan u) (sr_room u) O)
  | S n => (Some (from_raw_os_error EBUSY), Script (sr_state u) (sr_plan u) (sr_room u) n)
  end.

Lemma script_enter_steps mem u r u' : script_enter mem u = (r, u') -> ksteps ms mem (sr_state u) (sr_state u').
Proof.
  unfold script_enter. destruct (sr_busy u); intros E; simplify_eq; [by apply take_requests_steps|apply rtc_refl].
Qed.

#[export] Instance script_ring : IoUring ScriptRing := {|
  sq_push := fun e u =>
    let s := sr_state u in
    if (length (ks_sq s) <? sr_room u)%nat then
      Some (Script (KS (ks_sq s ++ [e]) (ks_cq s) (ks_armed s) (ks_group s) (ks_lost s) (ks_head s) (ks_net s)) (sr_plan u) (sr_room u) (sr_busy u))
    else None;
  sq_is_empty := fun u => match ks_sq (sr_state u) with [] => true | _ => false end;
  cq_overflow := fun _ => false;
  completion := fun mem u =>
    let s := foldl (act ms mem) (sr_state u) (default [] (head (sr_plan u))) in
    (ks_cq s, Script s (drop 1 (sr_plan u)) (sr_room u) (sr_busy u));
  advance := fun n u =>
    let s := sr_state u in
    Script (KS (ks_sq s) (drop n (ks_cq s)) (ks_armed s) (ks_group s) (ks_lost s) (ks_head s) (ks_net s)) (sr_plan u) (sr_room u) (sr_busy u);
  submit := script_enter;
  submit_wait := fun mem _ => script_enter mem;
|}.

Definition script_contract : ring_contract ScriptRing ms.
Proof.
  refine {| rc_state := sr_state |}.
  - intros u E. cbn [sq_is_empty script_ring] in E. by destruct (ks_sq (sr_state u)).
  - intros e u u' E. cbn [sq_push script_ring] in E. destruct (_ <? _)%nat; by simplify_eq.
  - intros mem u cqes u' E. cbn in E. simplify_eq. split; [apply acts_steps|done].
  - done.
  - intros mem u r u' E. by eapply script_enter_steps.
  - intros mem left_ u r u' E. by eapply script_enter_steps.
Defined.
End script.

(** ** Histories of a driver and its frames *)

Section history.
Context {U : Type} `{IoUring U, CqFlags}.

Inductive uring_op := UPoll (room : Z) | UDrop (i : nat).

Definition uring_apply (o : uring_op) (st : UringDriver U * list IndexFrame) : UringDriver U * list IndexFrame :=
  let '(d, live) := st in
  match o with
  | UPoll room =>
      match uring_poll 0 d (FrameBatch.with_capacity room) with
      | Some (_, d, out) => (d, live ++ frames out)
      | None => st
      end
  | UDrop i =>
      match live !! i with
      | Some f => (drop_live d f, delete i live)
      | None => st
      end
  end.

Context (size : Z) (ms : bool) (C : ring_contract U ms).

Lemma uring_drop_live_wf d live i f :
  uring_wf size ms C d live [] -> live !! i = Some f -> uring_wf size ms C (drop_live d f) (delete i live) [].
Proof.
  intros [I1 I2 I3 I4 I5 I6 I7 I8 I9 I10 I11] Hi. pose proof (delete_Permutation _ _ _ Hi) as Hperm. constructor; try done.
  - cbn. rewrite I5. pose proof (lookup_lt_Some _ _ _ Hi). unfold len. rewrite length_delete by done. lia.
  - by apply Forall_delete.
  - cbn. rewrite <- I10. unfold places. cbn. rewrite Hperm at 2. rewrite fmap_cons. solve_Permutation.
Qed.

Lemma uring_apply_wf o d live :
  uring_wf size ms C d live [] -> let '(d', live') := uring_apply o (d, live) in
  uring_wf size ms C d' live' [] /\ IndexPool.count (pool d') = IndexPool.count (pool d).
Proof.
  intros I. destruct o as [room|i]; unfold uring_apply.
  - destruct (uring_poll_spec size ms C 0 d live (FrameBatch.with_capacity room) I) as (r & d' & out & done_ & rest & -> & Q & _).
    rewrite (q_frames _ _ _ _ _ _ _ _ _ _ Q). cbn [FrameBatch.with_capacity frames app]. split; [apply Q|].
    exact (f_equal snd (q_region _ _ _ _ _ _ _ _ _ _ Q)).
  - destruct (live !! i) eqn:Ei; [|done]. split; [by apply uring_drop_live_wf|done].
Qed.

Lemma uring_run_wf ops st :
  uring_wf size ms C st.1 st.2 [] ->
  let st' := foldl (fun st o => uring_apply o st) st ops in
  uring_wf size ms C st'.1 st'.2 [] /\ IndexPool.count (pool st'.1) = IndexPool.count (pool st.1).
Proof.
  revert st. induction ops as [|o ops IH]; intros [d live] I; [done|]. cbn [foldl].
  pose proof (uring_apply_wf o d live I) as Ha. destruct (uring_apply o (d, live)) as [d1 live1]. destruct Ha as [I1 Hc].
  destruct (IH (d1, live1) I1) as [I2 Hc2]. split; [done|]. cbn in *. congruence.
Qed.

(** The driver [bind] returns. *)
Lemma bind_wf os cfg r d :
  0 < slots cfg -> 0 < cfg_slot_size cfg -> cfg_slot_size cfg = size -> bind os cfg = (r, Some d) ->
  bool_decide (path d = Multishot) = ms -> (forall u, fresh (rc_state C (os_probe os u).2)) ->
  uring_wf size ms C d [] [] /\ IndexPool.count (pool d) = slots cfg /\ r <> Panic /\
  (is_ok r = true -> back d = [] /\ fleet_ready (fleet d)).
Proof.
  intros Hs Hz Hsz E Hms Hf. apply bind_built in E as (p & u & support & path_ & mem & Hv & Hp & _ & _ & _ & Hmem & El).
  destruct (IndexPool.index_new_wf _ _ _ _ Hs Hz Hp) as (P1 & P2 & P3 & P4 & P5).
  pose proof (launch_path (build cfg p (os_base os) (os_probe os u).2 (os_skip_success os) path_ mem)) as Hpath.
  rewrite El in Hpath. cbn [snd build path] in Hpath. rewrite Hpath in Hms.
  assert (Hmax : slots cfg <= 32768).
  { unfold validate_uring, validate.at_most, MAX_SLOTS in Hv. destruct (slots cfg >? 32768) eqn:Em; bool_facts; [done|lia]. }
  subst size. destruct (launch_spec _ _ C _ [] _ _ (build_wf (cfg_slot_size cfg) ms C cfg p (os_base os) (os_probe os u).2
    (os_skip_success os) path_ mem P1 P2 P3 eq_refl P4 P5 Hmax Hms Hmem (Hf u)) El) as (I1 & Hr & Hpool & Ho).
  split_and!; [done| |done|done]. rewrite Hpool. exact P2.
Qed.
End history.

(** ** Worked examples *)

Definition any_addr : SocketAddr := {| ip := V4 [Byte.x00; Byte.x00; Byte.x00; Byte.x00]; port := 0 |}.

Definition demo_cfg (n : Z) (p : RecvPath) : IoUringConfig :=
  {| bind_addr := any_addr; slots := n; cfg_slot_size := 64; depth := 1; cfg_path := Some p; recv_buf := None |}.

Definition all_supported : ProbeAnswers :=
  {| p_opcodes := true; p_fast_poll := true; p_mmap := None; p_register := None; p_pushed := true; p_submit := None;
     p_cqes := [(UD_PROBE, - ENOBUFS)]; p_unregister := None |}.

Section demo.
Context (ms : bool).

#[local] Instance demo_ring : IoUring ScriptRing := script_ring ms.

(** An operating system where every call succeeds; [net] datagrams will come. *)
Definition demo_os (net : nat) (room : nat) (plan : list (list kact)) : Os (U := ScriptRing) :=
  {| os_alloc := fun _ => true; os_base := 4096; os_socket := None; os_recv_buf := None; os_bind := None;
     os_ring := fun _ _ => Ok (Script (KS [] [] 0 [] [] 0 net) plan room 0);
     os_skip_success := true;
     os_probe := fun u => (all_supported, Script (KS [] [] 0 [] [] 0 net) plan room 0);
     os_mmap := None; os_register := None |}.

Definition demo_bind (cfg : IoUringConfig) (net room : nat) (plan : list (list kact)) : UringDriver ScriptRing :=
  match bind (demo_os net room plan) cfg with
  | (Ok _, Some d) => d
  | _ => build cfg (IndexPool.Pool [] 0 0 [] 1) 0 (Script (KS [] [] 0 [] [] 0 0) [] 0 0) false Legacy None
  end.

Lemma demo_bind_ok cfg net room plan :
  match bind (demo_os net room plan) cfg with (Ok _, Some _) => true | _ => false end = true ->
  bind (demo_os net room plan) cfg = (Ok tt, Some (demo_bind cfg net room plan)).
Proof. unfold demo_bind. by destruct (bind _ cfg) as [[[]|e|] [d|]]. Qed.
End demo.

(** Polls with room for one frame, whose answers are collected. *)
Fixpoint poll_times {U} `{IoUring U, CqFlags} (n : nat) (d : UringDriver U) : list (res TransportError Polled) * UringDriver U :=
  match n with
  | O => ([], d)
  | S n =>
      match uring_poll 0 d (FrameBatch.with_capacity 1) with
      | Some (r, d, _) => let '(rs, d) := poll_times n d in (r :: rs, d)
      | None => ([], d)
      end
  end.

(** Two slots, multishot: both are filled, then the third datagram finds no buffer. The first
    frame is dropped and its slot given back before that completion is read; the second is kept. *)
Definition starved_run : UringDriver ScriptRing * list IndexFrame :=
  foldl (fun st o => @uring_apply _ (script_ring true) _ o st)
    (demo_bind true (demo_cfg 2 Multishot) 3 8 [[]; [ATake; ATake; ARecv 5 true; ARecv 6 true; AEnd ENOBUFS]], [])
    [UPoll 1; UPoll 1; UDrop 0; UPoll 1; UPoll 1].

Definition leftover_run : UringDriver ScriptRing :=
  let run := foldl (fun st o => @uring_apply _ (script_ring false) _ o st) in
  let '(d, live) := run (demo_bind false (demo_cfg 4 Legacy) 3 1 [[]; [ARecv 5 false]; [ARecv 6 false]; [ARecv 7 false]], [])
    [UPoll 1; UPoll 1; UPoll 1; UPoll 1; UDrop 0; UDrop 1] in
  let u := ring d in
  (run (set_ring (Script (sr_state u) (sr_plan u) (sr_room u) 1) d, live) [UPoll 1]).1.

(** ** Properties *)



(** The examples' driver keeps the invariant. *)
Lemma demo_wf ms cfg net room plan :
  0 < slots cfg -> cfg_slot_size cfg = 64 ->
  match bind (H := script_ring ms) (demo_os net room plan) cfg with (Ok _, Some _) => true | _ => false end = true ->
  bool_decide (path (demo_bind ms cfg net room plan) = Multishot) = ms ->
  uring_wf 64 ms (script_contract ms) (demo_bind ms cfg net room plan) [] [].
Proof.
  intros Hs Hz Hb Hp. pose proof (demo_bind_ok ms cfg net room plan Hb) as E.
  apply (bind_wf 64 ms (script_contract ms) _ _ _ _ Hs ltac:(lia) Hz E Hp). intros u. by split_and!.
Qed.


(** C14: Dropping the driver returns once the clock has passed its second, and frees the receive
    memory only when no recv is out: from the ring it leaves, whatever the kernel does next,
    no recv is armed and no datagram lands in a slot. *)
Theorem uring_drop_safe {U} `{IoUring U, CqFlags} size ms (C : ring_contract U ms) d live clock n fuel :
  uring_wf size ms C d live [] ->
  readings clock (reads clock) + CANCEL_WAIT <= readings clock (S (reads clock + n)) -> (n < fuel)%nat ->
  exists freed u, drop_driver fuel d clock = Some (freed, u) /\
    (freed = true -> forall mem s, ksteps ms mem (rc_state C u) s ->
       ks_armed s = O /\ cq_slots (ks_cq s) = cq_slots (ks_cq (rc_state C u))).
Proof.
  intros I Hc Hf. destruct (cancel_recvs_total d clock n fuel Hc Hf) as [[q d'] E]. unfold drop_driver. rewrite E.
  exists q, (ring d'). split; [done|]. intros -> mem s Hs.
  destruct (cancel_recvs_inv size ms C fuel d clock true d' (wf_fleet _ _ _ _ _ _ I) E) as [[_ _ Ha _] Hz].
  apply (quiet_ksteps ms mem _ _ Hs). specialize (Hz eq_refl). lia.
Qed.

Lemma uring_drop_safe_witness :
  let d := demo_bind false (demo_cfg 2 BufRing) 3 8 [[]; [ATake; ARecv 5 false]] in
  let clock := {| readings := fun n => Z.of_nat n * 500000000; reads := 0 |} in
  exists freed u, drop_driver (H := script_ring false) 3 d clock = Some (freed, u) /\
    (freed = true -> forall mem s, ksteps false mem (rc_state (script_contract false) u) s ->
       ks_armed s = O /\ cq_slots (ks_cq s) = cq_slots (ks_cq (rc_state (script_contract false) u))).
Proof.
  intros d clock. apply (uring_drop_safe 64 false (script_contract false) d [] clock 2 3); [|vm_compute; done|lia].
  apply demo_wf; [reflexivity|reflexivity|vm_compute; reflexivity|vm_compute; reflexivity].
Defined.

(** A starved driver with nothing to give back: on an idle ring a poll changes nothing. *)
Lemma starved_poll ms (d : UringDriver ScriptRing) out :
  back d = [] -> IndexPool.freed (pool d) = [] -> Fleet.starved (fleet d) = true ->
  sr_plan (ring d) = [] -> ks_sq (sr_state (ring d)) = [] -> ks_cq (sr_state (ring d)) = [] ->
  uring_poll (H := script_ring ms) 0 d out = Some (Ok Exhausted, d, out).
Proof.
  destruct d as [[[sq cq armed group lost head net] plan room busy] [rg st ct fr sg] mem b p sz sk [dep arm_ stv] bk ss].
  cbn. intros -> -> -> -> -> ->. reflexivity.
Qed.

(** C40: A concrete run: of two slots one is in a kept frame and the other has been given back,
    yet the driver is starved with no recv armed, so with a datagram waiting every later poll
    answers exhausted (the shell's [PoolExhausted]) for as long as the frame is kept. *)
Theorem starved_with_free_slot n :
  let '(d, live) := starved_run in
  length live = 1%nat /\ (e_bid <$> published_entries (buf_ring d) (sr_state (ring d))) = [0] /\
  kernel_recvs true (sr_state (ring d)) = O /\ ks_net (sr_state (ring d)) = 1%nat /\ IndexPool.stats (pool d) = {| ps_capacity := 2; ps_in_use := 1 |} /\
  (@poll_times _ (script_ring true) _ n d).1 = replicate n (Ok Exhausted).
Proof.
  destruct starved_run as [d live] eqn:E.
  assert (Hd : d = starved_run.1) by (by rewrite E). assert (Hl : live = starved_run.2) by (by rewrite E). clear E.
  split_and!; [subst; vm_compute; reflexivity..|].
  assert (Hp : uring_poll (H := script_ring true) 0 d (FrameBatch.with_capacity 1) = Some (Ok Exhausted, d, FrameBatch.with_capacity 1)).
  { apply starved_poll; subst d; vm_compute; reflexivity. }
  clear Hd Hl. induction n as [|n IH]; [done|]. cbn [poll_times replicate]. rewrite Hp. destruct (poll_times n d). cbn in *. by rewrite IH.
Qed.

(** A refused refill leaves a slot on its way back, and the next poll starts by swapping it
    into the freed list, where [drain_freed] requires an empty vector. *)
Lemma leftover_swapped : back leftover_run = [2] /\ back (drain leftover_run) = [] /\ IndexPool.freed (pool (drain leftover_run)) = [2].
Proof. vm_compute. done. Qed.
