(* ===== verification/UringMemory.v ===== *)
(** * transport-io-uring: what is in the frames

    The io_uring driver owns its memory as FrameMemory says: the kernel writes datagrams only
    into the slots it was given and has not handed back, at any moment, during a call too, and
    no frame lies there. *)

From S2P Require Import Prelude TransportCore Pools Bypass FrameMemory UringParts UringKernel Uring UringSafety UringDrive.
From Stdlib Require Import ZArith Lia.
From stdpp Require Import prelude list relations strings sorting.

Open Scope Z_scope.
Open Scope res_scope.

Import FrameBatch (frames, cap, spare).
Import IndexPool (IndexFrame, frame_as_ref).

Section memory.
Context {U : Type} `{IoUring U, CqFlags} (size : Z) (ms : bool) (C : ring_contract U ms).
Implicit Types (d : UringDriver U).

(** One poll with an empty batch of [room]. *)
Definition uring_do (room : Z) d : UringDriver U * list IndexFrame :=
  match uring_poll 0 d (FrameBatch.with_capacity room) with
  | Some (_, d, out) => (d, frames out)
  | None => (d, [])
  end.

Definition uring_writable d : list Z := kernel_slots (buf_ring d) (rc_state C (ring d)).

Lemma wf_apart d live : uring_wf size ms C d live [] -> NoDup ((IndexPool.slot <$> live) ++ uring_writable d).
Proof using.
  intros I. assert (Hnd : NoDup (places d (rc_state C (ring d)) live [])) by (rewrite (i_places _ _ _ _ _ _ I); apply NoDup_seqZ).
  unfold places in Hnd. cbn [app] in Hnd. rewrite app_assoc in Hnd. by apply NoDup_app in Hnd as (_ & _ & Hnd).
Qed.

(** *** No call looks at the bytes *)

Definition over (m : list byte) d : UringDriver U := set_pool (set_region m (pool d)) d.

(** A computation that is the same over any bytes. *)
Definition blind {A} (c : io (U := U) A) : Prop := forall m d, c (over m d) = let '(r, d') := c d in (r, over m d').

Lemma ret_blind {A} (x : A) : blind (ret x).
Proof using. done. Qed.

Lemma bind_blind {A B} (c : io (U := U) A) (k : A -> io (U := U) B) : blind c -> (forall x, blind (k x)) -> blind (and_then c k).
Proof using. intros Hc Hk m d. unfold and_then. rewrite Hc. destruct (c d) as [[x|er|] d']; [apply Hk|done..]. Qed.

Lemma enter_blind : blind enter.
Proof using. intros m d. unfold enter. cbn. destruct (submit _ _) as [[er|] u]; [|done]. by destruct (raw_in _ _). Qed.

Lemma push_blind entry : blind (push entry).
Proof using.
  intros m d. unfold push. cbn [over set_pool ring]. destruct (sq_push entry (ring d)) as [u|]; [done|].
  apply (bind_blind enter _ enter_blind). intros _ m' d'. cbn [over set_pool ring]. by destruct (sq_push entry (ring d')).
Qed.

Lemma submit_blind : blind submit_if_needed.
Proof using. intros m d. unfold submit_if_needed. cbn [over set_pool ring]. destruct (_ && _); [done|apply enter_blind]. Qed.

Lemma arm_loop_blind n : blind (arm_loop n).
Proof using. induction n as [|n IH]; [done|]. apply bind_blind; [apply push_blind|]. intros _. by apply bind_blind. Qed.

Lemma arm_blind : blind arm.
Proof using. intros m d. unfold arm. apply arm_loop_blind. Qed.

Lemma provide_run_blind first run : blind (provide_run first run).
Proof using. intros m d. unfold provide_run. apply push_blind. Qed.

Lemma hand_over_blind slots_back m d :
  hand_over slots_back (over m d) = let '(r, l, d') := hand_over slots_back d in (r, l, over m d').
Proof using.
  unfold hand_over. cbn [over set_pool buf_ring]. destruct (buf_ring d) as [b|]; [done|]. unfold provide_runs.
  rewrite (iterate_map _ (fun s => (s.1, over m s.2)) (fun x => (x.1, over m x.2)) _ (0%nat, d)).
  - by destruct (iterate _ _ _) as [[[r l] d']|].
  - intros [n s]. unfold provide_round. cbn [fst snd]. destruct (_ !! n) as [first|]; [|done].
    rewrite provide_run_blind. by destruct (provide_run _ _ s) as [[x|er|] s'].
Qed.

Lemma give_back_blind : blind give_back.
Proof using.
  intros m d. unfold give_back. change (back (over m d)) with (back d). destruct (back d) as [|b l]; [done|].
  change (set_back [] (over m d)) with (over m (set_back [] d)). rewrite hand_over_blind.
  by destruct (hand_over _ _) as [[r k] d'].
Qed.

Lemma uring_refill_blind : blind refill.
Proof using. apply bind_blind; [apply give_back_blind|]. intros _. apply bind_blind; [apply arm_blind|]. intros _. apply submit_blind. Qed.

Lemma complete_loop_blind m cqes d out pushed consumed :
  complete_loop cqes (over m d) out pushed consumed =
  let '(r, d', o, n) := complete_loop cqes d out pushed consumed in (r, over m d', o, n).
Proof using.
  revert d out pushed consumed. induction cqes as [|c cqes IH]; intros d out pushed consumed; [done|]. cbn [complete_loop].
  destruct (spare out >? 0); [|done]. destruct (user_data c =? UD_RECV).
  - change (slot_size (over m d)) with (slot_size d). change (is_multishot (over m d)) with (is_multishot d).
    assert (Ho : forall x, on_completion x (over m d) out pushed = let '(r, d', o) := on_completion x d out pushed in (r, over m d', o))
      by (by intros []).
    rewrite Ho. destruct (on_completion _ d out pushed) as [[[n|er|] d'] o]; [apply IH|done..].
  - destruct (_ && _); [done|apply IH].
Qed.

Lemma uring_do_blind m room d : uring_do room (over m d) = (over m (uring_do room d).1, (uring_do room d).2).
Proof using.
  unfold uring_do, uring_poll, complete. change (drain (over m d)) with (over m (drain d)).
  change (buf_ring (over m (drain d))) with (buf_ring (drain d)). change (ring (over m (drain d))) with (ring (drain d)).
  destruct (completion _ _) as [cqes u]. change (set_ring u (over m (drain d))) with (over m (set_ring u (drain d))).
  rewrite complete_loop_blind. destruct (complete_loop _ _ _ _ _) as [[[r d1] out] n].
  change (set_ring (advance n (ring (over m d1))) (over m d1)) with (over m (set_ring (advance n (ring d1)) d1)).
  rewrite uring_refill_blind. by destruct (refill _) as [x d2].
Qed.

Definition uring_owner : owner (UringDriver U) Z.
Proof using C size.
  refine {| FrameMemory.pool_of := pool; FrameMemory.with_pool := set_pool; FrameMemory.call := uring_do;
            FrameMemory.give := drop_live; FrameMemory.writable := uring_writable;
            FrameMemory.owns := fun d live => uring_wf size ms C d live [] |}.
  - intros d live I. split; apply I.
  - done.
  - by intros [].
  - done.
  - intros d live s I Hs. split.
    + apply (place_bounds _ _ _ _ _ _ s I). unfold places, uring_writable in *. rewrite !elem_of_app. tauto.
    + intros Hl. apply wf_apart, NoDup_app in I as (_ & Hn & _). by apply (Hn s).
  - intros d live s bytes I Hs Hl.
    destruct I as [I1 I2 (I3 & I3' & I3'') I4 I5 I6 I7 I8 I9 I10 I11]. constructor; try done.
    split_and!; [by apply write_wf|done|done].
  - intros room m d. apply uring_do_blind.
  - intros room d live d' new I E. unfold uring_do in E.
    destruct (uring_poll_spec size ms C 0 d live (FrameBatch.with_capacity room) I) as (r & d1 & out & done_ & rest & Ep & Q & _).
    rewrite Ep in E. simplify_eq.
    rewrite (q_frames _ _ _ _ _ _ _ _ _ _ Q). split; apply Q.
  - intros d live i f I Hi. split; [by apply uring_drop_live_wf|done].
Defined.
End memory.

(** ** Properties *)

(** C9: From what [bind] returns, against any kernel that keeps its side, after any
    interleaving of polls, frame drops and datagrams the kernel writes, between the calls and
    during them, into slots it may write: every slot is in exactly one place (on its way back, freed, in a live frame, with
    the kernel), live frames share no slot with each other or with the kernel, lie inside their
    slot and are counted by [pool_stats], the bytes of each are those it had when it was
    delivered, the fleet's count is that of the recvs out, and every buffer the kernel was
    given is its slot's own memory. *)
Theorem uring_slots_conserved {U} `{IoUring U, CqFlags} os cfg ms (C : ring_contract U ms) r d0 st :
  0 < slots cfg -> 0 < cfg_slot_size cfg -> bind os cfg = (r, Some d0) ->
  bool_decide (path d0 = Multishot) = ms -> (forall u, UringDrive.fresh (rc_state C (os_probe os u).2)) ->
  mem_steps (uring_owner (cfg_slot_size cfg) ms C) (d0, []) st ->
  let '(d, held) := st in let live := held.*1 in let s := rc_state C (ring d) in
  back d ++ IndexPool.freed (pool d) ++ (IndexPool.slot <$> live) ++ kernel_slots (buf_ring d) s
    ≡ₚ seqZ 0 (slots cfg) /\
  NoDup ((IndexPool.slot <$> live) ++ kernel_slots (buf_ring d) s) /\
  (forall f bytes, (f, bytes) ∈ held -> frame_as_ref (pool d) f = bytes) /\
  Forall (IndexPool.frame_in_bounds (pool d)) live /\ ps_in_use (IndexPool.stats (pool d)) = len held /\
  Fleet.armed (fleet d) = Z.of_nat (kernel_recvs ms s) /\
  Forall (entry_good d) (published_entries (buf_ring d) s) /\ Forall (sq_good d) (ks_sq s).
Proof.
  intros Hs Hz E Hms Hf M. destruct (bind_wf _ ms C os cfg r d0 Hs Hz eq_refl E Hms Hf) as (I0 & Hc0 & _).
  assert (Hst : stable (uring_owner (cfg_slot_size cfg) ms C) (d0, [])) by (split; [exact I0|by intros f x Hin%not_elem_of_nil]).
  pose proof (mem_steps_stable _ _ _ Hst M) as [[I Hb] Hc]. destruct st as [d held]. cbn in I, Hb, Hc.
  pose proof (wf_apart _ _ _ _ _ I) as Hn. destruct I as [I1 I2 I3 I4 I5 I6 I7 I8 I9 I10 I11].
  rewrite Hc, Hc0 in I10. split_and!; [exact I10|exact Hn|exact Hb|done| |done..]. cbn. rewrite I5. unfold len. rewrite length_fmap. lia.
Qed.

(** Two slots: a datagram lands, is polled, kept while the kernel writes elsewhere, then dropped. *)
Definition demo_acts : list (mem_act (O := Z)) :=
  [ACall 1 []; AWrite 0 [Byte.x41; Byte.x42]; ACall 1 [(1, [Byte.x46])]; AWrite 1 [Byte.x43]; AWrite 0 [Byte.x44]; ADrop 0; ACall 1 [(0, [Byte.x47])]; AWrite 0 [Byte.x45]].

Definition demo_plan : list (list kact) := [[]; [ATake; ATake; ARecv 2 true; ARecv 65 true; AEnd ENOBUFS]].

Lemma uring_slots_conserved_witness :
  let cfg := demo_cfg 2 Multishot in let C := script_contract true in
  let '(d, held) := foldl (mem_do (uring_owner (H := script_ring true) 64 true C)) (demo_bind true cfg 3 8 demo_plan, []) demo_acts in
  let live := held.*1 in let s := rc_state C (ring d) in
  back d ++ IndexPool.freed (pool d) ++ (IndexPool.slot <$> live) ++ kernel_slots (buf_ring d) s ≡ₚ seqZ 0 2 /\
  NoDup ((IndexPool.slot <$> live) ++ kernel_slots (buf_ring d) s) /\
  (forall f bytes, (f, bytes) ∈ held -> frame_as_ref (pool d) f = bytes) /\
  Forall (IndexPool.frame_in_bounds (pool d)) live /\ ps_in_use (IndexPool.stats (pool d)) = len held /\
  Fleet.armed (fleet d) = Z.of_nat (kernel_recvs true s) /\
  Forall (entry_good d) (published_entries (buf_ring d) s) /\ Forall (sq_good d) (ks_sq s).
Proof.
  intros cfg C.
  apply (uring_slots_conserved (demo_os 3 8 demo_plan) cfg true C (Ok tt) (demo_bind true cfg 3 8 demo_plan)).
  - reflexivity.
  - reflexivity.
  - apply demo_bind_ok. vm_compute. reflexivity.
  - vm_compute. reflexivity.
  - intros u. by split_and!.
  - apply mem_do_steps, mem_none.
Defined.

(** The kept frame still reads as the bytes the datagram had, though the kernel wrote since. *)
Example kept_bytes :
  (foldl (mem_do (uring_owner (H := script_ring true) 64 true (script_contract true)))
     (demo_bind true (demo_cfg 2 Multishot) 3 8 demo_plan, []) (take 5 demo_acts)).2 =
  [(IndexPool.Frame 0 0 2, [Byte.x41; Byte.x42])].
Proof. vm_compute. reflexivity. Qed.
