(* ===== verification/SoupWire.v ===== *)
(** * client-soupbintcp: packet framing, errors, events, configuration

    Models [crates/clients/soupbintcp/src/{wire,error,event,frame,config}.rs]. The
    reference encoder [encode] is the documented framing; the theorems relate the
    incremental parser to it, whole packets and prefixes alike. *)

From S2P Require Import Prelude TransportCore.
From Stdlib Require Import ZArith Lia.
From stdpp Require Import prelude list strings.

Open Scope Z_scope.
Open Scope res_scope.

(** [PacketType]. *)
Inductive PacketType :=
  | LoginRequest | LoginAccepted | LoginRejected | SequencedData | ServerHeartbeat
  | EndOfSession | Debug_ | UnsequencedData | ClientHeartbeat | LogoutRequest.

#[export] Instance PacketType_eq_dec : EqDecision PacketType.
Proof. solve_decision. Defined.

(** The texts [ProtocolViolation] carries, by what they report. *)
Inductive Violation :=
  | ZeroLength
  | NonAsciiField
  | BadNumericField (s : list Z)
  | RejectedWithoutReason
  | AcceptedTooShort
  | UnexpectedInLogin (ty : PacketType)
  | UnexpectedInStream (ty : PacketType)
  | InflateFailed
  | InflateStalled.

(** [SoupBinError]. *)
Inductive SoupBinError :=
  | Transport_ (e : TransportError)
  | LoginRejected_ (code : list Z)
  | LoginTimeout (timeout : Z)
  | FrameTooLarge (size max : Z)
  | ProtocolViolation (v : Violation)
  | UnknownPacketType (b : byte)
  | EndOfSession_.

(** [SoupBinEvent]. *)
Inductive SoupBinEvent :=
  | EvLoginAccepted (session : list byte) (sequence : Z)
  | EvLoginRejected (reason : byte)
  | EvHeartbeatReceived
  | EvHeartbeatSent
  | EvHeartbeatTimeout
  | EvEndOfSession.

(** [Frame] and [SoupBinMessage]. *)
Record Frame := { payload : list byte; sequence : Z }.
Definition frame_as_ref (f : Frame) : list byte := payload f.

Inductive SoupBinMessage :=
  | Data (f : Frame)
  | Event (e : SoupBinEvent).

(** [SoupBinClientConfig]; strings as their bytes, durations in nanoseconds. *)
Record SoupBinClientConfig := {
  username : list byte;
  password : list byte;
  requested_session : list byte;
  requested_sequence_number : Z;
  login_timeout : Z;
  heartbeat_interval : Z;
  heartbeat_timeout : Z;
  max_frame_size : Z;
  decode_buf_capacity : Z;
}.

Definition SoupBinClientConfig_default : SoupBinClientConfig :=
  {| username := []; password := []; requested_session := []; requested_sequence_number := 1;
     login_timeout := 30 * NANOS_PER_SEC; heartbeat_interval := 1 * NANOS_PER_SEC;
     heartbeat_timeout := 15 * NANOS_PER_SEC; max_frame_size := 64 * 1024;
     decode_buf_capacity := 64 * 1024 |}.

(** ** Type bytes *)

(** [ty as u8]. *)
Definition type_byte (ty : PacketType) : byte :=
  match ty with
  | LoginRequest => Byte.x4c
  | LoginAccepted => Byte.x41
  | LoginRejected => Byte.x4a
  | SequencedData => Byte.x53
  | ServerHeartbeat => Byte.x48
  | EndOfSession => Byte.x5a
  | Debug_ => Byte.x2b
  | UnsequencedData => Byte.x55
  | ClientHeartbeat => Byte.x52
  | LogoutRequest => Byte.x4f
  end.

(** [<PacketType as TryFrom<u8>>::try_from]. *)
Definition packet_type_of (b : byte) : res SoupBinError PacketType :=
  match b with
  | Byte.x4c => Ok LoginRequest
  | Byte.x41 => Ok LoginAccepted
  | Byte.x4a => Ok LoginRejected
  | Byte.x53 => Ok SequencedData
  | Byte.x48 => Ok ServerHeartbeat
  | Byte.x5a => Ok EndOfSession
  | Byte.x2b => Ok Debug_
  | Byte.x55 => Ok UnsequencedData
  | Byte.x52 => Ok ClientHeartbeat
  | Byte.x4f => Ok LogoutRequest
  | other => Err (UnknownPacketType other)
  end.

(** ** Framing *)

Record PacketFrame := { ty : PacketType; pf_payload : list byte }.

(** [parse_packet]: the indexings [buf[0..=2]] and [buf[3..total]] are guarded by the
    length tests. *)
Definition parse_packet (buf : list byte) : res SoupBinError (option (PacketFrame * Z)) :=
  match buf with
  | b0 :: b1 :: b2 :: _ =>
      let n := from_be_bytes [b0; b1] in
      if n <? 1 then Err (ProtocolViolation ZeroLength)
      else
        let total := 2 + n in
        if len buf <? total then Ok None
        else
          let* ty := packet_type_of b2 in
          let* payload := index_range 3 total buf in
          Ok (Some ({| ty := ty; pf_payload := payload |}, total))
  | _ => Ok None
  end.

(** The documented framing. *)
Definition encode (ty : PacketType) (payload : list byte) : list byte :=
  to_be_bytes 2 (1 + len payload) ++ type_byte ty :: payload.

(** ** Lemmas *)

Lemma packet_type_of_byte ty : packet_type_of (type_byte ty) = Ok ty.
Proof. by destruct ty. Qed.

Lemma packet_type_of_sound b ty : packet_type_of b = Ok ty -> b = type_byte ty.
Proof. destruct b; simpl; intros; by simplify_eq. Qed.

Lemma len_encode ty payload : len (encode ty payload) = 3 + len payload.
Proof. unfold encode. autorewrite with polaris. lia. Qed.

Lemma encode_cons ty payload :
  encode ty payload =
  Z_byte ((1 + len payload) / 256) :: Z_byte (1 + len payload) :: type_byte ty :: payload.
Proof. done. Qed.

(** A whole packet at the front parses to itself and is consumed exactly. *)
Lemma parse_encode ty payload rest :
  len payload <= U16_MAX - 1 ->
  parse_packet (encode ty payload ++ rest) =
  Ok (Some ({| ty := ty; pf_payload := payload |}, 3 + len payload)).
Proof.
  intros Hl. pose proof (len_nonneg payload). pose proof (len_nonneg rest).
  unfold parse_packet. rewrite encode_cons. cbn [app].
  rewrite be16_to_be by (unfold u16; lia).
  rewrite (proj2 (Z.ltb_ge _ 1)) by lia. rewrite !len_cons, len_app.
  rewrite (proj2 (Z.ltb_ge _ _)) by lia. rewrite packet_type_of_byte. unfold index_range.
  rewrite (get_range_split 3 (2 + (1 + len payload)) _ [Z_byte ((1 + len payload) / 256); Z_byte (1 + len payload); type_byte ty] payload rest);
    [|done|by autorewrite with polaris|autorewrite with polaris; lia].
  do 3 f_equal. lia.
Qed.

(** A strict prefix of a packet is reported as partial, never as an error. *)
Lemma parse_prefix ty payload p k :
  len payload <= U16_MAX - 1 -> p ++ k = encode ty payload -> k <> [] -> parse_packet p = Ok None.
Proof.
  intros Hl E Hk. pose proof (f_equal len E) as Hlen. rewrite len_encode, len_app in Hlen. rewrite encode_cons in E.
  assert (Hk1 : 1 <= len k) by (destruct k; [done|rewrite len_cons; pose proof (len_nonneg k); lia]).
  destruct p as [|b0 [|b1 [|b2 p]]]; try done. simplify_eq/=. unfold parse_packet.
  pose proof (len_nonneg (p ++ k)). rewrite be16_to_be by (unfold u16; lia).
  rewrite (proj2 (Z.ltb_ge _ 1)) by lia. rewrite (proj2 (Z.ltb_lt _ _)); [done|].
  rewrite !len_cons in *. lia.
Qed.

(** What the parser returns is a packet at the front of the buffer. *)
Lemma parse_sound buf f consumed :
  parse_packet buf = Ok (Some (f, consumed)) ->
  exists rest, buf = encode (ty f) (pf_payload f) ++ rest /\ consumed = 3 + len (pf_payload f) /\
    len (pf_payload f) <= U16_MAX - 1.
Proof.
  unfold parse_packet. intros E. destruct buf as [|b0 [|b1 [|b2 buf]]]; try done.
  destruct (from_be_bytes_range [b0; b1] 2 eq_refl) as [_ Hmax]. simpl in Hmax.
  set (n := from_be_bytes [b0; b1]) in *. destruct (n <? 1) eqn:E1; [done|]. destruct (_ <? 2 + n) eqn:E2; [done|]. bool_facts.
  destruct (packet_type_of b2) as [t| |] eqn:Et; [|done..]. apply packet_type_of_sound in Et as ->.
  unfold index_range in E. destruct (get_range 3 (2 + n) _) as [pl|] eqn:Eg; [|done]. simplify_eq.
  pose proof (get_range_length _ _ _ _ Eg) as Hlp. apply get_range_Some in Eg as (_ & _ & Epl).
  simpl in Epl. change (Z.to_nat 3) with 3%nat in Epl. cbn [drop] in Epl. cbn [ty pf_payload].
  exists (drop (Z.to_nat (2 + n - 3)) buf). split_and!; [|lia|lia].
  unfold encode. replace (1 + len pl) with n by lia. unfold n. rewrite to_be16. cbn [app].
  rewrite Epl at 1. by rewrite take_drop.
Qed.

Lemma parse_no_panic buf : parse_packet buf <> Panic.
Proof.
  unfold parse_packet. destruct buf as [|b0 [|b1 [|b2 buf]]]; try done.
  pose proof (from_be_bytes_range [b0; b1] 2 eq_refl) as [H0 _].
  destruct (_ <? 1) eqn:E1; [done|]. destruct (_ <? 2 + _) eqn:E2; [done|]. bool_facts.
  destruct (packet_type_of b2) eqn:Et; [|done|destruct b2; simplify_eq/=].
  unfold index_range. destruct (get_range_is_Some 3 (2 + from_be_bytes [b0; b1]) (b0 :: b1 :: b2 :: buf)) as [m ->]; [lia|lia|done].
Qed.

Arguments encode : simpl never.

(** ** Properties *)

(** C36: [parse_packet] accepts exactly the documented framing: it returns a packet and
    its size just when the buffer starts with that packet's encoding. *)
Theorem parse_packet_exact buf f n :
  parse_packet buf = Ok (Some (f, n)) <->
  exists rest, buf = encode (ty f) (pf_payload f) ++ rest /\ n = len (encode (ty f) (pf_payload f)) /\
    len (pf_payload f) <= U16_MAX - 1.
Proof.
  rewrite len_encode. split; [apply parse_sound|]. intros (rest & -> & -> & Hl).
  destruct f as [t p]. by apply parse_encode.
Qed.

(** however a packet is cut by the stream, its strict prefixes parse as "not yet",
    never as an error or as another packet. *)
Theorem parse_packet_partial ty payload p k :
  len payload <= U16_MAX - 1 -> p ++ k = encode ty payload -> k <> [] -> parse_packet p = Ok None.
Proof. apply parse_prefix. Qed.

Lemma parse_packet_partial_witness : parse_packet [Byte.x00; Byte.x03; Byte.x53; Byte.x01] = Ok None.
Proof.
  apply (parse_packet_partial SequencedData [Byte.x01; Byte.x02] [Byte.x00; Byte.x03; Byte.x53; Byte.x01] [Byte.x02]);
    [vm_compute; discriminate|vm_compute; reflexivity|discriminate].
Defined.
