(* ===== verification/SoupText.v ===== *)
(** * client-soupbintcp: the ASCII fields of login packets

    Models [login_request], [ascii_left_justify], [ascii_right_justify],
    [parse_login_accepted], [parse_ascii_field] and [parse_ascii_numeric] of
    [session.rs], with the standard library functions they call:
    [str::from_utf8], [str::trim], [u64::to_string], [str::parse::<u64>]. A [str]
    is the list of its scalar values. *)

From S2P Require Import Prelude TransportCore SoupWire.
From Stdlib Require Import ZArith Lia.
From stdpp Require Import prelude list strings.

Open Scope Z_scope.
Open Scope res_scope.

(** ** Standard library: UTF-8, white space, decimal *)

Definition cont (b : byte) : option Z :=
  if (0x80 <=? byte_Z b) && (byte_Z b <=? 0xBF) then Some (byte_Z b - 0x80) else None.

(** One scalar value of well-formed UTF-8: no overlong form, no surrogate. *)
Definition utf8_next (l : list byte) : option (Z * list byte) :=
  match l with
  | [] => None
  | b :: r =>
      let z := byte_Z b in
      if z <? 0x80 then Some (z, r)
      else if (0xC2 <=? z) && (z <=? 0xDF) then
        match r with
        | c :: r => x ← cont c; Some ((z - 0xC0) * 64 + x, r)
        | _ => None
        end
      else if (0xE0 <=? z) && (z <=? 0xEF) then
        match r with
        | c :: d :: r =>
            x ← cont c; y ← cont d;
            let v := (z - 0xE0) * 4096 + x * 64 + y in
            if (v <? 0x800) || ((0xD800 <=? v) && (v <=? 0xDFFF)) then None else Some (v, r)
        | _ => None
        end
      else if (0xF0 <=? z) && (z <=? 0xF4) then
        match r with
        | c :: d :: e :: r =>
            x ← cont c; y ← cont d; w ← cont e;
            let v := (z - 0xF0) * 262144 + x * 4096 + y * 64 + w in
            if (v <? 0x10000) || (0x10FFFF <? v) then None else Some (v, r)
        | _ => None
        end
      else None
  end.

(** [str::from_utf8]; each round takes a byte at least, so the length is fuel enough. *)
Fixpoint utf8_decode (fuel : nat) (l : list byte) : option (list Z) :=
  match l with
  | [] => Some []
  | _ =>
      match fuel with
      | O => None
      | S fuel => '(c, r) ← utf8_next l; cs ← utf8_decode fuel r; Some (c :: cs)
      end
  end.

Definition from_utf8 (l : list byte) : option (list Z) := utf8_decode (length l) l.

(** [char::is_whitespace]: the Unicode [White_Space] property. *)
Definition is_whitespace (c : Z) : bool :=
  ((9 <=? c) && (c <=? 13)) || (c =? 32) || (c =? 0x85) || (c =? 0xA0) || (c =? 0x1680) ||
  ((0x2000 <=? c) && (c <=? 0x200A)) || (c =? 0x2028) || (c =? 0x2029) || (c =? 0x202F) ||
  (c =? 0x205F) || (c =? 0x3000).

Fixpoint trim_start (s : list Z) : list Z :=
  match s with
  | c :: r => if is_whitespace c then trim_start r else s
  | [] => []
  end.

(** [str::trim]. *)
Definition trim (s : list Z) : list Z := reverse (trim_start (reverse (trim_start s))).

(** [str::parse::<u64>]: an optional plus sign, then decimal digits that fit. *)
Fixpoint parse_digits (acc : Z) (s : list Z) : option Z :=
  match s with
  | [] => Some acc
  | c :: r =>
      if (48 <=? c) && (c <=? 57) then
        let v := acc * 10 + (c - 48) in
        if v <=? U64_MAX then parse_digits v r else None
      else None
  end.

Definition parse_u64 (s : list Z) : option Z :=
  match s with
  | [] => None
  | c :: r => if c =? 43 then match r with [] => None | _ => parse_digits 0 r end else parse_digits 0 s
  end.

(** [u64::to_string]. A [u64] has at most twenty digits. *)
Fixpoint decimal (fuel : nat) (n : Z) (acc : list byte) : list byte :=
  match fuel with
  | O => acc
  | S fuel =>
      let acc := Z_byte (48 + n mod 10) :: acc in
      if n / 10 =? 0 then acc else decimal fuel (n / 10) acc
  end.

Definition to_string (n : Z) : list byte := decimal 20 n [].

(** ** Login fields *)

Definition SPACE : byte := Byte.x20.

(** [ascii_left_justify]. *)
Definition ascii_left_justify (out s : list byte) (width : nat) : list byte :=
  let bytes := take (Nat.min (length s) width) s in
  out ++ bytes ++ replicate (width - length bytes) SPACE.

(** [ascii_right_justify]. *)
Definition ascii_right_justify (out s : list byte) (width : nat) : list byte :=
  let bytes := drop (length s - width) s in
  out ++ replicate (width - length bytes) SPACE ++ bytes.

Definition login_request (cfg : SoupBinClientConfig) : list byte :=
  let payload := ascii_left_justify [] (username cfg) 6 in
  let payload := ascii_left_justify payload (password cfg) 10 in
  let payload := ascii_left_justify payload (requested_session cfg) 10 in
  ascii_right_justify payload (to_string (requested_sequence_number cfg)) 20.

Definition parse_ascii_field (bytes : list byte) : res SoupBinError (list Z) :=
  match from_utf8 bytes with
  | Some s => Ok (trim s)
  | None => Err (ProtocolViolation NonAsciiField)
  end.

Definition parse_ascii_numeric (bytes : list byte) : res SoupBinError Z :=
  let* s := parse_ascii_field bytes in
  match s with
  | [] => Ok 0
  | _ => ok_or (parse_u64 s) (ProtocolViolation (BadNumericField s))
  end.

Definition parse_login_accepted (bytes : list byte) : res SoupBinError (list byte * Z) :=
  let short := ProtocolViolation AcceptedTooShort in
  let* (session, rest) := ok_or (split_first_chunk 10 bytes) short in
  let* sequence := ok_or (get_range 0 20 rest) short in
  let* n := parse_ascii_numeric sequence in
  Ok (session, n).

(** ** Lemmas *)

Definition ascii (b : byte) : Prop := byte_Z b < 128.

Lemma utf8_ascii l : Forall ascii l -> from_utf8 l = Some (byte_Z <$> l).
Proof.
  unfold from_utf8. induction 1 as [|b l Hb Hl IH]; [done|]. cbn [length utf8_decode utf8_next].
  unfold ascii in Hb. rewrite (proj2 (Z.ltb_lt _ _) Hb). simpl. by rewrite IH.
Qed.

Lemma trim_start_spaces n s : trim_start (replicate n 32 ++ s) = trim_start s.
Proof. induction n as [|n IH]; [done|]. exact IH. Qed.

Lemma trim_start_id s : Forall (fun c => is_whitespace c = false) s -> trim_start s = s.
Proof. destruct 1 as [|c r Hc _]; [done|]. simpl. by rewrite Hc. Qed.

Lemma trim_id s : Forall (fun c => is_whitespace c = false) s -> trim s = s.
Proof.
  intros Hs. unfold trim. rewrite (trim_start_id s) by done. rewrite trim_start_id by (by apply Forall_reverse).
  apply reverse_involutive.
Qed.

(** Digits of a number, most significant first. *)
Definition is_digit (b : byte) : Prop := 48 <= byte_Z b <= 57.

Definition value (l : list byte) : Z := foldl (fun acc b => acc * 10 + (byte_Z b - 48)) 0 l.

Lemma value_app_from l k acc :
  foldl (fun acc b => acc * 10 + (byte_Z b - 48)) acc (l ++ k) =
  foldl (fun acc b => acc * 10 + (byte_Z b - 48)) (foldl (fun acc b => acc * 10 + (byte_Z b - 48)) acc l) k.
Proof. apply foldl_app. Qed.

Lemma digit_byte n : byte_Z (Z_byte (48 + n mod 10)) = 48 + n mod 10.
Proof. rewrite byte_Z_byte. apply Z.mod_small. pose proof (Z.mod_pos_bound n 10 ltac:(lia)). lia. Qed.

Lemma decimal_spec fuel n acc :
  0 <= n < 10 ^ Z.of_nat fuel -> (0 < fuel)%nat ->
  exists ds, decimal fuel n acc = ds ++ acc /\ Forall is_digit ds /\ value ds = n /\ ds <> [] /\ (length ds <= fuel)%nat.
Proof.
  revert n acc. induction fuel as [|fuel IH]; intros n acc Hn Hf; [lia|]. cbn [decimal].
  pose proof (Z.mod_pos_bound n 10 ltac:(lia)). pose proof (Z.div_mod n 10 ltac:(lia)).
  assert (Hd : is_digit (Z_byte (48 + n mod 10))) by (unfold is_digit; rewrite digit_byte; lia).
  destruct (n / 10 =? 0) eqn:E; bool_facts.
  - exists [Z_byte (48 + n mod 10)]. split_and!; [done|by constructor| |done|simpl; lia].
    unfold value. simpl. rewrite digit_byte. lia.
  - rewrite Nat2Z.inj_succ, Z.pow_succ_r in Hn by lia.
    assert (Hq : 0 <= n / 10 < 10 ^ Z.of_nat fuel) by lia.
    assert (Hfz : (0 < fuel)%nat) by (destruct fuel; [simpl in Hq; lia|lia]).
    destruct (IH (n / 10) (Z_byte (48 + n mod 10) :: acc) Hq Hfz) as (ds & -> & Hds & Hv & Hne & Hl).
    exists (ds ++ [Z_byte (48 + n mod 10)]). rewrite <- app_assoc. split_and!; [done| | |by destruct ds|].
    + apply Forall_app. split; [done|]. constructor; [done|constructor].
    + unfold value in *. rewrite value_app_from, Hv. simpl. rewrite digit_byte. lia.
    + rewrite length_app. simpl. lia.
Qed.

Lemma value_grows ds acc : Forall is_digit ds -> 0 <= acc -> acc <= foldl (fun acc b => acc * 10 + (byte_Z b - 48)) acc ds.
Proof.
  intros Hd. revert acc. induction Hd as [|b ds Hb Hd IH]; intros acc Ha; [simpl; lia|]. cbn [foldl].
  unfold is_digit in Hb. specialize (IH (acc * 10 + (byte_Z b - 48)) ltac:(lia)). lia.
Qed.

Lemma parse_digits_value ds acc :
  Forall is_digit ds -> 0 <= acc -> foldl (fun acc b => acc * 10 + (byte_Z b - 48)) acc ds <= U64_MAX ->
  parse_digits acc (byte_Z <$> ds) = Some (foldl (fun acc b => acc * 10 + (byte_Z b - 48)) acc ds).
Proof.
  intros Hd. revert acc. induction Hd as [|b ds Hb Hd IH]; intros acc Ha Hm; [done|].
  cbn [fmap list_fmap parse_digits foldl] in *. unfold is_digit in Hb.
  rewrite (proj2 (Z.leb_le 48 _)), (proj2 (Z.leb_le _ 57)) by lia. cbn [andb].
  pose proof (value_grows ds (acc * 10 + (byte_Z b - 48)) Hd ltac:(lia)).
  rewrite (proj2 (Z.leb_le _ U64_MAX)) by lia. apply IH; [lia|done].
Qed.

Lemma digit_not_space b : is_digit b -> is_whitespace (byte_Z b) = false.
Proof.
  unfold is_digit, is_whitespace. intros Hb.
  repeat (match goal with |- context [?x =? ?y] => rewrite (proj2 (Z.eqb_neq x y)) by lia end).
  rewrite (proj2 (Z.leb_gt (byte_Z b) 13)), (proj2 (Z.leb_gt 0x2000 (byte_Z b))) by lia.
  by rewrite andb_false_r.
Qed.

(** Spaces around digits are trimmed away. *)
Lemma trim_padded ds n : Forall is_digit ds -> trim (replicate n 32 ++ (byte_Z <$> ds)) = byte_Z <$> ds.
Proof.
  intros Hd. unfold trim. rewrite trim_start_spaces. apply trim_id, Forall_fmap.
  eapply Forall_impl; [exact Hd|]. exact digit_not_space.
Qed.

Lemma ascii_of_digits ds : Forall is_digit ds -> Forall ascii ds.
Proof. intros Hd. eapply Forall_impl; [exact Hd|]. unfold is_digit, ascii. intros; lia. Qed.

(** A first digit is no plus sign. *)
Lemma parse_u64_digits ds :
  Forall is_digit ds -> ds <> [] -> parse_u64 (byte_Z <$> ds) = parse_digits 0 (byte_Z <$> ds).
Proof.
  intros Hd Hne. destruct Hd as [|b ds Hb _]; [done|]. unfold parse_u64. simpl.
  rewrite (proj2 (Z.eqb_neq (byte_Z b) 43)) by (unfold is_digit in Hb; lia). done.
Qed.

(** The numeric field the client writes reads back as its number. *)
Lemma numeric_field n w :
  u64 n -> (20 <= w)%nat ->
  parse_ascii_numeric (ascii_right_justify [] (to_string n) w) = Ok n.
Proof.
  intros Hn Hw. unfold to_string.
  destruct (decimal_spec 20 n []) as (ds & -> & Hd & Hv & Hne & Hl); [unfold u64 in Hn; simpl; lia|lia|].
  rewrite app_nil_r. unfold ascii_right_justify. replace (length ds - w)%nat with 0%nat by lia.
  cbn [app]. unfold parse_ascii_numeric, parse_ascii_field.
  rewrite utf8_ascii by (apply Forall_app; split; [apply Forall_replicate; unfold ascii; vm_compute; reflexivity|by apply ascii_of_digits]).
  rewrite fmap_app, fmap_replicate. change (byte_Z SPACE) with 32. rewrite trim_padded by done.
  assert (Hp : parse_u64 (byte_Z <$> ds) = Some n).
  { rewrite parse_u64_digits by done. rewrite parse_digits_value; [by fold (value ds); rewrite Hv|done|lia|].
    fold (value ds). rewrite Hv. unfold u64 in Hn. lia. }
  destruct ds as [|b ds]; [done|]. rewrite drop_0. cbv beta iota. by rewrite Hp.
Qed.

Lemma parse_ascii_field_no_panic l : parse_ascii_field l <> Panic.
Proof. unfold parse_ascii_field. by destruct (from_utf8 l). Qed.

Lemma parse_login_accepted_no_panic l : parse_login_accepted l <> Panic.
Proof.
  unfold parse_login_accepted, parse_ascii_numeric. destruct (split_first_chunk 10 l) as [[a b]|]; [|done]. simpl.
  destruct (get_range 0 20 b) as [c|]; [|done]. simpl. destruct (parse_ascii_field c) as [s|e|] eqn:E; [|done|].
  - destruct s as [|x s]; [done|]. by destruct (parse_u64 (x :: s)).
  - by apply parse_ascii_field_no_panic in E.
Qed.

(** ** Properties *)

Lemma length_justify_left out s w : length (ascii_left_justify out s w) = (length out + w)%nat.
Proof. unfold ascii_left_justify. rewrite !length_app, length_replicate, length_take. lia. Qed.

Lemma length_justify_right out s w : length (ascii_right_justify out s w) = (length out + w)%nat.
Proof. unfold ascii_right_justify. rewrite !length_app, length_replicate, length_drop. lia. Qed.

Lemma justify_left_app out s w : ascii_left_justify out s w = out ++ ascii_left_justify [] s w.
Proof. done. Qed.

Lemma justify_right_app out s w : ascii_right_justify out s w = out ++ ascii_right_justify [] s w.
Proof. done. Qed.

(** the login request is 46 bytes for any configuration, each text field in its
    columns, padded or cut to its width, and the sequence field reads back, by the code's
    own numeric parser, as the number requested, whatever that [u64] is. *)
Theorem login_request_layout cfg :
  u64 (requested_sequence_number cfg) ->
  let p := login_request cfg in
  length p = 46%nat /\
  take 6 p = ascii_left_justify [] (username cfg) 6 /\
  take 10 (drop 6 p) = ascii_left_justify [] (password cfg) 10 /\
  take 10 (drop 16 p) = ascii_left_justify [] (requested_session cfg) 10 /\
  parse_ascii_numeric (drop 26 p) = Ok (requested_sequence_number cfg).
Proof.
  intros Hn p. unfold p, login_request. rewrite length_justify_right, !length_justify_left. split; [done|].
  rewrite justify_right_app, (justify_left_app _ (requested_session cfg)), (justify_left_app _ (password cfg)).
  pose proof (length_justify_left [] (username cfg) 6) as Hu. pose proof (length_justify_left [] (password cfg) 10) as Hp.
  pose proof (length_justify_left [] (requested_session cfg) 10) as Hs. simpl length in Hu, Hp, Hs. rewrite <- !app_assoc.
  pose proof (numeric_field (requested_sequence_number cfg) 20 Hn ltac:(lia)) as Hf.
  set (u := ascii_left_justify [] (username cfg) 6) in *. set (w := ascii_left_justify [] (password cfg) 10) in *.
  set (s := ascii_left_justify [] (requested_session cfg) 10) in *. set (f := ascii_right_justify [] _ 20) in *.
  split_and!.
  - by rewrite take_app_length'.
  - by rewrite drop_app_length', take_app_length'.
  - rewrite app_assoc. rewrite drop_app_length'; [|rewrite length_app; lia]. by rewrite take_app_length'.
  - rewrite !app_assoc, drop_app_length'; [done|]. rewrite !length_app. lia.
Qed.

Lemma login_request_layout_witness :
  let p := login_request SoupBinClientConfig_default in
  length p = 46%nat /\
  take 6 p = ascii_left_justify [] [] 6 /\
  take 10 (drop 6 p) = ascii_left_justify [] [] 10 /\
  take 10 (drop 16 p) = ascii_left_justify [] [] 10 /\
  parse_ascii_numeric (drop 26 p) = Ok 1.
Proof. apply (login_request_layout SoupBinClientConfig_default). unfold u64. simpl. lia. Defined.

(** an accepted login carries its session and sequence number through: a payload of
    ten session bytes and any [u64] right-justified in twenty columns parses to them,
    bytes after the fields ignored. *)
Theorem login_accepted_roundtrip session n extra :
  length session = 10%nat -> u64 n ->
  parse_login_accepted (session ++ ascii_right_justify [] (to_string n) 20 ++ extra) = Ok (session, n).
Proof.
  intros Hs Hn. unfold parse_login_accepted. rewrite split_first_chunk_app by done. simpl ok_or. cbv beta iota.
  pose proof (length_justify_right [] (to_string n) 20) as Hl. simpl length in Hl.
  rewrite (get_range_split 0 20 _ [] (ascii_right_justify [] (to_string n) 20) extra); [|done|done|unfold len; rewrite Hl; done].
  simpl ok_or. cbv beta iota. by rewrite numeric_field.
Qed.

Lemma login_accepted_roundtrip_witness :
  parse_login_accepted (replicate 10 Byte.x41 ++ ascii_right_justify [] (to_string U64_MAX) 20 ++ [Byte.x00]) =
  Ok (replicate 10 Byte.x41, U64_MAX).
Proof. apply (login_accepted_roundtrip (replicate 10 Byte.x41) U64_MAX [Byte.x00]); [done|unfold u64; lia]. Defined.
