(* ===== verification/SoupSession.v ===== *)
(** * client-soupbintcp: the session state machine and its synchronous driver

    Models [Session], [land] and the [start]/[poll] client of [session.rs], with
    [ClientState] of [client.rs], in the default build (no [compressed] feature).
    [BytesMut] is its contents, its spare capacity and an opaque allocator state;
    the [bytes] crate's [reserve] is the class [Alloc]. The calls that log or count
    have no entry: they do not touch the session. *)

From S2P Require Import Prelude TransportCore SoupWire SoupText.
From Stdlib Require Import ZArith Lia.
From stdpp Require Import prelude list strings.

Open Scope Z_scope.
Open Scope res_scope.

(** ** Instants *)

(** An [Instant] holds seconds in an [i64]; adding past that panics. *)
Definition INSTANT_MAX : Z := (2 ^ 63) * NANOS_PER_SEC - 1.

Definition instant_add {E} (t d : Z) : res E Z :=
  if t + d <=? INSTANT_MAX then Ok (t + d) else Panic.

(** ** The receive buffer *)

Record BytesMut := { data : list byte; room : Z; alloc : nat }.

(** [BytesMut::reserve] of the [bytes] crate. *)
Class Alloc := reserve : BytesMut -> Z -> BytesMut.

Class AllocOk `{Alloc} := {
  reserve_data b n : data (reserve b n) = data b;
  reserve_room b n : Z.max 0 n <= room (reserve b n);
}.

(** [BytesMut::split_to(n)]: the front leaves, with its share of the capacity. *)
Definition split_to (b : BytesMut) (n : Z) : list byte * BytesMut :=
  (take (Z.to_nat n) (data b), {| data := drop (Z.to_nat n) (data b); room := room b; alloc := alloc b |}).

(** [BytesMut::advance_mut] over bytes just written to the spare capacity. *)
Definition advance_mut (b : BytesMut) (written : list byte) : res SoupBinError BytesMut :=
  if len written <=? room b
  then Ok {| data := data b ++ written; room := room b - len written; alloc := alloc b |}
  else Panic.

(** ** State *)

Inductive ClientState := Authenticating | Streaming | Closed.

#[export] Instance ClientState_eq_dec : EqDecision ClientState.
Proof. solve_decision. Defined.

Inductive Login :=
  | Accepted (session : list byte) (sequence : Z)
  | Rejected (reason : byte).

Inductive Streamed :=
  | SData (sequence : Z)
  | SEvent (e : SoupBinEvent).

Record Session := {
  state : ClientState;
  cfg : SoupBinClientConfig;
  decode_buf : BytesMut;
  last_frame : list byte;
  out : list byte;
  assigned_id : list Z;
  next_expected_sequence : Z;
  last_send : Z;
  last_recv : Z;
  login_deadline : Z;
}.

Definition set_state st s :=
  {| state := st; cfg := cfg s; decode_buf := decode_buf s; last_frame := last_frame s; out := out s;
     assigned_id := assigned_id s; next_expected_sequence := next_expected_sequence s;
     last_send := last_send s; last_recv := last_recv s; login_deadline := login_deadline s |}.
Definition set_decode_buf b s :=
  {| state := state s; cfg := cfg s; decode_buf := b; last_frame := last_frame s; out := out s;
     assigned_id := assigned_id s; next_expected_sequence := next_expected_sequence s;
     last_send := last_send s; last_recv := last_recv s; login_deadline := login_deadline s |}.
Definition set_out o s :=
  {| state := state s; cfg := cfg s; decode_buf := decode_buf s; last_frame := last_frame s; out := o;
     assigned_id := assigned_id s; next_expected_sequence := next_expected_sequence s;
     last_send := last_send s; last_recv := last_recv s; login_deadline := login_deadline s |}.
Definition set_last_send t s :=
  {| state := state s; cfg := cfg s; decode_buf := decode_buf s; last_frame := last_frame s; out := out s;
     assigned_id := assigned_id s; next_expected_sequence := next_expected_sequence s;
     last_send := t; last_recv := last_recv s; login_deadline := login_deadline s |}.
Definition set_last_recv t s :=
  {| state := state s; cfg := cfg s; decode_buf := decode_buf s; last_frame := last_frame s; out := out s;
     assigned_id := assigned_id s; next_expected_sequence := next_expected_sequence s;
     last_send := last_send s; last_recv := t; login_deadline := login_deadline s |}.
Definition set_login_deadline t s :=
  {| state := state s; cfg := cfg s; decode_buf := decode_buf s; last_frame := last_frame s; out := out s;
     assigned_id := assigned_id s; next_expected_sequence := next_expected_sequence s;
     last_send := last_send s; last_recv := last_recv s; login_deadline := t |}.
(** The fields an accepted login writes, [last_recv] and the state aside. *)
Definition set_login id n s :=
  {| state := state s; cfg := cfg s; decode_buf := decode_buf s; last_frame := last_frame s; out := out s;
     assigned_id := id; next_expected_sequence := n;
     last_send := last_send s; last_recv := last_recv s; login_deadline := login_deadline s |}.
(** The fields a sequenced packet writes. *)
Definition set_frame f n s :=
  {| state := state s; cfg := cfg s; decode_buf := decode_buf s; last_frame := f; out := out s;
     assigned_id := assigned_id s; next_expected_sequence := n;
     last_send := last_send s; last_recv := last_recv s; login_deadline := login_deadline s |}.

(** [Session::new], the clock read passed in. [BytesMut::with_capacity] gives at least
    the capacity asked for; the rest is the allocator's. *)
Definition new (now : Z) (c : SoupBinClientConfig) : Session :=
  {| state := Authenticating; cfg := c;
     decode_buf := {| data := []; room := decode_buf_capacity c; alloc := 0 |};
     last_frame := []; out := []; assigned_id := []; next_expected_sequence := 0;
     last_send := now; last_recv := now; login_deadline := now |}.

Definition next_deadline (s : Session) : res SoupBinError Z :=
  match state s with
  | Authenticating => Ok (login_deadline s)
  | Streaming | Closed =>
      let* recv_due := instant_add (last_recv s) (heartbeat_timeout (cfg s)) in
      match out s with
      | [] =>
          let* send_due := instant_add (last_send s) (heartbeat_interval (cfg s)) in
          Ok (Z.min recv_due send_due)
      | _ => Ok recv_due
      end
  end.

Definition frame (s : Session) (sequence : Z) : Frame :=
  {| payload := last_frame s; sequence := sequence |}.

(** ** Outbound *)

Definition queue (s : Session) (ty : PacketType) (payload : list byte) : res SoupBinError unit * Session :=
  match try_u16 (1 + len payload) with
  | None => (Err (FrameTooLarge (len payload) (U16_MAX - 1)), s)
  | Some n => (Ok tt, set_out (out s ++ to_be_bytes 2 n ++ [type_byte ty] ++ payload) s)
  end.

Definition queue_login (s : Session) (now : Z) : res SoupBinError unit * Session :=
  match queue s LoginRequest (login_request (cfg s)) with
  | (Ok _, s) =>
      match instant_add now (login_timeout (cfg s)) with
      | Ok d => (Ok tt, set_login_deadline d s)
      | Err e => (Err e, s)
      | Panic => (Panic, s)
      end
  | r => r
  end.

Definition queue_heartbeat (s : Session) : res SoupBinError unit * Session := queue s ClientHeartbeat [].

Definition close_logout (s : Session) : Session := set_state Closed s.

Definition login_timed_out (s : Session) : SoupBinError * Session :=
  (LoginTimeout (login_timeout (cfg s)), set_out [] (set_state Closed s)).

Definition sent_all (s : Session) (now : Z) : Session := set_last_send now (set_out [] s).

Definition heartbeat_due (s : Session) (now : Z) : bool :=
  match out s with [] => heartbeat_interval (cfg s) <? duration_since now (last_send s) | _ => false end.

Definition heartbeat_timed_out (s : Session) (now : Z) : bool * Session :=
  if duration_since now (last_recv s) <=? heartbeat_timeout (cfg s) then (false, s)
  else (true, set_out [] (set_state Closed s)).

Section transport.
Context {T : Type} `{StreamTrySend T}.

(** One round of [flush]'s loop on the session and the transport. *)
Definition flush_round (now : Z) (c : Session * T)
    : step (Session * T) (res SoupBinError unit * Session * T) :=
  let '(s, t) := c in
  match out s with
  | [] => Leave (Ok tt, s, t)
  | _ =>
      match try_send t (out s) with
      | (Err e, t) => Leave (Err (Transport_ e), s, t)
      | (Panic, t) => Leave (Panic, s, t)
      | (Ok n, t) =>
          if n =? 0 then Leave (Ok tt, s, t)
          else if len (out s) <? n then Leave (Panic, s, t)
          else
            let s := set_out (drop (Z.to_nat n) (out s)) s in
            Again (match out s with [] => set_last_send now s | _ => s end, t)
      end
  end.

(** Each round writes a byte at least, so the queue's length bounds them. *)
Definition flush (s : Session) (t : T) (now : Z) : option (res SoupBinError unit * Session * T) :=
  iterate (flush_round now) (S (length (out s))) (s, t).
End transport.

(** ** Inbound *)

(** [land]. *)
Definition land {T} `{StreamRecv T} `{Alloc} (t : T) (buf : BytesMut) (capacity : Z)
    : res SoupBinError Z * BytesMut * T :=
  let buf := reserve buf capacity in
  match recv_into t (room buf) with
  | (Ok written, t) =>
      match advance_mut buf written with
      | Ok buf => (Ok (len written), buf, t)
      | Err e => (Err e, buf, t)
      | Panic => (Panic, buf, t)
      end
  | (Err e, t) => (Err (Transport_ e), buf, t)
  | (Panic, t) => (Panic, buf, t)
  end.

Definition ingest {T} `{StreamRecv T} `{Alloc} (s : Session) (t : T) (now : Z)
    : res SoupBinError bool * Session * T :=
  match land t (decode_buf s) (decode_buf_capacity (cfg s)) with
  | (Ok n, buf, t) =>
      let s := set_decode_buf buf s in
      let read := 0 <? n in
      (Ok read, if read then set_last_recv now s else s, t)
  | (Err e, buf, t) => (Err e, set_decode_buf buf s, t)
  | (Panic, buf, t) => (Panic, set_decode_buf buf s, t)
  end.

(** [decode_buf.first_chunk::<2>()] and the size it announces. *)
Definition announced (l : list byte) : option Z :=
  match l with
  | b0 :: b1 :: _ => Some (2 + from_be_bytes [b0; b1])
  | _ => None
  end.

Definition take_packet (s : Session) : res SoupBinError (option (PacketType * list byte)) * Session :=
  let too_large :=
    match announced (data (decode_buf s)) with
    | Some total => if max_frame_size (cfg s) <? total then Some total else None
    | None => None
    end in
  match too_large with
  | Some total => (Err (FrameTooLarge total (max_frame_size (cfg s))), s)
  | None =>
      match parse_packet (data (decode_buf s)) with
      | Err e => (Err e, s)
      | Panic => (Panic, s)
      | Ok None => (Ok None, s)
      | Ok (Some (f, consumed)) =>
          let '(packet, buf) := split_to (decode_buf s) consumed in
          (Ok (Some (ty f, drop (Z.to_nat (consumed - len (pf_payload f))) packet)), set_decode_buf buf s)
      end
  end.

Definition login_round (now : Z) (s : Session)
    : step Session (res SoupBinError (option Login) * Session) :=
  match take_packet s with
  | (Err e, s) => Leave (Err e, s)
  | (Panic, s) => Leave (Panic, s)
  | (Ok None, s) => Leave (Ok None, s)
  | (Ok (Some (ty, bytes)), s) =>
      match ty with
      | LoginAccepted =>
          match parse_login_accepted bytes with
          | Ok (session, sequence) =>
              match parse_ascii_field session with
              | Ok id =>
                  Leave (Ok (Some (Accepted session sequence)),
                         set_state Streaming (set_last_recv now (set_login id sequence s)))
              | Err e => Leave (Err e, s)
              | Panic => Leave (Panic, s)
              end
          | Err e => Leave (Err e, s)
          | Panic => Leave (Panic, s)
          end
      | LoginRejected =>
          match bytes with
          | [] => Leave (Err (ProtocolViolation RejectedWithoutReason), s)
          | reason :: _ => Leave (Ok (Some (Rejected reason)), set_state Closed s)
          end
      | Debug_ | ServerHeartbeat => Again s
      | other => Leave (Err (ProtocolViolation (UnexpectedInLogin other)), s)
      end
  end.

(** Each round takes three bytes at least off the buffer. *)
Definition dispatch_login (s : Session) (now : Z) : option (res SoupBinError (option Login) * Session) :=
  iterate (login_round now) (S (length (data (decode_buf s)))) s.

Definition stream_round (s : Session) : step Session (res SoupBinError (option Streamed) * Session) :=
  match take_packet s with
  | (Err e, s) => Leave (Err e, s)
  | (Panic, s) => Leave (Panic, s)
  | (Ok None, s) => Leave (Ok None, s)
  | (Ok (Some (ty, bytes)), s) =>
      match ty with
      | SequencedData =>
          let sequence := next_expected_sequence s in
          Leave (Ok (Some (SData sequence)), set_frame bytes (u64_add sequence 1) s)
      | ServerHeartbeat => Leave (Ok (Some (SEvent EvHeartbeatReceived)), s)
      | EndOfSession => Leave (Ok (Some (SEvent EvEndOfSession)), set_out [] (set_state Closed s))
      | Debug_ => Again s
      | other => Leave (Err (ProtocolViolation (UnexpectedInStream other)), s)
      end
  end.

Definition dispatch_stream (s : Session) : option (res SoupBinError (option Streamed) * Session) :=
  iterate stream_round (S (length (data (decode_buf s)))) s.

(** ** The synchronous client *)

Record SoupBinClient (T : Type) := { transport : T; session : Session }.
Arguments transport {T} _.
Arguments session {T} _.

Section client.
Context {T : Type} `{StreamRecv T} `{StreamTrySend T} `{Alloc}.

Definition client (s : Session) (t : T) : SoupBinClient T := {| transport := t; session := s |}.

Definition poll_result : Type := res SoupBinError (option SoupBinMessage) * SoupBinClient T.

(** [SoupBinClient::start], its clock read passed in. *)
Definition start (t : T) (c : SoupBinClientConfig) (now : Z) : option (res SoupBinError (SoupBinClient T)) :=
  match queue_login (new now c) now with
  | (Ok _, s) =>
      '(r, s, t) ← flush s t now;
      Some (match r with Ok _ => Ok (client s t) | Err e => Err e | Panic => Panic end)
  | (Err e, _) => Some (Err e)
  | (Panic, _) => Some Panic
  end.

Definition queue_unsequenced (c : SoupBinClient T) (payload : list byte) : res SoupBinError unit * SoupBinClient T :=
  match state (session c) with
  | Closed => (Err EndOfSession_, c)
  | _ => let '(r, s) := queue (session c) UnsequencedData payload in (r, client s (transport c))
  end.

Definition queue_logout (c : SoupBinClient T) : res SoupBinError unit * SoupBinClient T :=
  match state (session c) with
  | Closed => (Err EndOfSession_, c)
  | _ =>
      match queue (session c) LogoutRequest [] with
      | (Ok _, s) => (Ok tt, client (close_logout s) (transport c))
      | (r, s) => (r, client s (transport c))
      end
  end.

(** One round of [poll_login]'s loop: [Leave None] is the [break]. *)
Definition poll_login_round (now : Z) (c : SoupBinClient T)
    : option (step (SoupBinClient T) (option (res SoupBinError (option SoupBinMessage)) * SoupBinClient T)) :=
  '(r, s) ← dispatch_login (session c) now;
  Some (match r with
  | Ok (Some (Accepted id n)) => Leave (Some (Ok (Some (Event (EvLoginAccepted id n)))), client s (transport c))
  | Ok (Some (Rejected reason)) => Leave (Some (Ok (Some (Event (EvLoginRejected reason)))), client s (transport c))
  | Err e => Leave (Some (Err e), client s (transport c))
  | Panic => Leave (Some Panic, client s (transport c))
  | Ok None =>
      match ingest s (transport c) now with
      | (Ok true, s, t) => Again (client s t)
      | (Ok false, s, t) => Leave (None, client s t)
      | (Err e, s, t) => Leave (Some (Err e), client s t)
      | (Panic, s, t) => Leave (Some Panic, client s t)
      end
  end).

Definition poll_stream_round (now : Z) (c : SoupBinClient T)
    : option (step (SoupBinClient T) (option (res SoupBinError (option SoupBinMessage)) * SoupBinClient T)) :=
  '(r, s) ← dispatch_stream (session c);
  Some (match r with
  | Ok (Some (SData n)) => Leave (Some (Ok (Some (Data (frame s n)))), client s (transport c))
  | Ok (Some (SEvent e)) => Leave (Some (Ok (Some (Event e))), client s (transport c))
  | Err e => Leave (Some (Err e), client s (transport c))
  | Panic => Leave (Some Panic, client s (transport c))
  | Ok None =>
      match ingest s (transport c) now with
      | (Ok true, s, t) => Again (client s t)
      | (Ok false, s, t) => Leave (None, client s t)
      | (Err e, s, t) => Leave (Some (Err e), client s t)
      | (Panic, s, t) => Leave (Some Panic, client s t)
      end
  end).

Definition poll_login (fuel : nat) (c : SoupBinClient T) (now : Z) : option poll_result :=
  '(r, c) ← loop (poll_login_round now) fuel c;
  Some (match r with
  | Some r => (r, c)
  | None =>
      if login_deadline (session c) <=? now then
        let '(e, s) := login_timed_out (session c) in (Err e, client s (transport c))
      else (Ok None, c)
  end).

Definition poll_stream (fuel : nat) (c : SoupBinClient T) (now : Z) : option poll_result :=
  if heartbeat_due (session c) now then
    match queue_heartbeat (session c) with
    | (Ok _, s) =>
        '(r, s, t) ← flush s (transport c) now;
        Some (match r with
              | Ok _ => Ok (Some (Event EvHeartbeatSent))
              | Err e => Err e
              | Panic => Panic
              end, client s t)
    | (Err e, s) => Some (Err e, client s (transport c))
    | (Panic, s) => Some (Panic, client s (transport c))
    end
  else
    '(r, c) ← loop (poll_stream_round now) fuel c;
    Some (match r with
    | Some r => (r, c)
    | None =>
        let '(dead, s) := heartbeat_timed_out (session c) now in
        (Ok (if dead then Some (Event EvHeartbeatTimeout) else None), client s (transport c))
    end).

(** [SoupBinClient::poll]. *)
Definition poll (fuel : nat) (c : SoupBinClient T) (now : Z) : option poll_result :=
  '(r, s, t) ← flush (session c) (transport c) now;
  let c := client s t in
  match r with
  | Err e => Some (Err e, c)
  | Panic => Some (Panic, c)
  | Ok _ =>
      match state s with
      | Closed => Some (match out s with [] => Err EndOfSession_ | _ => Ok None end, c)
      | Authenticating => poll_login fuel c now
      | Streaming => poll_stream fuel c now
      end
  end.
End client.
Arguments client {T} s t.
