(* ===== verification/SoupStream.v ===== *)
(** * client-soupbintcp: the packets of a stream and what the session owes on them

    The stream contract that [StreamRecv] and [StreamTrySend] document, a scripted
    stream that keeps it, and the account both drivers share: [expected] says what
    messages a list of packets calls for, [owes] that a session with part of the
    packets buffered and the rest still to come owes exactly those, and each dispatch
    round takes the next message off the account, however the bytes are cut. *)

From S2P Require Import Prelude TransportCore SoupWire SoupText SoupSession.
From Stdlib Require Import ZArith Lia.
From stdpp Require Import prelude list strings.

Open Scope Z_scope.
Open Scope res_scope.

(** ** The stream contract *)

(** [view] is what the peer's side will still deliver. *)
Class StreamViewOk (T : Type) `{StreamRecv T} := {
  view : T -> list byte;
  recv_into_ok t n r t' :
    0 <= n -> recv_into t n = (r, t') ->
    match r with
    | Ok w => len w <= n /\ view t = w ++ view t'
    | Err _ => view t' = view t
    | Panic => False
    end;
}.

(** [sent] is what the transport was given to write. *)
Class StreamOk (T : Type) `{StreamRecv T, !StreamViewOk T, StreamTrySend T} := {
  sent : T -> list byte;
  recv_into_sent t n r t' : recv_into t n = (r, t') -> sent t' = sent t;
  try_send_ok t buf r t' :
    try_send t buf = (r, t') ->
    view t' = view t /\
    match r with
    | Ok n => 0 <= n <= len buf /\ sent t' = sent t ++ take (Z.to_nat n) buf
    | Err _ => sent t' = sent t
    | Panic => False
    end;
}.

(** A scripted stream: the chunks successive reads find, whether the peer closes after
    them, the room successive writes find, and the bytes written. *)
Record ScriptedStream := {
  inbox : list (list byte);
  closes : bool;
  budget : list Z;
  wrote : list byte;
}.

#[export] Instance ScriptedStream_recv : StreamRecv ScriptedStream := fun t n =>
  match inbox t with
  | [] => (if closes t then Err PeerClosed else Ok [], t)
  | c :: rest =>
      let left := match drop (Z.to_nat n) c with [] => rest | more => more :: rest end in
      (Ok (take (Z.to_nat n) c), {| inbox := left; closes := closes t; budget := budget t; wrote := wrote t |})
  end.

#[export] Instance ScriptedStream_send : StreamTrySend ScriptedStream := fun t buf =>
  match budget t with
  | [] => (Ok 0, t)
  | b :: rest =>
      let n := Z.max 0 (Z.min b (len buf)) in
      (Ok n, {| inbox := inbox t; closes := closes t; budget := rest; wrote := wrote t ++ take (Z.to_nat n) buf |})
  end.

(** The simplest allocator: exactly the room asked for, when there is less. *)
#[export] Instance exact_alloc : Alloc := fun b n =>
  {| data := data b; room := Z.max (room b) (Z.max 0 n); alloc := alloc b |}.

#[export] Instance exact_alloc_ok : AllocOk.
Proof. split; [done|]. intros b n. unfold reserve, exact_alloc. simpl. lia. Qed.

#[export] Instance ScriptedStream_view_ok : StreamViewOk ScriptedStream.
Proof.
  refine {| view := fun t => concat (inbox t) |}.
  intros t n r t' Hn E. unfold recv_into, ScriptedStream_recv in E. destruct (inbox t) as [|c rest] eqn:Ei.
  - destruct (closes t); simplify_eq; rewrite Ei; [done|]. split; [|done]. by autorewrite with polaris.
  - simplify_eq. simpl. split.
    + unfold len. rewrite length_take. lia.
    + rewrite <- (take_drop (Z.to_nat n) c) at 1. rewrite <- app_assoc. f_equal.
      by destruct (drop (Z.to_nat n) c).
Defined.

#[export] Instance ScriptedStream_ok : StreamOk ScriptedStream.
Proof.
  refine {| sent := wrote |}.
  - intros t n r t' E. unfold recv_into, ScriptedStream_recv in E. destruct (inbox t) as [|c rest]; by simplify_eq.
  - intros t buf r t' E. unfold try_send, ScriptedStream_send in E. destruct (budget t) as [|b rest]; simplify_eq/=.
    + pose proof (len_nonneg buf). split_and!; [done|lia|lia|]. by rewrite take_0, app_nil_r.
    + pose proof (len_nonneg buf). split_and!; [done|lia|lia|done].
Defined.

(** ** Taking one packet *)

Section stream.
Context {T : Type} `{StreamRecv T, !StreamViewOk T, Alloc, !AllocOk}.

(** The bytes the session has yet to dispatch, buffered and still to come. *)
Definition pending (c : SoupBinClient T) : list byte :=
  data (decode_buf (session c)) ++ view (transport c).

(** A packet the framing can carry and the session accepts. *)
Definition fits (s : Session) (p : PacketType * list byte) : Prop :=
  len p.2 <= U16_MAX - 1 /\ 3 + len p.2 <= max_frame_size (cfg s).

Definition enc (p : PacketType * list byte) : list byte := encode p.1 p.2.

(** [s] with a packet taken off the buffer, which now holds [rest]. *)
Definition consumed (s : Session) (rest : list byte) : Session :=
  set_decode_buf {| data := rest; room := room (decode_buf s); alloc := alloc (decode_buf s) |} s.

Lemma announced_encode p l : len p.2 <= U16_MAX - 1 -> announced (enc p ++ l) = Some (3 + len p.2).
Proof.
  intros Hl. pose proof (len_nonneg p.2). unfold enc. rewrite encode_cons. cbn [app announced].
  rewrite be16_to_be by (unfold u16; lia). f_equal. lia.
Qed.

Lemma take_packet_whole s p rest :
  data (decode_buf s) = enc p ++ rest -> fits s p -> take_packet s = (Ok (Some p), consumed s rest).
Proof.
  intros Ed [Hl Hm]. unfold take_packet. rewrite Ed, announced_encode by done.
  rewrite (proj2 (Z.ltb_ge _ _)) by lia. unfold enc in *. rewrite parse_encode by done. unfold split_to. cbn [ty pf_payload].
  rewrite Ed. destruct p as [ty pl]. cbn [fst snd] in *. pose proof (len_nonneg pl).
  assert (Hn : Z.to_nat (3 + len pl) = length (encode ty pl)) by (pose proof (len_encode ty pl); unfold len in *; lia).
  rewrite Hn, take_app_length, drop_app_length.
  by replace (Z.to_nat (3 + len pl - len pl)) with 3%nat by lia.
Qed.

(** The prefix of a stream of packets: a whole packet in front, or none yet. *)
Lemma take_packet_partial s p k :
  data (decode_buf s) ++ k = enc p -> k <> [] -> fits s p -> take_packet s = (Ok None, s).
Proof.
  intros Ed Hk [Hl Hm]. unfold take_packet. rewrite (parse_prefix p.1 p.2 _ k) by done.
  destruct (announced (data (decode_buf s))) as [total|] eqn:Ea; [|done].
  assert (total = 3 + len p.2) as ->.
  { pose proof (announced_encode p [] Hl) as Ha. rewrite app_nil_r, <- Ed in Ha.
    destruct (data (decode_buf s)) as [|b0 [|b1 l]]; simplify_eq/=. done. }
  by rewrite (proj2 (Z.ltb_ge _ _)) by lia.
Qed.

(** Less than one packet: not yet a length and a type, or fewer bytes than the length
    announces; and never of a packet larger than [max]. *)
Definition less_than_packet (max : Z) (l : list byte) : Prop :=
  match l with
  | b0 :: b1 :: _ =>
      let total := 2 + from_be_bytes [b0; b1] in len l < Z.max 3 total /\ total <= max
  | _ => True
  end.

(** What a partial packet leaves buffered is less than the packet it announces. *)
Lemma parse_partial_bound max l :
  parse_packet l = Ok None -> (forall total, announced l = Some total -> total <= max) -> less_than_packet max l.
Proof.
  unfold parse_packet, announced, less_than_packet. intros E Hm.
  destruct l as [|b0 [|b1 l]]; try done. specialize (Hm _ eq_refl).
  destruct l as [|b2 l]; [split; [autorewrite with polaris; lia|done]|].
  destruct (_ <? 1); [done|]. destruct (_ <? 2 + _) eqn:E2; [bool_facts; split; [lia|done]|].
  destruct (packet_type_of b2); [|done..]. unfold index_range in E. by destruct (get_range _ _ _).
Qed.

(** Whatever was taken, the session only lost bytes off its buffer. *)
Lemma take_packet_cases s r s' :
  take_packet s = (r, s') ->
  match r with
  | Ok (Some p) => s' = consumed s (data (decode_buf s')) /\ data (decode_buf s) = enc p ++ data (decode_buf s')
  | Ok None => s' = s /\ less_than_packet (max_frame_size (cfg s)) (data (decode_buf s))
  | Err _ => s' = s
  | Panic => False
  end.
Proof.
  unfold take_packet. intros E.
  destruct (announced (data (decode_buf s))) as [total|] eqn:Ea;
    [destruct (max_frame_size (cfg s) <? total) eqn:Em; [by simplify_eq|]|].
  all: destruct (parse_packet (data (decode_buf s))) as [[[f c]|]|e|] eqn:Ep; simplify_eq;
    try done; try (by apply parse_no_panic in Ep); try (split; [done|]; apply parse_partial_bound; [done|]; intros ? Ht; rewrite Ea in Ht; by simplify_eq; bool_facts).
  all: unfold split_to in E; simplify_eq/=; destruct (parse_sound _ _ _ Ep) as (rest & Ed & -> & Hl); rewrite Ed;
    pose proof (len_nonneg (pf_payload f));
    assert (Hn : Z.to_nat (3 + len (pf_payload f)) = length (encode (ty f) (pf_payload f)))
      by (pose proof (len_encode (ty f) (pf_payload f)); unfold len in *; lia).
  all: rewrite Hn, take_app_length, drop_app_length.
  all: replace (Z.to_nat (3 + len (pf_payload f) - len (pf_payload f))) with 3%nat by lia.
  all: done.
Qed.

(** On a stream of packets that fit, the front packet or nothing yet. *)
Lemma take_packet_stream s k ps :
  data (decode_buf s) ++ k = concat (enc <$> ps) -> Forall (fits s) ps ->
  take_packet s = (Ok None, s) \/
  exists p ps' rest, ps = p :: ps' /\ take_packet s = (Ok (Some p), consumed s rest) /\
    data (decode_buf s) = enc p ++ rest /\ rest ++ k = concat (enc <$> ps').
Proof.
  intros Ed Hf. destruct Hf as [|p ps Hp Hps].
  - simpl in Ed. apply app_nil in Ed as [Ed _]. left. unfold take_packet. by rewrite Ed.
  - cbn [fmap list_fmap concat] in Ed. apply app_eq_inv in Ed as [(l & El & Ek)|(l & El & Ek)].
    + right. exists p, ps, l. by split_and!; [|apply take_packet_whole|..].
    + destruct (decide (l = [])) as [->|Hl].
      * right. rewrite app_nil_r in El. exists p, ps, []. simpl in Ek. rewrite <- El.
        split_and!; [done| |by rewrite app_nil_r|done].
        apply take_packet_whole; [by rewrite app_nil_r|done].
      * left. by apply (take_packet_partial s p l).
Qed.

(** ** The messages a stream of packets owes *)

(** What a session in state [st], expecting sequence [n], must yield on the packets
    [ps], up to the first packet it reports as an error. *)
Fixpoint expected (st : ClientState) (n : Z) (ps : list (PacketType * list byte)) : list SoupBinMessage :=
  match ps with
  | [] => []
  | (ty, bytes) :: ps =>
      match st, ty with
      | Closed, _ => []
      | Authenticating, LoginAccepted =>
          match parse_login_accepted bytes with
          | Ok (id, n) => Event (EvLoginAccepted id n) :: expected Streaming n ps
          | _ => []
          end
      | Authenticating, LoginRejected =>
          match bytes with reason :: _ => [Event (EvLoginRejected reason)] | [] => [] end
      | Authenticating, (Debug_ | ServerHeartbeat) => expected Authenticating n ps
      | Streaming, SequencedData =>
          Data {| payload := bytes; sequence := n |} :: expected Streaming (u64_add n 1) ps
      | Streaming, ServerHeartbeat => Event EvHeartbeatReceived :: expected Streaming n ps
      | Streaming, EndOfSession => [Event EvEndOfSession]
      | Streaming, Debug_ => expected Streaming n ps
      | _, _ => []
      end
  end.

(** Messages that come from the server, as opposed to the client's own timers. *)
Definition from_server (m : SoupBinMessage) : bool :=
  match m with
  | Event (EvHeartbeatSent | EvHeartbeatTimeout) => false
  | _ => true
  end.

(** [e] is what client [c] still owes, its pending bytes continued by [k]. *)
Definition owes (k : list byte) (e : list SoupBinMessage) (c : SoupBinClient T) : Prop :=
  state (session c) <> Closed ->
  exists ps, pending c ++ k = concat (enc <$> ps) /\ Forall (fits (session c)) ps /\
    e = expected (state (session c)) (next_expected_sequence (session c)) ps.

Definition login_message (l : Login) : SoupBinMessage :=
  Event (match l with Accepted id n => EvLoginAccepted id n | Rejected r => EvLoginRejected r end).

Definition stream_message (s : Session) (r : Streamed) : SoupBinMessage :=
  match r with SData n => Data (frame s n) | SEvent e => Event e end.

(** A session round keeps the account: what it yields is the head of what was owed. *)
Definition round_owes (k : list byte) (e : list SoupBinMessage) (t : T) {A}
    (msg : Session -> A -> SoupBinMessage) (r : step Session (res SoupBinError (option A) * Session)) : Prop :=
  match r with
  | Again s' => owes k e (client s' t)
  | Leave (Ok None, s') => owes k e (client s' t)
  | Leave (Ok (Some m), s') => exists e', e = msg s' m :: e' /\ owes k e' (client s' t)
  | Leave (Err _, _) => True
  | Leave (Panic, _) => False
  end.

Lemma stream_round_owes k e s t :
  state s = Streaming -> owes k e (client s t) -> round_owes k e t stream_message (stream_round s).
Proof.
  intros Hs Ho. destruct (Ho ltac:(simpl; congruence)) as (ps & Hp & Hf & He). unfold pending in Hp. simpl in Hp, Hf, He.
  rewrite <- app_assoc in Hp. rewrite Hs in He. unfold stream_round.
  destruct (take_packet_stream s _ _ Hp Hf) as [->|([ty bytes] & ps' & rest & -> & -> & Ed & Hrest)]; [exact Ho|].
  apply Forall_cons in Hf as [_ Hf].
  assert (Hgo : forall s', cfg s' = cfg s -> data (decode_buf s') = rest ->
    forall e', (state s' <> Closed -> e' = expected (state s') (next_expected_sequence s') ps') -> owes k e' (client s' t)).
  { intros s' Hc Hd e' He' Hst. exists ps'. unfold pending. simpl. rewrite <- app_assoc, Hd. split_and!; [done| |exact (He' Hst)].
    eapply Forall_impl; [exact Hf|]. unfold fits. by rewrite Hc. }
  destruct ty; simpl; try done; simpl in He.
  - eexists. split; [exact He|]. apply Hgo; [done|done|]. simpl. by rewrite Hs.
  - eexists. split; [exact He|]. apply Hgo; [done|done|]. simpl. by rewrite Hs.
  - eexists. split; [exact He|]. by apply Hgo.
  - apply Hgo; [done|done|]. simpl. by rewrite Hs.
Qed.

Lemma login_round_owes k e now s t :
  state s = Authenticating -> owes k e (client s t) ->
  round_owes k e t (fun _ => login_message) (login_round now s).
Proof.
  intros Hs Ho. destruct (Ho ltac:(simpl; congruence)) as (ps & Hp & Hf & He). unfold pending in Hp. simpl in Hp, Hf, He.
  rewrite <- app_assoc in Hp. rewrite Hs in He. unfold login_round.
  destruct (take_packet_stream s _ _ Hp Hf) as [->|([ty bytes] & ps' & rest & -> & -> & Ed & Hrest)]; [exact Ho|].
  apply Forall_cons in Hf as [_ Hf].
  assert (Hgo : forall s', cfg s' = cfg s -> data (decode_buf s') = rest ->
    forall e', (state s' <> Closed -> e' = expected (state s') (next_expected_sequence s') ps') -> owes k e' (client s' t)).
  { intros s' Hc Hd e' He' Hst. exists ps'. unfold pending. simpl. rewrite <- app_assoc, Hd. split_and!; [done| |exact (He' Hst)].
    eapply Forall_impl; [exact Hf|]. unfold fits. by rewrite Hc. }
  destruct ty; simpl; try done; simpl in He.
  - destruct (parse_login_accepted bytes) as [[id n]|er|] eqn:Ep; [|done|by apply parse_login_accepted_no_panic in Ep].
    destruct (parse_ascii_field id) as [i|er|] eqn:Ei; [|done|by apply parse_ascii_field_no_panic in Ei].
    simpl. eexists. split; [exact He|]. by apply Hgo.
  - destruct bytes as [|reason bytes]; [done|]. simpl. eexists. split; [exact He|]. by apply Hgo.
  - apply Hgo; [done|done|]. simpl. by rewrite Hs.
  - apply Hgo; [done|done|]. simpl. by rewrite Hs.
Qed.

(** [ingest] moves bytes from the stream to the decode buffer. *)
Lemma ingest_spec s t now r s' t' :
  ingest s t now = (r, s', t') ->
  pending (client s' t') = pending (client s t) /\
  state s' = state s /\ cfg s' = cfg s /\ out s' = out s /\ last_send s' = last_send s /\
  login_deadline s' = login_deadline s /\ next_expected_sequence s' = next_expected_sequence s /\
  match r with
  | Ok true => (length (view t') < length (view t))%nat /\ last_recv s' = now
  | Ok false => data (decode_buf s') = data (decode_buf s) /\ view t' = view t /\ last_recv s' = last_recv s
  | Err _ => True
  | Panic => False
  end.
Proof.
  unfold ingest, land. intros E. set (b := reserve (decode_buf s) (decode_buf_capacity (cfg s))) in *.
  assert (Hd : data b = data (decode_buf s)) by apply reserve_data.
  assert (Hr : 0 <= room b).
  { pose proof (reserve_room (decode_buf s) (decode_buf_capacity (cfg s))) as Hx. fold b in Hx. lia. }
  destruct (recv_into t (room b)) as [[w|e|] t1] eqn:Et;
    pose proof (recv_into_ok _ _ _ _ Hr Et) as Hw; [destruct Hw as [Hlen Hv]| |done].
  - unfold advance_mut in E. rewrite (proj2 (Z.leb_le _ _)) in E by lia. simplify_eq.
    split_and!; try done; try by destruct (0 <? len w).
    + unfold pending. destruct (0 <? len w); simpl; by rewrite Hd, Hv, app_assoc.
    + destruct w as [|x w]; simpl.
      * rewrite app_nil_r, Hd, Hv. done.
      * rewrite Hv. simpl. rewrite length_app. split; [lia|done].
  - simplify_eq. split_and!; try done. unfold pending. simpl. by rewrite Hd, Hw.
Qed.

(** ** Dispatch *)

(** The fields neither dispatch nor landing touches while the session stays open. *)
Definition calm (s s' : Session) : Prop :=
  state s' = state s /\ cfg s' = cfg s /\ out s' = out s /\ last_send s' = last_send s /\
  login_deadline s' = login_deadline s.

Lemma calm_refl s : calm s s.
Proof. done. Qed.

Lemma calm_trans s1 s2 s3 : calm s1 s2 -> calm s2 s3 -> calm s1 s3.
Proof. intros (?&?&?&?&?) (?&?&?&?&?). split_and!; congruence. Qed.

Lemma calm_consumed s rest : calm s (consumed s rest).
Proof. done. Qed.

Lemma len_enc_pos p : (0 < length (enc p))%nat.
Proof. pose proof (len_encode p.1 p.2). pose proof (len_nonneg p.2). unfold enc, len in *. lia. Qed.

(** Less than one packet is buffered. *)
Definition buffer_low (s : Session) : Prop := less_than_packet (max_frame_size (cfg s)) (data (decode_buf s)).

Lemma stream_round_frame s :
  match stream_round s with
  | Again s' => calm s s' /\ last_recv s' = last_recv s /\ (length (data (decode_buf s')) < length (data (decode_buf s)))%nat
  | Leave (r, s') =>
      cfg s' = cfg s /\ last_recv s' = last_recv s /\ last_send s' = last_send s /\
      match r with
      | Ok (Some (SEvent EvEndOfSession)) => state s' = Closed /\ out s' = []
      | Ok None => s' = s /\ buffer_low s
      | Ok (Some (SEvent EvHeartbeatReceived)) | Ok (Some (SData _)) | Err _ => calm s s'
      | _ => False
      end
  end.
Proof.
  unfold stream_round. destruct (take_packet s) as [r s1] eqn:Et. apply take_packet_cases in Et.
  destruct r as [[[ty bytes]|]|e|]; [|by destruct Et as [-> ?]|by subst s1|done].
  destruct Et as [E1 E2]. set (rest := data (decode_buf s1)) in *. clearbody rest. subst s1.
  destruct ty; cbn [type_byte]; try by split_and!.
  split_and!; try done. rewrite E2. simpl. rewrite length_app. pose proof (len_enc_pos (Debug_, bytes)). lia.
Qed.

Lemma login_round_frame now s :
  match login_round now s with
  | Again s' => calm s s' /\ last_recv s' = last_recv s /\ (length (data (decode_buf s')) < length (data (decode_buf s)))%nat
  | Leave (r, s') =>
      cfg s' = cfg s /\ last_send s' = last_send s /\
      match r with
      | Ok (Some (Accepted _ n)) =>
          state s' = Streaming /\ out s' = out s /\ last_recv s' = now /\ next_expected_sequence s' = n
      | Ok (Some (Rejected _)) => state s' = Closed /\ out s' = out s
      | Ok None => s' = s /\ buffer_low s
      | Err _ => calm s s'
      | Panic => False
      end
  end.
Proof.
  unfold login_round. destruct (take_packet s) as [r s1] eqn:Et. apply take_packet_cases in Et.
  destruct r as [[[ty bytes]|]|e|]; [|by destruct Et as [-> ?]|by subst s1|done].
  destruct Et as [E1 E2]. set (rest := data (decode_buf s1)) in *. clearbody rest. subst s1.
  destruct ty; cbn [type_byte]; try by split_and!.
  - destruct (parse_login_accepted bytes) as [[id n]|er|] eqn:Ep; [|done|by apply parse_login_accepted_no_panic in Ep].
    destruct (parse_ascii_field id) as [i|er|] eqn:Ei; [|done|by apply parse_ascii_field_no_panic in Ei]. done.
  - by destruct bytes.
  - split_and!; try done. rewrite E2. simpl. rewrite length_app. pose proof (len_enc_pos (ServerHeartbeat, bytes)). lia.
  - split_and!; try done. rewrite E2. simpl. rewrite length_app. pose proof (len_enc_pos (Debug_, bytes)). lia.
Qed.

Lemma dispatch_stream_total s : is_Some (dispatch_stream s).
Proof.
  unfold dispatch_stream. destruct (iterate_total stream_round (fun _ => True) (fun s => length (data (decode_buf s))) s) as [r Hr];
    [|done|by exists r]. intros s1 s2 _ E. split; [done|]. pose proof (stream_round_frame s1) as Hf. rewrite E in Hf. apply Hf.
Qed.

Lemma dispatch_login_total s now : is_Some (dispatch_login s now).
Proof.
  unfold dispatch_login. destruct (iterate_total (login_round now) (fun _ => True) (fun s => length (data (decode_buf s))) s) as [r Hr];
    [|done|by exists r]. intros s1 s2 _ E. split; [done|]. pose proof (login_round_frame now s1) as Hf. rewrite E in Hf. apply Hf.
Qed.

Definition stream_out (s : Session) (r : res SoupBinError (option Streamed)) (s' : Session) : Prop :=
  cfg s' = cfg s /\ last_recv s' = last_recv s /\ last_send s' = last_send s /\
  match r with
  | Ok (Some (SEvent EvEndOfSession)) => state s' = Closed /\ out s' = []
  | Ok None => calm s s' /\ buffer_low s'
  | Ok (Some (SEvent EvHeartbeatReceived)) | Ok (Some (SData _)) | Err _ => calm s s'
  | _ => False
  end.

Lemma dispatch_stream_frame s r s' : dispatch_stream s = Some (r, s') -> stream_out s r s'.
Proof.
  intros E. apply (iterate_inv stream_round (fun s1 => calm s s1 /\ last_recv s1 = last_recv s) (fun x => stream_out s x.1 x.2)) in E;
    [exact E|..|done].
  - intros s1 s2 [Hc Hr] Er. pose proof (stream_round_frame s1) as Hf. rewrite Er in Hf. destruct Hf as (?&?&_).
    split; [by eapply calm_trans|congruence].
  - intros s1 [r2 s2] [Hc Hr] Er. pose proof (stream_round_frame s1) as Hf. rewrite Er in Hf. destruct Hf as (?&?&?&Hm).
    pose proof Hc as (?&?&?&?&?). unfold stream_out. simpl. split_and!; try congruence.
    destruct r2 as [[[n|[]]|]|er|]; try done; try (by eapply calm_trans). by destruct Hm as [-> ?].
Qed.

Definition login_out (now : Z) (s : Session) (r : res SoupBinError (option Login)) (s' : Session) : Prop :=
  cfg s' = cfg s /\ last_send s' = last_send s /\
  match r with
  | Ok (Some (Accepted _ n)) =>
      state s' = Streaming /\ out s' = out s /\ last_recv s' = now /\ next_expected_sequence s' = n
  | Ok (Some (Rejected _)) => state s' = Closed /\ out s' = out s
  | Ok None => calm s s' /\ buffer_low s'
  | Err _ => calm s s'
  | Panic => False
  end.

Lemma dispatch_login_frame now s r s' : dispatch_login s now = Some (r, s') -> login_out now s r s'.
Proof.
  intros E. apply (iterate_inv (login_round now) (fun s1 => calm s s1) (fun x => login_out now s x.1 x.2)) in E;
    [exact E|..|done].
  - intros s1 s2 Hc Er. pose proof (login_round_frame now s1) as Hf. rewrite Er in Hf. destruct Hf as (?&_). by eapply calm_trans.
  - intros s1 [r2 s2] Hc Er. pose proof (login_round_frame now s1) as Hf. rewrite Er in Hf. destruct Hf as (?&?&Hm).
    pose proof Hc as (?&?&?&?&?). unfold login_out. simpl. split_and!; try congruence.
    destruct r2 as [[[]|]|er|]; try done; try (by eapply calm_trans).
    + destruct Hm as (?&?&?&?). split_and!; congruence.
    + destruct Hm as (?&?). split_and!; congruence.
    + by destruct Hm as [-> ?].
Qed.

Lemma dispatch_stream_owes k e s t r s' :
  dispatch_stream s = Some (r, s') -> state s = Streaming -> owes k e (client s t) ->
  round_owes k e t stream_message (Leave (r, s')).
Proof.
  intros E Hs Ho. apply (iterate_inv stream_round (fun s1 => state s1 = Streaming /\ owes k e (client s1 t))
    (fun x => round_owes k e t stream_message (Leave x))) in E; [exact E|..|done].
  - intros s1 s2 [Hs1 Ho1] Er. pose proof (stream_round_owes k e s1 t Hs1 Ho1) as Hr. rewrite Er in Hr.
    pose proof (stream_round_frame s1) as Hf. rewrite Er in Hf. destruct Hf as ((Hst&_)&_). split; [congruence|done].
  - intros s1 x [Hs1 Ho1] Er. rewrite <- Er. by apply stream_round_owes.
Qed.

Lemma dispatch_login_owes k e now s t r s' :
  dispatch_login s now = Some (r, s') -> state s = Authenticating -> owes k e (client s t) ->
  round_owes k e t (fun _ => login_message) (Leave (r, s')).
Proof.
  intros E Hs Ho. apply (iterate_inv (login_round now) (fun s1 => state s1 = Authenticating /\ owes k e (client s1 t))
    (fun x => round_owes k e t (fun _ => login_message) (Leave x))) in E; [exact E|..|done].
  - intros s1 s2 [Hs1 Ho1] Er. pose proof (login_round_owes k e now s1 t Hs1 Ho1) as Hr. rewrite Er in Hr.
    pose proof (login_round_frame now s1) as Hf. rewrite Er in Hf. destruct Hf as ((Hst&_)&_). split; [congruence|done].
  - intros s1 x [Hs1 Ho1] Er. rewrite <- Er. by apply login_round_owes.
Qed.

(** Clients that agree on what the account reads owe the same. *)
Lemma owes_frame k e c c' :
  owes k e c -> state (session c') = state (session c) -> cfg (session c') = cfg (session c) ->
  next_expected_sequence (session c') = next_expected_sequence (session c) -> pending c' = pending c -> owes k e c'.
Proof.
  intros Ho Hs Hc Hn Hp Hst. destruct (Ho ltac:(congruence)) as (ps & H1' & H2' & H3'). exists ps.
  rewrite Hp, Hs, Hn. split_and!; [done| |done]. eapply Forall_impl; [exact H2'|]. unfold fits. by rewrite Hc.
Qed.

Lemma ingest_owes k e s t now r s' t' : ingest s t now = (r, s', t') -> owes k e (client s t) -> owes k e (client s' t').
Proof. intros (?&?&?&?&?&?&?&_)%ingest_spec Ho. by eapply owes_frame. Qed.

Lemma buffer_low_frame s s' :
  buffer_low s -> data (decode_buf s') = data (decode_buf s) -> cfg s' = cfg s -> buffer_low s'.
Proof. unfold buffer_low. by intros ? -> ->. Qed.

End stream.

(** ** A worked stream *)

Module demo_stream.
Definition cfg : SoupBinClientConfig :=
  {| username := [Byte.x75]; password := [Byte.x70]; requested_session := []; requested_sequence_number := 1;
     login_timeout := 100; heartbeat_interval := 10; heartbeat_timeout := 50;
     max_frame_size := 1000; decode_buf_capacity := 16 |}.

Definition accept : list byte := replicate 10 Byte.x41 ++ ascii_right_justify [] (to_string 7) 20.

Definition ps : list (PacketType * list byte) :=
  [(ServerHeartbeat, []); (LoginAccepted, accept); (SequencedData, [Byte.x01]); (Debug_, [Byte.x02; Byte.x03]);
   (SequencedData, [Byte.x04]); (EndOfSession, [])].

Definition stream : list byte := concat (enc <$> ps).

(** The stream arrives in reads that respect no packet boundary. *)
Definition net : ScriptedStream :=
  {| inbox := [take 20 stream; []; drop 20 stream]; closes := false; budget := [1000; 3; 1000; 1000]; wrote := [] |}.
End demo_stream.
