(* ===== verification/Socket.v ===== *)
(** * transport-socket: UDP and TCP over the operating system's sockets

    Models [crates/transports/socket/src/*.rs] as built for Linux: the receive loop [burst] over
    a [VecPool], the stream read and write mappings, readiness, configuration and options.
    System calls (socket2, mio and tokio pass them through) are the classes [UdpSys] and
    [TcpSys] with laws over what the peers still deliver; metrics are left out. *)

From S2P Require Import Prelude TransportCore Trace Pools SoupStream.
From Stdlib Require Import ZArith Lia.
From stdpp Require Import prelude list strings.

Open Scope Z_scope.
Open Scope res_scope.

Import FrameBatch (frames, cap, spare).
Import VecPool (VecSlab, buf).

(** ** UDP *)

Record UdpFrame := UFrame { slab : VecSlab; peer : SocketAddr }.

(** [<UdpFrame as AsRef>::as_ref]; the slice is never out of range (see [burst_sound]). *)
#[export] Instance UdpFrame_as_ref : AsRef UdpFrame := fun f =>
  match VecPool.slab_as_ref (E := TransportError) (slab f) with Ok bytes => bytes | _ => [] end.

Definition NO_PEER : SocketAddr := {| ip := V4 [Byte.x00; Byte.x00; Byte.x00; Byte.x00]; port := 0 |}.

(** [recv_from_with_flags(MSG_TRUNC)] with a buffer of so many bytes: what was stored, the
    datagram's length, its sender; [peek_sender]; [send_to]; the two joins. *)
Class UdpSys (S : Type) := {
  sys_recv_from : S -> Z -> res io_Error (list byte * Z * option SocketAddr) * S;
  sys_peek : S -> option io_Error * S;
  sys_send_to : S -> list byte -> SocketAddr -> res io_Error Z * S;
  sys_join_v4 : S -> list byte -> list byte -> option io_Error * S;
  sys_join_v6 : S -> list byte -> Z -> option io_Error * S;
}.

(** [UdpSocket]. *)
Record UdpSocket (S : Type) := Udp { sock : S; pool : VecPool.t; deferred : option TransportError }.
Arguments Udp {S}.
Arguments sock {S}.
Arguments pool {S}.
Arguments deferred {S}.

(** [io_error]. *)
Definition io_error {A} (stage : string) (r : res io_Error A) : res TransportError A := map_err (Io stage) r.

(** A call that answers an error or nothing. *)
Definition call (stage : string) (answer : option io_Error) : res TransportError unit :=
  match answer with Some e => Err (Io stage e) | None => Ok tt end.

Section udp_calls.
Context {S : Type} `{UdpSys S}.

(** [datagram]: bytes stored, whether the kernel cut it, sender; the slab as written. *)
Definition datagram (s : S) (sl : VecSlab) : res io_Error (Z * bool * option SocketAddr) * VecSlab * S :=
  let cap_ := len (buf sl) in
  match sys_recv_from s cap_ with
  | (Ok (bytes, n, from), s) => (Ok (Z.min n cap_, n >? cap_, from), VecPool.land sl bytes, s)
  | (Err e, s) => (Err e, sl, s)
  | (Panic, s) => (Panic, sl, s)
  end.

(** [peek_ready]. *)
Definition peek_ready (s : S) : option io_Error * S := sys_peek s.

End udp_calls.

(** [recv::burst] and [exhausted], over their closures: [recv] fills a slab, [peek] looks. *)
Section over.
Context {S : Type} (recv : S -> VecSlab -> res io_Error (Z * bool * option SocketAddr) * VecSlab * S)
  (peek : S -> option io_Error * S).
Implicit Types (u : UdpSocket S) (out : FrameBatch.t UdpFrame).

(** [exhausted]. *)
Definition exhausted u : res TransportError Z * UdpSocket S :=
  let '(answer, s) := peek (sock u) in
  let u := Udp s (pool u) (deferred u) in
  match answer with
  | None => let st := VecPool.stats (pool u) in (Err (PoolExhausted (ps_in_use st) (ps_capacity st)), u)
  | Some e => if is_would_block e then (Ok 0, u) else (Err (Io "peek" e), u)
  end.

(** One round of the [while] of [burst]. A slab not pushed is dropped, back into the pool. *)
Definition burst_round (st : UdpSocket S * FrameBatch.t UdpFrame * Z)
    : step (UdpSocket S * FrameBatch.t UdpFrame * Z) (burst_result (UdpSocket S) UdpFrame) :=
  let '(u, out, pushed) := st in
  if spare out >? 0 then
    match VecPool.acquire (pool u) with
    | None => if pushed =? 0 then let '(r, u) := exhausted u in Leave (r, u, out) else Leave (Ok pushed, u, out)
    | Some (sl, p) =>
        let '(r, sl, s) := recv (sock u) sl in
        match r with
        | Ok (n, cut, from) =>
            if cut then Again (Udp s (VecPool.drop_slab sl p) (deferred u), out, pushed)
            else Again (Udp s p (deferred u), FrameBatch.push out (UFrame (VecPool.set_len sl n) (default NO_PEER from)), pushed + 1)
        | Err e =>
            let p := VecPool.drop_slab sl p in
            if is_would_block e then Leave (Ok pushed, Udp s p (deferred u), out)
            else if pushed =? 0 then Leave (Err (Io "recv_from" e), Udp s p (deferred u), out)
            else Leave (Ok pushed, Udp s p (Some (Io "recv_from" e)), out)
        | Panic => Leave (Panic, Udp s (VecPool.drop_slab sl p) (deferred u), out)
        end
    end
  else Leave (Ok pushed, u, out).

(** [burst]. *)
Definition burst (fuel : nat) u out : option (burst_result (UdpSocket S) UdpFrame) :=
  match deferred u with
  | Some e => Some (Err e, Udp (sock u) (pool u) None, out)
  | None => iterate burst_round fuel (u, out, 0)
  end.
End over.

Section udp.
Context {S : Type} `{UdpSys S}.
Implicit Types (u : UdpSocket S) (out : FrameBatch.t UdpFrame).

#[export] Instance UdpSocket_recv : DatagramRecv (UdpSocket S) UdpFrame := {|
  recv_burst := burst datagram peek_ready;
  pool_stats := fun u => VecPool.stats (pool u);
|}.

Definition ENOBUFS : Z := 105.

(** [sent]: ENOBUFS is wrapped as would-block. *)
Definition sent (r : res io_Error Z) : res TransportError Z :=
  map_err (fun e => Io "send_to" (if bool_decide (raw_os_error e = Some ENOBUFS)
                                  then {| kind := WouldBlock; raw_os_error := None |} else e)) r.

#[export] Instance UdpSocket_send : DatagramSend (UdpSocket S) := fun u bytes to =>
  let '(r, s) := sys_send_to (sock u) bytes to in (sent r, Udp s (pool u) (deferred u)).

(** [join]. *)
Definition join (s : S) (group : IpAddr) (iface : MulticastInterface) : res TransportError unit * S :=
  match group with
  | V4 g =>
      if bool_decide (v6_scope_id iface <> None) then (Err (InvalidConfig "iface.v6_scope_id" "set for IPv4 group"), s)
      else let '(a, s) := sys_join_v4 s g (default [Byte.x00; Byte.x00; Byte.x00; Byte.x00] (v4 iface)) in
           (call "join_multicast" a, s)
  | V6 g =>
      if bool_decide (v4 iface <> None) then (Err (InvalidConfig "iface.v4" "set for IPv6 group"), s)
      else let '(a, s) := sys_join_v6 s g (default 0 (v6_scope_id iface)) in (call "join_multicast" a, s)
  end.

#[export] Instance UdpSocket_multicast : Multicast (UdpSocket S) := fun u group iface =>
  let '(r, s) := join (sock u) group iface in (r, Udp s (pool u) (deferred u)).

(** Dropping a live frame. *)
Definition drop_live u (f : UdpFrame) : UdpSocket S := Udp (sock u) (VecPool.drop_slab (slab f) (pool u)) (deferred u).
End udp.

(** ** Configuration and socket options *)

Definition C_INT_MAX : Z := I32_MAX.

(** [buffer_sizes]. *)
Definition buffer_sizes (recv_buf send_buf : option Z) : res TransportError unit :=
  let* _ := match recv_buf with Some b => validate.at_most "recv_buf" b C_INT_MAX | None => Ok tt end in
  match send_buf with Some b => validate.at_most "send_buf" b C_INT_MAX | None => Ok tt end.

Record UdpConfig := {
  bind_addr : SocketAddr;
  reuse_addr : bool;
  reuse_port : bool;
  recv_buf : option Z;
  send_buf : option Z;
  busy_poll_us : option Z;
  slab_count : Z;
  slab_size : Z;
}.

Definition UdpConfig_new (bind : SocketAddr) : UdpConfig :=
  {| bind_addr := bind; reuse_addr := false; reuse_port := false; recv_buf := None; send_buf := None;
     busy_poll_us := None; slab_count := 1024; slab_size := 2048 |}.

(** [UdpConfig::validate] on Linux. *)
Definition validate_udp (c : UdpConfig) : res TransportError unit :=
  let* _ := match busy_poll_us c with Some us => validate.at_most "busy_poll_us" us C_INT_MAX | None => Ok tt end in
  buffer_sizes (recv_buf c) (send_buf c).

Record TcpConfig := {
  remote : SocketAddr;
  local : option SocketAddr;
  tcp_recv_buf : option Z;
  tcp_send_buf : option Z;
  nodelay : bool;
  connect_timeout : Z;
}.

Definition TcpConfig_new (remote : SocketAddr) : TcpConfig :=
  {| remote := remote; local := None; tcp_recv_buf := None; tcp_send_buf := None; nodelay := false;
     connect_timeout := 5 * NANOS_PER_SEC |}.

(** [IpAddr::is_unspecified]: every octet zero. *)
Definition is_unspecified (a : IpAddr) : bool :=
  forallb (fun b => bool_decide (b = Byte.x00)) (match a with V4 o => o | V6 o => o end).

(** [TcpConfig::validate]. *)
Definition validate_tcp (c : TcpConfig) : res TransportError unit :=
  if is_unspecified (ip (remote c)) || (port (remote c) =? 0)
  then Err (InvalidConfig "remote" "unspecified address or port 0")
  else if connect_timeout c =? 0 then Err (InvalidConfig "connect_timeout" "zero timeout")
  else buffer_sizes (tcp_recv_buf c) (tcp_send_buf c).

(** *** Opening a socket *)

(** What the code asks of the operating system, in the order it asks. *)
Inductive Syscall :=
  | NewSocket (v6 stream : bool)
  | SetReuseAddress
  | SetReusePort
  | SetRecvBuffer (bytes : Z)
  | SetSendBuffer (bytes : Z)
  | SetBusyPoll (us : Z)
  | SetNodelay
  | SetNonblocking
  | BindTo (addr : SocketAddr)
  | ConnectTo (addr : SocketAddr) (timeout : Z).

(** The system: its answer to each call, the socket that [NewSocket] gives. *)
Record Os (S : Type) := { answer : Syscall -> option io_Error; os_socket : S }.
Arguments answer {S}.
Arguments os_socket {S}.

(** Errors, over the log of the calls made. *)
Abbreviation Opening := (Traced Syscall).

(** [Domain::for_address] is [AF_INET6]. *)
Definition for_address (a : SocketAddr) : bool := match ip a with V4 _ => false | V6 _ => true end.

Section open.
Context {S : Type} (os : Os S).

(** One call and its [map_err]. *)
Definition request (c : Syscall) (wrap : io_Error -> TransportError) : Opening unit := fun log =>
  (match answer os c with Some e => Err (wrap e) | None => Ok tt end, log ++ [c]).

(** [buffers]. *)
Definition buffers (recv_buf send_buf : option Z) : Opening unit :=
  _ ← when_some recv_buf (fun bytes => request (SetRecvBuffer bytes) (Io "setsockopt(SO_RCVBUF)"));
  when_some send_buf (fun bytes => request (SetSendBuffer bytes) (Io "setsockopt(SO_SNDBUF)")).

(** [sockopt::udp]. *)
Definition udp (c : UdpConfig) : Opening S :=
  _ ← request (NewSocket (for_address (bind_addr c)) false) (Io "socket");
  _ ← when (reuse_addr c) (request SetReuseAddress (Io "setsockopt(SO_REUSEADDR)"));
  _ ← when (reuse_port c) (request SetReusePort (Io "setsockopt(SO_REUSEPORT)"));
  _ ← buffers (recv_buf c) (send_buf c);
  _ ← when_some (busy_poll_us c) (fun us => request (SetBusyPoll us) (Io "setsockopt(SO_BUSY_POLL)"));
  _ ← request SetNonblocking (Io "set_nonblocking");
  _ ← request (BindTo (bind_addr c)) (Bind (bind_addr c));
  mret (os_socket os).

(** [sockopt::tcp]. *)
Definition tcp (c : TcpConfig) : Opening S :=
  _ ← request (NewSocket (for_address (remote c)) true) (Io "socket");
  _ ← buffers (tcp_recv_buf c) (tcp_send_buf c);
  _ ← when (nodelay c) (request SetNodelay (Io "setsockopt(TCP_NODELAY)"));
  _ ← when_some (local c) (fun a => request (BindTo a) (Bind a));
  mret (os_socket os).

(** [UdpSocket::bind]. *)
Definition udp_bind (alloc : Z -> bool) (c : UdpConfig) : Opening (UdpSocket S) :=
  _ ← pure_step (validate_udp c);
  p ← pure_step (VecPool.new alloc (slab_count c) (slab_size c));
  s ← udp c;
  mret (Udp s p None).

(** [MioTcp::connect]. *)
Definition mio_connect (c : TcpConfig) : Opening S :=
  _ ← pure_step (validate_tcp c);
  s ← tcp c;
  _ ← request (ConnectTo (remote c) (connect_timeout c)) (Connect (remote c));
  _ ← request SetNonblocking (Io "set_nonblocking");
  mret s.

Definition NO_RUNTIME : TransportError := Unavailable "tokio" "no tokio runtime on this thread" None.

(** [tokio::TcpStream::connect]; an elapsed timeout is the answer [TimedOut]. *)
Definition tokio_connect (runtime : bool) (c : TcpConfig) : Opening S :=
  _ ← pure_step (validate_tcp c);
  _ ← pure_step (if runtime then Ok tt else Err NO_RUNTIME);
  s ← tcp c;
  _ ← request SetNonblocking (Io "set_nonblocking");
  _ ← request (ConnectTo (remote c) (connect_timeout c)) (Connect (remote c));
  mret s.
End open.

(** [UdpSocket::local_addr]; the answer is [None] when the address is not an IP one. *)
Definition local_addr (getsockname : res io_Error (option SocketAddr)) : res TransportError SocketAddr :=
  let* addr := io_error "getsockname" getsockname in
  ok_or addr (Io "getsockname" {| kind := UnsupportedKind; raw_os_error := None |}).

(** *** [MioUdp] *)

(** What mio's [try_io] adds to the call it makes: told whether the call would have blocked, it
    sees to it that the next readiness is reported. *)
Class MioSource (S : Type) := rearm : bool -> S -> S.

Definition try_io {S A} `{MioSource S} (call : S -> res io_Error A * S) (s : S) : res io_Error A * S :=
  let '(r, s) := call s in (r, rearm (match r with Err e => is_would_block e | _ => false end) s).

Record MioUdp (S : Type) := Mio { m_sock : S; m_pool : VecPool.t; m_deferred : option TransportError }.
Arguments Mio {S}.
Arguments m_sock {S}.
Arguments m_pool {S}.
Arguments m_deferred {S}.

Section mio.
Context {S : Type} `{UdpSys S, MioSource S}.
Implicit Types (m : MioUdp S) (out : FrameBatch.t UdpFrame).

(** [MioUdp::from_socket]. *)
Definition mio_from_socket (u : UdpSocket S) : MioUdp S := Mio (sock u) (pool u) (deferred u).

(** [recv::burst] works on the three fields by reference. *)
Definition mio_fields m : UdpSocket S := Udp (m_sock m) (m_pool m) (m_deferred m).

(** The two closures of [recv_burst]. *)
Definition mio_datagram (s : S) (sl : VecSlab) : res io_Error (Z * bool * option SocketAddr) * VecSlab * S :=
  let '(r, sl, s) := datagram s sl in
  (r, sl, rearm (match r with Err e => is_would_block e | _ => false end) s).
Definition mio_peek (s : S) : option io_Error * S :=
  let '(a, s) := peek_ready s in (a, rearm (match a with Some e => is_would_block e | None => false end) s).

Definition mio_recv_burst (fuel : nat) m out : option (burst_result (MioUdp S) UdpFrame) :=
  match burst mio_datagram mio_peek fuel (mio_fields m) out with
  | Some (r, u, out) => Some (r, mio_from_socket u, out)
  | None => None
  end.

#[export] Instance MioUdp_recv : DatagramRecv (MioUdp S) UdpFrame := {|
  recv_burst := mio_recv_burst;
  pool_stats := fun m => VecPool.stats (m_pool m);
|}.

#[export] Instance MioUdp_send : DatagramSend (MioUdp S) := fun m bytes to =>
  let '(r, s) := try_io (fun s => sys_send_to s bytes to) (m_sock m) in (sent r, Mio s (m_pool m) (m_deferred m)).

#[export] Instance MioUdp_multicast : Multicast (MioUdp S) := fun m group iface =>
  let '(r, s) := join (m_sock m) group iface in (r, Mio s (m_pool m) (m_deferred m)).
End mio.

(** *** [AsyncUdp] *)

Record AsyncUdp (S : Type) := Async { a_sock : S; a_pool : VecPool.t; a_deferred : option TransportError }.
Arguments Async {S}.
Arguments a_sock {S}.
Arguments a_pool {S}.
Arguments a_deferred {S}.

(** [AsyncUdp::from_socket]; [register] is what the reactor answers. *)
Definition from_socket {S} (runtime : bool) (register : option io_Error) (u : UdpSocket S) : res TransportError (AsyncUdp S) :=
  if negb runtime then Err NO_RUNTIME
  else let* _ := call "register" register in Ok (Async (sock u) (pool u) (deferred u)).

Section async.
Context {S : Type} `{UdpSys S}.
Implicit Types (a : AsyncUdp S) (out : FrameBatch.t UdpFrame).

Definition async_fields a : UdpSocket S := Udp (a_sock a) (a_pool a) (a_deferred a).
Definition async_of (u : UdpSocket S) : AsyncUdp S := Async (sock u) (pool u) (deferred u).

Definition async_recv_burst (fuel : nat) a out : option (burst_result (AsyncUdp S) UdpFrame) :=
  match burst datagram peek_ready fuel (async_fields a) out with
  | Some (r, u, out) => Some (r, async_of u, out)
  | None => None
  end.

#[export] Instance AsyncUdp_recv : DatagramRecv (AsyncUdp S) UdpFrame := {|
  recv_burst := async_recv_burst;
  pool_stats := fun a => VecPool.stats (a_pool a);
|}.

#[export] Instance AsyncUdp_send : DatagramSend (AsyncUdp S) := fun a bytes to =>
  let '(r, s) := sys_send_to (a_sock a) bytes to in (sent r, Async s (a_pool a) (a_deferred a)).

#[export] Instance AsyncUdp_multicast : Multicast (AsyncUdp S) := fun a group iface =>
  let '(r, s) := join (a_sock a) group iface in (r, Async s (a_pool a) (a_deferred a)).
End async.

(** ** TCP *)

(** [recv], [send], [peek] of one byte, and one poll of [readable] ([None] is pending). *)
Class TcpSys (S : Type) := {
  sys_recv : S -> Z -> res io_Error (list byte) * S;
  sys_send : S -> list byte -> res io_Error Z * S;
  sys_peek_byte : S -> option io_Error * S;
}.

Class Readable (S : Type) := sys_readable : S -> option (option io_Error) * S.

(** [AsyncWriteExt::write_all], once resolved. *)
Class WriteAll (S : Type) := sys_write_all : S -> list byte -> option io_Error * S.

(** [written]. *)
Definition written (r : res io_Error Z) : res TransportError Z :=
  match r with
  | Err e => if is_would_block e then Ok 0 else Err (Io "send" e)
  | Ok n => Ok n
  | Panic => Panic
  end.

(** [stream], over its closure. *)
Definition stream {S} (recv : S -> Z -> res io_Error (list byte) * S) (s : S) (n : Z) : res TransportError (list byte) * S :=
  if n =? 0 then (Ok [], s)
  else
    match recv s n with
    | (Ok [], s) => (Err PeerClosed, s)
    | (Ok w, s) => (Ok w, s)
    | (Err e, s) => (if is_would_block e then Ok [] else Err (Io "recv" e), s)
    | (Panic, s) => (Panic, s)
    end.

(** One round of the [loop] of [ready], in one poll of its future: readiness that proves
    stale is cleared and awaited again. *)
Definition ready_round {S} `{Readable S} (peek : S -> option io_Error * S) (s : S)
    : step S (option (res TransportError unit) * S) :=
  match sys_readable s with
  | (None, s) => Leave (None, s)
  | (Some (Some e), s) => Leave (Some (Err (Io "readable" e)), s)
  | (Some None, s) =>
      match peek s with
      | (None, s) => Leave (Some (Ok tt), s)
      | (Some e, s) => if is_would_block e then Again s else Leave (Some (Err (Io "peek" e)), s)
      end
  end.

Definition ready {S} `{Readable S} (peek : S -> option io_Error * S) (fuel : nat) (s : S)
    : option (option (res TransportError unit) * S) := iterate (ready_round peek) fuel s.

Section tcp.
Context {S : Type} `{TcpSys S}.

(** tokio's [TcpStream]. *)
Record TcpStream := Tcp { tsock : S }.

#[export] Instance Tcp_recv : StreamRecv TcpStream := fun t n =>
  let '(r, s) := stream sys_recv (tsock t) n in (r, Tcp s).

#[export] Instance Tcp_try_send : StreamTrySend TcpStream := fun t bytes =>
  let '(r, s) := sys_send (tsock t) bytes in (written r, Tcp s).

(** [peek_byte] under [AsyncReady::ready] of tokio's [TcpStream]. *)
Definition tcp_ready `{Readable S} (fuel : nat) (t : TcpStream) : option (option (res TransportError unit) * TcpStream) :=
  match ready sys_peek_byte fuel (tsock t) with Some (r, s) => Some (r, Tcp s) | None => None end.

(** [StreamSend::send_all], over tokio's [write_all]. *)
#[export] Instance Tcp_send_all `{WriteAll S} : StreamSend TcpStream := fun t bytes =>
  let '(a, s) := sys_write_all (tsock t) bytes in (call "send_all" a, Tcp s).

(** *** [MioTcp] *)

Record MioTcp := MTcp { mt_sock : S }.

Context `{MioSource S}.

#[export] Instance MioTcp_recv : StreamRecv MioTcp := fun t n =>
  let '(r, s) := stream (fun s n => try_io (fun s => sys_recv s n) s) (mt_sock t) n in (r, MTcp s).

(** mio's [write] goes through [try_io]. *)
#[export] Instance MioTcp_try_send : StreamTrySend MioTcp := fun t bytes =>
  let '(r, s) := try_io (fun s => sys_send s bytes) (mt_sock t) in (written r, MTcp s).
End tcp.

(** [AsyncReady::ready] of [AsyncUdp]. *)
Definition udp_ready {S} `{UdpSys S, Readable S} (fuel : nat) (a : AsyncUdp S)
    : option (option (res TransportError unit) * AsyncUdp S) :=
  match ready peek_ready fuel (a_sock a) with
  | Some (r, s) => Some (r, Async s (a_pool a) (a_deferred a))
  | None => None
  end.

(** ** [ReadySet] *)

Module ReadySet.
Record Ready := { token : Z; readable : bool; writable : bool }.

Record Event := {
  ev_token : Z;
  is_readable : bool;
  is_read_closed : bool;
  is_error : bool;
  is_writable : bool;
  is_write_closed : bool;
}.

(** mio's [Poll] with room for so many events; a wait reports at most that many. A source of
    [Src] is registered under a token, with interest in writes when it is a stream. *)
Class PollSys (P Src : Type) := {
  sys_create : res io_Error P;
  sys_register : P -> Src -> Z -> bool -> option io_Error * P;
  sys_deregister : P -> Src -> option io_Error * P;
  sys_poll : P -> option Z -> res io_Error (list Event) * P;
}.

Definition MAX_EVENTS : Z := 65536.

Record t (P : Type) := Set_ { poll : P; capacity : Z }.
Arguments Set_ {P}.
Arguments poll {P}.
Arguments capacity {P}.

Section ops.
Context {P Src : Type} `{PollSys P Src}.

Definition new (events : Z) : res TransportError (t P) :=
  if events >? MAX_EVENTS then Err (InvalidConfig "events" "above 65536")
  else let* p := io_error "poll_create" sys_create in Ok (Set_ p events).

(** [register] and [deregister]; [writes] is the source's [INTEREST]. *)
Definition register (w : t P) (src : Src) (writes : bool) (token : Z) : res TransportError unit * t P :=
  let '(a, p) := sys_register (poll w) src token writes in (call "register" a, Set_ p (capacity w)).

Definition deregister (w : t P) (src : Src) : res TransportError unit * t P :=
  let '(a, p) := sys_deregister (poll w) src in (call "deregister" a, Set_ p (capacity w)).

Definition report (e : Event) : Ready :=
  {| token := ev_token e; readable := is_readable e || is_read_closed e || is_error e;
     writable := is_writable e || is_write_closed e |}.

(** [wait]: the answer, the caller's vector as left, the set. *)
Definition wait (timeout : option Z) (w : t P) : res TransportError unit * list Ready * t P :=
  let '(r, p) := sys_poll (poll w) timeout in
  let w := Set_ p (capacity w) in
  match r with
  | Ok events => (Ok tt, report <$> events, w)
  | Err e => match kind e with Interrupted => (Ok tt, [], w) | _ => (Err (Io "poll" e), [], w) end
  | Panic => (Panic, [], w)
  end.
End ops.
End ReadySet.

(** ** What the sockets promise *)

(** [us_view] is the datagrams the peers still deliver, in the order the kernel queues them. *)
Record udp_contract (S : Type) `{UdpSys S} := {
  us_view : S -> list (list byte * option SocketAddr);
  us_recv : forall s n r s', 0 <= n -> sys_recv_from s n = (r, s') ->
    match r with
    | Ok (bytes, m, from) => exists d, us_view s = (d, from) :: us_view s' /\ m = len d /\ bytes = take (Z.to_nat n) d
    | Err _ => us_view s' = us_view s
    | Panic => False
    end;
  us_peek : forall s r s', sys_peek s = (r, s') -> us_view s' = us_view s;
}.
Arguments us_view {S _} _ _.
Arguments us_recv {S _} _ _ _ _ _ _ _.
Arguments us_peek {S _} _ _ _ _ _.

Section burst.
Context {S : Type} `{UdpSys S} (C : udp_contract S) (size : Z) (Hsize : 0 < size).
Implicit Types (u : UdpSocket S) (out : FrameBatch.t UdpFrame) (live : list UdpFrame).

Definition udp_wf u live : Prop := VecPool.wf size (pool u, slab <$> live).

(** A datagram that fits a slab becomes a frame with its bytes and sender. *)
Definition delivered (ds : list (list byte * option SocketAddr)) : list (list byte * SocketAddr) :=
  (fun d => (d.1, default NO_PEER d.2)) <$> filter (fun d => len d.1 <= size) ds.

Definition read (f : UdpFrame) : list byte * SocketAddr := (as_ref f, peer f).

(** From [u] to [u'] the datagrams [ds] were taken and the frames [new] pushed. *)
Record bursting u u' out out' live ds new : Prop := {
  b_wf : udp_wf u' (live ++ new);
  b_view : us_view C (sock u) = ds ++ us_view C (sock u');
  b_frames : frames out' = frames out ++ new;
  b_cap : cap out' = cap out;
  b_reads : read <$> new = delivered ds;
  b_room : len new <= spare out;
  b_capacity : VecPool.capacity (pool u') = VecPool.capacity (pool u);
}.

Lemma delivered_app a b : delivered (a ++ b) = delivered a ++ delivered b.
Proof using. unfold delivered. by rewrite filter_app, fmap_app. Qed.

Lemma bursting_trans u1 u2 u3 o1 o2 o3 live ds1 ds2 new1 new2 :
  bursting u1 u2 o1 o2 live ds1 new1 -> bursting u2 u3 o2 o3 (live ++ new1) ds2 new2 ->
  bursting u1 u3 o1 o3 live (ds1 ++ ds2) (new1 ++ new2).
Proof using.
  intros [A1 A2 A3 A4 A5 A6 A7] [B1 B2 B3 B4 B5 B6 B7]. split.
  - by rewrite app_assoc.
  - by rewrite A2, B2, app_assoc.
  - by rewrite B3, A3, app_assoc.
  - congruence.
  - by rewrite fmap_app, A5, B5, delivered_app.
  - unfold spare, saturating_sub in *. rewrite A4, A3, len_app in B6. rewrite len_app. pose proof (len_nonneg new2).
    pose proof (len_nonneg new1). lia.
  - congruence.
Qed.

Lemma bursting_refl u out live : udp_wf u live -> bursting u u out out live [] [].
Proof using.
  intros Hw. pose proof (FrameBatch.spare_nonneg out). split; try done; [by rewrite app_nil_r..].
Qed.

(** *** Slabs *)

Lemma acquire_wf u live sl p :
  udp_wf u live -> VecPool.acquire (pool u) = Some (sl, p) ->
  VecPool.wf size (p, (slab <$> live) ++ [sl]) /\ len (buf sl) = size /\ VecPool.capacity p = VecPool.capacity (pool u).
Proof using.
  intros Hw E. pose proof (VecPool.apply_wf size VecPool.Acquire _ Hw) as Ha. cbn [VecPool.apply] in Ha. rewrite E in Ha.
  split; [done|]. destruct Ha as (_ & _ & _ & Hl). apply Forall_app in Hl as [_ Hl]. apply Forall_cons in Hl as [[Hl _] _].
  split; [done|]. unfold VecPool.acquire in E. destruct (last (VecPool.free (pool u))); by simplify_eq.
Qed.

Lemma drop_last_wf p ls sl :
  VecPool.wf size (p, ls ++ [sl]) -> VecPool.wf size (VecPool.drop_slab sl p, ls).
Proof using.
  intros Hw. pose proof (VecPool.apply_wf size (VecPool.Drop (length ls)) _ Hw) as Hd. cbn [VecPool.apply] in Hd.
  rewrite list_lookup_middle in Hd by done. by rewrite delete_middle, app_nil_r in Hd.
Qed.

Lemma land_last_wf p ls sl bytes :
  VecPool.wf size (p, ls ++ [sl]) -> VecPool.wf size (p, ls ++ [VecPool.land sl bytes]).
Proof using.
  intros (H1 & H2 & H3 & H4). apply Forall_app in H4 as [H4 H5]. apply Forall_cons in H5 as [[H5 H6] _]. split_and!; try done.
  - by rewrite !len_app in *.
  - by rewrite !len_app in *.
  - apply Forall_app. split; [done|]. constructor; [|constructor]. rewrite VecPool.len_land. done.
Qed.

Lemma fill_last_wf p ls sl bytes :
  VecPool.wf size (p, ls ++ [sl]) ->
  VecPool.wf size (p, ls ++ [VecPool.set_len (VecPool.land sl bytes) (len bytes)]).
Proof using.
  intros Hw. pose proof (VecPool.apply_wf size (VecPool.Fill (length ls) bytes) _ Hw) as Hf. cbn [VecPool.apply] in Hf.
  rewrite list_lookup_middle in Hf by done. by rewrite insert_app_r_alt, Nat.sub_diag in Hf.
Qed.

(** *** The loop *)

Lemma slabs_snoc live f : slab <$> (live ++ [f]) = (slab <$> live) ++ [slab f].
Proof using. by rewrite fmap_app. Qed.

(** Only the socket and the deferred error move. *)
Lemma bursting_idle u out live p s df :
  VecPool.wf size (p, slab <$> live) -> VecPool.capacity p = VecPool.capacity (pool u) ->
  us_view C s = us_view C (sock u) -> bursting u (Udp s p df) out out live [] [].
Proof using.
  intros Hw Hc Hv. pose proof (FrameBatch.spare_nonneg out). split; cbn [sock pool]; try done; by rewrite app_nil_r.
Qed.

(** The kernel cut the datagram: its slab goes back. *)
Lemma bursting_cut u out live p s sl d from :
  VecPool.wf size (p, (slab <$> live) ++ [sl]) -> VecPool.capacity p = VecPool.capacity (pool u) ->
  us_view C (sock u) = (d, from) :: us_view C s -> size < len d ->
  bursting u (Udp s (VecPool.drop_slab sl p) (deferred u)) out out live [(d, from)] [].
Proof using.
  intros Hw Hc Hv Hd. pose proof (FrameBatch.spare_nonneg out). split; cbn [sock pool]; try done.
  - unfold udp_wf. rewrite app_nil_r. by apply drop_last_wf.
  - by rewrite app_nil_r.
  - unfold delivered. by rewrite filter_cons, decide_False by (cbn; lia).
Qed.

(** The datagram fits: it is pushed. *)
Lemma bursting_took u out live p s sl d from :
  VecPool.wf size (p, (slab <$> live) ++ [sl]) -> VecPool.capacity p = VecPool.capacity (pool u) -> len (buf sl) = size ->
  us_view C (sock u) = (d, from) :: us_view C s -> len d <= size -> 0 < spare out ->
  let f := UFrame (VecPool.set_len (VecPool.land sl d) (len d)) (default NO_PEER from) in
  bursting u (Udp s p (deferred u)) out (FrameBatch.push out f) live [(d, from)] [f].
Proof using.
  intros Hw Hc Hl Hv Hd Hs f. split; cbn [sock pool]; try done.
  - unfold udp_wf. rewrite slabs_snoc. by apply fill_last_wf.
  - unfold delivered. rewrite filter_cons, decide_True by (cbn; lia). cbn. f_equal. unfold read, as_ref, UdpFrame_as_ref.
    cbn [slab peer f]. by rewrite VecPool.fill_reads by (rewrite Hl; lia).
  - unfold len. cbn [length]. lia.
Qed.

(** Successive receives, each with a whole slab's room, took the datagrams [ds]. *)
Inductive received : S -> list (list byte * option SocketAddr) -> S -> Prop :=
  | received_nil s : received s [] s
  | received_cons s bytes m from s1 d ds s' :
      sys_recv_from s size = (Ok (bytes, m, from), s1) -> us_view C s = (d, from) :: us_view C s1 ->
      received s1 ds s' -> received s ((d, from) :: ds) s'.

(** Why a burst with [n] frames pushed stopped at the socket [s], and what it then reports:
    the batch is full; a receive failed, and unless it would only block, the error is reported
    at once, or, behind frames, deferred; no slab is free, which with no frame pushed is an
    error unless the peek says there is nothing to take. *)
Inductive stopped (s : S) (n : Z) out' u' : res TransportError Z -> Prop :=
  | stopped_full : spare out' <= 0 -> sock u' = s -> deferred u' = None -> stopped s n out' u' (Ok n)
  | stopped_empty e : sys_recv_from s size = (Err e, sock u') -> is_would_block e = true -> deferred u' = None ->
      stopped s n out' u' (Ok n)
  | stopped_later e : sys_recv_from s size = (Err e, sock u') -> is_would_block e = false -> n <> 0 ->
      deferred u' = Some (Io "recv_from" e) -> stopped s n out' u' (Ok n)
  | stopped_now e : sys_recv_from s size = (Err e, sock u') -> is_would_block e = false -> n = 0 ->
      deferred u' = None -> stopped s n out' u' (Err (Io "recv_from" e))
  | stopped_starved : VecPool.free (pool u') = [] -> n <> 0 -> sock u' = s -> deferred u' = None -> stopped s n out' u' (Ok n)
  | stopped_idle e : VecPool.free (pool u') = [] -> n = 0 -> sys_peek s = (Some e, sock u') -> is_would_block e = true ->
      deferred u' = None -> stopped s n out' u' (Ok 0)
  | stopped_peek e : VecPool.free (pool u') = [] -> n = 0 -> sys_peek s = (Some e, sock u') -> is_would_block e = false ->
      deferred u' = None -> stopped s n out' u' (Err (Io "peek" e))
  | stopped_exhausted : VecPool.free (pool u') = [] -> n = 0 -> sys_peek s = (None, sock u') -> deferred u' = None ->
      stopped s n out' u' (Err (PoolExhausted (VecPool.capacity (pool u')) (VecPool.capacity (pool u')))).

(** A burst counts what it pushed; an error comes with nothing. *)
Lemma stopped_count s n out' u' r :
  stopped s n out' u' r -> match r with Ok k => k = n | Err _ => n = 0 /\ deferred u' = None | Panic => False end.
Proof using. intros H0. destruct H0; try done; by subst. Qed.

Lemma acquire_none u live :
  udp_wf u live -> VecPool.acquire (pool u) = None ->
  VecPool.free (pool u) = [] /\ ps_in_use (VecPool.stats (pool u)) = VecPool.capacity (pool u).
Proof using.
  intros (Hsum & Hs & _) E. unfold VecPool.acquire in E. destruct (last (VecPool.free (pool u))) eqn:El; [done|].
  apply last_None in El. split; [done|]. rewrite El, len_nil in Hsum. cbn [VecPool.stats ps_in_use]. lia.
Qed.

(** What one round does: it takes one datagram and goes on, or leaves with nothing more. *)
Lemma burst_round_spec u out live pushed :
  udp_wf u live -> deferred u = None ->
  match burst_round datagram peek_ready (u, out, pushed) with
  | Again (u', out', pushed') => exists d new, bursting u u' out out' live [d] new /\ pushed' = pushed + len new /\
      deferred u' = None /\ received (sock u) [d] (sock u')
  | Leave (r, u', out') => bursting u u' out out' live [] [] /\ stopped (sock u) pushed out' u' r
  end.
Proof using Hsize.
  intros Hw Hdf. unfold burst_round. destruct (spare out >? 0) eqn:Es; bool_facts;
    [|by split; [apply bursting_refl|apply stopped_full]].
  destruct (VecPool.acquire (pool u)) as [[sl p]|] eqn:Ea.
  - destruct (acquire_wf _ _ _ _ Hw Ea) as (Hw1 & Hl & Hc). unfold datagram. rewrite Hl.
    destruct (sys_recv_from (sock u) size) as [[[[bytes m] from]|e|] s'] eqn:Er;
      pose proof (us_recv C _ _ _ _ (Z.lt_le_incl _ _ Hsize) Er) as Hv; [|cbv zeta|done].
    + destruct Hv as (d & Hv & -> & ->). pose proof (len_nonneg d) as Hd.
      assert (Hrec : received (sock u) [(d, from)] s') by (eapply received_cons; [exact Er|exact Hv|constructor]).
      destruct (len d >? size) eqn:Ec; bool_facts.
      * exists (d, from), []. split_and!; [|unfold len; simpl; lia|done..]. apply bursting_cut; try done. by apply land_last_wf.
      * rewrite Z.min_l by lia. rewrite (take_ge d) by (unfold len in *; lia).
        eexists (d, from), [_]. split_and!; [by apply bursting_took|unfold len; simpl; lia|done..].
    + assert (Hb : forall df, bursting u (Udp s' (VecPool.drop_slab sl p) df) out out live [] [])
        by (intros df; apply bursting_idle; [by apply drop_last_wf|done..]).
      destruct (is_would_block e) eqn:Eb; [by split; [apply Hb|eapply stopped_empty]|].
      destruct (pushed =? 0) eqn:E0; bool_facts; (split; [apply Hb|]); [by eapply stopped_now|by eapply stopped_later].
  - destruct (acquire_none _ _ Hw Ea) as [Hfree Hin].
    destruct (pushed =? 0) eqn:E0; bool_facts; [|by split; [apply bursting_refl|apply stopped_starved]].
    unfold exhausted, peek_ready. destruct (sys_peek (sock u)) as [a s'] eqn:Ep.
    assert (Hb : bursting u (Udp s' (pool u) (deferred u)) out out live [] [])
      by (apply bursting_idle; [done..|by apply (us_peek C _ _ _ Ep)]).
    destruct a as [e|]; [destruct (is_would_block e) eqn:Eb|]; (split; [exact Hb|]);
      [by eapply stopped_idle|by eapply stopped_peek|].
    cbn [pool]. rewrite Hin. exact (stopped_exhausted (sock u) pushed out (Udp s' (pool u) (deferred u)) Hfree E0 Ep Hdf).
Qed.

Lemma received_trans s1 ds1 s2 ds2 s3 : received s1 ds1 s2 -> received s2 ds2 s3 -> received s1 (ds1 ++ ds2) s3.
Proof using. induction 1; [done|]. intros. eapply received_cons; eauto. Qed.

(** The loop returns, and reports what it pushed. *)
Lemma burst_loop fuel u out live pushed :
  udp_wf u live -> deferred u = None -> 0 <= pushed -> (length (us_view C (sock u)) < fuel)%nat ->
  exists r u' out' ds new s, iterate (burst_round datagram peek_ready) fuel (u, out, pushed) = Some (r, u', out') /\
    bursting u u' out out' live ds new /\ received (sock u) ds s /\ stopped s (pushed + len new) out' u' r.
Proof using Hsize.
  revert u out live pushed. induction fuel as [|fuel IH]; intros u out live pushed Hw Hdf Hp Hf; [lia|]. cbn [iterate].
  pose proof (burst_round_spec u out live pushed Hw Hdf) as R.
  destruct (burst_round datagram peek_ready (u, out, pushed)) as [[[u1 o1] n1]|[[r u1] o1]].
  - destruct R as (d & new & B1 & -> & Hd1 & Hr1). pose proof (len_nonneg new).
    destruct (IH u1 o1 (live ++ new) (pushed + len new) (b_wf _ _ _ _ _ _ _ B1) Hd1) as (r & u' & o' & ds & new' & s & E & B2 & Hr2 & Hs);
      [lia| |].
    { pose proof (f_equal length (b_view _ _ _ _ _ _ _ B1)) as Hv. rewrite length_app in Hv. cbn [length] in Hv. lia. }
    exists r, u', o', ([d] ++ ds), (new ++ new'), s.
    split_and!; [done|by eapply bursting_trans|by eapply received_trans|]. by rewrite len_app, Z.add_assoc.
  - destruct R as [B1 Hr]. exists r, u1, o1, [], [], (sock u). split_and!; [done|done|constructor|].
    by rewrite len_nil, Z.add_0_r.
Qed.

(** [burst] on every branch. *)
Lemma burst_total fuel u out live :
  udp_wf u live -> (length (us_view C (sock u)) < fuel)%nat ->
  exists r u' out' ds new, burst datagram peek_ready fuel u out = Some (r, u', out') /\ bursting u u' out out' live ds new /\
    match deferred u with
    | Some e => r = Err e /\ u' = Udp (sock u) (pool u) None /\ ds = [] /\ new = []
    | None => exists s, received (sock u) ds s /\ stopped s (len new) out' u' r
    end.
Proof using Hsize.
  intros Hw Hf. unfold burst. destruct (deferred u) as [e|] eqn:Ed.
  - exists (Err e), (Udp (sock u) (pool u) None), out, [], []. split_and!; try done.
    pose proof (bursting_refl u out live Hw) as [B1 B2 B3 B4 B5 B6 B7]. by split.
  - destruct (burst_loop fuel u out live 0 Hw Ed ltac:(lia) Hf) as (r & u' & out' & ds & new & s & E & B & Hr & Hs).
    exists r, u', out', ds, new. split_and!; [done|done|]. by exists s.
Qed.

(** The same, for what a burst reports. *)
Lemma burst_reports fuel u out live :
  udp_wf u live -> (length (us_view C (sock u)) < fuel)%nat ->
  exists r u' out' ds new, burst datagram peek_ready fuel u out = Some (r, u', out') /\ bursting u u' out out' live ds new /\
    match r with Ok n => n = len new | Err _ => new = [] | Panic => False end.
Proof using Hsize.
  intros Hw Hf. destruct (burst_total fuel u out live Hw Hf) as (r & u' & out' & ds & new & E & B & Hr).
  exists r, u', out', ds, new. split_and!; [done|done|]. destruct (deferred u) as [e|].
  - by destruct Hr as (-> & _ & _ & ->).
  - destruct Hr as (s & _ & Hs%stopped_count). destruct r as [n|e|]; [done| |done]. destruct Hs as [Hn _].
    destruct new as [|f new]; [done|]. rewrite len_cons in Hn. pose proof (len_nonneg new). lia.
Qed.
End burst.
