(* ===== verification/SocketSafety.v ===== *)
(** * The socket transports keep their contracts

    Over a system with the laws of [Socket]: [UdpSocket] is a [DatagramRecvOk], so that the
    receivers and shells run on it; a TCP stream is a [StreamOk], so that the SoupBinTCP clients
    do. Also here: the calls by which a socket is opened, readiness, the properties. *)

From S2P Require Import Prelude TransportCore Trace Pools SoupStream Socket.
From Stdlib Require Import ZArith Lia.
From stdpp Require Import prelude list strings.

Open Scope Z_scope.
Open Scope res_scope.

Import FrameBatch (frames, cap, spare).

(** ** What the system promises *)

Class UdpSysOk (S : Type) `{UdpSys S} := udp_laws : udp_contract S.

(** [ts_view] is what the peer still delivers, [ts_sent] what the stream took to send. *)
Class TcpSysOk (S : Type) `{TcpSys S} := {
  ts_view : S -> list byte;
  ts_sent : S -> list byte;
  ts_recv s n r s' : 0 <= n -> sys_recv s n = (r, s') ->
    match r with
    | Ok w => len w <= n /\ ts_view s = w ++ ts_view s'
    | Err _ => ts_view s' = ts_view s
    | Panic => False
    end;
  ts_recv_sent s n r s' : sys_recv s n = (r, s') -> ts_sent s' = ts_sent s;
  ts_send s bytes r s' : sys_send s bytes = (r, s') ->
    ts_view s' = ts_view s /\
    match r with
    | Ok n => 0 <= n <= len bytes /\ ts_sent s' = ts_sent s ++ take (Z.to_nat n) bytes
    | Err _ => ts_sent s' = ts_sent s
    | Panic => False
    end;
}.

(** ** Scripted systems *)

(** Each receive takes the next item: a datagram, or a failure. An empty script would block. *)
Record Script := { items : list (res io_Error (list byte * option SocketAddr)) }.

Definition WOULD_BLOCK : io_Error := {| kind := WouldBlock; raw_os_error := Some 11 |}.

Definition script_recv (s : Script) (n : Z) : res io_Error (list byte * Z * option SocketAddr) * Script :=
  match items s with
  | Ok (d, from) :: rest => (Ok (take (Z.to_nat n) d, len d, from), {| items := rest |})
  | Err e :: rest => (Err e, {| items := rest |})
  | _ => (Err WOULD_BLOCK, s)
  end.

#[export] Instance Script_sys : UdpSys Script := {|
  sys_recv_from := script_recv;
  sys_peek := fun s => (match items s with Ok _ :: _ => None | Err e :: _ => Some e | _ => Some WOULD_BLOCK end, s);
  sys_send_to := fun s bytes _ => (Ok (len bytes), s);
  sys_join_v4 := fun s _ _ => (None, s);
  sys_join_v6 := fun s _ _ => (None, s);
|}.

(** The datagrams of a script; nothing behind a [Panic] is reached. *)
Fixpoint script_view (l : list (res io_Error (list byte * option SocketAddr))) : list (list byte * option SocketAddr) :=
  match l with
  | Ok d :: rest => d :: script_view rest
  | Err _ :: rest => script_view rest
  | _ => []
  end.

#[export] Instance Script_ok : UdpSysOk Script.
Proof.
  refine {| us_view := fun s => script_view (items s) |}.
  - intros s n r s' Hn E. unfold sys_recv_from, Script_sys, script_recv in E. destruct (items s) as [|[[d from]|e|] rest] eqn:Ei;
      simplify_eq; rewrite ?Ei; try done. by exists d.
  - intros s r s' E. unfold sys_peek, Script_sys in E. by simplify_eq.
Defined.

(** A stream system: the chunks reads find, then the end when it [ends]; writes take one byte. *)
Record Pipe := { chunks : list (list byte); ends : bool; out_bytes : list byte }.

#[export] Instance Pipe_sys : TcpSys Pipe := {|
  sys_recv := fun s n =>
    match chunks s with
    | [] => (if ends s then Ok [] else Err WOULD_BLOCK, s)
    | c :: rest =>
        let left := match drop (Z.to_nat n) c with [] => rest | more => more :: rest end in
        (Ok (take (Z.to_nat n) c), {| chunks := left; ends := ends s; out_bytes := out_bytes s |})
    end;
  sys_send := fun s bytes =>
    (Ok (len (take 1 bytes)), {| chunks := chunks s; ends := ends s; out_bytes := out_bytes s ++ take 1 bytes |});
  sys_peek_byte := fun s => (match chunks s with [] => if ends s then None else Some WOULD_BLOCK | _ => None end, s);
|}.

#[export] Instance Pipe_ok : TcpSysOk Pipe.
Proof.
  refine {| ts_view := fun s => concat (chunks s); ts_sent := out_bytes |}.
  - intros s n r s' Hn E. unfold sys_recv, Pipe_sys in E. destruct (chunks s) as [|c rest] eqn:Ei.
    + destruct (ends s); simplify_eq; rewrite Ei; done.
    + simplify_eq. simpl. split.
      * unfold len. rewrite length_take. lia.
      * rewrite <- (take_drop (Z.to_nat n) c) at 1. rewrite <- app_assoc. f_equal. by destruct (drop (Z.to_nat n) c).
  - intros s n r s' E. unfold sys_recv, Pipe_sys in E. by destruct (chunks s) as [|c rest]; simplify_eq.
  - intros s bytes r s' E. unfold sys_send, Pipe_sys in E. simplify_eq. split_and!; [done|apply len_nonneg| |].
    + unfold len. rewrite length_take. lia.
    + by destruct bytes.
Defined.

(** ** Datagrams *)

Section datagrams.
Context {S : Type} `{UdpSysOk S}.
Implicit Types (u : UdpSocket S) (out : FrameBatch.t UdpFrame).

Definition udp_sound u : Prop := exists size live, 0 < size /\ udp_wf size u live.

Lemma burst_more n m u out x :
  burst datagram peek_ready n u out = Some x -> (n <= m)%nat -> burst datagram peek_ready m u out = Some x.
Proof using. unfold burst. destruct (deferred u); [done|]. apply iterate_more. Qed.

Definition udp_burst_contract : burst_contract (recv_burst (T := UdpSocket S) (F := UdpFrame)).
Proof.
  refine {| bc_wf := udp_sound; bc_backlog := fun u => length (us_view udp_laws (sock u)) |}.
  - intros fuel u out r u' out' (size & live & Hs & Hw) _ E. set (n := length (us_view udp_laws (sock u))).
    apply (burst_more _ (fuel + Datatypes.S n)) in E; [|lia].
    destruct (burst_reports udp_laws size Hs (fuel + Datatypes.S n) u out live Hw) as (r2 & u2 & o2 & ds & new & E2 & B & Hr); [lia|].
    rewrite E2 in E. simplify_eq. destruct B. split_and!; [by exists size, (live ++ new)|done|]. exists new. split_and!; [done| |].
    + pose proof (f_equal length b_view) as Hv. pose proof (f_equal length b_reads) as Hl. unfold delivered in Hl.
      rewrite !length_fmap in Hl. rewrite length_app in Hv. fold n in Hv.
      pose proof (length_filter (fun d => len d.1 <= size) ds). lia.
    + destruct r as [k|e|]; [by split; [|subst k]|done|done].
  - intros fuel u out (size & live & Hs & Hw) _ Hf.
    destruct (burst_reports udp_laws size Hs fuel u out live Hw Hf) as (r & u' & o' & ds & new & E & _). by eexists.
Defined.

#[export] Instance UdpSocket_ok : DatagramRecvOk (UdpSocket S) UdpFrame := udp_burst_contract.

(** A live frame, its sender and its bytes, is readable; dropping it frees its slab. *)
Lemma udp_drop_live_wf size u live1 f live2 : udp_wf size u (live1 ++ f :: live2) -> udp_wf size (drop_live u f) (live1 ++ live2).
Proof using.
  unfold udp_wf. cbn [drop_live pool]. rewrite !fmap_app, fmap_cons. intros Hw.
  pose proof (VecPool.apply_wf size (VecPool.Drop (length (slab <$> live1))) _ Hw) as Hd. cbn [VecPool.apply] in Hd.
  rewrite list_lookup_middle in Hd by done. by rewrite delete_middle in Hd.
Qed.
End datagrams.

(** ** Streams *)

Section streams.
Context {S : Type} `{TcpSysOk S}.

#[export] Instance TcpStream_view_ok : StreamViewOk (TcpStream (S := S)).
Proof.
  refine {| view := fun t => ts_view (tsock t) |}. intros [s] n r t' Hn E.
  unfold recv_into, Tcp_recv, stream in E. destruct (n =? 0) eqn:E0; bool_facts; [by simplify_eq|].
  cbn [tsock] in *. destruct (sys_recv s n) as [a s'] eqn:Es. pose proof (ts_recv _ _ _ _ Hn Es) as Hv.
  destruct a as [[|b w]|e|]; [|by simplify_eq| |done]; simplify_eq; cbn [tsock]; [by destruct Hv as [_ ->]|].
  destruct (is_would_block e); simplify_eq; [|done]. by rewrite Hv.
Defined.

#[export] Instance TcpStream_ok : StreamOk (TcpStream (S := S)).
Proof.
  refine {| SoupStream.sent := fun t => ts_sent (tsock t) |}.
  - intros [s] n r t' E. unfold recv_into, Tcp_recv, stream in E. destruct (n =? 0) eqn:E0; [by simplify_eq|].
    cbn [tsock] in *. destruct (sys_recv s n) as [a s'] eqn:Es.
    pose proof (ts_recv_sent _ _ _ _ Es). by destruct a as [[|b w]|e|]; simplify_eq.
  - intros [s] bytes r t' E. unfold try_send, Tcp_try_send in E. cbn [tsock] in *.
    destruct (sys_send s bytes) as [a s'] eqn:Es. destruct (ts_send _ _ _ _ Es) as [Hv Ha]. simplify_eq. cbn [view TcpStream_view_ok tsock].
    split; [done|]. unfold written. destruct a as [n|e|]; [done| |done]. pose proof (len_nonneg bytes).
    destruct (is_would_block e); [|done]. split; [lia|]. by rewrite Ha, take_0, app_nil_r.
Defined.
End streams.

(** ** Opening *)

(** The calls each constructor makes when none fails, with the error each failure becomes. *)
Definition step_list : Type := list (Syscall * (io_Error -> TransportError)).

Definition opt_step {A} (o : option A) (f : A -> Syscall * (io_Error -> TransportError)) : step_list :=
  match o with Some a => [f a] | None => [] end.

Definition buffer_steps (recv_buf send_buf : option Z) : step_list :=
  opt_step recv_buf (fun n => (SetRecvBuffer n, Io "setsockopt(SO_RCVBUF)")) ++
  opt_step send_buf (fun n => (SetSendBuffer n, Io "setsockopt(SO_SNDBUF)")).

Definition udp_steps (c : UdpConfig) : step_list :=
  [(NewSocket (for_address (bind_addr c)) false, Io "socket")] ++
  (if reuse_addr c then [(SetReuseAddress, Io "setsockopt(SO_REUSEADDR)")] else []) ++
  (if reuse_port c then [(SetReusePort, Io "setsockopt(SO_REUSEPORT)")] else []) ++
  buffer_steps (recv_buf c) (send_buf c) ++
  opt_step (busy_poll_us c) (fun us => (SetBusyPoll us, Io "setsockopt(SO_BUSY_POLL)")) ++
  [(SetNonblocking, Io "set_nonblocking"); (BindTo (bind_addr c), Bind (bind_addr c))].

Definition tcp_steps (c : TcpConfig) : step_list :=
  [(NewSocket (for_address (remote c)) true, Io "socket")] ++
  buffer_steps (tcp_recv_buf c) (tcp_send_buf c) ++
  (if nodelay c then [(SetNodelay, Io "setsockopt(TCP_NODELAY)")] else []) ++
  opt_step (local c) (fun a => (BindTo a, Bind a)).

Definition connect_step (c : TcpConfig) : Syscall * (io_Error -> TransportError) :=
  (ConnectTo (remote c) (connect_timeout c), Connect (remote c)).

Definition nonblocking_step : Syscall * (io_Error -> TransportError) := (SetNonblocking, Io "set_nonblocking").

Section opening.
Context {S : Type} (os : Os S).

(** The steps in order, up to the first that fails. *)
Fixpoint attempt (steps : step_list) : Opening unit :=
  match steps with
  | [] => mret tt
  | (c, wrap) :: rest => _ ← request os c wrap; attempt rest
  end.

(** [made] of [steps] were tried and [r] is the outcome: all answered well, or the last failed. *)
Definition tried {A} (steps : step_list) (made : list Syscall) (a : A) (r : res TransportError A) : Prop :=
  (made = steps.*1 /\ Forall (fun c => answer os c = None) made /\ r = Ok a) \/
  exists pre c wrap post e, steps = pre ++ (c, wrap) :: post /\ made = pre.*1 ++ [c] /\
    Forall (fun c => answer os c = None) pre.*1 /\ answer os c = Some e /\ r = Err (wrap e).

Lemma attempt_tried steps log r log' :
  attempt steps log = (r, log') -> exists made, log' = log ++ made /\ tried steps made tt r.
Proof using.
  revert log. induction steps as [|[c wrap] steps IH]; intros log E; cbn [attempt] in E.
  { unfold mret, Traced_ret in E. simplify_eq. exists []. rewrite app_nil_r. split; [done|]. by left. }
  unfold mbind, Traced_bind, request in E. destruct (answer os c) as [e|] eqn:Ec.
  - simplify_eq. exists [c]. split; [done|]. right. by exists [], c, wrap, steps, e.
  - destruct (IH _ E) as (made & -> & Hm). exists (c :: made). rewrite <- app_assoc. split; [done|].
    destruct Hm as [(-> & Hf & ->)|(pre & c' & w' & post & e & -> & -> & Hf & Hc & ->)].
    + left. split_and!; [done|by constructor|done].
    + right. exists ((c, wrap) :: pre), c', w', post, e. split_and!; try done. by constructor.
Qed.

(** [m], then what [l] and [k] do: peels the calls of an opening one by one. *)
Lemma step_same {A} c wrap l (m k : Opening A) :
  same m (attempt l ≫= fun _ => k) -> same (request os c wrap ≫= fun _ => m) (attempt ((c, wrap) :: l) ≫= fun _ => k).
Proof using.
  intros Hm log. cbn [attempt]. unfold mbind, Traced_bind, request in *. destruct (answer os c); [done|]. apply Hm.
Qed.

Lemma opt_same {A B} (o : option B) f g l (m k : Opening A) :
  (forall b, f b = request os (g b).1 (g b).2) -> same m (attempt l ≫= fun _ => k) ->
  same (when_some o f ≫= fun _ => m) (attempt (opt_step o g ++ l) ≫= fun _ => k).
Proof using.
  intros Hf Hm. destruct o as [b|]; cbn [when_some opt_step app]; [|done]. rewrite Hf. destruct (g b) as [c w]. by apply step_same.
Qed.

Lemma when_same {A} (b : bool) c wrap l (m k : Opening A) :
  same m (attempt l ≫= fun _ => k) ->
  same (when b (request os c wrap) ≫= fun _ => m) (attempt ((if b then [(c, wrap)] else []) ++ l) ≫= fun _ => k).
Proof using. intros Hm. destruct b; [by apply step_same|done]. Qed.

Lemma buffers_same {A} rb sb l (m k : Opening A) :
  same m (attempt l ≫= fun _ => k) ->
  same (buffers os rb sb ≫= fun _ => m) (attempt (buffer_steps rb sb ++ l) ≫= fun _ => k).
Proof using.
  intros Hm. unfold buffer_steps, buffers. rewrite <- app_assoc. rewrite bind_assoc.
  apply opt_same; [done|]. by apply opt_same.
Qed.

Lemma udp_same c : same (udp os c) (attempt (udp_steps c) ≫= fun _ => mret (os_socket os)).
Proof using.
  unfold udp, udp_steps. apply step_same. do 2 apply when_same. apply buffers_same. apply opt_same; [done|].
  do 2 apply step_same. done.
Qed.

Lemma tcp_same {A} c l (f : Opening A) (k : S -> Opening A) :
  same (k (os_socket os)) (attempt l ≫= fun _ => f) ->
  same (tcp os c ≫= k) (attempt (tcp_steps c ++ l) ≫= fun _ => f).
Proof using.
  intros Hk. unfold tcp_steps. rewrite <- !app_assoc. unfold tcp. rewrite bind_assoc. apply step_same.
  rewrite bind_assoc. apply buffers_same. rewrite bind_assoc. apply when_same. rewrite bind_assoc. by apply opt_same.
Qed.

(** Preconditions make no call; then the steps run in order. *)
Lemma steps_tried {A} (m : Opening A) steps (a : A) log r log' :
  same m (attempt steps ≫= fun _ => mret a) -> m log = (r, log') ->
  exists made, log' = log ++ made /\ tried steps made a r.
Proof using.
  intros Hm E. rewrite Hm in E. unfold mbind, Traced_bind in E. destruct (attempt steps log) as [q l] eqn:Ea.
  destruct (attempt_tried _ _ _ _ Ea) as (made & -> & Ht). exists made.
  destruct Ht as [(-> & Hf & ->)|(pre & c & w & post & e & -> & -> & Hf & Hc & ->)]; unfold mret, Traced_ret in E; simplify_eq.
  - split; [done|]. by left.
  - split; [done|]. right. by exists pre, c, w, post, e.
Qed.
End opening.

(** ** Properties *)

(** C28: A UDP receive burst, over any kernel that keeps its promise, returns. An error the
    call before deferred is returned, once, before the socket or the batch is touched. Without
    one, successive receives took datagrams off the socket, and those that fit a slab are
    exactly the frames it appended, in order, each with its sender and its bytes, never more
    than the batch has room for; the burst stopped because the batch is full, the socket would
    block, a receive failed or no slab was left. A receive's failure is reported at once when no
    frame was pushed and otherwise kept for the next call, with the frames reported now; a pool
    without a slab is [PoolExhausted] only with no frame pushed and a datagram waiting. *)
Theorem socket_burst_exact {S} `{UdpSysOk S} size fuel (u : UdpSocket S) out live :
  0 < size -> udp_wf size u live -> (length (us_view udp_laws (sock u)) < fuel)%nat ->
  exists r u' out' ds new,
    recv_burst fuel u out = Some (r, u', out') /\
    us_view udp_laws (sock u) = ds ++ us_view udp_laws (sock u') /\
    frames out' = frames out ++ new /\ cap out' = cap out /\ (fun f => (as_ref f, peer f)) <$> new = delivered size ds /\
    len new <= spare out /\ udp_wf size u' (live ++ new) /\
    match deferred u with
    | Some e => r = Err e /\ u' = Udp (sock u) (pool u) None /\ ds = [] /\ new = []
    | None => exists s, received udp_laws size (sock u) ds s /\ stopped size s (len new) out' u' r
    end.
Proof.
  intros Hs Hw Hf. destruct (burst_total udp_laws size Hs fuel u out live Hw Hf) as (r & u' & out' & ds & new & E & B & Hr).
  exists r, u', out', ds, new. destruct B. by split_and!.
Qed.

Definition home : SocketAddr := {| ip := V4 [Byte.x7f; Byte.x00; Byte.x00; Byte.x01]; port := 9000 |}.

Definition demo_items : list (res io_Error (list byte * option SocketAddr)) :=
  [Ok ([Byte.x41], Some home); Ok ([Byte.x42; Byte.x43; Byte.x44], Some home); Ok ([Byte.x45; Byte.x46], None);
   Err {| kind := Other; raw_os_error := Some 9 |}].

Definition demo_socket (p : VecPool.t) : UdpSocket Script := Udp {| items := demo_items |} p None.

Lemma socket_burst_exact_witness :
  exists p, VecPool.new (fun _ => true) 3 2 = Ok p /\
  exists r u' out' ds new,
    recv_burst 10 (demo_socket p) (FrameBatch.with_capacity 4) = Some (r, u', out') /\
    us_view udp_laws (sock (demo_socket p)) = ds ++ us_view udp_laws (sock u') /\
    frames out' = [] ++ new /\ cap out' = 4 /\ (fun f => (as_ref f, peer f)) <$> new = delivered 2 ds /\
    len new <= 4 /\ udp_wf 2 u' ([] ++ new) /\
    exists s, received udp_laws 2 (sock (demo_socket p)) ds s /\ stopped 2 s (len new) out' u' r.
Proof.
  eexists. split; [reflexivity|].
  apply (socket_burst_exact 2 10 (demo_socket _) (FrameBatch.with_capacity 4) []); [done| |cbn; lia].
  apply (VecPool.vec_new_wf (fun _ => true) 3 2); [done|done|reflexivity].
Defined.

(** The run of that witness: the cut datagram is gone, the failure waits. *)
Example demo_burst :
  match VecPool.new (fun _ => true) 3 2 with
  | Ok p => match recv_burst 10 (demo_socket p) (FrameBatch.with_capacity 4) with
            | Some (r, u', out') => (r, as_ref <$> frames out', deferred u') =
                (Ok 2, [[Byte.x41]; [Byte.x45; Byte.x46]], Some (Io "recv_from" {| kind := Other; raw_os_error := Some 9 |}))
            | None => False
            end
  | _ => False
  end.
Proof. reflexivity. Qed.

(** C29: Opening a socket: a configuration the code rejects, or a pool it cannot allocate,
    makes no system call; otherwise the calls are exactly those the configuration asks for, in
    the source's order, up to the first that fails, whose stage or address the error names, and
    the socket comes back exactly when every one answered well. [UdpSocket::bind], [MioTcp]'s
    and tokio's [connect] alike, the last two differing in when non-blocking is set. *)
Theorem socket_opening_exact {S} (os : Os S) log :
  (forall alloc c, let '(r, log') := udp_bind os alloc c log in
    match validate_udp c, VecPool.new alloc (slab_count c) (slab_size c) with
    | Ok _, Ok p => exists made, log' = log ++ made /\ tried os (udp_steps c) made (Udp (os_socket os) p None) r
    | Ok _, bad => log' = log /\ r = match bad with Err e => Err e | _ => Panic end
    | Err e, _ => log' = log /\ r = Err e
    | Panic, _ => False
    end) /\
  (forall c, let '(r, log') := mio_connect os c log in
    match validate_tcp c with
    | Ok _ => exists made, log' = log ++ made /\
        tried os (tcp_steps c ++ [connect_step c; nonblocking_step]) made (os_socket os) r
    | bad => log' = log /\ r = match bad with Err e => Err e | _ => Panic end
    end) /\
  (forall runtime c, let '(r, log') := tokio_connect os runtime c log in
    match validate_tcp c with
    | Ok _ => if runtime
        then exists made, log' = log ++ made /\
          tried os (tcp_steps c ++ [nonblocking_step; connect_step c]) made (os_socket os) r
        else log' = log /\ r = Err NO_RUNTIME
    | bad => log' = log /\ r = match bad with Err e => Err e | _ => Panic end
    end).
Proof.
  split_and!.
  - intros alloc c. destruct (udp_bind os alloc c log) as [r log'] eqn:E. unfold udp_bind in E. rewrite pure_bind in E.
    assert (Hp : validate_udp c <> Panic) by (unfold validate_udp, buffer_sizes, validate.at_most; repeat case_match; done).
    destruct (validate_udp c) as [[]|e|]; [|by simplify_eq|done]. rewrite pure_bind in E. destruct (VecPool.new _ _ _) as [p|e|]; [|by simplify_eq..].
    revert E. apply steps_tried. intros l.
    unfold mbind, Traced_bind. rewrite udp_same. unfold mbind, Traced_bind. by destruct (attempt os (udp_steps c) l) as [[[]|e|] l'].
  - intros c. destruct (mio_connect os c log) as [r log'] eqn:E. unfold mio_connect in E. rewrite pure_bind in E.
    destruct (validate_tcp c) as [[]|e|]; [|by simplify_eq..]. revert E. apply steps_tried.
    apply tcp_same. by do 2 apply step_same.
  - intros runtime c. destruct (tokio_connect os runtime c log) as [r log'] eqn:E. unfold tokio_connect in E. rewrite pure_bind in E.
    destruct (validate_tcp c) as [[]|e|]; [|by simplify_eq..]. rewrite pure_bind in E. destruct runtime; [|by simplify_eq]. revert E. apply steps_tried.
    apply tcp_same. by do 2 apply step_same.
Qed.
