(* ===== verification/SocketRuntimes.v ===== *)
(** * Sockets under mio and tokio

    [MioUdp], [AsyncUdp], [MioTcp] and tokio's [TcpStream] of
    [crates/transports/socket/src/{mio,tokio}/*.rs] keep the contracts their clients rely on:
    the runtime stands between them and the system, and all it adds to a call is the
    bookkeeping of readiness, which neither reads nor writes. *)

From S2P Require Import Prelude TransportCore Trace Pools SoupStream Socket SocketSafety.
From Stdlib Require Import ZArith Lia.
From stdpp Require Import prelude list strings.

Open Scope Z_scope.
Open Scope res_scope.

Import FrameBatch (frames, cap, spare).

(** ** Datagrams *)

(** A receiver that works on another one's fields keeps its contract. *)
Definition wrapped_contract {T T' F : Type} (to : T -> T') (from : T' -> T)
    (recv : nat -> T -> FrameBatch.t F -> option (burst_result T F))
    (recv' : nat -> T' -> FrameBatch.t F -> option (burst_result T' F))
    (from_to : forall t, from (to t) = t)
    (wraps : forall fuel t' out, recv' fuel t' out =
      match recv fuel (from t') out with Some (r, t, out) => Some (r, to t, out) | None => None end) :
  burst_contract recv -> burst_contract recv'.
Proof.
  intros C. refine {| bc_wf := fun t => bc_wf C (from t); bc_backlog := fun t => bc_backlog C (from t) |}.
  - intros fuel t out r t1 out1 Hw Hs E. rewrite wraps in E. destruct (recv fuel (from t) out) as [[[r0 t0] o0]|] eqn:Er; [|done].
    injection E as <- <- <-. rewrite from_to. exact (bc_sound C _ _ _ _ _ _ Hw Hs Er).
  - intros fuel t out Hw Hs Hf. rewrite wraps. destruct (bc_total C fuel (from t) out Hw Hs Hf) as [[[r t0] o] ->]. by eexists.
Defined.

#[export] Instance AsyncUdp_ok {S} `{UdpSysOk S} : DatagramRecvOk (AsyncUdp S) UdpFrame.
Proof. refine (wrapped_contract async_of async_fields _ _ _ _ udp_burst_contract); by intros []. Defined.

(** ** Waiting for readiness *)

Section readiness.
Context {S V : Type} `{Readable S} (peek : S -> option io_Error * S).

(** Waiting and peeking read nothing off [view]; [stale] bounds how often in a row the reactor
    reports a readiness that a peek then finds stale. *)
Record readiness_laws (view : S -> V) (stale : S -> nat) : Prop := {
  rl_readable : forall s r s', sys_readable s = (r, s') -> view s' = view s;
  rl_peek : forall s r s', peek s = (r, s') -> view s' = view s;
  rl_stale : forall s s1 e s2, sys_readable s = (Some None, s1) -> peek s1 = (Some e, s2) ->
    is_would_block e = true -> (stale s2 < stale s)%nat;
}.

Context (view : S -> V) (stale : S -> nat) (laws : readiness_laws view stale).

(** A round that goes again has met one stale readiness. *)
Lemma ready_again s s' : ready_round peek s = Again s' -> view s' = view s /\ (stale s' < stale s)%nat.
Proof using laws.
  unfold ready_round. destruct (sys_readable s) as [[[e|]|] s1] eqn:Er; [done| |done].
  destruct (peek s1) as [[e|] s2] eqn:Ep; [|done]. destruct (is_would_block e) eqn:Ew; [|done]. intros [= <-].
  split; [|by eapply (rl_stale _ _ laws)]. by rewrite (rl_peek _ _ laws _ _ _ Ep), (rl_readable _ _ laws _ _ _ Er).
Qed.

Lemma ready_left s r s' : ready_round peek s = Leave (r, s') -> view s' = view s /\ r <> Some Panic.
Proof using laws.
  unfold ready_round. destruct (sys_readable s) as [[[e|]|] s1] eqn:Er.
  - intros [= <- <-]. by rewrite (rl_readable _ _ laws _ _ _ Er).
  - destruct (peek s1) as [[e|] s2] eqn:Ep; [destruct (is_would_block e); [done|]|]; intros [= <- <-];
      by rewrite (rl_peek _ _ laws _ _ _ Ep), (rl_readable _ _ laws _ _ _ Er).
  - intros [= <- <-]. by rewrite (rl_readable _ _ laws _ _ _ Er).
Qed.

(** One poll of the future returns. *)
Lemma ready_total s : exists r s', ready peek (Datatypes.S (stale s)) s = Some (r, s') /\ view s' = view s /\ r <> Some Panic.
Proof using laws.
  unfold ready.
  destruct (iterate_total (ready_round peek) (fun _ => True) stale s) as [[r s'] E].
  { intros x x' _ [_ ?]%ready_again. by split. }
  { done. }
  rewrite E. exists r, s'. split; [done|].
  apply (iterate_inv _ (fun x => view x = view s) (fun x => view x.2 = view s /\ x.1 <> Some Panic)) in E; [exact E|..|done].
  - intros s1 s2 Hv [Hv' _]%ready_again. congruence.
  - intros s1 [r1 s2] Hv [Hv' Hp]%ready_left. cbn. split; [congruence|done].
Qed.
End readiness.

(** Re-arming takes nothing off the socket. *)
Class MioSourceOk (S : Type) `{UdpSysOk S, MioSource S} := rearm_view : forall b s, us_view udp_laws (rearm b s) = us_view udp_laws s.

Section mio.
Context {S : Type} `{MioSourceOk S}.

(** The system as a socket under mio sees it, each receive and each peek made by [try_io]. *)
Definition tried_sys : UdpSys S := {|
  sys_recv_from := fun s n => try_io (fun s => sys_recv_from s n) s;
  sys_peek := mio_peek;
  sys_send_to := fun s bytes to => try_io (fun s => sys_send_to s bytes to) s;
  sys_join_v4 := sys_join_v4;
  sys_join_v6 := sys_join_v6;
|}.

#[local] Instance tried_ok : UdpSysOk S (H := tried_sys).
Proof using H2.
  refine {| us_view := us_view udp_laws (S := S) |}.
  - intros s n r s' Hn E. cbn in E. unfold try_io in E. destruct (sys_recv_from s n) as [a s1] eqn:Es.
    pose proof (us_recv udp_laws _ _ _ _ Hn Es) as Hv. simplify_eq. by rewrite rearm_view.
  - intros s r s' E. cbn in E. unfold mio_peek, peek_ready in E. destruct (sys_peek s) as [a s1] eqn:Es.
    simplify_eq. rewrite rearm_view. by apply (us_peek udp_laws _ _ _ Es).
Defined.

Lemma mio_datagram_tried s sl : mio_datagram s sl = datagram (H := tried_sys) s sl.
Proof using. unfold mio_datagram, datagram. cbn. unfold try_io. by destruct (sys_recv_from _ _) as [[[[bytes n] from]|e|] s1]. Qed.
End mio.

Lemma burst_ext {S} (recv recv' : S -> _) (peek : S -> _) fuel (u : UdpSocket S) out :
  (forall s sl, recv s sl = recv' s sl) -> burst recv peek fuel u out = burst recv' peek fuel u out.
Proof.
  intros Hr. unfold burst. destruct (deferred u); [done|].
  apply iterate_ext. intros [[u0 o0] n0]. unfold burst_round. destruct (_ >? 0); [|done]. destruct (VecPool.acquire _) as [[sl p]|]; [|by repeat case_match].
  rewrite Hr. by repeat case_match.
Qed.

(** [MioUdp] keeps the receive contract, as [UdpSocket] does on the system mio shows it. *)
#[export] Instance MioUdp_ok {S} `{MioSourceOk S} : DatagramRecvOk (MioUdp S) UdpFrame.
Proof.
  refine (wrapped_contract mio_from_socket mio_fields _ _ _ _ (@udp_burst_contract S tried_sys tried_ok)); [by intros []|].
  intros fuel m out. unfold recv_burst at 1, MioUdp_recv, mio_recv_burst.
  by rewrite (burst_ext _ _ _ fuel (mio_fields m) out mio_datagram_tried).
Defined.

(** ** Streams under mio *)

(** Re-arming neither reads nor writes. *)
Class MioStreamOk (S : Type) `{TcpSysOk S, MioSource S} := {
  rearm_ts_view : forall b s, ts_view (rearm b s) = ts_view s;
  rearm_ts_sent : forall b s, ts_sent (rearm b s) = ts_sent s;
}.

Section mio_streams.
Context {S : Type} `{MioStreamOk S}.

(** The system as a stream under mio sees it. *)
Definition tried_stream : TcpSys S := {|
  sys_recv := fun s n => try_io (fun s => sys_recv s n) s;
  sys_send := fun s bytes => try_io (fun s => sys_send s bytes) s;
  sys_peek_byte := sys_peek_byte;
|}.

Definition tried_stream_ok : @TcpSysOk S tried_stream.
Proof using H2.
  refine {| ts_view := ts_view (S := S) : _ -> _; ts_sent := ts_sent (S := S) |}.
  - intros s n r s' Hn E. cbn in E. unfold try_io in E. destruct (sys_recv s n) as [a s1] eqn:Es.
    pose proof (ts_recv _ _ _ _ Hn Es). simplify_eq. by rewrite rearm_ts_view.
  - intros s n r s' E. cbn in E. unfold try_io in E. destruct (sys_recv s n) as [a s1] eqn:Es.
    simplify_eq. rewrite rearm_ts_sent. by eapply ts_recv_sent.
  - intros s bytes r s' E. cbn in E. unfold try_io in E. destruct (sys_send s bytes) as [a s1] eqn:Es.
    pose proof (ts_send _ _ _ _ Es). simplify_eq. by rewrite rearm_ts_view, rearm_ts_sent.
Defined.

(** [MioTcp] is a stream on that system. *)
Definition mio_stream (t : MioTcp (S := S)) : TcpStream (S := S) := Tcp (mt_sock t).

#[local] Instance tried_view_ok : @StreamViewOk (TcpStream (S := S)) (@Tcp_recv S tried_stream) := @TcpStream_view_ok S tried_stream tried_stream_ok.
#[local] Instance tried_ok2 : @StreamOk (TcpStream (S := S)) (@Tcp_recv S tried_stream) _ (@Tcp_try_send S tried_stream) := @TcpStream_ok S tried_stream tried_stream_ok.

Lemma mio_recv_into (t : MioTcp (S := S)) n r t' :
  recv_into t n = (r, t') -> @recv_into _ (@Tcp_recv S tried_stream) (mio_stream t) n = (r, mio_stream t').
Proof using.
  destruct t as [s]. unfold recv_into, MioTcp_recv, Tcp_recv. cbn [mt_sock mio_stream tsock sys_recv tried_stream].
  destruct (stream _ s n). by intros [= <- <-].
Qed.

Lemma mio_try_send (t : MioTcp (S := S)) bytes r t' :
  try_send t bytes = (r, t') -> @try_send _ (@Tcp_try_send S tried_stream) (mio_stream t) bytes = (r, mio_stream t').
Proof using.
  destruct t as [s]. unfold try_send, MioTcp_try_send, Tcp_try_send. cbn [mt_sock mio_stream tsock sys_send tried_stream].
  destruct (try_io _ s). by intros [= <- <-].
Qed.

#[export] Instance MioTcp_view_ok : StreamViewOk (MioTcp (S := S)).
Proof using H2.
  refine {| view := fun t => ts_view (mt_sock t) |}.
  intros t n r t' Hn E. exact (@recv_into_ok _ _ tried_view_ok _ _ _ _ Hn (mio_recv_into _ _ _ _ E)).
Defined.

#[export] Instance MioTcp_ok : StreamOk (MioTcp (S := S)).
Proof using H2.
  refine {| SoupStream.sent := fun t => ts_sent (mt_sock t) |}.
  - intros t n r t' E. exact (@recv_into_sent _ _ _ _ tried_ok2 _ _ _ _ (mio_recv_into _ _ _ _ E)).
  - intros t bytes r t' E. exact (@try_send_ok _ _ _ _ tried_ok2 _ _ _ _ (mio_try_send _ _ _ _ E)).
Defined.
End mio_streams.
