(* ===== verification/Stacks.v ===== *)
(** * The MoldUDP receiver on each backend

    A leg of the receiver is a socket, the bypass shell over the io_uring driver, or the
    decapsulator over the shell over the AF_XDP or the DPDK driver. From any state the calls
    of a backend can leave, every [poll] of a receiver on such legs returns: the receiver's
    termination theorem, the decapsulator's and the shell's contracts and the drivers' fit. *)

From S2P Require Import Prelude TransportCore Pools Bypass FrameMemory Decap.
From S2P Require Import MoldWire Reassembly Gap Arbiter Receiver ReceiverOrder ReceiverLive.
From S2P Require AfxdpRing Afxdp Dpdk UringParts UringKernel Uring UringSafety Socket SocketSafety.
From Stdlib Require Import ZArith Lia.
From stdpp Require Import prelude list.

Open Scope Z_scope.
Open Scope res_scope.

Import IndexPool (IndexFrame).

Section receiver.
Context {R : Type} `{RecoveryOk R}.

(** Every [poll] of a receiver over sound legs returns. *)
Definition returns {T F} `{DatagramRecvOk T F, !AsRef F} (legs : list T) : Prop :=
  forall cfg (i : Inner T F) (rec : R) clk, from_legs cfg legs = Ok i -> rc_wf rec ->
  exists n, forall fuel, (n <= fuel)%nat -> is_Some (poll fuel i rec clk).

Lemma sound_legs_return {T F} `{DatagramRecvOk T F, !AsRef F} (legs : list T) :
  Forall (bc_wf datagram_contract) legs -> returns legs.
Proof using. intros Hl cfg i rec clk Hi Hr. apply poll_returns; [by eapply from_legs_pollable|done]. Qed.
End receiver.

(** ** Sockets *)

#[local] Existing Instances Socket.UdpSocket_recv Socket.UdpFrame_as_ref SocketSafety.UdpSocket_ok.

Section socket.
Context {S : Type} `{SocketSafety.UdpSysOk S} {R : Type} `{RecoveryOk R}.

Theorem mold_on_sockets (legs : list (Socket.UdpSocket S)) : Forall SocketSafety.udp_sound legs -> returns (R := R) (F := Socket.UdpFrame) legs.
Proof. intros Hl. by apply (sound_legs_return (F := Socket.UdpFrame)). Qed.
End socket.

(** ** io_uring: UDP payloads straight from the ring *)

#[local] Existing Instance Uring.Uring_driver.

Section uring.
Context {U : Type} `{UringKernel.IoUring U, UringParts.CqFlags} (size : Z) (ms : bool) (C : UringKernel.ring_contract U ms).
Context {R : Type} `{RecoveryOk R}.

#[local] Instance uring_copies : Driver (Uring.UringDriver U) (IndexFrame * list byte) := copied Uring.pool.
#[local] Instance uring_ok : DriverOk (Uring.UringDriver U) (IndexFrame * list byte) :=
  snap_contract Uring.pool Uring.uring_poll (UringSafety.uring_contract size ms C).

Theorem mold_on_uring ds :
  Forall (fun d => exists live, UringSafety.uring_wf size ms C d live []) ds ->
  returns (R := R) (F := IndexFrame * list byte) (Bypass.new (L := L4) (F := IndexFrame * list byte) <$> ds).
Proof.
  intros Hd. apply sound_legs_return, Forall_fmap. eapply Forall_impl; [exact Hd|]. by intros d I.
Qed.
End uring.

(** ** AF_XDP: Ethernet frames, decapsulated *)

#[local] Existing Instance Afxdp.Xsk_driver.

Section xsk.
Context {K : Type} `{Afxdp.XskKernel K} (e size : Z) (He : 0 <= e <= 31) (Hsize : 0 < size < W32).
Context (C : Afxdp.kernel_contract K e size) {R : Type} `{RecoveryOk R}.

#[local] Instance xsk_copies : Driver (Afxdp.XskDriver K) (IndexFrame * list byte) := copied Afxdp.xpool.
#[local] Instance xsk_ok : DriverOk (Afxdp.XskDriver K) (IndexFrame * list byte) :=
  snap_contract Afxdp.xpool Afxdp.xsk_poll (Afxdp.xsk_contract e size He Hsize C).

Theorem mold_on_afxdp ds port dip burst :
  0 < burst -> Forall (fun d => exists live, Afxdp.xsk_wf e size C d live) ds ->
  returns (R := R) (F := DecapFrame (IndexFrame * list byte))
    ((fun d => Decap.new (Bypass.new (L := L2) (F := IndexFrame * list byte) d) port dip burst) <$> ds).
Proof.
  intros Hb Hd. apply sound_legs_return, Forall_fmap. eapply Forall_impl; [exact Hd|]. intros d [live I].
  cbn. unfold Bypass.new. pose proof (Afxdp.stats_wf e size C d live I) as I'. cbn.
  destruct (Afxdp.xsk_stats d) as [s d']. split_and!; [|done|done]. by exists live.
Qed.
End xsk.

(** ** DPDK: Ethernet frames, decapsulated *)

#[local] Existing Instances Dpdk.Dpdk_driver Dpdk.MbufFrame_as_ref.

Section dpdk.
Context {P : Type} `{Dpdk.Pmd P} (C : Dpdk.pmd_contract P) {R : Type} `{RecoveryOk R}.

#[local] Instance dpdk_ok : DriverOk (Dpdk.PmdDriver P) Dpdk.MbufFrame := Dpdk.dpdk_contract C.

Theorem mold_on_dpdk ds port dip burst :
  0 < burst -> Forall (Dpdk.pmd_wf) ds ->
  returns (R := R) (F := DecapFrame Dpdk.MbufFrame)
    ((fun d => Decap.new (Bypass.new (L := L2) (F := Dpdk.MbufFrame) d) port dip burst) <$> ds).
Proof.
  intros Hb Hd. apply sound_legs_return, Forall_fmap. eapply Forall_impl; [exact Hd|]. intros d I.
  cbn. unfold Bypass.new. cbn. destruct (Dpdk.dpdk_stats d) as [s d'] eqn:E. split; [|by split].
  unfold Dpdk.dpdk_stats in E. destruct (default _ _) as [m n]. by simplify_eq.
Qed.
End dpdk.
