(* ===== verification/Feeds.v ===== *)
(** * What the receiver hands out, seen from the wire

    [emits] says of a source that every frame it delivers satisfies a predicate. The shell
    passes it on and the decapsulator turns a predicate on Ethernet frames into one on the
    datagrams they carry, so that on legs that decapsulate, every message the MoldUDP
    receiver hands out is a block of a datagram sent to the port and address of a leg. *)

From S2P Require Import Prelude TransportCore Bypass Decap.
From S2P Require Import MoldWire Reassembly Gap Arbiter Receiver ReceiverOrder ReceiverSafety ReceiverLive.
From Stdlib Require Import ZArith Lia.
From stdpp Require Import prelude list.

Open Scope Z_scope.
Open Scope res_scope.

Import FrameBatch (frames, cap, spare).

(** ** Sources and what they deliver *)

(** In a state of [J], given a batch with such [room], a call does not panic, leads to [J] and
    appends frames of [Q] only. *)
Definition emits {T F A} `{AsRef F} (room : Z -> Prop)
    (recv : nat -> T -> FrameBatch.t F -> option (res TransportError A * T * FrameBatch.t F))
    (J : T -> Prop) (Q : list byte -> Prop) : Prop :=
  forall fuel t out r t' out', J t -> room (spare out) -> recv fuel t out = Some (r, t', out') ->
    r <> Panic /\ J t' /\ exists new, frames out' = frames out ++ new /\ Forall (fun f => Q (as_ref f)) new.

(** Drivers are asked for at least one frame; the receiver asks with the batch it has. *)
Definition some_room (n : Z) : Prop := 0 < n.
Definition any_room (n : Z) : Prop := True.

Section shell.
Context {L D F : Type} `{Driver D F, AsRef F}.

Lemma shell_emits room (J : D -> Prop) Q :
  emits (A := Polled) room poll_frames J Q -> emits (A := Z) room (shell_recv (L := L)) (fun b => J (driver b)) Q.
Proof.
  intros He fuel b out r b' out' HJ Hs E. rewrite shell_recv_poll in E. unfold shell_poll_frames in E.
  destruct (deferred b) as [e|].
  { simplify_eq. split_and!; [done|done|]. exists []. by rewrite app_nil_r. }
  destruct (poll_frames fuel (driver b) out) as [[[p d] o]|] eqn:Ep; [|done].
  destruct (He _ _ _ _ _ _ HJ Hs Ep) as [Hp Ho]. destruct p as [[n| |]|e|]; try case_match; by simplify_eq.
Qed.
End shell.

(** [d] is the UDP payload of the Ethernet frame [fr], which passes the filter. *)
Definition decapsulated (port : Z) (dip : option (list byte)) (fr d : list byte) : Prop :=
  exists r, wf_frame r /\ accepted r port dip /\ fr = encode_frame r /\ Decap.payload r = d.

Lemma accept_decapsulated {F} `{AsRef F} port dip (f : F) g :
  accept port dip f = Some g -> decapsulated port dip (as_ref f) (as_ref g).
Proof.
  unfold accept. destruct (parse_udp (as_ref f) port dip) as [[rng pe]| |] eqn:Ep; intros; simplify_eq.
  destruct (parse_udp_sound _ _ _ _ _ Ep) as (r & Hw & Ha & Hfr). exists r. split_and!; [done..|].
  destruct (parse_udp_encode r port dip Hw Ha) as [E Hg]. rewrite Hfr, E in Ep. simplify_eq.
  unfold as_ref at 1, DecapFrame_as_ref. cbn [df_payload frame fst snd]. by rewrite Hfr, Hg.
Qed.

Section decap.
Context {S F : Type} `{L2RecvOk S F, !AsRef F} (J : S -> Prop) (Q : list byte -> Prop).
Hypothesis J_wf : forall s, J s -> bc_wf l2_contract s.
Hypothesis source_emits : emits some_room l2_recv_burst J Q.
Implicit Types (d : UdpDecap S F) (out : FrameBatch.t (DecapFrame F)).

(** A payload of a frame of [Q]. *)
Definition carried (port : Z) (dip : option (list byte)) (p : list byte) : Prop :=
  exists fr, Q fr /\ decapsulated port dip fr p.

Definition all_carried (port : Z) (dip : option (list byte)) (l : list (DecapFrame F)) : Prop :=
  Forall (fun g => carried port dip (as_ref g)) l.

(** A decapsulator with this filter over a source of [J]. *)
Definition decap_on (port : Z) (dip : option (list byte)) d : Prop :=
  J (inner d) /\ frames (collected d) = [] /\ 0 < cap (collected d) /\ Forall (fun f => Q (as_ref f)) (pending d) /\
  dst_port d = port /\ dst_ip d = dip.

Lemma carried_all port dip (l : list F) :
  Forall (fun f => Q (as_ref f)) l -> all_carried port dip (omap (accept port dip) l).
Proof.
  intros Hl. apply Forall_forall. intros g (f & Hin & Ha)%list_elem_of_omap. exists (as_ref f).
  split; [by apply (proj1 (Forall_forall _ _) Hl)|by apply accept_decapsulated].
Qed.

(** What a round, whether it is the last or not, leaves. *)
Definition round_emits (port : Z) (dip : option (list byte)) out (d' : UdpDecap S F) (out' : FrameBatch.t (DecapFrame F)) : Prop :=
  decap_on port dip d' /\ exists new, frames out' = frames out ++ new /\ all_carried port dip new.

Lemma fill_step_emits port dip fuel d out :
  decap_on port dip d ->
  match fill_step fuel (d, out) with
  | Again (d', out') => round_emits port dip out d' out'
  | Leave (Some (r, d', out')) => r <> Panic /\ round_emits port dip out d' out'
  | Leave None => True
  end.
Proof using J_wf source_emits.
  intros (HJ & Hc & Hcap & Hp & Hport & Hdip). unfold fill_step. destruct (deliver d out) as [[n d1] out1] eqn:Ed.
  destruct (deliver_spec _ _ _ _ _ Ed) as (pr & Hpr & _ & Hf & _ & _ & _ & _ & Hi & Hpo & Hip & Hcol).
  rewrite Hpr, Forall_app in Hp. destruct Hp as [Hp1 Hp2]. rewrite Hport, Hdip in Hf.
  assert (Hgo : forall s c p st, J s -> frames c = [] -> 0 < cap c -> Forall (fun f => Q (as_ref f)) p ->
             round_emits port dip out (Decap s (dst_port d1) (dst_ip d1) c p st) out1).
  { intros s c p st ? ? ? ?. split; [split_and!; cbn; congruence || done|]. eexists. split; [exact Hf|by apply carried_all]. }
  destruct ((n >? 0) || (spare out1 =? 0)).
  { split; [done|]. destruct d1. cbn in *. subst. by apply Hgo. }
  destruct (l2_recv_burst fuel (inner d1) (collected d1)) as [[[r s] c]|] eqn:Er; [|done].
  rewrite Hi, Hcol in Er. pose proof (FrameBatch.spare_empty _ Hc Hcap) as Hs.
  destruct (source_emits _ _ _ _ _ _ HJ Hs Er) as (_ & HJ' & new & Hn & HQ).
  destruct (bc_sound l2_contract _ _ _ _ _ _ (J_wf _ HJ) Hs Er) as (_ & Hc' & new' & Hn' & _ & Hr).
  rewrite Hc in Hn, Hn'. cbn [app] in Hn, Hn'. rewrite Hn in Hn'. subst new'.
  assert (Hnil : new = [] -> frames c = []) by congruence.
  destruct r as [k|e|]; [|split; [done|]; apply Hgo; by rewrite ?Hc'; auto|done].
  destruct Hr as [-> _]. destruct (len new =? 0) eqn:E0; bool_facts.
  - split; [done|]. apply Hgo; rewrite ?Hc'; auto. apply Hnil. destruct new; [done|]. rewrite len_cons in E0. pose proof (len_nonneg new). lia.
  - unfold FrameBatch.drain. cbn [collected inner dst_port dst_ip pending stats]. apply Hgo; cbn; rewrite ?Hc'; try done.
    rewrite Hn. by apply Forall_app.
Qed.

Lemma decap_emits port dip : emits any_room (recv_burst (T := UdpDecap S F) (F := DecapFrame F)) (decap_on port dip) (carried port dip).
Proof using J_wf source_emits.
  intros fuel d out r d' out' Hd _ E. simpl in E. unfold fill in E.
  destruct (iterate (fill_step fuel) fuel (d, out)) as [x|] eqn:Eit; [|done]. simpl in E. subst x.
  pose (Inv := fun s : UdpDecap S F * FrameBatch.t (DecapFrame F) => round_emits port dip out s.1 s.2).
  pose (L := fun x : option (burst_result (UdpDecap S F) (DecapFrame F)) =>
    match x with Some (r, d', out') => r <> Panic /\ Inv (d', out') | None => True end).
  change (L (Some (r, d', out'))).
  assert (Hgo : forall s d1 out1, Inv s -> round_emits port dip s.2 d1 out1 -> Inv (d1, out1)).
  { intros s d1 out1 (_ & n1 & Hf1 & Hq1) (Hd1 & n2 & Hf2 & Hq2). split; [done|]. exists (n1 ++ n2).
    cbn [snd]. rewrite Hf2, Hf1, app_assoc. split; [done|by apply Forall_app]. }
  eapply (iterate_inv (fill_step fuel) Inv L); [| | |exact Eit].
  - intros [d0 o0] [d1 o1] Hi Es. pose proof (fill_step_emits port dip fuel d0 o0 (proj1 Hi)) as Hs. rewrite Es in Hs. by eapply Hgo.
  - intros [d0 o0] [[[x d1] o1]|] Hi Es; [|done]. pose proof (fill_step_emits port dip fuel d0 o0 (proj1 Hi)) as Hs. rewrite Es in Hs.
    split; [apply Hs|]. eapply (Hgo (d0, o0)); [done|apply Hs].
  - split; [done|]. exists []. rewrite app_nil_r. split; [done|constructor].
Qed.
End decap.

(** ** The receiver over its legs *)

(** A [Requester] reads what its own transport delivers. *)
Section requester.
Context {S G : Type} `{DatagramRecv S G, DatagramSend S, AsRef G} (J : S -> Prop) (W : list byte -> Prop).
Hypothesis sock_emits : emits any_room recv_burst J W.
Hypothesis send_keeps : forall q packet addr, J q -> J (send_to q packet addr).2.

Definition requester_reads (r : Requester S G) : Prop := J (sock r) /\ Forall (fun f => W (as_ref f)) (frames (scratch r)).

Lemma requester_reads_emits : requester_emits requester_reads W.
Proof using sock_emits send_keeps.
  split.
  - intros fuel r out copies r' [HJ Hf] E. simpl in E. unfold requester_poll_frames in E.
    destruct (recv_burst fuel (sock r) (scratch r)) as [[[o q] b]|] eqn:Er; [|done].
    destruct (sock_emits _ _ _ _ _ _ HJ I Er) as (Hn & HJ' & new & Hnew & Hall).
    assert (Hb : Forall (fun f => W (as_ref f)) (frames b)) by (rewrite Hnew; by apply Forall_app).
    destruct o as [n|e|]; [|simplify_eq; by split_and!|done]. unfold FrameBatch.drain in E. simplify_eq. split_and!; [done| |by apply Forall_fmap].
    by split; [|constructor].
  - intros r clk s g r' clk' [HJ Hf] E. destruct (requester_send_keeps J send_keeps r clk s g HJ) as [HJ' Hs].
    rewrite E in HJ', Hs. cbn [fst] in *. unfold requester_reads. by rewrite Hs.
Qed.
End requester.

(** What comes by a leg, or is a retransmission. *)
Definition came (W Q : list byte -> Prop) (p : list byte) : Prop := W p \/ Q p.

(** Data packets of [W] number their blocks below the top of [u64], with the room [n] legs need. *)
Definition numbered (n : Z) (W : list byte -> Prop) : Prop := forall p, W p -> in_range_by (headroom n) p.

Section legs.
Context {T F : Type} `{DatagramRecv T F, AsRef F} {R : Type} `{Recovery R}.
Context (W : list byte -> Prop) (J : T -> Prop) (rec_ok : R -> Prop) (Q : list byte -> Prop).
Hypothesis leg_emits : emits any_room recv_burst J W.
Hypothesis rec_emits : requester_emits rec_ok Q.

Lemma came_sources n : numbered n (came W Q) -> sources_emit (came W Q) J rec_ok (headroom n).
Proof using leg_emits rec_emits.
  intros HW. destruct rec_emits as [Hp Hsd]. split_and!; [exact HW|..|exact Hsd].
  - intros fuel s b out s' b' Ht Hfb E. destruct (leg_emits _ _ _ _ _ _ Ht I E) as (Hn & Ht' & new & Hf & Hn').
    split_and!; [done|done|]. rewrite Hf. apply Forall_app. split; [done|]. eapply Forall_impl; [exact Hn'|]. intros f. by left.
  - intros fuel q out copies q' Hq' E. destruct (Hp _ _ _ _ _ Hq' E) as (Hn & Hok & Hall). split_and!; [done|done|].
    eapply Forall_impl; [exact Hall|]. intros f. by right.
Qed.

Lemma legs_served call cfg (ts : list T) r clk outs i' :
  keeps_over (came W Q) J rec_ok ts call ->
  numbered (len ts) (came W Q) -> Forall J ts -> ran J rec_ok call cfg ts r clk outs i' -> clean ts outs ->
  Forall (out_ok (came W Q) (Receiver.session i')) outs.
Proof using leg_emits rec_emits.
  intros Hk HW HJ Hc Hcl. eapply ran_sound; [by apply came_sources|exact Hk|exact HJ|exact Hc|exact Hcl].
Qed.
End legs.

Section decapsulating.
Context {S F : Type} `{L2RecvOk S F, !AsRef F} {R : Type} `{Recovery R}.
Context (W : list byte -> Prop) (J : S -> Prop) (rec_ok : R -> Prop) (Q : list byte -> Prop).
(** A port and perhaps an address for each leg. *)
Context (filters : list (Z * option (list byte))).
Hypothesis J_wf : forall s, J s -> bc_wf l2_contract s.
Hypothesis source_emits : emits some_room l2_recv_burst J W.
Hypothesis rec_emits : requester_emits rec_ok Q.

Definition decap_any (d : UdpDecap S F) : Prop := exists f, f ∈ filters /\ decap_on J W f.1 f.2 d.
Definition carried_any (p : list byte) : Prop := exists f, f ∈ filters /\ carried W f.1 f.2 p.

Lemma decap_any_emits : emits any_room (recv_burst (T := UdpDecap S F) (F := DecapFrame F)) decap_any carried_any.
Proof using J_wf source_emits.
  intros fuel d out r d' out' (f & Hf & Hd) Hs E.
  destruct (decap_emits J W J_wf source_emits f.1 f.2 _ _ _ _ _ _ Hd Hs E) as (Hn & Hd' & new & Hnew & Hc).
  split_and!; [done|by exists f|]. exists new. split; [done|]. eapply Forall_impl; [exact Hc|]. intros g Hg. by exists f.
Qed.

Lemma decap_served cfg ts r clk outs i' :
  numbered (len ts) (came carried_any Q) -> Forall decap_any ts -> ran decap_any rec_ok polls cfg ts r clk outs i' -> clean ts outs ->
  Forall (out_ok (came carried_any Q) (Receiver.session i')) outs.
Proof using J_wf source_emits rec_emits. apply legs_served; [by apply decap_any_emits|exact rec_emits|apply polls_keep_over]. Qed.

(** A new decapsulator over a sound source. *)
Lemma decap_new_any s f burst : J s -> 0 < burst -> f ∈ filters -> decap_any (Decap.new s f.1 f.2 burst).
Proof using. intros HJ Hb Hf. exists f. split; [done|]. by split_and!. Qed.
End decapsulating.

(** The legs over [taps]: a source each, with its filter. *)
Definition decap_legs {S F X} (source : X -> S) (burst : Z) (taps : list (X * (Z * option (list byte)))) : list (UdpDecap S F) :=
  (fun t => Decap.new (source t.1) t.2.1 t.2.2 burst) <$> taps.

Lemma decap_legs_any {S F X} `{L2RecvOk S F, !AsRef F} (source : X -> S) W (J : S -> Prop) burst taps :
  Forall (fun t => J (source t.1)) taps -> 0 < burst ->
  Forall (decap_any (F := F) W J taps.*2) (decap_legs source burst taps).
Proof.
  intros HJ Hb. apply Forall_fmap, Forall_forall. intros t Ht. apply decap_new_any; [|done|by apply list_elem_of_fmap_2].
  by apply (proj1 (Forall_forall _ _) HJ).
Qed.

(** ** Worked example *)

Lemma decapsulated_parse port dip fr p :
  decapsulated port dip fr p -> exists rng pe, parse_udp fr port dip = Ok (rng, pe) /\ get_range rng.1 rng.2 fr = Some p.
Proof. intros (r & Hw & Ha & -> & <-). destruct (parse_udp_encode r port dip Hw Ha) as [E Hg]. by eexists _, _. Qed.

Definition feed_check (port : Z) (dip : option (list byte)) (fr : list byte) : bool :=
  match parse_udp fr port dip with
  | Ok (rng, _) => match get_range rng.1 rng.2 fr with Some p => demo_safe.small p | None => true end
  | _ => true
  end.

Lemma feed_check_ok port dip fr p room :
  0 <= room <= CAP -> feed_check port dip fr = true -> decapsulated port dip fr p -> in_range_by room p.
Proof.
  intros Hr Hf Hp. apply decapsulated_parse in Hp as (rng & pe & E & Hg). unfold feed_check in Hf. rewrite E, Hg in Hf.
  by apply demo_safe.small_range.
Qed.

(** Two legs on a port each, with some of the other's frames and a stray one among their own: the
    first leg misses message 8, the second carries it late. *)
Definition demo_taps : list (Scripted * (Z * option (list byte))) :=
  [(demo.leg [[demo_frame 1 []; demo_frame 30001 (demo.packet 7 [70])]; [demo_frame 30001 (demo.packet 9 [90])]], (30001, None));
   (demo.leg [[demo_frame 30002 (demo.packet 7 [70])]; []; [demo_frame 30001 (demo.packet 9 [90]); demo_frame 30002 (demo.packet 8 [80])]], (30002, None))].

(** The wire: those frames and no others. *)
Definition demo_frames : list (list byte) := concat (concat (bursts <$> demo_taps.*1)).
Definition demo_wire (fr : list byte) : Prop := fr ∈ demo_frames.

Definition on_wire (t : Scripted) : Prop := Forall (Forall demo_wire) (bursts t).

Lemma demo_numbered : numbered 2 (came (carried_any demo_wire demo_taps.*2) (fun _ => False)).
Proof.
  assert (Ha : forallb (fun f => forallb (feed_check f.1 f.2) demo_frames) demo_taps.*2 = true) by (vm_compute; reflexivity).
  rewrite forallb_forall in Ha. intros p [(f & Hf%list_elem_of_In%Ha & fr & Hfr & Hp)|[]]. rewrite forallb_forall in Hf.
  eapply feed_check_ok; [apply headroom_range|apply Hf; by apply list_elem_of_In|exact Hp].
Qed.

Lemma demo_on_wire : Forall (fun t => on_wire t.1) demo_taps.
Proof.
  apply Forall_forall. intros t Ht. apply Forall_forall. intros l Hl. apply Forall_forall. intros fr Hf.
  unfold demo_wire, demo_frames. apply list_elem_of_In, in_concat. exists l. split; [|by apply list_elem_of_In].
  apply in_concat. exists (bursts t.1). split; [|by apply list_elem_of_In]. apply list_elem_of_In, list_elem_of_fmap_2, list_elem_of_fmap_2, Ht.
Qed.

Lemma demo_emits : emits (A := Z) some_room (l2_recv_burst (T := Scripted)) on_wire demo_wire.
Proof.
  intros fuel t b out t' b' Hl _ E. simpl in E. unfold scripted_recv, on_wire in *.
  destruct (bursts t) as [|x rest] eqn:Eb; simplify_eq; [split_and!; [done|by rewrite Eb|]; exists []; by rewrite app_nil_r|].
  apply Forall_cons in Hl as [Hx Hrest]. split_and!; [done|..].
  - cbn [bursts]. pose proof (Forall_drop demo_wire (Z.to_nat (spare b)) x Hx) as Hd. destruct (drop _ x); [done|by constructor].
  - eexists. split; [done|]. by apply Forall_take.
Qed.

(** Facts of a run over legs of any kind, checked by evaluation. *)
Lemma run_checked {T F} `{DatagramRecv T F, AsRef F} cfg (ls : list T) n
    (check : list (res MoldUdpError (option (MoldUdpOutcome F))) -> bool) :
  match from_legs cfg ls with
  | Ok i => match run_polls n 20 (i, NoRecovery, demo.clock) with Some (outs, _) => check outs | None => false end
  | _ => false
  end = true ->
  exists i outs i' r' c', from_legs cfg ls = Ok i /\ polled (i, NoRecovery, demo.clock) outs (i', r', c') /\ check outs = true.
Proof.
  destruct (from_legs cfg ls) as [i| |]; [|done..].
  destruct (run_polls n 20 (i, NoRecovery, demo.clock)) as [[outs [[i' r'] c']]|] eqn:E; [|done].
  intros Hc. exists i, outs, i', r', c'. split_and!; [done|by eapply run_polls_polled|done].
Qed.

(** ** Properties *)

(** C4: Polls of a receiver whose legs decapsulate Ethernet frames, whatever comes and goes between
    them: on one leg always, on several as long as no poll reported a full reassembly ring ([clean]),
    no poll panics, and every message handed out is the block its sequence number names in a
    datagram of the locked session that one of the frames off the wire, unfragmented IPv4/UDP,
    carried to the port and address of a leg, or that the requester read. The sources keep their
    contracts, and the datagrams' sequence numbers stay below the top of [u64] ([numbered]). Past an
    overflow on several legs a poll may panic ([overflow_ab_panics]). *)
Theorem decap_legs_authentic {S F X} `{L2RecvOk S F, !AsRef F} {R} `{Recovery R} (source : X -> S) (W : list byte -> Prop)
    (J : S -> Prop) (rec_ok : R -> Prop) Q burst taps cfg r clk outs i' :
  (forall s, J s -> bc_wf l2_contract s) -> emits some_room l2_recv_burst J W -> requester_emits rec_ok Q ->
  numbered (len taps) (came (carried_any W taps.*2) Q) -> Forall (fun t => J (source t.1)) taps -> 0 < burst ->
  ran (decap_any W J taps.*2) rec_ok polls cfg (decap_legs source burst taps) r clk outs i' ->
  clean (decap_legs (F := F) source burst taps) outs ->
  Forall (out_ok (came (carried_any W taps.*2) Q) (Receiver.session i')) outs.
Proof.
  intros Hw He Hq HW HJ Hb. apply decap_served; [done..| |by apply decap_legs_any].
  unfold decap_legs, len in *. by rewrite length_fmap.
Qed.

Lemma decap_legs_authentic_witness :
  exists i outs i' r' c', from_legs (demo.cfg (Some 7)) (decap_legs id 8 demo_taps) = Ok i /\
    polled (i, NoRecovery, demo.clock) outs (i', r', c') /\ frame_seqs outs = [7; 8; 9] /\
    Forall (out_ok (came (carried_any demo_wire demo_taps.*2) (fun _ => False)) (Receiver.session i')) outs.
Proof.
  destruct (run_checked (demo.cfg (Some 7)) (decap_legs (F := list byte) id 8 demo_taps) 8
    (fun outs => bool_decide (frame_seqs outs = [7; 8; 9]) && no_full outs)) as (i & outs & i' & r' & c' & Hi & Hp & Hc); [vm_compute; reflexivity|].
  apply andb_true_iff in Hc as [Hc Hn]. apply bool_decide_eq_true in Hc. exists i, outs, i', r', c'. split_and!; [done..|].
  apply (decap_legs_authentic id demo_wire on_wire (fun _ => True) (fun _ => False) 8 demo_taps (demo.cfg (Some 7)) NoRecovery demo.clock outs i');
    [done|exact demo_emits|exact (no_recovery_emits _)|exact demo_numbered|exact demo_on_wire|lia| |right; by apply no_full_outs].
  split; [intros q [= <-]; by vm_compute|]. split; [done|]. exists i, r', c'. split; [exact Hi|by apply polled_served].
Defined.
