(* ===== verification/BackendFeeds.v ===== *)
(** * What the receiver hands out, backend by backend

    [Feeds] asks of a leg that whatever it delivers comes off some wire [W]. Here the wires of
    the four backends: the datagrams a socket's kernel still has, the byte ranges of the slots
    of a driver's memory (io_uring, AF_XDP), the bursts of a DPDK port. On any number of legs of
    each backend the receiver then hands out blocks of what was on its wire and nothing else. *)

From S2P Require Import Prelude TransportCore Pools Bypass FrameMemory Decap.
From S2P Require Import MoldWire Reassembly Gap Arbiter Receiver ReceiverOrder ReceiverSafety Feeds.
From S2P Require AfxdpRing Afxdp Dpdk UringParts UringKernel Uring UringSafety Socket SocketSafety.
From Stdlib Require Import ZArith Lia.
From stdpp Require Import prelude list.

Open Scope Z_scope.
Open Scope res_scope.

Import FrameBatch (frames, cap, spare).
Import IndexPool (IndexFrame, frame_as_ref, frame_in_bounds, shape).

(** ** Sockets *)

#[local] Existing Instances Socket.UdpSocket_recv Socket.UdpFrame_as_ref SocketSafety.UdpSocket_ok SocketSafety.Script_sys SocketSafety.Script_ok.

Section socket.
Context {S : Type} `{SocketSafety.UdpSysOk S} (W : list byte -> Prop).

(** A sound socket on which only datagrams of [W] are still to come. *)
Definition socket_feed (u : Socket.UdpSocket S) : Prop :=
  SocketSafety.udp_sound u /\ Forall (fun d => W d.1) (Socket.us_view SocketSafety.udp_laws (Socket.sock u)).

Lemma socket_emits : emits any_room (recv_burst (T := Socket.UdpSocket S) (F := Socket.UdpFrame)) socket_feed W.
Proof.
  intros fuel u out r u' out' [(size & live & Hs & Hw) Hv] _ E. set (n := length (Socket.us_view SocketSafety.udp_laws (Socket.sock u))).
  apply (SocketSafety.burst_more _ (fuel + Datatypes.S n)) in E; [|lia].
  destruct (Socket.burst_reports SocketSafety.udp_laws size Hs (fuel + Datatypes.S n) u out live Hw)
    as (r2 & u2 & o2 & ds & new & E2 & B & Hr); [lia|].
  rewrite E2 in E. simplify_eq. destruct B as [B1 B2 B3 _ B5 _ _]. rewrite B2, Forall_app in Hv. destruct Hv as [Hds Hv].
  split_and!; [by destruct r|by split; [exists size, (live ++ new)|]|]. exists new. split; [done|].
  apply Forall_forall. intros f Hf.
  assert (Hin : Socket.read f ∈ Socket.delivered size ds) by (rewrite <- B5; by apply list_elem_of_fmap_2).
  unfold Socket.delivered in Hin. apply list_elem_of_fmap in Hin as (d & Heq & [_ Hd]%list_elem_of_filter).
  assert (as_ref f = d.1) as -> by (unfold Socket.read in Heq; by simplify_eq).
  rewrite Forall_forall in Hds. by apply Hds.
Qed.
End socket.

(** ** Drivers that own their memory *)

Section memory.
Context {D : Type} (pool_of : D -> IndexPool.t) (poll : nat -> D -> FrameBatch.t IndexFrame -> option (poll_result D IndexFrame)).
Context (owns : D -> list IndexFrame -> Prop) (room : Z -> Prop) (W : list byte -> Prop).
Hypothesis owns_bounds : forall d live, owns d live -> Forall (frame_in_bounds (pool_of d)) live.
Hypothesis polled : forall fuel d live out r d' out',
  owns d live -> room (spare out) -> poll fuel d out = Some (r, d', out') ->
  r <> Panic /\ shape (pool_of d') = shape (pool_of d) /\
  exists new, frames out' = frames out ++ new /\ owns d' (live ++ new).

(** Every byte range inside a slot is on the wire. *)
Definition slots_hold (p : IndexPool.t) : Prop := forall f, frame_in_bounds p f -> W (frame_as_ref p f).

Definition memory_feed (d : D) : Prop := (exists live, owns d live) /\ slots_hold (pool_of d).

Lemma slots_hold_shape p p' : shape p' = shape p -> slots_hold p -> slots_hold p'.
Proof using.
  intros [= Er Es Ec] Hp f Hf. unfold frame_as_ref, frame_in_bounds in *. rewrite Er, Es. rewrite Ec, Es in Hf. by apply Hp.
Qed.

Lemma memory_emits : emits (A := Polled) room (snap_poll pool_of poll) memory_feed W.
Proof using owns_bounds polled.
  intros fuel d out r d' out' [[live I] Hm] Hs E. unfold snap_poll in E.
  destruct (poll _ _ _) as [[[r1 d1] o1]|] eqn:Ep; [|done].
  assert (Hs1 : room (spare (FrameBatch.Batch (frames out).*1 (cap out)))) by (unfold spare, len in *; cbn [frames cap]; by rewrite length_fmap).
  destruct (polled _ _ _ _ _ _ _ I Hs1 Ep) as (Hn & Hsh & new & Hf & I').
  pose proof (slots_hold_shape _ _ Hsh Hm) as Hm'. injection E as <- <- <-. split_and!; [done|by split; [eexists|]|]. eexists. split; [done|].
  cbn [frames] in Hf. rewrite Hf, drop_app_length' by (by rewrite length_fmap).
  apply owns_bounds, Forall_app in I' as [_ Hb]. apply Forall_fmap. eapply Forall_impl; [exact Hb|]. intros f. apply Hm'.
Qed.
End memory.

(** ** io_uring *)

#[local] Existing Instance Uring.Uring_driver.

Section uring.
Context {U : Type} `{UringKernel.IoUring U, UringParts.CqFlags} (size : Z) (ms : bool) (C : UringKernel.ring_contract U ms).
Context (W : list byte -> Prop).

#[local] Instance uring_copies : Driver (Uring.UringDriver U) (IndexFrame * list byte) := copied Uring.pool.

Definition uring_feed : Uring.UringDriver U -> Prop :=
  memory_feed Uring.pool (fun d live => UringSafety.uring_wf size ms C d live []) W.

Lemma uring_emits : emits (A := Polled) any_room (poll_frames (D := Uring.UringDriver U)) uring_feed W.
Proof using.
  apply memory_emits; [intros d live I; apply I|].
  intros fuel d live out r d' out' I _ E.
  destruct (UringSafety.uring_poll_spec size ms C fuel d live out I) as (r1 & d1 & out1 & done_ & rest & E1 & Q & Hend).
  cbn in E. rewrite E in E1. simplify_eq. split_and!; [by destruct r1|apply Q|]. eexists. split; apply Q.
Qed.
End uring.

(** ** AF_XDP *)

#[local] Existing Instance Afxdp.Xsk_driver.

Section xsk.
Context {K : Type} `{Afxdp.XskKernel K} (e size : Z) (He : 0 <= e <= 31) (Hsize : 0 < size < W32).
Context (C : Afxdp.kernel_contract K e size) (W : list byte -> Prop).

#[local] Instance xsk_copies : Driver (Afxdp.XskDriver K) (IndexFrame * list byte) := copied Afxdp.xpool.
#[local] Instance xsk_ok : DriverOk (Afxdp.XskDriver K) (IndexFrame * list byte) :=
  snap_contract Afxdp.xpool Afxdp.xsk_poll (Afxdp.xsk_contract e size He Hsize C).

Definition xsk_feed : Afxdp.XskDriver K -> Prop := memory_feed Afxdp.xpool (Afxdp.xsk_wf e size C) W.

Lemma xsk_emits : emits (A := Polled) some_room (poll_frames (D := Afxdp.XskDriver K)) xsk_feed W.
Proof using He Hsize.
  apply memory_emits; [intros d live I; apply I|]. intros fuel d live out r d' out' I Hs E.
  destruct (Afxdp.xsk_poll_spec e size He Hsize C _ _ _ _ _ _ _ I Hs E) as (pub & ds & P & Hr). split_and!; [by destruct r| |].
  - destruct (Afxdp.i_pool _ _ _ _ _ _ _ _ _ _ I) as (_ & Hc & Ht).
    destruct (Afxdp.i_pool _ _ _ _ _ _ _ _ _ _ (Afxdp.p_wf _ _ _ _ _ _ _ _ _ _ P)) as (_ & Hc' & Ht').
    unfold shape. by rewrite (Afxdp.p_region _ _ _ _ _ _ _ _ _ _ P), Hc, Hc', Ht, Ht'.
  - eexists. split; apply P.
Qed.
End xsk.

(** ** DPDK *)

#[local] Existing Instances Dpdk.Dpdk_driver Dpdk.MbufFrame_as_ref.

Section dpdk.
Context {P : Type} `{Dpdk.Pmd P} (C : Dpdk.pmd_contract P) (W : list byte -> Prop).

(** A port whose bursts bring frames of [W] in single-segment mbufs. *)
Record port_feed (Jp : P -> Prop) : Prop := {
  pf_burst : forall p w got p', Jp p -> Dpdk.rx_burst p w = (got, p') ->
    Jp p' /\ Forall (fun f => W (as_ref f)) (Dpdk.whole got);
  pf_bulk : forall p l, Jp p -> Jp (Dpdk.free_bulk p l);
}.

#[local] Instance dpdk_ok : DriverOk (Dpdk.PmdDriver P) Dpdk.MbufFrame := Dpdk.dpdk_contract C.

Definition dpdk_feed (Jp : P -> Prop) (d : Dpdk.PmdDriver P) : Prop := Dpdk.pmd_wf d /\ Jp (Dpdk.pmd d).

Lemma one_burst_feed Jp request d rs d' :
  port_feed Jp -> Jp (Dpdk.pmd d) -> Dpdk.one_burst request (Dpdk.pmd d) rs (Dpdk.pmd d') ->
  Jp (Dpdk.pmd d') /\ Forall (fun f => W (as_ref f)) (Dpdk.whole rs).
Proof using.
  intros [Hb Hk] HJ (p & E & Hp). destruct (Hb _ _ _ _ HJ E) as [HJp Hw]. split; [|done].
  rewrite Hp. destruct (decide _); [done|by apply Hk].
Qed.

Lemma pmd_loop_feed Jp request fuel d out r d' out' :
  port_feed Jp -> dpdk_feed Jp d -> 0 <= request <= Dpdk.burst d ->
  iterate (Dpdk.poll_round request) fuel (d, out) = Some (r, d', out') ->
  r <> Panic /\ dpdk_feed Jp d' /\ exists new, frames out' = frames out ++ new /\ Forall (fun f => W (as_ref f)) new.
Proof using C.
  intros HJ. revert d out. induction fuel as [|fuel IH]; intros d out [Hw Hd] Hr E; [done|]. cbn [iterate] in E.
  destruct (Dpdk.pmd_round_spec C request d out Hw Hr) as (d1 & o1 & rs & P1 & _ & Ho & Er). rewrite Er in E. clear Er.
  destruct (one_burst_feed _ _ _ _ _ HJ Hd Ho) as [Hd1 Hf1].
  pose proof (Dpdk.m_wf _ _ _ _ _ _ P1) as Hw1. pose proof (Dpdk.m_frames _ _ _ _ _ _ P1) as Hm1.
  destruct (decide (rs = [])); [simplify_eq; split_and!; [done|done|by eexists]|].
  destruct (_ >? 0); [simplify_eq; split_and!; [done|done|by eexists]|].
  rewrite <- (Dpdk.m_same _ _ _ _ _ _ P1) in Hr.
  destruct (IH d1 o1 (conj Hw1 Hd1) Hr E) as (Hn & Hd' & new & Hf & Hall). split_and!; [done|done|].
  exists (Dpdk.whole rs ++ new). rewrite Hf, Hm1, app_assoc. split; [done|by apply Forall_app].
Qed.

Lemma dpdk_emits Jp : port_feed Jp -> emits (A := Polled) some_room (poll_frames (D := Dpdk.PmdDriver P)) (dpdk_feed Jp) W.
Proof using C.
  intros HJ fuel d out r d' out' Hd Hs E. destruct (Dpdk.want_bounds d out (proj1 Hd) Hs) as [Hwt _].
  eapply pmd_loop_feed; [exact HJ|exact Hd| |exact E]. lia.
Qed.
End dpdk.

(** ** The receiver on each backend *)

Section receiver.
Context {R : Type} `{Recovery R} (rec_ok : R -> Prop) (Q : list byte -> Prop) (rec_emits : requester_emits rec_ok Q).

(** Whatever happens between its calls to leave the legs in [J], a call of the kind on [ts] does not
    panic and hands out blocks of what is on [W], or was retransmitted, under their numbers. *)
Definition faithful {T F} `{DatagramRecv T F, AsRef F} (call : call_kind (T := T) (F := F) (R := R)) (ts : list T) (J : T -> Prop) (W : list byte -> Prop) : Prop :=
  forall cfg r clk outs (i' : Inner T F),
  ran J rec_ok call cfg ts r clk outs i' -> clean ts outs -> Forall (out_ok (came W Q) (Receiver.session i')) outs.

(** Decapsulating legs over drivers that a shell wraps. *)
Lemma decap_faithful {D F} `{Driver D F, !DriverOk D F, !AsRef F} (J : D -> Prop) W burst (taps : list (D * (Z * option (list byte)))) :
  (forall d, J d -> dc_wf the_driver_contract d) -> emits (A := Polled) some_room poll_frames J W ->
  (forall d, J d -> J (driver (Bypass.new (L := L2) (F := F) d))) ->
  numbered (len taps) (came (carried_any W taps.*2) Q) -> Forall (fun t => J t.1) taps -> 0 < burst ->
  faithful (F := DecapFrame F) polls (decap_legs (Bypass.new (L := L2) (F := F)) burst taps)
    (decap_any (F := F) W (fun b => J (driver b)) taps.*2) (carried_any W taps.*2).
Proof using rec_emits.
  intros Hwf He Hnew HW HJ Hb cfg r clk outs i' Hc Hcl.
  eapply (decap_served (F := F) W (fun b => J (driver b)) rec_ok Q taps.*2);
    [intros b Hb'; exact (Hwf _ Hb')|apply (shell_emits (L := L2)), He|exact rec_emits| |apply decap_legs_any; [|exact Hb]|exact Hc|exact Hcl].
  - unfold decap_legs, len in *. by rewrite length_fmap.
  - eapply Forall_impl; [exact HJ|]. intros t. apply Hnew.
Qed.

Theorem mold_faithful_on_uring {U} `{UringKernel.IoUring U, UringParts.CqFlags} size ms (C : UringKernel.ring_contract U ms) W ds :
  numbered (len ds) (came W Q) -> Forall (uring_feed size ms C W) ds ->
  let _ := copied Uring.pool in
  faithful (F := IndexFrame * list byte) polls (Bypass.new (L := L4) (F := IndexFrame * list byte) <$> ds)
    (fun b => uring_feed size ms C W (driver b)) W.
Proof using rec_emits.
  intros HW Hd inst cfg r clk outs i' Hc Hcl.
  eapply (legs_served (F := IndexFrame * list byte)); [apply (shell_emits (L := L4)), uring_emits|exact rec_emits|apply polls_keep_over| | |exact Hc|exact Hcl].
  - unfold len in *. by rewrite length_fmap.
  - by apply Forall_fmap.
Qed.

Theorem mold_faithful_on_afxdp {K} `{Afxdp.XskKernel K} e size (He : 0 <= e <= 31) (Hsize : 0 < size < W32)
    (C : Afxdp.kernel_contract K e size) W burst taps :
  numbered (len taps) (came (carried_any W taps.*2) Q) -> Forall (fun t => xsk_feed e size C W t.1) taps -> 0 < burst ->
  let _ := copied Afxdp.xpool in
  faithful (F := DecapFrame (IndexFrame * list byte)) polls (decap_legs (Bypass.new (L := L2) (F := IndexFrame * list byte)) burst taps)
    (decap_any (F := IndexFrame * list byte) W (fun b => xsk_feed e size C W (driver b)) taps.*2) (carried_any W taps.*2).
Proof using rec_emits.
  intros HW Hd Hb inst.
  pose (ok := snap_contract Afxdp.xpool Afxdp.xsk_poll (Afxdp.xsk_contract e size He Hsize C) : DriverOk (Afxdp.XskDriver K) (IndexFrame * list byte)).
  apply decap_faithful; [intros d [Hw _]; exact Hw|apply (xsk_emits e size He Hsize)| |exact HW|exact Hd|exact Hb].
  intros d [[live I] Hh]. pose proof (Afxdp.stats_wf e size C d live I) as I'.
  assert (Hp : Afxdp.xpool (Afxdp.xsk_stats d).2 = Afxdp.xpool d) by (unfold Afxdp.xsk_stats, Afxdp.kernel_drops; by destruct (Afxdp.statistics _) as [[]|]).
  unfold Bypass.new. cbn. destruct (Afxdp.xsk_stats d) as [s d']. split; [by exists live|]. cbn in *. by rewrite Hp.
Qed.

Theorem mold_faithful_on_dpdk {P} `{Dpdk.Pmd P} (C : Dpdk.pmd_contract P) W (Jp : P -> Prop) burst taps :
  numbered (len taps) (came (carried_any W taps.*2) Q) -> port_feed W Jp -> Forall (fun t => dpdk_feed Jp t.1) taps -> 0 < burst ->
  faithful (F := DecapFrame Dpdk.MbufFrame) polls (decap_legs (Bypass.new (L := L2) (F := Dpdk.MbufFrame)) burst taps)
    (decap_any (F := Dpdk.MbufFrame) W (fun b => dpdk_feed Jp (driver b)) taps.*2) (carried_any W taps.*2).
Proof using rec_emits.
  intros HW HJ Hd Hb. pose (ok := Dpdk.dpdk_contract C : DriverOk (Dpdk.PmdDriver P) Dpdk.MbufFrame).
  apply decap_faithful; [intros d [Hw _]; exact Hw|apply (dpdk_emits C); exact HJ| |exact HW|exact Hd|exact Hb].
  intros d Hf. unfold Bypass.new. cbn. destruct (Dpdk.dpdk_stats d) as [s d'] eqn:E. unfold Dpdk.dpdk_stats in E.
  destruct (default _ _) as [m n]. by simplify_eq.
Qed.

Theorem mold_faithful_on_sockets {S} `{SocketSafety.UdpSysOk S} W (us : list (Socket.UdpSocket S)) :
  numbered (len us) (came W Q) -> Forall (socket_feed W) us -> faithful (F := Socket.UdpFrame) polls us (socket_feed W) W.
Proof using rec_emits.
  intros HW Hu cfg r clk outs i' Hc Hcl.
  by eapply (legs_served (F := Socket.UdpFrame)); [apply socket_emits|exact rec_emits|apply polls_keep_over|..].
Qed.
End receiver.

(** ** Worked example: a socket with three datagrams, a failed read among them *)

Definition demo_datagrams : list (list byte) := [demo.packet 7 [70]; demo.packet 9 [90]; demo.packet 8 [80]].

Definition demo_items : list (res io_Error (list byte * option SocketAddr)) :=
  Err {| kind := Other; raw_os_error := Some 9 |} :: ((fun d => Ok (d, None)) <$> demo_datagrams).

Definition demo_leg : res TransportError (Socket.UdpSocket SocketSafety.Script) :=
  let* p := VecPool.new (fun _ => true) 5000 32 in
  Ok (Socket.Udp {| SocketSafety.items := demo_items |} p None).

Lemma demo_leg_feed u : demo_leg = Ok u -> socket_feed (.∈ demo_datagrams) u.
Proof.
  unfold demo_leg. destruct (VecPool.new (fun _ => true) 5000 32) as [p|e|] eqn:Ep; [|done..].
  intros E. injection E as <-. split.
  - exists 32, []. split; [done|]. by apply (VecPool.vec_new_wf (fun _ => true) 5000 32).
  - cbn. repeat constructor; cbn; set_solver.
Qed.

Lemma demo_datagrams_numbered n : numbered n (came (.∈ demo_datagrams) (fun _ => False)).
Proof.
  assert (Hall : forallb demo_safe.small demo_datagrams = true) by (vm_compute; reflexivity).
  rewrite forallb_forall in Hall. intros p [Hp%list_elem_of_In|[]]. apply demo_safe.small_range; [apply headroom_range|by apply Hall].
Qed.

Definition in_order {F} (outs : list (res MoldUdpError (option (MoldUdpOutcome F)))) : bool :=
  bool_decide (frame_seqs outs = [7; 8; 9]).

Lemma demo_leg_runs :
  match demo_leg with
  | Ok u => match from_legs (demo.cfg (Some 7)) [u] with
            | Ok i => match run_polls 8 20 (i, NoRecovery, demo.clock) with Some (outs, _) => in_order outs | None => false end
            | _ => false
            end
  | _ => false
  end = true.
Proof. vm_compute. reflexivity. Qed.

Example demo_socket_run :
  exists u i outs i' r' c', demo_leg = Ok u /\ from_legs (demo.cfg (Some 7)) [u] = Ok i /\
    polled (i, NoRecovery, demo.clock) outs (i', r', c') /\ frame_seqs outs = [7; 8; 9] /\
    Forall (out_ok (came (.∈ demo_datagrams) (fun _ => False)) (Receiver.session i')) outs.
Proof.
  pose proof demo_leg_runs as Hr. destruct demo_leg as [u|e|] eqn:Eu; [|done..]. exists u.
  destruct (run_checked (F := Socket.UdpFrame) _ _ _ in_order Hr) as (i & outs & i' & r' & c' & Hi & Hp & Hc).
  apply bool_decide_eq_true in Hc. exists i, outs, i', r', c'. split_and!; [done..|].
  apply (mold_faithful_on_sockets (fun _ => True) (fun _ => False) (no_recovery_emits _) (.∈ demo_datagrams) [u]
    (demo_datagrams_numbered _) (Forall_cons_2 _ _ _ (demo_leg_feed _ Eu) (Forall_nil_2 _)) (demo.cfg (Some 7)) NoRecovery demo.clock);
    [|by left]. split; [intros q [= <-]; by vm_compute|]. split; [done|]. exists i, r', c'. split; [exact Hi|by apply polled_served].
Qed.
