(* ===== verification/MoldTokio.v ===== *)
(** * The MoldUDP receiver under tokio

    Legs and a re-request socket that are all tokio's [AsyncUdp]: every call, [recv] and
    [recv_owned] included, returns or parks only on sources found empty, no call panics, and every
    message handed out is a block of a datagram that a socket really received. All that is asked
    of the system is stated by [UdpSysOk] and [UdpAsyncOk]. *)

From S2P Require Import Prelude TransportCore Trace Pools.
From S2P Require Import MoldWire Reassembly Gap Arbiter Receiver ReceiverOrder ReceiverSafety ReceiverLive MoldWait MoldSafety Feeds BackendFeeds.
From S2P Require Import Socket SocketSafety SocketRuntimes.
From Stdlib Require Import ZArith Lia.
From stdpp Require Import prelude list.

Open Scope Z_scope.
Open Scope res_scope.

Import FrameBatch (frames, cap, spare).

(** Waiting and sending take nothing off a socket. *)
Class UdpAsyncOk (S : Type) `{UdpSysOk S, Readable S} := {
  udp_stale : S -> nat;
  udp_readiness : readiness_laws (S := S) peek_ready (us_view udp_laws) udp_stale;
  udp_send_view : forall s bytes to r s', sys_send_to s bytes to = (r, s') -> us_view udp_laws s' = us_view udp_laws s;
}.

Section tokio.
Context {S : Type} `{UdpAsyncOk S}.
Implicit Types (a : AsyncUdp S).

Abbreviation tokio_contract := (datagram_contract (T := AsyncUdp S) (F := UdpFrame)).

#[export] Instance AsyncUdp_ready : AsyncReady (AsyncUdp S) := fun a =>
  default (None, a) (udp_ready (Datatypes.S (udp_stale (a_sock a))) a).

(** Only the system's side of a socket moves, and what it will deliver does not. *)
Definition same_feed a a' : Prop :=
  a_pool a' = a_pool a /\ a_deferred a' = a_deferred a /\ us_view udp_laws (a_sock a') = us_view udp_laws (a_sock a).

Lemma ready_same a : same_feed a (poll_ready a).2 /\ (poll_ready a).1 <> Some Panic.
Proof.
  unfold poll_ready, AsyncUdp_ready, udp_ready.
  destruct (ready_total peek_ready (us_view udp_laws) udp_stale udp_readiness (a_sock a)) as (r & s' & -> & Hv & Hp). done.
Qed.

Lemma send_same a bytes to : same_feed a (send_to a bytes to).2.
Proof.
  unfold send_to, AsyncUdp_send. destruct (sys_send_to (a_sock a) bytes to) as [r s'] eqn:E. split_and!; [done|done|].
  cbn. by eapply udp_send_view.
Qed.

Lemma same_sound a a' : same_feed a a' -> bc_wf tokio_contract a -> bc_wf tokio_contract a'.
Proof. intros (Hp & _ & _) (size & live & Hs & Hw). exists size, live. split; [done|]. unfold udp_wf in *. cbn in *. by rewrite Hp. Qed.

Lemma same_backlog a a' : same_feed a a' -> bc_backlog tokio_contract a' = bc_backlog tokio_contract a.
Proof. intros (_ & _ & Hv). cbn. by rewrite Hv. Qed.

(** *** Returning *)

#[export] Instance tokio_requester_ok : RecoveryOk (Requester (AsyncUdp S) UdpFrame) :=
  Requester_ok (fun a bytes to Ha => same_sound _ _ (send_same a bytes to) Ha).

#[export] Instance tokio_ready_ok : ReadyOk (T := AsyncUdp S) (F := UdpFrame) (R := Requester (AsyncUdp S) UdpFrame).
Proof.
  split.
  - intros a Ha. destruct (ready_same a) as [Hs Hn]. split_and!; [by eapply same_sound|by rewrite (same_backlog _ _ Hs)|done].
  - intros r (Ha & Hf & Hc). unfold recovery_ready, Requester_ready. destruct (ready_same (Receiver.sock r)) as [Hs Hn].
    destruct (poll_ready (Receiver.sock r)) as [o a']. cbn [fst snd] in *. pose proof (same_backlog _ _ Hs) as Hb. split_and!; [|cbn in Hb |- *; lia|done].
    split_and!; cbn [Receiver.sock scratch]; [by eapply same_sound|done|done].
  - intros r clk s g Ha.
    destruct (requester_send_keeps (fun a => bc_backlog tokio_contract a = bc_backlog tokio_contract (Receiver.sock r))
      (fun a bytes to Hb => eq_trans (same_backlog _ _ (send_same a bytes to)) Hb) r clk s g eq_refl) as [Hb _].
    unfold rc_backlog, tokio_requester_ok, Requester_ok. lia.
Qed.

(** Against the fuel its waiting input asks for, and any patience, a call on such a receiver returns. *)
Theorem mold_recv_on_tokio cfg (us : list (AsyncUdp S)) (i : Inner (AsyncUdp S) UdpFrame) (r : Requester (AsyncUdp S) UdpFrame) clk fuel patience :
  Forall (bc_wf tokio_contract) us -> from_legs cfg us = Ok i -> rc_wf r ->
  (waiting (retire_current i) r < fuel)%nat -> (patience < fuel)%nat ->
  is_Some (recv fuel patience i r clk) /\ is_Some (recv_owned fuel patience i r clk).
Proof.
  intros Hu Hi Hr Hw Hf. assert (Hp : pollable (retire_current i)).
  { pose proof (from_legs_pollable _ _ _ Hu Hi) as Hp. unfold retire_current, release_inline. by repeat case_match. }
  destruct (next_item_returns fuel patience _ r clk Hp Hr Hw Hf) as [x Ex].
  unfold recv, recv_owned. rewrite Ex. by split; eexists.
Qed.
(** *** What is handed out *)

(** A sound socket on which only datagrams of [W] are still to come. *)
Definition tokio_feed (W : list byte -> Prop) a : Prop := socket_feed W (async_fields a).

Lemma tokio_emits W : emits any_room (recv_burst (T := AsyncUdp S) (F := UdpFrame)) (tokio_feed W) W.
Proof.
  intros fuel a out r a' out' HJ Hr E. cbn in E. unfold async_recv_burst in E.
  destruct (burst datagram peek_ready fuel (async_fields a) out) as [[[r1 u] o1]|] eqn:Eb; [|done].
  destruct (socket_emits W fuel (async_fields a) out r1 u o1 HJ Hr Eb) as (Hn & Hu & Hnew). injection E as <- <- <-.
  split_and!; [done| |done]. unfold tokio_feed. by destruct u.
Qed.

Lemma same_fed W a a' : same_feed a a' -> tokio_feed W a -> tokio_feed W a'.
Proof. intros Hs [Hw Hv]. split; [by apply (same_sound a)|]. destruct Hs as (_ & _ & Hs). cbn in *. by rewrite Hs. Qed.

Lemma tokio_ready_keeps W Q :
  ready_keeps (T := AsyncUdp S) (R := Requester (AsyncUdp S) UdpFrame) (tokio_feed W) (requester_reads (tokio_feed Q) Q).
Proof.
  split.
  - intros a Ha. destruct (ready_same a) as [Hs Hn]. split; [by eapply same_fed|done].
  - intros r [Ha Hf]. unfold recovery_ready, Requester_ready. destruct (ready_same (Receiver.sock r)) as [Hs Hn].
    destruct (poll_ready (Receiver.sock r)) as [o a']. cbn [fst snd] in *. split; [|done]. split; [by eapply same_fed|done].
Qed.

(** A receiver whose legs receive datagrams of [W] and whose requester receives datagrams of [Q] hands
    out, by calls of every kind, blocks of those and no others, and no call panics. *)
Theorem mold_faithful_on_tokio W Q (us : list (AsyncUdp S)) :
  numbered (len us) (came W Q) -> Forall (tokio_feed W) us ->
  faithful (R := Requester (AsyncUdp S) UdpFrame) (F := UdpFrame) (requester_reads (tokio_feed Q) Q) Q any_call us (tokio_feed W) W.
Proof.
  intros HW Hu cfg r clk outs i' Hc Hcl.
  eapply (legs_served (F := UdpFrame) (R := Requester (AsyncUdp S) UdpFrame)); [apply tokio_emits| | |exact HW|exact Hu|exact Hc|exact Hcl].
  - apply requester_reads_emits; [apply tokio_emits|]. intros a bytes to Ha. eapply same_fed; [apply send_same|exact Ha].
  - apply any_call_keeps_over, tokio_ready_keeps.
Qed.
End tokio.

(** ** Worked example: a lost message, asked for and delivered in its place *)

(** The reactor reports a scripted socket while a receive would not block. *)
#[export] Instance Script_readable : Readable Script := fun s =>
  (match items s with
   | Ok _ :: _ => Some None
   | Err e :: _ => if is_would_block e then None else Some None
   | _ => None
   end, s).

#[export] Instance Script_async_ok : UdpAsyncOk Script.
Proof.
  refine {| udp_stale := fun _ => O |}.
  - split.
    + intros s r s' E. unfold sys_readable, Script_readable in E. by simplify_eq.
    + intros s r s' E. unfold peek_ready, sys_peek, Script_sys in E. by simplify_eq.
    + intros s s1 e s2 Er Ep He. unfold sys_readable, Script_readable in Er. unfold peek_ready, sys_peek, Script_sys in Ep.
      injection Er as Er <-. injection Ep as Ep <-. destruct (items s) as [|[|e'|] rest]; simplify_eq. by rewrite He in Er.
  - intros s bytes to r s' E. unfold sys_send_to, Script_sys in E. by simplify_eq.
Defined.

Definition demo_udp (ds : list (list byte)) : res TransportError (AsyncUdp Script) :=
  let* p := VecPool.new (fun _ => true) 5000 32 in
  from_socket true None (Udp {| items := (fun d => Ok (d, None)) <$> ds |} p None).

(** [recv] for [false], [recv_owned] for [true]. *)
Fixpoint demo_recvs (l : list bool) (st : Inner (AsyncUdp Script) UdpFrame * Requester (AsyncUdp Script) UdpFrame * Clock)
    (outs : list (res MoldUdpError (option (MoldUdpOutcome UdpFrame)))) :=
  match l with
  | [] => outs
  | owned :: l =>
      let '(i, r, clk) := st in
      match (if owned then recv_owned 20 3 i r clk else recv 20 3 i r clk) with
      | Some (out, i, r, clk) => demo_recvs l (i, r, clk) (outs ++ [reported out])
      | None => outs
      end
  end.

(** The leg brings 7 and 9, the requester's socket the 8 asked for in between. *)
Example demo_tokio_run :
  match demo_udp [demo.packet 7 [70]; demo.packet 9 [90]], demo_udp [demo.packet 8 [80]] with
  | Ok u, Ok q =>
      match from_legs (demo.cfg (Some 7)) [u] with
      | Ok i => let outs := demo_recvs [false; false; true; true; false] (i, with_requester i q {| ip := V4 []; port := 9000 |}, demo.clock) [] in
                Some (frame_seqs outs, existsb (fun o => match o with Err GapDetected => true | _ => false end) outs)
      | _ => None
      end
  | _, _ => None
  end = Some ([7; 8; 9], true).
Proof. vm_compute. reflexivity. Qed.
