(* ===== verification/Conformance.v ===== *)
(** * transport-core: the conformance suite, what its cases share

    Models [crates/transports/core/src/testing/conformance/mod.rs]. A run of the suite is a
    computation on the transport under test that passes, violates the contract (the suite's
    panic, with its case and observation) or, on [None], did not return. A wait ends after
    [misses] misses, the retries the clock lets pass in five seconds. [passes] is the program
    logic the contracts are proved in. *)

From S2P Require Import Prelude TransportCore.
From Stdlib Require Import ZArith Lia.
From stdpp Require Import prelude list strings.

Open Scope Z_scope.
Open Scope res_scope.

(** ** Computations that check *)

Record Violation := { vcase : string; observed : string }.

Definition suite (T A : Type) : Type := T -> option (res Violation A * T).

#[export] Instance suite_ret T : MRet (suite T) := fun A a t => Some (Ok a, t).

#[export] Instance suite_bind T : MBind (suite T) := fun A B k m t =>
  match m t with
  | Some (Ok a, t) => k a t
  | Some (Err v, t) => Some (Err v, t)
  | Some (Panic, t) => Some (Panic, t)
  | None => None
  end.

Section computations.
Context {T : Type}.

Definition violate {A} (case_ what : string) : suite T A := fun t => Some (Err {| vcase := case_; observed := what |}, t).

(** A panic that is not the suite's own (an index out of range); a loop that goes on. *)
Definition panics {A} : suite T A := fun t => Some (Panic, t).
Definition hangs {A} : suite T A := fun _ => None.

(** [assert!]. *)
Definition check (b : bool) (case_ what : string) : suite T unit := if b then mret tt else violate case_ what.

Definition gets {A} (f : T -> A) : suite T A := fun t => Some (Ok (f t), t).
Definition modify (f : T -> T) : suite T unit := fun t => Some (Ok tt, f t).

(** [poll_until]; the attempt's captured variables are threaded. *)
Fixpoint poll_until {S R} (misses : nat) (case_ what : string) (attempt : S -> suite T (option R * S)) (s : S) : suite T (R * S) :=
  x ← attempt s;
  match x with
  | (Some r, s) => mret (r, s)
  | (None, s) =>
      match misses with
      | O => violate case_ what
      | Datatypes.S misses => poll_until misses case_ what attempt s
      end
  end.

(** [assert_bytes]. *)
Definition assert_bytes (got want : list byte) (case_ what : string) : suite T unit :=
  check (bool_decide (got = want)) case_ what.

(** *** Reasoning: [m] passes from [t] and leaves [Q] *)

Definition passes {A} (m : suite T A) (t : T) (Q : A -> T -> Prop) : Prop :=
  exists a t', m t = Some (Ok a, t') /\ Q a t'.

Lemma passes_ret {A} (a : A) t (Q : A -> T -> Prop) : Q a t -> passes (mret a) t Q.
Proof. intros HQ. by exists a, t. Qed.

Lemma passes_bind {A B} (m : suite T A) (k : A -> suite T B) t (P : A -> T -> Prop) (Q : B -> T -> Prop) :
  passes m t P -> (forall a t', P a t' -> passes (k a) t' Q) -> passes (m ≫= k) t Q.
Proof.
  intros (a & t' & E & HP) Hk. destruct (Hk a t' HP) as (b & t'' & E' & HQ). exists b, t''. split; [|done].
  unfold mbind, suite_bind. by rewrite E.
Qed.

Lemma passes_mono {A} (m : suite T A) t (P Q : A -> T -> Prop) : passes m t P -> (forall a t', P a t' -> Q a t') -> passes m t Q.
Proof. intros (a & t' & E & HP) HQ. exists a, t'. eauto. Qed.

Lemma passes_check (b : bool) c w t (Q : unit -> T -> Prop) : b = true -> Q tt t -> passes (check b c w) t Q.
Proof. intros -> HQ. by exists tt, t. Qed.

Lemma passes_gets {A} (f : T -> A) t (Q : A -> T -> Prop) : Q (f t) t -> passes (gets f) t Q.
Proof. intros HQ. by exists (f t), t. Qed.

Lemma passes_modify (f : T -> T) t (Q : unit -> T -> Prop) : Q tt (f t) -> passes (modify f) t Q.
Proof. intros HQ. by exists tt, (f t). Qed.

(** A wait passes when each attempt either yields or lowers a measure within the patience. *)
Lemma passes_until {S R} (I : nat -> S -> T -> Prop) (Q : R * S -> T -> Prop) misses c w (attempt : S -> suite T (option R * S)) m s t :
  (forall m s t, I m s t -> (m <= misses)%nat ->
     passes (attempt s) t (fun x t' => match x with
       | (Some r, s') => Q (r, s') t'
       | (None, s') => exists m', (m' < m)%nat /\ I m' s' t'
       end)) ->
  I m s t -> (m <= misses)%nat -> passes (poll_until misses c w attempt s) t Q.
Proof.
  intros Ha. assert (Hgo : forall n m s t, I m s t -> (m <= n <= misses)%nat -> passes (poll_until n c w attempt s) t Q).
  { clear m s t. induction n as [|n IH]; intros m s t HI Hm; cbn [poll_until].
    - eapply passes_bind; [apply (Ha m); [done|lia]|]. intros [[r|] s'] t'; [by apply passes_ret|]. intros (m' & ? & _). lia.
    - eapply passes_bind; [apply (Ha m); [done|lia]|]. intros [[r|] s'] t'; [by apply passes_ret|].
      intros (m' & Hlt & HI'). apply (IH m'); [done|lia]. }
  intros HI Hm. by apply (Hgo misses m).
Qed.
End computations.

(** Cases run in order up to the first violation. *)
Definition and_next (r : option (res Violation unit)) (next : option (res Violation unit)) : option (res Violation unit) :=
  match r with Some (Ok _) => next | bad => bad end.

(** ** [pattern] *)

Definition xorshift64 (state : Z) : Z :=
  let state := Z.lxor state (Z.shiftl state 13 mod W64) in
  let state := Z.lxor state (Z.shiftr state 7) in
  Z.lxor state (Z.shiftl state 17 mod W64).

(** The [while] of [pattern]: each round adds at most eight bytes. *)
Fixpoint pattern_rounds (fuel : nat) (state : Z) (left : Z) : list byte :=
  match fuel with
  | O => []
  | S fuel =>
      if left <=? 0 then []
      else
        let state := xorshift64 state in
        take (Z.to_nat (Z.min left 8)) (to_le_bytes 8 state) ++ pattern_rounds fuel state (left - Z.min left 8)
  end.

Definition pattern (seed n : Z) : list byte :=
  pattern_rounds (Z.to_nat n) (Z.lor (seed * 0x9E3779B97F4A7C15 mod W64) 1) n.

Lemma pattern_rounds_len fuel state left : 0 <= left -> left <= Z.of_nat fuel -> len (pattern_rounds fuel state left) = left.
Proof.
  revert state left. induction fuel as [|fuel IH]; intros state left H0 Hf; cbn [pattern_rounds]; [rewrite len_nil; lia|].
  destruct (left <=? 0) eqn:E; bool_facts; [rewrite len_nil; lia|]. rewrite len_app, IH by lia.
  unfold len. rewrite length_take, length_to_le_bytes. lia.
Qed.

Lemma pattern_len seed n : 0 <= n -> len (pattern seed n) = n.
Proof. intros Hn. apply pattern_rounds_len; lia. Qed.
