(* ===== verification/ConformanceDatagram.v ===== *)
(** * transport-core: the conformance suite, datagrams

    Models [crates/transports/core/src/testing/conformance/datagram.rs]: what [run_datagram]
    asks of a backend. [backend] is the specification it tests, a queue of datagrams over a pool
    of known size; a backend with a [backend] passes. Frames read through the transport
    they came from, since their buffers are shared with it. *)

From S2P Require Import Prelude TransportCore Conformance.
From Stdlib Require Import ZArith Lia.
From stdpp Require Import prelude list strings.

Open Scope Z_scope.
Open Scope res_scope.

Import FrameBatch (frames, cap, spare).

Definition ROOMY : Z := 16.
Definition TIGHT : Z := 2.
Definition BURST_ROOM : Z := 3.

Inductive ExhaustionSignal := SPoolExhausted | DropCounter.

#[export] Instance ExhaustionSignal_eq_dec : EqDecision ExhaustionSignal.
Proof. solve_decision. Defined.

(** [DatagramHarness], with the frame's [as_ref] and [drop] on shared buffers; [build] may panic. *)
Record DatagramHarness (T F : Type) := Harness {
  build : Z -> res Violation T;
  inject : T -> list byte -> T;
  drops : T -> Z;
  exhaustion : ExhaustionSignal;
  read : T -> F -> list byte;
  release : T -> F -> T;
}.
Arguments build {T F}.
Arguments inject {T F}.
Arguments drops {T F}.
Arguments exhaustion {T F}.
Arguments read {T F}.
Arguments release {T F}.

(** [datagrams]: one per length, seeds counting up. *)
Fixpoint datagrams (first : Z) (lens : list Z) : list (list byte) :=
  match lens with [] => [] | n :: lens => pattern first n :: datagrams (first + 1) lens end.

Section cases.
Context {T F : Type} `{DatagramRecv T F} (fuel patience : nat) (h : DatagramHarness T F).

(** [recv_checked]: one [recv_burst], checked against what it did to the batch. *)
Definition recv_checked (case_ : string) (batch : FrameBatch.t F) : suite T (res TransportError Z * FrameBatch.t F) := fun t =>
  let '(n, room) := (FrameBatch.len_ batch, spare batch) in
  match recv_burst fuel t batch with
  | None => None
  | Some (Panic, t, _) => Some (Panic, t)
  | Some (result, t, batch) =>
      (_ ← check (n <=? FrameBatch.len_ batch) case_ "recv_burst removed frames from caller's batch";
       let pushed := FrameBatch.len_ batch - n in
       _ ← check (pushed <=? room) case_ "recv_burst pushed frames past spare";
       _ ← match result with
           | Ok n => check (n =? pushed) case_ "recv_burst count differs from frames pushed"
           | _ => check (pushed =? 0) case_ "recv_burst pushed frames, then failed"
           end;
       mret (result, batch)) t
  end.

Definition recv_ok (case_ : string) (batch : FrameBatch.t F) : suite T (Z * FrameBatch.t F) :=
  x ← recv_checked case_ batch;
  match x with (Ok n, batch) => mret (n, batch) | _ => violate case_ "recv_burst failed" end.

(** The attempt most waits make: a burst that pushes something. *)
Definition attempt_burst (case_ : string) (batch : FrameBatch.t F) : suite T (option unit * FrameBatch.t F) :=
  '(n, batch) ← recv_ok case_ batch; mret (if n >? 0 then Some tt else None, batch).

(** The [while] of [recv_frames], at most [rounds] times. *)
Fixpoint recv_rounds (rounds : nat) (n : Z) (case_ : string) (got : list F) : suite T (list F) :=
  if n - len got =? 0 then mret got
  else
    match rounds with
    | O => hangs
    | S rounds =>
        '(_, batch) ← poll_until patience case_ "datagram" (attempt_burst case_) (FrameBatch.with_capacity (n - len got));
        recv_rounds rounds n case_ (got ++ frames batch)
    end.

Definition recv_frames (n : Z) (case_ : string) : suite T (list F) := recv_rounds (Z.to_nat n) n case_ [].

(** The [for] of [assert_payloads]. *)
Fixpoint assert_each (got : list F) (want : list (list byte)) (case_ : string) : suite T unit :=
  match got, want with
  | f :: got, w :: want => bytes ← gets (fun t => read h t f); _ ← assert_bytes bytes w case_ "frame"; assert_each got want case_
  | _, _ => mret tt
  end.

Definition assert_payloads (got : list F) (want : list (list byte)) (case_ : string) : suite T unit :=
  _ ← check (len got =? len want) case_ "frame count"; assert_each got want case_.

Definition checked_stats (case_ : string) : suite T PoolStats :=
  stats ← gets (T := T) pool_stats;
  _ ← check (bool_decide (try_u32 (ps_capacity stats) = Some ROOMY) && (ps_in_use stats <=? ps_capacity stats)) case_
        "want capacity 16 and in_use within it";
  mret stats.

(** [drop] of frames, here or on a thread that is joined. *)
Definition drop_frames (l : list F) : suite T unit := modify (fun t => foldl (release h) t l).

Definition inject_all (l : list (list byte)) : suite T unit := modify (fun t => foldl (inject h) t l).

Definition is_idle (r : res TransportError Z) : bool := match r with Ok n => n =? 0 | _ => false end.

(** ** The cases *)

Definition payload_order : suite T unit :=
  let case_ := "payload order" in
  '(idle, batch) ← recv_checked case_ (FrameBatch.with_capacity BURST_ROOM);
  _ ← check (is_idle idle) case_ "fresh transport not idle";
  let sent := datagrams 1 [7; 64; 1; 300; 33; 1200; 2; 90] in
  _ ← inject_all sent;
  got ← recv_frames (len sent) case_;
  '(after, batch) ← recv_checked case_ batch;
  _ ← check (is_idle after) case_ "not idle after every datagram arrived";
  assert_payloads got sent case_.

(** The [while] of [burst_bound] over what remains. *)
Fixpoint drain_rounds (rounds : nat) (n : Z) (case_ : string) (batch : FrameBatch.t F) (got : list F) : suite T (list F) :=
  if len got <? n then
    match rounds with
    | O => hangs
    | S rounds =>
        '(_, batch) ← poll_until patience case_ "remaining datagrams" (attempt_burst case_) batch;
        let '(new, batch) := FrameBatch.drain batch in
        drain_rounds rounds n case_ batch (got ++ new)
    end
  else mret got.

Definition burst_bound : suite T unit :=
  let case_ := "burst bound" in
  let sent := datagrams 101 [40; 41; 42; 43; 44; 45; 46; 47] in
  _ ← inject_all (take 2 sent);
  '(_, batch) ← poll_until patience case_ "first two datagrams"
    (fun batch => '(_, batch) ← recv_ok case_ batch; mret (if FrameBatch.len_ batch >=? 2 then Some tt else None, batch))
    (FrameBatch.with_capacity BURST_ROOM);
  _ ← check (FrameBatch.len_ batch =? 2) case_ "two datagrams sent, batch holds";
  _ ← inject_all (drop 2 sent);
  '(_, batch) ← poll_until patience case_ "datagram into last slot" (attempt_burst case_) batch;
  let '(got, batch) := FrameBatch.drain batch in
  got ← drain_rounds (length sent) (len sent) case_ batch got;
  assert_payloads got sent case_.

(** One attempt of the wait for the exhaustion signal. *)
Definition attempt_exhaust (case_ : string) (drops_before : Z) (batch : FrameBatch.t F) : suite T (option unit * FrameBatch.t F) :=
  '(r, batch) ← recv_checked case_ batch;
  now ← gets (drops h);
  let dropped := (if bool_decide (exhaustion h = DropCounter) && (now >? drops_before) then Some tt else None, batch) in
  match r with
  | Ok n => _ ← check (n =? 0) case_ "frame(s) delivered while every buffer is held"; mret dropped
  | Err (PoolExhausted in_use capacity) =>
      _ ← check ((in_use =? capacity) && bool_decide (try_u32 capacity = Some TIGHT)) case_ "PoolExhausted reports";
      mret (if bool_decide (exhaustion h = SPoolExhausted) then (Some tt, batch) else dropped)
  | _ => violate case_ "recv_burst failed"
  end.

Definition exhaust (extra : list byte) : suite T (list F) :=
  let case_ := "exhaustion" in
  let sent := datagrams 201 [900; 700] in
  _ ← inject_all sent;
  held ← recv_frames (len sent) case_;
  drops_before ← gets (drops h);
  _ ← inject_all [extra];
  _ ← poll_until patience case_ "exhaustion signal" (attempt_exhaust case_ drops_before) (FrameBatch.with_capacity 1);
  _ ← assert_payloads held sent case_;
  mret held.

(** The first part of [reclaim]: whether [extra] may still come. *)
Definition reclaim_extra (extra : list byte) : suite T bool :=
  let case_ := "reclaim" in
  match exhaustion h with
  | SPoolExhausted =>
      got ← recv_frames 1 case_; _ ← assert_payloads got [extra] case_; _ ← drop_frames got; mret false
  | DropCounter =>
      '(n, batch) ← recv_ok case_ (FrameBatch.with_capacity 1);
      if n >? 0 then
        let got := frames batch in _ ← assert_payloads got [extra] case_; _ ← drop_frames got; mret false
      else mret true
  end.

Definition reclaim (extra : list byte) : suite T unit :=
  let case_ := "reclaim" in
  extra_pending ← reclaim_extra extra;
  let fresh := datagrams 204 [16; 8] in
  _ ← inject_all fresh;
  got ← recv_frames (len fresh) case_;
  match got with
  | [] => if extra_pending : bool then panics else assert_payloads got fresh case_
  | f :: rest =>
      first ← gets (fun t => read h t f);
      if (extra_pending : bool) && bool_decide (first = extra) then
        _ ← drop_frames [f]; more ← recv_frames 1 case_; assert_payloads (rest ++ more) fresh case_
      else assert_payloads got fresh case_
  end.

Definition exhaust_then_reclaim : suite T unit :=
  let extra := pattern 203 40 in
  held ← exhaust extra; _ ← drop_frames held; reclaim extra.

Definition pool_accounting : suite T unit :=
  let case_ := "pool_stats" in
  before ← checked_stats case_;
  let sent := datagrams 301 [100; 200; 300] in
  _ ← inject_all sent;
  held ← recv_frames (len sent) case_;
  holding ← checked_stats case_;
  _ ← check (ps_in_use holding >=? len held) case_ "in_use below what the caller holds";
  _ ← drop_frames held;
  dropped ← checked_stats case_;
  _ ← (if negb (ps_in_use dropped =? ps_in_use before) then
         '(n, _) ← recv_ok case_ (FrameBatch.with_capacity 1);
         check (n =? 0) case_ "frames delivered with nothing sent"
       else mret tt);
  after ← checked_stats case_;
  check (ps_in_use after =? ps_in_use before) case_ "in_use after every frame dropped".

(** A case on a fresh transport. *)
Definition on_fresh (n : Z) (m : suite T unit) : option (res Violation unit) :=
  match build h n with
  | Ok t => fst <$> m t
  | Err v => Some (Err v)
  | Panic => Some Panic
  end.

Definition run_datagram : option (res Violation unit) :=
  and_next (on_fresh ROOMY payload_order) (and_next (on_fresh ROOMY burst_bound)
    (and_next (on_fresh TIGHT exhaust_then_reclaim) (on_fresh ROOMY pool_accounting))).
End cases.
