(* ===== verification/ConformanceSpec.v ===== *)
(** * transport-core: what a datagram backend promises

    [backend] specifies a [DatagramRecv] with its harness as a queue of datagrams over a pool of
    known size whose frames keep their bytes. Every backend that meets it passes
    [run_datagram]; the mock driver under the kernel-bypass shell meets it. *)

From S2P Require Import Prelude TransportCore Pools Bypass Conformance ConformanceDatagram.
From Stdlib Require Import ZArith Lia.
From stdpp Require Import prelude list strings.

Open Scope Z_scope.
Open Scope res_scope.

Import FrameBatch (frames, cap, spare).

Section spec.
Context {T F : Type} `{DatagramRecv T F} (h : DatagramHarness T F).

(** Frames of [l] read in [t'] as they did in [t]. *)
Definition keeps (t t' : T) (l : list F) : Prop := forall f, f ∈ l -> read h t' f = read h t f.

(** Whether a datagram that comes now stays, or is counted lost. *)
Definition stays (n : Z) (q : list (list byte)) (held : list F) : Prop :=
  exhaustion h = SPoolExhausted \/ len q + len held < n.

(** [rep n t q held]: [t] was built for [n] buffers, [q] is still to be delivered and [held]
    the frames out. [lag t] bursts may yet find nothing though [q] has landed; [due t] is what
    [drops] will reach by then; [base n] the buffers the transport keeps for itself. *)
Record backend (max : Z) (slack : nat) := Backend {
  rep : Z -> T -> list (list byte) -> list F -> Prop;
  lag : T -> nat;
  due : T -> Z;
  base : Z -> Z;
  rep_lag n t q held : rep n t q held -> (lag t <= slack)%nat;
  rep_room n t q held : rep n t q held -> len held <= n;
  rep_due n t q held : rep n t q held -> drops h t <= due t;
  rep_stats n t q held : rep n t q held -> ps_capacity (pool_stats t) = n /\ len held <= ps_in_use (pool_stats t) <= n;
  rep_build n : 0 < n <= U32_MAX -> exists t, build h n = Ok t /\ rep n t [] [] /\ ps_in_use (pool_stats t) = base n /\ due t < U64_MAX;
  rep_inject n t q held d : rep n t q held -> len d <= max ->
    keeps t (inject h t d) held /\
    (stays n q held -> rep n (inject h t d) (q ++ [d]) held /\ due (inject h t d) = due t) /\
    (~ stays n q held -> due t < U64_MAX -> rep n (inject h t d) q held /\ due t < due (inject h t d));
  rep_release n t q held1 f held2 : rep n t q (held1 ++ f :: held2) ->
    rep n (release h t f) q (held1 ++ held2) /\ keeps t (release h t f) (held1 ++ held2);
  rep_recv n t q held out fuel : rep n t q held -> 0 < spare out -> (length q < fuel)%nat ->
    exists r t' new q', recv_burst fuel t out = Some (r, t', FrameBatch.Batch (frames out ++ new) (cap out)) /\
      rep n t' q' (held ++ new) /\ keeps t t' held /\ q = (read h t' <$> new) ++ q' /\ len new <= spare out /\ due t' = due t /\
      (new = [] -> exhaustion h = DropCounter -> due t <= drops h t' \/ (lag t' < lag t)%nat) /\
      (q = [] -> held = [] -> ps_in_use (pool_stats t') = base n) /\
      match r with
      | Ok k => k = len new /\ (new = [] -> q <> [] -> (len held < n \/ exhaustion h = SPoolExhausted) -> (lag t' < lag t)%nat)
      | Err (PoolExhausted in_use capacity) => new = [] /\ in_use = n /\ capacity = n /\ len held = n /\ q <> []
      | _ => False
      end;
}.
End spec.
Arguments rep {T F H h max slack}.
Arguments lag {T F H h max slack}.
Arguments due {T F H h max slack}.
Arguments base {T F H h max slack}.

Section passing.
Context {T F : Type} `{DatagramRecv T F} (h : DatagramHarness T F) (max : Z) (slack : nat) (B : backend h max slack).
Context (fuel patience : nat).
Implicit Types (t : T) (q : list (list byte)) (held : list F) (out : FrameBatch.t F).

(** The state between two steps of a case: the frames out and what they read. *)
Definition holds n q held (want : list (list byte)) t : Prop :=
  rep B n t q held /\ read h t <$> held = want.

Lemma keeps_reads t t' l : keeps h t t' l -> read h t' <$> l = read h t <$> l.
Proof. intros Hk. apply list_fmap_ext. intros i f Hi. apply Hk. by eapply list_elem_of_lookup_2. Qed.

(** One burst: what [recv_checked] hands on passes its own checks. *)
Lemma recv_checked_passes case_ n q held want t out :
  holds n q held want t -> 0 < spare out -> (length q < fuel)%nat ->
  passes (recv_checked fuel case_ out) t (fun x t' => exists new q' bytes,
    x.2 = FrameBatch.Batch (frames out ++ new) (cap out) /\ holds n q' (held ++ new) (want ++ bytes) t' /\
    q = bytes ++ q' /\ len new = len bytes /\ len new <= spare out /\ due B t' = due B t /\
    (new = [] -> exhaustion h = DropCounter -> due B t <= drops h t' \/ (lag B t' < lag B t)%nat) /\
    (q = [] -> held = [] -> ps_in_use (pool_stats t') = base B n) /\
    match x.1 with
    | Ok k => k = len new /\ (new = [] -> q <> [] -> (len held < n \/ exhaustion h = SPoolExhausted) -> (lag B t' < lag B t)%nat)
    | Err (PoolExhausted in_use capacity) => new = [] /\ in_use = n /\ capacity = n /\ len held = n /\ q <> []
    | _ => False
    end).
Proof.
  intros [I Hw] Hs Hf. destruct (rep_recv _ _ _ B _ _ _ _ _ _ I Hs Hf) as (r & t' & new & q' & E & I' & Hk & Hq & Hl & Hd & Hdc & Hb & Hr).
  pose proof (len_nonneg new). pose proof (len_nonneg (frames out)).
  assert (Hdiff : FrameBatch.len_ (FrameBatch.Batch (frames out ++ new) (cap out)) - FrameBatch.len_ out = len new)
    by (by apply batch_len_diff).
  exists (r, FrameBatch.Batch (frames out ++ new) (cap out)), t'. split.
  - unfold recv_checked. rewrite E, Hdiff, (proj2 (Z.leb_le _ _) Hl).
    assert (Hle : (FrameBatch.len_ out <=? FrameBatch.len_ (FrameBatch.Batch (frames out ++ new) (cap out))) = true)
      by (apply Z.leb_le; lia).
    unfold mbind, suite_bind, check, mret, suite_ret. rewrite Hle.
    destruct r as [k|e|]; [|destruct e; try done|done].
    + destruct Hr as [-> _]. by rewrite Z.eqb_refl.
    + destruct Hr as [-> _]. done.
  - exists new, q', (read h t' <$> new). split_and!; try done.
    + split; [done|]. by rewrite fmap_app, (keeps_reads _ _ _ Hk), Hw.
    + unfold len. by rewrite length_fmap.
Qed.

(** Progress: something is pushed, or the wait comes closer to its end. *)
Definition took n q held want t out (pushed : bool) out' t' : Prop :=
  exists new q' bytes, out' = FrameBatch.Batch (frames out ++ new) (cap out) /\
    holds n q' (held ++ new) (want ++ bytes) t' /\ q = bytes ++ q' /\ len new = len bytes /\ len new <= spare out /\
    due B t' = due B t /\ if pushed then new <> [] else new = [] /\ (lag B t' < lag B t)%nat.

Lemma recv_ok_passes case_ n q held want t out :
  holds n q held want t -> 0 < spare out -> (length q < fuel)%nat -> q = [] \/ len held < n ->
  passes (recv_ok fuel case_ out) t (fun x t' => exists new q' bytes,
    x = (len new, FrameBatch.Batch (frames out ++ new) (cap out)) /\ holds n q' (held ++ new) (want ++ bytes) t' /\
    q = bytes ++ q' /\ len new = len bytes /\ len new <= spare out /\ due B t' = due B t /\
    (new = [] -> q <> [] -> (lag B t' < lag B t)%nat) /\
    (q = [] -> held = [] -> ps_in_use (pool_stats t') = base B n)).
Proof.
  intros Hh Hs Hf Hr. unfold recv_ok. eapply passes_bind; [by eapply recv_checked_passes|].
  intros [r out'] t' (new & q' & bytes & Ho & Hh' & Hq & Hl & Hsp & Hd & _ & Hb & Hres). cbn [fst snd] in *. subst out'.
  destruct r as [k|e|]; [|destruct e; try done; exfalso|done].
  - destruct Hres as [-> Hlag]. apply passes_ret. exists new, q', bytes. split_and!; try done.
    intros Hn Hq0. apply Hlag; [done|done|]. destruct Hr; [done|by left].
  - destruct Hres as (_ & _ & _ & Hn & Hq0). destruct Hr; [done|lia].
Qed.

Lemma attempt_burst_passes case_ n q held want t out :
  holds n q held want t -> 0 < spare out -> (length q < fuel)%nat -> q <> [] -> len held < n ->
  passes (attempt_burst fuel case_ out) t (fun x t' => took n q held want t out (bool_decide (x.1 = Some tt)) x.2 t').
Proof.
  intros Hh Hs Hf Hq Hn. unfold attempt_burst. eapply passes_bind; [by eapply recv_ok_passes; [..|right]|].
  intros [k out'] t' (new & q' & bytes & [= -> ->] & Hh' & Hq' & Hl & Hsp & Hd & Hlag & _). apply passes_ret. cbn [fst snd].
  exists new, q', bytes. split_and!; try done. pose proof (len_nonneg new). destruct (len new >? 0) eqn:E; bool_facts.
  - rewrite bool_decide_true by done. intros ->. unfold len in E. simpl in E. lia.
  - rewrite bool_decide_false by done. assert (new = []) as -> by (destruct new; [done|rewrite len_cons in *; pose proof (len_nonneg new); lia]).
    split; [done|by apply Hlag].
Qed.

Context (Hpat : (3 * slack + 2 <= patience)%nat).

(** A wait for the next frames: some come. *)
Lemma wait_burst_passes case_ what n q held want t out :
  holds n q held want t -> 0 < spare out -> (length q < fuel)%nat -> q <> [] -> len held < n ->
  passes (poll_until patience case_ what (attempt_burst fuel case_) out) t
    (fun x t' => took n q held want t out true x.2 t').
Proof.
  intros Hh Hs Hf Hq Hn.
  apply (passes_until (fun m out1 t1 => out1 = out /\ m = lag B t1 /\ holds n q held want t1 /\ due B t1 = due B t) _ _ _ _ _ (lag B t)).
  - intros m out1 t1 (-> & -> & Hh1 & Hd1) _. eapply passes_mono; [by eapply attempt_burst_passes|].
    intros [[[]|] out2] t2 (new & q' & bytes & Ho & Hh2 & Hq2 & Hl & Hsp & Hd & Hp); cbn [fst snd] in *.
    + rewrite bool_decide_true in Hp by done. exists new, q', bytes. split_and!; (done || lia).
    + rewrite bool_decide_false in Hp by done. destruct Hp as [-> Hlag]. exists (lag B t2).
      assert (bytes = []) as -> by (rewrite len_nil in Hl; destruct bytes; [done|rewrite len_cons in Hl; pose proof (len_nonneg bytes); lia]).
      rewrite !app_nil_r in *. destruct out. cbn [frames cap] in Ho. split; [done|]. simpl in Hq2. subst q'. split_and!; (done || lia).
  - done.
  - pose proof (rep_lag _ _ _ B _ _ _ _ (proj1 Hh)). lia.
Qed.

(** [recv_frames] takes exactly the datagrams asked for. *)
Lemma recv_rounds_passes case_ rounds n q held want t got taken rest :
  holds n (rest ++ q) (held ++ got) (want ++ taken) t -> (length rest <= rounds)%nat -> (length (rest ++ q) < fuel)%nat ->
  len held + len got + len rest <= n ->
  passes (recv_rounds fuel patience rounds (len got + len rest) case_ got) t (fun all t' =>
    len all = len got + len rest /\ holds n q (held ++ all) (want ++ taken ++ rest) t' /\ due B t' = due B t).
Proof.
  revert t got taken rest. induction rounds as [|rounds IH]; intros t got taken rest Hh Hr Hf Hn; cbn [recv_rounds];
    replace (len got + len rest - len got) with (len rest) by lia.
  { destruct rest; [|simpl in Hr; lia]. rewrite len_nil. apply passes_ret. rewrite app_nil_r. split_and!; (done || lia). }
  destruct (len rest =? 0) eqn:E; bool_facts.
  { assert (rest = []) as -> by (destruct rest; [done|rewrite len_cons in E; pose proof (len_nonneg rest); lia]).
    apply passes_ret. rewrite app_nil_r. rewrite len_nil. split_and!; (done || lia). }
  pose proof (len_nonneg rest). pose proof (len_nonneg got).
  eapply passes_bind; [apply (wait_burst_passes case_ _ n (rest ++ q) (held ++ got) (want ++ taken))|].
  - done.
  - apply FrameBatch.spare_empty; [done|cbn; lia].
  - done.
  - destruct rest; [done|done].
  - rewrite len_app. lia.
  - intros [u out'] t' (new & q' & bytes & Ho & Hh' & Hq & Hl & Hsp & Hd & Hne).
    cbn [snd frames FrameBatch.with_capacity app] in *. subst out'. cbn [frames].
    unfold spare, saturating_sub in Hsp. cbn in Hsp.
    assert (Hlb : (length bytes <= length rest)%nat) by (unfold len in *; lia).
    assert (Hb : bytes = take (length bytes) rest) by (rewrite <- (take_app_le rest q) by done; rewrite Hq; by rewrite take_app_length).
    assert (Hq' : q' = drop (length bytes) rest ++ q) by (rewrite <- drop_app_le by done; rewrite Hq; by rewrite drop_app_length).
    set (more := drop (length bytes) rest) in *. assert (Hrest : rest = bytes ++ more) by (rewrite Hb at 1; unfold more; by rewrite take_drop).
    assert (Hb0 : (0 < length bytes)%nat) by (destruct new; [done|unfold len in Hl; simpl in Hl; lia]).
    assert (Hlm : len got + len rest = len (got ++ new) + len more) by (rewrite Hrest, !len_app; lia).
    rewrite Hlm. subst q'. rewrite <- !app_assoc in Hh'.
    eapply passes_mono; [apply (IH t' (got ++ new) (taken ++ bytes) more)|].
    + done.
    + rewrite Hrest, length_app in Hr. lia.
    + rewrite Hrest, <- app_assoc, length_app in Hf. lia.
    + lia.
    + intros all t2 (Ha & Hh2 & Hd2). rewrite <- app_assoc, <- Hrest in Hh2. split_and!; (done || lia).
Qed.

Lemma recv_frames_passes case_ n bs q held want t :
  holds n (bs ++ q) held want t -> (length (bs ++ q) < fuel)%nat -> len held + len bs <= n ->
  passes (recv_frames fuel patience (len bs) case_) t (fun got t' =>
    len got = len bs /\ holds n q (held ++ got) (want ++ bs) t' /\ due B t' = due B t).
Proof.
  intros Hh Hf Hn. unfold recv_frames.
  apply (recv_rounds_passes case_ _ n q held want t [] [] bs); rewrite ?app_nil_r; [done|unfold len; lia|done|rewrite len_nil; lia].
Qed.
(** *** Injecting, comparing, dropping *)

Lemma stays_room n q held : len q + len held < n -> stays h n q held.
Proof. by right. Qed.

Lemma inject_all_passes n ds q held want t :
  holds n q held want t -> Forall (fun d => len d <= max) ds -> len q + len held + len ds <= n ->
  passes (inject_all h ds) t (fun _ t' => holds n (q ++ ds) held want t' /\ due B t' = due B t).
Proof.
  intros Hh Hm Hn. apply passes_modify. revert q t Hh Hn. induction Hm as [|d ds Hd Hm IH]; intros q t Hh Hn.
  { rewrite app_nil_r. done. }
  cbn [foldl]. rewrite len_cons in Hn. pose proof (len_nonneg ds). destruct Hh as [I Hw].
  destruct (rep_inject _ _ _ B _ _ _ _ d I Hd) as (Hk & Hin & _). destruct Hin as [I' Hdue]; [apply stays_room; lia|].
  destruct (IH (q ++ [d]) (inject h t d)) as [Hh' Hd']; [split|..].
  - exact I'.
  - by rewrite (keeps_reads _ _ _ Hk).
  - rewrite len_app, len_cons, len_nil. lia.
  - rewrite <- app_assoc in Hh'. split; [exact Hh'|congruence].
Qed.

Lemma drop_frames_passes n q l wl held want t :
  holds n q (l ++ held) (wl ++ want) t -> len l = len wl ->
  passes (drop_frames h l) t (fun _ t' => holds n q held want t').
Proof.
  intros Hh Hl. apply Nat2Z.inj in Hl. apply passes_modify. revert wl t Hh Hl.
  induction l as [|f l IH]; intros [|w wl] t Hh Hl; [done|done|done|].
  cbn [foldl]. destruct Hh as [I Hw]. destruct (rep_release _ _ _ B n t q [] f (l ++ held) I) as [I' Hk].
  injection Hl as Hl. apply (IH wl); [|done]. split; [done|]. cbn in Hw, Hk. rewrite (keeps_reads _ _ _ Hk). by injection Hw.
Qed.

Lemma drop_held_passes n q l want t :
  holds n q l want t -> passes (drop_frames h l) t (fun _ t' => holds n q [] [] t').
Proof.
  intros Hh. apply (drop_frames_passes n q l want [] []); [by rewrite !app_nil_r|].
  rewrite <- (proj2 Hh). unfold len. by rewrite length_fmap.
Qed.

Lemma assert_payloads_passes case_ got want t :
  read h t <$> got = want -> passes (assert_payloads h got want case_) t (fun _ t' => t' = t).
Proof.
  intros <-. unfold assert_payloads. eapply passes_bind; [apply (passes_check _ _ _ _ (fun _ t' => t' = t)); [|done]|].
  { apply Z.eqb_eq. unfold len. by rewrite length_fmap. }
  intros _ t' ->. induction got as [|f got IH]; cbn [assert_each fmap list_fmap]; [by apply passes_ret|].
  eapply passes_bind; [by apply (passes_gets _ _ (fun b t' => b = read h t f /\ t' = t))|]. intros b t' [-> ->].
  eapply passes_bind; [apply (passes_check _ _ _ _ (fun _ t' => t' = t)); [by apply bool_decide_true|done]|].
  by intros _ t' ->.
Qed.

Lemma checked_stats_passes case_ q held want t :
  holds ROOMY q held want t ->
  passes (checked_stats case_) t (fun s t' => s = pool_stats t /\ t' = t /\ len held <= ps_in_use s).
Proof.
  intros [I _]. destruct (rep_stats _ _ _ B _ _ _ _ I) as (Hc & Hl & Hn). unfold checked_stats.
  eapply passes_bind; [by apply (passes_gets _ _ (fun s t' => s = pool_stats t /\ t' = t))|]. intros s t' [-> ->].
  eapply passes_bind; [apply (passes_check _ _ _ _ (fun _ t' => t' = t)); [|done]|].
  { rewrite Hc, bool_decide_true by done. apply Z.leb_le. exact Hn. }
  intros _ t' ->. by apply passes_ret.
Qed.

(** Nothing queued: a burst is idle. *)
Lemma idle_passes case_ n held want t out :
  holds n [] held want t -> 0 < spare out -> (0 < fuel)%nat ->
  passes (recv_checked fuel case_ out) t (fun x t' => is_idle x.1 = true /\ x.2 = out /\ holds n [] held want t').
Proof.
  intros Hh Hs Hf. eapply passes_mono; [by eapply recv_checked_passes|].
  intros [r out'] t' (new & q' & bytes & Ho & Hh' & Hq & Hl & _ & _ & _ & _ & Hres). cbn [fst snd] in *.
  symmetry in Hq. apply app_nil in Hq as [-> ->]. assert (new = []) as -> by (destruct new; [done|rewrite len_cons, len_nil in Hl; pose proof (len_nonneg new); lia]).
  rewrite !app_nil_r in *. split_and!; [|by destruct out|done].
  destruct r as [k|e|]; [by destruct Hres as [-> _]|destruct e; try done; by destruct Hres as (_ & _ & _ & _ & ?)|done].
Qed.
(** *** The cases *)

Context (Hmax : 1200 <= max) (Hfuel : (8 < fuel)%nat).

Lemma datagrams_len first lens : len (datagrams first lens) = len lens.
Proof. revert first. induction lens as [|n lens IH]; intros first; cbn [datagrams]; [done|]. by rewrite !len_cons, IH. Qed.

Lemma datagrams_max first lens : Forall (fun n => 0 <= n <= 1200) lens -> Forall (fun d => len d <= max) (datagrams first lens).
Proof.
  intros Hl. revert first. induction Hl as [|n lens Hn _ IH]; intros first; cbn [datagrams]; constructor; [|done].
  rewrite pattern_len; lia.
Qed.

Lemma fits_fuel q : len q <= 8 -> (length q < fuel)%nat.
Proof. unfold len. lia. Qed.

Lemma payload_order_passes t : holds ROOMY [] [] [] t -> passes (payload_order fuel patience h) t (fun _ _ => True).
Proof.
  intros Hh. unfold payload_order. set (sent := datagrams 1 _).
  assert (Hl : len sent = 8) by apply datagrams_len.
  eapply passes_bind; [apply (idle_passes _ ROOMY [] []); [done|done|lia]|]. intros [idle batch] t1 (Hi & Hb & Hh1). cbn [fst snd] in *. subst batch.
  eapply passes_bind; [by apply (passes_check _ _ _ _ (fun _ t' => t' = t1))|]. intros _ t' ->.
  eapply passes_bind; [apply (inject_all_passes ROOMY sent _ _ _ _ Hh1)|].
  { apply datagrams_max. repeat constructor; lia. }
  { by rewrite Hl. }
  intros _ t2 [Hh2 _]. eapply passes_bind.
  { apply (recv_frames_passes _ ROOMY sent []); [by rewrite app_nil_r|rewrite app_nil_r; apply fits_fuel; lia|by rewrite Hl]. }
  intros got t3 (_ & Hh3 & _). eapply passes_bind; [eapply idle_passes; [exact Hh3|done|lia]|].
  intros [after batch'] t4 (Ha & Hb & Hh4). cbn [fst snd] in *.
  eapply passes_bind; [by apply (passes_check _ _ _ _ (fun _ t' => t' = t4))|]. intros _ t' ->.
  eapply passes_mono; [apply assert_payloads_passes, Hh4|done].
Qed.
(** The first wait of [burst_bound]: both datagrams, in one burst or two. *)
Lemma first_two_passes case_ what sent t :
  holds ROOMY sent [] [] t -> len sent = 2 ->
  passes (poll_until patience case_ what
    (fun batch => '(_, batch) ← recv_ok fuel case_ batch; mret (if FrameBatch.len_ batch >=? 2 then Some tt else None, batch))
    (FrameBatch.with_capacity BURST_ROOM)) t
    (fun x t' => len (frames x.2) = 2 /\ cap x.2 = BURST_ROOM /\ holds ROOMY [] (frames x.2) sent t').
Proof.
  intros Hh Hs.
  apply (passes_until (fun m batch t1 => exists got q, m = (length q * S slack + lag B t1)%nat /\ sent = got ++ q /\
    cap batch = BURST_ROOM /\ len (frames batch) = len got /\ q <> [] /\ holds ROOMY q (frames batch) got t1) _ _ _ _ _ (2 * S slack + lag B t)%nat).
  - intros m batch t1 (got & q & -> & -> & Hc & Hl & Hq & Hh1) _. rewrite len_app in Hs.
    assert (Hq0 : 0 < len q) by (destruct q; [done|rewrite len_cons; pose proof (len_nonneg q); lia]).
    pose proof (len_nonneg got). eapply passes_bind.
    { eapply recv_ok_passes; [exact Hh1| |apply fits_fuel; lia|right; unfold ROOMY; lia].
      unfold spare, saturating_sub, BURST_ROOM in *. lia. }
    intros [k out'] t2 (new & q' & bytes & [= -> ->] & Hh2 & -> & Hnl & Hsp & _ & Hlag & _). apply passes_ret. rewrite len_app in *.
    pose proof (len_nonneg bytes). pose proof (len_nonneg q'). unfold FrameBatch.len_. cbn [frames cap]. rewrite !len_app.
    destruct (len (frames batch) + len new >=? 2) eqn:E; bool_facts.
    + assert (q' = []) as -> by (destruct q'; [done|rewrite len_cons in *; pose proof (len_nonneg q'); lia]).
      rewrite app_nil_r. rewrite len_nil in *. cbn [snd frames cap]. rewrite len_app. split_and!; [lia|done|done].
    + exists (length q' * S slack + lag B t2)%nat. split.
      * rewrite length_app. destruct (decide (new = [])) as [->|Hne].
        -- specialize (Hlag eq_refl Hq). assert (length bytes = 0%nat) as -> by (unfold len in Hnl; simpl in Hnl; lia). lia.
        -- assert (1 <= length bytes)%nat by (destruct new; [done|unfold len in Hnl; simpl in Hnl; lia]).
           pose proof (rep_lag _ _ _ B _ _ _ _ (proj1 Hh2)). nia.
      * exists (got ++ bytes), q'. split_and!; try done; [by rewrite app_assoc|rewrite len_app; lia|intros ->; rewrite len_nil in *; lia].
  - exists [], sent. split_and!; try done; [unfold len in Hs; assert (length sent = 2%nat) as -> by lia; lia|by intros ->].
  - pose proof (rep_lag _ _ _ B _ _ _ _ (proj1 Hh)). lia.
Qed.

(** The loop of [burst_bound] over what remains. *)
Lemma drain_rounds_passes case_ rounds t got taken rest :
  holds ROOMY rest got taken t -> (length rest <= rounds)%nat -> len rest + len got <= 8 ->
  passes (drain_rounds fuel patience rounds (len got + len rest) case_ (FrameBatch.Batch [] BURST_ROOM) got) t (fun all t' =>
    holds ROOMY [] all (taken ++ rest) t').
Proof.
  revert t got taken rest. induction rounds as [|rounds IH]; intros t got taken rest Hh Hr Hn; cbn [drain_rounds].
  { destruct rest; [|simpl in Hr; lia]. rewrite len_nil, (proj2 (Z.ltb_ge _ _)) by lia. apply passes_ret. by rewrite app_nil_r. }
  pose proof (len_nonneg rest). pose proof (len_nonneg got). destruct (len got <? len got + len rest) eqn:E; bool_facts.
  2: { assert (rest = []) as -> by (destruct rest; [done|rewrite len_cons in *; pose proof (len_nonneg rest); lia]).
       apply passes_ret. by rewrite app_nil_r. }
  eapply passes_bind; [eapply wait_burst_passes; [exact Hh|done|apply fits_fuel; lia| |unfold ROOMY; lia]|].
  { intros ->. rewrite len_nil in E. lia. }
  intros [u out'] t' (new & q' & bytes & Ho & Hh' & -> & Hl & _ & _ & Hne). cbn [snd] in Ho. subst out'. cbn [FrameBatch.drain frames cap app].
  assert (1 <= length bytes)%nat by (destruct new; [done|unfold len in Hl; simpl in Hl; lia]).
  rewrite length_app in Hr. rewrite len_app in *. replace (len got + (len bytes + len q')) with (len (got ++ new) + len q') by (rewrite len_app; lia).
  eapply passes_mono; [apply (IH t' (got ++ new) (taken ++ bytes) q' Hh'); [lia|rewrite len_app; lia]|]. intros all t2 Hh2. by rewrite <- app_assoc in Hh2.
Qed.

Lemma burst_bound_passes t : holds ROOMY [] [] [] t -> passes (burst_bound fuel patience h) t (fun _ _ => True).
Proof.
  intros Hh. unfold burst_bound. set (sent := datagrams 101 _). assert (Hl : len sent = 8) by apply datagrams_len.
  assert (Hm : Forall (fun d => len d <= max) sent) by (apply datagrams_max; repeat constructor; lia).
  assert (Htd : len (take 2 sent) = 2 /\ len (drop 2 sent) = 6) by (unfold len in *; rewrite length_take, length_drop; lia).
  destruct Htd as [Ht Hd].
  eapply passes_bind; [apply (inject_all_passes ROOMY (take 2 sent) _ _ _ _ Hh)|].
  { by apply Forall_take. }
  { by rewrite Ht. }
  intros _ t1 [Hh1 _]. eapply passes_bind; [by apply first_two_passes|].
  intros [u [fs c]] t2 (Hl2 & Hc2 & Hh2). cbn [snd frames cap] in *. subst c.
  eapply passes_bind; [apply (passes_check _ _ _ _ (fun _ t' => t' = t2)); [by apply Z.eqb_eq|done]|]. intros _ t' ->.
  eapply passes_bind; [apply (inject_all_passes ROOMY (drop 2 sent) _ _ _ _ Hh2)|].
  { by apply Forall_drop. }
  { rewrite Hd, Hl2. done. }
  intros _ t3 [Hh3 _]. cbn [app] in Hh3. eapply passes_bind; [eapply wait_burst_passes; [exact Hh3| |apply fits_fuel; lia| |unfold ROOMY; lia]|].
  { unfold spare, saturating_sub, BURST_ROOM. cbn [frames cap]. lia. }
  { intros E. rewrite E in Hd. done. }
  intros [u' out'] t4 (new & q' & bytes & Ho & Hh4 & Hq & Hn & _ & _ & _). cbn [snd frames cap] in Ho. subst out'. cbn [FrameBatch.drain frames cap].
  pose proof (f_equal len Hq) as Hlq. rewrite len_app in Hlq.
  assert (Hs : len sent = len (fs ++ new) + len q') by (rewrite len_app; lia). rewrite Hs.
  eapply passes_bind; [apply (drain_rounds_passes _ _ _ (fs ++ new) (take 2 sent ++ bytes) q' Hh4)|].
  { pose proof (len_nonneg bytes). unfold len in *. lia. }
  { rewrite len_app. lia. }
  intros got t5 Hh5. eapply passes_mono; [apply assert_payloads_passes|done].
  destruct Hh5 as [_ Hw]. by rewrite <- app_assoc, <- Hq, take_drop in Hw.
Qed.
(** The wait for the exhaustion signal: [extra] is queued, or owed to the drop count. *)
Definition exhausted_with (extra : list byte) (drops_before : Z) q t : Prop :=
  match exhaustion h with
  | SPoolExhausted => q = [extra]
  | DropCounter => q = [] /\ drops_before < due B t
  end.

Lemma exhaust_wait_passes case_ what extra drops_before q held want t :
  holds TIGHT q held want t -> len held = TIGHT -> exhausted_with extra drops_before q t ->
  passes (poll_until patience case_ what (attempt_exhaust fuel h case_ drops_before) (FrameBatch.with_capacity 1)) t
    (fun _ t' => holds TIGHT q held want t').
Proof.
  intros Hh Hl He.
  apply (passes_until (fun m out t1 => out = FrameBatch.with_capacity 1 /\ m = lag B t1 /\ holds TIGHT q held want t1 /\
    exhausted_with extra drops_before q t1) _ _ _ _ _ (lag B t)).
  2: done.
  2: { pose proof (rep_lag _ _ _ B _ _ _ _ (proj1 Hh)). lia. }
  intros m out t1 (-> & -> & Hh1 & He1) _. unfold attempt_exhaust. eapply passes_bind.
  { eapply recv_checked_passes; [exact Hh1|done|]. apply fits_fuel. unfold exhausted_with in He1.
    destruct (exhaustion h); [subst q; done|by destruct He1 as [-> _]]. }
  intros [r out'] t2 (new & q' & bytes & Ho & Hh2 & Hq & Hn & _ & Hd & Hdc & _ & Hres). cbn [fst snd] in *.
  assert (new = []) as ->.
  { pose proof (rep_room _ _ _ B _ _ _ _ (proj1 Hh2)) as Hr. rewrite len_app in Hr. destruct new; [done|]. rewrite len_cons in Hr.
    pose proof (len_nonneg new). lia. }
  assert (bytes = []) as -> by (destruct bytes; [done|rewrite len_cons, len_nil in Hn; pose proof (len_nonneg bytes); lia]).
  rewrite !app_nil_r in Hh2. cbn in Ho, Hq. subst out' q'.
  assert (He2 : exhausted_with extra drops_before q t2).
  { unfold exhausted_with in *. destruct (exhaustion h); [done|]. destruct He1. split; [done|lia]. }
  eapply passes_bind; [by apply (passes_gets _ _ (fun d t' => d = drops h t2 /\ t' = t2))|]. intros now t' [-> ->].
  unfold exhausted_with in He1. destruct r as [k|e|]; [|destruct e; try done|done].
  - destruct Hres as [-> Hlag]. eapply passes_bind; [by apply (passes_check _ _ _ _ (fun _ t' => t' = t2))|]. intros _ t' ->. apply passes_ret.
    destruct (exhaustion h) eqn:Eh.
    + rewrite bool_decide_false by done. cbn [andb]. exists (lag B t2). split; [|done]. apply Hlag; [done|by rewrite He1|by right].
    + rewrite bool_decide_true by done. cbn [andb]. destruct He1 as [-> Hdue]. destruct (drops h t2 >? drops_before) eqn:Ed; bool_facts; [done|].
      destruct (Hdc eq_refl eq_refl) as [?|Hlt]; [lia|]. by exists (lag B t2).
  - destruct Hres as (_ & -> & -> & _ & Hq). eapply passes_bind; [by apply (passes_check _ _ _ _ (fun _ t' => t' = t2))|]. intros _ t' ->.
    apply passes_ret. destruct (exhaustion h) eqn:Eh; [by rewrite bool_decide_true|by destruct He1].
Qed.

Lemma exhaust_passes extra t :
  holds TIGHT [] [] [] t -> due B t < U64_MAX -> len extra <= max ->
  passes (exhaust fuel patience h extra) t (fun held t' => exists q want, holds TIGHT q held want t' /\
    match exhaustion h with SPoolExhausted => q = [extra] | DropCounter => q = [] end).
Proof.
  intros Hh Hu Hx. unfold exhaust. set (sent := datagrams 201 _). assert (Hl : len sent = 2) by apply datagrams_len.
  eapply passes_bind; [apply (inject_all_passes TIGHT sent _ _ _ _ Hh)|].
  { apply datagrams_max. repeat constructor; lia. }
  { by rewrite Hl. }
  intros ? t1 [Hh1 Hd1]. eapply passes_bind.
  { apply (recv_frames_passes _ TIGHT sent []); [by rewrite app_nil_r|rewrite app_nil_r; apply fits_fuel; lia|by rewrite Hl]. }
  intros held t2 (Hlh & Hh2 & Hd2). cbn [app] in Hh2.
  eapply passes_bind; [by apply (passes_gets _ _ (fun d t' => d = drops h t2 /\ t' = t2))|]. intros before t' [-> ->].
  eapply (passes_bind _ _ _ (fun _ t3 => exists q, holds TIGHT q held sent t3 /\ exhausted_with extra (drops h t2) q t3)).
  { apply passes_modify. cbn [foldl]. destruct Hh2 as [I2 Hw2]. pose proof (rep_due _ _ _ B _ _ _ _ I2).
    destruct (rep_inject _ _ _ B _ _ _ _ extra I2 Hx) as (Hk & Hin & Hout). unfold exhausted_with.
    assert (Hs : stays h TIGHT [] held <-> exhaustion h = SPoolExhausted).
    { unfold stays. rewrite len_nil, Hlh, Hl. unfold TIGHT. split; [intros [?|?]; [done|lia]|by left]. }
    destruct (exhaustion h) eqn:Eh.
    - exists [extra]. split; [|done]. split; [by apply Hin, Hs|]. by rewrite (keeps_reads _ _ _ Hk).
    - destruct Hout as [I3 Hlt]; [by rewrite Hs|by rewrite Hd2, Hd1|]. exists []. split; [|split; [done|lia]]. split; [done|]. by rewrite (keeps_reads _ _ _ Hk). }
  intros _ t3 (q & Hh3 & He). eapply passes_bind; [apply (exhaust_wait_passes _ _ extra _ _ _ _ _ Hh3); [by rewrite Hlh, Hl|done]|].
  intros x t4 Hh4. eapply passes_bind; [apply assert_payloads_passes, Hh4|]. intros _ t' ->. apply passes_ret.
  exists q, sent. split; [done|]. unfold exhausted_with in He. destruct (exhaustion h); [done|by destruct He].
Qed.

Lemma reclaim_extra_passes extra q t :
  holds TIGHT q [] [] t -> match exhaustion h with SPoolExhausted => q = [extra] | DropCounter => q = [] end ->
  passes (reclaim_extra fuel patience h extra) t (fun _ t' => holds TIGHT [] [] [] t').
Proof.
  intros Hh Hq. unfold reclaim_extra. destruct (exhaustion h); subst q.
  - eapply passes_bind.
    { apply (recv_frames_passes _ TIGHT [extra] []); [by rewrite app_nil_r|by apply fits_fuel|done]. }
    intros got t1 (Hl & Hh1 & _). cbn [app] in Hh1. eapply passes_bind; [apply assert_payloads_passes, Hh1|]. intros _ t' ->.
    eapply passes_bind; [by eapply drop_held_passes|]. intros ? t2 Hh2. by apply passes_ret.
  - eapply passes_bind; [eapply recv_ok_passes; [exact Hh|done|by apply fits_fuel|by left]|].
    intros [k out'] t1 (new & q' & bytes & [= -> ->] & Hh1 & Hq & Hl & _). symmetry in Hq. apply app_nil in Hq as [-> ->].
    assert (new = []) as -> by (destruct new; [done|rewrite len_cons, len_nil in Hl; pose proof (len_nonneg new); lia]).
    by apply passes_ret.
Qed.

Lemma exhaust_then_reclaim_passes t : holds TIGHT [] [] [] t -> due B t < U64_MAX -> passes (exhaust_then_reclaim fuel patience h) t (fun _ _ => True).
Proof.
  intros Hh Hu. unfold exhaust_then_reclaim. set (extra := pattern 203 40). assert (Hx : len extra = 40) by (by apply pattern_len).
  eapply passes_bind; [apply (exhaust_passes extra t Hh Hu); lia|]. intros held t1 (q & want & Hh1 & Hq).
  eapply passes_bind; [by eapply drop_held_passes|]. intros ? t2 Hh2. unfold reclaim.
  eapply passes_bind; [apply (reclaim_extra_passes extra q); [exact Hh2|exact Hq]|]. intros extra_pending t3 Hh3.
  set (sent := datagrams 204 _). assert (Hl : len sent = 2) by apply datagrams_len.
  eapply passes_bind; [apply (inject_all_passes TIGHT sent _ _ _ _ Hh3)|].
  { apply datagrams_max. repeat constructor; lia. }
  { by rewrite Hl. }
  intros ? t4 [Hh4 _]. eapply passes_bind.
  { apply (recv_frames_passes _ TIGHT sent []); [by rewrite app_nil_r|rewrite app_nil_r; apply fits_fuel; lia|by rewrite Hl]. }
  intros got t5 (Hlg & Hh5 & _). cbn [app] in Hh5. destruct got as [|f rest]; [by rewrite Hl in Hlg|].
  eapply passes_bind; [by apply (passes_gets _ _ (fun b t' => b = read h t5 f /\ t' = t5))|]. intros b t' [-> ->].
  assert (read h t5 f <> extra).
  { destruct Hh5 as [_ Hw]. cbn in Hw. injection Hw as Hf _. rewrite Hf. intros E. apply (f_equal len) in E. rewrite Hx, pattern_len in E; lia. }
  rewrite bool_decide_false, andb_false_r by done. eapply passes_mono; [apply assert_payloads_passes, Hh5|done].
Qed.

Lemma pool_accounting_passes t :
  holds ROOMY [] [] [] t -> ps_in_use (pool_stats t) = base B ROOMY -> passes (pool_accounting fuel patience h) t (fun _ _ => True).
Proof.
  intros Hh Hb. unfold pool_accounting. set (sent := datagrams 301 _). assert (Hl : len sent = 3) by apply datagrams_len.
  eapply passes_bind; [by eapply checked_stats_passes|]. intros before t' (-> & -> & _).
  eapply passes_bind; [apply (inject_all_passes ROOMY sent _ _ _ _ Hh)|].
  { apply datagrams_max. repeat constructor; lia. }
  { by rewrite Hl. }
  intros ? t1 [Hh1 _]. eapply passes_bind.
  { apply (recv_frames_passes _ ROOMY sent []); [by rewrite app_nil_r|rewrite app_nil_r; apply fits_fuel; lia|by rewrite Hl]. }
  intros held t2 (_ & Hh2 & _). cbn [app] in Hh2.
  eapply passes_bind; [by eapply checked_stats_passes|]. intros holding t' (-> & -> & Hin).
  eapply passes_bind; [apply (passes_check _ _ _ _ (fun _ t' => t' = t2)); [by apply Z.geb_le|done]|]. intros _ t' ->.
  eapply passes_bind; [by eapply drop_held_passes|]. intros ? t3 Hh3.
  eapply passes_bind; [eapply checked_stats_passes; exact Hh3|]. intros dropped t' (-> & -> & _).
  eapply (passes_bind _ _ _ (fun _ t4 => holds ROOMY [] [] [] t4 /\ ps_in_use (pool_stats t4) = base B ROOMY)).
  - destruct (ps_in_use (pool_stats t3) =? ps_in_use (pool_stats t)) eqn:E; cbn [negb]; bool_facts.
    { apply passes_ret. split; [done|]. congruence. }
    eapply passes_bind; [eapply recv_ok_passes; [exact Hh3|done|by apply fits_fuel|by left]|].
    intros [k out'] t4 (new & q' & bytes & [= -> ->] & Hh4 & Hq & Hln & _ & _ & _ & Hs). symmetry in Hq. apply app_nil in Hq as [-> ->].
    assert (new = []) as -> by (destruct new; [done|rewrite len_cons, len_nil in Hln; pose proof (len_nonneg new); lia]).
    apply passes_check; [done|]. split; [done|by apply Hs].
  - intros ? t4 [Hh4 Hs]. eapply passes_bind; [by eapply checked_stats_passes|]. intros after t' (-> & -> & _).
    apply passes_check; [|done]. apply Z.eqb_eq. congruence.
Qed.

Lemma on_fresh_passes n m :
  0 < n <= U32_MAX -> (forall t, holds n [] [] [] t -> ps_in_use (pool_stats t) = base B n -> due B t < U64_MAX -> passes m t (fun _ _ => True)) ->
  on_fresh h n m = Some (Ok tt).
Proof.
  intros Hn Hm. destruct (rep_build _ _ _ B n Hn) as (t & E & I & Hb & Hu). unfold on_fresh. rewrite E.
  destruct (Hm t) as ([] & t' & -> & _); [by split|done|done|done].
Qed.

Lemma suite_passes : run_datagram fuel patience h = Some (Ok tt).
Proof.
  unfold run_datagram. rewrite !on_fresh_passes; [done|done|..]; try done; intros t Hh Hb Hu.
  - by apply pool_accounting_passes.
  - by apply exhaust_then_reclaim_passes.
  - by apply burst_bound_passes.
  - by apply payload_order_passes.
Qed.
End passing.
