(* ===== verification/ConformanceMock.v ===== *)
(** * transport-core: backends that pass the conformance suite

    The runs of [crates/transports/core/tests/bypass.rs] and [crates/transports/socket/tests/
    conformance.rs]: the mock driver under the shell meets [backend], hence passes; the mock
    under the shell and the decapsulator, and a socket over a scripted system, pass by
    evaluation; a driver that recycles too early does not. *)

From S2P Require Import Prelude TransportCore Pools Bypass FrameMemory Decap Conformance ConformanceDatagram ConformanceSpec.
From S2P Require Socket SocketSafety.
From Stdlib Require Import ZArith Lia.
From stdpp Require Import prelude list strings.

Open Scope Z_scope.
Open Scope res_scope.

Import FrameBatch (frames, cap, spare).
Import IndexPool (IndexFrame, frame_as_ref).

#[local] Existing Instances MockDriver.driver_instance MockDriver.driver_ok.

Definition STRIDE : Z := 2048.
Definition PORT : Z := 30001.
Definition DECAP_BURST : Z := 4.

(** [mock]; both [unwrap]s panic. *)
Definition mock (slots : Z) : res Violation MockDriver.t :=
  match IndexPool.new (fun _ => true) slots STRIDE with
  | Ok p => match MockDriver.new p with Ok d => Ok d | _ => Panic end
  | _ => Panic
  end.

(** [driver_mut]. *)
Definition on_driver {L} (f : MockDriver.t -> MockDriver.t) (b : BypassTransport L MockDriver.t) : BypassTransport L MockDriver.t :=
  Bypass (f (driver b)) (deferred b) (last_stats b) (calls b).

(** ** The mock under the shell *)

(** An [IndexFrame] reads through its pool; the shell's own metrics, which are off, read none. *)
#[local] Instance index_unread : AsRef IndexFrame := fun _ => [].

Definition l4_shell : DatagramHarness (BypassTransport L4 MockDriver.t) IndexFrame := {|
  build := fun slots => let* d := mock slots in Ok (Bypass.new (F := IndexFrame) d);
  inject := fun t bytes => on_driver (fun d => MockDriver.inject d bytes) t;
  drops := fun t => no_buffer (MockDriver.stats (driver t));
  exhaustion := DropCounter;
  ConformanceDatagram.read := fun t f => frame_as_ref (MockDriver.pool (driver t)) f;
  release := fun t f => on_driver (fun d => MockDriver.drop_live d f) t;
|}.

(** Sizes the suite asks for can be allocated. *)
Lemma index_new_ok n : 0 < n <= U32_MAX -> exists p, IndexPool.new (fun _ => true) n STRIDE = Ok p.
Proof.
  intros Hn. unfold IndexPool.new, validate.checked_product, checked_mul, STRIDE. rewrite (proj2 (Z.leb_le _ _)) by lia. cbn [ok_or].
  unfold Region.zeroed, Region.checked_next_multiple_of, Region.layout_size, VecPool.try_reserve, VecPool.ISIZE_MAX, Region.ALIGN.
  set (m := Z.max (n * 2048) 1). set (up := (m + 64 * 1024 - 1) / (64 * 1024) * (64 * 1024)).
  assert (Hup : 0 <= up <= m + 64 * 1024) by (unfold up; pose proof (Z.div_mod (m + 64 * 1024 - 1) (64 * 1024) ltac:(lia));
    pose proof (Z.mod_pos_bound (m + 64 * 1024 - 1) (64 * 1024) ltac:(lia)); lia).
  rewrite !(proj2 (Z.leb_le _ _)) by lia. cbn [ok_or andb]. by eexists.
Qed.

Lemma mock_ok n : 0 < n <= U32_MAX -> exists d, mock n = Ok d /\ MockDriver.wf d [] /\ MockDriver.queue d = [] /\
  IndexPool.count (MockDriver.pool d) = n /\ IndexPool.stride (MockDriver.pool d) = STRIDE /\ no_buffer (MockDriver.stats d) = 0.
Proof.
  intros Hn. destruct (index_new_ok n Hn) as [p E]. unfold mock. rewrite E.
  destruct (IndexPool.index_new_wf _ _ _ _ (proj1 Hn) (eq_refl : 0 < STRIDE) E) as (Hp & Hc & Hs & Hf & Hg).
  destruct (MockDriver.new p) as [d|e|] eqn:Ed.
  - exists d. pose proof (mock_new_inv _ _ Hp Ed) as (Hw & Hst & _). cbn [fst snd] in *. unfold MockDriver.new, IndexPool.drain_freed in Ed.
    cbv zeta in Ed. destruct (negb _); [done|]. simplify_eq. by split_and!.
  - unfold MockDriver.new, IndexPool.stats in Ed. cbn in Ed. by rewrite Hg in Ed.
  - unfold MockDriver.new, IndexPool.stats in Ed. cbn in Ed. by rewrite Hg in Ed.
Qed.

(** The mock's user sees a queue: nothing is late, and a datagram beyond the pool is lost at once. *)
Definition mock_rep (n : Z) (t : BypassTransport L4 MockDriver.t) (q : list (list byte)) (held : list IndexFrame) : Prop :=
  MockDriver.wf (driver t) held /\ deferred t = None /\ MockDriver.queued (driver t) = q /\
  IndexPool.count (MockDriver.pool (driver t)) = n /\ IndexPool.stride (MockDriver.pool (driver t)) = STRIDE.

Lemma mock_fits d live : MockDriver.wf d live -> len (MockDriver.queue d) + len live <= IndexPool.count (MockDriver.pool d).
Proof.
  intros Hw. pose proof (Permutation_length (MockDriver.w_places _ _ Hw)) as Hl. rewrite length_seqZ in Hl. unfold MockDriver.places in Hl.
  rewrite !length_app, !length_fmap in Hl. pose proof (MockDriver.w_pool _ _ Hw) as (_ & ? & _). unfold len. lia.
Qed.

Lemma inject_shape d bytes :
  IndexPool.count (MockDriver.pool (MockDriver.inject d bytes)) = IndexPool.count (MockDriver.pool d) /\
  IndexPool.stride (MockDriver.pool (MockDriver.inject d bytes)) = IndexPool.stride (MockDriver.pool d).
Proof. unfold MockDriver.inject. cbv zeta. by repeat case_match. Qed.

(** A datagram that fits a slot is queued, or counted when no slot is free. *)
Lemma inject_counts d live bytes :
  MockDriver.wf d live -> len bytes <= IndexPool.stride (MockDriver.pool d) -> IndexPool.stride (MockDriver.pool d) <= U32_MAX ->
  no_buffer (MockDriver.stats (MockDriver.inject d bytes)) =
    if decide (len (MockDriver.queue d) + len live < IndexPool.count (MockDriver.pool d)) then no_buffer (MockDriver.stats d)
    else u64_add (no_buffer (MockDriver.stats d)) 1.
Proof.
  intros Hw Hl Hs. destruct (MockDriver.inject_spec d live bytes Hw Hs) as (_ & _ & Hq). unfold MockDriver.inject in *. cbv zeta in *.
  unfold try_u32 in *. rewrite (proj2 (Z.leb_le (len bytes) U32_MAX)) in * by lia.
  change (IndexPool.stride (MockDriver.pool (MockDriver.recycle d))) with (IndexPool.stride (MockDriver.pool d)) in *.
  rewrite (proj2 (Z.leb_le _ _) Hl) in *. apply (f_equal length) in Hq.
  destruct (last _) as [s|]; unfold MockDriver.queued in Hq; case_decide; rewrite ?length_app, !length_fmap in Hq;
    cbn [MockDriver.queue MockDriver.recycle IndexPool.drain_freed length] in Hq; rewrite ?length_app in Hq; cbn [length] in Hq; try lia;
    case_decide; (done || lia || tauto).
Qed.

Lemma mock_inject n t q held bytes :
  mock_rep n t q held -> len bytes <= STRIDE ->
  let t' := inject l4_shell t bytes in
  keeps l4_shell t t' held /\
  (stays l4_shell n q held -> mock_rep n t' (q ++ [bytes]) held /\ drops l4_shell t' = drops l4_shell t) /\
  (~ stays l4_shell n q held -> drops l4_shell t < U64_MAX -> mock_rep n t' q held /\ drops l4_shell t < drops l4_shell t').
Proof.
  intros (Hw & Hd & Hq & Hc & Hs) Hl t'. assert (Hsu : IndexPool.stride (MockDriver.pool (driver t)) <= U32_MAX) by (by rewrite Hs).
  destruct (MockDriver.inject_spec _ _ bytes Hw Hsu) as (Hw' & Hk & Hq'). destruct (inject_shape (driver t) bytes) as [Hc' Hs'].
  pose proof (inject_counts _ _ bytes Hw ltac:(by rewrite Hs) Hsu) as Hn. rewrite Hc, Hs in *.
  assert (Hlq : len (MockDriver.queue (driver t)) = len q) by (rewrite <- Hq; unfold len, MockDriver.queued; by rewrite length_fmap).
  rewrite Hlq in *. unfold stays. split; [exact Hk|]. split.
  - intros [?|Hr]; [done|]. rewrite decide_True in Hq' by done. rewrite decide_True in Hn by done.
    split; [|exact Hn]. split_and!; cbn [t' inject l4_shell on_driver driver]; first [done|congruence].
  - intros Hr Hu. assert (~ len q + len held < n) by (intros ?; apply Hr; by right).
    rewrite decide_False in Hq' by tauto. rewrite decide_False in Hn by done.
    split; [split_and!; cbn [t' inject l4_shell on_driver driver]; first [done|congruence]|].
    cbn [drops l4_shell t' inject on_driver driver]. rewrite Hn. destruct (MockDriver.w_pool _ _ Hw) as (_ & _ & _).
    unfold u64_add. cbn [drops l4_shell] in Hu. destruct (decide (0 <= no_buffer (MockDriver.stats (driver t)))) as [H0|H0].
    + rewrite Z.mod_small by lia. lia.
    + pose proof (Z.mod_pos_bound (no_buffer (MockDriver.stats (driver t)) + 1) W64 ltac:(lia)). lia.
Qed.

Lemma mock_recv n t q held (out : FrameBatch.t IndexFrame) fuel :
  mock_rep n t q held -> 0 < spare out ->
  exists t' new q', recv_burst fuel t out = Some (Ok (len new), t', FrameBatch.Batch (frames out ++ new) (cap out)) /\
    mock_rep n t' q' (held ++ new) /\ keeps l4_shell t t' held /\ q = (ConformanceDatagram.read l4_shell t' <$> new) ++ q' /\
    len new <= spare out /\ drops l4_shell t' = drops l4_shell t /\ (new = [] -> q = []).
Proof.
  intros (Hw & Hd & Hq & Hc & Hs) Hsp. destruct t as [d def ls ca]. cbn [driver deferred] in *. subst def.
  destruct (MockDriver.poll fuel d out) as [[[r d'] [fs c]]|] eqn:E.
  2: { unfold MockDriver.poll in E. by destruct (MockDriver.collect _ _ _ _) as [[[? ?] ?] ?]. }
  destruct (MockDriver.poll_spec _ _ _ _ _ _ _ Hw E) as (new & Hf & Hcap & Hw' & Hqd & Hle & Hz & Hk & Hr & _). cbn [frames cap] in *. subst fs c.
  assert (Hsh : IndexPool.count (MockDriver.pool d') = IndexPool.count (MockDriver.pool d) /\
    IndexPool.stride (MockDriver.pool d') = IndexPool.stride (MockDriver.pool d) /\ MockDriver.stats d' = MockDriver.stats d).
  { unfold MockDriver.poll in E. cbv zeta in E. destruct (MockDriver.collect _ _ _ _) as [[[? ?] ?] ?] eqn:Ec. simplify_eq.
    apply MockDriver.collect_spec in Ec as (? & _ & _ & _ & _ & _ & _ & _ & _ & Hss & Hcc & _). done. }
  destruct Hsh as (Hc' & Hs' & Hst). exists (Bypass d' None ls ca), new, (MockDriver.queued d').
  assert (Hdiff : FrameBatch.len_ (FrameBatch.Batch (frames out ++ new) (cap out)) - FrameBatch.len_ out = len new) by (by apply batch_len_diff).
  split_and!; [| |exact Hk|by rewrite <- Hq|apply Hle; lia|by cbn; rewrite Hst|].
  - cbn [recv_burst Bypass_datagram]. rewrite shell_recv_poll. unfold shell_poll_frames. cbn [deferred driver poll_frames MockDriver.driver_instance].
    rewrite E, Hr, Hdiff. cbn [calls last_stats driver]. by destruct (len new =? 0).
  - split_and!; cbn [driver]; [done|done|done|congruence|congruence].
  - intros ->. cbn in Hqd. rewrite <- Hq, Hqd. destruct (MockDriver.queued d') as [|x l] eqn:Eq; [done|].
    specialize (Hz ltac:(done)). unfold spare, saturating_sub in *. cbn [frames cap] in Hz. rewrite app_nil_r in Hz. lia.
Qed.

(** The mock under the shell is the backend the suite describes. *)
Definition mock_backend : backend l4_shell STRIDE 0.
Proof.
  refine {| rep := mock_rep; lag := fun _ => O; due := drops l4_shell; base := fun _ => 0 |}.
  - done.
  - intros n t q held (Hw & _ & _ & Hc & _). pose proof (mock_fits _ _ Hw). pose proof (len_nonneg (MockDriver.queue (driver t))). lia.
  - done.
  - intros n t q held (Hw & _ & _ & Hc & _). pose proof (mock_fits _ _ Hw). pose proof (len_nonneg (MockDriver.queue (driver t))).
    cbn. rewrite (MockDriver.w_strong _ _ Hw). split; [done|lia].
  - intros n Hn. destruct (mock_ok n Hn) as (d & E & Hw & Hq & Hc & Hs & Hnb). exists (Bypass.new (F := IndexFrame) d).
    cbn [build l4_shell]. rewrite E. cbn. split; [done|]. split; [|split].
    + split_and!; try done. unfold MockDriver.queued. cbn. by rewrite Hq.
    + by rewrite (MockDriver.w_strong _ _ Hw).
    + by rewrite Hnb.
  - intros n t q held d Hr Hl. exact (mock_inject n t q held d Hr Hl).
  - intros n t q l1 f l2 (Hw & Hd & Hq & Hc & Hs).
    destruct (MockDriver.drop_wf (driver t) (l1 ++ f :: l2) (length l1) f Hw) as [Hw' Hq']; [by apply list_lookup_middle|].
    rewrite delete_middle in Hw'. split; [|done]. by split_and!.
  - intros n t q held out fuel Hr Hs _. destruct (mock_recv n t q held out fuel Hr Hs) as (t' & new & q' & E & Hr' & Hk & Hq & Hl & Hd & Hne).
    exists (Ok (len new)), t', new, q'. split_and!; try done.
    + intros _ _. left. by rewrite Hd.
    + intros Hq0 Hh0. subst held. rewrite Hq0 in Hq. symmetry in Hq. apply app_nil in Hq as [Hn _]. apply fmap_nil_inv in Hn. subst new.
      destruct Hr' as (Hw & _). cbn. by rewrite (MockDriver.w_strong _ _ Hw).
    + intros Hn Hq0. by specialize (Hne Hn).
Defined.

(** ** The mock under the shell under the decapsulator *)

(** [support::udp_frame]. *)
Definition udp_frame (dst_port : Z) (payload_ : list byte) : list byte :=
  encode_frame {| macs := Z_byte <$> [0x01; 0x00; 0x5e; 0x01; 0x01; 0x01; 0x02; 0; 0; 0; 0; 1]; vlan := None; words := 5; tos := Byte.x00;
    ident := (Byte.x00, Byte.x00); flags := 0x4000; ttl := Byte.x40; csum := (Byte.x00, Byte.x00);
    src := (Byte.x0a, Byte.x00, Byte.x00, Byte.x01); dst := (Byte.xef, Byte.x01, Byte.x01, Byte.x01); options := [];
    sport := 40000; dport := dst_port; ucsum := (Byte.x00, Byte.x00); payload := payload_; Decap.tail := []; pad := [] |}.

#[local] Instance mock_copies : Driver MockDriver.t (IndexFrame * list byte) := copied MockDriver.pool.

Definition on_inner {L} (f : MockDriver.t -> MockDriver.t) (t : UdpDecap (BypassTransport L MockDriver.t) (IndexFrame * list byte))
    : UdpDecap (BypassTransport L MockDriver.t) (IndexFrame * list byte) :=
  Decap (on_driver f (inner t)) (dst_port t) (dst_ip t) (collected t) (pending t) (stats t).

(** The payload's bytes are read out of the pool as it is now. *)
Definition l2_shell : DatagramHarness (UdpDecap (BypassTransport L2 MockDriver.t) (IndexFrame * list byte)) (DecapFrame (IndexFrame * list byte)) := {|
  build := fun slots => let* d := mock slots in
    Ok (Decap.new (Bypass.new (F := IndexFrame * list byte) d) PORT None DECAP_BURST);
  inject := fun t bytes => on_inner (fun d => MockDriver.inject d (udp_frame PORT bytes)) t;
  drops := fun t => no_buffer (MockDriver.stats (driver (inner t)));
  exhaustion := DropCounter;
  ConformanceDatagram.read := fun t f =>
    default [] (get_range (df_payload f).1 (df_payload f).2 (frame_as_ref (MockDriver.pool (driver (inner t))) (frame f).1));
  release := fun t f => on_inner (fun d => MockDriver.drop_live d (frame f).1) t;
|}.

(** ** A socket over a scripted system *)

#[local] Existing Instances Socket.UdpSocket_recv SocketSafety.Script_sys.

Definition socket_script : DatagramHarness (Socket.UdpSocket SocketSafety.Script) Socket.UdpFrame := {|
  build := fun slabs =>
    match VecPool.new (fun _ => true) slabs STRIDE with
    | Ok p => Ok (Socket.Udp {| SocketSafety.items := [] |} p None)
    | _ => Panic
    end;
  inject := fun t bytes => Socket.Udp {| SocketSafety.items := SocketSafety.items (Socket.sock t) ++ [Ok (bytes, Some Socket.NO_PEER)] |}
    (Socket.pool t) (Socket.deferred t);
  drops := fun _ => 0;
  exhaustion := SPoolExhausted;
  ConformanceDatagram.read := fun _ f => Socket.UdpFrame_as_ref f;
  release := Socket.drop_live;
|}.

(** ** Harnesses of backends that break the contract *)

Definition with_inject {T F} (f : T -> list byte -> T) (h : DatagramHarness T F) : DatagramHarness T F :=
  Harness T F (build h) f (drops h) (exhaustion h) (ConformanceDatagram.read h) (release h).

(** A datagram loses its last byte. *)
Definition cut_short : DatagramHarness (BypassTransport L4 MockDriver.t) IndexFrame :=
  with_inject (fun t bytes => inject l4_shell t (take (length bytes - 1) bytes)) l4_shell.

(** The slot of a delivered frame is free at once, though the frame is held. *)
Definition reused : DatagramHarness (BypassTransport L4 MockDriver.t) IndexFrame :=
  with_inject (fun t bytes => inject l4_shell (on_driver (fun d =>
    MockDriver.Mock (MockDriver.pool d) (seqZ 0 (IndexPool.count (MockDriver.pool d))) (MockDriver.freed d) (MockDriver.queue d) (MockDriver.stats d)) t) bytes) l4_shell.

(** Frames never give their slot back. *)
Definition leaking : DatagramHarness (BypassTransport L4 MockDriver.t) IndexFrame :=
  Harness _ _ (build l4_shell) (inject l4_shell) (drops l4_shell) DropCounter (ConformanceDatagram.read l4_shell) (fun t _ => t).

(** What the suite says of them. *)
Definition verdict {T F} `{DatagramRecv T F} (h : DatagramHarness T F) : option (string * string) :=
  match run_datagram 9 2 h with Some (Err v) => Some (vcase v, observed v) | _ => None end.

Example broken_caught :
  (verdict cut_short, verdict reused, verdict leaking) =
  (Some ("payload order", "frame"), Some ("payload order", "frame"), Some ("reclaim", "datagram"))%string.
Proof. vm_compute. reflexivity. Qed.

Lemma others_pass : run_datagram 9 2 l2_shell = Some (Ok tt) /\ run_datagram 9 2 socket_script = Some (Ok tt).
Proof. split; vm_compute; reflexivity. Qed.

(** ** Properties *)

(** C23: Every backend that meets the specification, a queue of datagrams of up to 1200 bytes
    over a pool of known size with frames that keep their bytes, passes [run_datagram]: every
    wait ends within the patience, no check of the suite fails, nothing panics. *)
Theorem backend_passes {T F} `{DatagramRecv T F} (h : DatagramHarness T F) max slack (B : backend h max slack) fuel patience :
  1200 <= max -> (3 * slack + 2 <= patience)%nat -> (8 < fuel)%nat -> run_datagram fuel patience h = Some (Ok tt).
Proof. intros Hm Hp Hf. exact (suite_passes h max slack B fuel patience Hp Hm Hf). Qed.

Lemma backend_passes_witness : run_datagram 9 2 l4_shell = Some (Ok tt).
Proof. apply (backend_passes l4_shell STRIDE 0 mock_backend 9 2); [done|lia|lia]. Defined.
