(* ===== verification/ConformanceStream.v ===== *)
(** * transport-core: the conformance suite, streams

    Models [crates/transports/core/src/testing/conformance/stream.rs]: [run_stream] and
    [run_stream_async] over a transport connected to a blocking peer, whose writes and reads run
    on threads. [stream_backend] is the specification they test: what the peer wrote comes once
    and in order, then its end; what is sent reaches it. A stream that meets it passes. *)

From S2P Require Import Prelude TransportCore Conformance.
From Stdlib Require Import ZArith Lia.
From stdpp Require Import prelude list strings.

Open Scope Z_scope.
Open Scope res_scope.

Definition READ_CHUNK : Z := 16 * 1024.
Definition ORDER_LEN : Z := 256 * 1024.
Definition ORDER_SEED : Z := 401.
Definition TAIL_LEN : Z := 1024.
Definition TRY_SEND_LEN : Z := 4 * 1024 * 1024.
Definition SEND_ALL_LEN : Z := 8 * 1024 * 1024.

(** The transport's state includes the peer, its threads and the bytes in flight. [pair] connects;
    the writer's and the reader's answers are those of their [join]. *)
Record StreamHarness (T : Type) := Pair {
  pair : T;
  spawn_writer : T -> list byte -> T;
  join_writer : T -> res io_Error unit * T;
  send_then_shutdown : T -> list byte -> option io_Error * T;
  spawn_reader : T -> Z -> T;
  join_reader : T -> Z -> res io_Error (list byte) * T;
}.
Arguments pair {T}.
Arguments spawn_writer {T}.
Arguments join_writer {T}.
Arguments send_then_shutdown {T}.
Arguments spawn_reader {T}.
Arguments join_reader {T}.

Section cases.
Context {T : Type} `{StreamRecv T} (patience : nat) (h : StreamHarness T).

(** One call on the transport. *)
Definition calls {A} (f : T -> res TransportError A * T) : suite T (res TransportError A) := fun t =>
  match f t with
  | (Panic, t) => Some (Panic, t)
  | (r, t) => Some (Ok r, t)
  end.

(** [join_peer]. *)
Definition join_peer {A} (f : T -> res io_Error A * T) (case_ : string) : suite T A := fun t =>
  match f t with
  | (Ok a, t) => Some (Ok a, t)
  | (Err _, t) => violate case_ "peer I/O failed" t
  | (Panic, t) => Some (Panic, t)
  end.

(** [recv_append]; on an error the buffer is as it was. *)
Definition recv_append (buf : list byte) (max : Z) (case_ : string) : suite T (res TransportError Z * list byte) :=
  r ← calls (fun t => recv_into t max);
  match r with
  | Ok w => _ ← check (len w <=? max) case_ "recv_into reported more bytes than its destination"; mret (Ok (len w), buf ++ w)
  | Err e => mret (Err e, buf)
  | Panic => panics
  end.

Definition reads_idle (n : Z) (case_ what : string) : suite T unit :=
  r ← calls (fun t => recv_into t n);
  check (match r with Ok w => len w =? 0 | _ => false end) case_ what.

Definition assert_idle (case_ : string) : suite T unit :=
  _ ← reads_idle 0 case_ "recv_into on empty destination"; reads_idle 64 case_ "recv_into on idle open stream".

Definition assert_within_tail (read : Z) (case_ : string) : suite T unit := check (read <=? TAIL_LEN) case_ "read past what peer sent".

Definition assert_order_done (got : list byte) (case_ : string) : suite T unit :=
  _ ← join_peer (join_writer h) case_;
  _ ← assert_bytes got (pattern ORDER_SEED ORDER_LEN) case_ "stream bytes";
  assert_idle case_.

Definition start_writer (bytes : list byte) : suite T unit := modify (fun t => spawn_writer h t bytes).

Definition close_with (bytes : list byte) (case_ : string) : suite T unit := fun t =>
  match send_then_shutdown h t bytes with
  | (None, t) => Some (Ok tt, t)
  | (Some _, t) => violate case_ "peer write then shutdown failed" t
  end.

(** *** The synchronous cases *)

Definition stream_idle : suite T unit := assert_idle "stream idle".

Definition attempt_order (max : Z) (case_ : string) (got : list byte) : suite T (option unit * list byte) :=
  '(r, got) ← recv_append got max case_;
  match r with
  | Ok n => mret (if n =? 0 then None else Some tt, got)
  | _ => violate case_ "recv_into failed"
  end.

(** The [while] of [stream_order] with its wait as a parameter. *)
Fixpoint order_rounds (wait : Z -> list byte -> suite T (list byte)) (rounds : nat) (got : list byte) : suite T (list byte) :=
  if len got <? ORDER_LEN then
    match rounds with
    | O => hangs
    | S rounds => got ← wait (Z.min READ_CHUNK (ORDER_LEN - len got)) got; order_rounds wait rounds got
    end
  else mret got.

Definition stream_order : suite T unit :=
  let case_ := "stream order" in
  _ ← start_writer (pattern ORDER_SEED ORDER_LEN);
  got ← order_rounds (fun max got => '(_, got) ← poll_until patience case_ "stream bytes" (attempt_order max case_) got; mret got)
          (Z.to_nat ORDER_LEN) [];
  assert_order_done got case_.

Definition attempt_closed (case_ : string) (got : list byte) : suite T (option unit * list byte) :=
  '(r, got) ← recv_append got READ_CHUNK case_;
  match r with
  | Ok _ => _ ← assert_within_tail (len got) case_; mret (None, got)
  | Err PeerClosed => mret (Some tt, got)
  | _ => violate case_ "recv_into failed"
  end.

Definition stream_closed : suite T unit :=
  let case_ := "stream peer closed" in
  let tail := pattern 402 TAIL_LEN in
  _ ← close_with tail case_;
  '(_, got) ← poll_until patience case_ "PeerClosed" (attempt_closed case_) [];
  assert_bytes got tail case_ "bytes before close".

Section try_send.
Context `{!StreamTrySend T}.

Definition attempt_send (rest : list byte) (case_ : string) (_ : unit) : suite T (option Z * unit) :=
  r ← calls (fun t => try_send t rest);
  match r with
  | Ok n => mret (if n =? 0 then None else Some n, tt)
  | _ => violate case_ "try_send failed"
  end.

(** The [while] of [stream_try_send]; [sent] bytes of [data] are out. *)
Fixpoint send_rounds (rounds : nat) (data : list byte) (sent : Z) (case_ : string) : suite T unit :=
  if sent <? len data then
    match rounds with
    | O => hangs
    | S rounds =>
        let rest := drop (Z.to_nat sent) data in
        '(n, _) ← poll_until patience case_ "try_send progress" (attempt_send rest case_) tt;
        _ ← check (n <=? len rest) case_ "try_send reported more bytes than offered";
        send_rounds rounds data (sent + n) case_
    end
  else mret tt.

Definition stream_try_send : suite T unit :=
  let case_ := "stream try_send" in
  _ ← modify (fun t => spawn_reader h t TRY_SEND_LEN);
  let data := pattern 403 TRY_SEND_LEN in
  _ ← send_rounds (Z.to_nat TRY_SEND_LEN) data 0 case_;
  received ← join_peer (fun t => join_reader h t TRY_SEND_LEN) case_;
  assert_bytes received data case_ "peer received".
End try_send.

(** A case on a fresh pair. *)
Definition on_pair (m : suite T unit) : option (res Violation unit) := fst <$> m (pair h).

Definition run_stream `{!StreamTrySend T} : option (res Violation unit) :=
  and_next (on_pair stream_idle) (and_next (on_pair stream_order) (and_next (on_pair stream_closed) (on_pair stream_try_send))).

(** *** The asynchronous cases *)

Section async.
Context `{!StreamSend T, !AsyncReady T}.

(** [wait_ready]: the future polled until it resolves; the caller's timeout ends it. *)
Fixpoint wait_ready (polls : nat) (case_ : string) : suite T unit := fun t =>
  match poll_ready t with
  | (Some (Ok _), t) => Some (Ok tt, t)
  | (Some (Err _), t) => violate case_ "ready() failed" t
  | (Some Panic, t) => Some (Panic, t)
  | (None, t) => match polls with O => None | S polls => wait_ready polls case_ t end
  end.

Definition order_wait_async (case_ : string) (max : Z) (got : list byte) : suite T (list byte) :=
  _ ← wait_ready patience case_;
  '(r, got) ← recv_append got max case_;
  match r with
  | Ok n => _ ← check (negb (n =? 0)) case_ "ready() resolved, then recv_into returned Ok(0)"; mret got
  | _ => violate case_ "recv_into failed"
  end.

Definition stream_order_async : suite T unit :=
  let case_ := "stream order async" in
  _ ← start_writer (pattern ORDER_SEED ORDER_LEN);
  got ← order_rounds (order_wait_async case_) (Z.to_nat ORDER_LEN) [];
  assert_order_done got case_.

(** The [loop] of [stream_closed_async]: each round but the last reads. *)
Fixpoint closed_rounds (rounds : nat) (got : list byte) (case_ : string) : suite T (list byte) :=
  _ ← wait_ready patience case_;
  '(r, got) ← recv_append got READ_CHUNK case_;
  match r with
  | Ok n =>
      _ ← check (negb (n =? 0)) case_ "ready() resolved, then recv_into returned Ok(0)";
      _ ← assert_within_tail (len got) case_;
      match rounds with O => hangs | S rounds => closed_rounds rounds got case_ end
  | Err PeerClosed => mret got
  | _ => violate case_ "recv_into failed"
  end.

Definition stream_closed_async : suite T unit :=
  let case_ := "stream peer closed async" in
  let tail := pattern 402 TAIL_LEN in
  _ ← close_with tail case_;
  got ← closed_rounds (Z.to_nat TAIL_LEN) [] case_;
  assert_bytes got tail case_ "bytes before close".

Definition stream_send_all : suite T unit :=
  let case_ := "stream send_all" in
  _ ← modify (fun t => spawn_reader h t SEND_ALL_LEN);
  let data := pattern 404 SEND_ALL_LEN in
  r ← calls (fun t => send_all t data);
  _ ← check (is_ok r) case_ "send_all failed";
  received ← join_peer (fun t => join_reader h t SEND_ALL_LEN) case_;
  assert_bytes received data case_ "peer received".

Definition run_stream_async : option (res Violation unit) :=
  and_next (on_pair stream_idle) (and_next (on_pair stream_order_async)
    (and_next (on_pair stream_closed_async) (on_pair stream_send_all))).
End async.
End cases.
