(* ===== verification/ConformanceStreamSpec.v ===== *)
(** * transport-core: what a stream promises

    [stream_backend] specifies a stream with its peer: what the peer wrote, whether it stopped
    writing, what it was sent. Every stream that meets it passes [run_stream] and, with the
    asynchronous operations, [run_stream_async]; TCP over a scripted system meets it. *)

From S2P Require Import Prelude TransportCore Conformance ConformanceStream.
From S2P Require Socket SocketSafety.
From Stdlib Require Import ZArith Lia.
From stdpp Require Import prelude list strings.

Open Scope Z_scope.
Open Scope res_scope.

(** [srep t v c s rd]: the peer wrote [v] that was not read yet, and stopped writing when [c];
    [s] was sent, and a peer thread reads when [rd]. [slag t] reads or writes may yet make no
    progress though they could. *)
Record stream_backend {T} `{StreamRecv T} (h : StreamHarness T) (slack : nat) := StreamBackend {
  srep : T -> list byte -> bool -> list byte -> bool -> Prop;
  slag : T -> nat;
  s_lag t v c s rd : srep t v c s rd -> (slag t <= slack)%nat;
  s_pair : srep (pair h) [] false [] false;
  s_writer t bytes s rd : srep t [] false s rd -> srep (spawn_writer h t bytes) bytes false s rd;
  s_joined t s rd : srep t [] false s rd -> exists t', join_writer h t = (Ok tt, t') /\ srep t' [] false s rd;
  s_close t bytes s rd : srep t [] false s rd -> exists t', send_then_shutdown h t bytes = (None, t') /\ srep t' bytes true s rd;
  s_reader t v c s n : srep t v c s false -> srep (spawn_reader h t n) v c s true;
  s_received t v c s : srep t v c s true -> exists t', join_reader h t (len s) = (Ok s, t');
  s_recv t v c s rd n r t' : srep t v c s rd -> 0 <= n -> recv_into t n = (r, t') ->
    match r with
    | Ok w => exists v', len w <= n /\ v = w ++ v' /\ srep t' v' c s rd /\
        (w = [] -> 0 < n -> v <> [] \/ c = true -> (slag t' < slag t)%nat)
    | Err PeerClosed => v = [] /\ c = true /\ srep t' v c s rd
    | _ => False
    end;
}.
Arguments srep {T _ h slack}.
Arguments slag {T _ h slack}.

Record sends {T} `{StreamRecv T, StreamTrySend T} (h : StreamHarness T) (slack : nat) (B : stream_backend h slack) := Sends {
  s_send t v c s bytes r t' : srep B t v c s true -> try_send t bytes = (r, t') ->
    exists n, r = Ok n /\ 0 <= n <= len bytes /\ srep B t' v c (s ++ take (Z.to_nat n) bytes) true /\
      (n = 0 -> bytes <> [] -> (slag B t' < slag B t)%nat);
}.

Record readies {T} `{StreamRecv T, StreamSend T, AsyncReady T} (h : StreamHarness T) (slack : nat) (B : stream_backend h slack) := Readies {
  s_ready t v c s rd r t' : srep B t v c s rd -> poll_ready t = (r, t') ->
    srep B t' v c s rd /\
    match r with
    | Some (Ok _) => slag B t' = O
    | None => v <> [] \/ c = true -> (slag B t' < slag B t)%nat
    | _ => False
    end;
  s_send_all t v c s bytes : srep B t v c s true ->
    exists t', send_all t bytes = (Ok tt, t') /\ srep B t' v c (s ++ bytes) true;
}.

Section passing.
Context {T : Type} `{StreamRecv T} (h : StreamHarness T) (slack : nat) (B : stream_backend h slack) (patience : nat).
Implicit Types (t : T) (got : list byte).

Lemma recv_append_passes got max case_ t v c s rd :
  srep B t v c s rd -> 0 <= max ->
  passes (recv_append got max case_) t (fun x t' => match x.1 with
    | Ok n => exists w v', x.2 = got ++ w /\ n = len w /\ len w <= max /\ v = w ++ v' /\ srep B t' v' c s rd /\
        (w = [] -> 0 < max -> v <> [] \/ c = true -> (slag B t' < slag B t)%nat)
    | Err e => e = PeerClosed /\ v = [] /\ c = true /\ srep B t' [] c s rd /\ x.2 = got
    | Panic => False
    end).
Proof.
  intros I Hm. unfold recv_append. eapply (passes_bind _ _ _ (fun r t' => recv_into t max = (r, t'))).
  { unfold calls, passes. destruct (recv_into t max) as [r t'] eqn:E. pose proof (s_recv _ _ B _ _ _ _ _ _ _ _ I Hm E) as Hr.
    destruct r as [w|e|]; [by eexists _, _|by eexists _, _|done]. }
  intros r t' E. pose proof (s_recv _ _ B _ _ _ _ _ _ _ _ I Hm E) as Hr. destruct r as [w|e|]; [| |done].
  - destruct Hr as (v' & Hl & Hv & I' & Hlag). eapply passes_bind; [apply (passes_check _ _ _ _ (fun _ u => u = t')); [by apply Z.leb_le|done]|].
    intros _ u ->. apply passes_ret. cbn [fst snd]. by exists w, v'.
  - destruct e; try done. destruct Hr as (-> & -> & I'). by apply passes_ret.
Qed.

Lemma assert_idle_passes case_ t s rd :
  srep B t [] false s rd -> passes (assert_idle case_) t (fun _ t' => srep B t' [] false s rd).
Proof.
  assert (Hone : forall n w t, 0 <= n -> srep B t [] false s rd -> passes (reads_idle n case_ w) t (fun _ t' => srep B t' [] false s rd)).
  { clear t. intros n w t Hn I. unfold reads_idle. eapply (passes_bind _ _ _ (fun r t' => recv_into t n = (r, t'))).
    { unfold calls, passes. destruct (recv_into t n) as [r t'] eqn:E. pose proof (s_recv _ _ B _ _ _ _ _ _ _ _ I Hn E) as Hr.
      destruct r as [x|e|]; [by eexists _, _|by eexists _, _|done]. }
    intros r t' E. pose proof (s_recv _ _ B _ _ _ _ _ _ _ _ I Hn E) as Hr. destruct r as [x|e|]; [|by destruct e; try done; destruct Hr as (_ & ? & _)|done].
    destruct Hr as (v' & _ & Hv & I' & _). symmetry in Hv. apply app_nil in Hv as [-> ->]. by apply passes_check. }
  intros I. unfold assert_idle. eapply passes_bind; [by apply Hone|]. intros ? t' I'. by apply Hone.
Qed.

(** The loops over what the peer wrote, for any wait that reads some of it. *)
Definition reads_some (wait : Z -> list byte -> suite T (list byte)) : Prop := forall max got t v s rd,
  srep B t v false s rd -> v <> [] -> 0 < max ->
  passes (wait max got) t (fun got' t' => exists w v', got' = got ++ w /\ w <> [] /\ len w <= max /\ v = w ++ v' /\ srep B t' v' false s rd).

Lemma order_rounds_passes wait rounds got t v s rd :
  reads_some wait -> srep B t v false s rd -> len got + len v = ORDER_LEN -> (length v <= rounds)%nat ->
  passes (order_rounds wait rounds got) t (fun all t' => all = got ++ v /\ srep B t' [] false s rd).
Proof.
  intros Hw. revert got t v. induction rounds as [|rounds IH]; intros got t v I Hl Hr; cbn [order_rounds].
  - destruct v; [|simpl in Hr; lia]. rewrite len_nil in Hl. rewrite (proj2 (Z.ltb_ge _ _)) by lia. apply passes_ret. by rewrite app_nil_r.
  - pose proof (len_nonneg v). destruct (len got <? ORDER_LEN) eqn:E; bool_facts.
    2: { assert (v = []) as -> by (destruct v; [done|rewrite len_cons in *; pose proof (len_nonneg v); lia]).
         apply passes_ret. by rewrite app_nil_r. }
    eapply passes_bind; [apply (Hw _ got t v s rd I); [intros ->; rewrite len_nil in Hl; lia|unfold READ_CHUNK; lia]|].
    intros got' t' (w & v' & -> & Hne & _ & -> & I'). rewrite app_assoc. rewrite len_app in Hl. rewrite length_app in Hr.
    apply IH; [done|rewrite len_app; lia|destruct w; [done|simpl in Hr; lia]].
Qed.

Lemma order_done_passes case_ got t s rd :
  got = pattern ORDER_SEED ORDER_LEN -> srep B t [] false s rd -> passes (assert_order_done h got case_) t (fun _ _ => True).
Proof.
  intros Hg I. unfold assert_order_done. destruct (s_joined _ _ B _ _ _ I) as (t1 & E & I1).
  eapply (passes_bind _ _ _ (fun _ t' => t' = t1)); [by exists tt, t1; split; [unfold join_peer; rewrite E|]|].
  intros _ t' ->. eapply passes_bind; [apply (passes_check _ _ _ _ (fun _ t' => t' = t1)); [by apply bool_decide_true|done]|].
  intros _ t' ->. eapply passes_mono; [by eapply assert_idle_passes|done].
Qed.

(** The order case, for any bytes of its length. *)
Lemma order_passes wait case_ rounds p t :
  reads_some wait -> p = pattern ORDER_SEED ORDER_LEN -> len p = ORDER_LEN -> ORDER_LEN <= Z.of_nat rounds -> srep B t [] false [] false ->
  passes (_ ← start_writer h p; got ← order_rounds wait rounds []; assert_order_done h got case_) t (fun _ _ => True).
Proof.
  intros Hw Hp Hl Hr I. eapply (passes_bind _ _ _ (fun _ t' => srep B t' p false [] false)).
  { apply passes_modify. by apply s_writer. }
  intros ? t1 I1. eapply passes_bind; [apply (order_rounds_passes wait _ [] t1 p [] false Hw I1)|].
  { rewrite len_nil. lia. }
  { unfold len in Hl. lia. }
  intros got t2 [-> I2]. by eapply order_done_passes.
Qed.

Lemma close_passes bytes case_ t s rd :
  srep B t [] false s rd -> passes (close_with h bytes case_) t (fun _ t' => srep B t' bytes true s rd).
Proof.
  intros I. destruct (s_close _ _ B _ bytes _ _ I) as (t' & E & I'). exists tt, t'. split; [|done]. unfold close_with. by rewrite E.
Qed.

(** *** The synchronous cases *)

Lemma stream_order_wait case_ : (slack <= patience)%nat ->
  reads_some (fun max got => '(_, got) ← poll_until patience case_ "stream bytes" (attempt_order max case_) got; mret got).
Proof.
  intros Hp max got t v s rd I Hv Hm.
  eapply (passes_bind _ _ _ (fun x t' => exists w v', x.2 = got ++ w /\ w <> [] /\ len w <= max /\ v = w ++ v' /\ srep B t' v' false s rd)).
  2: { intros [[] got'] t' Hx. by apply passes_ret. }
  apply (passes_until (fun m got1 t1 => m = slag B t1 /\ got1 = got /\ srep B t1 v false s rd) _ _ _ _ _ (slag B t)).
  - intros m got1 t1 (-> & -> & I1) _. unfold attempt_order. eapply passes_bind; [apply (recv_append_passes got max case_ _ _ _ _ _ I1); lia|].
    intros [[n|e|] got2] t2 Hx; cbn [fst snd] in Hx; [|by destruct Hx as (_ & _ & ? & _)|done].
    destruct Hx as (w & v' & -> & -> & Hlw & Hvw & I2 & Hlag). apply passes_ret. destruct (len w =? 0) eqn:E; bool_facts.
    + assert (w = []) as -> by (destruct w; [done|rewrite len_cons in E; pose proof (len_nonneg w); lia]).
      exists (slag B t2). split; [apply Hlag; [done|lia|by left]|]. rewrite app_nil_r. split_and!; [done|done|]. by rewrite Hvw.
    + exists w, v'. split_and!; try done. intros ->. by rewrite len_nil in E.
  - done.
  - pose proof (s_lag _ _ B _ _ _ _ _ I). lia.
Qed.

Lemma stream_closed_passes t : srep B t [] false [] false -> (1025 * (slack + 1) <= patience)%nat ->
  passes (stream_closed patience h) t (fun _ _ => True).
Proof.
  intros I Hp. unfold stream_closed. cbv zeta. generalize (pattern_len 402 TAIL_LEN ltac:(done)). generalize (pattern 402 TAIL_LEN).
  intros tail Hl.
  eapply passes_bind; [by apply (close_passes tail _ _ [] false)|]. intros ? t1 I1.
  eapply (passes_bind _ _ _ (fun x t' => x.2 = tail)).
  2: { intros [[] got] t2 Hg. cbn in Hg. by apply passes_check; [apply bool_decide_true|]. }
  apply (passes_until (fun m got t1 => exists v, m = (length v * (slack + 1) + slag B t1)%nat /\ tail = got ++ v /\ srep B t1 v true [] false)
    _ _ _ _ _ (length tail * (slack + 1) + slag B t1)%nat).
  - intros m got t2 (v & -> & Ht & I2) _. unfold attempt_closed. eapply passes_bind; [apply (recv_append_passes got READ_CHUNK _ _ _ _ _ _ I2); done|].
    intros [[n|e|] got2] t3 Hx; cbn [fst snd] in Hx; [| |done].
    + destruct Hx as (w & v' & -> & -> & Hlw & -> & I3 & Hlag). rewrite app_assoc in Ht.
      eapply passes_bind; [apply (passes_check _ _ _ _ (fun _ t' => t' = t3)); [|done]|].
      { apply Z.leb_le. apply (f_equal len) in Ht. rewrite len_app in Ht. pose proof (len_nonneg v'). lia. }
      intros _ t' ->. apply passes_ret. exists (length v' * (slack + 1) + slag B t3)%nat. split; [|by exists v'].
      rewrite length_app. destruct w as [|b w].
      * specialize (Hlag eq_refl ltac:(done) (or_intror eq_refl)). simpl. lia.
      * pose proof (s_lag _ _ B _ _ _ _ _ I3). simpl. nia.
    + destruct Hx as (-> & -> & _ & _ & ->). apply passes_ret. cbn. by rewrite Ht, app_nil_r.
  - by exists tail.
  - pose proof (s_lag _ _ B _ _ _ _ _ I1). unfold len, TAIL_LEN in Hl. nia.
Qed.

Lemma on_pair_passes m : (srep B (pair h) [] false [] false -> passes m (pair h) (fun _ _ => True)) -> on_pair h m = Some (Ok tt).
Proof. intros Hm. destruct (Hm (s_pair _ _ B)) as ([] & t & E & _). unfold on_pair. by rewrite E. Qed.

Lemma idle_case_passes t : srep B t [] false [] false -> passes stream_idle t (fun _ _ => True).
Proof. intros I. eapply passes_mono; [by apply (assert_idle_passes _ t [] false)|done]. Qed.

Lemma to_nat_enough n : 0 <= n -> n <= Z.of_nat (Z.to_nat n).
Proof. intros Hn. rewrite Z2Nat.id by done. apply Z.le_refl. Qed.

Lemma join_reader_passes case_ n data t v c :
  srep B t v c data true -> len data = n ->
  passes (received ← join_peer (fun t => join_reader h t n) case_; assert_bytes received data case_ "peer received") t (fun _ _ => True).
Proof.
  intros I <-. destruct (s_received _ _ B _ _ _ _ I) as (t1 & E).
  eapply (passes_bind _ _ _ (fun got t' => got = data)); [exists data, t1; split; [unfold join_peer; by rewrite E|done]|].
  intros got t' ->. apply passes_check; [by apply bool_decide_true|done].
Qed.

Section try_send.
Context `{!StreamTrySend T} (S : sends h slack B).

Lemma send_rounds_passes case_ rounds data s t v c :
  (slack <= patience)%nat -> srep B t v c s true -> s = take (length s) data -> (length s <= length data)%nat ->
  (length data - length s <= rounds)%nat ->
  passes (send_rounds patience rounds data (len s) case_) t (fun _ t' => srep B t' v c data true).
Proof.
  intros Hp. revert s t. induction rounds as [|rounds IH]; intros s t I Hs Hl Hr; cbn [send_rounds].
  - rewrite (proj2 (Z.ltb_ge _ _)) by (unfold len; lia). apply passes_ret.
    replace data with s; [done|]. rewrite Hs. apply take_ge. lia.
  - destruct (len s <? len data) eqn:E; bool_facts.
    2: { apply passes_ret. replace data with s; [done|]. rewrite Hs. apply take_ge. unfold len in E. lia. }
    replace (Z.to_nat (len s)) with (length s) by (unfold len; lia). set (rest := drop (length s) data).
    assert (Hne : rest <> []) by (intros En; apply (f_equal length) in En; unfold rest in En; rewrite length_drop in En; unfold len in E; simpl in En; lia).
    eapply (passes_bind _ _ _ (fun x t' => 0 < x.1 <= len rest /\ srep B t' v c (s ++ take (Z.to_nat x.1) rest) true)).
    + apply (passes_until (fun m _ t1 => m = slag B t1 /\ srep B t1 v c s true) _ _ _ _ _ (slag B t)).
      * intros m [] t1 (-> & I1) _. unfold attempt_send.
        eapply (passes_bind _ _ _ (fun r t' => try_send t1 rest = (r, t'))).
        { unfold calls, passes. destruct (try_send t1 rest) as [r t'] eqn:Et. destruct (s_send _ _ _ S _ _ _ _ _ _ _ I1 Et) as (n & -> & _). by eexists _, _. }
        intros r t' Et. destruct (s_send _ _ _ S _ _ _ _ _ _ _ I1 Et) as (n & -> & Hn & I2 & Hlag). apply passes_ret.
        destruct (n =? 0) eqn:E0; bool_facts; [|cbn; split; [lia|done]]. exists (slag B t'). split; [by apply Hlag|].
        subst n. rewrite take_0, app_nil_r in I2. done.
      * done.
      * pose proof (s_lag _ _ B _ _ _ _ _ I). lia.
    + intros [n u] t1 [Hn I1]. cbn [fst] in *. eapply passes_bind; [apply (passes_check _ _ _ _ (fun _ t' => t' = t1)); [apply Z.leb_le; lia|done]|].
      intros _ t' ->. assert (Hlr : length rest = (length data - length s)%nat) by (unfold rest; apply length_drop).
      assert (Hlt : length (take (Z.to_nat n) rest) = Z.to_nat n) by (rewrite length_take; unfold len in Hn; lia).
      replace (len s + n) with (len (s ++ take (Z.to_nat n) rest)) by (rewrite len_app; unfold len at 2; rewrite Hlt; lia).
      apply IH; [done| |rewrite length_app, Hlt; unfold len in Hn; lia..].
      rewrite length_app, Hlt, <- take_take_drop. by rewrite <- Hs.
Qed.

Lemma try_send_passes t : (slack <= patience)%nat -> srep B t [] false [] false -> passes (stream_try_send patience h) t (fun _ _ => True).
Proof.
  intros Hp I. unfold stream_try_send. cbv zeta. generalize (pattern_len 403 TRY_SEND_LEN ltac:(done)). generalize (pattern 403 TRY_SEND_LEN).
  pose proof (to_nat_enough TRY_SEND_LEN ltac:(done)) as Hr. revert Hr. generalize (Z.to_nat TRY_SEND_LEN). intros rounds Hr data Hl.
  eapply (passes_bind _ _ _ (fun _ t' => srep B t' [] false [] true)); [apply passes_modify; by apply s_reader|]. intros ? t1 I1.
  eapply passes_bind; [apply (send_rounds_passes _ rounds data [] t1 [] false Hp I1)|].
  { done. }
  { simpl. lia. }
  { unfold len in Hl. simpl. lia. }
  intros ? t2 I2. apply (join_reader_passes _ _ data t2 [] false); [exact I2|exact Hl].
Qed.

Lemma run_stream_passes : (1025 * (slack + 1) <= patience)%nat -> run_stream patience h = Some (Ok tt).
Proof.
  intros Hp. unfold run_stream. rewrite !on_pair_passes; [done|..]; intros I.
  - apply try_send_passes; [lia|done].
  - by apply stream_closed_passes.
  - unfold stream_order. cbv zeta. apply order_passes; [apply stream_order_wait; lia|done|by apply pattern_len|by apply to_nat_enough|done].
  - by apply idle_case_passes.
Qed.
End try_send.

Section async.
Context `{!StreamSend T, !AsyncReady T} (R : readies h slack B).

Lemma wait_ready_passes polls case_ t v c s rd :
  srep B t v c s rd -> v <> [] \/ c = true -> (slag B t <= polls)%nat ->
  passes (wait_ready polls case_) t (fun _ t' => srep B t' v c s rd /\ slag B t' = O).
Proof.
  intros I Hv. revert t I. induction polls as [|polls IH]; intros t I Hl; unfold passes; cbn [wait_ready];
    destruct (poll_ready t) as [r t'] eqn:E; destruct (s_ready _ _ _ R _ _ _ _ _ _ _ I E) as [I' Hr].
  - destruct r as [[u|e|]|]; [by exists tt, t'|done|done|]. specialize (Hr Hv). lia.
  - destruct r as [[u|e|]|]; [by exists tt, t'|done|done|]. specialize (Hr Hv). apply IH; [done|lia].
Qed.

Lemma order_wait_passes case_ : (slack <= patience)%nat -> reads_some (order_wait_async patience case_).
Proof.
  intros Hp max got t v s rd I Hv Hm. unfold order_wait_async.
  eapply passes_bind; [apply (wait_ready_passes _ _ _ _ _ _ _ I (or_introl Hv))|].
  { pose proof (s_lag _ _ B _ _ _ _ _ I). lia. }
  intros ? t1 [I1 Hz]. eapply passes_bind; [apply (recv_append_passes got max case_ _ _ _ _ _ I1); lia|].
  intros [[n|e|] got2] t2 Hx; cbn [fst snd] in Hx; [|by destruct Hx as (_ & _ & ? & _)|done].
  destruct Hx as (w & v' & -> & -> & Hlw & Hvw & I2 & Hlag).
  assert (Hne : w <> []) by (intros Hw0; specialize (Hlag Hw0 Hm (or_introl Hv)); lia).
  eapply passes_bind; [apply (passes_check _ _ _ _ (fun _ t' => t' = t2)); [|done]|].
  { apply negb_true_iff, Z.eqb_neq. destruct w; [done|]. rewrite len_cons. pose proof (len_nonneg w). lia. }
  intros _ t' ->. apply passes_ret. by exists w, v'.
Qed.

Lemma closed_rounds_passes case_ rounds got tail t v :
  (slack <= patience)%nat -> srep B t v true [] false -> tail = got ++ v -> len tail = TAIL_LEN -> (length v <= rounds)%nat ->
  passes (closed_rounds patience rounds got case_) t (fun all _ => all = tail).
Proof.
  intros Hp. revert got t v. induction rounds as [|rounds IH]; intros got t v I Ht Hl Hr; cbn [closed_rounds];
    (eapply passes_bind; [apply (wait_ready_passes _ _ _ _ _ _ _ I (or_intror eq_refl)); pose proof (s_lag _ _ B _ _ _ _ _ I); lia|]);
    intros ? t1 [I1 Hz]; (eapply passes_bind; [apply (recv_append_passes got READ_CHUNK case_ _ _ _ _ _ I1); done|]);
    intros [[n|e|] got2] t2 Hx; cbn [fst snd] in Hx; try done.
  2, 4: destruct Hx as (-> & -> & _ & _ & ->); apply passes_ret; by rewrite Ht, app_nil_r.
  all: destruct Hx as (w & v' & -> & -> & Hlw & -> & I2 & Hlag);
    assert (Hne : w <> []) by (intros Hw0; specialize (Hlag Hw0 ltac:(done) (or_intror eq_refl)); lia);
    rewrite length_app in Hr.
  { destruct w; [done|simpl in Hr; lia]. }
  eapply passes_bind; [apply (passes_check _ _ _ _ (fun _ t' => t' = t2)); [|done]|].
  { apply negb_true_iff, Z.eqb_neq. destruct w; [done|]. rewrite len_cons. pose proof (len_nonneg w). lia. }
  intros _ t' ->. rewrite app_assoc in Ht. eapply passes_bind; [apply (passes_check _ _ _ _ (fun _ t' => t' = t2)); [|done]|].
  { apply Z.leb_le. rewrite <- Hl, Ht, (len_app (got ++ w)). pose proof (len_nonneg v'). lia. }
  intros _ t' ->. apply (IH _ _ v'); [done|done|done|]. destruct w; [done|simpl in Hr; lia].
Qed.

Lemma closed_async_passes t : (slack <= patience)%nat -> srep B t [] false [] false -> passes (stream_closed_async patience h) t (fun _ _ => True).
Proof.
  intros Hp I. unfold stream_closed_async. cbv zeta. generalize (pattern_len 402 TAIL_LEN ltac:(done)). generalize (pattern 402 TAIL_LEN).
  pose proof (to_nat_enough TAIL_LEN ltac:(done)) as Hr. revert Hr. generalize (Z.to_nat TAIL_LEN). intros rounds Hr tail Hl.
  eapply passes_bind; [by apply (close_passes tail _ _ [] false)|]. intros ? t1 I1.
  eapply passes_bind; [apply (closed_rounds_passes _ rounds [] tail t1 tail Hp I1); [done|done|unfold len in Hl; lia]|].
  intros got t2 ->. apply passes_check; [by apply bool_decide_true|done].
Qed.

Lemma send_all_passes t : srep B t [] false [] false -> passes (stream_send_all h) t (fun _ _ => True).
Proof.
  intros I. unfold stream_send_all. cbv zeta. generalize (pattern_len 404 SEND_ALL_LEN ltac:(done)). generalize (pattern 404 SEND_ALL_LEN). intros data Hl.
  eapply (passes_bind _ _ _ (fun _ t' => srep B t' [] false [] true)); [apply passes_modify; by apply s_reader|]. intros ? t1 I1.
  destruct (s_send_all _ _ _ R _ _ _ _ data I1) as (t2 & E & I2).
  eapply (passes_bind _ _ _ (fun r t' => r = Ok tt /\ t' = t2)); [exists (Ok tt), t2; split; [unfold calls; by rewrite E|done]|].
  intros r t' [-> ->]. eapply passes_bind; [by apply (passes_check _ _ _ _ (fun _ t' => t' = t2))|]. intros _ t' ->.
  apply (join_reader_passes _ _ data t2 [] false); [exact I2|exact Hl].
Qed.

Lemma run_stream_async_passes : (slack <= patience)%nat -> run_stream_async patience h = Some (Ok tt).
Proof.
  intros Hp. unfold run_stream_async. rewrite !on_pair_passes; [done|..]; intros I.
  - by apply send_all_passes.
  - by apply closed_async_passes.
  - unfold stream_order_async. cbv zeta. apply order_passes; [by apply order_wait_passes|done|by apply pattern_len|by apply to_nat_enough|done].
  - by apply idle_case_passes.
Qed.
End async.
End passing.

(** ** TCP over a scripted system *)

Import SocketSafety (Pipe, chunks, ends, out_bytes).
#[local] Existing Instances Socket.Tcp_recv Socket.Tcp_try_send SocketSafety.Pipe_sys.

Abbreviation tcp := (Socket.TcpStream (S := Pipe)).

Definition on_pipe (f : Pipe -> Pipe) (t : tcp) : tcp := Socket.Tcp (f (Socket.tsock t)).

(** The peer's bytes come in one chunk per thousand. *)
Fixpoint cut (rounds : nat) (bytes : list byte) : list (list byte) :=
  match rounds, bytes with
  | Datatypes.S rounds, _ :: _ => take 1000 bytes :: cut rounds (drop 1000 bytes)
  | _, _ => []
  end.

Definition arrive (bytes : list byte) (close : bool) : tcp -> tcp :=
  on_pipe (fun s => {| chunks := chunks s ++ cut (length bytes) bytes; ends := ends s || close; out_bytes := out_bytes s |}).

Definition reset_by_peer : io_Error := {| kind := Other; raw_os_error := Some 104 |}.

Definition tcp_pair : StreamHarness tcp := {|
  pair := Socket.Tcp {| chunks := []; ends := false; out_bytes := [] |};
  spawn_writer := fun t bytes => arrive bytes false t;
  join_writer := fun t => (match chunks (Socket.tsock t) with [] => Ok tt | _ => Err reset_by_peer end, t);
  send_then_shutdown := fun t bytes => (None, arrive bytes true t);
  spawn_reader := fun t _ => t;
  join_reader := fun t n =>
    let got := out_bytes (Socket.tsock t) in
    (if n <=? len got then Ok (take (Z.to_nat n) got) else Err reset_by_peer, t);
|}.

Definition tcp_rep (t : tcp) (v : list byte) (c : bool) (s : list byte) (rd : bool) : Prop :=
  concat (chunks (Socket.tsock t)) = v /\ Forall (fun x => x <> []) (chunks (Socket.tsock t)) /\ ends (Socket.tsock t) = c /\
  out_bytes (Socket.tsock t) = s.

Lemma cut_concat rounds bytes : (length bytes <= rounds)%nat -> concat (cut rounds bytes) = bytes /\ Forall (fun x => x <> []) (cut rounds bytes).
Proof.
  revert bytes. induction rounds as [|rounds IH]; intros [|b bytes] Hl; cbn [cut]; try (split; [done|constructor]); [simpl in Hl; lia|].
  destruct (IH (drop 1000 (b :: bytes))) as [Hc Hf]; [rewrite length_drop; simpl in *; lia|]. cbn [concat]. rewrite Hc, take_drop.
  split; [done|]. by constructor.
Qed.

Lemma arrive_rep t bytes close s rd : tcp_rep t [] false s rd -> tcp_rep (arrive bytes close t) bytes close s rd.
Proof.
  intros (Hc & Hf & He & Ho). destruct (cut_concat (length bytes) bytes) as [Hcc Hcf]; [lia|]. unfold arrive, on_pipe, tcp_rep.
  cbn [Socket.tsock chunks ends out_bytes]. rewrite concat_app, Hc, Hcc, He. split_and!; [done|by apply Forall_app|done|done].
Qed.

Definition tcp_backend : stream_backend tcp_pair 0.
Proof.
  refine {| srep := tcp_rep; slag := fun _ => O |}.
  - done.
  - by split_and!.
  - intros t bytes s rd. apply arrive_rep.
  - intros t s rd I. exists t. split; [|done]. destruct I as (Hc & Hf & _). cbn. destruct (chunks (Socket.tsock t)) as [|x l]; [done|].
    inversion Hf; subst. by destruct x.
  - intros t bytes s rd I. eexists. split; [done|]. by apply arrive_rep.
  - done.
  - intros t v c s (_ & _ & _ & Ho). exists t. cbn. rewrite Ho, Z.leb_refl. unfold len. by rewrite Nat2Z.id, firstn_all.
  - intros [p] v c s rd n r t' (Hc & Hf & He & Ho) Hn E. unfold recv_into, Socket.Tcp_recv, Socket.stream in E. cbn [Socket.tsock] in *.
    destruct (n =? 0) eqn:E0; bool_facts.
    { simplify_eq. exists (concat (chunks p)). by split_and!. }
    unfold Socket.sys_recv, SocketSafety.Pipe_sys in E. destruct (chunks p) as [|x l] eqn:Ec.
    + destruct (ends p) eqn:Ee; cbn in E; simplify_eq; [split_and!; try done; split_and!; cbn; by rewrite ?Ec|].
      exists []. split_and!; try done; [split_and!; cbn; by rewrite ?Ec|]. intros _ _ [?|?]; done.
    + inversion Hf as [|? ? Hx Hl]; subst. destruct (take (Z.to_nat n) x) as [|b w] eqn:Et.
      { destruct x; [done|]. destruct (Z.to_nat n) eqn:En; [lia|done]. }
      simplify_eq. rewrite <- Et. exists (concat (match drop (Z.to_nat n) x with [] => l | more => more :: l end)).
      split_and!; [unfold len; rewrite length_take; lia| | |by rewrite Et].
      * cbn [concat]. rewrite <- (take_drop (Z.to_nat n) x) at 1. rewrite <- app_assoc. f_equal. by destruct (drop (Z.to_nat n) x).
      * split_and!; cbn [Socket.tsock chunks ends out_bytes]; try done. destruct (drop (Z.to_nat n) x) as [|y more]; [done|by constructor].
Defined.

Lemma tcp_sends : sends tcp_pair 0 tcp_backend.
Proof.
  constructor. intros [p] v c s bytes r t' (Hc & Hf & He & Ho) E. unfold try_send, Socket.Tcp_try_send in E. cbn in E. simplify_eq.
  exists (len (take 1 bytes)). pose proof (len_nonneg (take 1 bytes)). split; [done|]. split; [split; [done|unfold len; rewrite length_take; lia]|].
  split; [|by destruct bytes].
  split_and!; cbn [Socket.tsock chunks ends out_bytes]; try done. by destruct bytes.
Qed.

(** ** Properties *)

(** C24: Every stream that meets the specification with its peer, bytes once and in order, then
    the end, writes reaching the peer, progress within the patience, passes [run_stream]: each
    of its waits ends, no check fails, nothing panics. *)
Theorem stream_passes {T} `{StreamRecv T, !StreamTrySend T} (h : StreamHarness T) slack (B : stream_backend h slack) (S : sends h slack B) patience :
  (1025 * (slack + 1) <= patience)%nat -> run_stream patience h = Some (Ok tt).
Proof. intros Hp. exact (run_stream_passes h slack B patience S Hp). Qed.

Lemma stream_passes_witness : run_stream 1025 tcp_pair = Some (Ok tt).
Proof. apply (stream_passes tcp_pair 0 tcp_backend tcp_sends 1025). lia. Defined.

(** The same of the asynchronous operations and [run_stream_async]. *)
Theorem stream_async_passes {T} `{StreamRecv T, !StreamSend T, !AsyncReady T} (h : StreamHarness T) slack (B : stream_backend h slack)
    (R : readies h slack B) patience : (slack <= patience)%nat -> run_stream_async patience h = Some (Ok tt).
Proof. intros Hp. exact (run_stream_async_passes h slack B patience R Hp). Qed.
