(* ===== verification/SoupClient.v ===== *)
(** * client-soupbintcp: what the session delivers, sends and promises

    Theorems on the synchronous client of [SoupSession], over any stream that keeps
    the documented contract of [StreamRecv] and [StreamTrySend]: the messages a run
    of operations yields are the server's packets in order, the bytes it writes are
    the queued packets in order, every [poll] returns, a closed session stays closed. *)

From S2P Require Import Prelude TransportCore SoupWire SoupText SoupSession SoupStream.
From Stdlib Require Import ZArith Lia.
From stdpp Require Import prelude list strings.

Open Scope Z_scope.
Open Scope res_scope.

Section client.
Context {T : Type} `{StreamRecv T, !StreamViewOk T, StreamTrySend T, !StreamOk T, Alloc, !AllocOk}.

(** The bytes the session has written or will write. *)
Definition outgoing (c : SoupBinClient T) : list byte := sent (transport c) ++ out (session c).

(** ** Flushing and landing *)

(** What [flush] may change: the outbound queue and the last send. *)
Definition only_sent (s s' : Session) : Prop := exists o d, s' = set_out o (set_last_send d s).

Lemma only_sent_refl s : only_sent s s.
Proof. exists (out s), (last_send s). by destruct s. Qed.

Lemma only_sent_out s s' o : only_sent s s' -> only_sent s (set_out o s').
Proof. intros (o1 & d1 & ->). by exists o, d1. Qed.

Lemma only_sent_stamp s s' d : only_sent s s' -> only_sent s (set_last_send d s').
Proof. intros (o1 & d1 & ->). by exists o1, d. Qed.

Lemma only_sent_stamped now s s' :
  only_sent s s' -> only_sent s (match out s' with [] => set_last_send now s' | _ => s' end).
Proof. intros Hs. destruct (out s'); [by apply only_sent_stamp|done]. Qed.

Lemma out_stamped now s : out (match out s with [] => set_last_send now s | _ => s end) = out s.
Proof. by destruct (out s) eqn:E. Qed.

(** [flush] moves bytes from the queue to the wire and touches nothing else. *)
Lemma flush_spec s t now r s' t' :
  flush s t now = Some (r, s', t') ->
  only_sent s s' /\ view t' = view t /\ outgoing (client s' t') = outgoing (client s t) /\ r <> Panic.
Proof.
  unfold flush. intros E.
  apply (iterate_inv (flush_round now)
    (fun c => only_sent s c.1 /\ view c.2 = view t /\ outgoing (client c.1 c.2) = outgoing (client s t))
    (fun x => only_sent s x.1.2 /\ view x.2 = view t /\ outgoing (client x.1.2 x.2) = outgoing (client s t) /\ x.1.1 <> Panic)) in E;
    [exact E|..].
  - intros [s1 t1] [s2 t2] (Hs & Hv & Ho) Er. simpl in *. unfold flush_round in Er.
    destruct (out s1) as [|b o] eqn:Eo; [done|]. destruct (try_send t1 (b :: o)) as [[n|e|] t3] eqn:Et; [|done..].
    destruct (n =? 0); [done|]. destruct (len (b :: o) <? n) eqn:En; [done|]. simplify_eq.
    destruct (try_send_ok _ _ _ _ Et) as (Hv' & Hn & Hsent). split_and!.
    + by apply (only_sent_stamped now s (set_out _ s1)), only_sent_out.
    + congruence.
    + rewrite <- Ho. unfold outgoing. cbn [session transport fst snd client] in *. rewrite Hsent, Eo, <- app_assoc. f_equal.
      pose proof (out_stamped now (set_out (drop (Z.to_nat n) (b :: o)) s1)) as Hq. cbn [out set_out] in Hq. rewrite Hq. apply take_drop.
  - intros [s1 t1] [[r2 s2] t2] (Hs & Hv & Ho) Er. simpl in *. unfold flush_round in Er.
    destruct (out s1) as [|b o] eqn:Eo; [by simplify_eq|]. destruct (try_send t1 (b :: o)) as [[n|e|] t3] eqn:Et.
    + destruct (try_send_ok _ _ _ _ Et) as (Hv' & Hn & Hsent). destruct (n =? 0) eqn:E0; bool_facts.
      * simplify_eq. simpl in Hsent. rewrite app_nil_r in Hsent. split_and!; [done|congruence| |done].
        rewrite <- Ho. unfold outgoing. simpl. by rewrite Hsent.
      * rewrite (proj2 (Z.ltb_ge _ _)) in Er by lia. done.
    + destruct (try_send_ok _ _ _ _ Et) as (Hv' & Hsent). simplify_eq. split_and!; [done|congruence| |done].
      rewrite <- Ho. unfold outgoing. simpl. by rewrite Hsent.
    + by destruct (try_send_ok _ _ _ _ Et).
  - split_and!; [apply only_sent_refl|done|done].
Qed.

Lemma flush_total s t now : is_Some (flush s t now).
Proof.
  unfold flush. pose proof (iterate_total (flush_round now) (fun _ => True) (fun c => length (out c.1)) (s, t)) as [r Hr]; [|done|].
  - intros [s1 t1] [s2 t2] _ Er. split; [done|]. unfold flush_round in Er. simpl.
    destruct (out s1) as [|b o] eqn:Eo; [done|]. destruct (try_send t1 (b :: o)) as [[n|e|] t3] eqn:Et; [|done..].
    destruct (try_send_ok _ _ _ _ Et) as (_ & Hn & _).
    destruct (n =? 0) eqn:E0; [done|]. destruct (len (b :: o) <? n) eqn:En; [done|]. bool_facts. simplify_eq.
    assert (Hd : (length (drop (Z.to_nat n) (b :: o)) < length (b :: o))%nat) by (rewrite length_drop; simpl; lia).
    pose proof (out_stamped now (set_out (drop (Z.to_nat n) (b :: o)) s1)) as Hq. cbn [out set_out] in Hq. by rewrite Hq.
  - by exists r.
Qed.

(** ** The receive loops of [poll] *)

Definition loop_out (c : SoupBinClient T) (r : option (res SoupBinError (option SoupBinMessage))) (c' : SoupBinClient T) : Prop :=
  let s := session c in let s' := session c' in
  sent (transport c') = sent (transport c) /\ cfg s' = cfg s /\ last_send s' = last_send s /\
  match r with
  | None => calm s s' /\ buffer_low s'
  | Some (Err _) => calm s s'
  | Some (Ok (Some m)) =>
      from_server m = true /\
      match m with
      | Event EvEndOfSession => state s = Streaming /\ state s' = Closed /\ out s' = []
      | Event (EvLoginRejected _) => state s = Authenticating /\ state s' = Closed /\ out s' = out s
      | Event (EvLoginAccepted _ n) => state s = Authenticating /\ state s' = Streaming /\ out s' = out s /\
          next_expected_sequence s' = n
      | _ => state s = Streaming /\ calm s s'
      end
  | _ => False
  end.

(** What an ingest between two rounds leaves to the next. *)
Lemma ingest_calm s t now r s' t' : ingest s t now = (r, s', t') -> calm s s' /\ sent t' = sent t.
Proof.
  intros E. split; [by apply ingest_spec in E as (?&?&?&?&?&?&?&_)|]. unfold ingest, land in E.
  destruct (recv_into t _) as [[w|e|] t1] eqn:Et; apply recv_into_sent in Et; [|by simplify_eq..].
  by destruct (advance_mut _ _); simplify_eq.
Qed.

Lemma stream_round_out now c x :
  state (session c) = Streaming -> poll_stream_round now c = Some x ->
  match x with
  | Again c' => calm (session c) (session c') /\ sent (transport c') = sent (transport c) /\
      (length (view (transport c')) < length (view (transport c)))%nat
  | Leave (r, c') => loop_out c r c'
  end.
Proof.
  intros Hs E. unfold poll_stream_round in E. destruct (dispatch_stream (session c)) as [[r s]|] eqn:Ed; [|done].
  simpl in E. simplify_eq. apply dispatch_stream_frame in Ed. destruct Ed as (Hc & Hr & Hl & Hm).
  destruct r as [[[n|[]]|]|er|]; try done; unfold loop_out; simpl; try (by split_and!).
  - destruct Hm as [Hm Hb]. destruct (ingest s (transport c) now) as [[r s'] t'] eqn:Ei.
    pose proof (ingest_calm _ _ _ _ _ _ Ei) as [Hcalm Hsent]. apply ingest_spec in Ei as (_&_&Hc2&_&_&_&_&Hi).
    pose proof (calm_trans _ _ _ Hm Hcalm) as Ht. pose proof Ht as (?&?&?&?&?).
    destruct r as [[]|e|]; simpl; [| |by split_and!|done].
    + destruct Hi as [? _]. by split_and!.
    + destruct Hi as (Hd & _). split_and!; try done. by eapply buffer_low_frame.
Qed.

Lemma login_round_out now c x :
  state (session c) = Authenticating -> poll_login_round now c = Some x ->
  match x with
  | Again c' => calm (session c) (session c') /\ sent (transport c') = sent (transport c) /\
      (length (view (transport c')) < length (view (transport c)))%nat
  | Leave (r, c') => loop_out c r c'
  end.
Proof.
  intros Hs E. unfold poll_login_round in E. destruct (dispatch_login (session c) now) as [[r s]|] eqn:Ed; [|done].
  simpl in E. simplify_eq. apply dispatch_login_frame in Ed. destruct Ed as (Hc & Hl & Hm).
  destruct r as [[[]|]|er|]; try done; unfold loop_out; simpl; try (by destruct_and?; split_and!).
  destruct Hm as [Hm Hb]. destruct (ingest s (transport c) now) as [[r s'] t'] eqn:Ei.
  pose proof (ingest_calm _ _ _ _ _ _ Ei) as [Hcalm Hsent]. apply ingest_spec in Ei as (_&_&Hc2&_&_&_&_&Hi).
  pose proof (calm_trans _ _ _ Hm Hcalm) as Ht. pose proof Ht as (?&?&?&?&?).
  destruct r as [[]|e|]; simpl; [| |by split_and!|done].
  - destruct Hi as [? _]. by split_and!.
  - destruct Hi as (Hd & _). split_and!; try done. by eapply buffer_low_frame.
Qed.

Lemma loop_out_trans c c1 r c' :
  calm (session c) (session c1) -> sent (transport c1) = sent (transport c) -> loop_out c1 r c' -> loop_out c r c'.
Proof.
  intros Hc Hs (Hs' & Hcfg & Hl & Hm). pose proof Hc as (Est & Ecfg & Eo & El & Ed).
  unfold loop_out. rewrite <- Hs, <- Ecfg, <- El, <- Est, <- Eo. split_and!; [done..|].
  destruct r as [[[[f|[]]|]|e|]|]; try done; destruct_and?; split_and!; try done; by eapply calm_trans.
Qed.

(** Both loops, at once: [body] is either round, [st] the state it runs in. *)
Lemma poll_loop_out body st fuel c r c' :
  (forall c x, state (session c) = st -> body c = Some x ->
    match x with
    | Again c' => calm (session c) (session c') /\ sent (transport c') = sent (transport c) /\
        (length (view (transport c')) < length (view (transport c)))%nat
    | Leave (r, c') => loop_out c r c'
    end) ->
  state (session c) = st -> loop body fuel c = Some (r, c') -> loop_out c r c'.
Proof.
  intros Hb Hst E.
  apply (loop_inv body (fun c1 => calm (session c) (session c1) /\ sent (transport c1) = sent (transport c))
    (fun x => loop_out c x.1 x.2)) in E; [exact E|..|done].
  - intros c1 c2 [Hc Hs] Er. destruct (Hb c1 _ ltac:(destruct Hc; congruence) Er) as (Hc2 & Hs2 & _).
    split; [by eapply calm_trans|congruence].
  - intros c1 [r2 c2] [Hc Hs] Er. eapply loop_out_trans; [exact Hc|exact Hs|].
    exact (Hb c1 _ ltac:(destruct Hc; congruence) Er).
Qed.

Lemma poll_loop_total body st fuel c :
  (forall c, is_Some (body c)) ->
  (forall c x, state (session c) = st -> body c = Some x ->
    match x with
    | Again c' => calm (session c) (session c') /\ sent (transport c') = sent (transport c) /\
        (length (view (transport c')) < length (view (transport c)))%nat
    | Leave (r, c') => loop_out c r c'
    end) ->
  state (session c) = st -> (length (view (transport c)) < fuel)%nat -> is_Some (loop body fuel c).
Proof.
  intros Hsome Hb Hst. apply (loop_total body (fun c => state (session c) = st) (fun c => length (view (transport c))));
    [by intros; apply Hsome| |done].
  intros c1 c2 Hs Er. destruct (Hb c1 _ Hs Er) as ((?&_) & _ & ?). split; [congruence|done].
Qed.

Lemma stream_round_some now c : is_Some (poll_stream_round now c).
Proof. unfold poll_stream_round. destruct (dispatch_stream_total (session c)) as [[r s] ->]. by eexists. Qed.

Lemma login_round_some now c : is_Some (poll_login_round now c).
Proof. unfold poll_login_round. destruct (dispatch_login_total (session c) now) as [[r s] ->]. by eexists. Qed.

(** What a loop yields is the head of the account; a drained loop keeps it. *)
Definition loop_owes (k : list byte) (e : list SoupBinMessage)
    (r : option (res SoupBinError (option SoupBinMessage))) (c' : SoupBinClient T) : Prop :=
  match r with
  | None => owes k e c'
  | Some (Ok (Some m)) => exists e', e = m :: e' /\ owes k e' c'
  | Some (Err _) => True
  | _ => False
  end.

Lemma stream_loop_owes k e now fuel c r c' :
  state (session c) = Streaming -> owes k e c -> loop (poll_stream_round now) fuel c = Some (r, c') -> loop_owes k e r c'.
Proof.
  intros Hst Ho E.
  assert (Hround : forall c x, state (session c) = Streaming -> owes k e c -> poll_stream_round now c = Some x ->
    match x with Again c' => owes k e c' | Leave (r, c') => loop_owes k e r c' end).
  { intros c1 x Hs1 Ho1 Er. unfold poll_stream_round in Er.
    destruct (dispatch_stream (session c1)) as [[r1 s1]|] eqn:Ed; [|done]. simpl in Er. simplify_eq.
    pose proof (dispatch_stream_owes k e _ (transport c1) _ _ Ed Hs1 ltac:(by eapply owes_frame)) as Hr. simpl in Hr.
    destruct r1 as [[m|]|er|]; [by destruct m| |done|done].
    destruct (ingest s1 (transport c1) now) as [[[[]|e2|] s2] t2] eqn:Ei; simpl.
    1,2: by eapply ingest_owes. done. by apply ingest_spec in Ei as (_&_&_&_&_&_&_&?). }
  apply (loop_inv _ (fun c1 => state (session c1) = Streaming /\ owes k e c1) (fun x => loop_owes k e x.1 x.2)) in E; [exact E|..|done].
  - intros c1 c2 [Hs1 Ho1] Er. split; [|exact (Hround _ _ Hs1 Ho1 Er)].
    destruct (stream_round_out now c1 _ Hs1 Er) as ((?&_)&_). congruence.
  - intros c1 [r1 c2] [Hs1 Ho1] Er. exact (Hround _ _ Hs1 Ho1 Er).
Qed.

Lemma login_loop_owes k e now fuel c r c' :
  state (session c) = Authenticating -> owes k e c -> loop (poll_login_round now) fuel c = Some (r, c') -> loop_owes k e r c'.
Proof.
  intros Hst Ho E.
  assert (Hround : forall c x, state (session c) = Authenticating -> owes k e c -> poll_login_round now c = Some x ->
    match x with Again c' => owes k e c' | Leave (r, c') => loop_owes k e r c' end).
  { intros c1 x Hs1 Ho1 Er. unfold poll_login_round in Er.
    destruct (dispatch_login (session c1) now) as [[r1 s1]|] eqn:Ed; [|done]. simpl in Er. simplify_eq.
    pose proof (dispatch_login_owes k e now _ (transport c1) _ _ Ed Hs1 ltac:(by eapply owes_frame)) as Hr. simpl in Hr.
    destruct r1 as [[m|]|er|]; [by destruct m| |done|done].
    destruct (ingest s1 (transport c1) now) as [[[[]|e2|] s2] t2] eqn:Ei; simpl.
    1,2: by eapply ingest_owes. done. by apply ingest_spec in Ei as (_&_&_&_&_&_&_&?). }
  apply (loop_inv _ (fun c1 => state (session c1) = Authenticating /\ owes k e c1) (fun x => loop_owes k e x.1 x.2)) in E; [exact E|..|done].
  - intros c1 c2 [Hs1 Ho1] Er. split; [|exact (Hround _ _ Hs1 Ho1 Er)].
    destruct (login_round_out now c1 _ Hs1 Er) as ((?&_)&_). congruence.
  - intros c1 [r1 c2] [Hs1 Ho1] Er. exact (Hround _ _ Hs1 Ho1 Er).
Qed.

(** ** One [poll] *)

(** The bytes a message says the client queued. *)
Definition queued_by (m : SoupBinMessage) : list byte :=
  match m with Event EvHeartbeatSent => encode ClientHeartbeat [] | _ => [] end.

(** The transition each message stands for, between the states before and after. *)
Definition legal (m : SoupBinMessage) (st st' : ClientState) : Prop :=
  match m with
  | Event (EvLoginAccepted _ _) => st = Authenticating /\ st' = Streaming
  | Event (EvLoginRejected _) => st = Authenticating /\ st' = Closed
  | Event (EvEndOfSession | EvHeartbeatTimeout) => st = Streaming /\ st' = Closed
  | _ => st = Streaming /\ st' = Streaming
  end.

(** Nothing to do before the deadline: no packet buffered, no timer run out. *)
Definition quiet (now : Z) (s : Session) : Prop :=
  match state s with
  | Closed => out s <> []
  | Authenticating => now < login_deadline s /\ buffer_low s
  | Streaming =>
      heartbeat_due s now = false /\ duration_since now (last_recv s) <= heartbeat_timeout (cfg s) /\ buffer_low s
  end.

Definition poll_out (now : Z) (c : SoupBinClient T) (r : res SoupBinError (option SoupBinMessage))
    (c' : SoupBinClient T) : Prop :=
  let s := session c in let s' := session c' in
  cfg s' = cfg s /\
  match r with
  | Panic => False
  | Err _ => state s' = state s \/ (state s = Authenticating /\ state s' = Closed /\ out s' = [])
  | Ok None => outgoing c' = outgoing c /\ state s' = state s /\ quiet now s'
  | Ok (Some m) =>
      legal m (state s) (state s') /\
      (match m with Event (EvLoginAccepted _ n) => next_expected_sequence s' = n | _ => True end) /\
      (outgoing c' = outgoing c ++ queued_by m \/
       state s' = Closed /\ out s' = [] /\ sent (transport c') `prefix_of` outgoing c)
  end.

Lemma loop_outgoing c c' : sent (transport c') = sent (transport c) -> out (session c') = out (session c) -> outgoing c' = outgoing c.
Proof. unfold outgoing. by intros -> ->. Qed.

Lemma outgoing_sent c c' : sent (transport c') = sent (transport c) -> sent (transport c') `prefix_of` outgoing c.
Proof. unfold outgoing. intros ->. by eexists. Qed.

Lemma heartbeat_due_calm s s' now : calm s s' -> heartbeat_due s' now = heartbeat_due s now.
Proof. intros (_ & Hc & Ho & Hl & _). unfold heartbeat_due. by rewrite Hc, Ho, Hl. Qed.

Lemma poll_login_out fuel c now r c' :
  state (session c) = Authenticating -> poll_login fuel c now = Some (r, c') -> poll_out now c r c'.
Proof.
  intros Hs E. unfold poll_login in E. destruct (loop _ _ _) as [[r1 c1]|] eqn:El; [|done]. simpl in E.
  apply (poll_loop_out _ Authenticating) in El; [|intros; by apply (login_round_out now)|done].
  destruct El as (Hsent & Hc & Hl & Hm). unfold poll_out. destruct r1 as [[[m|]|e|]|]; simplify_eq; try done.
  - destruct Hm as [_ Hm]. destruct m as [f|[]]; destruct_and?; try congruence;
      (split_and!; [done..|]); left; simpl; rewrite app_nil_r; by apply loop_outgoing.
  - split; [done|]. left. by destruct Hm.
  - destruct Hm as [Hm Hb]. pose proof Hm as (Est & _ & Eo & _ & Ed).
    destruct (login_deadline (session c1) <=? now) eqn:Et; simpl in E; simplify_eq; bool_facts.
    + split; [done|]. by right.
    + split_and!; [done|by apply loop_outgoing|done|]. unfold quiet. by rewrite Est, Hs.
Qed.

Lemma poll_stream_out fuel c now r c' :
  state (session c) = Streaming -> poll_stream fuel c now = Some (r, c') -> poll_out now c r c'.
Proof.
  intros Hs E. unfold poll_stream in E. destruct (heartbeat_due (session c) now) eqn:Eh.
  - destruct (queue_heartbeat (session c)) as [r1 s1] eqn:Eq. injection Eq as <- <-. simpl in E.
    destruct (flush _ _ _) as [[[r2 s2] t2]|] eqn:Ef; [|done]. simpl in E. simplify_eq.
    apply flush_spec in Ef as ((o & d & ->) & _ & Ho & Hp). unfold poll_out.
    split; [done|]. destruct r2; simpl; [|by left|done]. split_and!; [done..|].
    left. rewrite Ho. unfold outgoing. simpl. by rewrite app_assoc.
  - destruct (loop _ _ _) as [[r1 c1]|] eqn:El; [|done]. simpl in E.
    apply (poll_loop_out _ Streaming) in El; [|intros; by apply (stream_round_out now)|done].
    destruct El as (Hsent & Hc & Hl & Hm). unfold poll_out. destruct r1 as [[[m|]|e|]|]; simplify_eq; try done.
    + destruct Hm as [Hsrv Hm]. assert (Hsame : calm (session c) (session c') -> state (session c') = Streaming /\
        outgoing c' = outgoing c ++ []).
      { intros (Est & _ & Eo & _). split; [congruence|]. rewrite app_nil_r. by apply loop_outgoing. }
      destruct m as [f|[]]; try done; try (destruct_and?; congruence); destruct Hm as (_ & Hm).
      * destruct (Hsame Hm). split_and!; try done. by left.
      * destruct (Hsame Hm). split_and!; try done. by left.
      * destruct Hm. split_and!; try done. right. split_and!; [done|done|by apply outgoing_sent].
    + split; [done|]. left. by destruct Hm.
    + destruct Hm as [Hm Hb]. pose proof Hm as (Est & _ & Eo & _ & Ed). unfold heartbeat_timed_out in E.
      destruct (_ <=? _) eqn:Et; simpl in E; simplify_eq; bool_facts.
      * split_and!; [done|by apply loop_outgoing|done|]. unfold quiet. simpl. rewrite Est, Hs.
        split_and!; [|done|done]. rewrite <- Eh. by apply heartbeat_due_calm.
      * split_and!; [done..|]. right. split_and!; [done|done|by apply outgoing_sent].
Qed.

(** A flush in front changes nothing the summary compares. *)
Lemma poll_out_flushed now c s1 t1 r c' :
  only_sent (session c) s1 -> outgoing (client s1 t1) = outgoing c -> poll_out now (client s1 t1) r c' -> poll_out now c r c'.
Proof.
  intros (o & d & ->) Ho (Hc & Hr). unfold poll_out. split; [done|]. rewrite <- Ho. exact Hr.
Qed.

Lemma poll_summary fuel c now r c' : poll fuel c now = Some (r, c') -> poll_out now c r c'.
Proof.
  intros E. unfold poll in E. destruct (flush _ _ _) as [[[r1 s1] t1]|] eqn:Ef; [|done]. simpl in E.
  apply flush_spec in Ef as (Hs & _ & Ho & Hp). apply (poll_out_flushed now c s1 t1); [done|done|].
  destruct r1; [|simplify_eq; split; [done|by left]|done].
  destruct (state s1) eqn:Est; [by eapply poll_login_out|by eapply poll_stream_out|].
  simplify_eq. split; [done|]. destruct (out s1) eqn:Eo; [by left|]. split_and!; [done|done|].
  unfold quiet. simpl. by rewrite Est, Eo.
Qed.

Lemma poll_total fuel c now : (length (view (transport c)) < fuel)%nat -> is_Some (poll fuel c now).
Proof.
  intros Hf. unfold poll. destruct (flush_total (session c) (transport c) now) as [[[r s] t] Ef]. rewrite Ef. simpl.
  apply flush_spec in Ef as (_ & Hv & _ & _). destruct r; [|by eexists..]. destruct (state s) eqn:Est; [| |by eexists].
  - unfold poll_login. destruct (poll_loop_total (poll_login_round now) Authenticating fuel (client s t)) as [[r c1] ->];
      [apply login_round_some|intros; by apply (login_round_out now)|done|simpl; by rewrite Hv|]. simpl. by eexists.
  - unfold poll_stream. cbn [session transport client]. destruct (heartbeat_due s now).
    + destruct (queue_heartbeat s) as [r1 s1]. destruct r1; [|by eexists..].
      destruct (flush_total s1 t now) as [[[r2 s2] t2] ->]. by eexists.
    + destruct (poll_loop_total (poll_stream_round now) Streaming fuel (client s t)) as [[r c1] ->];
        [apply stream_round_some|intros; by apply (stream_round_out now)|done|simpl; by rewrite Hv|]. simpl. by eexists.
Qed.

(** ** Runs *)

(** Calls on an established client; a run stops at the first error. *)
Inductive Op :=
  | Poll (now : Z)
  | SendUnsequenced (payload : list byte)
  | Logout.

Definition apply_op (fuel : nat) (c : SoupBinClient T) (op : Op) : option poll_result :=
  match op with
  | Poll now => poll fuel c now
  | SendUnsequenced payload =>
      let '(r, c) := queue_unsequenced c payload in
      Some (match r with Ok _ => Ok None | Err e => Err e | Panic => Panic end, c)
  | Logout =>
      let '(r, c) := queue_logout c in
      Some (match r with Ok _ => Ok None | Err e => Err e | Panic => Panic end, c)
  end.

(** The bytes a call that succeeded queued. *)
Definition queued (op : Op) (m : option SoupBinMessage) : list byte :=
  match op with
  | Poll _ => match m with Some m => queued_by m | None => [] end
  | SendUnsequenced payload => encode UnsequencedData payload
  | Logout => encode LogoutRequest []
  end.

Fixpoint run (fuel : nat) (c : SoupBinClient T) (ops : list Op)
    : option (list (option SoupBinMessage) * SoupBinClient T) :=
  match ops with
  | [] => Some ([], c)
  | op :: ops =>
      match apply_op fuel c op with
      | Some (Ok m, c) => '(ms, c) ← run fuel c ops; Some (m :: ms, c)
      | _ => None
      end
  end.

Lemma queue_spec s ty payload r s' :
  queue s ty payload = (r, s') ->
  match r with
  | Ok _ => s' = set_out (out s ++ encode ty payload) s /\ len payload <= U16_MAX - 1
  | Err e => e = FrameTooLarge (len payload) (U16_MAX - 1) /\ s' = s /\ U16_MAX - 1 < len payload
  | Panic => False
  end.
Proof.
  unfold queue, try_u16. destruct (1 + len payload <=? U16_MAX) eqn:E; intros; simplify_eq; bool_facts.
  - split; [|lia]. done.
  - split_and!; [done|done|lia].
Qed.

Lemma queue_unsequenced_spec (c : SoupBinClient T) payload c' :
  queue_unsequenced c payload = (Ok tt, c') ->
  state (session c) <> Closed /\
  c' = client (set_out (out (session c) ++ encode UnsequencedData payload) (session c)) (transport c).
Proof.
  unfold queue_unsequenced. intros E. destruct (queue _ _ _) as [r s] eqn:Eq. apply queue_spec in Eq.
  destruct (state (session c)) eqn:Est; simplify_eq; by destruct Eq as [-> _].
Qed.

Lemma queue_logout_spec (c c' : SoupBinClient T) :
  queue_logout c = (Ok tt, c') ->
  state (session c) <> Closed /\
  c' = client (set_state Closed (set_out (out (session c) ++ encode LogoutRequest []) (session c))) (transport c).
Proof.
  unfold queue_logout. intros E. destruct (queue _ _ _) as [r s] eqn:Eq. apply queue_spec in Eq.
  destruct (state (session c)) eqn:Est; [| |done]; (destruct r; [|done..]); destruct Eq as [-> _]; by simplify_eq.
Qed.

(** The states only advance, and a closed session yields nothing more. *)
Definition rank (st : ClientState) : nat := match st with Authenticating => 0 | Streaming => 1 | Closed => 2 end.

Lemma legal_rank m st st' : legal m st st' -> (rank st <= rank st')%nat /\ st <> Closed.
Proof. destruct m as [f|[]]; simpl; intros [-> ->]; by split; [simpl; lia|]. Qed.

(** [poll]'s message, when the server's, is the head of the account; otherwise the account stands. *)
Lemma poll_owes k e fuel c now r c' :
  poll fuel c now = Some (r, c') -> owes k e c ->
  match r with
  | Ok None => owes k e c'
  | Ok (Some m) => if from_server m then exists e', e = m :: e' /\ owes k e' c' else owes k e c'
  | _ => True
  end.
Proof.
  intros E Ho. pose proof (poll_summary _ _ _ _ _ E) as [_ Hout]. unfold poll in E.
  destruct (flush _ _ _) as [[[r1 s1] t1]|] eqn:Ef; [|done]. simpl in E.
  apply flush_spec in Ef as ((o & d & ->) & Hv & _ & _).
  assert (Ho1 : owes k e (client (set_out o (set_last_send d (session c))) t1)).
  { eapply owes_frame; [exact Ho|done..|]. unfold pending. simpl. by rewrite Hv. }
  set (c1 := client _ t1) in *. destruct r1; [|by simplify_eq..]. simpl in E.
  destruct (state (session c)) eqn:Est; [| |by destruct o; simplify_eq].
  - unfold poll_login in E. destruct (loop _ _ _) as [[r2 c2]|] eqn:El; [|done]. simpl in E.
    pose proof El as Eo. apply (login_loop_owes k e) in El; [|done|done].
    apply (poll_loop_out _ Authenticating) in Eo; [|intros; by apply (login_round_out now)|done].
    destruct r2 as [[[m|]|er|]|]; simplify_eq; try done.
    + destruct Eo as (_&_&_&Hs&_). by rewrite Hs.
    + destruct (_ <=? now); simpl in E; simplify_eq; done.
  - unfold poll_stream in E. destruct (heartbeat_due _ now).
    + destruct (queue_heartbeat _) as [r2 s2] eqn:Eq. injection Eq as <- <-. simpl in E.
      destruct (flush _ _ _) as [[[r3 s3] t3]|] eqn:Ef; [|done]. simpl in E. simplify_eq.
      apply flush_spec in Ef as ((o3 & d3 & ->) & Hv3 & _ & _). destruct r3; [|done..]. simpl.
      eapply owes_frame; [exact Ho|done..|]. unfold pending. simpl. by rewrite Hv3, Hv.
    + destruct (loop _ _ _) as [[r2 c2]|] eqn:El; [|done]. simpl in E.
      pose proof El as Eo. apply (stream_loop_owes k e) in El; [|done|done].
      apply (poll_loop_out _ Streaming) in Eo; [|intros; by apply (stream_round_out now)|done].
      destruct r2 as [[[m|]|er|]|]; simplify_eq; try done.
      * destruct Eo as (_&_&_&Hs&_). by rewrite Hs.
      * unfold heartbeat_timed_out in E. destruct (_ <=? _); simpl in E; simplify_eq; [by destruct c2|].
        simpl. by intros [].
Qed.

Definition messages (ms : list (option SoupBinMessage)) : list SoupBinMessage := omap id ms.

(** The server's share of a run is a front part of the account. *)
Lemma run_owes k e fuel c ops ms c' :
  run fuel c ops = Some (ms, c') -> owes k e c ->
  exists e', e = List.filter from_server (messages ms) ++ e' /\ owes k e' c'.
Proof.
  revert e c ms. induction ops as [|op ops IH]; intros e c ms E Ho; simpl in E; [simplify_eq; by exists e|].
  destruct (apply_op fuel c op) as [[[m|er|] c1]|] eqn:Ea; [|done..].
  destruct (run fuel c1 ops) as [[ms1 c2]|] eqn:Er; [|done]. simpl in E. simplify_eq.
  assert (Hop : if from_option from_server false m then exists e', e = default (Event EvHeartbeatSent) m :: e' /\ owes k e' c1 else owes k e c1).
  { destruct op as [now|payload|]; simpl in Ea.
    - apply (poll_owes k e) in Ea; [|done]. by destruct m.
    - destruct (queue_unsequenced c payload) as [r2 c2] eqn:Eq. destruct r2 as [[]|er|]; simplify_eq.
      apply queue_unsequenced_spec in Eq as [_ ->]. simpl. by eapply owes_frame.
    - destruct (queue_logout c) as [r2 c2] eqn:Eq. destruct r2 as [[]|er|]; simplify_eq.
      apply queue_logout_spec in Eq as [_ ->]. simpl. by intros []. }
  destruct m as [m|]; simpl in Hop |- *; [destruct (from_server m)|].
  - destruct Hop as (e1 & -> & Ho1). destruct (IH _ _ _ Er Ho1) as (e' & -> & Ho'). by exists e'.
  - destruct (IH _ _ _ Er Hop) as (e' & -> & Ho'). by exists e'.
  - destruct (IH _ _ _ Er Hop) as (e' & -> & Ho'). by exists e'.
Qed.

(** A cleared session takes no further call. *)
Lemma run_dead fuel c ops ms c' :
  state (session c) = Closed -> out (session c) = [] -> run fuel c ops = Some (ms, c') -> ms = [] /\ c' = c.
Proof.
  intros Hs Ho E. destruct ops as [|op ops]; simpl in E; [by simplify_eq|].
  destruct (apply_op fuel c op) as [[[m|er|] c1]|] eqn:Ea; [exfalso|done..].
  destruct op as [now|payload|]; simpl in Ea.
  - unfold poll, flush in Ea. simpl in Ea. rewrite Ho in Ea. simpl in Ea. by rewrite Hs, Ho in Ea.
  - unfold queue_unsequenced in Ea. by rewrite Hs in Ea.
  - unfold queue_logout in Ea. by rewrite Hs in Ea.
Qed.

(** Every byte a run hands the transport was queued by it, in order. *)
Lemma run_wire fuel c ops ms c' :
  run fuel c ops = Some (ms, c') ->
  let wire := outgoing c ++ concat (zip_with queued ops ms) in
  outgoing c' = wire \/ state (session c') = Closed /\ out (session c') = [] /\ sent (transport c') `prefix_of` wire.
Proof.
  revert c ms. induction ops as [|op ops IH]; intros c ms E; simpl in E; [simplify_eq; left; by rewrite app_nil_r|].
  destruct (apply_op fuel c op) as [[[m|er|] c1]|] eqn:Ea; [|done..].
  destruct (run fuel c1 ops) as [[ms1 c2]|] eqn:Er; [|done]. simpl in E. simplify_eq. simpl.
  assert (Hop : outgoing c1 = outgoing c ++ queued op m \/
    state (session c1) = Closed /\ out (session c1) = [] /\ sent (transport c1) `prefix_of` outgoing c).
  { destruct op as [now|payload|]; simpl in Ea.
    - apply poll_summary in Ea as [_ Ea]. destruct m as [m|]; simpl; [by destruct Ea as (_&_&?)|].
      left. rewrite app_nil_r. by destruct Ea.
    - destruct (queue_unsequenced c payload) as [r2 c2] eqn:Eq. destruct r2 as [[]|er|]; simplify_eq.
      apply queue_unsequenced_spec in Eq as [_ ->]. left. unfold outgoing. simpl. by rewrite app_assoc.
    - destruct (queue_logout c) as [r2 c2] eqn:Eq. destruct r2 as [[]|er|]; simplify_eq.
      apply queue_logout_spec in Eq as [_ ->]. left. unfold outgoing. simpl. by rewrite app_assoc. }
  destruct Hop as [Hop|(Hs & Ho & Hp)].
  - destruct (IH _ _ Er) as [Hi|Hi]; rewrite Hop, <- app_assoc in Hi; [by left|by right].
  - destruct (run_dead _ _ _ _ _ Hs Ho Er) as [-> ->]. right. split_and!; [done|done|].
    by apply prefix_app_r.
Qed.

(** ** Properties *)

(** C6: the messages a run of calls yields from the server are the front of what the
    server's packets call for, however the bytes are cut into reads: the login answer,
    then every sequenced packet once, in order, numbered consecutively from the number
    the login announced, heartbeats and end of session in their places, debug packets
    dropped; and while the session is open what is left to deliver is exactly what the
    packets not yet taken call for. *)
Theorem session_in_order fuel c ops ms c' k ps :
  pending c ++ k = concat (enc <$> ps) -> Forall (fits (session c)) ps ->
  run fuel c ops = Some (ms, c') ->
  exists rest,
    expected (state (session c)) (next_expected_sequence (session c)) ps =
      List.filter from_server (messages ms) ++ rest /\
    (state (session c') <> Closed -> exists ps',
      pending c' ++ k = concat (enc <$> ps') /\
      rest = expected (state (session c')) (next_expected_sequence (session c')) ps').
Proof.
  intros Hp Hf E. destruct (run_owes k (expected (state (session c)) (next_expected_sequence (session c)) ps) fuel c ops ms c' E)
    as (rest & He & Ho); [by intros _; exists ps|].
  exists rest. split; [done|]. intros Hs. destruct (Ho Hs) as (ps' & ? & _ & ?). by exists ps'.
Qed.

(** C8: the bytes handed to the transport over a run are a front part of the packets
    queued, in the order queued, partial writes resumed where they stopped: nothing is
    repeated, skipped or interleaved; while the session is open the rest is still queued. *)
Theorem sends_in_order fuel c ops ms c' :
  run fuel c ops = Some (ms, c') ->
  let wire := outgoing c ++ concat (zip_with queued ops ms) in
  sent (transport c') `prefix_of` wire /\
  (state (session c') <> Closed -> sent (transport c') ++ out (session c') = wire).
Proof.
  intros E wire. destruct (run_wire _ _ _ _ _ E) as [Hw|(Hs & _ & Hp)].
  - split; [|done]. fold wire in Hw. rewrite <- Hw. by eexists.
  - by split; [|intros []].
Qed.

(** C16: [poll] returns, without panicking, once the bytes the stream still holds are
    within the fuel: neither a stream of debug packets nor partial writes keep it. *)
Theorem soup_poll_returns fuel c now :
  (length (view (transport c)) < fuel)%nat ->
  exists r c', poll fuel c now = Some (r, c') /\ r <> Panic.
Proof.
  intros Hf. destruct (poll_total fuel c now Hf) as [[r c'] E]. exists r, c'. split; [done|].
  intros ->. by destruct (poll_summary _ _ _ _ _ E).
Qed.

(** At [t], a timer of session [s] has run out: the login deadline is reached, or the
    configured silence, ours while nothing is queued or the server's, has been exceeded. *)
Definition timer_due (s : Session) (t : Z) : Prop :=
  match state s with
  | Authenticating => login_deadline s <= t
  | Streaming =>
      (out s = [] /\ last_send s + heartbeat_interval (cfg s) < t) \/
      last_recv s + heartbeat_timeout (cfg s) < t
  | Closed => False
  end.

(** The first instant past a deadline: itself while logging in, just after it when streaming. *)
Definition past (s : Session) (d t : Z) : Prop :=
  match state s with Authenticating => d <= t | _ => d < t end.

(** C19: when [poll] of an open session has nothing, no timer is due, and the deadline it
    then announces is exactly when the first of its timers runs out: not yet, and at any
    instant a timer is due if and only if the deadline has passed, so a caller parked until
    then neither misses a timer nor wakes for none. Less than one packet is buffered, of one
    no larger than [max_frame_size]. *)
Theorem poll_none_deadline fuel c now c' d :
  poll fuel c now = Some (Ok None, c') -> state (session c') <> Closed ->
  next_deadline (session c') = Ok d ->
  ~ timer_due (session c') now /\
  (forall t, timer_due (session c') t <-> past (session c') d t) /\
  less_than_packet (max_frame_size (cfg (session c'))) (data (decode_buf (session c'))).
Proof.
  intros E Hs Hd. destruct (poll_summary _ _ _ _ _ E) as (_ & _ & _ & Hq). unfold next_deadline, quiet, timer_due, past in *.
  set (s := session c') in *. destruct (state s); [|clear Hs|done].
  - simplify_eq. destruct Hq as [? ?]. split_and!; [lia|done|done].
  - destruct Hq as (Hh & Hr & Hb). unfold heartbeat_due, instant_add, duration_since in *.
    destruct (_ <=? INSTANT_MAX); [|done]. simpl in Hd. destruct (out s) as [|b o].
    + destruct (_ <=? INSTANT_MAX); [|done]. simplify_eq. bool_facts.
      split_and!; [intros [[_ ?]|?]; lia| |done]. intros t. split; [intros [[_ ?]|?]; lia|].
      intros Ht. destruct (Z.lt_ge_cases (last_send s + heartbeat_interval (cfg s)) t); [by left|right; lia].
    + simplify_eq. split_and!; [intros [[? _]|?]; [done|lia]| |done]. intros t. split; [intros [[? _]|?]; [done|lia]|by right].
Qed.

(** C37: the life cycle. A message comes with the one transition it stands for (login
    accepted opens, rejection, end of session and server silence close, everything else
    needs a streaming session); nothing else opens a session or reopens a closed one. *)
Theorem session_lifecycle fuel c now r c' :
  poll fuel c now = Some (r, c') ->
  (rank (state (session c)) <= rank (state (session c')))%nat /\
  match r with
  | Ok (Some m) => legal m (state (session c)) (state (session c'))
  | Ok None => state (session c') = state (session c)
  | Err _ => state (session c') = state (session c) \/ (state (session c) = Authenticating /\ state (session c') = Closed)
  | Panic => False
  end.
Proof.
  intros E. destruct (poll_summary _ _ _ _ _ E) as (_ & Hr). destruct r as [[m|]|e|]; [| | |done].
  - destruct Hr as (Hl & _). split; [by apply legal_rank in Hl as [? _]|done].
  - destruct Hr as (_ & -> & _). done.
  - destruct Hr as [->|(-> & -> & _)]; [by split; [|left]|]. split; [simpl; lia|by right].
Qed.
End client.

(** ** A worked session *)

Module demo.
Import demo_stream.

Definition blank : SoupBinClient ScriptedStream := client (new 0 cfg) net.
Definition started : SoupBinClient ScriptedStream :=
  match start net cfg 0 with Some (Ok c) => c | _ => blank end.

Definition ops : list Op := [Poll 1; Poll 2; SendUnsequenced [Byte.x09]; Poll 3; Poll 4; Poll 5].

Definition result : option (list (option SoupBinMessage) * SoupBinClient ScriptedStream) := run 200 started ops.

Definition ran : list (option SoupBinMessage) * SoupBinClient ScriptedStream := default ([], blank) result.
End demo.

Lemma demo_ran : run 200 demo.started demo.ops = Some (demo.ran.1, demo.ran.2).
Proof. vm_compute. reflexivity. Qed.

Lemma demo_fits : Forall (fits (session demo.started)) demo_stream.ps.
Proof. repeat constructor; vm_compute; discriminate. Qed.

Definition demo_owed : list SoupBinMessage :=
  expected (state (session demo.started)) (next_expected_sequence (session demo.started)) demo_stream.ps.

Example demo_owed_messages :
  demo_owed =
    [Event (EvLoginAccepted (replicate 10 Byte.x41) 7); Data {| payload := [Byte.x01]; sequence := 7 |};
     Data {| payload := [Byte.x04]; sequence := 8 |}; Event EvEndOfSession].
Proof. vm_compute. reflexivity. Qed.

Lemma session_in_order_witness :
  exists rest,
    expected (state (session demo.started)) (next_expected_sequence (session demo.started)) demo_stream.ps =
      List.filter from_server (messages demo.ran.1) ++ rest /\
    (state (session demo.ran.2) <> Closed -> exists ps',
      pending demo.ran.2 ++ [] = concat (enc <$> ps') /\
      rest = expected (state (session demo.ran.2)) (next_expected_sequence (session demo.ran.2)) ps').
Proof.
  apply (session_in_order 200 demo.started demo.ops demo.ran.1 demo.ran.2 [] demo_stream.ps).
  - vm_compute. reflexivity.
  - exact demo_fits.
  - exact demo_ran.
Defined.

Lemma sends_in_order_witness :
  let wire := outgoing demo.started ++ concat (zip_with queued demo.ops demo.ran.1) in
  sent (transport demo.ran.2) `prefix_of` wire /\
  (state (session demo.ran.2) <> Closed -> sent (transport demo.ran.2) ++ out (session demo.ran.2) = wire).
Proof.
  apply (sends_in_order 200 demo.started demo.ops demo.ran.1 demo.ran.2).
  exact demo_ran.
Defined.

Lemma soup_poll_returns_witness : exists r c', poll 200 demo.started 1 = Some (r, c') /\ r <> Panic.
Proof. apply (soup_poll_returns 200 demo.started 1). apply Nat.ltb_lt. vm_compute. reflexivity. Defined.

(** The first poll of the worked session finds half of the login answer. *)
Definition demo_waiting : SoupBinClient ScriptedStream :=
  match poll 200 demo.started 1 with Some (_, c) => c | None => demo.started end.

Lemma demo_waits : poll 200 demo.started 1 = Some (Ok None, demo_waiting).
Proof. vm_compute. reflexivity. Qed.

Lemma session_lifecycle_witness :
  (rank (state (session demo.started)) <= rank (state (session demo_waiting)))%nat /\
  state (session demo_waiting) = state (session demo.started).
Proof. apply (session_lifecycle 200 demo.started 1 (Ok None) demo_waiting). exact demo_waits. Defined.

(** ** A closed session's deadline *)

Module stuck.
Definition ps : list (PacketType * list byte) := [(LoginAccepted, demo_stream.accept)].
(** The peer accepts the login, then stops reading: no write finds room again. *)
Definition net : ScriptedStream :=
  {| inbox := [concat (enc <$> ps)]; closes := false; budget := [1000]; wrote := [] |}.
Definition started : SoupBinClient ScriptedStream :=
  match start net demo_stream.cfg 0 with Some (Ok c) => c | _ => demo.blank end.
(** Logged in, and a poll that finds nothing more. *)
Definition open : SoupBinClient ScriptedStream :=
  match run 200 started [Poll 1] with Some (_, c) => c | None => demo.blank end.
Definition idle : SoupBinClient ScriptedStream :=
  match poll 200 open 2 with Some (_, c) => c | None => demo.blank end.
Definition left : SoupBinClient ScriptedStream :=
  match run 200 started [Poll 1; Poll 1; Logout] with Some (_, c) => c | None => demo.blank end.
End stuck.

Lemma poll_none_deadline_witness :
  state (session stuck.idle) = Streaming /\ exists d,
  next_deadline (session stuck.idle) = Ok d /\
  ~ timer_due (session stuck.idle) 2 /\
  (forall t, timer_due (session stuck.idle) t <-> past (session stuck.idle) d t) /\
  less_than_packet (max_frame_size (cfg (session stuck.idle))) (data (decode_buf (session stuck.idle))).
Proof.
  split; [vm_compute; reflexivity|]. eexists. split; [vm_compute; reflexivity|].
  eapply (poll_none_deadline 200 stuck.open 2 stuck.idle); [vm_compute; reflexivity|vm_compute; discriminate|vm_compute; reflexivity].
Defined.

(** after [queue_logout] on a stream with no room to write, [poll] reports nothing
    to do at every later instant, while [next_deadline] stays at the old server-silence
    instant: past it, a caller that parks until the deadline spins. *)
Theorem closed_deadline_past :
  forall n : nat, let now := 60 + Z.of_nat n in
  poll 200 stuck.left now = Some (Ok None, stuck.left) /\ next_deadline (session stuck.left) = Ok 51.
Proof.
  intros n now. unfold poll. replace (flush _ _ now) with (Some (Ok (E := SoupBinError) tt, session stuck.left, transport stuck.left)).
  - vm_compute. split; reflexivity.
  - vm_compute. reflexivity.
Qed.
