(* ===== verification/SoupAsync.v ===== *)
(** * client-soupbintcp: the asynchronous driver

    Models the [async fn]s of [client.rs] over the session of [SoupSession]. A future
    is modelled by what its polls return: [poll_ready] is one poll of
    [AsyncReady::ready] ([None] is [Poll::Pending]), an [await] polls until it is
    ready, and [Instant::now] is a clock of successive readings, so a run ranges over
    every schedule the environment picks. [send_all] resolves with its result. *)

From S2P Require Import Prelude TransportCore SoupWire SoupText SoupSession SoupStream.
From Stdlib Require Import ZArith Lia.
From stdpp Require Import prelude list strings.

Open Scope Z_scope.
Open Scope res_scope.

Section client.
Context {T : Type} `{StreamRecv T, StreamSend T, AsyncReady T, Alloc}.

(** A client between two awaits, and the clock. *)
Definition world : Type := SoupBinClient T * Clock.

Definition map_transport {A} (r : res TransportError A) : res SoupBinError A := map_err Transport_ r.

Definition with_session (s : Session) (c : SoupBinClient T) : SoupBinClient T := client s (transport c).
Definition with_transport (t : T) (c : SoupBinClient T) : SoupBinClient T := client (session c) t.

Definition ensure_open (c : SoupBinClient T) : res SoupBinError unit :=
  match state (session c) with Closed => Err EndOfSession_ | _ => Ok tt end.

Definition write_out (w : world) : res SoupBinError unit * world :=
  let '(c, clk) := w in
  match send_all (transport c) (out (session c)) with
  | (Ok _, t) =>
      let '(now, clk) := now_of clk in
      (Ok tt, (client (sent_all (session c) now) t, clk))
  | (Err e, t) => (Err (Transport_ e), (with_transport t c, clk))
  | (Panic, t) => (Panic, (with_transport t c, clk))
  end.

(** [self.transport.ready().await]. *)
Definition ready_round (t : T) : step T (res TransportError unit * T) :=
  match poll_ready t with
  | (Some r, t) => Leave (r, t)
  | (None, t) => Again t
  end.

Definition ready (fuel : nat) (t : T) : option (res TransportError unit * T) := iterate ready_round fuel t.

(** What follows a resolved [ready]: [?], then [ingest], its count dropped. *)
Definition after_ready (r : res TransportError unit) (w : world) : res SoupBinError unit * world :=
  let '(c, clk) := w in
  match r with
  | Ok _ =>
      let '(now, clk) := now_of clk in
      match ingest (session c) (transport c) now with
      | (Ok _, s, t) => (Ok tt, (client s t, clk))
      | (Err e, s, t) => (Err e, (client s t, clk))
      | (Panic, s, t) => (Panic, (client s t, clk))
      end
  | Err e => (Err (Transport_ e), w)
  | Panic => (Panic, w)
  end.

Definition await_more_bytes (fuel : nat) (w : world) : option (res SoupBinError unit * world) :=
  '(r, t) ← ready fuel (transport w.1);
  Some (after_ready r (with_transport t w.1, w.2)).

(** The [poll_fn] of [await_more_bytes_with_deadline]: each pending poll reads the clock. *)
Definition deadline_round (deadline : Z) (st : T * Clock)
    : step (T * Clock) (option (res TransportError unit) * T * Clock) :=
  let '(t, clk) := st in
  match poll_ready t with
  | (Some r, t) => Leave (Some r, t, clk)
  | (None, t) =>
      let '(now, clk) := now_of clk in
      if deadline <=? now then Leave (None, t, clk) else Again (t, clk)
  end.

Definition await_more_bytes_with_deadline (fuel : nat) (deadline : Z) (w : world)
    : option (res SoupBinError unit * world) :=
  '(r, t, clk) ← iterate (deadline_round deadline) fuel (transport w.1, w.2);
  let c := with_transport t w.1 in
  Some (match r with
  | Some r => after_ready r (c, clk)
  | None => let '(e, s) := login_timed_out (session c) in (Err e, (with_session s c, clk))
  end).

(** One round of [login]'s loop. *)
Definition login_step (fuel : nat) (deadline : Z) (w : world) : option (step world (res SoupBinError unit * world)) :=
  let '(c, clk) := w in
  let '(now, clk) := now_of clk in
  '(r, s) ← dispatch_login (session c) now;
  let c := with_session s c in
  match r with
  | Ok (Some (Accepted _ _)) => Some (Leave (Ok tt, (c, clk)))
  | Ok (Some (Rejected reason)) => Some (Leave (Err (LoginRejected_ [byte_Z reason]), (c, clk)))
  | Err e => Some (Leave (Err e, (c, clk)))
  | Panic => Some (Leave (Panic, (c, clk)))
  | Ok None =>
      let '(now, clk) := now_of clk in
      if deadline <=? now then
        let '(e, s) := login_timed_out (session c) in
        Some (Leave (Err e, (with_session s c, clk)))
      else
        '(r, w) ← await_more_bytes_with_deadline fuel deadline (c, clk);
        Some (match r with
        | Ok _ => Again w
        | Err e => Leave (Err e, w)
        | Panic => Leave (Panic, w)
        end)
  end.

Definition login (fuel : nat) (w : world) : option (res SoupBinError unit * world) :=
  loop (login_step fuel (login_deadline (session w.1))) fuel w.

(** [SoupBinClient::connect]. [Self::new] reads the clock too. *)
Definition connect (fuel : nat) (t : T) (cfg : SoupBinClientConfig) (clk : Clock)
    : option (res SoupBinError (SoupBinClient T) * Clock) :=
  let '(now, clk) := now_of clk in
  let s := new now cfg in
  let '(now, clk) := now_of clk in
  match queue_login s now with
  | (Err e, _) => Some (Err e, clk)
  | (Panic, _) => Some (Panic, clk)
  | (Ok _, s) =>
      match write_out (client s t, clk) with
      | (Err e, (_, clk)) => Some (Err e, clk)
      | (Panic, (_, clk)) => Some (Panic, clk)
      | (Ok _, w) =>
          '(r, (c, clk)) ← login fuel w;
          Some (match r with Ok _ => Ok c | Err e => Err e | Panic => Panic end, clk)
      end
  end.

Definition streamed (s : Session) (m : Streamed) : SoupBinMessage :=
  match m with SData n => Data (frame s n) | SEvent e => Event e end.

(** One round of [recv]'s loop. *)
Definition recv_step (fuel : nat) (w : world) : option (step world (res SoupBinError SoupBinMessage * world)) :=
  let '(c, clk) := w in
  '(r, s) ← dispatch_stream (session c);
  let c := with_session s c in
  match r with
  | Ok (Some m) => Some (Leave (Ok (streamed s m), (c, clk)))
  | Err e => Some (Leave (Err e, (c, clk)))
  | Panic => Some (Leave (Panic, (c, clk)))
  | Ok None =>
      '(r, w) ← await_more_bytes fuel (c, clk);
      Some (match r with
      | Ok _ => Again w
      | Err e => Leave (Err e, w)
      | Panic => Leave (Panic, w)
      end)
  end.

Definition recv (fuel : nat) (w : world) : option (res SoupBinError SoupBinMessage * world) :=
  match ensure_open w.1 with
  | Ok _ => loop (recv_step fuel) fuel w
  | Err e => Some (Err e, w)
  | Panic => Some (Panic, w)
  end.

Definition tick_heartbeat (w : world) : res SoupBinError (option SoupBinEvent) * world :=
  let '(c, clk) := w in
  match ensure_open c with
  | Err e => (Err e, w)
  | Panic => (Panic, w)
  | Ok _ =>
      let '(now, clk) := now_of clk in
      let '(dead, s) := heartbeat_timed_out (session c) now in
      if dead then (Ok (Some EvHeartbeatTimeout), (with_session s c, clk))
      else if heartbeat_due s now then
        match queue_heartbeat s with
        | (Ok _, s) =>
            match write_out (with_session s c, clk) with
            | (Ok _, w) => (Ok (Some EvHeartbeatSent), w)
            | (Err e, w) => (Err e, w)
            | (Panic, w) => (Panic, w)
            end
        | (Err e, s) => (Err e, (with_session s c, clk))
        | (Panic, s) => (Panic, (with_session s c, clk))
        end
      else (Ok None, (with_session s c, clk))
  end.

(** The [select!] of [recv_managed]: the read side is polled first, then the timer,
    which fires once the clock has reached the deadline. *)
Definition recv_managed_step (fuel : nat) (w : world)
    : option (step world (res SoupBinError SoupBinMessage * world)) :=
  let '(c, clk) := w in
  '(r, s) ← dispatch_stream (session c);
  let c := with_session s c in
  match r with
  | Ok (Some m) => Some (Leave (Ok (streamed s m), (c, clk)))
  | Err e => Some (Leave (Err e, (c, clk)))
  | Panic => Some (Leave (Panic, (c, clk)))
  | Ok None =>
      match next_deadline (session c) with
      | Err e => Some (Leave (Err e, (c, clk)))
      | Panic => Some (Leave (Panic, (c, clk)))
      | Ok deadline =>
          '(r, t, clk) ← iterate (deadline_round deadline) fuel (transport c, clk);
          let c := with_transport t c in
          Some (match r with
          | Some r =>
              match after_ready r (c, clk) with
              | (Ok _, w) => Again w
              | (Err e, w) => Leave (Err e, w)
              | (Panic, w) => Leave (Panic, w)
              end
          | None =>
              match tick_heartbeat (c, clk) with
              | (Ok (Some EvHeartbeatTimeout), w) => Leave (Ok (Event EvHeartbeatTimeout), w)
              | (Ok _, w) => Again w
              | (Err e, w) => Leave (Err e, w)
              | (Panic, w) => Leave (Panic, w)
              end
          end)
      end
  end.

Definition recv_managed (fuel : nat) (w : world) : option (res SoupBinError SoupBinMessage * world) :=
  match ensure_open w.1 with
  | Ok _ => loop (recv_managed_step fuel) fuel w
  | Err e => Some (Err e, w)
  | Panic => Some (Panic, w)
  end.

Definition send_unsequenced (w : world) (payload : list byte) : res SoupBinError unit * world :=
  match ensure_open w.1 with
  | Err e => (Err e, w)
  | Panic => (Panic, w)
  | Ok _ =>
      match queue (session w.1) UnsequencedData payload with
      | (Ok _, s) => write_out (with_session s w.1, w.2)
      | (r, s) => (r, (with_session s w.1, w.2))
      end
  end.

Definition logout (w : world) : res SoupBinError unit * world :=
  match state (session w.1) with
  | Closed => (Ok tt, w)
  | _ =>
      match queue (session w.1) LogoutRequest [] with
      | (Ok _, s) =>
          match write_out (with_session s w.1, w.2) with
          | (Ok _, (c, clk)) => (Ok tt, (with_session (close_logout (session c)) c, clk))
          | r => r
          end
      | (r, s) => (r, (with_session s w.1, w.2))
      end
  end.
End client.

Arguments after_ready : simpl never.
Arguments tick_heartbeat : simpl never.
Arguments write_out : simpl never.

(** ** The asynchronous contracts *)

(** Waiting and writing read nothing from the stream. *)
Class AsyncOk (T : Type) `{StreamRecv T, !StreamViewOk T, StreamSend T, AsyncReady T} := {
  poll_ready_ok t r t' : poll_ready t = (r, t') -> view t' = view t /\ r <> Some Panic;
  send_all_ok t buf r t' : send_all t buf = (r, t') -> view t' = view t /\ r <> Panic;
}.

Section account.
Context {T : Type} `{StreamRecv T, !StreamViewOk T, StreamSend T, AsyncReady T, !AsyncOk T, Alloc, !AllocOk}.

(** An open streaming client that owes [e]. *)
Definition streams (k : list byte) (e : list SoupBinMessage) (w : world (T := T)) : Prop :=
  state (session w.1) = Streaming /\ owes k e w.1.

(** A change of transport state that keeps the view keeps the account. *)
Lemma owes_transport k e (c : SoupBinClient T) t :
  view t = view (transport c) -> owes k e c -> owes k e (with_transport t c).
Proof. intros Hv Ho. eapply owes_frame; [exact Ho|done..|]. unfold pending. simpl. by rewrite Hv. Qed.

Lemma ready_view fuel t r t' : ready fuel t = Some (r, t') -> view t' = view t /\ r <> Panic.
Proof.
  intros E. apply (iterate_inv ready_round (fun t1 => view t1 = view t) (fun x => view x.2 = view t /\ x.1 <> Panic)) in E; [done|..|done].
  - intros t1 t2 Hv Er. unfold ready_round in Er. destruct (poll_ready t1) as [[r1|] t3] eqn:Ep; simplify_eq.
    apply poll_ready_ok in Ep as [? _]. congruence.
  - intros t1 x Hv Er. unfold ready_round in Er. destruct (poll_ready t1) as [[r1|] t3] eqn:Ep; simplify_eq.
    apply poll_ready_ok in Ep as [? ?]. simpl. split; congruence.
Qed.

Lemma deadline_view d fuel t clk r t' clk' :
  iterate (deadline_round d) fuel (t, clk) = Some (r, t', clk') -> view t' = view t /\ r <> Some Panic.
Proof.
  intros E. apply (iterate_inv (deadline_round d) (fun x => view x.1 = view t)
    (fun x => view x.1.2 = view t /\ x.1.1 <> Some Panic)) in E; [done|..|done].
  - intros [t1 c1] [t2 c2] Hv Er. simpl in *. destruct (poll_ready t1) as [[r1|] t3] eqn:Ep; simplify_eq.
    apply poll_ready_ok in Ep as [? _]. destruct (_ <=? _); simplify_eq. congruence.
  - intros [t1 c1] [[r2 t2] c2] Hv Er. simpl in *. destruct (poll_ready t1) as [[r1|] t3] eqn:Ep; apply poll_ready_ok in Ep as [? ?].
    + simplify_eq. split; congruence.
    + destruct (_ <=? _); simplify_eq. split; [congruence|done].
Qed.

(** Landing more bytes keeps the account and the state. *)
Lemma after_ready_owes k e r w r' w' :
  after_ready r w = (r', w') -> owes k e w.1 -> owes k e w'.1 /\ state (session w'.1) = state (session w.1) /\
    out (session w'.1) = out (session w.1).
Proof.
  intros E Ho. destruct w as [c clk]. unfold after_ready in E. destruct r as [u|er|]; [|by simplify_eq..].
  destruct (now_of clk) as [now clk1]. destruct (ingest (session c) (transport c) now) as [[r1 s1] t1] eqn:Ei.
  assert (Hc : owes k e (client s1 t1)) by (eapply ingest_owes; [exact Ei|]; by destruct c).
  apply ingest_spec in Ei as (_&Hs&_&Hout&_). destruct r1; simplify_eq; done.
Qed.

Lemma await_owes k e fuel w r w' :
  await_more_bytes fuel w = Some (r, w') -> owes k e w.1 -> owes k e w'.1 /\ state (session w'.1) = state (session w.1).
Proof.
  intros E Ho. unfold await_more_bytes in E. destruct (ready fuel _) as [[r1 t1]|] eqn:Er; [|done].
  apply ready_view in Er as [Hv _]. cbn in E. apply (inj Some) in E.
  apply (after_ready_owes k e) in E as (?&?&_); [done|]. by apply owes_transport.
Qed.

(** A dispatched message is the head of the account. *)
Lemma recv_dispatch k e (c : SoupBinClient T) m s :
  state (session c) = Streaming -> owes k e c -> dispatch_stream (session c) = Some (Ok (Some m), s) ->
  exists e', e = streamed s m :: e' /\ owes k e' (with_session s c).
Proof.
  intros Hs Ho Ed. apply (dispatch_stream_owes k e _ (transport c)) in Ed; [|done|by destruct c].
  destruct Ed as (e' & -> & Ho'). by exists e'.
Qed.

Lemma idle_dispatch k e (c : SoupBinClient T) s :
  state (session c) = Streaming -> owes k e c -> dispatch_stream (session c) = Some (Ok None, s) ->
  streams k e (with_session s c, Build_Clock (fun _ => 0) 0).
Proof.
  intros Hs Ho Ed. split.
  - apply dispatch_stream_frame in Ed as (_&_&_&(Hst&_)&_). simpl. congruence.
  - by apply (dispatch_stream_owes k e _ (transport c)) in Ed; [|done|by destruct c].
Qed.

(** What one receive call yields and leaves. *)
Definition received (k : list byte) (e : list SoupBinMessage) (r : res SoupBinError SoupBinMessage) (w' : world (T := T)) : Prop :=
  match r with
  | Ok m =>
      (state (session w'.1) = Streaming \/ state (session w'.1) = Closed) /\
      exists e', e = (if from_server m then [m] else []) ++ e' /\ owes k e' w'.1
  | _ => True
  end.

Lemma recv_owes k e fuel w r w' : recv fuel w = Some (r, w') -> streams k e w -> received k e r w'.
Proof.
  intros E [Hs Ho]. unfold recv, ensure_open in E. rewrite Hs in E.
  apply (loop_inv (recv_step fuel) (streams k e) (fun x => received k e x.1 x.2)) in E; [done|..|done]; clear E.
  - intros [c clk] w2 [Hs1 Ho1] Er. unfold recv_step in Er. simpl in Hs1, Ho1.
    destruct (dispatch_stream (session c)) as [[[[m|]|er|] s]|] eqn:Ed; try (by simplify_eq/=); simpl in Er; try (simplify_eq/=).
    destruct (idle_dispatch k e c s Hs1 Ho1 Ed) as [Hs' Ho'].
    destruct (await_more_bytes fuel _) as [[[u|er|] w3]|] eqn:Ea; simpl in Er; simplify_eq/=.
    apply (await_owes k e) in Ea as [? Hst]; [|done]. split; [|done]. simpl in *. congruence.
  - intros [c clk] [r2 w2] [Hs1 Ho1] Er. unfold recv_step in Er. simpl in Hs1, Ho1.
    destruct (dispatch_stream (session c)) as [[[[m|]|er|] s]|] eqn:Ed; try (by simplify_eq/=); simpl in Er; try (simplify_eq/=); try done.
    + destruct (recv_dispatch k e c m s Hs1 Ho1 Ed) as (e' & -> & Ho'). apply dispatch_stream_frame in Ed as (_&_&_&Hm).
      destruct m as [n|[]]; try done; (split; [|by exists e']); simpl.
      * left. destruct Hm. congruence.
      * left. destruct Hm. congruence.
      * right. by destruct Hm.
    + destruct (await_more_bytes fuel _) as [[[u|er|] w3]|] eqn:Ea; simpl in Er; simplify_eq/=; done.
Qed.

Lemma write_out_streams k e w r w' : write_out w = (r, w') -> streams k e w -> streams k e w'.
Proof.
  destruct w as [c clk]. unfold write_out. intros E [Hs Ho].
  destruct (send_all (transport c) (out (session c))) as [r1 t1] eqn:Et. apply send_all_ok in Et as [Hv _].
  assert (Hc : streams k e (with_transport t1 c, clk)) by (split; [done|by apply owes_transport]).
  destruct r1; simplify_eq/=; [|done..]. split; [done|]. eapply owes_frame; [exact (proj2 Hc)|done..].
Qed.

Lemma tick_streams k e w r w' :
  tick_heartbeat w = (r, w') -> streams k e w ->
  match r with
  | Ok (Some EvHeartbeatTimeout) => state (session w'.1) = Closed
  | Ok _ => streams k e w'
  | _ => True
  end.
Proof.
  destruct w as [c clk]. unfold tick_heartbeat, ensure_open. intros E [Hs Ho]. simpl in Hs, Ho. rewrite Hs in E.
  destruct (now_of clk) as [now clk1]. unfold heartbeat_timed_out in E. destruct (_ <=? _).
  - destruct (heartbeat_due (session c) now).
    + destruct (queue_heartbeat (session c)) as [r1 s1] eqn:Eq. injection Eq as <- <-.
      destruct (write_out _) as [r2 w2] eqn:Ew. apply (write_out_streams k e) in Ew; [by destruct r2; simplify_eq|].
      split; [done|]. eapply owes_frame; [exact Ho|done..].
    + simplify_eq. split; [done|]. by destruct c.
  - by simplify_eq.
Qed.

Lemma recv_managed_owes k e fuel w r w' : recv_managed fuel w = Some (r, w') -> streams k e w -> received k e r w'.
Proof.
  intros E [Hs Ho]. unfold recv_managed, ensure_open in E. rewrite Hs in E.
  apply (loop_inv (recv_managed_step fuel) (streams k e) (fun x => received k e x.1 x.2)) in E; [done|..|done]; clear E.
  - intros [c clk] w2 [Hs1 Ho1] Er. unfold recv_managed_step in Er. simpl in Hs1, Ho1.
    destruct (dispatch_stream (session c)) as [[[[m|]|er|] s]|] eqn:Ed; try (by simplify_eq/=); simpl in Er.
    destruct (idle_dispatch k e c s Hs1 Ho1 Ed) as [Hs' Ho'].
    destruct (next_deadline s) as [d|er|]; simplify_eq/=.
    destruct (iterate _ _ _) as [[[r3 t3] clk3]|] eqn:Ei; simplify_eq/=. apply deadline_view in Ei as [Hv _].
    assert (Hc : streams k e (with_transport t3 (with_session s c), clk3)) by (split; [done|by apply owes_transport]).
    destruct r3 as [r3|].
    + destruct (after_ready _ _) as [[u|er|] w3] eqn:Ea; simplify_eq. destruct Hc as [Hcs Hco].
      apply (after_ready_owes k e) in Ea as (?&Hst&_); [|done]. split; [|done]. congruence.
    + destruct (tick_heartbeat _) as [[[[]|]|er|] w3] eqn:Et; simplify_eq; by apply (tick_streams k e) in Et.
  - intros [c clk] [r2 w2] [Hs1 Ho1] Er. unfold recv_managed_step in Er. simpl in Hs1, Ho1.
    destruct (dispatch_stream (session c)) as [[[[m|]|er|] s]|] eqn:Ed; simpl in Er; try (by simplify_eq/=).
    + simplify_eq. destruct (recv_dispatch k e c m s Hs1 Ho1 Ed) as (e' & -> & Ho'). apply dispatch_stream_frame in Ed as (_&_&_&Hm).
      destruct m as [n|[]]; try done; (split; [|by exists e']); simpl.
      * left. destruct Hm. congruence.
      * left. destruct Hm. congruence.
      * right. by destruct Hm.
    + destruct (idle_dispatch k e c s Hs1 Ho1 Ed) as [Hs' Ho'].
      destruct (next_deadline s) as [d|er|]; simplify_eq/=; try done.
      destruct (iterate _ _ _) as [[[r3 t3] clk3]|] eqn:Ei; simplify_eq/=. apply deadline_view in Ei as [Hv _].
      assert (Hc : streams k e (with_transport t3 (with_session s c), clk3)) by (split; [done|by apply owes_transport]).
      destruct r3 as [r3|]; [by destruct (after_ready _ _) as [[u|er|] w3]; simplify_eq|].
      destruct (tick_heartbeat _) as [[[[]|]|er|] w3] eqn:Et; simplify_eq; try done.
      apply (tick_streams k e) in Et; [|done]. split; [by right|]. exists e. split; [done|]. by intros [].
Qed.

(** ** Login *)

Definition logs_in (k : list byte) (e : list SoupBinMessage) (r : res SoupBinError unit) (w' : world (T := T)) : Prop :=
  match r with
  | Ok _ => state (session w'.1) = Streaming /\
      exists id e', e = Event (EvLoginAccepted id (next_expected_sequence (session w'.1))) :: e' /\ owes k e' w'.1
  | _ => True
  end.

Lemma login_owes k e fuel w r w' :
  login fuel w = Some (r, w') -> state (session w.1) = Authenticating -> owes k e w.1 -> logs_in k e r w'.
Proof.
  unfold login. generalize (login_deadline (session w.1)). intros d E Hs Ho.
  apply (loop_inv (login_step fuel d) (fun w => state (session w.1) = Authenticating /\ owes k e w.1)
    (fun x => logs_in k e x.1 x.2)) in E; [done|..|done]; clear E.
  - intros [c clk] w2 [Hs1 Ho1] Er. unfold login_step in Er. simpl in Hs1, Ho1, Er.
    destruct (dispatch_login (session c) _) as [[[[[]|]|er|] s]|] eqn:Ed; try (by simplify_eq/=); simpl in Er.
    pose proof (dispatch_login_frame _ _ _ _ Ed) as (_&_&(Hst&_)&_).
    apply (dispatch_login_owes k e _ _ (transport c)) in Ed; [|done|by destruct c]. simpl in Ed.
    destruct (d <=? _); [by simplify_eq/=|]. unfold await_more_bytes_with_deadline in Er.
    destruct (iterate _ _ _) as [[[r3 t3] clk3]|] eqn:Ei; simplify_eq/=. apply deadline_view in Ei as [Hv _].
    destruct r3 as [r3|]; [|by simplify_eq/=].
    destruct (after_ready _ _) as [[u|er|] w3] eqn:Ea; simplify_eq/=.
    apply (after_ready_owes k e) in Ea as (?&Hst2&_); [simpl in Hst2; split; [congruence|done]|]. by apply owes_transport.
  - intros [c clk] [r2 w2] [Hs1 Ho1] Er. unfold login_step in Er. simpl in Hs1, Ho1, Er.
    destruct (dispatch_login (session c) _) as [[[[[id n|reason]|]|er|] s]|] eqn:Ed; simpl in Er; try (by simplify_eq/=).
    + simplify_eq. pose proof (dispatch_login_frame _ _ _ _ Ed) as (_&_&Hst&_&_&Hn).
      apply (dispatch_login_owes k e _ _ (transport c)) in Ed as (e' & -> & Ho'); [|done|by destruct c].
      split; [done|]. exists id, e'. simpl. by rewrite Hn.
    + destruct (d <=? _); [by simplify_eq/=|]. unfold await_more_bytes_with_deadline in Er.
      destruct (iterate _ _ _) as [[[r3 t3] clk3]|] eqn:Ei; simplify_eq/=.
      destruct r3 as [r3|]; [|by simplify_eq/=]. by destruct (after_ready _ _) as [[u|er|] w3]; simplify_eq/=.
Qed.

Lemma connect_owes fuel t c clk r clk' k ps :
  view t ++ k = concat (enc <$> ps) -> Forall (fits (new 0 c)) ps ->
  connect fuel t c clk = Some (Ok r, clk') ->
  state (session r) = Streaming /\ exists id e',
    expected Authenticating 0 ps = Event (EvLoginAccepted id (next_expected_sequence (session r))) :: e' /\ owes k e' r.
Proof.
  intros Hv Hf E. unfold connect in E. destruct (now_of clk) as [n1 clk1]. destruct (now_of clk1) as [n2 clk2].
  destruct (queue_login (new n1 c) n2) as [r1 s1] eqn:Eq. unfold queue_login in Eq.
  destruct (queue _ _ _) as [r0 s0] eqn:E0. unfold queue in E0. destruct r1; [|done..].
  assert (Hs : state s1 = Authenticating /\ cfg s1 = c /\ next_expected_sequence s1 = 0 /\ data (decode_buf s1) = []).
  { destruct (try_u16 _); simplify_eq. destruct (instant_add _ _); by simplify_eq. }
  clear Eq E0. destruct Hs as (Hs & Hc & Hn & Hd).
  destruct (write_out (client s1 t, clk2)) as [r2 [c2 clk3]] eqn:Ew. destruct r2; [|done..].
  assert (Ho : owes k (expected Authenticating 0 ps) c2 /\ state (session c2) = Authenticating).
  { unfold write_out in Ew. destruct (send_all _ _) as [r3 t3] eqn:Et. apply send_all_ok in Et as [Hv3 _]. simpl in Hv3.
    destruct r3; [|done..]. destruct (now_of clk2) as [n3 clk4]. simplify_eq. split; [|done].
    intros _. exists ps. unfold pending. simpl. rewrite Hd, Hv3, Hs, Hn. split_and!; [done| |done].
    eapply Forall_impl; [exact Hf|]. done. }
  destruct (login fuel (c2, clk3)) as [[r3 [c3 clk4]]|] eqn:El; [|done]. simpl in E. destruct r3; simplify_eq.
  destruct Ho as [Ho Hs2]. by apply (login_owes k (expected Authenticating 0 ps)) in El.
Qed.

(** ** Runs *)

Inductive Call := Recv | RecvManaged.

Fixpoint recvs (fuel : nat) (w : world (T := T)) (calls : list Call) : option (list SoupBinMessage * world (T := T)) :=
  match calls with
  | [] => Some ([], w)
  | call :: calls =>
      match (match call with Recv => recv fuel w | RecvManaged => recv_managed fuel w end) with
      | Some (Ok m, w) => '(ms, w) ← recvs fuel w calls; Some (m :: ms, w)
      | _ => None
      end
  end.

Lemma recvs_owes k e fuel w calls ms w' :
  recvs fuel w calls = Some (ms, w') -> state (session w.1) <> Authenticating -> owes k e w.1 ->
  exists rest, e = List.filter from_server ms ++ rest /\ owes k rest w'.1.
Proof.
  revert e w ms. induction calls as [|call calls IH]; intros e w ms E Hs Ho; simpl in E; [simplify_eq; by exists e|].
  destruct (match call with Recv => _ | _ => _ end) as [[[m|er|] w1]|] eqn:Ec; [|done..].
  destruct (recvs fuel w1 calls) as [[ms1 w2]|] eqn:Er; [|done]. simpl in E. simplify_eq.
  destruct (state (session w.1)) eqn:Est; [done| |].
  - assert (Hr : received k e (Ok m) w1).
    { destruct call; [apply (recv_owes k e) in Ec|apply (recv_managed_owes k e) in Ec]; done. }
    destruct Hr as (Hst & e' & -> & Ho'). destruct (IH e' w1 ms1 Er) as (rest & -> & Hrest); [by destruct Hst as [->| ->]|done|].
    exists rest. split; [|done]. simpl. by destruct (from_server m).
  - exfalso. destruct call; unfold recv, recv_managed, ensure_open in Ec; by rewrite Est in Ec.
Qed.

(** ** Properties *)

(** C7: the asynchronous driver owes its caller what the synchronous one does: a
    [connect] that succeeds has taken the login answer and announces its number as
    [next_expected_sequence], and the messages that any sequence of [recv] and
    [recv_managed] calls then yields from the server are the packets after it, each
    once, in order and numbered from there, whatever the schedule, the clock, the
    heartbeats sent in between and the way reads cut the bytes. *)
Theorem async_in_order fuel t c clk cl clk' calls ms w' k ps :
  view t ++ k = concat (enc <$> ps) -> Forall (fits (new 0 c)) ps ->
  connect fuel t c clk = Some (Ok cl, clk') -> recvs fuel (cl, clk') calls = Some (ms, w') ->
  exists id rest,
    expected Authenticating 0 ps =
      Event (EvLoginAccepted id (next_expected_sequence (session cl))) :: List.filter from_server ms ++ rest /\
    owes k rest w'.1.
Proof.
  intros Hv Hf Ec Er. destruct (connect_owes _ _ _ _ _ _ _ _ Hv Hf Ec) as (Hs & id & e' & He & Ho).
  destruct (recvs_owes k e' fuel (cl, clk') calls ms w' Er) as (rest & -> & Hrest); [simpl; by rewrite Hs|done|].
  by exists id, rest.
Qed.
End account.

(** ** A worked session *)

(** A scripted stream is always ready, and takes every write whole. *)
#[export] Instance ScriptedStream_ready : AsyncReady ScriptedStream := fun t => (Some (Ok tt), t).

#[export] Instance ScriptedStream_send_all : StreamSend ScriptedStream := fun t buf =>
  (Ok tt, {| inbox := inbox t; closes := closes t; budget := budget t; wrote := wrote t ++ buf |}).

#[export] Instance ScriptedStream_async_ok : AsyncOk ScriptedStream.
Proof.
  split.
  - intros t r t' E. unfold poll_ready, ScriptedStream_ready in E. by simplify_eq.
  - intros t buf r t' E. unfold send_all, ScriptedStream_send_all in E. by simplify_eq.
Qed.

Module demo_async.
Definition clock : Clock := {| readings := fun n => Z.of_nat n; reads := 0 |}.
Definition connected : option (res SoupBinError (SoupBinClient ScriptedStream) * Clock) :=
  connect 200 demo_stream.net demo_stream.cfg clock.
Definition blank : SoupBinClient ScriptedStream := client (new 0 demo_stream.cfg) demo_stream.net.
Definition cl : SoupBinClient ScriptedStream * Clock :=
  match connected with Some (Ok c, clk) => (c, clk) | _ => (blank, clock) end.
Definition calls : list Call := [Recv; RecvManaged; Recv].
Definition got := default ([], cl) (recvs 200 cl calls).
End demo_async.

Lemma demo_connects : connect 200 demo_stream.net demo_stream.cfg demo_async.clock = Some (Ok demo_async.cl.1, demo_async.cl.2).
Proof. vm_compute. reflexivity. Qed.

Lemma demo_receives : recvs 200 (demo_async.cl.1, demo_async.cl.2) demo_async.calls = Some (demo_async.got.1, demo_async.got.2).
Proof. vm_compute. reflexivity. Qed.

Example demo_got : demo_async.got.1 =
  [Data {| payload := [Byte.x01]; sequence := 7 |}; Data {| payload := [Byte.x04]; sequence := 8 |}; Event EvEndOfSession].
Proof. vm_compute. reflexivity. Qed.

Lemma async_in_order_witness :
  exists id rest,
    expected Authenticating 0 demo_stream.ps =
      Event (EvLoginAccepted id (next_expected_sequence (session demo_async.cl.1))) ::
        List.filter from_server demo_async.got.1 ++ rest /\
    owes [] rest demo_async.got.2.1.
Proof.
  apply (async_in_order 200 demo_stream.net demo_stream.cfg demo_async.clock demo_async.cl.1 demo_async.cl.2
    demo_async.calls demo_async.got.1 demo_async.got.2 [] demo_stream.ps).
  - vm_compute. reflexivity.
  - repeat constructor; vm_compute; discriminate.
  - exact demo_connects.
  - exact demo_receives.
Defined.
