(* ===== verification/SoupStacks.v ===== *)
(** * The SoupBinTCP clients on TCP

    The synchronous client runs on mio's [MioTcp], the asynchronous one on tokio's [TcpStream].
    Both streams keep the contracts the clients' theorems are proved against ([MioTcp_ok] in
    [SocketRuntimes], [TcpStream_async_ok] here), so all of those hold of them; two sessions
    over a scripted connection show it. *)

From S2P Require Import Prelude TransportCore SoupWire SoupSession SoupStream SoupClient SoupAsync.
From S2P Require Import Trace Pools Socket SocketSafety SocketRuntimes.
From Stdlib Require Import ZArith Lia.
From stdpp Require Import prelude list strings.

Open Scope Z_scope.
Open Scope res_scope.

(** ** tokio's stream, waited on *)

(** Waiting, peeking and writing read nothing; [stale] bounds how often in a row the reactor
    reports a readiness that a peek then finds stale. *)
Class TcpAsyncOk (S : Type) `{TcpSysOk S, Readable S, WriteAll S} := {
  stale : S -> nat;
  readable_view s r s' : sys_readable s = (r, s') -> ts_view s' = ts_view s;
  peek_view s a s' : sys_peek_byte s = (a, s') -> ts_view s' = ts_view s;
  write_all_view s bytes a s' : sys_write_all s bytes = (a, s') -> ts_view s' = ts_view s;
  stale_less s s1 e s2 : sys_readable s = (Some None, s1) -> sys_peek_byte s1 = (Some e, s2) ->
    is_would_block e = true -> (stale s2 < stale s)%nat;
}.

Section tokio.
Context {S : Type} `{TcpAsyncOk S}.
Implicit Types (t : TcpStream (S := S)) (s : S).

Lemma tcp_readiness : readiness_laws (S := S) sys_peek_byte ts_view stale.
Proof using. split; [exact readable_view|exact peek_view|exact stale_less]. Qed.

(** One poll of the future returns. *)
Lemma tcp_ready_total t : exists r t', tcp_ready (Datatypes.S (stale (tsock t))) t = Some (r, t') /\
  ts_view (tsock t') = ts_view (tsock t) /\ r <> Some Panic.
Proof using.
  unfold tcp_ready. destruct (ready_total sys_peek_byte ts_view stale tcp_readiness (tsock t)) as (r & s' & -> & Hv & Hp).
  by exists r, (Tcp s').
Qed.

#[export] Instance TcpStream_ready : AsyncReady (TcpStream (S := S)) := fun t =>
  default (None, t) (tcp_ready (Datatypes.S (stale (tsock t))) t).

#[export] Instance TcpStream_async_ok : AsyncOk (TcpStream (S := S)).
Proof using H2 H3.
  split.
  - intros t r t' E. unfold poll_ready, TcpStream_ready in E. destruct (tcp_ready_total t) as (r1 & t1 & E1 & Hv & Hp).
    rewrite E1 in E. cbn in E. by simplify_eq.
  - intros [s] bytes r t' E. unfold send_all, Tcp_send_all in E. cbn [tsock] in E.
    destruct (sys_write_all s bytes) as [a s'] eqn:Ew. simplify_eq. cbn. split; [by eapply write_all_view|by destruct a].
Defined.
End tokio.

(** ** Two sessions over a scripted connection *)

#[export] Instance Pipe_readable : Readable Pipe := fun s =>
  (match chunks s with [] => if ends s then Some None else None | _ => Some None end, s).

#[export] Instance Pipe_write_all : WriteAll Pipe := fun s bytes =>
  (None, {| chunks := chunks s; ends := ends s; out_bytes := out_bytes s ++ bytes |}).

#[export] Instance Pipe_async_ok : TcpAsyncOk Pipe.
Proof.
  refine {| stale := fun _ => O |}.
  - intros s r s' E. unfold sys_readable, Pipe_readable in E. by simplify_eq.
  - intros s a s' E. unfold sys_peek_byte, Pipe_sys in E. by simplify_eq.
  - intros s bytes a s' E. unfold sys_write_all, Pipe_write_all in E. by simplify_eq.
  - intros s s1 e s2 Er Ep _. unfold sys_readable, Pipe_readable in Er. unfold sys_peek_byte, Pipe_sys in Ep.
    destruct (chunks s) eqn:Ec; [destruct (ends s) eqn:Ee|]; simplify_eq; rewrite Ec, ?Ee in *; simplify_eq.
Defined.

#[export] Instance Pipe_mio : MioSource Pipe := fun _ s => s.
#[export] Instance Pipe_mio_ok : MioStreamOk Pipe.
Proof. by split. Defined.

(** The server's packets of [demo_stream], cut where no packet ends; the peer then closes. *)
Definition demo_pipe : Pipe :=
  {| chunks := [take 20 demo_stream.stream; drop 20 demo_stream.stream]; ends := true; out_bytes := [] |}.

Definition demo_messages : list SoupBinMessage :=
  [Data {| payload := [Byte.x01]; sequence := 7 |}; Data {| payload := [Byte.x04]; sequence := 8 |}; Event EvEndOfSession].

(** The synchronous client under mio, polled until the end of the session. *)
Example demo_mio_session :
  match start (MTcp demo_pipe) demo_stream.cfg 0 with
  | Some (Ok c) => (fun x => List.filter from_server (messages x.1)) <$> run 200 c [Poll 1; Poll 1; Poll 1; Poll 1]
  | _ => None
  end = Some (Event (EvLoginAccepted (replicate 10 Byte.x41) 7) :: demo_messages).
Proof. vm_compute. reflexivity. Qed.

(** The asynchronous one under tokio, [connect] having taken the login answer. *)
Example demo_tokio_session :
  match connect 200 (Tcp demo_pipe) demo_stream.cfg demo_async.clock with
  | Some (Ok c, clk) => fst <$> recvs 200 (c, clk) demo_async.calls
  | _ => None
  end = Some demo_messages.
Proof. vm_compute. reflexivity. Qed.
