(* ===== verification/SoupInflate.v ===== *)
(** * client-soupbintcp: the compressed variant's reader

    Models [compressed.rs] and the [compressed] branch of [Session::ingest] with
    [Session::staged]. The zlib decompressor of [flate2] is the class [Inflator]: one
    [decompress] call takes some of its input and writes some of the room it is given,
    and its totals count both; [InflatorOk] is that documented accounting. *)

From S2P Require Import Prelude TransportCore SoupWire SoupText SoupSession SoupStream.
From Stdlib Require Import ZArith Lia.
From stdpp Require Import prelude list strings.

Open Scope Z_scope.
Open Scope res_scope.

(** [flate2::Status]; a [BufError] is a call that could do nothing. *)
Inductive Status := Status_Ok | BufError | StreamEnd.

(** [Decompress]: a call gives [None] for corrupt input, the bytes it wrote otherwise. *)
Class Inflator (D : Type) := {
  total_in : D -> Z;
  total_out : D -> Z;
  decompress : D -> list byte -> Z -> option (Status * list byte) * D;
}.

Class InflatorOk (D : Type) `{Inflator D} :=
  decompress_ok d input space st w d' :
    0 <= space -> decompress d input space = (Some (st, w), d') ->
    total_in d <= total_in d' <= total_in d + len input /\
    total_out d' = total_out d + len w /\ len w <= space.

Record CompressedReader (D : Type) := {
  inflator : D;
  inflated : list byte;
  produced : Z;
}.
Arguments inflator {D} _.
Arguments inflated {D} _.
Arguments produced {D} _.

Section reader.
Context {D : Type} `{Inflator D}.

(** [CompressedReader::new] over a fresh [Decompress]. *)
Definition new (d : D) (inflated_capacity : Z) : CompressedReader D :=
  {| inflator := d; inflated := replicate (Z.to_nat inflated_capacity) Byte.x00; produced := 0 |}.

(** [moved]: [total - start] wraps as a [u64]. *)
Definition moved (total start limit : Z) : Z := Z.min (u64_sub total start) limit.

(** The output buffer after [w] was written at [at_]. *)
Definition overlay (buf : list byte) (at_ : Z) (w : list byte) : list byte :=
  take (Z.to_nat at_) buf ++ w ++ drop (Z.to_nat at_ + length w) buf.

(** One round of [feed]'s loop, [break]s as [Leave (Ok _)]. *)
Definition feed_round (start_in start_out : Z) (compressed : list byte) (st : CompressedReader D * Z)
    : step (CompressedReader D * Z) (res SoupBinError Z * CompressedReader D) :=
  let '(r, consumed) := st in
  if produced r <? len (inflated r) then
    match decompress (inflator r) (drop (Z.to_nat consumed) compressed) (len (inflated r) - produced r) with
    | (None, d) =>
        Leave (Err (ProtocolViolation InflateFailed),
               {| inflator := d; inflated := inflated r; produced := produced r |})
    | (Some (status, w), d) =>
        let consumed' := moved (total_in d) start_in (len compressed) in
        let produced' := moved (total_out d) start_out (len (inflated r)) in
        let r' := {| inflator := d; inflated := overlay (inflated r) (produced r) w; produced := produced' |} in
        match status with
        | StreamEnd => Leave (Ok (len compressed), r')
        | _ =>
            if (consumed' =? consumed) && (produced' =? produced r) then Leave (Ok consumed', r')
            else Again (r', consumed')
        end
    end
  else Leave (Ok consumed, r).

(** [CompressedReader::feed]. A round that goes on has moved a byte one way or the other. *)
Definition feed (r : CompressedReader D) (compressed : list byte)
    : option (res SoupBinError (Z * list byte) * CompressedReader D) :=
  let r0 := {| inflator := inflator r; inflated := inflated r; produced := 0 |} in
  '(res, r) ← iterate (feed_round (total_in (inflator r)) (total_out (inflator r)) compressed)
                 (S (length compressed + length (inflated r))) (r0, 0);
  Some (match res with
  | Err e => Err e
  | Panic => Panic
  | Ok consumed =>
      if (consumed =? 0) && (produced r =? 0) && negb (len compressed =? 0)
      then Err (ProtocolViolation InflateStalled)
      else Ok (consumed, take (Z.to_nat (produced r)) (inflated r))
  end, r).

Definition capped (r : CompressedReader D) : bool :=
  negb (produced r =? 0) && (produced r =? len (inflated r)).

(** ** The session's compressed input *)

(** The two fields [Session] gains under [compressed]. *)
Record Staging := { inflate : CompressedReader D; recv_staging : BytesMut }.

Definition staged (g : Staging) : bool :=
  negb (len (data (recv_staging g)) =? 0) || capped (inflate g).

Context {T : Type} `{StreamRecv T, Alloc}.

(** The end of the compressed [ingest]: inflate one step of what is staged. *)
Definition inflate_step (s : Session) (g : Staging) (t : T)
    : option (res SoupBinError bool * Session * Staging * T) :=
  '(r, inf) ← feed (inflate g) (data (recv_staging g));
  let g := {| inflate := inf; recv_staging := recv_staging g |} in
  Some (match r with
  | Err e => (Err e, s, g, t)
  | Panic => (Panic, s, g, t)
  | Ok (consumed, out) =>
      let b := decode_buf s in
      let grown := reserve b (len out) in
      (Ok true,
       set_decode_buf {| data := data b ++ out; room := room grown - len out; alloc := alloc grown |} s,
       {| inflate := inf; recv_staging := (split_to (recv_staging g) consumed).2 |}, t)
  end).

Definition ingest_compressed (s : Session) (g : Staging) (t : T) (now : Z)
    : option (res SoupBinError bool * Session * Staging * T) :=
  if staged g then inflate_step s g t
  else
    match land t (recv_staging g) (decode_buf_capacity (cfg s)) with
    | (Ok n, buf, t) =>
        let g := {| inflate := inflate g; recv_staging := buf |} in
        if n =? 0 then Some (Ok false, s, g, t)
        else inflate_step (set_last_recv now s) g t
    | (Err e, buf, t) => Some (Err e, s, {| inflate := inflate g; recv_staging := buf |}, t)
    | (Panic, buf, t) => Some (Panic, s, {| inflate := inflate g; recv_staging := buf |}, t)
    end.
End reader.

(** ** Lemmas *)

Section facts.
Context {D : Type} `{InflatorOk D}.

(** One call on what is left: of [input] once [n] bytes are taken, and of the room for [cap]
    bytes once [w] is written. *)
Definition pull (input : list byte) (cap n : Z) (d : D) (w : list byte) : option (Status * list byte) * D :=
  decompress d (drop (Z.to_nat n) input) (cap - len w).

(** Successive calls, none of which ended the stream and each of which moved something: how
    much of [input] they took, the inflator they left and all they wrote. *)
Inductive pulls (input : list byte) (cap : Z) (d : D) : Z -> D -> list byte -> Prop :=
  | pulls_none : pulls input cap d 0 d []
  | pulls_more n d1 w st w1 d2 :
      pulls input cap d n d1 w -> len w < cap -> pull input cap n d1 w = (Some (st, w1), d2) -> st <> StreamEnd ->
      (total_in d2 <> total_in d1 \/ w1 <> []) -> pulls input cap d (n + (total_in d2 - total_in d1)) d2 (w ++ w1).

(** How the calls end, and how much of the input then counts as consumed: the room is full; a
    call moved nothing; a call ended the stream, which consumes all of it; a call failed. *)
Inductive finish (input : list byte) (cap : Z) (d : D) : res SoupBinError Z -> D -> list byte -> Prop :=
  | finish_full n d' w : pulls input cap d n d' w -> len w = cap -> finish input cap d (Ok n) d' w
  | finish_dry n d1 w st d' :
      pulls input cap d n d1 w -> len w < cap -> pull input cap n d1 w = (Some (st, []), d') -> st <> StreamEnd ->
      total_in d' = total_in d1 -> finish input cap d (Ok n) d' w
  | finish_end n d1 w w1 d' :
      pulls input cap d n d1 w -> len w < cap -> pull input cap n d1 w = (Some (StreamEnd, w1), d') ->
      finish input cap d (Ok (len input)) d' (w ++ w1)
  | finish_failed n d1 w d' :
      pulls input cap d n d1 w -> len w < cap -> pull input cap n d1 w = (None, d') ->
      finish input cap d (Err (ProtocolViolation InflateFailed)) d' w.

Lemma len_overlay buf p w :
  0 <= p -> p + len w <= len buf -> len (overlay buf p w) = len buf.
Proof.
  intros Hp Hw. unfold overlay, len in *. rewrite !length_app, length_take, length_drop. lia.
Qed.

Lemma take_overlay buf p w :
  0 <= p -> p + len w <= len buf ->
  take (Z.to_nat (p + len w)) (overlay buf p w) = take (Z.to_nat p) buf ++ w.
Proof.
  intros Hp Hw. unfold overlay, len in *. rewrite app_assoc. apply take_app_length'.
  rewrite length_app, length_take. lia.
Qed.

Lemma moved_exact start n limit : 0 <= n <= limit -> limit < W64 -> moved (start + n) start limit = n.
Proof.
  intros Hn Hl. unfold moved, u64_sub. replace (start + n - start) with n by lia. rewrite Z.mod_small by lia. lia.
Qed.

(** Between rounds of [feed] on [input] from inflator [d0]. *)
Record feeding (d0 : D) (input : list byte) (cap : Z) (st : CompressedReader D * Z) : Prop := {
  fd_pulls : pulls input cap d0 st.2 (inflator st.1) (take (Z.to_nat (produced st.1)) (inflated st.1));
  fd_cap : len (inflated st.1) = cap;
  fd_in : 0 <= st.2 <= len input;
  fd_out : 0 <= produced st.1 <= cap;
  fd_total_in : total_in (inflator st.1) = total_in d0 + st.2;
  fd_total_out : total_out (inflator st.1) = total_out d0 + produced st.1;
}.

Lemma len_written d0 input cap r n : feeding d0 input cap (r, n) -> len (take (Z.to_nat (produced r)) (inflated r)) = produced r.
Proof. intros [_ Hc _ Ho _ _]. simpl in *. unfold len in *. rewrite length_take. lia. Qed.

(** What one inflater call from such a state leaves, in numbers and in bytes. *)
Lemma feeding_call d0 input cap r consumed st w d :
  feeding d0 input cap (r, consumed) -> produced r < cap -> len input < W64 -> cap < W64 ->
  decompress (inflator r) (drop (Z.to_nat consumed) input) (len (inflated r) - produced r) = (Some (st, w), d) ->
  moved (total_in d) (total_in d0) (len input) = consumed + (total_in d - total_in (inflator r)) /\
  moved (total_out d) (total_out d0) (len (inflated r)) = produced r + len w /\
  0 <= total_in d - total_in (inflator r) <= len input - consumed /\ len w <= cap - produced r /\
  total_out d = total_out d0 + (produced r + len w) /\ len (overlay (inflated r) (produced r) w) = cap /\
  take (Z.to_nat (produced r + len w)) (overlay (inflated r) (produced r) w) = take (Z.to_nat (produced r)) (inflated r) ++ w.
Proof.
  intros [Hp Hc Hi Ho Hti Hto] Hlt Hin Hcap Ed. simpl in *.
  assert (Hspace : 0 <= len (inflated r) - produced r) by lia.
  destruct (decompress_ok _ _ _ _ _ _ Hspace Ed) as (Hin' & Hout & Hw).
  assert (Hdrop : len (drop (Z.to_nat consumed) input) = len input - consumed) by (unfold len in *; rewrite length_drop; lia).
  pose proof (len_nonneg w). set (k := total_in d - total_in (inflator r)) in *.
  replace (total_in d) with (total_in d0 + (consumed + k)) by lia.
  replace (total_out d) with (total_out d0 + (produced r + len w)) by lia. rewrite !moved_exact by lia.
  split_and!; try lia; [rewrite len_overlay; lia|by rewrite take_overlay by lia].
Qed.

(** Where the loop leaves: as [finish] says, with the output in front of the buffer. *)
Record fed (d0 : D) (input : list byte) (cap : Z) (x : res SoupBinError Z * CompressedReader D) : Prop := {
  fe_cap : len (inflated x.2) = cap;
  fe_out : 0 <= produced x.2 <= cap;
  fe_finish : finish input cap d0 x.1 (inflator x.2) (take (Z.to_nat (produced x.2)) (inflated x.2));
  fe_in : match x.1 with Ok consumed => 0 <= consumed <= len input | Err _ => True | Panic => False end;
}.

Lemma feed_round_spec d0 input cap st :
  feeding d0 input cap st -> len input < W64 -> cap < W64 ->
  match feed_round (total_in d0) (total_out d0) input st with
  | Again st' => feeding d0 input cap st' /\
      len input - st'.2 + (cap - produced st'.1) < len input - st.2 + (cap - produced st.1)
  | Leave x => fed d0 input cap x
  end.
Proof.
  intros Hf Hin Hcap. destruct st as [r consumed]. unfold feed_round. pose proof (len_written _ _ _ _ _ Hf) as Hlw.
  pose proof Hf as [Hp Hc Hi Ho Hti Hto]. simpl in Hp, Hc, Hi, Ho, Hti, Hto.
  destruct (produced r <? len (inflated r)) eqn:E; bool_facts.
  2: { split; simpl; try done; try lia. apply finish_full; [done|lia]. }
  destruct (decompress _ _ _) as [[[status w]|] d] eqn:Ed.
  2: { split; simpl; try done; try lia. eapply finish_failed; [exact Hp|lia|]. unfold pull. by rewrite Hlw, <- Hc. }
  destruct (feeding_call d0 input cap r consumed status w d Hf ltac:(lia) Hin Hcap Ed) as (-> & -> & Hk & Hw & Htot & Hlen & Htake).
  assert (Hpull : pull input cap consumed (inflator r) (take (Z.to_nat (produced r)) (inflated r)) = (Some (status, w), d))
    by (unfold pull; by rewrite Hlw, <- Hc). pose proof (len_nonneg w) as Hw0.
  destruct status; [| |split; simpl; try done; try lia; rewrite Htake; eapply finish_end; [exact Hp|lia|exact Hpull]].
  all: destruct ((_ =? consumed) && (_ =? produced r)) eqn:Eq.
  1, 3: apply andb_true_iff in Eq as [Ei Eo]; bool_facts; assert (w = []) as -> by (destruct w; [done|rewrite len_cons in Eo; pose proof (len_nonneg w); lia]);
    split; simpl; try done; try lia; rewrite Htake, app_nil_r, Ei; eapply finish_dry; [exact Hp|lia|exact Hpull|done|lia].
  all: assert (Hmove : total_in d <> total_in (inflator r) \/ w <> [])
    by (apply andb_false_iff in Eq as [?|?]; bool_facts; [left; lia|right; intros ->; by rewrite len_nil, Z.add_0_r in *]).
  all: split; [split; simpl; try done; try lia; rewrite Htake; eapply pulls_more; [exact Hp|lia|exact Hpull|done|done]|].
  all: simpl; apply andb_false_iff in Eq as [?|?]; bool_facts; lia.
Qed.

Lemma feed_loop d0 input cap r :
  feeding d0 input cap (r, 0) -> len input < W64 -> cap < W64 -> produced r = 0 ->
  exists x, iterate (feed_round (total_in d0) (total_out d0) input) (S (length input + length (inflated r))) (r, 0) = Some x /\
    fed d0 input cap x.
Proof.
  intros Hf Hin Hcap Hz.
  destruct (iterate_total (feed_round (total_in d0) (total_out d0) input) (feeding d0 input cap)
    (fun st => Z.to_nat (len input - st.2 + (cap - produced st.1))) (r, 0)) as [x Ex]; [|done|].
  { intros st st' Hst Er. pose proof (feed_round_spec d0 input cap st Hst Hin Hcap) as Hr. rewrite Er in Hr.
    destruct Hr as [Hr ?]. split; [done|]. destruct Hst, Hr. lia. }
  exists x. split.
  - eapply iterate_more; [exact Ex|]. simpl. rewrite Hz. rewrite <- (fd_cap _ _ _ _ Hf). unfold len. simpl. lia.
  - eapply (iterate_inv _ (feeding d0 input cap) (fed d0 input cap)); [| |exact Hf|exact Ex].
    + intros st st' Hst Er. pose proof (feed_round_spec d0 input cap st Hst Hin Hcap) as Hr. rewrite Er in Hr. by destruct Hr.
    + intros st y Hst Er. pose proof (feed_round_spec d0 input cap st Hst Hin Hcap) as Hr. by rewrite Er in Hr.
Qed.

(** ** Property *)

(** C38: [feed] always returns, and one call never yields more than the capacity fixed at
    construction. It calls the inflater on what is left of the input and of the room until the
    room is full, a call moves nothing, or one ends the stream, and yields exactly what the
    calls wrote, in order. It consumes what the calls took, except that the stream's end consumes
    the whole input. A success on non-empty input took or produced something, so a caller's loop
    over a finite input ends; a call that failed is [InflateFailed]; non-empty input of which
    nothing was taken and from which nothing came is [InflateStalled]. *)
Theorem feed_bounded (r : CompressedReader D) input :
  len input < W64 -> len (inflated r) < W64 ->
  exists res r', feed r input = Some (res, r') /\ len (inflated r') = len (inflated r) /\
    match res with
    | Ok (consumed, out) =>
        finish input (len (inflated r)) (inflator r) (Ok consumed) (inflator r') out /\ produced r' = len out /\
        0 <= consumed <= len input /\ len out <= len (inflated r) /\ (input = [] \/ 0 < consumed \/ 0 < len out)
    | Err e =>
        (exists w, finish input (len (inflated r)) (inflator r) (Err e) (inflator r') w) \/
        e = ProtocolViolation InflateStalled /\ input <> [] /\
          finish input (len (inflated r)) (inflator r) (Ok 0) (inflator r') []
    | Panic => False
    end.
Proof.
  intros Hin Hcap. unfold feed. set (r0 := {| inflator := inflator r; inflated := inflated r; produced := 0 |}).
  destruct (feed_loop (inflator r) input (len (inflated r)) r0) as ([x r'] & Ex & [Hc Ho Hfin Hx]); [|done|done|done|].
  { pose proof (len_nonneg input). pose proof (len_nonneg (inflated r)). split; simpl; try lia. rewrite take_0. constructor. }
  change (inflated r0) with (inflated r) in Ex. rewrite Ex. cbn [mbind option_bind]. simpl in Hc, Ho, Hfin, Hx.
  destruct x as [consumed|e|]; [|exists (Err e), r'; split_and!; [done|done|left; by eexists]|done].
  assert (Hout : len (take (Z.to_nat (produced r')) (inflated r')) = produced r') by (unfold len in *; rewrite length_take; lia).
  destruct ((consumed =? 0) && (produced r' =? 0) && negb (len input =? 0)) eqn:Es.
  - exists (Err (ProtocolViolation InflateStalled)), r'. split_and!; [done|done|right].
    apply andb_true_iff in Es as [[Ec Ep]%andb_true_iff En]. bool_facts. split_and!; [done|by intros ->|].
    rewrite Ec, Ep, take_0 in Hfin. done.
  - exists (Ok (consumed, take (Z.to_nat (produced r')) (inflated r'))), r'. split_and!; [done|done|done|done|lia|lia|lia|].
    apply andb_false_iff in Es as [Es|Es]; [apply andb_false_iff in Es as [Es|Es]; bool_facts; right; lia|].
    bool_facts. left. destruct input; [done|]. rewrite len_cons in Es. pose proof (len_nonneg input). lia.
Qed.
End facts.

(** A stored stream: every byte inflates to itself. *)
Record Stored := { taken : Z; given : Z }.

#[export] Instance Stored_inflator : Inflator Stored := {|
  total_in := taken;
  total_out := given;
  decompress := fun d input space =>
    let w := take (Z.to_nat space) input in
    (Some (match w with [] => BufError | _ => Status_Ok end, w), {| taken := taken d + len w; given := given d + len w |});
|}.

#[export] Instance Stored_ok : InflatorOk Stored.
Proof.
  intros d input space st w d' Hs E. simpl in E. simplify_eq. simpl.
  pose proof (len_nonneg (take (Z.to_nat space) input)).
  assert (len (take (Z.to_nat space) input) <= len input /\ len (take (Z.to_nat space) input) <= space)
    by (unfold len; rewrite length_take; lia).
  lia.
Qed.

Definition demo_reader : CompressedReader Stored := new {| taken := 0; given := 0 |} 2.

Lemma feed_bounded_witness :
  exists res r', feed demo_reader [Byte.x01; Byte.x02; Byte.x03] = Some (res, r') /\ len (inflated r') = len (inflated demo_reader) /\
    match res with
    | Ok (consumed, out) =>
        finish [Byte.x01; Byte.x02; Byte.x03] 2 (inflator demo_reader) (Ok consumed) (inflator r') out /\ produced r' = len out /\
        0 <= consumed <= 3 /\ len out <= 2 /\ ([Byte.x01; Byte.x02; Byte.x03] = [] \/ 0 < consumed \/ 0 < len out)
    | Err e =>
        (exists w, finish [Byte.x01; Byte.x02; Byte.x03] 2 (inflator demo_reader) (Err e) (inflator r') w) \/
        e = ProtocolViolation InflateStalled /\ [Byte.x01; Byte.x02; Byte.x03] <> [] /\
          finish [Byte.x01; Byte.x02; Byte.x03] 2 (inflator demo_reader) (Ok 0) (inflator r') []
    | Panic => False
    end.
Proof. apply (feed_bounded demo_reader [Byte.x01; Byte.x02; Byte.x03]); vm_compute; reflexivity. Defined.
